(* ===== verification/_CoqProject ===== *)
-Q . S2P
Prelude.v
Wire.v
Protocol.v
ProtocolFacts.v
Server.v
Serving.v
ServingFacts.v
ServingSpec.v
Codec.v
Session.v
SessionFacts.v
System.v
SessionSpec.v
Peers.v
PeersFacts.v
PeersView.v
PeersRun.v
PeersScript.v
PeersSpec.v
PeersLive.v
Hci.v
HideUas.v
HciFacts.v
UnitTests.v
Engine.v
EngineFacts.v
EngineSteps.v
EngineLive.v
EngineSpec.v
EngineRuns.v
Host.v
HostFacts.v
RequestTypes.v
EndToEnd.v
DeviceToHost.v
Fairness.v
Progress.v
HostSpec.v
Cli.v
Attach.v
Devices.v
DevicesSpec.v
Probes.v
