(* ===== verification/Prelude.v ===== *)
(** * usbip-macos: a verification development

    usbip-macos attaches USB devices exported by a USB/IP server to a Mac.  A client session speaks the
    wire protocol over TCP; a virtual host controller, driven by the kernel through Apple's IOUSBHost
    framework, shows the device to macOS; the engine between them turns the transfer messages the host
    queues on endpoint rings into URBs for the server, and the replies into completed messages.  This
    library models the program file by file and proves what each part promises, up to the path of one
    reply from the wire into the host's memory and the end of the main program.

    ** Parts

    - src/src/protocol.rs, the wire format: [Wire] (the bytes and tokio crates as classes with laws),
      [Protocol] (data types, encoders, readers), [ProtocolFacts] (a calculus of postconditions for
      readers), [Codec] (what the readers accept, isochronous data).
    - src/tests/support/server.rs, the peer the repository tests against: [Server] parses commands and
      prints replies independently of the client, so that round trips compare two programs; [Serving] is
      the server at work ([Conn]: the loop of serve_urbs, the pending table, the endpoint workers and the
      writer as an interleaving step relation; [Door]: the request phase), [ServingFacts] (the invariant
      [served]), [ServingSpec] (theorems for every client and device).
    - src/src/client.rs, the session: [Session] (one function per locked region: [submit], [unlink],
      [unlink_all], [close], [deliver], [on_unlink], [next_batch], and [list_devices], [import]),
      [SessionFacts] (the invariant [ok]), [System] (the reader task, the writer task and the clones as
      an interleaving step relation), [SessionSpec] (the theorems about every reachable state).
    - src/src/hci.rs, messages and descriptors: [Hci] (decoding, statuses, addresses, the endpoint
      descriptor parser, [hide_uas]), [HideUas] and [HciFacts] (their specifications).
    - src/src/engine.rs: [Engine] (every operation; [Ring] is the file's trait, [SessionOps] its use of
      the session), [EngineFacts] (termination and the small steps [pstep] of [pump]), [EngineSteps] (the
      operations explained by labelled steps [estep], interleaved with the host and the session), [EngineLive]
      (the session and a ring that keep the laws), [EngineSpec] (the invariant [traced], what operations
      return), [EngineRuns] (runs of the code alone, [runs], on rings and a session that write down what they
      are called with; [estep] only serves to prove its theorems).
    - src/src/host.rs: [Host] (the ring walk, the frame clock, every command and doorbell, capabilities,
      the life of the controller), [HostFacts] and [HostSpec] (theorems for every run of the handlers).
    - src/src/cli.rs and src/src/main.rs: [Cli] (parsing, selecting, importing), [Attach] (listing,
      attaching with its waits, [main]).
    - Across parts: [RequestTypes] (rings, engine, session: every request is well typed), [EndToEnd]
      (session and engine: a reply reaches the message it answers), [Peers] (session and server,
      connected: the bytes one side writes arrive at the other, and the connection may break at any time).
      [PeersFacts] relates the two byte streams to lists of commands and messages, [PeersView] the
      session's tables to the messages it has handled, [PeersRun] puts both into the invariant [tied] and
      shows that every step keeps it; [PeersScript] evaluates runs, [PeersSpec] and [PeersLive] have the
      theorems.  [DeviceToHost] runs the engine on such a session: its theorem reaches from the server's
      device to the host's memory.  [Fairness] shows that the engine issues only requests such theorems are
      about, [Progress] that a transfer at the server can be completed.
    - What the repository tests with: [Devices] (src/tests/support/device.rs, the loopback device, its URBs in
      progress as a step relation; [Export::new] of the server), [DevicesSpec] (its theorems), [Probes]
      (src/examples, over nusb as a class; a bulk loopback is the class [LoopbackLaws], which the device
      discharges), [UnitTests] (the tests of hide_uas, run on the model).

    The parts meet at interfaces.  The engine is proved against [RingLaws], [SessionLaws] and
    [SessionTrace]; [EngineLive.Live] discharges them with the session, [EndToEnd.wire_ops] with the session
    among its tasks, [DeviceToHost.net_ops] and [Progress.net_laws] with the session on its server ([EndToEnd.Carries] is what both
    have in common), and [RequestTypes.io_ring_reads] discharges [TransferLaws] with the driver's ring.  The
    theorems on runs of the engine's code wrap whatever ring and session there is: [EngineRuns.Recorded] keeps
    [RingLaws] and [TransferLaws], [EngineRuns.Accepting] keeps [SessionTrace].  The
    driver is proved against [EngineLaws], which [HostSpec.EngineForHost] discharges with the engine.
    Apple's framework, its SDK constants and the crates are parameters with named laws; each has an
    instance the witnesses run on.

    ** How code is modelled

    A function that may panic, or whose loop runs on fuel, ends in an [outcome]: [Done], [Panic] or
    [OutOfFuel]; that it is [Done] is a theorem, never an assumption.  Fallible functions return a [result]
    with the code's error, whose text is represented by what it is formatted from.  [usize] is [nat], the
    other integers are [Z] at their width, with [wrap] and [swrap] where the code wraps (release builds;
    [Status.neg_i32] is where a debug build would panic).  Strings and buffers are lists of bytes.  A
    [HashMap] is a [gmap]; where the code visits one in Rust's unspecified order, the theorems hold for the
    order of the model and do not depend on it.  A mutex is a function on the state it guards; what may
    happen between two locked regions is a step relation or a parameter.  Channels are the lists of what was
    sent on them.  Logging is left out.

    ** What the theorems show

    - Wire: each command and reply, device list and import reply read back by the other side is what was
      sent; the readers return on every input and accept only what is within the bounds asked for.
    - Session: whatever the interleaving and whatever the server sends, every accepted request is answered
      exactly once, with the reply to itself; the server reads exactly the accepted requests; the writer
      writes whole frames in order; calls return, and unlinking has its life cycle.
    - Server: a submission is resolved at most once and not forgotten, an endpoint keeps its order, the loop
      never panics, a device is served to one connection at a time.
    - Session and server together: answers are what the devices made of the very requests; what is reported
      as unlinked was given up by the server; in a quiet moment the pending tables agree; requests of an
      endpoint complete in order; as long as neither side breaks, everything can be answered.
    - Engine: it always returns; whatever its code completes on a ring delivers the result that came for the
      head of an active ring, in order of submission, at most once, or answers a message that has no result;
      every request accepted is awaited, answered or unlinked; after every doorbell and result the endpoint is settled, its head
      either handled or at the server with a task waiting; requests are well typed.
    - Descriptors: [hide_uas] and the parser compute their specifications on every byte string.
    - Driver: every command is answered exactly once, with named exceptions; addresses, devices and endpoints
      agree with the engine; frames increase; completions stay inside the host's buffers.
    - Program: parsing succeeds on what clap accepts; importing ends with the selected device; attaching waits
      only for power, Enter, a signal or the end of the session, and when it ends the device is unplugged, the
      controller destroyed and every request answered.
    - End to end: a reply completes the very message its request was built from, unaltered; and it is what
      the device at the far end made of that request.  The requests are such as the server takes, if the host
      describes its endpoints as the device does; and while nothing breaks, a transfer can always be completed with what the
      device makes of it.
    - Test equipment: the loopback device returns what was written to it, in order, within the bounds of each
      request; the probe that relies on it passes on every such device.

    ** Fuel and bounds

    - [Session.next_seqnum]: as many turns as numbers in use, and two more (0 and the answer); enough while
      fewer than 2^31 requests are outstanding.  Statements that need numbers not to repeat assume fewer than
      2^32 commands ([System.no_wrap]).
    - [Engine.fill]: [FILL_FUEL] is 33, one above the deepest pipeline.  [Engine.pump]: twice the messages the
      host has queued, and two, since every round completes a message or clears stale URBs once.  Tokens are
      distinct for the first 2^64 URBs.
    - [Host.IoRing.walk] has the code's own bound of 4 turns per message.  [Host.FrameClock.wait] takes its
      fuel as an argument: the readings until the clock moves on; [HostFacts.ClockFacts.wait_returns] says when
      it is enough.
    - [Probes.read_back] takes its fuel as an argument: 4095 transfers are enough for every round.
    - [Hci.EndpointInfo.walk] and [Hci.scan_groups] run on the length of their input, of which every turn
      consumes at least a byte.  [Cli.decimal] has five digits, as a [u16] has at most.

    ** Not modelled

    The TCP connection, tokio's scheduler and Apple's framework themselves (parameters); clap's parsing (its
    guarantees are [Cli.Matches.accepted]); signals and the terminal (the parameter [Attach.world]); logging and
    the text of errors; the test suites, the class devices of src/tests/support
    and their harness (the server's devices are the class [Serving.Device]); the unit tests of host.rs, which
    compare constants with Apple's SDK; nusb and what the examples print; the scripts; memory safety of the
    unsafe blocks, beyond the bounds of what is read and written. *)

From stdpp Require Import base tactics option list gmap fin_maps sets.

Open Scope Z_scope.

(** ** Notation and hint databases of the development *)

Declare Scope usbip_scope.
Delimit Scope usbip_scope with usbip.

(** [usb]: facts that close side conditions (ranges, lengths);
    [wire]: rewriting of the byte codecs;
    [done_db]: totality facts, "this code returns". *)
Create HintDb usb discriminated.
Create Rewrite HintDb wire.
Create HintDb done_db discriminated.

(** ** Integers at their machine width *)

(** Wrap-around to an unsigned integer of [w] bits, Rust's [as u8], [as u16], .... *)
Definition wrap (w x : Z) : Z := x mod 2 ^ w.

(** The two's complement reading of the low [w] bits, Rust's [as i32]. *)
Definition swrap (w x : Z) : Z :=
  let y := wrap w x in if y <? 2 ^ (w - 1) then y else y - 2 ^ w.

(** [x] is a value of the unsigned (signed) type of [w] bits. *)
Definition is_u (w x : Z) : Prop := 0 ≤ x < 2 ^ w.
Definition is_i (w x : Z) : Prop := - 2 ^ (w - 1) ≤ x < 2 ^ (w - 1).

#[export] Instance is_u_dec w x : Decision (is_u w x).
Proof. unfold is_u. apply _. Defined.
#[export] Instance is_i_dec w x : Decision (is_i w x).
Proof. unfold is_i. apply _. Defined.

(** [&[u8]], [Vec<u8>] and [String] (as its UTF-8 bytes). *)
Definition bytes_ok (bs : list Z) : Prop := Forall (is_u 8) bs.

#[export] Instance bytes_ok_dec bs : Decision (bytes_ok bs).
Proof. unfold bytes_ok. apply _. Defined.

(** ** What running a piece of code can end in *)

(** [Panic]: the Rust code panics (index out of range, [expect] on [None], a read past the end
    of a fixed buffer).  [OutOfFuel]: the bound on the iterations of a loop ran out. *)
Inductive outcome (A : Type) : Type :=
| Done (a : A)
| Panic
| OutOfFuel.
Arguments Done {A} a.
Arguments Panic {A}.
Arguments OutOfFuel {A}.

#[export] Instance outcome_ret : MRet outcome := λ A a, Done a.
#[export] Instance outcome_bind : MBind outcome := λ A B f m,
  match m with Done a => f a | Panic => Panic | OutOfFuel => OutOfFuel end.
#[export] Instance outcome_fmap : FMap outcome := λ A B f m,
  match m with Done a => Done (f a) | Panic => Panic | OutOfFuel => OutOfFuel end.

(** Rust's [Result]. *)
Inductive result (E A : Type) : Type :=
| Ok (a : A)
| Err (e : E).
Arguments Ok {E A} a.
Arguments Err {E A} e.

Definition is_ok {E A} (r : result E A) : bool :=
  match r with Ok _ => true | Err _ => false end.

(** The code returns: it neither panics nor runs out of fuel. *)
Definition returns {A} (m : outcome A) : Prop := ∃ a, m = Done a.

(** ** Indexing and slicing with Rust's bounds checks *)

(** [v[i]] *)
Definition idx {A} (l : list A) (i : nat) : outcome A :=
  match l !! i with Some x => Done x | None => Panic end.

(** [&v[i..j]] *)
Definition slice {A} (l : list A) (i j : nat) : outcome (list A) :=
  if decide (i ≤ j ∧ j ≤ length l)%nat then Done (take (j - i) (drop i l)) else Panic.

(** [v.get(i..j)] *)
Definition get_range {A} (l : list A) (i j : nat) : option (list A) :=
  if decide (i ≤ j ∧ j ≤ length l)%nat then Some (take (j - i) (drop i l)) else None.

(** [v[i..i + src.len()].copy_from_slice(src)] once the range is known to be in bounds. *)
Definition splice {A} (l : list A) (i : nat) (src : list A) : list A :=
  take i l ++ src ++ drop (i + length src) l.

(** [v[i..i + src.len()].copy_from_slice(src)] *)
Definition copy_at {A} (l : list A) (i : nat) (src : list A) : outcome (list A) :=
  if decide (i + length src ≤ length l)%nat then Done (splice l i src) else Panic.

(** A constant index into a fixed-size array, which the compiler checks. *)
Definition at_ (l : list Z) (i : nat) : Z := nth i l 0.

(** [iter().position(p)] *)
Fixpoint position {A} (p : A → bool) (l : list A) : option nat :=
  match l with
  | [] => None
  | x :: l => if p x then Some 0%nat else S <$> position p l
  end.

(** [iter().find(p)] *)
Fixpoint find_first {A} (p : A → bool) (l : list A) : option A :=
  match l with
  | [] => None
  | x :: l => if p x then Some x else find_first p l
  end.

(** ** Byte order *)

(** [to_le_bytes] / [from_le_bytes] for integers of [n] bytes. *)
Fixpoint le_bytes (n : nat) (v : Z) : list Z :=
  match n with
  | O => []
  | S n => v mod 256 :: le_bytes n (v / 256)
  end.

Fixpoint le_to_Z (bs : list Z) : Z :=
  match bs with
  | [] => 0
  | b :: bs => b + 256 * le_to_Z bs
  end.

(** [to_be_bytes] / [from_be_bytes]. *)
Definition be_bytes (n : nat) (v : Z) : list Z := reverse (le_bytes n v).
Definition be_to_Z (bs : list Z) : Z := le_to_Z (reverse bs).

#[global] Arguments be_bytes : simpl never.
#[global] Arguments be_to_Z : simpl never.

(** ** Lemmas on integers *)

Lemma wrap_id w x : is_u w x → wrap w x = x.
Proof. intros H. by apply Z.mod_small. Qed.

Lemma wrap_is_u w x : 0 ≤ w → is_u w (wrap w x).
Proof. intros. apply Z.mod_pos_bound. lia. Qed.

Lemma swrap_is_i w x : 0 < w → is_i w (swrap w x).
Proof.
  intros Hw. unfold swrap, is_i. pose proof (wrap_is_u w x ltac:(lia)) as [? ?].
  assert (2 ^ w = 2 * 2 ^ (w - 1)) by (rewrite <- Z.pow_succ_r; [f_equal; lia | lia]).
  case_match; lia.
Qed.

Lemma swrap_wrap w x : 0 < w → is_i w x → swrap w (wrap w x) = x.
Proof.
  intros Hw [? ?]. unfold swrap, wrap. rewrite Z.mod_mod by lia.
  assert (2 ^ w = 2 * 2 ^ (w - 1)) by (rewrite <- Z.pow_succ_r; [f_equal; lia | lia]).
  destruct (decide (0 ≤ x)).
  - rewrite Z.mod_small by lia. case_match; lia.
  - assert (x mod 2 ^ w = x + 2 ^ w) as ->.
    { rewrite <- (Z.mod_small (x + 2 ^ w) (2 ^ w)) by lia.
      replace (x + 2 ^ w) with (x + 1 * 2 ^ w) by lia. by rewrite Z.mod_add by lia. }
    case_match; lia.
Qed.

Lemma is_u_le w w' x : w ≤ w' → is_u w x → is_u w' x.
Proof. intros ? [? ?]. split; [lia|]. pose proof (Z.pow_le_mono_r 2 w w'). lia. Qed.

#[export] Hint Resolve wrap_is_u swrap_is_i : usb.
#[export] Hint Extern 1 (_ ≤ _) => lia : usb.
#[export] Hint Extern 1 (_ < _) => lia : usb.

(** ** Lemmas on byte order *)

Lemma length_le_bytes n v : length (le_bytes n v) = n.
Proof. revert v. induction n; intros; simpl; auto. Qed.

Lemma length_be_bytes n v : length (be_bytes n v) = n.
Proof. unfold be_bytes. by rewrite length_reverse, length_le_bytes. Qed.

Lemma le_bytes_ok n v : bytes_ok (le_bytes n v).
Proof.
  revert v. induction n; intros; simpl; constructor; [|apply IHn].
  apply Z.mod_pos_bound. lia.
Qed.

Lemma be_bytes_ok n v : bytes_ok (be_bytes n v).
Proof. apply Forall_reverse, le_bytes_ok. Qed.

Lemma pow256_S n : 2 ^ (8 * Z.of_nat (S n)) = 256 * 2 ^ (8 * Z.of_nat n).
Proof. rewrite Nat2Z.inj_succ. change 256 with (2 ^ 8). rewrite <- Z.pow_add_r; [f_equal|..]; lia. Qed.

Lemma le_to_Z_bytes n v : le_to_Z (le_bytes n v) = v mod 2 ^ (8 * Z.of_nat n).
Proof.
  revert v. induction n as [|n IH]; intros v; [by rewrite Z.mod_1_r|].
  cbn [le_bytes le_to_Z]. rewrite IH, pow256_S, Z.rem_mul_r; lia.
Qed.

Lemma be_to_Z_bytes n v : be_to_Z (be_bytes n v) = v mod 2 ^ (8 * Z.of_nat n).
Proof. unfold be_to_Z, be_bytes. by rewrite reverse_involutive, le_to_Z_bytes. Qed.

Lemma le_to_Z_bound bs : bytes_ok bs → is_u (8 * Z.of_nat (length bs)) (le_to_Z bs).
Proof.
  induction 1 as [|b bs Hb _ IH]; [split; cbn; lia|].
  unfold is_u in *. cbn [length le_to_Z]. rewrite pow256_S. lia.
Qed.

Lemma be_to_Z_bound bs : bytes_ok bs → is_u (8 * Z.of_nat (length bs)) (be_to_Z bs).
Proof.
  intros H. rewrite <- length_reverse. apply le_to_Z_bound. by apply Forall_reverse.
Qed.

Lemma le_bytes_to_Z bs : bytes_ok bs → le_bytes (length bs) (le_to_Z bs) = bs.
Proof.
  induction 1 as [|b bs Hb _ IH]; [done|]. unfold is_u in Hb. cbn [length le_to_Z le_bytes].
  rewrite Z.mul_comm, Z.mod_add, Z.div_add by lia.
  rewrite Z.mod_small, (Z.div_small b) by lia. by rewrite Z.add_0_l, IH.
Qed.

Lemma be_bytes_to_Z bs : bytes_ok bs → be_bytes (length bs) (be_to_Z bs) = bs.
Proof.
  intros H. unfold be_bytes, be_to_Z. rewrite <- (length_reverse bs), le_bytes_to_Z.
  - apply reverse_involutive.
  - by apply Forall_reverse.
Qed.

Lemma be_bytes_mod n v : be_bytes n (v mod 2 ^ (8 * Z.of_nat n)) = be_bytes n v.
Proof.
  rewrite <- be_to_Z_bytes. rewrite <- (length_be_bytes n v) at 1.
  apply be_bytes_to_Z, be_bytes_ok.
Qed.

#[export] Hint Resolve le_bytes_ok be_bytes_ok : usb.
#[export] Hint Rewrite length_le_bytes length_be_bytes @length_app @length_nil @length_cons : wire.

(** ** Lemmas on indexing *)

Lemma idx_done {A} (l : list A) i : (i < length l)%nat → returns (idx l i).
Proof. intros H. unfold returns, idx. destruct (lookup_lt_is_Some_2 l i H) as [x ->]. eauto. Qed.

Lemma idx_lookup {A} (l : list A) i x : l !! i = Some x → idx l i = Done x.
Proof. intros H. unfold idx. by rewrite H. Qed.

Lemma idx_Done_inv {A} (l : list A) i x : idx l i = Done x → l !! i = Some x.
Proof. unfold idx. destruct (l !! i); congruence. Qed.

Lemma at_lookup l i : (i < length l)%nat → l !! i = Some (at_ l i).
Proof.
  intros H. unfold at_. revert i H. induction l as [|x l IH]; intros [|i] H; simpl in *; try lia;
    [done|]. apply IH. lia.
Qed.

Lemma idx_at l i : (i < length l)%nat → idx l i = Done (at_ l i).
Proof. intros H. by apply idx_lookup, at_lookup. Qed.

(** An element is determined by a key that does not repeat. *)
Lemma NoDup_fmap_eq {A K} (f : A → K) l x y : NoDup (f <$> l) → x ∈ l → y ∈ l → f x = f y → x = y.
Proof.
  intros H [i Hi]%list_elem_of_lookup [j Hj]%list_elem_of_lookup E.
  assert (i = j) as ->; [|congruence].
  eapply (NoDup_lookup (f <$> l)); [done|..]; rewrite list_lookup_fmap; [by rewrite Hi|by rewrite Hj, E].
Qed.

Lemma at_u8 l i : bytes_ok l → is_u 8 (at_ l i).
Proof.
  intros H. unfold at_. revert i. induction H as [|x l Hx _ IH]; intros [|i]; simpl; try done;
    split; lia.
Qed.

Lemma at_drop l i k : at_ (drop i l) k = at_ l (i + k).
Proof.
  unfold at_. revert i. induction l as [|x l IH]; intros [|i]; simpl; try done.
  by destruct k.
Qed.

Lemma at_take l n k : (k < n)%nat → at_ (take n l) k = at_ l k.
Proof.
  unfold at_. revert n k. induction l as [|x l IH]; intros [|n] [|k] H; simpl; try done; try lia.
  apply IH. lia.
Qed.

Lemma slice_done {A} (l : list A) i j :
  (i ≤ j)%nat → (j ≤ length l)%nat → slice l i j = Done (take (j - i) (drop i l)).
Proof. intros. unfold slice. by rewrite decide_True. Qed.

Lemma get_range_Some {A} (l l' : list A) i j :
  get_range l i j = Some l' ↔ (i ≤ j ∧ j ≤ length l)%nat ∧ l' = take (j - i) (drop i l).
Proof. unfold get_range. case_decide; naive_solver. Qed.

Lemma length_splice {A} (l src : list A) i :
  (i + length src ≤ length l)%nat → length (splice l i src) = length l.
Proof. intros. unfold splice. rewrite !length_app, length_take, length_drop. lia. Qed.

Lemma splice_lookup_inside {A} (l src : list A) i k :
  (i + length src ≤ length l)%nat → (k < length src)%nat → splice l i src !! (i + k)%nat = src !! k.
Proof.
  intros. unfold splice. rewrite lookup_app_r by (rewrite length_take; lia).
  rewrite length_take, lookup_app_l by lia. f_equal. lia.
Qed.

Lemma splice_lookup_outside {A} (l src : list A) i k :
  (i + length src ≤ length l)%nat → (k < i ∨ i + length src ≤ k)%nat →
  splice l i src !! k = l !! k.
Proof.
  intros Hl [Hk|Hk]; unfold splice.
  - rewrite lookup_app_l by (rewrite length_take; lia). by rewrite lookup_take_lt.
  - rewrite lookup_app_r by (rewrite length_take; lia).
    rewrite lookup_app_r by (rewrite length_take; lia).
    rewrite lookup_drop, length_take. f_equal. lia.
Qed.

Lemma take_splice {A} (l src : list A) i n :
  (i + length src ≤ n)%nat → (n ≤ length l)%nat →
  take n (splice l i src) = splice (take n l) i src.
Proof.
  intros Hi Hn. apply list_eq. intros k. destruct (decide (k < n)%nat) as [Hk|Hk].
  - rewrite lookup_take_lt by done.
    destruct (decide (i ≤ k ∧ k < i + length src)%nat) as [[H1 H2]|H].
    + replace k with (i + (k - i))%nat by lia.
      rewrite !splice_lookup_inside; rewrite ?length_take; lia || done.
    + rewrite !splice_lookup_outside by (rewrite ?length_take; lia). by rewrite lookup_take_lt.
  - rewrite !lookup_ge_None_2; [done| |rewrite length_take; lia].
    rewrite length_splice; rewrite length_take; lia.
Qed.

Lemma position_Some {A} (p : A → bool) l i :
  position p l = Some i →
  (∃ x, l !! i = Some x ∧ p x = true) ∧ ∀ j x, (j < i)%nat → l !! j = Some x → p x = false.
Proof.
  revert i. induction l as [|y l IH]; intros i; [done|]. simpl.
  destruct (p y) eqn:Hp.
  - intros [= <-]. split; [eauto | lia].
  - intros (k & Hk & ->)%fmap_Some. destruct (IH k Hk) as [? Hlt]. split; [done|].
    intros [|j] x ? ?; simplify_eq/=; [done|]. eapply Hlt; eauto. lia.
Qed.

Lemma position_None {A} (p : A → bool) l : position p l = None ↔ Forall (λ x, p x = false) l.
Proof.
  induction l as [|y l IH]; simpl; [done|].
  rewrite Forall_cons. destruct (p y); [naive_solver|]. rewrite fmap_None. naive_solver.
Qed.

Lemma find_first_Some {A} (p : A → bool) l x :
  find_first p l = Some x ↔
  ∃ l1 l2, l = l1 ++ x :: l2 ∧ p x = true ∧ Forall (λ y, p y = false) l1.
Proof.
  induction l as [|y l IH]; simpl.
  { split; [done|]. intros (l1 & ? & ? & _). by destruct l1. }
  destruct (p y) eqn:Hp.
  - split.
    + intros [= ->]. exists [], l. eauto.
    + intros ([|z l1] & l2 & ? & ? & Hall); simplify_eq/=; [done|].
      apply Forall_cons in Hall as [? _]. congruence.
  - rewrite IH. split.
    + intros (l1 & l2 & -> & ? & ?). exists (y :: l1), l2. eauto.
    + intros ([|z l1] & l2 & ? & ? & Hall); simplify_eq/=; [congruence|].
      apply Forall_cons in Hall as [_ ?]. eauto.
Qed.

Lemma find_first_None {A} (p : A → bool) l :
  find_first p l = None ↔ Forall (λ x, p x = false) l.
Proof.
  induction l as [|y l IH]; simpl; [done|].
  rewrite Forall_cons. destruct (p y); naive_solver.
Qed.

Lemma find_first_in {A} (p : A → bool) l x : find_first p l = Some x → x ∈ l ∧ p x = true.
Proof. intros (l1 & l2 & -> & Hx & _)%find_first_Some. split; [set_solver|done]. Qed.

Lemma find_first_not_in {A} (p : A → bool) l x : find_first p l = None → x ∈ l → p x = false.
Proof. intros H%find_first_None. rewrite Forall_forall in H. apply H. Qed.

(** *** The keys of a map *)

Lemma keys_delete {A} (m : gmap Z A) k x :
  m !! k = Some x → k :: (map_to_list (delete k m)).*1 ≡ₚ (map_to_list m).*1.
Proof. intros H. by rewrite <- (map_to_list_delete m k x H). Qed.

Lemma keys_insert {A} (m : gmap Z A) k x :
  m !! k = None → (map_to_list (<[k := x]> m)).*1 ≡ₚ k :: (map_to_list m).*1.
Proof. intros H. by rewrite map_to_list_insert. Qed.

Lemma keys_insert_submseteq {A} (m : gmap Z A) k x :
  (map_to_list (<[k := x]> m)).*1 ⊆+ k :: (map_to_list m).*1.
Proof.
  destruct (m !! k) as [y|] eqn:E; [|by rewrite keys_insert].
  rewrite <- insert_delete_eq, keys_insert by apply lookup_delete_eq.
  rewrite (keys_delete m k y E). by apply submseteq_cons.
Qed.

Lemma elem_of_keys {A} (m : gmap Z A) k : k ∈ (map_to_list m).*1 ↔ is_Some (m !! k).
Proof.
  rewrite list_elem_of_fmap. split.
  - intros ([k' n] & -> & H%elem_of_map_to_list). eauto.
  - intros [n H%elem_of_map_to_list]. by exists (k, n).
Qed.

Lemma NoDup_keys {A} (m : gmap Z A) : NoDup (map_to_list m).*1.
Proof. apply NoDup_fst_map_to_list. Qed.

Lemma filter_all {A} (P : A → Prop) `{!∀ x, Decision (P x)} (l : list A) :
  Forall P l → base.filter P l = l.
Proof. induction 1 as [|x l Hx _ IH]; [done|]. by rewrite filter_cons_True, IH. Qed.

(** A partial function without duplicate results tells the elements apart. *)
Lemma omap_NoDup_inj {A B} (f : A → option B) l x y b :
  NoDup (omap f l) → x ∈ l → y ∈ l → f x = Some b → f y = Some b → x = y.
Proof.
  intros Hnd Hx Hy Ex Ey.
  assert (∀ z l, z ∈ l → f z = Some b → b ∈ omap f l) as Hin
    by (intros z k Hz Ez; apply list_elem_of_omap; eauto).
  induction l as [|z l IH]; [by apply elem_of_nil in Hx|]. cbn in Hnd.
  assert (∀ w, w ∈ l → f w = Some b → f z ≠ Some b) as Hz.
  { intros w Hw Ew E. rewrite E in Hnd. apply NoDup_cons in Hnd as [Hnot _]. by eapply Hnot, Hin. }
  apply elem_of_cons in Hx as [->|Hx], Hy as [->|Hy]; [done|..].
  - by destruct (Hz y Hy Ey).
  - by destruct (Hz x Hx Ex).
  - apply IH; [|done..]. destruct (f z); [by apply NoDup_cons in Hnd as [_ ?]|done].
Qed.

Lemma omap_id_inj {A} (l : list (option A)) i j x :
  NoDup (omap id l) → l !! i = Some (Some x) → l !! j = Some (Some x) → i = j.
Proof.
  revert i j. induction l as [|o l IH]; intros [|i] [|j] Hnd Hi Hj; try done; cbn in *;
    try injection Hi as ->; try injection Hj as ->; cbn in Hnd.
  - apply NoDup_cons in Hnd as [[] _]. apply list_elem_of_omap. exists (Some x).
    split; [by eapply list_elem_of_lookup_2|done].
  - apply NoDup_cons in Hnd as [[] _]. apply list_elem_of_omap. exists (Some x).
    split; [by eapply list_elem_of_lookup_2|done].
  - f_equal. apply IH; [|done..]. destruct o; [by apply NoDup_cons in Hnd as [_ ?]|done].
Qed.

Lemma filter_sublist {A} (P : A → Prop) `{!∀ x, Decision (P x)} (l k : list A) :
  l `sublist_of` k → base.filter P l `sublist_of` base.filter P k.
Proof.
  induction 1 as [|x l k _ IH|x l k _ IH]; [done|..]; rewrite ?filter_cons; case_decide;
    try done; by constructor.
Qed.

(** ** Proof steps of the development *)

(** Splits every [if] on a boolean or decidable condition in the goal, turning boolean
    comparisons into their propositions. *)
Ltac split_if :=
  repeat first
    [ case_decide
    | match goal with
      | |- context [if ?b then _ else _] => destruct b eqn:?
      end ].

Ltac bool_props :=
  repeat match goal with
  | H : (_ && _) = true |- _ => apply andb_true_iff in H as [??]
  | H : (_ || _) = false |- _ => apply orb_false_iff in H as [??]
  | H : negb _ = true |- _ => apply negb_true_iff in H
  | H : negb _ = false |- _ => apply negb_false_iff in H
  | H : (_ =? _) = true |- _ => apply Z.eqb_eq in H
  | H : (_ =? _) = false |- _ => apply Z.eqb_neq in H
  | H : (_ <? _) = true |- _ => apply Z.ltb_lt in H
  | H : (_ <? _) = false |- _ => apply Z.ltb_ge in H
  | H : (_ <=? _) = true |- _ => apply Z.leb_le in H
  | H : (_ <=? _) = false |- _ => apply Z.leb_gt in H
  end.

(** Byte equalities up to reassociation and lengths. *)
Ltac wire_norm := rewrite <- ?app_assoc; cbn [app].
Ltac wire_len := autorewrite with wire; try lia.
