(* ===== verification/Wire.v ===== *)
(** * Wire: the byte-level interfaces the protocol code is written against

    The crates [bytes] (cursors over byte slices) and [tokio] (asynchronous byte streams) are not
    part of the repository.  Each is an interface here: a class with the operations the code
    calls, whose laws state their documented behaviour.  [Module Reference] gives one
    implementation of each, so that the laws are seen to be satisfiable and concrete inputs can
    be evaluated.  The file also models what the code uses of the standard library on bytes:
    [slice::as_chunks] and [String::from_utf8_lossy]. *)

From stdpp Require Import base tactics option list.
From S2P Require Import Prelude.

(** ** The [bytes] crate *)

(** A [&mut [u8]] being filled: the bytes written so far and those not yet overwritten. *)
Definition wcursor : Type := list Z * list Z.

Class BytesCrate := {
  (** [BufMut for BytesMut]: grows at its end. *)
  put_u32 : Z → list Z → list Z;
  put_i32 : Z → list Z → list Z;
  put_slice : list Z → list Z → list Z;
  put_bytes : Z → nat → list Z → list Z;
  (** [BufMut for &mut [u8]]: overwrites and advances. *)
  slice_put_u16 : Z → wcursor → outcome wcursor;
  slice_put_u32 : Z → wcursor → outcome wcursor;
  slice_put_slice : list Z → wcursor → outcome wcursor;
  (** [Buf for &[u8]]: reads and advances. *)
  get_u8 : list Z → outcome (Z * list Z);
  get_u16 : list Z → outcome (Z * list Z);
  get_u32 : list Z → outcome (Z * list Z);
  get_i32 : list Z → outcome (Z * list Z);
  advance : nat → list Z → outcome (list Z);
}.

(** What reading [n] bytes from the front of a slice does: it panics when fewer remain. *)
Definition take_front {A} (n : nat) (f : list Z → A) (b : list Z) : outcome (A * list Z) :=
  if decide (n ≤ length b)%nat then Done (f (take n b), drop n b) else Panic.

(** What writing [bs] to the front of a slice does: it panics when there is no room. *)
Definition fill_front (bs : list Z) (c : wcursor) : outcome wcursor :=
  if decide (length bs ≤ length c.2)%nat then Done (c.1 ++ bs, drop (length bs) c.2) else Panic.

Class BytesLaws (B : BytesCrate) : Prop := {
  put_u32_spec v b : put_u32 v b = b ++ be_bytes 4 v;
  put_i32_spec v b : put_i32 v b = b ++ be_bytes 4 v;
  put_slice_spec s b : put_slice s b = b ++ s;
  put_bytes_spec v n b : put_bytes v n b = b ++ replicate n v;
  slice_put_u16_spec v c : slice_put_u16 v c = fill_front (be_bytes 2 v) c;
  slice_put_u32_spec v c : slice_put_u32 v c = fill_front (be_bytes 4 v) c;
  slice_put_slice_spec s c : slice_put_slice s c = fill_front s c;
  get_u8_spec b : get_u8 b = take_front 1 be_to_Z b;
  get_u16_spec b : get_u16 b = take_front 2 be_to_Z b;
  get_u32_spec b : get_u32 b = take_front 4 be_to_Z b;
  get_i32_spec b : get_i32 b = take_front 4 (λ s, swrap 32 (be_to_Z s)) b;
  advance_spec n b : advance n b = snd <$> take_front n id b;
}.

(** ** [tokio::io::AsyncRead] *)

(** [std::io::Error] by its kind. *)
Inductive io_error : Type :=
| UnexpectedEof
| OtherIo (code : Z).

#[export] Instance io_error_eq_dec : EqDecision io_error.
Proof. solve_decision. Defined.

Class AsyncRead (R : Type) := {
  read_exact : nat → R → result io_error (list Z) * R;
  read_u32 : R → result io_error Z * R;
}.

(** [incoming r]: the bytes the peer delivers before the stream ends.  A read waits for the bytes
    it needs and fails when the stream ends first. *)
Class AsyncReadLaws (R : Type) {AR : AsyncRead R} := {
  incoming : R → list Z;
  incoming_ok r : bytes_ok (incoming r);
  read_exact_enough n r : (n ≤ length (incoming r))%nat →
    ∃ r', read_exact n r = (Ok (take n (incoming r)), r') ∧ incoming r' = drop n (incoming r);
  read_exact_short n r : (length (incoming r) < n)%nat →
    ∃ e r', read_exact n r = (Err e, r');
  read_u32_enough r : (4 ≤ length (incoming r))%nat →
    ∃ r', read_u32 r = (Ok (be_to_Z (take 4 (incoming r))), r') ∧ incoming r' = drop 4 (incoming r);
  read_u32_short r : (length (incoming r) < 4)%nat → ∃ e r', read_u32 r = (Err e, r');
}.

(** ** [tokio::io::AsyncWrite] *)

Class AsyncWrite (R : Type) := {
  write_all : list Z → R → result io_error () * R;
}.

(** [outgoing r]: the bytes written so far.  Writing leaves what the peer sends alone. *)
Class AsyncWriteLaws (R : Type) {AR : AsyncRead R} {AL : AsyncReadLaws R} {AW : AsyncWrite R} := {
  outgoing : R → list Z;
  write_all_Ok bs r r' : write_all bs r = (Ok tt, r') →
    outgoing r' = outgoing r ++ bs ∧ incoming r' = incoming r;
  read_exact_outgoing n r x r' : read_exact n r = (x, r') → outgoing r' = outgoing r;
  read_u32_outgoing r x r' : read_u32 r = (x, r') → outgoing r' = outgoing r;
}.

(** ** Standard library: [<[u8]>::as_chunks::<N>().0] *)

Fixpoint chunks (n k : nat) (l : list Z) : list (list Z) :=
  match k with
  | O => []
  | S k => take n l :: chunks n k (drop n l)
  end.

Definition as_chunks (n : nat) (l : list Z) : list (list Z) := chunks n (length l / n) l.

(** ** Standard library: UTF-8 *)

Module Utf8.

Definition cont (b : Z) : bool := (0x80 <=? b) && (b <=? 0xbf).
Definition in_range (lo hi b : Z) : bool := (lo <=? b) && (b <=? hi).

(** Length of the sequence a leading byte announces; [None] for a byte that leads nothing. *)
Definition width (b : Z) : option nat :=
  if b <? 0x80 then Some 1%nat
  else if in_range 0xc2 0xdf b then Some 2%nat
  else if in_range 0xe0 0xef b then Some 3%nat
  else if in_range 0xf0 0xf4 b then Some 4%nat
  else None.

(** The second byte of a three or four byte sequence excludes overlong forms, surrogates and
    code points above U+10FFFF. *)
Definition second_ok (b0 b1 : Z) : bool :=
  if b0 =? 0xe0 then in_range 0xa0 0xbf b1
  else if b0 =? 0xed then in_range 0x80 0x9f b1
  else if b0 =? 0xf0 then in_range 0x90 0xbf b1
  else if b0 =? 0xf4 then in_range 0x80 0x8f b1
  else cont b1.

(** U+FFFD *)
Definition replacement : list Z := [0xef; 0xbf; 0xbd].

(** [String::from_utf8_lossy]: valid sequences are kept, each maximal invalid prefix of a sequence
    becomes one U+FFFD. *)
Fixpoint from_utf8_lossy (bs : list Z) : list Z :=
  match bs with
  | [] => []
  | b0 :: t0 =>
    match width b0 with
    | Some 1%nat => b0 :: from_utf8_lossy t0
    | Some 2%nat =>
      match t0 with
      | b1 :: t1 =>
        if cont b1 then b0 :: b1 :: from_utf8_lossy t1 else replacement ++ from_utf8_lossy t0
      | [] => replacement
      end
    | Some 3%nat =>
      match t0 with
      | b1 :: t1 =>
        if second_ok b0 b1 then
          match t1 with
          | b2 :: t2 =>
            if cont b2 then b0 :: b1 :: b2 :: from_utf8_lossy t2
            else replacement ++ from_utf8_lossy t1
          | [] => replacement
          end
        else replacement ++ from_utf8_lossy t0
      | [] => replacement
      end
    | Some _ =>
      match t0 with
      | b1 :: t1 =>
        if second_ok b0 b1 then
          match t1 with
          | b2 :: t2 =>
            if cont b2 then
              match t2 with
              | b3 :: t3 =>
                if cont b3 then b0 :: b1 :: b2 :: b3 :: from_utf8_lossy t3
                else replacement ++ from_utf8_lossy t2
              | [] => replacement
              end
            else replacement ++ from_utf8_lossy t1
          | [] => replacement
          end
        else replacement ++ from_utf8_lossy t0
      | [] => replacement
      end
    | None => replacement ++ from_utf8_lossy t0
    end
  end.

(** The byte strings a Rust [str] can hold. *)
Inductive valid : list Z → Prop :=
| valid_nil : valid []
| valid_1 b0 t : width b0 = Some 1%nat → valid t → valid (b0 :: t)
| valid_2 b0 b1 t : width b0 = Some 2%nat → cont b1 = true → valid t → valid (b0 :: b1 :: t)
| valid_3 b0 b1 b2 t : width b0 = Some 3%nat → second_ok b0 b1 = true → cont b2 = true →
    valid t → valid (b0 :: b1 :: b2 :: t)
| valid_4 b0 b1 b2 b3 t : width b0 = Some 4%nat → second_ok b0 b1 = true → cont b2 = true →
    cont b3 = true → valid t → valid (b0 :: b1 :: b2 :: b3 :: t).

Lemma width_cases b :
  width b = None ∨ width b = Some 1%nat ∨ width b = Some 2%nat ∨ width b = Some 3%nat ∨
  width b = Some 4%nat.
Proof. unfold width. repeat case_match; auto. Qed.

Lemma lossy_valid_id bs : valid bs → from_utf8_lossy bs = bs.
Proof.
  induction 1; simpl; repeat match goal with H : _ = _ |- _ => rewrite H end; done.
Qed.

Lemma replacement_valid t : valid t → valid (replacement ++ t).
Proof. intros. by apply valid_3. Qed.

#[local] Hint Resolve replacement_valid : core.
#[local] Hint Constructors valid : core.

Lemma lossy_valid_len n bs : (length bs ≤ n)%nat → valid (from_utf8_lossy bs).
Proof.
  revert bs. induction n as [|n IH]; intros [|b0 t0] Hn; simpl in Hn; try lia; cbn [from_utf8_lossy]; auto.
  assert (∀ t, (length t ≤ length t0)%nat → valid (from_utf8_lossy t)) as IH'
    by (intros; apply IH; lia).
  clear IH. destruct (width_cases b0) as [E|[E|[E|[E|E]]]]; rewrite E;
    repeat case_match; subst; cbn [length] in *;
    first [ apply (replacement_valid []), valid_nil
          | apply replacement_valid, IH'; cbn [length]; lia
          | constructor; try done; apply IH'; cbn [length]; lia ].
Qed.

Lemma lossy_valid bs : valid (from_utf8_lossy bs).
Proof. by apply (lossy_valid_len (length bs)). Qed.

Lemma ascii_valid bs : Forall (λ b, b < 128) bs → valid bs.
Proof.
  induction 1; constructor; [|done]. unfold width. rewrite (proj2 (Z.ltb_lt _ _)); [done|lia].
Qed.

End Utf8.

(** ** Lemmas about the interfaces *)

Lemma take_front_app {A} n (f : list Z → A) x r :
  length x = n → take_front n f (x ++ r) = Done (f x, r).
Proof.
  intros Hn. unfold take_front. rewrite decide_True by (rewrite length_app; lia).
  by rewrite take_app_length', drop_app_length' by done.
Qed.

Lemma take_front_done {A} n (f : list Z → A) b :
  (n ≤ length b)%nat → take_front n f b = Done (f (take n b), drop n b).
Proof. intros. unfold take_front. by rewrite decide_True. Qed.

Lemma fill_front_zeros bs w n :
  fill_front bs (w, replicate (length bs + n) 0) = Done (w ++ bs, replicate n 0).
Proof.
  unfold fill_front. simpl. rewrite length_replicate, decide_True by lia.
  by rewrite drop_replicate, Nat.add_comm, Nat.add_sub.
Qed.

Section Bytes.
Context {B : BytesCrate} {BL : BytesLaws B}.

Lemma get_u8_app v r : is_u 8 v → get_u8 (be_bytes 1 v ++ r) = Done (v, r).
Proof.
  intros. rewrite get_u8_spec, take_front_app by apply length_be_bytes.
  rewrite be_to_Z_bytes. by rewrite Z.mod_small.
Qed.

Lemma get_u16_app v r : is_u 16 v → get_u16 (be_bytes 2 v ++ r) = Done (v, r).
Proof.
  intros. rewrite get_u16_spec, take_front_app by apply length_be_bytes.
  rewrite be_to_Z_bytes. by rewrite Z.mod_small.
Qed.

Lemma get_u32_app v r : is_u 32 v → get_u32 (be_bytes 4 v ++ r) = Done (v, r).
Proof.
  intros. rewrite get_u32_spec, take_front_app by apply length_be_bytes.
  rewrite be_to_Z_bytes. by rewrite Z.mod_small.
Qed.

Lemma get_i32_app v r : is_i 32 v → get_i32 (be_bytes 4 v ++ r) = Done (v, r).
Proof.
  intros. rewrite get_i32_spec, take_front_app by apply length_be_bytes.
  rewrite be_to_Z_bytes. change (v mod _) with (wrap 32 v). by rewrite swrap_wrap.
Qed.

Lemma get_u8_cons v r : get_u8 (v :: r) = Done (v, r).
Proof. rewrite get_u8_spec. unfold take_front, be_to_Z. simpl. do 2 f_equal. lia. Qed.

Lemma advance_app n x r : length x = n → advance n (x ++ r) = Done r.
Proof. intros. rewrite advance_spec, take_front_app by done. done. Qed.

End Bytes.

Section Read.
Context {R : Type} {AR : AsyncRead R} {AL : AsyncReadLaws R}.

Lemma read_exact_app x rest r :
  incoming r = x ++ rest →
  ∃ r', read_exact (length x) r = (Ok x, r') ∧ incoming r' = rest.
Proof.
  intros E. destruct (read_exact_enough (length x) r) as (r' & E1 & E2).
  { rewrite E, length_app. lia. }
  exists r'. by rewrite E1, E2, E, take_app_length, drop_app_length.
Qed.

Lemma read_u32_app v rest r :
  is_u 32 v → incoming r = be_bytes 4 v ++ rest →
  ∃ r', read_u32 r = (Ok v, r') ∧ incoming r' = rest.
Proof.
  intros Hv E. destruct (read_u32_enough r) as (r' & E1 & E2).
  { rewrite E, length_app, length_be_bytes. lia. }
  exists r'. rewrite E1, E2, E, take_app_length', drop_app_length'
    by (by rewrite length_be_bytes).
  by rewrite be_to_Z_bytes, Z.mod_small.
Qed.

(** A successful read returns exactly what was asked for. *)
Lemma read_exact_Ok n r bs r' :
  read_exact n r = (Ok bs, r') →
  length bs = n ∧ bytes_ok bs ∧ incoming r = bs ++ incoming r'.
Proof.
  intros E. destruct (decide (n ≤ length (incoming r))%nat) as [Hn|Hn].
  - destruct (read_exact_enough n r Hn) as (r1 & E1 & E2). rewrite E1 in E.
    injection E as <- <-. rewrite length_take, E2, take_drop.
    split; [lia|]. split; [|done]. apply Forall_take, incoming_ok.
  - destruct (read_exact_short n r) as (e & r1 & E1); [lia|]. congruence.
Qed.

Lemma read_u32_Ok r v r' :
  read_u32 r = (Ok v, r') →
  ∃ bs, length bs = 4%nat ∧ bytes_ok bs ∧ v = be_to_Z bs ∧ incoming r = bs ++ incoming r'.
Proof.
  intros E. destruct (decide (4 ≤ length (incoming r))%nat) as [Hn|Hn].
  - destruct (read_u32_enough r Hn) as (r1 & E1 & E2). rewrite E1 in E.
    injection E as <- <-. exists (take 4 (incoming r)). rewrite length_take, E2, take_drop.
    split; [lia|]. split; [|done]. apply Forall_take, incoming_ok.
  - destruct (read_u32_short r) as (e & r1 & E1); [lia|]. congruence.
Qed.

End Read.

Lemma chunks_concat n l :
  Forall (λ c, length c = n) l → chunks n (length l) (concat l) = l.
Proof.
  induction 1 as [|c l Hc _ IH]; simpl; [done|].
  by rewrite take_app_length', drop_app_length', IH by done.
Qed.

Lemma length_concat_uniform n (l : list (list Z)) :
  Forall (λ c, length c = n) l → length (concat l) = (length l * n)%nat.
Proof. induction 1 as [|c l Hc _ IH]; simpl; [done|]. rewrite length_app. lia. Qed.

Lemma as_chunks_concat n l :
  (0 < n)%nat → Forall (λ c, length c = n) l → as_chunks n (concat l) = l.
Proof.
  intros Hn Hl. unfold as_chunks. rewrite (length_concat_uniform n) by done.
  rewrite Nat.div_mul by lia. by apply chunks_concat.
Qed.

Lemma length_as_chunks n l k :
  (0 < n)%nat → length l = (k * n)%nat → length (as_chunks n l) = k.
Proof.
  intros Hn Hl. unfold as_chunks. rewrite Hl, Nat.div_mul by lia.
  clear Hl. revert l. induction k; intros; simpl; auto.
Qed.

Lemma as_chunks_uniform n l k :
  (0 < n)%nat → length l = (k * n)%nat → Forall (λ c, length c = n) (as_chunks n l).
Proof.
  intros Hn Hl. unfold as_chunks. rewrite Hl, Nat.div_mul by lia.
  revert l Hl. induction k as [|k IH]; intros l Hl; simpl in *; constructor.
  - rewrite length_take. lia.
  - apply IH. rewrite length_drop. lia.
Qed.

#[export] Hint Rewrite @get_u8_app @get_u16_app @get_u32_app @get_i32_app using (assumption || done) : wire.

(** ** One implementation of each interface *)

Module Reference.

#[export] Instance bytes_crate : BytesCrate := {|
  put_u32 v b := b ++ be_bytes 4 v;
  put_i32 v b := b ++ be_bytes 4 v;
  put_slice s b := b ++ s;
  put_bytes v n b := b ++ replicate n v;
  slice_put_u16 v := fill_front (be_bytes 2 v);
  slice_put_u32 v := fill_front (be_bytes 4 v);
  slice_put_slice s := fill_front s;
  get_u8 := take_front 1 be_to_Z;
  get_u16 := take_front 2 be_to_Z;
  get_u32 := take_front 4 be_to_Z;
  get_i32 := take_front 4 (λ s, swrap 32 (be_to_Z s));
  advance n b := snd <$> take_front n id b;
|}.

#[export] Instance bytes_laws : BytesLaws bytes_crate.
Proof. by constructor. Qed.

(** A stream that holds the bytes still to come, each reduced to a byte, and then ends. *)
Definition pipe : Type := list Z.

Definition pipe_bytes (p : pipe) : list Z := (λ b, b mod 256) <$> p.

#[export] Instance pipe_read : AsyncRead pipe := {|
  read_exact n p :=
    if decide (n ≤ length p)%nat then (Ok (take n (pipe_bytes p)), drop n p)
    else (Err UnexpectedEof, []);
  read_u32 p :=
    if decide (4 ≤ length p)%nat then (Ok (be_to_Z (take 4 (pipe_bytes p))), drop 4 p)
    else (Err UnexpectedEof, []);
|}.

#[export] Instance pipe_laws : AsyncReadLaws pipe.
Proof.
  refine {| incoming := pipe_bytes |}.
  - intros p. apply Forall_fmap, Forall_true. intros b. apply (wrap_is_u 8). lia.
  - intros n p. unfold pipe_bytes. rewrite length_fmap. intros. cbn [read_exact pipe_read].
    rewrite decide_True by done. eexists. split; [done|]. by rewrite fmap_drop.
  - intros n p. unfold pipe_bytes. rewrite length_fmap. intros. cbn [read_exact pipe_read].
    rewrite decide_False by lia. eauto.
  - intros p. unfold pipe_bytes. rewrite length_fmap. intros. cbn [read_u32 pipe_read].
    rewrite decide_True by done. eexists. split; [done|]. by rewrite fmap_drop.
  - intros p. unfold pipe_bytes. rewrite length_fmap. intros. cbn [read_u32 pipe_read].
    rewrite decide_False by lia. eauto.
Defined.

(** Both directions of a connection: what is to come and what was sent. *)
Definition duplex : Type := pipe * list Z.

#[export] Instance duplex_read : AsyncRead duplex := {|
  read_exact n d := let '(x, p) := read_exact n d.1 in (x, (p, d.2));
  read_u32 d := let '(x, p) := read_u32 d.1 in (x, (p, d.2));
|}.

#[export] Instance duplex_laws : AsyncReadLaws duplex.
Proof.
  refine {| incoming d := incoming d.1 |}.
  - intros d. apply incoming_ok.
  - intros n d H. destruct (read_exact_enough n d.1 H) as (p & E & Hp). exists (p, d.2).
    cbn [read_exact duplex_read]. by rewrite E.
  - intros n d H. destruct (read_exact_short n d.1 H) as (e & p & E). exists e, (p, d.2).
    cbn [read_exact duplex_read]. by rewrite E.
  - intros d H. destruct (read_u32_enough d.1 H) as (p & E & Hp). exists (p, d.2).
    cbn [read_u32 duplex_read]. by rewrite E.
  - intros d H. destruct (read_u32_short d.1 H) as (e & p & E). exists e, (p, d.2).
    cbn [read_u32 duplex_read]. by rewrite E.
Defined.

#[export] Instance duplex_write : AsyncWrite duplex := {|
  write_all bs d := (Ok tt, (d.1, d.2 ++ bs));
|}.

#[export] Instance duplex_write_laws : AsyncWriteLaws duplex.
Proof.
  refine {| outgoing := snd |}.
  - by intros bs [p o] r' [= <-].
  - intros n [p o] x r'. cbn [read_exact duplex_read fst snd].
    destruct (read_exact n p) as [y q]. by intros [= _ <-].
  - intros [p o] x r'. cbn [read_u32 duplex_read fst snd].
    destruct (read_u32 p) as [y q]. by intros [= _ <-].
Defined.

End Reference.
