(* ===== verification/Protocol.v ===== *)
(** * Protocol: encoding and decoding of the USB/IP wire protocol (src/src/protocol.rs)

    One module per struct or enum with methods ([Direction], [Speed], [ExportedDevice],
    [IsoPacketDescriptor], [CmdSubmit], [CmdUnlink], [RetSubmit], [RetUnlink], [Reply]), then the
    free functions of the file.  [usize] values are [nat], all other integers are [Z] at their
    width.  Readers are functions of the stream; they end in a [result] and the rest of the stream,
    or in a panic, which the theorems exclude.  The text of an [Invalid] error is represented by
    the arguments it is formatted from. *)

From stdpp Require Import base tactics option list.
From S2P Require Import Prelude Wire.

(** ** Constants *)

Definition USBIP_VERSION : Z := 0x0111.

Definition OP_REQ_DEVLIST : Z := 0x8005.
Definition OP_REP_DEVLIST : Z := 0x0005.
Definition OP_REQ_IMPORT : Z := 0x8003.
Definition OP_REP_IMPORT : Z := 0x0003.

Definition USBIP_CMD_SUBMIT : Z := 1.
Definition USBIP_CMD_UNLINK : Z := 2.
Definition USBIP_RET_SUBMIT : Z := 3.
Definition USBIP_RET_UNLINK : Z := 4.

Definition URB_ISO_ASAP : Z := 0x0002.

Definition PORT_RESET_SETUP : list Z := [0x23; 0x03; 0x04; 0x00; 0x01; 0x00; 0x00; 0x00].

Definition OP_HEADER_SIZE : nat := 8.
Definition BUSID_SIZE : nat := 32.
Definition PATH_SIZE : nat := 256.
Definition DEVICE_SIZE : nat := 312.
Definition INTERFACE_SIZE : nat := 4.
Definition URB_HEADER_SIZE : nat := 48.
Definition ISO_DESCRIPTOR_SIZE : nat := 16.

Definition MAX_ISO_PACKETS : Z := 1024.
Definition MAX_TRANSFER_LENGTH : Z := 16 * 1024 * 1024.
Definition MAX_EXPORTED_DEVICES : Z := 4096.

(** ** Errors *)

(** The messages [ProtocolError::Invalid] is built from, by their arguments. *)
Inductive invalid : Type :=
| InvalidBusid (busid : list Z)
| DeviceCount (count : Z)
| NumberOfPackets (n : Z)
| NotARetSubmit
| ActualLength (seqnum actual_length max_length : Z)
| ImportedBusid (imported requested : list Z)
| UnknownSeqnum (seqnum : Z).

Inductive ProtocolError : Type :=
| Io (e : io_error)
| UnexpectedReply (expected actual : Z)
| Status (status : Z)
| UnexpectedCommand (command : Z)
| Invalid (m : invalid).

#[export] Instance invalid_eq_dec : EqDecision invalid.
Proof. solve_decision. Defined.
#[export] Instance ProtocolError_eq_dec : EqDecision ProtocolError.
Proof. solve_decision. Defined.

(** ** Readers: [async fn ...(r: &mut R) -> Result<A>] *)

Definition rd (R A : Type) : Type := R → outcome (result ProtocolError A * R).

#[export] Instance rd_ret {R} : MRet (rd R) := λ A a r, Done (Ok a, r).

(** Sequencing with [?]: an error is returned early. *)
#[export] Instance rd_bind {R} : MBind (rd R) := λ A B f m r,
  match m r with
  | Done (Ok a, r') => f a r'
  | Done (Err e, r') => Done (Err e, r')
  | Panic => Panic
  | OutOfFuel => OutOfFuel
  end.

Definition rd_err {R A} (e : ProtocolError) : rd R A := λ r, Done (Err e, r).

(** An awaited read with [?], which converts an I/O error with [From]. *)
Definition rd_io {R A} (m : R → result io_error A * R) : rd R A := λ r,
  match m r with
  | (Ok a, r') => Done (Ok a, r')
  | (Err e, r') => Done (Err (Io e), r')
  end.

(** Synchronous code between two reads. *)
Definition rd_pure {R A} (m : outcome A) : rd R A := λ r, (λ a, (Ok a, r)) <$> m.

(** ** Data *)

Module Direction.

Inductive t : Type := Out | In.

#[global] Instance eq_dec : EqDecision t.
Proof. solve_decision. Defined.

(** [direction as u32], from [#[repr(u32)]]. *)
Definition as_u32 (d : t) : Z := match d with Out => 0 | In => 1 end.

Definition of_endpoint (address : Z) : t :=
  if negb (Z.land address 0x80 =? 0) then In else Out.

End Direction.

Module Speed.

Inductive t : Type := Unknown | Low | Full | High | Wireless | Super | SuperPlus.

#[global] Instance eq_dec : EqDecision t.
Proof. solve_decision. Defined.

Definition from_u32 (value : Z) : t :=
  match value with
  | 1 => Low
  | 2 => Full
  | 3 => High
  | 4 => Wireless
  | 5 => Super
  | 6 => SuperPlus
  | _ => Unknown
  end.

End Speed.

Module Interface.

Record t : Type := mk { class : Z; subclass : Z; protocol : Z }.

#[global] Instance eq_dec : EqDecision t.
Proof. solve_decision. Defined.

End Interface.

Definition c_string (bytes : list Z) : list Z :=
  let end_ := default (length bytes) (position (λ b, b =? 0) bytes) in
  Utf8.from_utf8_lossy (take end_ bytes).

Module ExportedDevice.

Record t : Type := mk {
  path : list Z;
  busid : list Z;
  busnum : Z;
  devnum : Z;
  speed : Speed.t;
  id_vendor : Z;
  id_product : Z;
  bcd_device : Z;
  device_class : Z;
  device_subclass : Z;
  device_protocol : Z;
  configuration_value : Z;
  num_configurations : Z;
  num_interfaces : Z;
  interfaces : list Interface.t;
}.

#[global] Instance eq_dec : EqDecision t.
Proof. solve_decision. Defined.

Definition devid (d : t) : Z :=
  Z.lor (wrap 32 (Z.shiftl (busnum d) 16)) (Z.land (devnum d) 0xffff).

Definition set_interfaces (d : t) (i : list Interface.t) : t :=
  mk (path d) (busid d) (busnum d) (devnum d) (speed d) (id_vendor d) (id_product d)
    (bcd_device d) (device_class d) (device_subclass d) (device_protocol d)
    (configuration_value d) (num_configurations d) (num_interfaces d) i.

Definition decode `{BytesCrate} (buf : list Z) : outcome t :=
  b ← slice buf (PATH_SIZE + BUSID_SIZE) (length buf);
  path_bytes ← slice buf 0 PATH_SIZE;
  busid_bytes ← slice buf PATH_SIZE (PATH_SIZE + BUSID_SIZE);
  '(busnum, b) ← get_u32 b;
  '(devnum, b) ← get_u32 b;
  '(speed, b) ← get_u32 b;
  '(id_vendor, b) ← get_u16 b;
  '(id_product, b) ← get_u16 b;
  '(bcd_device, b) ← get_u16 b;
  '(device_class, b) ← get_u8 b;
  '(device_subclass, b) ← get_u8 b;
  '(device_protocol, b) ← get_u8 b;
  '(configuration_value, b) ← get_u8 b;
  '(num_configurations, b) ← get_u8 b;
  '(num_interfaces, _) ← get_u8 b;
  mret (mk (c_string path_bytes) (c_string busid_bytes) busnum devnum (Speed.from_u32 speed)
          id_vendor id_product bcd_device device_class device_subclass device_protocol
          configuration_value num_configurations num_interfaces []).

End ExportedDevice.

(** ** Requests of the device list and import phase *)

Definition encode_busid (busid : list Z) : result ProtocolError (list Z) :=
  if (BUSID_SIZE <=? length busid)%nat || existsb (λ b, b =? 0) busid then
    Err (Invalid (InvalidBusid busid))
  else Ok (splice (replicate BUSID_SIZE 0) 0 busid).

Definition encode_devlist_request `{BytesCrate} : outcome (list Z) :=
  b ← slice_put_u16 USBIP_VERSION ([], replicate OP_HEADER_SIZE 0);
  b ← slice_put_u16 OP_REQ_DEVLIST b;
  b ← slice_put_u32 0 b;
  mret (b.1 ++ b.2).

Definition encode_import_request `{BytesCrate} (busid : list Z) :
    outcome (result ProtocolError (list Z)) :=
  b ← slice_put_u16 USBIP_VERSION ([], replicate (OP_HEADER_SIZE + BUSID_SIZE) 0);
  b ← slice_put_u16 OP_REQ_IMPORT b;
  b ← slice_put_u32 0 b;
  match encode_busid busid with
  | Err e => mret (Err e)
  | Ok id =>
    b ← slice_put_slice id b;
    mret (Ok (b.1 ++ b.2))
  end.

(** ** Isochronous packet descriptors *)

Module IsoPacketDescriptor.

Record t : Type := mk { offset : Z; length : Z; actual_length : Z; status : Z }.

#[global] Instance eq_dec : EqDecision t.
Proof. solve_decision. Defined.

Definition encode `{BytesCrate} (p : t) (buf : list Z) : list Z :=
  let buf := put_u32 (offset p) buf in
  let buf := put_u32 (length p) buf in
  let buf := put_u32 (actual_length p) buf in
  put_i32 (status p) buf.

Definition decode `{BytesCrate} (b : list Z) : outcome t :=
  '(offset, b) ← get_u32 b;
  '(len, b) ← get_u32 b;
  '(actual_length, b) ← get_u32 b;
  '(status, _) ← get_i32 b;
  mret (mk offset len actual_length status).

End IsoPacketDescriptor.

(** [iter().map(f).collect()] over a body that may panic. *)
Fixpoint collect {A B} (f : A → outcome B) (l : list A) : outcome (list B) :=
  match l with
  | [] => Done []
  | a :: l => b ← f a; bs ← collect f l; Done (b :: bs)
  end.

(** ** Commands *)

Module CmdSubmit.

Record t : Type := mk {
  seqnum : Z;
  devid : Z;
  direction : Z;
  ep : Z;
  transfer_flags : Z;
  transfer_buffer_length : Z;
  start_frame : Z;
  interval : Z;
  setup : list Z;
  data : list Z;
  iso_packets : list IsoPacketDescriptor.t;
}.

Definition encode `{BytesCrate} (c : t) (buf : list Z) : list Z :=
  let buf := put_u32 USBIP_CMD_SUBMIT buf in
  let buf := put_u32 (seqnum c) buf in
  let buf := put_u32 (devid c) buf in
  let buf := put_u32 (direction c) buf in
  let buf := put_u32 (ep c) buf in
  let buf := put_u32 (transfer_flags c) buf in
  let buf := put_u32 (transfer_buffer_length c) buf in
  let buf := put_u32 (start_frame c) buf in
  let buf := put_u32 (match iso_packets c with
                      | [] => 0
                      | _ :: _ => wrap 32 (Z.of_nat (length (iso_packets c)))
                      end) buf in
  let buf := put_u32 (interval c) buf in
  let buf := put_slice (setup c) buf in
  let buf := put_slice (data c) buf in
  foldl (λ buf p, IsoPacketDescriptor.encode p buf) buf (iso_packets c).

End CmdSubmit.

Module CmdUnlink.

Record t : Type := mk { seqnum : Z; devid : Z; unlink_seqnum : Z }.

Definition encode `{BytesCrate} (c : t) (buf : list Z) : list Z :=
  let buf := put_u32 USBIP_CMD_UNLINK buf in
  let buf := put_u32 (seqnum c) buf in
  let buf := put_u32 (devid c) buf in
  let buf := put_u32 0 buf in
  let buf := put_u32 0 buf in
  let buf := put_u32 (unlink_seqnum c) buf in
  put_bytes 0 24 buf.

End CmdUnlink.

(** ** Replies *)

Module RetSubmit.

Record t : Type := mk {
  seqnum : Z;
  status : Z;
  actual_length : Z;
  start_frame : Z;
  error_count : Z;
  data : list Z;
  iso_packets : list IsoPacketDescriptor.t;
}.

#[global] Instance eq_dec : EqDecision t.
Proof. solve_decision. Defined.

End RetSubmit.

Module RetUnlink.

Record t : Type := mk { seqnum : Z; status : Z }.

#[global] Instance eq_dec : EqDecision t.
Proof. solve_decision. Defined.

End RetUnlink.

Module Reply.

Inductive t : Type :=
| Submit (seqnum status actual_length start_frame number_of_packets error_count : Z)
| Unlink (r : RetUnlink.t).

#[global] Instance eq_dec : EqDecision t.
Proof. solve_decision. Defined.

End Reply.

Section Readers.
Context `{B : BytesCrate} {R : Type} `{AR : AsyncRead R}.

(** *** Device list and import *)

Definition read_op_header (expected : Z) : rd R unit :=
  buf ← rd_io (read_exact OP_HEADER_SIZE);
  '(_version, b) ← rd_pure (get_u16 buf);
  '(code, b) ← rd_pure (get_u16 b);
  '(status, _) ← rd_pure (get_u32 b);
  if negb (code =? expected) then rd_err (UnexpectedReply expected code)
  else if negb (status =? 0) then rd_err (Status status)
  else mret ().

Definition read_device : rd R ExportedDevice.t :=
  buf ← rd_io (read_exact DEVICE_SIZE);
  rd_pure (ExportedDevice.decode buf).

Definition interface_of_chunk (c : list Z) : outcome Interface.t :=
  class ← idx c 0;
  subclass ← idx c 1;
  protocol ← idx c 2;
  mret (Interface.mk class subclass protocol).

Definition read_listed_device : rd R ExportedDevice.t :=
  device ← read_device;
  raw ← rd_io (read_exact (Z.to_nat (ExportedDevice.num_interfaces device) * INTERFACE_SIZE));
  interfaces ← rd_pure (collect interface_of_chunk (as_chunks INTERFACE_SIZE raw));
  mret (ExportedDevice.set_interfaces device interfaces).

(** [for _ in 0..count { ... devices.push(device) }] *)
Fixpoint read_listed_devices (count : nat) (devices : list ExportedDevice.t) :
    rd R (list ExportedDevice.t) :=
  match count with
  | O => mret devices
  | S count =>
    device ← read_listed_device;
    read_listed_devices count (devices ++ [device])
  end.

Definition read_devlist_reply : rd R (list ExportedDevice.t) :=
  _ ← read_op_header OP_REP_DEVLIST;
  count ← rd_io read_u32;
  if MAX_EXPORTED_DEVICES <? count then rd_err (Invalid (DeviceCount count))
  else read_listed_devices (Z.to_nat count) [].

Definition read_import_reply : rd R ExportedDevice.t :=
  _ ← read_op_header OP_REP_IMPORT;
  read_device.

(** *** URB replies *)

Definition read_reply_header : rd R Reply.t :=
  buf ← rd_io (read_exact URB_HEADER_SIZE);
  '(command, b) ← rd_pure (get_u32 buf);
  '(seqnum, b) ← rd_pure (get_u32 b);
  b ← rd_pure (advance 12 b);
  if command =? USBIP_RET_SUBMIT then
    '(status, b) ← rd_pure (get_i32 b);
    '(actual_length, b) ← rd_pure (get_u32 b);
    '(start_frame, b) ← rd_pure (get_u32 b);
    '(n, b) ← rd_pure (get_u32 b);
    let number_of_packets := if n =? 0xffffffff then 0 else n in
    '(error_count, _) ← rd_pure (get_u32 b);
    if MAX_ISO_PACKETS <? number_of_packets then
      rd_err (Invalid (NumberOfPackets number_of_packets))
    else
      mret (Reply.Submit seqnum status actual_length start_frame number_of_packets error_count)
  else if command =? USBIP_RET_UNLINK then
    '(status, _) ← rd_pure (get_i32 b);
    mret (Reply.Unlink (RetUnlink.mk seqnum status))
  else rd_err (UnexpectedCommand command).

Definition read_submit_payload (header : Reply.t) (data_expected : bool) (max_length : Z) :
    rd R RetSubmit.t :=
  match header with
  | Reply.Submit seqnum status actual_length start_frame number_of_packets error_count =>
    if max_length <? actual_length then
      rd_err (Invalid (ActualLength seqnum actual_length max_length))
    else
      data ← (if data_expected && (0 <? actual_length)
              then rd_io (read_exact (Z.to_nat actual_length))
              else mret []);
      iso_packets ←
        (if 0 <? number_of_packets then
           raw ← rd_io (read_exact (Z.to_nat number_of_packets * ISO_DESCRIPTOR_SIZE));
           rd_pure (collect IsoPacketDescriptor.decode (as_chunks ISO_DESCRIPTOR_SIZE raw))
         else mret []);
      mret (RetSubmit.mk seqnum status actual_length start_frame error_count data iso_packets)
  | Reply.Unlink _ => rd_err (Invalid NotARetSubmit)
  end.

End Readers.

(** ** Isochronous IN data *)

(** One pass of the loop over [packets], from the buffer and cursor built so far. *)
Fixpoint unpack_packets (packed : list Z) (packets : list IsoPacketDescriptor.t)
    (out : list Z) (cursor : nat) : option (list Z) :=
  match packets with
  | [] => Some out
  | p :: packets =>
    let len := Z.to_nat (IsoPacketDescriptor.actual_length p) in
    let start := Z.to_nat (IsoPacketDescriptor.offset p) in
    src ← get_range packed cursor (cursor + len);
    _ ← get_range out start (start + len);
    unpack_packets packed packets (splice out start src) (cursor + len)
  end.

Definition unpack_iso_in (packed : list Z) (packets : list IsoPacketDescriptor.t)
    (buffer_length : nat) : option (list Z) :=
  unpack_packets packed packets (replicate buffer_length 0) 0.
