(* ===== verification/ProtocolFacts.v ===== *)
(** * ProtocolFacts: what the protocol readers and encoders guarantee

    A small calculus for readers ([rd_post]: the reader returns, and its result and the rest of
    the stream satisfy a postcondition), the totality of every reader on every stream, the bounds
    they enforce on what the server sends, and the layout of the encoders. *)

From stdpp Require Import base tactics option list.
From S2P Require Import Prelude Wire Protocol.

(** ** A calculus for readers *)

Definition rd_post {R A} (m : rd R A) (r : R) (Q : result ProtocolError A → R → Prop) : Prop :=
  ∃ x r', m r = Done (x, r') ∧ Q x r'.

Section Calculus.
Context {R : Type}.

Lemma rd_post_ret {A} (a : A) r (Q : result ProtocolError A → R → Prop) :
  Q (Ok a) r → rd_post (mret a) r Q.
Proof. unfold rd_post. eauto. Qed.

Lemma rd_post_err {A} e r (Q : result ProtocolError A → R → Prop) :
  Q (Err e) r → rd_post (rd_err e) r Q.
Proof. unfold rd_post, rd_err. eauto. Qed.

Lemma rd_post_pure {A} (m : outcome A) a r (Q : result ProtocolError A → R → Prop) :
  m = Done a → Q (Ok a) r → rd_post (rd_pure m) r Q.
Proof. intros -> H. unfold rd_post, rd_pure. simpl. eauto. Qed.

Lemma rd_post_bind {A B} (m : rd R A) (f : A → rd R B) r Q :
  rd_post m r (λ x r', match x with Ok a => rd_post (f a) r' Q | Err e => Q (Err e) r' end) →
  rd_post (m ≫= f) r Q.
Proof.
  intros (x & r' & E & H). unfold rd_post, mbind, rd_bind. rewrite E.
  destruct x as [a|e]; [|eauto]. destruct H as (x & r'' & E' & H). rewrite E'. eauto.
Qed.

Lemma rd_post_mono {A} (m : rd R A) r (Q Q' : result ProtocolError A → R → Prop) :
  rd_post m r Q → (∀ x r', Q x r' → Q' x r') → rd_post m r Q'.
Proof. intros (x & r' & E & H) HQ. exists x, r'. auto. Qed.

Lemma rd_post_pure_bind {A B} (m : outcome A) a (f : A → rd R B) r Q :
  m = Done a → rd_post (f a) r Q → rd_post (rd_pure m ≫= f) r Q.
Proof. intros E H. apply rd_post_bind, (rd_post_pure _ a); auto. Qed.

Context {AR : AsyncRead R} {AL : AsyncReadLaws R}.

Lemma rd_post_read_exact n r (Q : result ProtocolError (list Z) → R → Prop) :
  (∀ bs r', length bs = n → bytes_ok bs → incoming r = bs ++ incoming r' → Q (Ok bs) r') →
  (∀ e r', (length (incoming r) < n)%nat → Q (Err (Io e)) r') →
  rd_post (rd_io (read_exact n)) r Q.
Proof.
  intros H1 H2. unfold rd_post, rd_io.
  destruct (decide (n ≤ length (incoming r))%nat) as [Hn|Hn].
  - destruct (read_exact_enough n r Hn) as (r' & E & E'). rewrite E. do 2 eexists.
    split; [done|]. apply H1.
    + rewrite length_take. lia.
    + apply Forall_take, incoming_ok.
    + by rewrite E', take_drop.
  - destruct (read_exact_short n r) as (e & r' & E); [lia|]. rewrite E. do 2 eexists.
    split; [done|]. apply H2. lia.
Qed.

Lemma rd_post_read_exact_app n x rest r (Q : result ProtocolError (list Z) → R → Prop) :
  length x = n → incoming r = x ++ rest → (∀ r', incoming r' = rest → Q (Ok x) r') →
  rd_post (rd_io (read_exact n)) r Q.
Proof.
  intros <- Hin H. destruct (read_exact_app _ _ r Hin) as (r' & E & Hin').
  unfold rd_post, rd_io. rewrite E. eauto.
Qed.

Lemma rd_post_read_u32 r (Q : result ProtocolError Z → R → Prop) :
  (∀ bs r', length bs = 4%nat → bytes_ok bs → incoming r = bs ++ incoming r' →
     Q (Ok (be_to_Z bs)) r') →
  (∀ e r', (length (incoming r) < 4)%nat → Q (Err (Io e)) r') →
  rd_post (rd_io read_u32) r Q.
Proof.
  intros H1 H2. unfold rd_post, rd_io.
  destruct (decide (4 ≤ length (incoming r))%nat) as [Hn|Hn].
  - destruct (read_u32_enough r Hn) as (r' & E & E'). rewrite E. do 2 eexists.
    split; [done|]. apply H1.
    + rewrite length_take. lia.
    + apply Forall_take, incoming_ok.
    + by rewrite E', take_drop.
  - destruct (read_u32_short r) as (e & r' & E); [lia|]. rewrite E. do 2 eexists.
    split; [done|]. apply H2. lia.
Qed.

End Calculus.

(** Fields of a fixed-size buffer: the big-endian integer of [n] bytes at offset [i]. *)
Definition field (n i : nat) (bs : list Z) : Z := be_to_Z (take n (drop i bs)).

Lemma field_is_u n i bs : bytes_ok bs → (i + n ≤ length bs)%nat → is_u (8 * Z.of_nat n) (field n i bs).
Proof.
  intros Hok Hlen. unfold field.
  assert (length (take n (drop i bs)) = n) as E by (rewrite length_take, length_drop; lia).
  rewrite <- E at 1. apply be_to_Z_bound. apply Forall_take, Forall_drop, Hok.
Qed.

Section Gets.
Context {B : BytesCrate} {BL : BytesLaws B}.

Lemma get_u8_field i bs : (i + 1 ≤ length bs)%nat →
  get_u8 (drop i bs) = Done (field 1 i bs, drop (i + 1) bs).
Proof.
  intros. rewrite get_u8_spec, take_front_done, drop_drop by (rewrite length_drop; lia). done.
Qed.

Lemma get_u16_field i bs : (i + 2 ≤ length bs)%nat →
  get_u16 (drop i bs) = Done (field 2 i bs, drop (i + 2) bs).
Proof.
  intros. rewrite get_u16_spec, take_front_done, drop_drop by (rewrite length_drop; lia). done.
Qed.

Lemma get_u32_field i bs : (i + 4 ≤ length bs)%nat →
  get_u32 (drop i bs) = Done (field 4 i bs, drop (i + 4) bs).
Proof.
  intros. rewrite get_u32_spec, take_front_done, drop_drop by (rewrite length_drop; lia). done.
Qed.

Lemma get_i32_field i bs : (i + 4 ≤ length bs)%nat →
  get_i32 (drop i bs) = Done (swrap 32 (field 4 i bs), drop (i + 4) bs).
Proof.
  intros. rewrite get_i32_spec, take_front_done, drop_drop by (rewrite length_drop; lia). done.
Qed.

Lemma advance_field n i bs : (i + n ≤ length bs)%nat →
  advance n (drop i bs) = Done (drop (i + n) bs).
Proof.
  intros. rewrite advance_spec, take_front_done, drop_drop by (rewrite length_drop; lia). done.
Qed.

End Gets.

(** Steps through one field access of a buffer whose length is known. *)
Ltac get_field :=
  first [ rewrite get_u8_field by lia | rewrite get_u16_field by lia
        | rewrite get_u32_field by lia | rewrite get_i32_field by lia
        | rewrite advance_field by lia ].

Ltac rd_field :=
  eapply rd_post_pure_bind;
  [ first [ apply get_u8_field | apply get_u16_field | apply get_u32_field
          | apply get_i32_field | apply advance_field ]; simpl; lia
  | cbn [Nat.add] ].

(** ** Device records *)

Section Device.
Context {B : BytesCrate} {BL : BytesLaws B}.

(** The device record the bytes of the wire layout stand for. *)
Definition device_of (buf : list Z) : ExportedDevice.t :=
  ExportedDevice.mk (c_string (take 256 buf)) (c_string (take 32 (drop 256 buf)))
    (field 4 288 buf) (field 4 292 buf) (Speed.from_u32 (field 4 296 buf))
    (field 2 300 buf) (field 2 302 buf) (field 2 304 buf)
    (field 1 306 buf) (field 1 307 buf) (field 1 308 buf) (field 1 309 buf)
    (field 1 310 buf) (field 1 311 buf) [].

Lemma decode_device buf : length buf = DEVICE_SIZE →
  ExportedDevice.decode buf = Done (device_of buf).
Proof.
  intros Hlen. unfold DEVICE_SIZE in Hlen. unfold ExportedDevice.decode.
  rewrite !slice_done by (unfold PATH_SIZE, BUSID_SIZE; lia).
  change (PATH_SIZE + BUSID_SIZE)%nat with 288%nat.
  rewrite (take_ge (drop 288 buf)) by (rewrite length_drop; lia).
  cbn [mbind outcome_bind].
  repeat (get_field; cbn [mbind outcome_bind Nat.add]).
  reflexivity.
Qed.

End Device.

(** ** Readers *)

Section Readers.
Context {B : BytesCrate} {BL : BytesLaws B}.
Context {R : Type} {AR : AsyncRead R} {AL : AsyncReadLaws R}.

Lemma read_op_header_post expected r :
  rd_post (read_op_header expected) r (λ x r',
    match x with
    | Ok _ => ∃ buf, length buf = OP_HEADER_SIZE ∧ incoming r = buf ++ incoming r' ∧
                field 2 2 buf = expected ∧ field 4 4 buf = 0
    | Err (Io _) => (length (incoming r) < OP_HEADER_SIZE)%nat
    | Err (UnexpectedReply e a) => e = expected ∧ a ≠ expected
    | Err (Status s) => s ≠ 0
    | Err _ => False
    end).
Proof.
  apply rd_post_bind, rd_post_read_exact; [|done].
  intros buf r' Hlen Hok Hin. unfold OP_HEADER_SIZE in *.
  change buf with (drop 0 buf) at 1. do 3 rd_field.
  repeat case_match; bool_props.
  - by apply rd_post_err.
  - by apply rd_post_err.
  - apply rd_post_ret. eauto 10.
Qed.

Lemma read_device_post r :
  rd_post read_device r (λ x r',
    match x with
    | Ok d => ∃ buf, length buf = DEVICE_SIZE ∧ bytes_ok buf ∧
                incoming r = buf ++ incoming r' ∧ d = device_of buf
    | Err (Io _) => (length (incoming r) < DEVICE_SIZE)%nat
    | Err _ => False
    end).
Proof.
  apply rd_post_bind, rd_post_read_exact; [|done].
  intros buf r' Hlen Hok Hin. eapply rd_post_pure; [by apply decode_device|]. eauto 10.
Qed.

Lemma collect_spec {A C} (f : A → outcome C) (g : A → C) l :
  Forall (λ a, f a = Done (g a)) l → collect f l = Done (g <$> l).
Proof. induction 1 as [|a l Ha _ IH]; simpl; [done|]. by rewrite Ha, IH. Qed.

Definition interface_of (c : list Z) : Interface.t := Interface.mk (at_ c 0) (at_ c 1) (at_ c 2).

Lemma interface_of_chunk_done c :
  length c = INTERFACE_SIZE → interface_of_chunk c = Done (interface_of c).
Proof. by destruct c as [|? [|? [|? [|? []]]]]. Qed.

Lemma read_listed_device_post r :
  rd_post read_listed_device r (λ x r',
    match x with
    | Ok d => length (ExportedDevice.interfaces d) = Z.to_nat (ExportedDevice.num_interfaces d)
              ∧ (length (incoming r) = DEVICE_SIZE
                  + 4 * Z.to_nat (ExportedDevice.num_interfaces d) + length (incoming r'))%nat
    | Err (Io _) => True
    | Err _ => False
    end).
Proof.
  apply rd_post_bind. eapply rd_post_mono; [apply read_device_post|].
  intros [d|e] r1; [|by destruct e].
  intros (buf & Hlen & _ & Hin & _). apply rd_post_bind, rd_post_read_exact; [|done].
  intros raw r2 Hraw _ Hin2. unfold INTERFACE_SIZE in *.
  pose proof (as_chunks_uniform 4 raw _ ltac:(lia) Hraw) as Hu.
  eapply rd_post_pure_bind.
  { apply (collect_spec _ interface_of). eapply Forall_impl; [exact Hu|].
    intros c Hc. by apply interface_of_chunk_done. }
  apply rd_post_ret. cbn. split.
  - rewrite length_fmap. apply (length_as_chunks 4); [lia|done].
  - rewrite Hin, length_app, Hin2, length_app. unfold DEVICE_SIZE in *. lia.
Qed.

Lemma read_listed_devices_post count ds r :
  rd_post (read_listed_devices count ds) r (λ x r',
    match x with
    | Ok l => ∃ l', l = ds ++ l' ∧ length l' = count ∧
        Forall (λ d, length (ExportedDevice.interfaces d)
                     = Z.to_nat (ExportedDevice.num_interfaces d)) l'
    | Err (Io _) => True
    | Err _ => False
    end).
Proof.
  revert ds r. induction count as [|count IH]; intros ds r.
  { apply rd_post_ret. exists []. by rewrite app_nil_r. }
  apply rd_post_bind. eapply rd_post_mono; [apply read_listed_device_post|].
  intros [d|e] r1; [|by destruct e]. intros [Hd _].
  eapply rd_post_mono; [apply IH|]. intros [l|e] r2; [|done].
  intros (l' & -> & Hlen & Hall). exists (d :: l'). rewrite <- app_assoc. simpl. auto.
Qed.

(** Device lists: reading the reply never panics, whatever the server sends; a list that is accepted
    has at most [MAX_EXPORTED_DEVICES] devices, each with the number of interfaces it announced;
    and the errors are exactly those of the header, the count and a stream that ends early. *)
Lemma read_devlist_reply_post r :
  rd_post read_devlist_reply r (λ x r',
    match x with
    | Ok l => Z.of_nat (length l) ≤ MAX_EXPORTED_DEVICES ∧
        Forall (λ d, length (ExportedDevice.interfaces d)
                     = Z.to_nat (ExportedDevice.num_interfaces d)) l
    | Err (Io _) => True
    | Err (UnexpectedReply e a) => e = OP_REP_DEVLIST ∧ a ≠ OP_REP_DEVLIST
    | Err (Status s) => s ≠ 0
    | Err (Invalid (DeviceCount n)) => MAX_EXPORTED_DEVICES < n
    | Err _ => False
    end).
Proof.
  apply rd_post_bind. eapply rd_post_mono; [apply read_op_header_post|].
  intros [[]|e] r1; [|by destruct e]. intros _.
  apply rd_post_bind, rd_post_read_u32; [|done]. intros bs r2 Hlen Hok _.
  pose proof (be_to_Z_bound bs Hok) as [Hb _].
  case_match; bool_props; [by apply rd_post_err|].
  eapply rd_post_mono; [apply read_listed_devices_post|].
  intros [l|e] r3; [|by destruct e]. intros (l' & -> & Hl & Hall). simpl. split; [lia|done].
Qed.

Lemma read_import_reply_post r :
  rd_post read_import_reply r (λ x r',
    match x with
    | Ok d => ∃ buf, length buf = DEVICE_SIZE ∧ bytes_ok buf ∧ d = device_of buf
    | Err (Io _) => True
    | Err (UnexpectedReply e a) => e = OP_REP_IMPORT ∧ a ≠ OP_REP_IMPORT
    | Err (Status s) => s ≠ 0
    | Err _ => False
    end).
Proof.
  apply rd_post_bind. eapply rd_post_mono; [apply read_op_header_post|].
  intros [[]|e] r1; [|by destruct e]. intros _.
  eapply rd_post_mono; [apply read_device_post|].
  intros [d|e] r2; [|by destruct e]. naive_solver.
Qed.

(** A URB reply header as the kernel's layout defines it. *)
Definition header_of (buf : list Z) : Reply.t :=
  let n := field 4 32 buf in
  Reply.Submit (field 4 4 buf) (swrap 32 (field 4 20 buf)) (field 4 24 buf) (field 4 28 buf)
    (if n =? 0xffffffff then 0 else n) (field 4 36 buf).

(** Bounds of an accepted header. *)
Definition header_ok (h : Reply.t) : Prop :=
  match h with
  | Reply.Submit seqnum status actual_length start_frame number_of_packets error_count =>
    is_u 32 seqnum ∧ is_i 32 status ∧ is_u 32 actual_length ∧ is_u 32 start_frame ∧
    0 ≤ number_of_packets ≤ MAX_ISO_PACKETS ∧ is_u 32 error_count
  | Reply.Unlink u => is_u 32 (RetUnlink.seqnum u) ∧ is_i 32 (RetUnlink.status u)
  end.

Lemma read_reply_header_post r :
  rd_post read_reply_header r (λ x r',
    match x with
    | Ok h => header_ok h ∧ ∃ buf, length buf = URB_HEADER_SIZE ∧
        incoming r = buf ++ incoming r' ∧
        match h with
        | Reply.Submit _ _ _ _ _ _ => field 4 0 buf = USBIP_RET_SUBMIT ∧ h = header_of buf
        | Reply.Unlink u => field 4 0 buf = USBIP_RET_UNLINK ∧
            u = RetUnlink.mk (field 4 4 buf) (swrap 32 (field 4 20 buf))
        end
    | Err (Io _) => (length (incoming r) < URB_HEADER_SIZE)%nat
    | Err (UnexpectedCommand c) => c ≠ USBIP_RET_SUBMIT ∧ c ≠ USBIP_RET_UNLINK
    | Err (Invalid (NumberOfPackets n)) => MAX_ISO_PACKETS < n
    | Err _ => False
    end).
Proof.
  apply rd_post_bind, rd_post_read_exact; [|done].
  intros buf r' Hlen Hok Hin. unfold URB_HEADER_SIZE in *.
  assert (∀ i, (i + 4 ≤ 48)%nat → is_u 32 (field 4 i buf)) as Hf
    by (intros; apply (field_is_u 4); [done|lia]).
  change buf with (drop 0 buf) at 1. do 3 rd_field.
  case_match; bool_props.
  - do 5 rd_field. destruct (MAX_ISO_PACKETS <? _) eqn:Hmax; bool_props; [by apply rd_post_err|].
    apply rd_post_ret. split; [|eauto 10].
    repeat split; try apply Hf; try apply swrap_is_i; try lia.
    pose proof (Hf 32%nat ltac:(lia)) as [? ?]. case_match; lia.
  - case_match; bool_props; [|by apply rd_post_err].
    rd_field. apply rd_post_ret. split; [|eauto 10].
    split; [apply Hf; lia | apply swrap_is_i; lia].
Qed.

Lemma iso_decode_done c : length c = ISO_DESCRIPTOR_SIZE →
  IsoPacketDescriptor.decode c = Done (IsoPacketDescriptor.mk (field 4 0 c) (field 4 4 c)
    (field 4 8 c) (swrap 32 (field 4 12 c))).
Proof.
  intros Hlen. unfold ISO_DESCRIPTOR_SIZE in Hlen. unfold IsoPacketDescriptor.decode.
  change c with (drop 0 c) at 1. repeat (get_field; cbn [mbind outcome_bind Nat.add]). done.
Qed.

Lemma collect_iso raw k : length raw = (k * ISO_DESCRIPTOR_SIZE)%nat →
  ∃ l, collect IsoPacketDescriptor.decode (as_chunks ISO_DESCRIPTOR_SIZE raw) = Done l ∧
       length l = k.
Proof.
  intros Hraw. eexists. split.
  - apply collect_spec. eapply Forall_impl; [apply (as_chunks_uniform _ _ k); [|done]|].
    { unfold ISO_DESCRIPTOR_SIZE. lia. }
    intros c Hc. by apply iso_decode_done.
  - rewrite length_fmap. apply length_as_chunks; [unfold ISO_DESCRIPTOR_SIZE; lia|done].
Qed.

Lemma read_iso_post {A} n (f : list IsoPacketDescriptor.t → A) r
    (Q : result ProtocolError A → R → Prop) :
  0 ≤ n →
  (∀ l iso r', Z.of_nat (length l) = n → length iso = (Z.to_nat n * ISO_DESCRIPTOR_SIZE)%nat →
     incoming r = iso ++ incoming r' → Q (Ok (f l)) r') →
  (∀ e r', Q (Err (Io e)) r') →
  rd_post ((if 0 <? n then
              raw ← rd_io (read_exact (Z.to_nat n * ISO_DESCRIPTOR_SIZE));
              rd_pure (collect IsoPacketDescriptor.decode (as_chunks ISO_DESCRIPTOR_SIZE raw))
            else mret []) ≫= λ l, mret (f l)) r Q.
Proof.
  intros Hn HOk HErr. apply rd_post_bind. case_match; bool_props.
  - apply rd_post_bind, rd_post_read_exact; [|done]. intros raw r' Hraw _ Hin.
    destruct (collect_iso raw _ Hraw) as (l & El & Hl).
    eapply rd_post_pure; [exact El|]. eapply rd_post_ret, HOk; [lia|done|done].
  - apply rd_post_ret, rd_post_ret, (HOk [] []); [simpl; lia| |done].
    by replace (Z.to_nat n) with 0%nat by lia.
Qed.

(** What a RET_SUBMIT may carry: never more than was asked for, data only for IN transfers and then
    exactly [actual_length] bytes of it, as many descriptors as announced; and it consumes exactly
    that much of the stream. *)
Definition payload_ok (seqnum status actual_length start_frame n error_count : Z)
    (data_expected : bool) (max_length : Z) (before after : list Z) (ret : RetSubmit.t) : Prop :=
  actual_length ≤ max_length ∧
  RetSubmit.seqnum ret = seqnum ∧ RetSubmit.status ret = status ∧
  RetSubmit.actual_length ret = actual_length ∧
  RetSubmit.start_frame ret = start_frame ∧ RetSubmit.error_count ret = error_count ∧
  Z.of_nat (length (RetSubmit.data ret)) = (if data_expected then actual_length else 0) ∧
  Z.of_nat (length (RetSubmit.iso_packets ret)) = n ∧
  ∃ iso, length iso = (Z.to_nat n * ISO_DESCRIPTOR_SIZE)%nat ∧
    before = RetSubmit.data ret ++ iso ++ after.

Lemma read_submit_payload_post seqnum status actual_length start_frame n error_count
    data_expected max_length r :
  0 ≤ actual_length → 0 ≤ n →
  rd_post (read_submit_payload
      (Reply.Submit seqnum status actual_length start_frame n error_count)
      data_expected max_length) r (λ x r',
    match x with
    | Ok ret => payload_ok seqnum status actual_length start_frame n error_count data_expected
                  max_length (incoming r) (incoming r') ret
    | Err (Io _) => actual_length ≤ max_length
    | Err (Invalid (ActualLength s a m)) =>
        s = seqnum ∧ a = actual_length ∧ m = max_length ∧ max_length < actual_length
    | Err _ => False
    end).
Proof.
  intros Ha Hn. unfold read_submit_payload.
  case_match; bool_props; [by apply rd_post_err|]. apply rd_post_bind.
  destruct (data_expected && (0 <? actual_length)) eqn:Hd.
  - apply rd_post_read_exact; [|done]. intros bs r1 Hl _ Hin. bool_props. subst data_expected.
    apply read_iso_post; [done| |done]. intros l iso r' ? ? E.
    repeat split; cbn; try done; try lia. exists iso. by rewrite Hin, E.
  - apply rd_post_ret, read_iso_post; [done| |done]. intros l iso r' ? ? E.
    repeat split; cbn; try done; try lia; [|eauto].
    destruct data_expected; [|done]. simpl in Hd. bool_props. lia.
Qed.

End Readers.

(** Fields of a concatenation. *)
Lemma field_skip n i x t : (length x ≤ i)%nat → field n i (x ++ t) = field n (i - length x) t.
Proof. intros. unfold field. by rewrite drop_app_ge. Qed.

Lemma field_here n v t : field n 0 (be_bytes n v ++ t) = v mod 2 ^ (8 * Z.of_nat n).
Proof.
  unfold field. rewrite drop_0, take_app_length' by (by rewrite length_be_bytes).
  apply be_to_Z_bytes.
Qed.

Lemma field_byte b t : field 1 0 (b :: t) = b.
Proof. change (b + 256 * 0 = b). lia. Qed.

(** ** Layout of the encoders *)

(** A sequence of big-endian [u32]s. *)
Definition words (ws : list Z) : list Z := concat (be_bytes 4 <$> ws).

#[global] Arguments words : simpl never.

Lemma words_cons w ws : words (w :: ws) = be_bytes 4 w ++ words ws.
Proof. done. Qed.

Lemma length_words ws : length (words ws) = (4 * length ws)%nat.
Proof.
  induction ws as [|w ws IH]; [done|]. rewrite words_cons, length_app, length_be_bytes, IH.
  simpl. lia.
Qed.

Lemma words_ok ws : bytes_ok (words ws).
Proof. induction ws; [constructor|]. rewrite words_cons. apply Forall_app; split; [apply be_bytes_ok|done]. Qed.

Lemma words_drop ws i t : (i ≤ length ws)%nat →
  drop (4 * i) (words ws ++ t) = words (drop i ws) ++ t.
Proof.
  revert ws. induction i as [|i IH]; intros ws Hi; [done|].
  destruct ws as [|w ws]; simpl in Hi; [lia|].
  rewrite words_cons, <- app_assoc. replace (4 * S i)%nat with (4 + 4 * i)%nat by lia.
  rewrite <- drop_drop, drop_app_length' by (by rewrite length_be_bytes). apply IH. lia.
Qed.

Lemma words_field ws i w t : ws !! i = Some w → field 4 (4 * i) (words ws ++ t) = w mod 2 ^ 32.
Proof.
  intros Hi. unfold field. pose proof (lookup_lt_Some _ _ _ Hi).
  rewrite words_drop by lia. rewrite (drop_S _ w) by done.
  rewrite words_cons, <- app_assoc, take_app_length' by (by rewrite length_be_bytes).
  by rewrite be_to_Z_bytes.
Qed.

Definition iso_words (p : IsoPacketDescriptor.t) : list Z :=
  words [IsoPacketDescriptor.offset p; IsoPacketDescriptor.length p;
         IsoPacketDescriptor.actual_length p; IsoPacketDescriptor.status p].

Section Encoders.
Context {B : BytesCrate} {BL : BytesLaws B}.

Lemma iso_encode p buf : IsoPacketDescriptor.encode p buf = buf ++ iso_words p.
Proof.
  unfold IsoPacketDescriptor.encode, iso_words.
  rewrite put_i32_spec, !put_u32_spec. unfold words. cbn [fmap list_fmap concat].
  by rewrite app_nil_r, <- !app_assoc.
Qed.

Lemma iso_encode_all l buf :
  foldl (λ buf p, IsoPacketDescriptor.encode p buf) buf l = buf ++ concat (iso_words <$> l).
Proof.
  revert buf. induction l as [|p l IH]; intros buf; simpl; [by rewrite app_nil_r|].
  by rewrite IH, iso_encode, <- app_assoc.
Qed.

Lemma cmd_submit_layout c buf :
  CmdSubmit.encode c buf = buf ++ words [USBIP_CMD_SUBMIT; CmdSubmit.seqnum c; CmdSubmit.devid c;
    CmdSubmit.direction c; CmdSubmit.ep c; CmdSubmit.transfer_flags c;
    CmdSubmit.transfer_buffer_length c; CmdSubmit.start_frame c;
    wrap 32 (Z.of_nat (length (CmdSubmit.iso_packets c))); CmdSubmit.interval c]
    ++ CmdSubmit.setup c ++ CmdSubmit.data c ++ concat (iso_words <$> CmdSubmit.iso_packets c).
Proof.
  unfold CmdSubmit.encode. rewrite iso_encode_all, !put_slice_spec, !put_u32_spec.
  unfold words. cbn [fmap list_fmap concat]. rewrite app_nil_r, <- !app_assoc.
  by destruct (CmdSubmit.iso_packets c).
Qed.

Lemma cmd_unlink_layout c buf :
  CmdUnlink.encode c buf = buf ++ words [USBIP_CMD_UNLINK; CmdUnlink.seqnum c; CmdUnlink.devid c;
    0; 0; CmdUnlink.unlink_seqnum c] ++ replicate 24 0.
Proof.
  unfold CmdUnlink.encode. rewrite put_bytes_spec, !put_u32_spec.
  unfold words. cbn [fmap list_fmap concat]. by rewrite app_nil_r, <- !app_assoc.
Qed.

Lemma length_iso_words p : length (iso_words p) = ISO_DESCRIPTOR_SIZE.
Proof. unfold iso_words. by rewrite length_words. Qed.

Lemma iso_words_uniform l : Forall (λ c, length c = ISO_DESCRIPTOR_SIZE) (iso_words <$> l).
Proof. apply Forall_fmap, Forall_true. intros. apply length_iso_words. Qed.

Lemma length_cmd_submit c buf : length (CmdSubmit.setup c) = 8%nat →
  length (CmdSubmit.encode c buf) =
    (length buf + URB_HEADER_SIZE + length (CmdSubmit.data c)
     + length (CmdSubmit.iso_packets c) * ISO_DESCRIPTOR_SIZE)%nat.
Proof.
  intros Hs. rewrite cmd_submit_layout, !length_app, length_words, Hs.
  rewrite (length_concat_uniform ISO_DESCRIPTOR_SIZE) by apply iso_words_uniform.
  rewrite length_fmap. cbn [length]. unfold URB_HEADER_SIZE. lia.
Qed.

Lemma length_cmd_unlink c buf :
  length (CmdUnlink.encode c buf) = (length buf + URB_HEADER_SIZE)%nat.
Proof.
  rewrite cmd_unlink_layout, !length_app, length_words, length_replicate.
  cbn [length]. unfold URB_HEADER_SIZE. lia.
Qed.

Lemma fill_all bs w n z :
  length bs = n → (n ≤ length z)%nat → fill_front bs (w, z) = Done (w ++ bs, drop n z).
Proof. intros <- ?. unfold fill_front. cbn. by rewrite decide_True. Qed.

Lemma devlist_request_layout :
  encode_devlist_request =
    Done (be_bytes 2 USBIP_VERSION ++ be_bytes 2 OP_REQ_DEVLIST ++ be_bytes 4 0).
Proof.
  unfold encode_devlist_request. rewrite slice_put_u16_spec.
  change OP_HEADER_SIZE with (length (be_bytes 2 USBIP_VERSION) + 6)%nat.
  rewrite fill_front_zeros. cbn [mbind outcome_bind]. rewrite slice_put_u16_spec.
  change 6%nat with (length (be_bytes 2 OP_REQ_DEVLIST) + 4)%nat.
  rewrite fill_front_zeros. cbn [mbind outcome_bind]. rewrite slice_put_u32_spec.
  change 4%nat with (length (be_bytes 4 0) + 0)%nat at 2.
  rewrite fill_front_zeros. reflexivity.
Qed.

End Encoders.

(** ** Bus ids *)

Lemma position_zero_app (s t : list Z) :
  0 ∉ s → position (λ b, b =? 0) (s ++ 0 :: t) = Some (length s).
Proof.
  induction s as [|b s IH]; intros Hn; simpl; [done|].
  rewrite not_elem_of_cons in Hn. destruct Hn as [Hb Hn].
  rewrite (proj2 (Z.eqb_neq b 0)) by congruence. by rewrite IH.
Qed.

Lemma position_zero_none (s : list Z) : 0 ∉ s → position (λ b, b =? 0) s = None.
Proof.
  intros Hn. apply position_None. induction s as [|b s IH]; constructor.
  - apply Z.eqb_neq. rewrite not_elem_of_cons in Hn. naive_solver.
  - apply IH. rewrite not_elem_of_cons in Hn. naive_solver.
Qed.

Lemma c_string_padded s n : Utf8.valid s → 0 ∉ s → c_string (s ++ replicate n 0) = s.
Proof.
  intros Hv Hz. unfold c_string. destruct n; simpl.
  - rewrite app_nil_r, position_zero_none by done. simpl. rewrite firstn_all.
    by apply Utf8.lossy_valid_id.
  - rewrite position_zero_app by done. simpl. rewrite take_app_length.
    by apply Utf8.lossy_valid_id.
Qed.

Lemma existsb_zero (s : list Z) : existsb (λ b, b =? 0) s = false ↔ 0 ∉ s.
Proof.
  induction s as [|b s IH]; simpl; [split; [intros _ []%elem_of_nil|done]|].
  rewrite not_elem_of_cons, <- IH, orb_false_iff, Z.eqb_neq. naive_solver.
Qed.

Lemma splice_front (s : list Z) n : (length s ≤ n)%nat →
  splice (replicate n 0) 0 s = s ++ replicate (n - length s) 0.
Proof. intros. unfold splice. by rewrite take_0, drop_replicate. Qed.

Lemma encode_busid_ok s :
  (length s < BUSID_SIZE)%nat → 0 ∉ s →
  encode_busid s = Ok (s ++ replicate (BUSID_SIZE - length s) 0).
Proof.
  intros Hl Hz. unfold encode_busid. rewrite (proj2 (existsb_zero s)) by done.
  rewrite (proj2 (Nat.leb_gt _ _)) by done. cbn [orb]. by rewrite splice_front by lia.
Qed.

(** ** Spreading isochronous IN data *)

Section Unpack.

(** Bytes of packet [p] in the unpacked buffer. *)
Definition covers (p : IsoPacketDescriptor.t) (j : nat) : Prop :=
  (Z.to_nat (IsoPacketDescriptor.offset p) ≤ j
   < Z.to_nat (IsoPacketDescriptor.offset p) + Z.to_nat (IsoPacketDescriptor.actual_length p))%nat.

(** Where packet [i] starts in the packed data: packets lie there back to back. *)
Definition packed_at (ps : list IsoPacketDescriptor.t) (i : nat) : nat :=
  sum_list (Z.to_nat ∘ IsoPacketDescriptor.actual_length <$> take i ps).

Definition packed_total (ps : list IsoPacketDescriptor.t) : nat :=
  sum_list (Z.to_nat ∘ IsoPacketDescriptor.actual_length <$> ps).

Definition fits_buffer (n : nat) (p : IsoPacketDescriptor.t) : Prop :=
  (Z.to_nat (IsoPacketDescriptor.offset p) + Z.to_nat (IsoPacketDescriptor.actual_length p) ≤ n)%nat.

(** No byte of the buffer belongs to two packets. *)
Definition packets_disjoint (ps : list IsoPacketDescriptor.t) : Prop :=
  ∀ i1 i2 p1 p2 j, ps !! i1 = Some p1 → ps !! i2 = Some p2 → covers p1 j → covers p2 j → i1 = i2.

Lemma unpack_packets_is_Some packed ps out c :
  (c ≤ length packed)%nat →
  is_Some (unpack_packets packed ps out c) ↔
  (c + packed_total ps ≤ length packed)%nat ∧ Forall (fits_buffer (length out)) ps.
Proof.
  unfold packed_total. revert out c. induction ps as [|p ps IH]; intros out c Hc; simpl.
  { rewrite Nat.add_0_r. by split; [auto|intros _; eauto]. }
  rewrite Forall_cons. unfold fits_buffer at 1.
  set (len := Z.to_nat (IsoPacketDescriptor.actual_length p)).
  set (start := Z.to_nat (IsoPacketDescriptor.offset p)).
  destruct (get_range packed c (c + len)) as [src|] eqn:Hsrc; simpl.
  2: { unfold get_range in Hsrc. case_decide; [done|]. split; [intros [? [=]]|]. lia. }
  apply get_range_Some in Hsrc as [? ->].
  destruct (get_range out start (start + len)) eqn:Hdst; simpl.
  2: { unfold get_range in Hdst. case_decide; [done|]. split; [intros [? [=]]|]. lia. }
  apply get_range_Some in Hdst as [? _].
  rewrite IH by lia. rewrite length_splice by (rewrite length_take, length_drop; lia).
  rewrite Nat.add_assoc. intuition lia.
Qed.

(** One step of a successful run: the packet's data is copied, the rest runs on. *)
Lemma unpack_packets_cons packed p ps out c out' :
  unpack_packets packed (p :: ps) out c = Some out' →
  let len := Z.to_nat (IsoPacketDescriptor.actual_length p) in
  let start := Z.to_nat (IsoPacketDescriptor.offset p) in
  (c + len ≤ length packed ∧ start + len ≤ length out)%nat ∧
  unpack_packets packed ps (splice out start (take len (drop c packed))) (c + len) = Some out'.
Proof.
  simpl. intros (src & Hsrc & H)%bind_Some. apply bind_Some in H as (dst & Hdst & H).
  apply get_range_Some in Hsrc as [? ->]. apply get_range_Some in Hdst as [? _].
  rewrite Nat.add_comm, Nat.add_sub in H. rewrite (Nat.add_comm c). split; [lia|done].
Qed.

Lemma unpack_packets_length packed ps out c out' :
  unpack_packets packed ps out c = Some out' → length out' = length out.
Proof.
  revert out c. induction ps as [|p ps IH]; intros out c; [by intros [= ->]|].
  intros [? H]%unpack_packets_cons. rewrite (IH _ _ H). apply length_splice.
  rewrite length_take, length_drop. lia.
Qed.

Lemma unpack_packets_untouched packed ps out c out' j :
  unpack_packets packed ps out c = Some out' → Forall (λ p, ¬ covers p j) ps →
  out' !! j = out !! j.
Proof.
  revert out c. induction ps as [|p ps IH]; intros out c; [by intros [= ->]|].
  intros [? H]%unpack_packets_cons [Hp Hps]%Forall_cons. rewrite (IH _ _ H) by done.
  apply splice_lookup_outside; rewrite length_take, length_drop; [lia|].
  unfold covers in Hp. lia.
Qed.

Lemma unpack_packets_content packed ps out c out' i p k :
  unpack_packets packed ps out c = Some out' → packets_disjoint ps →
  ps !! i = Some p → (k < Z.to_nat (IsoPacketDescriptor.actual_length p))%nat →
  out' !! (Z.to_nat (IsoPacketDescriptor.offset p) + k)%nat = packed !! (c + packed_at ps i + k)%nat.
Proof.
  unfold packed_at. revert out c i. induction ps as [|q ps IH]; intros out c i; [done|].
  intros [? H]%unpack_packets_cons Hd Hi Hk.
  assert (packets_disjoint ps) as Hd'.
  { intros i1 i2 p1 p2 j ????. enough (S i1 = S i2) by lia. by eapply Hd. }
  destruct i as [|i]; simpl in Hi.
  - injection Hi as ->. rewrite (unpack_packets_untouched _ _ _ _ _ _ H).
    + rewrite splice_lookup_inside by (rewrite length_take, length_drop; lia).
      rewrite lookup_take_lt, lookup_drop by lia. simpl. f_equal. lia.
    + apply Forall_lookup. intros i2 p2 Hp2 Hc.
      enough (0%nat = S i2) by lia. eapply (Hd 0%nat (S i2)); [done|done| |exact Hc].
      unfold covers. lia.
  - rewrite (IH _ _ i H) by done. cbn [take fmap list_fmap sum_list compose]. f_equal. unfold id. lia.
Qed.

End Unpack.

(** ** Readers on well-formed input *)

Section Exact.
Context {B : BytesCrate} {BL : BytesLaws B}.
Context {R : Type} {AR : AsyncRead R} {AL : AsyncReadLaws R}.

Lemma words_field_u ws i w t :
  ws !! i = Some w → is_u 32 w → field 4 (4 * i) (words ws ++ t) = w.
Proof. intros Hi Hw. rewrite (words_field _ _ _ _ Hi). by apply Z.mod_small. Qed.

Lemma words_field_i ws i w t :
  ws !! i = Some w → is_i 32 w → swrap 32 (field 4 (4 * i) (words ws ++ t)) = w.
Proof.
  intros Hi Hw. rewrite (words_field _ _ _ _ Hi). by apply (swrap_wrap 32).
Qed.

Lemma iso_decode_words p :
  is_u 32 (IsoPacketDescriptor.offset p) → is_u 32 (IsoPacketDescriptor.length p) →
  is_u 32 (IsoPacketDescriptor.actual_length p) → is_i 32 (IsoPacketDescriptor.status p) →
  IsoPacketDescriptor.decode (iso_words p) = Done p.
Proof.
  intros. rewrite iso_decode_done by apply length_iso_words.
  unfold iso_words. rewrite <- (app_nil_r (words _)).
  rewrite (words_field_u _ 0 (IsoPacketDescriptor.offset p)) by done.
  rewrite (words_field_u _ 1 (IsoPacketDescriptor.length p)) by done.
  rewrite (words_field_u _ 2 (IsoPacketDescriptor.actual_length p)) by done.
  rewrite (words_field_i _ 3 (IsoPacketDescriptor.status p)) by done.
  by destruct p.
Qed.

(** A full header followed by [rest]. *)
Lemma read_reply_header_words ws pad rest r :
  length ws = 10%nat → length pad = 8%nat → incoming r = (words ws ++ pad) ++ rest →
  ws !! 0%nat = Some USBIP_RET_SUBMIT → field 4 32 (words ws ++ pad) ≤ MAX_ISO_PACKETS →
  ∃ r', read_reply_header r = Done (Ok (header_of (words ws ++ pad)), r') ∧ incoming r' = rest.
Proof.
  intros Hws Hpad Hin Hcmd Hpk.
  enough (rd_post read_reply_header r
    (λ x r', x = Ok (header_of (words ws ++ pad)) ∧ incoming r' = rest)) as (x & r' & E & -> & ?)
    by eauto.
  assert (length (words ws ++ pad) = 48%nat) as Hlen by (rewrite length_app, length_words; lia).
  apply rd_post_bind. eapply rd_post_read_exact_app; [done|exact Hin|]. intros r1 Hin1.
  change (words ws ++ pad) with (drop 0 (words ws ++ pad)) at 1. do 3 rd_field.
  rewrite (words_field_u ws 0 USBIP_RET_SUBMIT), Z.eqb_refl by done. do 5 rd_field.
  rewrite (proj2 (Z.ltb_ge _ _)) by (case_match; unfold MAX_ISO_PACKETS in *; lia).
  by apply rd_post_ret.
Qed.

Lemma collect_iso_decode l :
  Forall (λ p, IsoPacketDescriptor.decode (iso_words p) = Done p) l →
  collect IsoPacketDescriptor.decode (as_chunks ISO_DESCRIPTOR_SIZE (concat (iso_words <$> l)))
  = Done l.
Proof.
  intros Hl. rewrite as_chunks_concat; [|unfold ISO_DESCRIPTOR_SIZE; lia|apply iso_words_uniform].
  induction Hl as [|p l Hp _ IH]; [done|]. cbn [fmap list_fmap collect].
  rewrite Hp. cbn [mbind outcome_bind].
  change (list_fmap _ _ iso_words l) with (iso_words <$> l). by rewrite IH.
Qed.

Lemma read_iso_words {A} l (f : list IsoPacketDescriptor.t → A) rest r
    (Q : result ProtocolError A → R → Prop) :
  Forall (λ p, IsoPacketDescriptor.decode (iso_words p) = Done p) l →
  incoming r = concat (iso_words <$> l) ++ rest →
  (∀ r', incoming r' = rest → Q (Ok (f l)) r') →
  rd_post ((if 0 <? Z.of_nat (length l) then
              raw ← rd_io (read_exact (Z.to_nat (Z.of_nat (length l)) * ISO_DESCRIPTOR_SIZE));
              rd_pure (collect IsoPacketDescriptor.decode (as_chunks ISO_DESCRIPTOR_SIZE raw))
            else mret []) ≫= λ l, mret (f l)) r Q.
Proof.
  intros Hl Hin HQ. apply rd_post_bind. case_match eqn:E; bool_props.
  - apply rd_post_bind. eapply rd_post_read_exact_app; [|exact Hin|].
    + rewrite (length_concat_uniform ISO_DESCRIPTOR_SIZE), length_fmap, Nat2Z.id by
        apply iso_words_uniform. done.
    + intros r' Hr'. eapply rd_post_pure; [by apply collect_iso_decode|]. by apply rd_post_ret, HQ.
  - destruct l; [|simpl in E; lia]. by apply rd_post_ret, rd_post_ret, HQ.
Qed.

Lemma read_submit_payload_words seqnum status start_frame error_count (data_expected : bool)
    max_length actual (data : list Z) l rest r :
  0 ≤ actual ≤ max_length →
  Z.of_nat (length data) = (if data_expected then actual else 0) →
  Forall (λ p, IsoPacketDescriptor.decode (iso_words p) = Done p) l →
  incoming r = data ++ concat (iso_words <$> l) ++ rest →
  ∃ r', read_submit_payload
          (Reply.Submit seqnum status actual start_frame (Z.of_nat (length l)) error_count)
          data_expected max_length r
        = Done (Ok (RetSubmit.mk seqnum status actual start_frame error_count data l), r')
        ∧ incoming r' = rest.
Proof.
  intros [Ha Hmax] Hd Hl Hin.
  enough (rd_post (read_submit_payload
      (Reply.Submit seqnum status actual start_frame (Z.of_nat (length l)) error_count)
      data_expected max_length) r
    (λ x r', x = Ok (RetSubmit.mk seqnum status actual start_frame error_count data l)
             ∧ incoming r' = rest)) as (x & r' & E & -> & ?) by eauto.
  unfold read_submit_payload. rewrite (proj2 (Z.ltb_ge _ _)) by done. apply rd_post_bind.
  destruct (data_expected && (0 <? actual)) eqn:E.
  - bool_props. subst. eapply rd_post_read_exact_app; [|exact Hin|]; [lia|].
    intros r1 Hin1. by eapply read_iso_words.
  - assert (data = []) as ->.
    { destruct data; [done|]. destruct data_expected; simpl in *; [|lia]. bool_props. lia. }
    apply rd_post_ret. by eapply read_iso_words.
Qed.

End Exact.
