(* ===== verification/Server.v ===== *)
(** * Server: the repository's USB/IP server (src/tests/support/server.rs), as the peer

    The test server parses and prints the wire format independently of the client's codec.  Its
    parsing of commands and its printing of replies and device records are modelled here, and the
    theorems connect the two sides: what the client encodes the server decodes to the same URB
    without noting a protocol violation, and what the server encodes the client decodes.  The
    server's pending table and its tasks are in [Serving]. *)

From stdpp Require Import base tactics option list.
From S2P Require Import Prelude Wire Protocol ProtocolFacts.

Module IsoDesc.

Record t : Type := mk { offset : Z; length : Z; actual_length : Z; status : Z }.

End IsoDesc.

Module Urb.

Record t : Type := mk {
  seqnum : Z;
  devid : Z;
  direction : Z;
  ep : Z;
  transfer_flags : Z;
  length : Z;
  start_frame : Z;
  number_of_packets : Z;
  interval : Z;
  setup : list Z;
  data : list Z;
  iso : list IsoDesc.t;
}.

Definition is_in (u : t) : bool := direction u =? 1.

Definition set_data (u : t) (d : list Z) : t :=
  mk (seqnum u) (devid u) (direction u) (ep u) (transfer_flags u) (length u) (start_frame u)
    (number_of_packets u) (interval u) (setup u) d (iso u).

Definition set_iso (u : t) (l : list IsoDesc.t) : t :=
  mk (seqnum u) (devid u) (direction u) (ep u) (transfer_flags u) (length u) (start_frame u)
    (number_of_packets u) (interval u) (setup u) (data u) l.

End Urb.

Module Completion.

Record t : Type := mk {
  status : Z;
  data : list Z;
  actual_length : option Z;
  iso : list IsoDesc.t;
  start_frame : Z;
}.

End Completion.

Module ExportDev.

Record t : Type := mk {
  path : list Z;
  busid : list Z;
  busnum : Z;
  devnum : Z;
  speed : Z;
  id_vendor : Z;
  id_product : Z;
  bcd_device : Z;
  class : list Z;
  configuration_value : Z;
  num_configurations : Z;
  interfaces : list (list Z);
}.

Definition devid (e : t) : Z := Z.lor (wrap 32 (Z.shiftl (busnum e) 16)) (devnum e).

Definition encode (e : t) (out : list Z) (with_interfaces : bool) : outcome (list Z) :=
  path ← copy_at (replicate 256 0) 0 (path e);
  busid ← copy_at (replicate 32 0) 0 (busid e);
  let out := out ++ path ++ busid ++ be_bytes 4 (busnum e) ++ be_bytes 4 (devnum e)
    ++ be_bytes 4 (speed e) ++ be_bytes 2 (id_vendor e) ++ be_bytes 2 (id_product e)
    ++ be_bytes 2 (bcd_device e) ++ class e ++ [configuration_value e; num_configurations e;
       wrap 8 (Z.of_nat (length (interfaces e)))] in
  mret (if with_interfaces then out ++ concat ((λ i, i ++ [0]) <$> interfaces e) else out).

End ExportDev.

(** Protocol violations the server notes about the client. *)
Inductive violation : Type :=
| WrongDevid (seqnum devid : Z)
| SeqnumReused (seqnum : Z)
| BadDirectionOrEp (seqnum direction ep : Z)
| SetupOnDataEndpoint (seqnum ep : Z)
| TooLong (seqnum length : Z)
| TooManyPackets (seqnum packets : Z)
| UnlinkPadding (seqnum : Z)
| UnknownCommand (command : Z)
| PeriodicWithoutInterval (seqnum address : Z)
| IsoWithoutPackets (seqnum : Z)
| OpVersion (version : Z)
| OpStatus (status : Z)
| UnknownOp (code : Z).

Inductive command : Type :=
| Submit (u : Urb.t)
| Unlink (seqnum target : Z).

Definition be32 (b : list Z) (i : nat) : outcome Z :=
  be_to_Z <$> slice b (i * 4) (i * 4 + 4).

Definition iso_of_chunk (c : list Z) : outcome IsoDesc.t :=
  offset ← be32 c 0;
  len ← be32 c 1;
  actual_length ← be32 c 2;
  status ← be32 c 3;
  mret (IsoDesc.mk offset len actual_length (swrap 32 status)).

Section Reader.
Context {R : Type} `{AR : AsyncRead R}.

(** [CMD_SUBMIT], from its header [h] on: the URB, or [None] when the loop ends, with the violations
    noted on the way. *)
Definition read_submit (h : list Z) (seqnum devid : Z) (vs : list violation) (r : R) :
    outcome (option Urb.t * list violation * R) :=
  direction ← be32 h 3;
  ep ← be32 h 4;
  transfer_flags ← be32 h 5;
  len ← be32 h 6;
  start_frame ← be32 h 7;
  number_of_packets ← be32 h 8;
  interval ← be32 h 9;
  setup ← slice h 40 48;
  let urb := Urb.mk seqnum devid direction ep transfer_flags len start_frame number_of_packets
               interval setup [] [] in
  let vs := if (1 <? direction) || (15 <? ep) then vs ++ [BadDirectionOrEp seqnum direction ep]
            else vs in
  let vs := if negb (ep =? 0) && negb (bool_decide (setup = replicate 8 0))
            then vs ++ [SetupOnDataEndpoint seqnum ep] else vs in
  if 16 * 1024 * 1024 <? len then Done (None, vs ++ [TooLong seqnum len], r)
  else
    let '(got, r) := if negb (Urb.is_in urb) then read_exact (Z.to_nat len) r else (Ok [], r) in
    match got with
    | Err _ => Done (None, vs, r)
    | Ok data =>
      let urb := Urb.set_data urb data in
      let packets := if number_of_packets =? 0xffffffff then 0 else number_of_packets in
      if 1024 <? packets then Done (None, vs ++ [TooManyPackets seqnum packets], r)
      else
        let '(got, r) := read_exact (Z.to_nat packets * 16) r in
        match got with
        | Err _ => Done (None, vs, r)
        | Ok iso =>
          iso ← collect iso_of_chunk (as_chunks 16 iso);
          Done (Some (Urb.set_iso urb iso), vs, r)
        end
    end.

(** The words of a header that every command has, and what the server checks of them: the number of
    the device, and that the seqnum is not in [pending], the seqnums of its pending table. *)
Definition check_header (export_devid : Z) (pending : list Z) (h : list Z) :
    outcome (Z * Z * Z * list violation) :=
  command ← be32 h 0;
  seqnum ← be32 h 1;
  devid ← be32 h 2;
  let vs := if negb (devid =? export_devid) then [WrongDevid seqnum devid] else [] in
  let vs := if existsb (Z.eqb seqnum) pending then vs ++ [SeqnumReused seqnum] else vs in
  mret (command, seqnum, devid, vs).

(** [CMD_UNLINK]: the target, and the padding that must be zero. *)
Definition read_unlink (h : list Z) (seqnum : Z) (vs : list violation) :
    outcome (Z * list violation) :=
  target ← be32 h 5;
  padding ← slice h 24 48;
  mret (target, if existsb (λ b, negb (b =? 0)) padding then vs ++ [UnlinkPadding seqnum] else vs).

(** One turn of the loop of [serve_urbs]: a command and its payload. *)
Definition read_command (export_devid : Z) (pending : list Z) (r : R) :
    outcome (option command * list violation * R) :=
  let '(got, r) := read_exact 48 r in
  match got with
  | Err _ => Done (None, [], r)
  | Ok h =>
    '(command, seqnum, devid, vs) ← check_header export_devid pending h;
    if command =? 1 then
      '(urb, vs, r) ← read_submit h seqnum devid vs r;
      Done (fmap (M := option) Submit urb, vs, r)
    else if command =? 2 then
      '(target, vs) ← read_unlink h seqnum vs;
      Done (Some (Unlink seqnum target), vs, r)
    else Done (None, vs ++ [UnknownCommand command], r)
  end.

End Reader.

(** The RET_UNLINK the server answers with. *)
Definition unlink_reply (seqnum : Z) (found : bool) : list Z :=
  let status := if found then -104 else 0 in
  let out := concat (be_bytes 4 <$> [4; seqnum; 0; 0; 0; wrap 32 status]) in
  take 48 out ++ replicate (48 - length out) 0.

Definition iso_bytes (d : IsoDesc.t) : list Z :=
  concat (be_bytes 4 <$> [IsoDesc.offset d; IsoDesc.length d; IsoDesc.actual_length d;
                          wrap 32 (IsoDesc.status d)]).

Definition ret_submit (urb : Urb.t) (c : Completion.t) : list Z :=
  let actual := if Urb.is_in urb then wrap 32 (Z.of_nat (length (Completion.data c)))
                else default (Urb.length urb) (Completion.actual_length c) in
  let packets := match Completion.iso c, Urb.iso urb with
                 | [], _ :: _ => length (Urb.iso urb)
                 | _, _ => length (Completion.iso c)
                 end in
  let out := concat (be_bytes 4 <$> [3; Urb.seqnum urb; 0; 0; 0; wrap 32 (Completion.status c);
                       actual; Completion.start_frame c; wrap 32 (Z.of_nat packets); 0]) in
  let out := take 48 out ++ replicate (48 - length out) 0 in
  let out := if Urb.is_in urb then out ++ Completion.data c else out in
  let iso := match Completion.iso c with [] => Urb.iso urb | _ :: _ => Completion.iso c end in
  out ++ concat (iso_bytes <$> iso).

(** ** What the client encodes, the server decodes *)

Lemma slice_app_r {A} (x y : list A) i j :
  length x = i → (i + length y)%nat = j → slice (x ++ y) i j = Done y.
Proof.
  intros <- <-. rewrite slice_done by (rewrite ?length_app; lia).
  rewrite drop_app_length. rewrite take_ge by lia. done.
Qed.

Module Iso.

(** An isochronous descriptor whose fields have their widths. *)
Definition wf (p : IsoPacketDescriptor.t) : Prop :=
  is_u 32 (IsoPacketDescriptor.offset p) ∧ is_u 32 (IsoPacketDescriptor.length p) ∧
  is_u 32 (IsoPacketDescriptor.actual_length p) ∧ is_i 32 (IsoPacketDescriptor.status p).

#[global] Instance wf_dec p : Decision (wf p).
Proof. unfold wf. apply _. Defined.

Definition to_server (p : IsoPacketDescriptor.t) : IsoDesc.t :=
  IsoDesc.mk (IsoPacketDescriptor.offset p) (IsoPacketDescriptor.length p)
    (IsoPacketDescriptor.actual_length p) (IsoPacketDescriptor.status p).

Definition to_client (d : IsoDesc.t) : IsoPacketDescriptor.t :=
  IsoPacketDescriptor.mk (IsoDesc.offset d) (IsoDesc.length d) (IsoDesc.actual_length d)
    (IsoDesc.status d).

End Iso.

Lemma be32_words_wrap ws i w t :
  ws !! i = Some w → be32 (words ws ++ t) i = Done (wrap 32 w).
Proof.
  intros Hi. pose proof (lookup_lt_Some _ _ _ Hi). unfold be32.
  rewrite slice_done by (rewrite ?length_app, ?length_words; lia).
  replace (i * 4 + 4 - i * 4)%nat with 4%nat by lia. rewrite (Nat.mul_comm i). cbn [fmap outcome_fmap].
  f_equal. exact (words_field _ _ _ _ Hi).
Qed.

Lemma be32_words ws i w t :
  ws !! i = Some w → is_u 32 w → be32 (words ws ++ t) i = Done w.
Proof. intros Hi Hw. rewrite (be32_words_wrap _ _ _ _ Hi). by rewrite wrap_id. Qed.

Lemma iso_of_chunk_words p : Iso.wf p → iso_of_chunk (iso_words p) = Done (Iso.to_server p).
Proof.
  intros (? & ? & ? & Hs). unfold iso_of_chunk, iso_words.
  rewrite <- (app_nil_r (words _)).
  rewrite (be32_words _ 0 (IsoPacketDescriptor.offset p)) by done.
  rewrite (be32_words _ 1 (IsoPacketDescriptor.length p)) by done.
  rewrite (be32_words _ 2 (IsoPacketDescriptor.actual_length p)) by done.
  rewrite (be32_words_wrap _ 3 (IsoPacketDescriptor.status p)) by done.
  cbn [mbind outcome_bind]. by rewrite swrap_wrap.
Qed.

Lemma collect_iso_words l :
  Forall Iso.wf l →
  collect iso_of_chunk (as_chunks 16 (concat (iso_words <$> l))) = Done (Iso.to_server <$> l).
Proof.
  intros Hl. rewrite as_chunks_concat by (lia || apply iso_words_uniform).
  induction Hl as [|p l Hp _ IH]; [done|]. cbn [fmap list_fmap collect].
  rewrite iso_of_chunk_words by done. cbn [mbind outcome_bind].
  change (list_fmap _ _ iso_words l) with (iso_words <$> l). by rewrite IH.
Qed.

(** A CMD_SUBMIT as the session builds it (see [Session.submit]): fields of their widths, an endpoint
    number and direction, setup bytes only on endpoint 0, data for OUT transfers only. *)
Record submit_wf (c : CmdSubmit.t) : Prop := {
  wf_seqnum : is_u 32 (CmdSubmit.seqnum c);
  wf_devid : is_u 32 (CmdSubmit.devid c);
  wf_direction : 0 ≤ CmdSubmit.direction c ≤ 1;
  wf_ep : 0 ≤ CmdSubmit.ep c ≤ 15;
  wf_flags : is_u 32 (CmdSubmit.transfer_flags c);
  wf_length : 0 ≤ CmdSubmit.transfer_buffer_length c ≤ 16 * 1024 * 1024;
  wf_start_frame : is_u 32 (CmdSubmit.start_frame c);
  wf_interval : is_u 32 (CmdSubmit.interval c);
  wf_setup_len : length (CmdSubmit.setup c) = 8%nat;
  wf_setup : CmdSubmit.ep c ≠ 0 → CmdSubmit.setup c = replicate 8 0;
  wf_data : Z.of_nat (length (CmdSubmit.data c)) =
            if CmdSubmit.direction c =? 0 then CmdSubmit.transfer_buffer_length c else 0;
  wf_iso_len : Z.of_nat (length (CmdSubmit.iso_packets c)) ≤ 1024;
  wf_iso : Forall Iso.wf (CmdSubmit.iso_packets c);
}.

(** The URB a CMD_SUBMIT stands for. *)
Definition urb_of (c : CmdSubmit.t) : Urb.t :=
  Urb.mk (CmdSubmit.seqnum c) (CmdSubmit.devid c) (CmdSubmit.direction c) (CmdSubmit.ep c)
    (CmdSubmit.transfer_flags c) (CmdSubmit.transfer_buffer_length c) (CmdSubmit.start_frame c)
    (Z.of_nat (length (CmdSubmit.iso_packets c))) (CmdSubmit.interval c) (CmdSubmit.setup c)
    (CmdSubmit.data c) (Iso.to_server <$> CmdSubmit.iso_packets c).

Lemma not_pending seqnum pending : seqnum ∉ pending → existsb (Z.eqb seqnum) pending = false.
Proof.
  induction pending as [|p l IH]; [done|]. rewrite not_elem_of_cons. intros [? ?]. simpl.
  rewrite (proj2 (Z.eqb_neq _ _)) by done. auto.
Qed.

Section RoundTrip.
Context {B : BytesCrate} {BL : BytesLaws B}.
Context {R : Type} {AR : AsyncRead R} {AL : AsyncReadLaws R}.

(** The header of a CMD_SUBMIT: ten words and the setup packet. *)
Definition submit_words (c : CmdSubmit.t) : list Z :=
  [USBIP_CMD_SUBMIT; CmdSubmit.seqnum c; CmdSubmit.devid c; CmdSubmit.direction c; CmdSubmit.ep c;
   CmdSubmit.transfer_flags c; CmdSubmit.transfer_buffer_length c; CmdSubmit.start_frame c;
   Z.of_nat (length (CmdSubmit.iso_packets c)); CmdSubmit.interval c].

(** The data stage of a URB, whichever its direction. *)
Lemma read_data_stage c rest r :
  submit_wf c → incoming r = CmdSubmit.data c ++ rest →
  ∃ r', (if negb (CmdSubmit.direction c =? 1)
         then read_exact (Z.to_nat (CmdSubmit.transfer_buffer_length c)) r else (Ok [], r))
        = (Ok (CmdSubmit.data c), r') ∧ incoming r' = rest.
Proof.
  intros W Hin. pose proof (wf_data c W) as Hd. pose proof (wf_direction c W).
  destruct (CmdSubmit.direction c =? 1) eqn:E; bool_props; simpl.
  - rewrite E in Hd. simpl in Hd. destruct (CmdSubmit.data c); [|simpl in Hd; lia]. eauto.
  - rewrite (proj2 (Z.eqb_eq (CmdSubmit.direction c) 0)) in Hd by lia.
    rewrite <- Hd, Nat2Z.id. by apply read_exact_app.
Qed.

(** The 48 bytes the server reads first of a command, and the rest of a CMD_SUBMIT. *)
Definition submit_header (c : CmdSubmit.t) : list Z := words (submit_words c) ++ CmdSubmit.setup c.
Definition submit_body (c : CmdSubmit.t) : list Z :=
  CmdSubmit.data c ++ concat (iso_words <$> CmdSubmit.iso_packets c).

Lemma submit_split c : submit_wf c → CmdSubmit.encode c [] = submit_header c ++ submit_body c.
Proof.
  intros W. pose proof (wf_iso_len c W). rewrite cmd_submit_layout, wrap_id by (split; lia).
  unfold submit_header, submit_body, submit_words. by rewrite app_nil_l, <- !app_assoc.
Qed.

Lemma length_submit_header c : submit_wf c → length (submit_header c) = 48%nat.
Proof. intros []. unfold submit_header. rewrite length_app, length_words. simpl. lia. Qed.

(** What is left of reading a CMD_SUBMIT when its header is in order. *)
Lemma read_submit_eq c vs r :
  submit_wf c →
  read_submit (submit_header c) (CmdSubmit.seqnum c) (CmdSubmit.devid c) vs r =
  (let '(got, r) := if negb (CmdSubmit.direction c =? 1)
                    then read_exact (Z.to_nat (CmdSubmit.transfer_buffer_length c)) r
                    else (Ok [], r) in
   match got with
   | Err _ => Done (None, vs, r)
   | Ok data =>
     let '(got, r) := read_exact (length (CmdSubmit.iso_packets c) * 16) r in
     match got with
     | Err _ => Done (None, vs, r)
     | Ok raw =>
       (λ iso, (Some (Urb.set_iso (Urb.set_data (urb_of c) data) iso), vs, r))
         <$> collect iso_of_chunk (as_chunks 16 raw)
     end
   end).
Proof.
  intros []. unfold read_submit, submit_header.
  rewrite (be32_words _ 3 (CmdSubmit.direction c)) by (done || split; lia).
  rewrite (be32_words _ 4 (CmdSubmit.ep c)) by (done || split; lia).
  rewrite (be32_words _ 5 (CmdSubmit.transfer_flags c)) by done.
  rewrite (be32_words _ 6 (CmdSubmit.transfer_buffer_length c)) by (done || split; lia).
  rewrite (be32_words _ 7 (CmdSubmit.start_frame c)) by done.
  rewrite (be32_words _ 8 (Z.of_nat (length (CmdSubmit.iso_packets c)))) by (done || split; lia).
  rewrite (be32_words _ 9 (CmdSubmit.interval c)) by done.
  rewrite (slice_app_r (words _) (CmdSubmit.setup c)) by (rewrite ?length_words; simpl; lia).
  cbn [mbind outcome_bind]. unfold Urb.is_in. cbn [Urb.direction].
  rewrite (proj2 (Z.ltb_ge 1 _)), (proj2 (Z.ltb_ge 15 _)) by lia. cbn [orb].
  rewrite (proj2 (Z.ltb_ge _ (CmdSubmit.transfer_buffer_length c))) by lia.
  assert (negb (CmdSubmit.ep c =? 0) &&
    negb (bool_decide (CmdSubmit.setup c = replicate 8 0)) = false) as ->.
  { destruct (CmdSubmit.ep c =? 0) eqn:Hep; [done|]. bool_props.
    by rewrite bool_decide_eq_true_2 by auto. }
  destruct (if negb _ then _ else _) as [[data|e] r1]; [|done].
  rewrite (proj2 (Z.eqb_neq _ 0xffffffff)) by lia.
  rewrite (proj2 (Z.ltb_ge 1024 _)) by lia. rewrite Nat2Z.id.
  destruct (read_exact _ r1) as [[raw|e] r2]; [|done].
  by destruct (collect _ _).
Qed.

Lemma length_iso_part c :
  length (concat (iso_words <$> CmdSubmit.iso_packets c)) = (length (CmdSubmit.iso_packets c) * 16)%nat.
Proof. rewrite (length_concat_uniform 16), length_fmap; [lia|apply iso_words_uniform]. Qed.

Lemma read_submit_words c rest r vs :
  submit_wf c → incoming r = submit_body c ++ rest →
  ∃ r', read_submit (submit_header c) (CmdSubmit.seqnum c) (CmdSubmit.devid c) vs r
          = Done (Some (urb_of c), vs, r') ∧ incoming r' = rest.
Proof.
  intros W Hin. unfold submit_body in Hin. rewrite <- app_assoc in Hin.
  destruct (read_data_stage c _ r W Hin) as (r1 & E1 & Hin1).
  destruct (read_exact_app _ _ r1 Hin1) as (r2 & E2 & Hin2). rewrite length_iso_part in E2.
  exists r2. split; [|done]. rewrite read_submit_eq, E1, E2 by done.
  rewrite collect_iso_words by apply W. done.
Qed.

(** The stream ends within the body: the loop ends without complaint. *)
Lemma read_submit_short c missing r vs :
  submit_wf c → incoming r ++ missing = submit_body c → missing ≠ [] →
  ∃ r', read_submit (submit_header c) (CmdSubmit.seqnum c) (CmdSubmit.devid c) vs r
          = Done (None, vs, r').
Proof.
  intros W Hin Hm. rewrite read_submit_eq by done. unfold submit_body in Hin.
  destruct (decide (length (CmdSubmit.data c) ≤ length (incoming r))%nat) as [Hl|Hl].
  - assert (∃ part, incoming r = CmdSubmit.data c ++ part) as [part Hp].
    { exists (drop (length (CmdSubmit.data c)) (incoming r)).
      rewrite <- (take_drop (length (CmdSubmit.data c)) (incoming r)) at 1. f_equal.
      apply (f_equal (take (length (CmdSubmit.data c)))) in Hin.
      by rewrite take_app_le, take_app_length in Hin. }
    destruct (read_data_stage c _ r W Hp) as (r1 & -> & Hin1).
    destruct (read_exact_short (length (CmdSubmit.iso_packets c) * 16) r1) as (e & r2 & ->); [|eauto].
    rewrite Hp, <- app_assoc in Hin. apply app_inv_head in Hin. rewrite Hin1, <- length_iso_part, <- Hin.
    rewrite length_app. destruct missing; [done|]. simpl. lia.
  - pose proof (wf_data c W) as Hd. pose proof (wf_direction c W).
    destruct (CmdSubmit.direction c =? 1) eqn:E; bool_props.
    { rewrite E in Hd. simpl in Hd. lia. }
    rewrite (proj2 (Z.eqb_eq (CmdSubmit.direction c) 0)) in Hd by lia.
    destruct (read_exact_short (Z.to_nat (CmdSubmit.transfer_buffer_length c)) r) as (e & r1 & E1);
      [lia|]. simpl. rewrite E1. eauto.
Qed.

Lemma check_submit_header c pending :
  submit_wf c → CmdSubmit.seqnum c ∉ pending →
  check_header (CmdSubmit.devid c) pending (submit_header c)
    = Done (1, CmdSubmit.seqnum c, CmdSubmit.devid c, []).
Proof.
  intros [] Hp. unfold check_header, submit_header.
  rewrite (be32_words _ 0 USBIP_CMD_SUBMIT) by done.
  rewrite (be32_words _ 1 (CmdSubmit.seqnum c)) by done.
  rewrite (be32_words _ 2 (CmdSubmit.devid c)) by done.
  cbn [mbind outcome_bind mret outcome_ret]. rewrite (Z.eqb_refl (CmdSubmit.devid c)). cbn [negb].
  by rewrite not_pending.
Qed.

Definition unlink_words (c : CmdUnlink.t) : list Z :=
  [USBIP_CMD_UNLINK; CmdUnlink.seqnum c; CmdUnlink.devid c; 0; 0; CmdUnlink.unlink_seqnum c].

Lemma unlink_bytes c : CmdUnlink.encode c [] = words (unlink_words c) ++ replicate 24 0.
Proof. by rewrite cmd_unlink_layout, app_nil_l. Qed.

Lemma check_unlink_header c pending :
  is_u 32 (CmdUnlink.seqnum c) → is_u 32 (CmdUnlink.devid c) → is_u 32 (CmdUnlink.unlink_seqnum c) →
  CmdUnlink.seqnum c ∉ pending →
  check_header (CmdUnlink.devid c) pending (CmdUnlink.encode c [])
    = Done (2, CmdUnlink.seqnum c, CmdUnlink.devid c, []) ∧
  read_unlink (CmdUnlink.encode c []) (CmdUnlink.seqnum c) [] = Done (CmdUnlink.unlink_seqnum c, []).
Proof.
  intros Hs Hd Hu Hp. rewrite unlink_bytes. unfold check_header, read_unlink.
  rewrite (be32_words _ 0 USBIP_CMD_UNLINK) by done.
  rewrite (be32_words _ 1 (CmdUnlink.seqnum c)) by done.
  rewrite (be32_words _ 2 (CmdUnlink.devid c)) by done.
  rewrite (be32_words _ 5 (CmdUnlink.unlink_seqnum c)) by done.
  rewrite (slice_app_r (words _) (replicate 24 0)) by (rewrite ?length_words, ?length_replicate; done).
  cbn [mbind outcome_bind mret outcome_ret]. rewrite (Z.eqb_refl (CmdUnlink.devid c)). cbn [negb].
  by rewrite not_pending.
Qed.

Lemma cmd_submit_decodes c pending rest r :
  submit_wf c → CmdSubmit.seqnum c ∉ pending →
  incoming r = CmdSubmit.encode c [] ++ rest →
  ∃ r', read_command (CmdSubmit.devid c) pending r = Done (Some (Submit (urb_of c)), [], r')
        ∧ incoming r' = rest.
Proof.
  intros W Hp Hin. rewrite submit_split, <- app_assoc in Hin by done.
  destruct (read_exact_app _ _ r Hin) as (r1 & E1 & Hin1). rewrite length_submit_header in E1 by done.
  destruct (read_submit_words c rest r1 [] W Hin1) as (r2 & E2 & Hin2).
  exists r2. split; [|done]. unfold read_command. rewrite E1, check_submit_header by done.
  cbn [mbind outcome_bind Z.eqb Pos.eqb]. by rewrite E2.
Qed.

(** C25: Every CMD_SUBMIT the client encodes is decoded by the server to the URB it stands for: all
    header fields, the setup packet, the OUT data and the isochronous descriptors arrive unchanged,
    no protocol violation is noted, and the stream is left exactly behind the command. *)
Theorem cmd_submit_roundtrip c pending rest r :
  submit_wf c → CmdSubmit.seqnum c ∉ pending →
  incoming r = CmdSubmit.encode c [] ++ rest →
  ∃ r', read_command (CmdSubmit.devid c) pending r = Done (Some (Submit (urb_of c)), [], r')
        ∧ incoming r' = rest.
Proof. apply cmd_submit_decodes. Qed.

Lemma cmd_unlink_decodes c pending rest r :
  is_u 32 (CmdUnlink.seqnum c) → is_u 32 (CmdUnlink.devid c) → is_u 32 (CmdUnlink.unlink_seqnum c) →
  CmdUnlink.seqnum c ∉ pending →
  incoming r = CmdUnlink.encode c [] ++ rest →
  ∃ r', read_command (CmdUnlink.devid c) pending r
          = Done (Some (Unlink (CmdUnlink.seqnum c) (CmdUnlink.unlink_seqnum c)), [], r')
        ∧ incoming r' = rest.
Proof.
  intros Hs Hd Hu Hp Hin. destruct (read_exact_app _ _ r Hin) as (r1 & E1 & Hin1).
  rewrite length_cmd_unlink in E1. exists r1. split; [|done]. unfold read_command.
  change (length [] + URB_HEADER_SIZE)%nat with 48%nat in E1. rewrite E1.
  destruct (check_unlink_header c pending Hs Hd Hu Hp) as [-> H].
  cbn [mbind outcome_bind Z.eqb Pos.eqb]. by rewrite H.
Qed.

(** Every CMD_UNLINK the client encodes is decoded by the server to its seqnum and target, with
    zero padding, and the stream is left exactly behind it. *)
Theorem cmd_unlink_roundtrip c pending rest r :
  is_u 32 (CmdUnlink.seqnum c) → is_u 32 (CmdUnlink.devid c) → is_u 32 (CmdUnlink.unlink_seqnum c) →
  CmdUnlink.seqnum c ∉ pending →
  incoming r = CmdUnlink.encode c [] ++ rest →
  ∃ r', read_command (CmdUnlink.devid c) pending r
          = Done (Some (Unlink (CmdUnlink.seqnum c) (CmdUnlink.unlink_seqnum c)), [], r')
        ∧ incoming r' = rest.
Proof. apply cmd_unlink_decodes. Qed.

End RoundTrip.

(** ** What the server encodes, the client decodes *)

Lemma iso_bytes_words d : iso_bytes d = iso_words (Iso.to_client d).
Proof.
  unfold iso_bytes, iso_words, words, Iso.to_client, wrap. cbn [fmap list_fmap concat
    IsoPacketDescriptor.offset IsoPacketDescriptor.length IsoPacketDescriptor.actual_length
    IsoPacketDescriptor.status].
  do 3 f_equal. by rewrite (be_bytes_mod 4).
Qed.

Lemma iso_decode_wf `{BL : BytesLaws} l :
  Forall Iso.wf l → Forall (λ p, IsoPacketDescriptor.decode (iso_words p) = Done p) l.
Proof.
  intros H. eapply Forall_impl; [exact H|]. intros p (? & ? & ? & ?). by apply iso_decode_words.
Qed.

(** The length a RET_SUBMIT reports. *)
Definition actual_of (urb : Urb.t) (c : Completion.t) : Z :=
  if Urb.is_in urb then Z.of_nat (length (Completion.data c))
  else default (Urb.length urb) (Completion.actual_length c).

(** The isochronous descriptors a RET_SUBMIT carries. *)
Definition iso_of (urb : Urb.t) (c : Completion.t) : list IsoPacketDescriptor.t :=
  Iso.to_client <$> match Completion.iso c with [] => Urb.iso urb | _ :: _ => Completion.iso c end.

(** A completion of [urb] the server may send: no longer than asked for. *)
Record completion_wf (urb : Urb.t) (c : Completion.t) : Prop := {
  cwf_seqnum : is_u 32 (Urb.seqnum urb);
  cwf_length : is_u 32 (Urb.length urb);
  cwf_status : is_i 32 (Completion.status c);
  cwf_actual : 0 ≤ actual_of urb c ≤ Urb.length urb;
  cwf_start_frame : is_u 32 (Completion.start_frame c);
  cwf_iso_len : Z.of_nat (length (iso_of urb c)) ≤ 1024;
  cwf_iso : Forall Iso.wf (iso_of urb c);
}.

Definition ret_words (urb : Urb.t) (c : Completion.t) : list Z :=
  [3; Urb.seqnum urb; 0; 0; 0; wrap 32 (Completion.status c); actual_of urb c;
   Completion.start_frame c; Z.of_nat (length (iso_of urb c)); 0].

Lemma ret_submit_layout urb c : completion_wf urb c →
  ret_submit urb c = (words (ret_words urb c) ++ replicate 8 0)
    ++ (if Urb.is_in urb then Completion.data c else []) ++ concat (iso_words <$> iso_of urb c).
Proof.
  intros []. unfold ret_submit.
  assert ((if Urb.is_in urb then wrap 32 (Z.of_nat (length (Completion.data c)))
           else default (Urb.length urb) (Completion.actual_length c)) = actual_of urb c) as ->.
  { unfold actual_of, is_u in *. destruct (Urb.is_in urb); [|done]. apply wrap_id. split; lia. }
  assert (match Completion.iso c, Urb.iso urb with
          | [], _ :: _ => length (Urb.iso urb)
          | _, _ => length (Completion.iso c)
          end = length (iso_of urb c)) as ->.
  { unfold iso_of. rewrite length_fmap. by destruct (Completion.iso c), (Urb.iso urb). }
  rewrite (wrap_id 32 (Z.of_nat _)) by (split; lia).
  fold (words (ret_words urb c)). change (concat (be_bytes 4 <$> _)) with (words (ret_words urb c)).
  rewrite take_ge by (rewrite length_words; simpl; lia). rewrite length_words.
  change (48 - 4 * length (ret_words urb c))%nat with 8%nat.
  assert (concat (iso_bytes <$> match Completion.iso c with
                                | [] => Urb.iso urb | _ :: _ => Completion.iso c end)
          = concat (iso_words <$> iso_of urb c)) as ->.
  { unfold iso_of. rewrite <- list_fmap_compose. f_equal. apply list_fmap_ext.
    intros. apply iso_bytes_words. }
  destruct (Urb.is_in urb); by rewrite <- ?app_assoc.
Qed.

Section Replies.
Context {B : BytesCrate} {BL : BytesLaws B}.
Context {R : Type} {AR : AsyncRead R} {AL : AsyncReadLaws R}.

(** The two parts of a RET_SUBMIT, and what the client makes of them. *)
Definition ret_header (urb : Urb.t) (c : Completion.t) : list Z :=
  words (ret_words urb c) ++ replicate 8 0.
Definition ret_body (urb : Urb.t) (c : Completion.t) : list Z :=
  (if Urb.is_in urb then Completion.data c else []) ++ concat (iso_words <$> iso_of urb c).

Definition reply_header (urb : Urb.t) (c : Completion.t) : Reply.t :=
  Reply.Submit (Urb.seqnum urb) (Completion.status c) (actual_of urb c)
    (Completion.start_frame c) (Z.of_nat (length (iso_of urb c))) 0.

Definition reply_of (urb : Urb.t) (c : Completion.t) : RetSubmit.t :=
  RetSubmit.mk (Urb.seqnum urb) (Completion.status c) (actual_of urb c)
    (Completion.start_frame c) 0 (if Urb.is_in urb then Completion.data c else []) (iso_of urb c).

Lemma ret_submit_split urb c : completion_wf urb c →
  ret_submit urb c = ret_header urb c ++ ret_body urb c.
Proof. intros W. rewrite ret_submit_layout by done. unfold ret_header, ret_body. by rewrite <- !app_assoc. Qed.

Lemma length_ret_header urb c : length (ret_header urb c) = 48%nat.
Proof. unfold ret_header. by rewrite length_app, length_words, length_replicate. Qed.

Lemma read_ret_header urb c rest r :
  completion_wf urb c → incoming r = ret_header urb c ++ rest →
  ∃ r', read_reply_header r = Done (Ok (reply_header urb c), r') ∧ incoming r' = rest.
Proof.
  intros [] Hin. unfold is_u in *.
  assert (field 4 32 (words (ret_words urb c) ++ replicate 8 0) = Z.of_nat (length (iso_of urb c)))
    as Hpk by (apply (words_field_u _ 8); [done|split; lia]).
  destruct (read_reply_header_words (ret_words urb c) (replicate 8 0) _ r eq_refl eq_refl Hin)
    as (r1 & E1 & Hin1); [done|rewrite Hpk; done|].
  exists r1. rewrite E1. split; [|done]. unfold header_of.
  rewrite Hpk, (proj2 (Z.eqb_neq _ 0xffffffff)) by lia.
  rewrite (words_field_u _ 1 (Urb.seqnum urb)) by done.
  rewrite (words_field _ 5 (wrap 32 (Completion.status c))) by done.
  rewrite (words_field_u _ 6 (actual_of urb c)) by (done || split; lia).
  rewrite (words_field_u _ 7 (Completion.start_frame c)) by done.
  rewrite (words_field_u _ 9 0) by done.
  change (wrap 32 (Completion.status c) mod 2 ^ 32) with (wrap 32 (wrap 32 (Completion.status c))).
  rewrite (wrap_id 32 (wrap 32 _)) by (apply wrap_is_u; lia). by rewrite swrap_wrap.
Qed.

Lemma read_ret_body urb c rest r :
  completion_wf urb c → incoming r = ret_body urb c ++ rest →
  ∃ r', read_submit_payload (reply_header urb c) (Urb.is_in urb) (Urb.length urb) r
          = Done (Ok (reply_of urb c), r') ∧ incoming r' = rest.
Proof.
  intros [] Hin. unfold ret_body in Hin. rewrite <- app_assoc in Hin.
  apply read_submit_payload_words; [done| |by apply iso_decode_wf|done].
  unfold actual_of. by destruct (Urb.is_in urb).
Qed.

(** C26: Every RET_SUBMIT the server sends for a URB is decoded by the client, reading the header and then
    the payload with the direction and length of the request, to the server's result: seqnum,
    status, length, frame, the IN data and the isochronous descriptors; the stream is left exactly
    behind the reply. *)
Theorem ret_submit_roundtrip urb c rest r :
  completion_wf urb c → incoming r = ret_submit urb c ++ rest →
  ∃ h r1 r2, read_reply_header r = Done (Ok h, r1) ∧
    read_submit_payload h (Urb.is_in urb) (Urb.length urb) r1 =
      Done (Ok (RetSubmit.mk (Urb.seqnum urb) (Completion.status c) (actual_of urb c)
                  (Completion.start_frame c) 0
                  (if Urb.is_in urb then Completion.data c else []) (iso_of urb c)), r2) ∧
    incoming r2 = rest.
Proof.
  intros W Hin. rewrite ret_submit_split, <- app_assoc in Hin by done.
  destruct (read_ret_header urb c _ r W Hin) as (r1 & E1 & Hin1).
  destruct (read_ret_body urb c rest r1 W Hin1) as (r2 & E2 & Hin2). eauto 10.
Qed.

(** The server's RET_UNLINK is decoded by the client to its seqnum and status ([-ECONNRESET] when the
    URB was found, 0 when it had already completed). *)
Theorem ret_unlink_roundtrip seqnum found rest r :
  is_u 32 seqnum → incoming r = unlink_reply seqnum found ++ rest →
  ∃ r', read_reply_header r =
          Done (Ok (Reply.Unlink (RetUnlink.mk seqnum (if found then -104 else 0))), r')
        ∧ incoming r' = rest.
Proof.
  intros Hs Hin. set (st := wrap 32 (if found then -104 else 0)).
  assert (unlink_reply seqnum found = words [4; seqnum; 0; 0; 0; st] ++ replicate 24 0) as El.
  { unfold unlink_reply. change (concat (be_bytes 4 <$> _)) with (words [4; seqnum; 0; 0; 0; st]).
    rewrite take_ge by (rewrite length_words; simpl; lia). by rewrite length_words. }
  rewrite El in Hin.
  enough (rd_post read_reply_header r (λ x r',
    x = Ok (Reply.Unlink (RetUnlink.mk seqnum (if found then -104 else 0))) ∧ incoming r' = rest))
    as (x & r' & E & -> & ?) by eauto.
  remember (words [4; seqnum; 0; 0; 0; st] ++ replicate 24 0) as buf eqn:Hbuf.
  assert (length buf = 48%nat) as Hlen
    by (subst buf; rewrite length_app, length_words, length_replicate; done).
  apply rd_post_bind. eapply rd_post_read_exact_app; [done|exact Hin|]. intros r1 Hin1.
  change buf with (drop 0 buf) at 1. do 3 rd_field.
  rewrite Hbuf, (words_field_u _ 0 4), (words_field_u _ 1 seqnum) by done. cbn [Z.eqb Pos.eqb].
  rewrite <- Hbuf. rd_field. rewrite Hbuf, (words_field _ 5 st) by done.
  apply rd_post_ret. split; [|done]. do 3 f_equal. subst st. by destruct found.
Qed.

End Replies.

(** ** Device lists and imports *)

(** [for e in exports.iter() { e.encode(&mut out, true) }] *)
Fixpoint encode_exports (exports : list ExportDev.t) (out : list Z) : outcome (list Z) :=
  match exports with
  | [] => Done out
  | e :: exports => out ← ExportDev.encode e out true; encode_exports exports out
  end.

(** The server's answer to OP_REQ_DEVLIST. *)
Definition devlist_reply (exports : list ExportDev.t) : outcome (list Z) :=
  encode_exports exports
    ([0x01; 0x11; 0x00; 0x05; 0; 0; 0; 0] ++ be_bytes 4 (wrap 32 (Z.of_nat (length exports)))).

(** The server's answer to OP_REQ_IMPORT: the export when it is available, else status 1. *)
Definition import_reply (export : option ExportDev.t) : outcome (list Z) :=
  let out := [0x01; 0x11; 0x00; 0x03] in
  match export with
  | Some export => ExportDev.encode export (out ++ be_bytes 4 0) false
  | None => Done (out ++ be_bytes 4 1)
  end.

(** An export whose fields have their widths and whose strings are strings that fit. *)
Record export_wf (e : ExportDev.t) : Prop := {
  ewf_path : Utf8.valid (ExportDev.path e) ∧ 0 ∉ ExportDev.path e ∧
             (length (ExportDev.path e) ≤ 256)%nat;
  ewf_busid : Utf8.valid (ExportDev.busid e) ∧ 0 ∉ ExportDev.busid e ∧
              (length (ExportDev.busid e) ≤ 32)%nat;
  ewf_busnum : is_u 32 (ExportDev.busnum e);
  ewf_devnum : is_u 32 (ExportDev.devnum e);
  ewf_speed : is_u 32 (ExportDev.speed e);
  ewf_vendor : is_u 16 (ExportDev.id_vendor e);
  ewf_product : is_u 16 (ExportDev.id_product e);
  ewf_bcd : is_u 16 (ExportDev.bcd_device e);
  ewf_class : length (ExportDev.class e) = 3%nat;
  ewf_num_interfaces : (length (ExportDev.interfaces e) < 256)%nat;
  ewf_interfaces : Forall (λ i, length i = 3%nat) (ExportDev.interfaces e);
}.

(** The device an export stands for on the client. *)
Definition device_of_export (e : ExportDev.t) (with_interfaces : bool) : ExportedDevice.t :=
  ExportedDevice.mk (ExportDev.path e) (ExportDev.busid e) (ExportDev.busnum e)
    (ExportDev.devnum e) (Speed.from_u32 (ExportDev.speed e)) (ExportDev.id_vendor e)
    (ExportDev.id_product e) (ExportDev.bcd_device e) (at_ (ExportDev.class e) 0)
    (at_ (ExportDev.class e) 1) (at_ (ExportDev.class e) 2) (ExportDev.configuration_value e)
    (ExportDev.num_configurations e) (Z.of_nat (length (ExportDev.interfaces e)))
    (if with_interfaces then interface_of <$> ExportDev.interfaces e else []).

(** The 312 bytes of a device record. *)
Definition device_bytes (e : ExportDev.t) : list Z :=
  (ExportDev.path e ++ replicate (256 - length (ExportDev.path e)) 0)
  ++ (ExportDev.busid e ++ replicate (32 - length (ExportDev.busid e)) 0)
  ++ be_bytes 4 (ExportDev.busnum e) ++ be_bytes 4 (ExportDev.devnum e)
  ++ be_bytes 4 (ExportDev.speed e) ++ be_bytes 2 (ExportDev.id_vendor e)
  ++ be_bytes 2 (ExportDev.id_product e) ++ be_bytes 2 (ExportDev.bcd_device e)
  ++ ExportDev.class e ++ [ExportDev.configuration_value e; ExportDev.num_configurations e;
       Z.of_nat (length (ExportDev.interfaces e))].

Definition interface_bytes (e : ExportDev.t) : list Z :=
  concat ((λ i, i ++ [0]) <$> ExportDev.interfaces e).

Lemma copy_at_zeros n (s : list Z) : (length s ≤ n)%nat →
  copy_at (replicate n 0) 0 s = Done (s ++ replicate (n - length s) 0).
Proof.
  intros. unfold copy_at. rewrite length_replicate, decide_True by lia.
  by rewrite splice_front by lia.
Qed.

Lemma export_encode e out b : export_wf e →
  ExportDev.encode e out b = Done (out ++ device_bytes e ++ if b then interface_bytes e else []).
Proof.
  intros []. unfold ExportDev.encode.
  rewrite copy_at_zeros by naive_solver. cbn [mbind outcome_bind].
  rewrite copy_at_zeros by naive_solver. cbn [mbind outcome_bind mret outcome_ret].
  rewrite wrap_id by (split; lia). unfold device_bytes, interface_bytes. f_equal.
  destruct b; rewrite ?app_nil_r, <- !app_assoc; done.
Qed.

Lemma length_device_bytes e : export_wf e → length (device_bytes e) = DEVICE_SIZE.
Proof.
  intros [(_ & _ & ?) (_ & _ & ?) ? ? ? ? ? ? Hc ? ?]. unfold device_bytes.
  rewrite !length_app, !length_replicate, !length_be_bytes, Hc. simpl. unfold DEVICE_SIZE. lia.
Qed.

Lemma device_of_bytes e : export_wf e → device_of (device_bytes e) = device_of_export e false.
Proof.
  intros [(Hv1 & Hz1 & H1) (Hv2 & Hz2 & H2) ? ? ? ? ? ? Hc ? _].
  unfold device_of, device_of_export.
  set (p := ExportDev.path e ++ replicate (256 - length (ExportDev.path e)) 0).
  set (q := ExportDev.busid e ++ replicate (32 - length (ExportDev.busid e)) 0).
  assert (length p = 256%nat) as Hp by (subst p; rewrite length_app, length_replicate; lia).
  assert (length q = 32%nat) as Hq by (subst q; rewrite length_app, length_replicate; lia).
  destruct (ExportDev.class e) as [|c0 [|c1 [|c2 []]]] eqn:Ec; try done.
  unfold device_bytes. fold p q. rewrite Ec. cbn [app].
  rewrite take_app_length', drop_app_length', take_app_length' by done.
  subst p q. rewrite !c_string_padded by done.
  f_equal; repeat (rewrite field_skip by (rewrite ?Hp, ?Hq, ?length_be_bytes; lia);
    rewrite ?Hp, ?Hq, ?length_be_bytes; cbn [Nat.sub]); rewrite ?field_here;
    try (by apply Z.mod_small); try (f_equal; by apply Z.mod_small);
    unfold field, be_to_Z; cbn; lia.
Qed.

Lemma encode_exports_layout exports out : Forall export_wf exports →
  encode_exports exports out =
    Done (out ++ concat ((λ e, device_bytes e ++ interface_bytes e) <$> exports)).
Proof.
  intros H. revert out. induction H as [|e es He _ IH]; intros out; simpl.
  { by rewrite app_nil_r. }
  rewrite export_encode by done. cbn [mbind outcome_bind]. rewrite IH. by rewrite <- app_assoc.
Qed.

Lemma interface_chunks e : export_wf e →
  (length (interface_bytes e) = length (ExportDev.interfaces e) * 4)%nat ∧
  collect interface_of_chunk (as_chunks 4 (interface_bytes e))
    = Done (interface_of <$> ExportDev.interfaces e).
Proof.
  intros [? ? ? ? ? ? ? ? ? ? Hi]. unfold interface_bytes.
  assert (Forall (λ c, length c = 4%nat) ((λ i, i ++ [0]) <$> ExportDev.interfaces e)) as Hu.
  { apply Forall_fmap. eapply Forall_impl; [exact Hi|]. intros i Hl. cbn.
    by rewrite length_app, Hl. }
  split; [by rewrite (length_concat_uniform 4), length_fmap|].
  rewrite as_chunks_concat by (done || lia). rewrite (collect_spec _ interface_of).
  - f_equal. rewrite <- list_fmap_compose. apply list_fmap_ext. intros k i Hk.
    pose proof (Forall_lookup_1 _ _ _ _ Hi Hk) as Hl. simpl in Hl.
    by destruct i as [|? [|? [|? []]]].
  - eapply Forall_impl; [exact Hu|]. intros. by apply interface_of_chunk_done.
Qed.

Section DeviceLists.
Context {B : BytesCrate} {BL : BytesLaws B}.
Context {R : Type} {AR : AsyncRead R} {AL : AsyncReadLaws R}.

Lemma read_device_bytes e rest r (Q : result ProtocolError ExportedDevice.t → R → Prop) :
  export_wf e → incoming r = device_bytes e ++ rest →
  (∀ r', incoming r' = rest → Q (Ok (device_of_export e false)) r') →
  rd_post read_device r Q.
Proof.
  intros W Hin HQ. apply rd_post_bind.
  eapply rd_post_read_exact_app; [by apply length_device_bytes|exact Hin|]. intros r1 Hin1.
  eapply rd_post_pure; [apply decode_device; by apply length_device_bytes|].
  rewrite device_of_bytes by done. auto.
Qed.

Lemma read_listed_device_bytes e rest r (Q : result ProtocolError ExportedDevice.t → R → Prop) :
  export_wf e → incoming r = device_bytes e ++ interface_bytes e ++ rest →
  (∀ r', incoming r' = rest → Q (Ok (device_of_export e true)) r') →
  rd_post read_listed_device r Q.
Proof.
  intros W Hin HQ. apply rd_post_bind. eapply read_device_bytes; [done|exact Hin|].
  intros r1 Hin1. destruct (interface_chunks e W) as [Hl Hc]. cbn [ExportedDevice.num_interfaces
    device_of_export]. rewrite Nat2Z.id.
  apply rd_post_bind. eapply rd_post_read_exact_app; [exact Hl|exact Hin1|]. intros r2 Hin2.
  eapply rd_post_pure_bind; [exact Hc|]. by apply rd_post_ret, HQ.
Qed.

Lemma read_op_header_bytes b0 b1 b2 b3 expected rest r
    (Q : result ProtocolError unit → R → Prop) :
  incoming r = (b0 :: b1 :: b2 :: b3 :: be_bytes 4 0) ++ rest → be_to_Z [b2; b3] = expected →
  (∀ r', incoming r' = rest → Q (Ok ()) r') →
  rd_post (read_op_header expected) r Q.
Proof.
  intros Hin He HQ. apply rd_post_bind. eapply rd_post_read_exact_app; [|exact Hin|]; [done|].
  intros r1 Hin1. set (buf := b0 :: b1 :: b2 :: b3 :: be_bytes 4 0).
  assert (length buf = 8%nat) as Hlen by done.
  change buf with (drop 0 buf) at 1. do 3 rd_field.
  assert (field 2 2 buf = expected) as -> by exact He.
  assert (field 4 4 buf = 0) as -> by done. rewrite Z.eqb_refl. cbn. by apply rd_post_ret, HQ.
Qed.

Lemma read_listed_devices_bytes es ds rest r
    (Q : result ProtocolError (list ExportedDevice.t) → R → Prop) :
  Forall export_wf es →
  incoming r = concat ((λ e, device_bytes e ++ interface_bytes e) <$> es) ++ rest →
  (∀ r', incoming r' = rest → Q (Ok (ds ++ ((λ e, device_of_export e true) <$> es))) r') →
  rd_post (read_listed_devices (length es) ds) r Q.
Proof.
  intros H. revert ds r. induction H as [|e es He _ IH]; intros ds r Hin HQ; simpl in Hin.
  { apply rd_post_ret. rewrite app_nil_r in HQ. auto. }
  rewrite <- !app_assoc in Hin. apply rd_post_bind.
  eapply read_listed_device_bytes; [done|exact Hin|]. intros r1 Hin1.
  apply IH; [done|]. intros r2 Hin2. rewrite <- app_assoc. by apply HQ.
Qed.

(** Every device list the server sends is decoded by the client to the exported devices, in order and
    with all their fields, strings and interfaces. *)
Lemma devlist_decodes exports rest r :
  Forall export_wf exports → Z.of_nat (length exports) ≤ MAX_EXPORTED_DEVICES →
  ∃ out, devlist_reply exports = Done out ∧
    (incoming r = out ++ rest →
     ∃ r', read_devlist_reply r = Done (Ok ((λ e, device_of_export e true) <$> exports), r')
           ∧ incoming r' = rest).
Proof.
  intros W Hn. unfold MAX_EXPORTED_DEVICES in Hn. eexists.
  split; [by apply encode_exports_layout|]. intros Hin.
  enough (rd_post read_devlist_reply r (λ x r',
    x = Ok ((λ e, device_of_export e true) <$> exports) ∧ incoming r' = rest))
    as (x & r' & E & -> & ?) by eauto.
  rewrite wrap_id, <- !app_assoc in Hin by (split; lia).
  apply rd_post_bind. eapply (read_op_header_bytes _ _ _ _ _ _ _ _ Hin); [done|].
  intros r1 Hin1. apply rd_post_bind.
  destruct (read_u32_app (Z.of_nat (length exports)) _ r1 ltac:(split; lia) Hin1)
    as (r2 & E2 & Hin2).
  unfold rd_post at 1, rd_io. rewrite E2. do 2 eexists. split; [done|]. cbn.
  rewrite (proj2 (Z.ltb_ge _ _)), Nat2Z.id by (unfold MAX_EXPORTED_DEVICES; lia).
  eapply read_listed_devices_bytes; [done|exact Hin2|]. auto.
Qed.

(** The server's answer to an import is decoded by the client to the exported device, or to the
    error status when the device is unknown or taken. *)
Lemma import_decodes export rest r :
  (∀ e, export = Some e → export_wf e) →
  ∃ out, import_reply export = Done out ∧
    (incoming r = out ++ rest →
     ∃ r', read_import_reply r =
             Done (match export with
                   | Some e => Ok (device_of_export e false)
                   | None => Err (Status 1)
                   end, r') ∧ incoming r' = rest).
Proof.
  intros W. destruct export as [e|]; simpl.
  - specialize (W e eq_refl). eexists. split; [by apply export_encode|]. intros Hin.
    rewrite app_nil_r in Hin.
    enough (rd_post read_import_reply r (λ x r',
      x = Ok (device_of_export e false) ∧ incoming r' = rest)) as (x & r' & E & -> & ?) by eauto.
    apply rd_post_bind. rewrite <- app_assoc in Hin.
    eapply (read_op_header_bytes _ _ _ _ _ _ _ _ Hin); [done|]. intros r1 Hin1.
    eapply read_device_bytes; eauto.
  - eexists. split; [done|]. intros Hin.
    enough (rd_post read_import_reply r (λ x r',
      x = Err (Status 1) ∧ incoming r' = rest)) as (x & r' & E & -> & ?) by eauto.
    apply rd_post_bind, rd_post_bind. eapply rd_post_read_exact_app; [|exact Hin|]; [done|].
    intros r1 Hin1. set (buf := 1 :: _). assert (length buf = 8%nat) as Hlen by done.
    change buf with (drop 0 buf) at 1. do 3 rd_field. by apply rd_post_err.
Qed.

End DeviceLists.

(** ** The round trips on concrete messages *)

Import Reference.

Module Samples.

Definition submit : CmdSubmit.t :=
  CmdSubmit.mk 7 0x10002 0 1 0 6 0 0 (replicate 8 0) [1; 2; 3; 4; 5; 6]
    [IsoPacketDescriptor.mk 0 4 0 0; IsoPacketDescriptor.mk 4 2 0 (-18)].

Definition unlink : CmdUnlink.t := CmdUnlink.mk 8 0x10002 7.

Definition in_urb : Urb.t := Urb.mk 7 0x10002 1 1 0 6 0 2 1 (replicate 8 0) []
  [IsoDesc.mk 0 4 0 0; IsoDesc.mk 4 2 0 0].

Definition completion : Completion.t := Completion.mk (-32) [9; 8; 7] None
  [IsoDesc.mk 0 4 2 0; IsoDesc.mk 4 2 1 (-18)] 55.

Definition export : ExportDev.t :=
  ExportDev.mk [0x2f; 0x73] [0x31; 0x2d; 0x32] 1 2 3 0x1209 1 0x100 [0; 0; 0] 1 1 [[255; 0; 0]; [3; 1; 1]].

Lemma submit_ok : submit_wf submit.
Proof.
  constructor; try (by apply (bool_decide_unpack _)); try (cbn; lia).
Qed.

Lemma export_ok : export_wf export.
Proof.
  constructor; try (by apply (bool_decide_unpack _)); try (cbn; lia).
  - split; [|by apply (bool_decide_unpack _)]. apply Utf8.ascii_valid. repeat constructor; lia.
  - split; [|by apply (bool_decide_unpack _)]. apply Utf8.ascii_valid. repeat constructor; lia.
Qed.

End Samples.

Lemma cmd_submit_roundtrip_witness :
  ∃ r', read_command (R := pipe) (CmdSubmit.devid Samples.submit) [3]
          (CmdSubmit.encode Samples.submit [] ++ [1; 2])
        = Done (Some (Submit (urb_of Samples.submit)), [], r')
        ∧ incoming r' = [1; 2].
Proof.
  apply (cmd_submit_roundtrip (B := bytes_crate) (R := pipe) Samples.submit [3] [1; 2]
    (CmdSubmit.encode Samples.submit [] ++ [1; 2])).
  - apply Samples.submit_ok.
  - by apply (bool_decide_unpack _).
  - vm_compute. reflexivity.
Defined.

Lemma cmd_unlink_roundtrip_witness :
  ∃ r', read_command (R := pipe) (CmdUnlink.devid Samples.unlink) [7]
          (CmdUnlink.encode Samples.unlink [])
        = Done (Some (Unlink (CmdUnlink.seqnum Samples.unlink)
            (CmdUnlink.unlink_seqnum Samples.unlink)), [], r') ∧ incoming r' = [].
Proof.
  apply (cmd_unlink_roundtrip (B := bytes_crate) (R := pipe) Samples.unlink [7] []
    (CmdUnlink.encode Samples.unlink []));
    by apply (bool_decide_unpack _).
Defined.

Lemma ret_unlink_roundtrip_witness :
  ∃ r', read_reply_header (R := pipe) (unlink_reply 8 true)
        = Done (Ok (Reply.Unlink (RetUnlink.mk 8 (-104))), r') ∧ incoming r' = [].
Proof.
  apply (ret_unlink_roundtrip (B := bytes_crate) (R := pipe) 8 true [] (unlink_reply 8 true)).
  - by apply (bool_decide_unpack _).
  - vm_compute. reflexivity.
Defined.

Lemma ret_submit_roundtrip_witness :
  ∃ h r1 r2, read_reply_header (R := pipe) (ret_submit Samples.in_urb Samples.completion)
      = Done (Ok h, r1) ∧
    read_submit_payload h true 6 r1 =
      Done (Ok (RetSubmit.mk 7 (-32) 3 55 0 [9; 8; 7]
        [IsoPacketDescriptor.mk 0 4 2 0; IsoPacketDescriptor.mk 4 2 1 (-18)]), r2) ∧
    incoming r2 = [].
Proof.
  apply (ret_submit_roundtrip (B := bytes_crate) (R := pipe) Samples.in_urb Samples.completion []
    (ret_submit Samples.in_urb Samples.completion)).
  - constructor; try (by apply (bool_decide_unpack _)); cbn; lia.
  - vm_compute. reflexivity.
Defined.
