(* ===== verification/Serving.v ===== *)
(** * Serving: the repository's server at work (src/tests/support/server.rs)

    One connection of the server as a state and the handlers that change it: the loop of [serve_urbs],
    the pending table, the queues of the endpoints with a worker each, and the writer.  The tasks
    interleave; a step of [step] is one locked region, one awaited read or one write.  [Door] is the
    request phase: which device is handed to which connection.

    A [Cancel] is the sending half of a oneshot channel; jobs are numbered, and the sender of job [n]
    exists as long as the pending table holds [n].  Devices are the trait [Device] of the file, its
    implementations are parameters: what the future of a submitted URB may come to. *)

From stdpp Require Import base tactics option list gmap fin_maps relations.
From S2P Require Import Prelude Wire Protocol ProtocolFacts Server.

(** ** Devices *)

Module Outcome.

Inductive t : Type :=
| Complete (c : Completion.t)
| Raw (bytes : list Z)
| Disconnect.

End Outcome.

(** [Completion::ok] and [Completion::written] *)
Definition completion_ok (data : list Z) : Completion.t := Completion.mk 0 data None [] 0.

Definition completion_written (length : Z) : Completion.t :=
  let c := completion_ok [] in
  Completion.mk (Completion.status c) (Completion.data c) (Some length) (Completion.iso c)
    (Completion.start_frame c).

Class Device := {
  (** [bEndpointAddress] and [bmAttributes] of the endpoints *)
  endpoints : list (Z * Z);
  (** what the future that [submit] returns may come to *)
  resolves : Urb.t → Outcome.t → Prop;
}.

(** [PORT_RESET_SETUP] of the server: the first four bytes. *)
Definition PORT_RESET_REQUEST : list Z := [0x23; 0x03; 0x04; 0x00].

Module Event.

Inductive t : Type :=
| DevList
| Import (busid : list Z)
| Submit (u : Urb.t)
| Unlink (seqnum target : Z) (found : bool)
| Completed (seqnum : Z)
| Disconnected
| Reset.

End Event.

(** ** One connection *)

(** The future of a job: the completion of a port reset is ready at once. *)
Inductive handled : Type :=
| Ready (c : Completion.t)
| Submitted.

Module Job.

Record t : Type := mk { urb : Urb.t; future : handled; cancel : nat }.

End Job.

(** Where the loop of [serve_urbs] waits: for a header, for the rest of a CMD_SUBMIT, or it is over. *)
Inductive stage : Type :=
| AwaitHeader
| AwaitBody (h : list Z) (seqnum devid : Z)
| Ended.

(** The address of the endpoint a URB is for. *)
Definition urb_address (u : Urb.t) : Z :=
  Z.lor (wrap 8 (Urb.ep u)) (if Urb.is_in u then 0x80 else 0).

(** Why Linux would not take a URB on an endpoint the device has. *)
Definition refused (endpoints : list (Z * Z)) (u : Urb.t) : option violation :=
  let address := urb_address u in
  match find_first (λ e, e.1 =? address) endpoints with
  | None => None
  | Some (_, attributes) =>
    let kind := Z.land attributes 3 in
    if ((kind =? 1) || (kind =? 3)) && (Urb.interval u =? 0) then
      Some (PeriodicWithoutInterval (Urb.seqnum u) address)
    else if (kind =? 1) && (length (Urb.iso u) =? 0)%nat then
      Some (IsoWithoutPackets (Urb.seqnum u))
    else None
  end.

Module Conn.
Section Conn.
Context {R : Type} {AR : AsyncRead R} {D : Device}.

Record t : Type := mk {
  reader : R;
  at_stage : stage;
  pending : gmap Z nat;
  (** the unbounded channel of each endpoint's worker, and the job the worker runs *)
  queues : gmap Z (list Job.t);
  running : gmap Z Job.t;
  jobs : nat;
  (** what was sent to the writer; how much of it the writer has taken, [None] once it is over *)
  tx : list (option (list Z));
  writer : option nat;
  written : list Z;
  events : list Event.t;
  violations : list violation;
}.

Definition start (r : R) : t := mk r AwaitHeader ∅ ∅ ∅ 0 [] (Some 0%nat) [] [] [].

Definition set_reader (r : R) (s : t) : t :=
  mk r (at_stage s) (pending s) (queues s) (running s) (jobs s) (tx s) (writer s) (written s)
    (events s) (violations s).
Definition set_stage (g : stage) (s : t) : t :=
  mk (reader s) g (pending s) (queues s) (running s) (jobs s) (tx s) (writer s) (written s)
    (events s) (violations s).
Definition set_pending (p : gmap Z nat) (s : t) : t :=
  mk (reader s) (at_stage s) p (queues s) (running s) (jobs s) (tx s) (writer s) (written s)
    (events s) (violations s).
Definition set_queues (q : gmap Z (list Job.t)) (s : t) : t :=
  mk (reader s) (at_stage s) (pending s) q (running s) (jobs s) (tx s) (writer s) (written s)
    (events s) (violations s).
Definition set_running (w : gmap Z Job.t) (s : t) : t :=
  mk (reader s) (at_stage s) (pending s) (queues s) w (jobs s) (tx s) (writer s) (written s)
    (events s) (violations s).
Definition set_jobs (n : nat) (s : t) : t :=
  mk (reader s) (at_stage s) (pending s) (queues s) (running s) n (tx s) (writer s) (written s)
    (events s) (violations s).
Definition set_written (w : option nat) (out : list Z) (s : t) : t :=
  mk (reader s) (at_stage s) (pending s) (queues s) (running s) (jobs s) (tx s) w out
    (events s) (violations s).

(** [tx.send(frame)], whose failure is ignored *)
Definition send (frame : option (list Z)) (s : t) : t :=
  mk (reader s) (at_stage s) (pending s) (queues s) (running s) (jobs s) (tx s ++ [frame])
    (writer s) (written s) (events s) (violations s).

(** [Log::push] and [Log::violation] *)
Definition push (e : Event.t) (s : t) : t :=
  mk (reader s) (at_stage s) (pending s) (queues s) (running s) (jobs s) (tx s)
    (writer s) (written s) (events s ++ [e]) (violations s).
Definition note (vs : list violation) (s : t) : t :=
  mk (reader s) (at_stage s) (pending s) (queues s) (running s) (jobs s) (tx s)
    (writer s) (written s) (events s) (violations s ++ vs).

(** After the loop: every cancel sender is dropped and the workers are aborted. *)
Definition stop (s : t) : t :=
  let s := set_pending ∅ s in
  let s := set_running ∅ (set_queues ∅ s) in
  let s := push Event.Disconnected s in
  set_stage Ended (send None s).

(** The end of the CMD_SUBMIT arm: the URB goes to the device and its job to the endpoint's queue. *)
Definition enqueue (u : Urb.t) (s : t) : t :=
  let '(future, s) :=
    if (Urb.ep u =? 0) && bool_decide (take 4 (Urb.setup u) = PORT_RESET_REQUEST)
    then (Ready (completion_written 0), push Event.Reset s) else (Submitted, s) in
  let cancel := jobs s in
  let s := set_jobs (S cancel) s in
  let s := set_pending (<[Urb.seqnum u := cancel]> (pending s)) s in
  let address := urb_address u in
  set_queues (<[address := default [] (queues s !! address) ++ [Job.mk u future cancel]]> (queues s)) s.

(** The CMD_SUBMIT arm, once its header was read. *)
Definition on_body (h : list Z) (seqnum devid : Z) (s : t) : outcome t :=
  '(urb, vs, r) ← read_submit h seqnum devid [] (reader s);
  let s := note vs (set_reader r s) in
  match urb with
  | None => Done (stop s)
  | Some u =>
    let s := push (Event.Submit u) s in
    match refused endpoints u with
    | Some v => Done (stop (note [v] s))
    | None => Done (set_stage AwaitHeader (enqueue u s))
    end
  end.

(** The CMD_UNLINK arm, with the pending table locked. *)
Definition on_unlink (seqnum target : Z) (s : t) : t :=
  let found := bool_decide (is_Some (pending s !! target)) in
  let s := set_pending (delete target (pending s)) s in
  let s := push (Event.Unlink seqnum target found) s in
  send (Some (unlink_reply seqnum found)) s.

(** One turn of the loop, from its header. *)
Definition on_header (export_devid : Z) (h : list Z) (s : t) : outcome t :=
  '(command, seqnum, devid, vs) ← check_header export_devid ((map_to_list (pending s)).*1) h;
  let s := note vs s in
  if command =? 1 then Done (set_stage (AwaitBody h seqnum devid) s)
  else if command =? 2 then
    '(target, vs) ← read_unlink h seqnum [];
    Done (on_unlink seqnum target (note vs s))
  else Done (stop (note [UnknownCommand command] s)).

(** ** The endpoint workers *)

(** The cancel receiver of a job resolves once its sender is gone. *)
Definition cancelled (j : Job.t) (s : t) : Prop :=
  ∀ seqnum, pending s !! seqnum ≠ Some (Job.cancel j).

Definition comes_to (j : Job.t) (o : Outcome.t) : Prop :=
  match Job.future j with
  | Ready c => o = Outcome.Complete c
  | Submitted => resolves (Job.urb j) o
  end.

(** [jobs.recv()] *)
Definition take_job (a : Z) (j : Job.t) (rest : list Job.t) (s : t) : t :=
  set_running (<[a := j]> (running s)) (set_queues (<[a := rest]> (queues s)) s).

(** [continue] *)
Definition let_go (a : Z) (s : t) : t := set_running (delete a (running s)) s.

(** The worker once the future of its job came to [o]. *)
Definition finish (a : Z) (j : Job.t) (o : Outcome.t) (s : t) : t :=
  let u := Job.urb j in
  let s := let_go a s in
  match pending s !! Urb.seqnum u with
  | None => s
  | Some _ =>
    let s := set_pending (delete (Urb.seqnum u) (pending s)) s in
    let s := push (Event.Completed (Urb.seqnum u)) s in
    match o with
    | Outcome.Complete c => send (Some (ret_submit u c)) s
    | Outcome.Raw bytes => send (Some bytes) s
    | Outcome.Disconnect => send None s
    end
  end.

(** ** The tasks, interleaved *)

Inductive step (export_devid : Z) : t → t → Prop :=
(** The loop of [serve_urbs] *)
| step_header s h r s' :
    at_stage s = AwaitHeader → read_exact 48 (reader s) = (Ok h, r) →
    on_header export_devid h (set_reader r s) = Done s' → step export_devid s s'
| step_header_err s e r :
    at_stage s = AwaitHeader → read_exact 48 (reader s) = (Err e, r) →
    step export_devid s (stop (set_reader r s))
| step_body s h seqnum devid s' :
    at_stage s = AwaitBody h seqnum devid → on_body h seqnum devid s = Done s' →
    step export_devid s s'
(** The endpoint workers *)
| step_take s a j rest :
    running s !! a = None → queues s !! a = Some (j :: rest) →
    step export_devid s (take_job a j rest s)
| step_cancel s a j :
    running s !! a = Some j → cancelled j s → step export_devid s (let_go a s)
| step_finish s a j o :
    running s !! a = Some j → comes_to j o → step export_devid s (finish a j o s)
(** The writer *)
| step_write s n frame :
    writer s = Some n → tx s !! n = Some (Some frame) →
    step export_devid s (set_written (Some (S n)) (written s ++ frame) s)
| step_write_err s n frame part :
    writer s = Some n → tx s !! n = Some (Some frame) → part `prefix_of` frame →
    step export_devid s (set_written None (written s ++ part) s)
| step_shutdown s n :
    writer s = Some n → tx s !! n = Some None →
    step export_devid s (set_written None (written s) s).

Definition reachable (export_devid : Z) (r : R) (s : t) : Prop :=
  rtc (step export_devid) (start r) s.

End Conn.
End Conn.

(** ** The request phase *)

Module Door.

(** What [serve] does with a connection: nothing, an answer, or an export to serve after an answer. *)
Inductive t : Type :=
| Hangup
| Answer (out : list Z)
| Hand (export : ExportDev.t) (out : list Z).

(** The locked region of the import arm: is the export there, and free? *)
Definition claim (export : option ExportDev.t) (busid : list Z) (imported : list (list Z)) :
    bool * list (list Z) :=
  match export with
  | None => (false, imported)
  | Some _ =>
    if bool_decide (busid ∈ imported) then (false, imported) else (true, imported ++ [busid])
  end.

(** [imported.retain(|b| *b != busid)], when the URBs of a connection were served *)
Definition release (busid : list Z) (imported : list (list Z)) : list (list Z) :=
  base.filter (λ b, b ≠ busid) imported.

Section Serve.
Context {R : Type} {AR : AsyncRead R}.

(** [serve], up to [serve_urbs]: what happens to the connection, to the list of imported devices and
    to the log. *)
Definition serve (exports : list ExportDev.t) (imported : list (list Z)) (r : R) :
    outcome (t * list (list Z) * list Event.t * list violation * R) :=
  let '(got, r) := read_exact 8 r in
  match got with
  | Err _ => Done (Hangup, imported, [], [], r)
  | Ok header =>
    version ← be_to_Z <$> slice header 0 2;
    code ← be_to_Z <$> slice header 2 4;
    status ← be_to_Z <$> slice header 4 8;
    let vs := if negb (version =? 0x0111) then [OpVersion version] else [] in
    let vs := if negb (status =? 0) then vs ++ [OpStatus status] else vs in
    if code =? 0x8005 then
      out ← devlist_reply exports;
      Done (Answer out, imported, [Event.DevList], vs, r)
    else if code =? 0x8003 then
      let '(got, r) := read_exact 32 r in
      match got with
      | Err _ => Done (Hangup, imported, [], vs, r)
      | Ok busid =>
        let end_ := default 32%nat (position (λ b, b =? 0) busid) in
        let busid := Utf8.from_utf8_lossy (take end_ busid) in
        let export := find_first (λ e, bool_decide (ExportDev.busid e = busid)) exports in
        let '(available, imported) := claim export busid imported in
        let export := if available then export else None in
        out ← import_reply export;
        Done (match export with Some e => Hand e out | None => Answer out end,
              imported, [Event.Import busid], vs, r)
      end
    else Done (Hangup, imported, [], vs ++ [UnknownOp code], r)
  end.

(** The connections of the server: which export each serves, the list they share, and how many were
    accepted. *)
Record house : Type := mk_house {
  imported : list (list Z);
  serving : list (option (list Z));
  connections : nat;
}.

(** A connection is accepted and its request handled; or a connection is done with its URBs (also when
    its answer could not be written). *)
Inductive step (exports : list ExportDev.t) : house → house → Prop :=
| step_open h r a imported' es vs r' :
    serve exports (imported h) r = Done (a, imported', es, vs, r') →
    step exports h
      (mk_house imported' (serving h ++ [match a with Hand e _ => Some (ExportDev.busid e) | _ => None end])
         (S (connections h)))
| step_done h i busid :
    serving h !! i = Some (Some busid) →
    step exports h (mk_house (release busid (imported h)) (<[i := None]> (serving h)) (connections h)).

Definition reachable (exports : list ExportDev.t) (h : house) : Prop :=
  rtc (step exports) (mk_house [] [] 0) h.

(** *** A device is handed to one connection at a time *)

Lemma serve_cases exports imported r a imported' es vs r' :
  serve exports imported r = Done (a, imported', es, vs, r') →
  match a with
  | Hand e _ => e ∈ exports ∧ ExportDev.busid e ∉ imported ∧ imported' = imported ++ [ExportDev.busid e]
  | _ => imported' = imported
  end.
Proof.
  unfold serve. destruct (read_exact 8 r) as [[h|e] r1]; [|by intros [= <- <- _ _ _]].
  destruct (slice h 0 2), (slice h 2 4), (slice h 4 8); try done.
  cbn [fmap outcome_fmap mbind outcome_bind]. set (vs0 := if negb (_ =? 0) then _ else _).
  destruct (_ =? 0x8005).
  { destruct (devlist_reply exports); [|done..]. by intros [= <- <- _ _ _]. }
  destruct (_ =? 0x8003); [|by intros [= <- <- _ _ _]].
  destruct (read_exact 32 r1) as [[b|e] r2]; [|by intros [= <- <- _ _ _]].
  set (busid := Utf8.from_utf8_lossy _).
  destruct (find_first _ exports) as [e|] eqn:Ef; cbn [claim].
  - apply find_first_Some in Ef as (l1 & l2 & -> & Eb%bool_decide_eq_true & _).
    case_bool_decide as Hb; simpl; [by intros [= <- <- _ _ _]|].
    destruct (ExportDev.encode e _ _); [|done..]. intros [= <- <- _ _ _]. rewrite Eb.
    split; [|done]. rewrite elem_of_app. right. by left.
  - simpl. by intros [= <- <- _ _ _].
Qed.

Lemma release_taken i busid (l : list (option (list Z))) :
  NoDup (omap id l) → l !! i = Some (Some busid) →
  omap id (<[i := None]> l) ≡ₚ release busid (omap id l) ∧ NoDup (release busid (omap id l)).
Proof.
  intros Hnd Hi. split; [|by apply NoDup_filter].
  apply take_drop_middle in Hi as E. assert (i < length l)%nat by by eapply lookup_lt_Some.
  rewrite insert_take_drop by done. clear Hi H.
  revert E. generalize (take i l) (drop (S i) l). intros l1 l2 <-. unfold release.
  rewrite !omap_app in Hnd. rewrite !omap_app. cbn in *. rewrite NoDup_app, NoDup_cons in Hnd.
  destruct Hnd as (_ & H1 & H2 & _). rewrite filter_app, filter_cons_False by naive_solver.
  rewrite !filter_all; [done|..]; apply Forall_forall; intros x Hx ->; [done|].
  apply (H1 busid); [done|by left].
Qed.

(** What keeps two connections apart. *)
Definition apart (h : house) : Prop :=
  imported h ≡ₚ omap id (serving h) ∧ NoDup (imported h).

Lemma step_apart exports h h' : apart h → step exports h h' → apart h'.
Proof.
  intros [Hp Hnd] Hs. destruct Hs as [h r a imported' es vs r' H|h i busid H]; unfold apart; cbn.
  - apply serve_cases in H. rewrite omap_app. destruct a as [|out|e out]; cbn.
    1,2: subst; by rewrite app_nil_r.
    destruct H as (_ & Hb & ->). split; [by rewrite Hp|].
    apply NoDup_app. split; [done|]. split; [|apply NoDup_singleton].
    by intros x Hx ->%list_elem_of_singleton.
  - rewrite Hp in Hnd. destruct (release_taken i busid _ Hnd H) as [E1 E2].
    assert (release busid (imported h) ≡ₚ release busid (omap id (serving h))) as E
      by (unfold release; by rewrite Hp).
    by rewrite E, E1.
Qed.

Lemma reachable_apart exports h : reachable exports h → apart h.
Proof.
  intros H. unfold reachable in H. assert (apart (mk_house [] [] 0)) as H0 by (split; constructor).
  revert H0. induction H as [|h1 h2 h3 H12 _ IH]; [done|]. eauto using step_apart.
Qed.

End Serve.
End Door.
