(* ===== verification/ServingFacts.v ===== *)
(** * ServingFacts: what a connection of the server does, for every client and device

    [served s told]: the invariant of a connection, with [told] the messages behind the frames its
    writer was handed.  Every submission is resolved at most once and not forgotten, and the replies of
    an endpoint keep the order of submission. *)

From stdpp Require Import base tactics option list gmap fin_maps relations sorting.
From S2P Require Import Prelude Wire Protocol ProtocolFacts Server Serving.
Import Conn.

(** What a frame in the writer's queue stands for. *)
Inductive message : Type :=
| Reply (u : Urb.t) (o : Outcome.t)
| Unlinking (seqnum target : Z) (found : bool)
| Bye.

Definition frame_of (m : message) : option (list Z) :=
  match m with
  | Reply u (Outcome.Complete c) => Some (ret_submit u c)
  | Reply _ (Outcome.Raw bytes) => Some bytes
  | Reply _ Outcome.Disconnect => None
  | Unlinking seqnum _ found => Some (unlink_reply seqnum found)
  | Bye => None
  end.

(** The submission a message resolves, the URB it replies to. *)
Definition resolves_in (m : message) : option Z :=
  match m with
  | Reply u _ => Some (Urb.seqnum u)
  | Unlinking _ target true => Some target
  | _ => None
  end.

Definition replied (m : message) : option Urb.t :=
  match m with Reply u _ => Some u | _ => None end.

Definition resolved_by (e : Event.t) : option Z :=
  match e with
  | Event.Completed s => Some s
  | Event.Unlink _ target true => Some target
  | _ => None
  end.

(** The unlinks a message answers, an event records. *)
Definition answers (m : message) : option (Z * Z * bool) :=
  match m with Unlinking n target found => Some (n, target, found) | _ => None end.

Definition unlink_of (e : Event.t) : option (Z * Z * bool) :=
  match e with Event.Unlink n target found => Some (n, target, found) | _ => None end.

Definition submission (e : Event.t) : option Urb.t :=
  match e with Event.Submit u => Some u | _ => None end.

Definition submissions (es : list Event.t) : list Urb.t := omap submission es.

(** The URBs of a list that are for endpoint [a]. *)
Definition on_endpoint (a : Z) (us : list Urb.t) : list Urb.t :=
  base.filter (λ u, urb_address u = a) us.

Lemma on_endpoint_app a l k : on_endpoint a (l ++ k) = on_endpoint a l ++ on_endpoint a k.
Proof. apply filter_app. Qed.

Lemma on_endpoint_here a u : urb_address u = a → on_endpoint a [u] = [u].
Proof. intros H. unfold on_endpoint. by rewrite filter_cons_True. Qed.

Lemma on_endpoint_elsewhere a u : urb_address u ≠ a → on_endpoint a [u] = [].
Proof. intros H. unfold on_endpoint. by rewrite filter_cons_False. Qed.

Section Facts.
Context {R : Type} {AR : AsyncRead R} {D : Device}.
Implicit Types s : t (R := R).

(** The results a URB may have: a port reset is answered by the server itself. *)
Definition may_end (u : Urb.t) (o : Outcome.t) : Prop :=
  if (Urb.ep u =? 0) && bool_decide (take 4 (Urb.setup u) = PORT_RESET_REQUEST)
  then o = Outcome.Complete (completion_written 0) else resolves u o.

(** The jobs of an endpoint's worker, the one it runs first. *)
Definition held (a : Z) s : list Job.t :=
  option_list (running s !! a) ++ default [] (queues s !! a).

Definition keys s : list Z := (map_to_list (pending s)).*1.

Lemma pending_keys k s : k ∈ keys s ↔ is_Some (pending s !! k).
Proof.
  unfold keys. rewrite list_elem_of_fmap. split.
  - intros ([k' n] & -> & H%elem_of_map_to_list). eauto.
  - intros [n H%elem_of_map_to_list]. by exists (k, n).
Qed.

Record served s (told : list message) : Prop := {
  sv_tx : tx s = frame_of <$> told;
  sv_resolved : omap resolves_in told = omap resolved_by (events s);
  sv_unlinks : omap answers told = omap unlink_of (events s);
  sv_replies : ∀ u o, Reply u o ∈ told → u ∈ submissions (events s) ∧ may_end u o;
  sv_held : ∀ a j, j ∈ held a s →
    urb_address (Job.urb j) = a ∧ Job.urb j ∈ submissions (events s) ∧
    ∀ o, comes_to j o → may_end (Job.urb j) o;
  sv_order : ∀ a, on_endpoint a (omap replied told) ++ (Job.urb <$> held a s)
    `sublist_of` on_endpoint a (submissions (events s));
  sv_once : omap resolved_by (events s) ++ keys s ⊆+ Urb.seqnum <$> submissions (events s);
  sv_pending : ∀ seqnum n, pending s !! seqnum = Some n →
    ∃ a j, j ∈ held a s ∧ Job.cancel j = n ∧ Urb.seqnum (Job.urb j) = seqnum;
  sv_ended : at_stage s = Ended → pending s = ∅ ∧ queues s = ∅ ∧ running s = ∅;
}.

(** No submission is forgotten while the loop runs, if the client does not reuse numbers. *)
Definition accounted s : Prop :=
  at_stage s ≠ Ended → NoDup (Urb.seqnum <$> submissions (events s)) →
  Urb.seqnum <$> submissions (events s) ≡ₚ omap resolved_by (events s) ++ keys s.

Lemma served_start (r : R) : served (start r) [].
Proof.
  constructor; cbn; try done.
  - intros u o []%elem_of_nil.
  - intros a j. unfold held. cbn. rewrite !lookup_empty. by intros []%elem_of_nil.
Qed.

(** Changes the invariant does not see. *)
Lemma served_same s s' told :
  served s told → pending s' = pending s → queues s' = queues s → running s' = running s →
  tx s' = tx s → events s' = events s → (at_stage s' = Ended → at_stage s = Ended) →
  served s' told.
Proof.
  intros [] Ep Eq Er Et Ee Hs. unfold held, keys in *.
  constructor; unfold held, keys; rewrite ?Ep, ?Eq, ?Er, ?Et, ?Ee; auto.
Qed.

(** *** The end of the loop *)

Lemma submissions_snoc es e :
  submissions (es ++ [e]) = submissions es ++ option_list (submission e).
Proof. unfold submissions. rewrite omap_app. cbn. by destruct (submission e). Qed.

Lemma served_stop s told : served s told → served (stop s) (told ++ [Bye]).
Proof.
  intros []. unfold stop. constructor; cbn.
  - by rewrite sv_tx0, fmap_app.
  - rewrite !omap_app. cbn. by rewrite sv_resolved0, !app_nil_r.
  - rewrite !omap_app. cbn. by rewrite sv_unlinks0, !app_nil_r.
  - intros u o. rewrite submissions_snoc, !elem_of_app. set_solver.
  - intros a j. unfold held. cbn. rewrite !lookup_empty. by intros []%elem_of_nil.
  - intros a. unfold held. cbn. rewrite !lookup_empty, submissions_snoc, omap_app. cbn.
    rewrite !app_nil_r. etrans; [|apply (sv_order0 a)]. apply sublist_inserts_r. done.
  - rewrite submissions_snoc, omap_app. unfold keys. cbn. rewrite map_to_list_empty. cbn.
    rewrite !app_nil_r. etrans; [|exact sv_once0]. apply submseteq_inserts_r. done.
  - intros seqnum n. by rewrite lookup_empty.
  - done.
Qed.

(** *** Submitting *)

Lemma served_push_submit u s told : served s told → served (push (Event.Submit u) s) told.
Proof.
  intros []. assert (submissions (events (push (Event.Submit u) s)) = submissions (events s) ++ [u])
    as Hsub by apply submissions_snoc.
  assert (omap unlink_of (events (push (Event.Submit u) s)) = omap unlink_of (events s)) as Hun
    by (cbn; by rewrite omap_app, app_nil_r).
  assert (omap resolved_by (events (push (Event.Submit u) s)) = omap resolved_by (events s)) as Hres
    by (cbn; by rewrite omap_app, app_nil_r).
  constructor; rewrite ?Hsub, ?Hres, ?Hun; try done.
  - intros u' o [? ?]%sv_replies0. set_solver.
  - intros a j (? & ? & ?)%sv_held0. set_solver.
  - intros a. rewrite on_endpoint_app. etrans; [apply (sv_order0 a)|]. by apply sublist_inserts_r.
  - rewrite fmap_app. etrans; [exact sv_once0|]. by apply submseteq_inserts_r.
Qed.

(** The jobs after [enqueue]. *)
Definition reset_request (u : Urb.t) : bool :=
  (Urb.ep u =? 0) && bool_decide (take 4 (Urb.setup u) = PORT_RESET_REQUEST).

Definition job_of (u : Urb.t) s : Job.t :=
  Job.mk u (if reset_request u then Ready (completion_written 0) else Submitted) (jobs s).

Definition enqueued (u : Urb.t) s : t :=
  mk (reader s) (at_stage s) (<[Urb.seqnum u := jobs s]> (pending s))
    (<[urb_address u := default [] (queues s !! urb_address u) ++ [job_of u s]]> (queues s))
    (running s) (S (jobs s)) (tx s) (writer s) (written s)
    (events s ++ (if reset_request u then [Event.Reset] else [])) (violations s).

Lemma enqueue_eq u s : enqueue u s = enqueued u s.
Proof.
  unfold enqueue, enqueued, job_of. fold (reset_request u). destruct (reset_request u); [done|].
  by rewrite app_nil_r.
Qed.

Lemma held_enqueued a u s :
  held a (enqueued u s) = held a s ++ if decide (a = urb_address u) then [job_of u s] else [].
Proof.
  unfold held. cbn. rewrite lookup_insert. repeat case_decide; subst; try done.
  - cbn. by rewrite app_assoc.
  - by rewrite app_nil_r.
Qed.

Lemma omap_reset {A} (f : Event.t → option A) es (b : bool) :
  f Event.Reset = None → omap f (es ++ (if b then [Event.Reset] else [])) = omap f es.
Proof. intros E. rewrite omap_app. destruct b; cbn; by rewrite ?E, ?app_nil_r. Qed.

Lemma served_submit u s told :
  served s told → at_stage s ≠ Ended → served (enqueue u (push (Event.Submit u) s)) told.
Proof.
  intros [] Hst. rewrite enqueue_eq. set (s1 := enqueued u _).
  assert (∀ a, held a s1 = held a s ++ if decide (a = urb_address u) then [job_of u s] else []) as Hh
    by exact (λ a, held_enqueued a u (push (Event.Submit u) s)).
  assert (submissions (events s1) = submissions (events s) ++ [u]) as Hsub.
  { unfold submissions at 1. cbn. rewrite omap_reset by done. apply submissions_snoc. }
  assert (omap resolved_by (events s1) = omap resolved_by (events s)) as Hres.
  { cbn. by rewrite omap_reset, omap_app, app_nil_r. }
  assert (omap unlink_of (events s1) = omap unlink_of (events s)) as Hun.
  { cbn. by rewrite omap_reset, omap_app, app_nil_r. }
  constructor; rewrite ?Hsub, ?Hres, ?Hun; try done.
  - intros u' o [? ?]%sv_replies0. set_solver.
  - intros a j. rewrite Hh, elem_of_app. intros [(? & ? & ?)%sv_held0|Hj]; [set_solver|].
    case_decide; [|by apply elem_of_nil in Hj]. apply list_elem_of_singleton in Hj as ->. subst.
    split; [done|]. split; [set_solver|]. unfold comes_to, may_end, job_of. cbn.
    fold (reset_request u). by destruct (reset_request u).
  - intros a. rewrite Hh, fmap_app, app_assoc, on_endpoint_app.
    apply sublist_app; [apply sv_order0|]. case_decide as Ha; [|apply sublist_nil_l].
    by rewrite on_endpoint_here.
  - rewrite fmap_app, (Permutation_app_comm _ (Urb.seqnum <$> [u])). cbn.
    etrans; [apply submseteq_app; [done|apply keys_insert_submseteq]|].
    rewrite <- Permutation_middle. by apply submseteq_skip.
  - intros seqnum n. cbn. rewrite lookup_insert. case_decide as Es.
    + intros [= <-]. exists (urb_address u), (job_of u s). rewrite Hh, decide_True by done.
      split; [rewrite elem_of_app; right; by left|done].
    + intros (a & j & Hj & ? & ?)%sv_pending0. exists a, j. rewrite Hh, elem_of_app. auto.
Qed.

(** *** Unlinking *)

Lemma omap_snoc {A C} (f : A → option C) l x : omap f (l ++ [x]) = omap f l ++ option_list (f x).
Proof. rewrite omap_app. cbn. by destruct (f x). Qed.

Lemma served_unlink seqnum target s told :
  served s told →
  served (Conn.on_unlink seqnum target s)
    (told ++ [Unlinking seqnum target (bool_decide (is_Some (pending s !! target)))]).
Proof.
  intros []. unfold Conn.on_unlink. set (found := bool_decide _).
  constructor; cbn; rewrite ?submissions_snoc, ?omap_snoc, ?app_nil_r; cbn; try done.
  - by rewrite sv_tx0, fmap_app.
  - by rewrite sv_resolved0.
  - by rewrite sv_unlinks0.
  - intros u o. rewrite elem_of_app, list_elem_of_singleton. by intros [?%sv_replies0|].
  - etrans; [|exact sv_once0]. rewrite <- app_assoc. apply submseteq_app; [done|].
    unfold found, keys. cbn. destruct (pending s !! target) as [n|] eqn:E.
    + rewrite bool_decide_eq_true_2 by eauto. cbn. by rewrite keys_delete.
    + rewrite bool_decide_eq_false_2 by (by intros []). cbn. by rewrite delete_id.
  - intros k n [_ Hk]%lookup_delete_Some. by apply sv_pending0.
  - intros (-> & -> & ->)%sv_ended0. by rewrite delete_empty.
Qed.

(** *** The workers *)

Lemma held_let_go a b s :
  held b (let_go a s) = if decide (a = b) then default [] (queues s !! a) else held b s.
Proof.
  unfold held, let_go. cbn. rewrite lookup_delete. case_decide; by subst.
Qed.

Lemma held_running a j s : running s !! a = Some j → held a s = j :: default [] (queues s !! a).
Proof. intros H. unfold held. by rewrite H. Qed.

Lemma held_take_job a b j rest s :
  running s !! a = None → queues s !! a = Some (j :: rest) → held b (take_job a j rest s) = held b s.
Proof.
  intros Hr Hq. unfold held, take_job. cbn. rewrite !lookup_insert. case_decide; [|done].
  subst. by rewrite Hr, Hq.
Qed.

Lemma held_after a b j s : running s !! a = Some j → held b (let_go a s) `sublist_of` held b s.
Proof.
  intros H. rewrite held_let_go. case_decide; [subst|done]. rewrite (held_running _ j) by done.
  by apply sublist_cons.
Qed.

Lemma served_take a j rest s told :
  served s told → running s !! a = None → queues s !! a = Some (j :: rest) →
  served (take_job a j rest s) told.
Proof.
  intros [] Hr Hq. assert (∀ b, held b (take_job a j rest s) = held b s) as Hh
    by (intros; by apply held_take_job).
  constructor; try done.
  - intros b k. rewrite Hh. apply sv_held0.
  - intros b. rewrite Hh. apply sv_order0.
  - intros k n (b & i & Hi & ?)%sv_pending0. exists b, i. by rewrite Hh.
  - cbn. intros (_ & E & _)%sv_ended0. by rewrite E, lookup_empty in Hq.
Qed.

(** A worker lets go of a job whose URB is not pending. *)
Lemma served_let_go a j s told :
  served s told → running s !! a = Some j →
  pending s !! Urb.seqnum (Job.urb j) ≠ Some (Job.cancel j) → served (let_go a s) told.
Proof.
  intros [] Hr Hp. assert (∀ b, held b (let_go a s) `sublist_of` held b s) as Hh
    by (intros; by eapply held_after).
  constructor; try done.
  - intros b k Hk. apply sv_held0. by eapply elem_of_sublist.
  - intros b. etrans; [|apply sv_order0]. apply sublist_app; [done|]. by apply fmap_sublist.
  - intros k n Hk. cbn in Hk. destruct (sv_pending0 k n Hk) as (b & i & Hi & Ec & Es). exists b, i.
    split; [|done]. rewrite held_let_go. case_decide; [subst b|done].
    rewrite (held_running _ j) in Hi by done. apply elem_of_cons in Hi as [->|Hi]; [|done].
    subst. done.
  - intros (_ & _ & E)%sv_ended0. by rewrite E, lookup_empty in Hr.
Qed.

Definition replying (j : Job.t) (o : Outcome.t) s : t :=
  send (frame_of (Reply (Job.urb j) o))
    (push (Event.Completed (Urb.seqnum (Job.urb j)))
       (set_pending (delete (Urb.seqnum (Job.urb j)) (pending s)) s)).

Lemma worker_finish_cases a j o s :
  finish a j o s = match pending s !! Urb.seqnum (Job.urb j) with
                   | None => let_go a s
                   | Some _ => replying j o (let_go a s)
                   end.
Proof.
  unfold finish, replying. cbn. destruct (pending s !! _); [|done]. by destruct o.
Qed.

Lemma served_reply a j o s told :
  served s told → running s !! a = Some j → comes_to j o →
  is_Some (pending s !! Urb.seqnum (Job.urb j)) →
  served (replying j o (let_go a s)) (told ++ [Reply (Job.urb j) o]).
Proof.
  intros [] Hr Ho [n Hp]. unfold replying. set (k := Urb.seqnum (Job.urb j)) in *.
  assert (∀ b, held b (replying j o (let_go a s)) `sublist_of` held b s) as Hh
    by (intros; by eapply held_after).
  assert (∀ b, held b (replying j o (let_go a s)) = held b (let_go a s)) as Hg by done.
  unfold replying in Hg. fold k in Hg. destruct (sv_held0 a j) as (Ha & Hj & Hm); [rewrite (held_running _ j) by done; by left|].
  constructor; cbn; rewrite ?submissions_snoc, ?omap_snoc, ?app_nil_r; cbn; try done.
  - by rewrite sv_tx0, fmap_app.
  - by rewrite sv_resolved0.
  - intros u o'. rewrite elem_of_app, list_elem_of_singleton.
    intros [?%sv_replies0|[= -> ->]]; [done|]. auto.
  - intros b i Hi. apply sv_held0. by eapply elem_of_sublist, Hh.
  - intros b. rewrite on_endpoint_app.
    etrans; [|apply (sv_order0 b)]. rewrite <- app_assoc. apply sublist_app; [done|].
    rewrite Hg, held_let_go. case_decide; [subst b|].
    + rewrite on_endpoint_here, (held_running _ j) by done. done.
    + by rewrite on_endpoint_elsewhere by congruence.
  - etrans; [|exact sv_once0]. rewrite <- app_assoc. apply submseteq_app; [done|].
    unfold keys. cbn. fold k. by rewrite (keys_delete _ k n).
  - intros i m [Hne Hi]%lookup_delete_Some. destruct (sv_pending0 i m Hi) as (b & x & Hx & Ec & Es).
    exists b, x. split; [|done]. rewrite Hg, held_let_go. case_decide; [subst b|done].
    rewrite (held_running _ j) in Hx by done. apply elem_of_cons in Hx as [->|Hx]; [|done].
    by subst.
  - intros (_ & _ & E)%sv_ended0. by rewrite E, lookup_empty in Hr.
Qed.

(** *** Nothing is forgotten *)

Lemma accounted_same s s' :
  accounted s → pending s' = pending s → events s' = events s →
  (at_stage s' ≠ Ended → at_stage s ≠ Ended) → accounted s'.
Proof. unfold accounted, keys. intros H -> -> Hs ? ?. auto. Qed.

Lemma accounted_stop s : accounted (stop s).
Proof. by intros []. Qed.

Lemma accounted_submit u s :
  accounted s → at_stage s ≠ Ended → accounted (enqueue u (push (Event.Submit u) s)).
Proof.
  intros A Hst _. rewrite enqueue_eq. cbn. unfold submissions.
  rewrite !omap_reset, !omap_snoc by done. cbn. rewrite app_nil_r, fmap_app. intros Hnd.
  apply NoDup_app in Hnd as (Hnd & Hu & _). specialize (A Hst Hnd). unfold submissions in A.
  unfold keys. cbn. rewrite keys_insert.
  - rewrite A. unfold keys. cbn. by rewrite <- app_assoc, <- (Permutation_cons_append (keys s)).
  - apply eq_None_not_Some. rewrite <- pending_keys. intros Hk. apply (Hu (Urb.seqnum u)); [|by left].
    rewrite A, elem_of_app. by right.
Qed.

Lemma accounted_unlink n target s : accounted s → accounted (Conn.on_unlink n target s).
Proof.
  intros A Hst. cbn. unfold submissions. rewrite !omap_snoc. cbn. rewrite app_nil_r.
  intros Hnd. rewrite (A Hst Hnd), <- app_assoc. apply Permutation_app_head. unfold keys. cbn.
  destruct (pending s !! target) as [m|] eqn:E.
  - rewrite bool_decide_eq_true_2 by eauto. cbn. by rewrite keys_delete.
  - rewrite bool_decide_eq_false_2 by (by intros []). cbn. by rewrite delete_id.
Qed.

Lemma accounted_reply a j o s :
  accounted s → is_Some (pending s !! Urb.seqnum (Job.urb j)) → accounted (replying j o (let_go a s)).
Proof.
  intros A [n Hp] Hst. cbn. unfold submissions. rewrite !omap_snoc. cbn. rewrite app_nil_r.
  intros Hnd. rewrite (A Hst Hnd), <- app_assoc. apply Permutation_app_head. unfold keys. cbn.
  by rewrite (keys_delete _ _ n).
Qed.

(** ** Every step *)

(** The loop leaves the writing to the writer. *)
Lemma body_written h seqnum devid s s' : on_body h seqnum devid s = Done s' → written s' = written s.
Proof.
  unfold on_body. destruct (read_submit _ _ _ _ _) as [[[[u|] vs] r]| |]; [..|done|done]; cbn.
  - destruct (refused endpoints u); intros [= <-]; [done|]. by rewrite enqueue_eq.
  - by intros [= <-].
Qed.

Lemma header_written dev h s s' : on_header dev h s = Done s' → written s' = written s.
Proof.
  unfold on_header. destruct (check_header _ _ _) as [[[[c n] d] vs]| |]; [|done..]. cbn.
  destruct (c =? 1); [|destruct (c =? 2)]; [by intros [= <-]| |by intros [= <-]].
  destruct (read_unlink _ _ _) as [[target vs']| |]; [|done..]. by intros [= <-].
Qed.

(** What the loop does with a header or a body, whatever it holds. *)
Lemma serves_body h seqnum devid s s' told :
  served s told → accounted s → at_stage s ≠ Ended → on_body h seqnum devid s = Done s' →
  ∃ ext, served s' (told ++ ext) ∧ accounted s'.
Proof.
  intros I A Hst. unfold on_body. destruct (read_submit _ _ _ _ _) as [[[[u|] vs] r]| |]; [..|done|done].
  - cbn. destruct (refused endpoints u) as [v|]; intros [= <-].
    + exists [Bye]. split; [|apply accounted_stop]. apply served_stop.
      apply (served_same (push (Event.Submit u) s)); try done. by apply served_push_submit.
    + exists []. rewrite app_nil_r. split.
      * apply (served_same (enqueue u (push (Event.Submit u) s))); [by apply served_submit|..];
          by rewrite ?enqueue_eq.
      * apply (accounted_same (enqueue u (push (Event.Submit u) s))); [by apply accounted_submit|..];
          by rewrite ?enqueue_eq.
  - cbn. intros [= <-]. exists [Bye]. split; [|apply accounted_stop].
    apply served_stop. by apply (served_same s).
Qed.

Lemma serves_header dev h s s' told :
  served s told → accounted s → at_stage s ≠ Ended → on_header dev h s = Done s' →
  ∃ ext, served s' (told ++ ext) ∧ accounted s'.
Proof.
  intros I A Hst. unfold on_header. destruct (check_header _ _ _) as [[[[c n] d] vs]| |]; [|done..].
  cbn. destruct (c =? 1); [|destruct (c =? 2)].
  - intros [= <-]. exists []. rewrite app_nil_r. split; [by apply (served_same s)|].
    by apply (accounted_same s).
  - destruct (read_unlink _ _ _) as [[target vs']| |]; [|done..]. intros [= <-]. eexists. split.
    + apply served_unlink. by apply (served_same s).
    + apply accounted_unlink. by apply (accounted_same s).
  - intros [= <-]. exists [Bye]. split; [|apply accounted_stop]. apply served_stop.
    by apply (served_same s).
Qed.

Lemma step_served dev s s' told :
  served s told → accounted s → step dev s s' → ∃ ext, served s' (told ++ ext) ∧ accounted s'.
Proof.
  intros I A Hs. destruct Hs as [s h r s' Hst _ H|s e r _ _|s h n d s' Hst H|s a j rest Hr Hq
    |s a j Hr Hc|s a j o Hr Ho|s n f _ _|s n f part _ _ _|s n _ _].
  - eapply (serves_header dev h (set_reader r s)); [| |by cbn; rewrite Hst|exact H].
    + by apply (served_same s).
    + by apply (accounted_same s).
  - exists [Bye]. split; [|apply accounted_stop]. apply served_stop. by apply (served_same s).
  - eapply serves_body; [done..|by rewrite Hst|exact H].
  - exists []. rewrite app_nil_r. split; [by apply served_take|by apply (accounted_same s)].
  - exists []. rewrite app_nil_r. split; [|by apply (accounted_same s)].
    eapply served_let_go; [done..|apply Hc].
  - rewrite worker_finish_cases. destruct (pending s !! _) as [k|] eqn:Ep.
    + eexists. split; [by eapply served_reply; eauto|apply accounted_reply; eauto].
    + exists []. rewrite app_nil_r. split; [|by apply (accounted_same s)].
      eapply served_let_go; [done..|by rewrite Ep].
  - exists []. rewrite app_nil_r. split; [by apply (served_same s)|by apply (accounted_same s)].
  - exists []. rewrite app_nil_r. split; [by apply (served_same s)|by apply (accounted_same s)].
  - exists []. rewrite app_nil_r. split; [by apply (served_same s)|by apply (accounted_same s)].
Qed.

Lemma reachable_served dev r s : reachable dev r s → ∃ told, served s told ∧ accounted s.
Proof.
  intros H. assert (accounted (start r)) as A0 by (intros _ _; done).
  pose proof (served_start r) as I0. unfold reachable in H. revert I0 A0. generalize (@nil message).
  induction H as [s|s1 s2 s3 H12 _ IH]; intros told I A; [eauto|].
  destruct (step_served _ _ _ _ I A H12) as (ext & I' & A'). eauto.
Qed.

End Facts.
