(* ===== verification/ServingSpec.v ===== *)
(** * ServingSpec: what the repository's server promises (src/tests/support/server.rs)

    For every client, device and interleaving: a connection resolves each submission at most once,
    forgets none and keeps the order of each endpoint; its loop gives every command an outcome; its
    workers can settle whatever is outstanding; and a device is served to one connection at a time. *)

From stdpp Require Import base tactics option list gmap fin_maps relations sorting.
From S2P Require Import Prelude Wire Protocol ProtocolFacts Server Serving ServingFacts.
Import Conn.

(** ** The loop gives every command an outcome *)

Section Loop.
Context {R : Type} {AR : AsyncRead R} {AL : AsyncReadLaws R} {D : Device}.
Implicit Types s : t (R := R).

Lemma be32_done b i : (i * 4 + 4 ≤ length b)%nat → ∃ v, be32 b i = Done v.
Proof. intros H. unfold be32. rewrite slice_done by lia. by eexists. Qed.

(** Every word of a buffer that is long enough. *)
Ltac take_words :=
  repeat match goal with
  | |- context [be32 ?b ?i] =>
    let E := fresh in destruct (be32_done b i ltac:(lia)) as [? E]; rewrite E; clear E
  end; cbn [mbind outcome_bind].

Lemma iso_of_chunk_done c : length c = 16%nat → ∃ d, iso_of_chunk c = Done d.
Proof.
  intros H. unfold iso_of_chunk. take_words. by eexists.
Qed.

Lemma collect_done {A B} (f : A → outcome B) l :
  Forall (λ x, ∃ y, f x = Done y) l → ∃ k, collect f l = Done k.
Proof.
  induction 1 as [|x l [y Hy] _ [k IH]]; cbn; [by eexists|]. rewrite Hy. cbn. rewrite IH. by eexists.
Qed.

Lemma check_header_done dev pending h : length h = 48%nat → ∃ x, check_header dev pending h = Done x.
Proof.
  intros H. unfold check_header. take_words. by eexists.
Qed.

Lemma read_unlink_done h seqnum vs : length h = 48%nat → ∃ x, read_unlink h seqnum vs = Done x.
Proof.
  intros H. unfold read_unlink. take_words.
  rewrite slice_done by lia. by eexists.
Qed.

Lemma read_submit_done h seqnum devid vs (r : R) :
  length h = 48%nat → ∃ x, read_submit h seqnum devid vs r = Done x.
Proof.
  intros H. unfold read_submit.
  take_words. rewrite slice_done by lia. cbn [mbind outcome_bind].
  case_match; [by eexists|].
  destruct (if negb _ then read_exact _ r else _) as [[data|e] r1]; [|by eexists].
  destruct (1024 <? _); [by eexists|].
  destruct (read_exact _ r1) as [[iso|e] r2] eqn:E; [|by eexists].
  apply read_exact_Ok in E as (Hl & _). destruct (collect_done iso_of_chunk (as_chunks 16 iso)) as [k ->].
  - eapply Forall_impl; [eapply (as_chunks_uniform 16); [lia|exact Hl]|]. apply iso_of_chunk_done.
  - by eexists.
Qed.

Lemma read_submit_seqnum h seqnum devid vs (r : R) u vs' r' :
  read_submit h seqnum devid vs r = Done (Some u, vs', r') → Urb.seqnum u = seqnum.
Proof.
  unfold read_submit. intros H.
  repeat match type of H with
  | (match ?m with Done _ => _ | _ => _ end) = _ => destruct m; [|done..]
  | (_ ← ?m; _) = _ => destruct m; [cbn [mbind outcome_bind] in H|done..]
  end.
  destruct (_ <? _) in H; [done|].
  destruct (if negb _ then read_exact _ r else _) as [[data|e] r1]; [|done].
  destruct (1024 <? _); [done|].
  destruct (read_exact _ r1) as [[iso|e] r2]; [|done].
  destruct (collect _ _); [|done..]. injection H as <- _ _. done.
Qed.

(** A header the loop waits with is a whole one. *)
Definition headed s : Prop := ∀ h n d, at_stage s = AwaitBody h n d → length h = 48%nat.

Lemma step_headed dev s s' : headed s → step dev s s' → headed s'.
Proof.
  intros H Hs. destruct Hs as [s h r s' _ Hr Hh|s e r _ _|s h n d s' _ Hb|s a j rest _ _
    |s a j _ _|s a j o _ _|s n f _ _|s n f part _ _ _|s n _ _]; try done.
  - apply read_exact_Ok in Hr as [Hl _]. unfold on_header in Hh.
    destruct (check_header _ _ _) as [[[[c n] d] vs]| |]; [|done..]. cbn in Hh.
    destruct (c =? 1); [|destruct (c =? 2)].
    + injection Hh as <-. by intros ? ? ? [= <- _ _].
    + destruct (read_unlink _ _ _) as [[target vs']| |]; [|done..]. injection Hh as <-. exact H.
    + by injection Hh as <-.
  - unfold on_body in Hb. destruct (read_submit _ _ _ _ _) as [[[[u|] vs] r]| |]; [..|done|done]; cbn in Hb.
    + destruct (refused endpoints u); by injection Hb as <-.
    + by injection Hb as <-.
  - rewrite worker_finish_cases. by destruct (pending s !! _).
Qed.

Lemma reachable_headed dev r s : reachable dev r s → headed s.
Proof.
  intros H. unfold reachable in H. assert (headed (start r)) as H0 by by intros ? ? ?.
  revert H0. induction H as [|s1 s2 s3 H12 _ IH]; [done|]. eauto using step_headed.
Qed.

(** C29: The loop of the server never panics, whatever bytes a client sends: with a header read it either
    waits for the rest of a CMD_SUBMIT, has answered a CMD_UNLINK, or is over; with the rest read it
    has queued the URB or is over. *)
Theorem loop_total dev r s : reachable dev r s →
  (∀ h r', read_exact 48 (reader s) = (Ok h, r') → ∃ s',
    on_header dev h (set_reader r' s) = Done s' ∧
    ((∃ n d, at_stage s' = AwaitBody h n d) ∨ at_stage s' = Ended ∨
     ∃ n target, at_stage s' = at_stage s ∧
       tx s' = tx s ++ [Some (unlink_reply n (bool_decide (is_Some (pending s !! target))))] ∧
       pending s' = delete target (pending s))) ∧
  (∀ h n d, at_stage s = AwaitBody h n d → ∃ s', on_body h n d s = Done s' ∧
    (at_stage s' = Ended ∨
     ∃ u, at_stage s' = AwaitHeader ∧ refused endpoints u = None ∧ Urb.seqnum u = n ∧
       submissions (events s') = submissions (events s) ++ [u] ∧
       pending s' = <[n := jobs s]> (pending s))).
Proof.
  intros Hr. split.
  - intros h r' [Hl _]%read_exact_Ok. unfold on_header.
    destruct (check_header_done dev ((map_to_list (pending s)).*1) h Hl) as [[[[c n] d] vs] E].
    change (pending (set_reader r' s)) with (pending s). rewrite E. cbn [mbind outcome_bind].
    destruct (c =? 1); [|destruct (c =? 2)].
    + eexists. split; [done|]. left. by exists n, d.
    + destruct (read_unlink_done h n [] Hl) as [[target vs'] ->]. eexists. split; [done|].
      right. right. by exists n, target.
    + eexists. split; [done|]. right. by left.
  - intros h n d Hst. unfold on_body.
    destruct (read_submit_done h n d [] (reader s) (reachable_headed _ _ _ Hr _ _ _ Hst)) as [[[u vs] r'] E].
    rewrite E. cbn [mbind outcome_bind]. destruct u as [u|]; [|eexists; split; [done|]; by left].
    destruct (refused endpoints u) eqn:Ef; [eexists; split; [done|]; by left|].
    eexists. split; [done|]. right. exists u. rewrite enqueue_eq.
    assert (Urb.seqnum u = n) as En by by eapply read_submit_seqnum.
    split; [done|]. split; [done|]. split; [done|]. split; [|by rewrite <- En].
    cbn. unfold submissions. by rewrite omap_reset, omap_snoc.
Qed.

End Loop.

(** ** What a connection has done *)

Section Runs.
Context {R : Type} {AR : AsyncRead R} {D : Device}.
Context (dev : Z).
Implicit Types s : t (R := R).

(** C27: In every run of a connection, for every client and device: what its writer is handed are the
    replies [told]; a submission is completed or unlinked at most once, each unlink is answered as it was
    found, and a reply is to a submitted URB with a result its device may give.  The replies of an
    endpoint come in the order of submission, before those still queued.  Every pending URB has its job,
    and none is forgotten as long as the loop runs and the client does not reuse numbers. *)
Theorem server_serves r s : reachable dev r s → ∃ told,
  tx s = frame_of <$> told ∧
  omap resolves_in told = omap resolved_by (events s) ∧
  omap answers told = omap unlink_of (events s) ∧
  (∀ u o, Reply u o ∈ told → u ∈ submissions (events s) ∧ may_end u o) ∧
  (∀ a, on_endpoint a (omap replied told) ++ (Job.urb <$> held a s)
        `sublist_of` on_endpoint a (submissions (events s))) ∧
  omap resolved_by (events s) ++ keys s ⊆+ Urb.seqnum <$> submissions (events s) ∧
  (∀ seqnum, is_Some (pending s !! seqnum) →
    ∃ a j, j ∈ held a s ∧ Urb.seqnum (Job.urb j) = seqnum) ∧
  (at_stage s ≠ Ended → NoDup (Urb.seqnum <$> submissions (events s)) →
    Urb.seqnum <$> submissions (events s) ≡ₚ omap resolved_by (events s) ++ keys s).
Proof.
  intros (told & I & A)%reachable_served. exists told. pose proof I as [].
  repeat (split; [done|]). split; [|exact A]. intros seqnum [n Hn].
  destruct (sv_pending seqnum n Hn) as (a & j & ? & _ & ?). eauto.
Qed.

(** *** The workers settle what is outstanding *)

Lemma rtc_served s s' told : served s told → accounted s → rtc (step dev) s s' →
  ∃ told', served s' told' ∧ accounted s'.
Proof.
  intros I A H. revert told I A. induction H as [s|s1 s2 s3 H12 _ IH]; intros told I A; [eauto|].
  destruct (step_served _ _ _ _ I A H12) as (ext & I' & A'). eauto.
Qed.

Section Drain.

(** What is asked of the frames the workers send. *)
Context (P : option (list Z) → Prop) (HP : ∀ f, P (Some f)).
Context (Hdev : ∀ u, ∃ o, resolves u o ∧ P (frame_of (Reply u o))).

(** A step that writes nothing to the stream. *)
Definition silent s s' : Prop := step dev s s' ∧ written s' = written s.

Lemma silent_steps s s' : rtc silent s s' → rtc (step dev) s s'.
Proof. apply rtc_subrel. by intros ? ? []. Qed.

(** What the workers leave as it is. *)
Record workers_only s s' : Prop := {
  wo_steps : rtc silent s s';
  wo_reader : reader s' = reader s;
  wo_stage : at_stage s' = at_stage s;
  wo_submissions : submissions (events s') = submissions (events s);
  wo_writer : writer s' = writer s;
  wo_violations : violations s' = violations s;
  wo_tx : Forall P (tx s) → Forall P (tx s');
}.

#[local] Instance workers_only_preorder : PreOrder workers_only.
Proof.
  split; [by constructor|]. intros s1 s2 s3 [] [].
  constructor; [by etrans|congruence..|auto].
Qed.

Lemma take_only s a j rest : running s !! a = None → queues s !! a = Some (j :: rest) →
  workers_only s (take_job a j rest s).
Proof. intros. constructor; try done. apply rtc_once. split; [by constructor|done]. Qed.

Lemma finish_only s a j o : running s !! a = Some j → comes_to j o →
  P (frame_of (Reply (Job.urb j) o)) → workers_only s (finish a j o s).
Proof.
  intros Hr Ho Hf. constructor; [apply rtc_once; split; [by constructor|]|..]; rewrite worker_finish_cases;
    destruct (pending s !! _); try done; cbn.
  - unfold submissions. by rewrite omap_snoc, app_nil_r.
  - intros Hp. apply Forall_app. by rewrite Forall_singleton.
Qed.

Lemma job_ends j : ∃ o, comes_to j o ∧ P (frame_of (Reply (Job.urb j) o)).
Proof.
  unfold comes_to. destruct (Job.future j) as [c|]; [|apply Hdev].
  exists (Outcome.Complete c). split; [done|apply HP].
Qed.

Lemma held_finish a j o s b : running s !! a = Some j →
  held b (finish a j o s) = if decide (a = b) then default [] (queues s !! a) else held b s.
Proof.
  intros Hr. rewrite <- held_let_go, worker_finish_cases. by destruct (pending s !! _).
Qed.

(** One job of an endpoint. *)
Lemma drain_job a j l s : held a s = j :: l → ∃ s', workers_only s s' ∧ held a s' = l ∧
  ∀ b, b ≠ a → held b s' = held b s.
Proof.
  intros Hh. destruct (job_ends j) as (o & Ho & Hf).
  assert (∃ s1, workers_only s s1 ∧ running s1 !! a = Some j ∧ default [] (queues s1 !! a) = l ∧
    ∀ b, held b s1 = held b s) as (s1 & W1 & Hr & Hq & Hb).
  { unfold held in Hh. destruct (running s !! a) as [j'|] eqn:Er; cbn in Hh.
    - injection Hh as -> Hq. by exists s.
    - destruct (queues s !! a) as [q|] eqn:Eq; cbn in Hh; [subst q|done].
      exists (take_job a j l s). split; [by apply take_only|]. cbn.
      rewrite !lookup_insert_eq. split; [done|]. split; [done|]. intros b. by apply held_take_job. }
  exists (finish a j o s1). split; [etrans; [exact W1|by apply finish_only]|].
  split; [by rewrite held_finish, decide_True|]. intros b Hne. rewrite held_finish by done.
  by rewrite decide_False by congruence.
Qed.

Lemma drain_endpoint a s : ∃ s', workers_only s s' ∧ held a s' = [] ∧
  ∀ b, b ≠ a → held b s' = held b s.
Proof.
  remember (held a s) as l eqn:E. revert s E. induction l as [|j l IH]; intros s E.
  - exists s. by split_and!.
  - destruct (drain_job a j l s) as (s1 & W1 & E1 & H1); [done|].
    destruct (IH s1) as (s2 & W2 & E2 & H2); [done|]. exists s2. split; [by etrans|].
    split; [done|]. intros b Hb. by rewrite H2, H1.
Qed.

Lemma drain_endpoints (l : list Z) s : ∃ s', workers_only s s' ∧
  ∀ a, held a s' = [] ∨ a ∉ l ∧ held a s' = held a s.
Proof.
  revert s. induction l as [|a l IH]; intros s.
  { exists s. split; [done|]. intros a. right. split; [by intros ?%elem_of_nil|done]. }
  destruct (drain_endpoint a s) as (s1 & W1 & E1 & H1). destruct (IH s1) as (s2 & W2 & H2).
  exists s2. split; [by etrans|]. intros b. destruct (H2 b) as [|[Hn E]]; [by left|].
  destruct (decide (b = a)) as [->|Hne]; [left; congruence|]. right.
  rewrite not_elem_of_cons. rewrite E. by auto.
Qed.

Lemma drain s : ∃ s', workers_only s s' ∧ ∀ a, held a s' = [].
Proof.
  destruct (drain_endpoints ((map_to_list (queues s)).*1 ++ (map_to_list (running s)).*1) s)
    as (s' & W & H). exists s'. split; [done|]. intros a. destruct (H a) as [|[Hn ->]]; [done|].
  unfold held. rewrite not_elem_of_app in Hn. destruct Hn as [H1 H2].
  rewrite elem_of_keys, <- eq_None_not_Some in H1. rewrite elem_of_keys, <- eq_None_not_Some in H2.
  by rewrite H1, H2.
Qed.

Lemma drained_pending s told : served s told → (∀ a, held a s = []) → pending s = ∅.
Proof.
  intros I H. apply map_empty. intros k. apply eq_None_not_Some. intros [n Hn].
  destruct (sv_pending _ _ I k n Hn) as (a & j & Hj & _). rewrite H in Hj. by apply elem_of_nil in Hj.
Qed.

End Drain.

(** In every state the workers alone can settle what is outstanding: without a byte read, every
    submission is completed or unlinked. *)
Theorem server_drains r s : (∀ u, ∃ o, resolves u o) → reachable dev r s → ∃ s',
  rtc (step dev) s s' ∧ reader s' = reader s ∧ at_stage s' = at_stage s ∧ pending s' = ∅ ∧
  submissions (events s') = submissions (events s) ∧
  (at_stage s ≠ Ended → NoDup (Urb.seqnum <$> submissions (events s)) →
    Urb.seqnum <$> submissions (events s) ≡ₚ omap resolved_by (events s')).
Proof.
  intros Hdev (told & I & A)%reachable_served.
  destruct (drain (λ _, True) (λ _, Logic.I) ltac:(intros u; destruct (Hdev u); eauto) s) as (s' & [] & H).
  apply silent_steps in wo_steps0. destruct (rtc_served _ _ _ I A wo_steps0) as (told' & I' & A').
  pose proof (drained_pending _ _ I' H) as Hp. exists s'. repeat (split; [done|]).
  intros Hst Hnd. unfold accounted, keys in A'. rewrite wo_stage0, wo_submissions0, Hp in A'.
  rewrite map_to_list_empty, app_nil_r in A'. by apply A'.
Qed.

End Runs.

(** ** The request phase *)

Section Door.
Context {R : Type} {AR : AsyncRead R}.

(** C28: In every run of the server's connections a device is served to at most one of them, the list of
    imported devices is that of the devices being served, and another import of one is refused. *)
Theorem device_handed_once (exports : list ExportDev.t) (h : Door.house) :
  Door.reachable (R := R) exports h →
  (∀ i j busid, Door.serving h !! i = Some (Some busid) → Door.serving h !! j = Some (Some busid) → i = j) ∧
  (∀ busid, busid ∈ Door.imported h ↔ Some busid ∈ Door.serving h) ∧
  (∀ busid e, busid ∈ Door.imported h →
     Door.claim (Some e) busid (Door.imported h) = (false, Door.imported h)).
Proof.
  intros [Hp Hnd]%Door.reachable_apart. split; [|split].
  - intros i j b Hi Hj. rewrite Hp in Hnd. by eapply omap_id_inj.
  - intros b. rewrite Hp, list_elem_of_omap. unfold id. split; [by intros (x & Hx & ->)|eauto].
  - intros b e Hb. unfold Door.claim. by rewrite bool_decide_eq_true_2.
Qed.

End Door.

(** ** A connection: a CMD_SUBMIT that completes *)

Import Reference.

Module Echo.

(** A bulk endpoint in each direction; reads come to three bytes, writes are taken whole. *)
Definition answer (u : Urb.t) : Outcome.t :=
  Outcome.Complete
    (if Urb.is_in u then completion_ok (take (Z.to_nat (Urb.length u)) [9; 8; 7])
     else completion_written (Urb.length u)).

#[export] Instance device : Device := {|
  endpoints := [(0x81, 2); (0x02, 2)];
  resolves u o := o = answer u;
|}.

Lemma always_answers u : ∃ o, resolves u o.
Proof. by exists (answer u). Qed.

Definition stream : pipe := CmdSubmit.encode Samples.submit [].

Definition get (d : t (R := pipe)) (m : outcome (t (R := pipe))) : t :=
  match m with Done s => s | _ => d end.

Definition dev : Z := ExportDev.devid Samples.export.

Definition s0 : t := start stream.
Definition s1 : t := get s0 (on_header dev (take 48 stream) (set_reader (drop 48 stream) s0)).
Definition s2 : t := get s1 (on_body (take 48 stream) 7 dev s1).
Definition job : Job.t := Job.mk (match events s2 with [Event.Submit u] => u | _ => Samples.in_urb end) Submitted 0.
Definition s3 : t := take_job 1 job [] s2.

Lemma reachable_s1 : reachable dev stream s1.
Proof.
  apply rtc_once. eapply (step_header _ _ (take 48 stream) (drop 48 stream)); vm_compute; reflexivity.
Qed.

Lemma reachable_s3 : reachable dev stream s3.
Proof.
  eapply rtc_r; [eapply rtc_r; [exact reachable_s1|]|].
  - eapply (step_body _ _ (take 48 stream) 7 dev s2); vm_compute; reflexivity.
  - apply (step_take _ s2 1 job []); vm_compute; reflexivity.
Qed.

(** OP_REQ_IMPORT of "1-2". *)
Definition knock : pipe := [1; 17; 128; 3; 0; 0; 0; 0; 0x31; 0x2d; 0x32] ++ replicate 29 0.

Definition occupied : Door.house := Door.mk_house [[0x31; 0x2d; 0x32]] [Some [0x31; 0x2d; 0x32]] 1.

Lemma reachable_occupied : Door.reachable (R := pipe) [Samples.export] occupied.
Proof.
  apply rtc_once. pose (x := Door.serve [Samples.export] [] knock).
  destruct x as [[[[[a i] es] vs] r]| |] eqn:E; [|revert E; vm_compute; congruence..].
  assert (occupied = Door.mk_house i ([] ++ [match a with Door.Hand e _ => Some (ExportDev.busid e) | _ => None end]) 1)
    as -> by (revert E; vm_compute; by intros [= <- <- _ _ _]).
  by apply (Door.step_open [Samples.export] (Door.mk_house [] [] 0) knock a i es vs r).
Qed.

End Echo.

Import Echo.

Lemma loop_total_witness :
  ∃ s', on_body (take 48 Echo.stream) 7 Echo.dev Echo.s1 = Done s' ∧ at_stage Echo.s1 ≠ Ended.
Proof.
  destruct (loop_total _ _ _ Echo.reachable_s1) as [_ H].
  destruct (H (take 48 Echo.stream) 7 Echo.dev) as (s' & E & _); [vm_compute; reflexivity|].
  exists s'. split; [exact E|]. vm_compute. congruence.
Defined.

Lemma server_serves_witness : ∃ a j, j ∈ held a Echo.s3 ∧ Urb.seqnum (Job.urb j) = 7.
Proof.
  destruct (server_serves _ _ _ Echo.reachable_s3) as (told & _ & _ & _ & _ & _ & _ & H & _).
  apply (H 7). vm_compute. eauto.
Defined.

Lemma server_drains_witness : ∃ s', rtc (step Echo.dev) Echo.s3 s' ∧ pending s' = ∅ ∧
  [7] ≡ₚ omap resolved_by (events s').
Proof.
  destruct (server_drains Echo.dev _ _ Echo.always_answers Echo.reachable_s3)
    as (s' & H & _ & _ & Hp & _ & Ha). exists s'. split; [exact H|]. split; [exact Hp|].
  apply Ha; [vm_compute; congruence|]. apply (bool_decide_unpack _). vm_compute. exact I.
Defined.

Lemma device_handed_once_witness :
  Door.claim (Some Samples.export) [0x31; 0x2d; 0x32] (Door.imported Echo.occupied)
  = (false, Door.imported Echo.occupied).
Proof.
  destruct (device_handed_once _ _ Echo.reachable_occupied) as (_ & _ & H). apply H. vm_compute. left.
Defined.
