(* ===== verification/Codec.v ===== *)
(** * Codec: what the client's codec promises (src/src/protocol.rs)

    The readers on arbitrary input: they return whatever the server sends, and what they accept is
    within the bounds the client asked for.  Requests against the server's reading of them, and the
    unpacking of isochronous data as a function on positions. *)

From stdpp Require Import base tactics option list.
From S2P Require Import Prelude Wire Protocol ProtocolFacts Server.

Section Totality.
Context {B : BytesCrate} {BL : BytesLaws B}.
Context {R : Type} {AR : AsyncRead R} {AL : AsyncReadLaws R}.

(** Reading a device list returns whatever the server sends: it never panics.  An accepted list has
    at most [MAX_EXPORTED_DEVICES] devices, each with the interfaces it announced; an error is the
    I/O error of a stream that ended, a wrong reply code, a non-zero status or too large a count. *)
Theorem devlist_reply_total r :
  ∃ x r', read_devlist_reply r = Done (x, r') ∧
    match x with
    | Ok l => Z.of_nat (length l) ≤ MAX_EXPORTED_DEVICES ∧
        Forall (λ d, length (ExportedDevice.interfaces d)
                     = Z.to_nat (ExportedDevice.num_interfaces d)) l
    | Err (Io _) => True
    | Err (UnexpectedReply e a) => e = OP_REP_DEVLIST ∧ a ≠ OP_REP_DEVLIST
    | Err (Status s) => s ≠ 0
    | Err (Invalid (DeviceCount n)) => MAX_EXPORTED_DEVICES < n
    | Err _ => False
    end.
Proof. apply read_devlist_reply_post. Qed.

(** C30: Reading a URB reply returns whatever the server sends.  The header's fields have their widths and
    at most [MAX_ISO_PACKETS] packets.  The payload reader then returns too: a reply longer than what
    was asked for is refused before anything is read; otherwise the result repeats the header, holds
    exactly [actual_length] bytes of data for an IN transfer and none for an OUT transfer, has as many
    descriptors as announced, and exactly that much of the stream is consumed. *)
Theorem urb_reply_total r data_expected max_length :
  ∃ x r1, read_reply_header r = Done (x, r1) ∧
    match x with
    | Ok (Reply.Submit seqnum status actual_length start_frame n error_count as h) =>
      header_ok h ∧ length (incoming r) = (URB_HEADER_SIZE + length (incoming r1))%nat ∧
      ∃ y r2, read_submit_payload h data_expected max_length r1 = Done (y, r2) ∧
        match y with
        | Ok ret => payload_ok seqnum status actual_length start_frame n error_count data_expected
                      max_length (incoming r1) (incoming r2) ret
        | Err (Io _) => actual_length ≤ max_length
        | Err (Invalid (ActualLength s a m)) =>
            s = seqnum ∧ a = actual_length ∧ m = max_length ∧ max_length < actual_length
        | Err _ => False
        end
    | Ok (Reply.Unlink u as h) => header_ok h
    | Err (Io _) => (length (incoming r) < URB_HEADER_SIZE)%nat
    | Err (UnexpectedCommand c) => c ≠ USBIP_RET_SUBMIT ∧ c ≠ USBIP_RET_UNLINK
    | Err (Invalid (NumberOfPackets n)) => MAX_ISO_PACKETS < n
    | Err _ => False
    end.
Proof.
  destruct (read_reply_header_post r) as (x & r1 & E & Hx). exists x, r1. split; [done|].
  destruct x as [[seqnum status actual start n ec|u]|e].
  - destruct Hx as (Hok & buf & Hl & Hin & _). split; [done|].
    split; [by rewrite Hin, length_app, Hl|].
    destruct Hok as (_ & _ & [Ha _] & _ & [Hn _] & _). by apply read_submit_payload_post.
  - by destruct Hx as [Hok _].
  - by destruct e.
Qed.

(** The only bound on a reply's length is the length asked for: [MAX_TRANSFER_LENGTH], documented as the
    most the client is willing to buffer, plays no part. *)
Lemma long_reply_accepted r n :
  MAX_TRANSFER_LENGTH < n → (Z.to_nat n ≤ length (incoming r))%nat →
  ∃ ret r', read_submit_payload (Reply.Submit 1 0 n 0 0 0) true n r = Done (Ok ret, r') ∧
    Z.of_nat (length (RetSubmit.data ret)) = n.
Proof.
  intros Hn Hr. unfold MAX_TRANSFER_LENGTH in Hn.
  destruct (read_submit_payload_post 1 0 n 0 0 0 true n r ltac:(lia) ltac:(lia))
    as (x & r' & E & Hx).
  destruct x as [ret|e]; [exists ret, r'; split; [done|apply Hx]|].
  exfalso. revert E. unfold read_submit_payload. rewrite Z.ltb_irrefl. unfold rd_bind, mbind, rd_io.
  rewrite (proj2 (Z.ltb_lt 0 n)) by lia. cbn [andb].
  destruct (read_exact_enough _ _ Hr) as (r2 & -> & _). done.
Qed.

Lemma import_request_cases busid :
  ∃ x, encode_import_request busid = Done x ∧
    match x with
    | Ok req => (length busid < BUSID_SIZE)%nat ∧ 0 ∉ busid ∧
        length req = (OP_HEADER_SIZE + BUSID_SIZE)%nat ∧
        field 2 0 req = USBIP_VERSION ∧ field 2 2 req = OP_REQ_IMPORT ∧ field 4 4 req = 0 ∧
        (Utf8.valid busid → c_string (drop 8 req) = busid)
    | Err e => e = Invalid (InvalidBusid busid) ∧
        ((BUSID_SIZE ≤ length busid)%nat ∨ 0 ∈ busid)
    end.
Proof.
  unfold encode_import_request. rewrite slice_put_u16_spec.
  change (OP_HEADER_SIZE + BUSID_SIZE)%nat with (length (be_bytes 2 USBIP_VERSION) + 38)%nat.
  rewrite fill_front_zeros. cbn [mbind outcome_bind]. rewrite slice_put_u16_spec.
  change 38%nat with (length (be_bytes 2 OP_REQ_IMPORT) + 36)%nat.
  rewrite fill_front_zeros. cbn [mbind outcome_bind]. rewrite slice_put_u32_spec.
  change 36%nat with (length (be_bytes 4 0) + 32)%nat.
  rewrite fill_front_zeros. cbn [mbind outcome_bind].
  destruct (decide ((length busid < BUSID_SIZE)%nat ∧ 0 ∉ busid)) as [[Hl Hz]|Hno].
  - rewrite encode_busid_ok by done.
    set (id := busid ++ replicate (BUSID_SIZE - length busid) 0).
    assert (length id = 32%nat) as Hid.
    { unfold id, BUSID_SIZE in *. rewrite length_app, length_replicate. lia. }
    rewrite slice_put_slice_spec. replace 32%nat with (length id + 0)%nat by lia.
    rewrite fill_front_zeros. eexists. split; [done|]. cbn [fst snd replicate]. rewrite app_nil_r.
    do 2 (split; [done|]).
    split; [rewrite !length_app, !length_be_bytes, Hid; done|].
    split; [by cbn [app]; rewrite <- !app_assoc, field_here|].
    split; [cbn [app]; rewrite <- !app_assoc, field_skip, field_here by (rewrite length_be_bytes; lia); done|].
    split.
    { cbn [app]. rewrite <- !app_assoc, !field_skip by (rewrite !length_be_bytes; lia).
      rewrite !length_be_bytes. by rewrite field_here. }
    intros Hv. rewrite drop_app_length' by (rewrite !length_app, !length_be_bytes; done).
    by apply c_string_padded.
  - assert (encode_busid busid = Err (Invalid (InvalidBusid busid)) ∧
      ((BUSID_SIZE ≤ length busid)%nat ∨ 0 ∈ busid)) as [-> Hbad].
    { destruct (decide (0 ∈ busid)) as [Hin|Hin].
      - split; [|by right]. unfold encode_busid.
        destruct (existsb (λ b, b =? 0) busid) eqn:E; [by rewrite orb_true_r|].
        by apply existsb_zero in E.
      - assert (BUSID_SIZE ≤ length busid)%nat as Hl by (destruct (decide (length busid < BUSID_SIZE)%nat); [naive_solver|lia]).
        split; [|by left]. unfold encode_busid. by rewrite (proj2 (Nat.leb_le _ _)). }
    eexists. split; [done|]. done.
Qed.

(** An import request is built exactly for the bus ids that fit in the record with a terminator and
    hold no zero byte; it carries version, code and status, and the server reads back the bus id. *)
Theorem import_request_roundtrip busid :
  ∃ x, encode_import_request busid = Done x ∧
    match x with
    | Ok req => (length busid < BUSID_SIZE)%nat ∧ 0 ∉ busid ∧
        length req = (OP_HEADER_SIZE + BUSID_SIZE)%nat ∧
        field 2 0 req = USBIP_VERSION ∧ field 2 2 req = OP_REQ_IMPORT ∧ field 4 4 req = 0 ∧
        (Utf8.valid busid → c_string (drop 8 req) = busid)
    | Err e => e = Invalid (InvalidBusid busid) ∧
        ((BUSID_SIZE ≤ length busid)%nat ∨ 0 ∈ busid)
    end.
Proof. apply import_request_cases. Qed.

End Totality.

(** C39: Unpacking isochronous IN data succeeds exactly when the packed data holds all the packets and
    each fits the buffer; it then fills a buffer of the requested length in which byte [k] of packet
    [i] is byte [k] behind the packets before [i] (when packets do not overlap), and every byte
    outside the packets is zero. *)
Theorem unpack_iso_in_spec packed packets n :
  match unpack_iso_in packed packets n with
  | None => (length packed < packed_total packets)%nat ∨ ¬ Forall (fits_buffer n) packets
  | Some out =>
    (packed_total packets ≤ length packed)%nat ∧ Forall (fits_buffer n) packets ∧
    length out = n ∧
    (∀ j, (j < n)%nat → Forall (λ p, ¬ covers p j) packets → out !! j = Some 0) ∧
    (packets_disjoint packets → ∀ i p k, packets !! i = Some p →
       (k < Z.to_nat (IsoPacketDescriptor.actual_length p))%nat →
       out !! (Z.to_nat (IsoPacketDescriptor.offset p) + k)%nat
       = packed !! (packed_at packets i + k)%nat)
  end.
Proof.
  unfold unpack_iso_in.
  pose proof (unpack_packets_is_Some packed packets (replicate n 0) 0 ltac:(lia)) as Hs.
  rewrite length_replicate in Hs.
  destruct (unpack_packets packed packets (replicate n 0) 0) as [out|] eqn:E.
  - destruct (proj1 Hs ltac:(eauto)) as [Ht Hf]. do 2 (split; [done|]).
    split; [by rewrite (unpack_packets_length _ _ _ _ _ E), length_replicate|].
    split.
    + intros j Hj Hc. rewrite (unpack_packets_untouched _ _ _ _ _ _ E Hc).
      by apply lookup_replicate_2.
    + intros Hd i p k Hi Hk. by rewrite (unpack_packets_content _ _ _ _ _ _ _ _ E Hd Hi Hk).
  - destruct (decide (packed_total packets ≤ length packed)%nat) as [Ht|Ht]; [right|left; lia].
    intros Hf. destruct Hs as [_ Hs]. by destruct (Hs (conj Ht Hf)).
Qed.

Import Reference.

Lemma devlist_reply_total_witness :
  ∃ x r', read_devlist_reply (R := pipe) [1; 17; 0; 5; 0; 0; 0; 0; 0; 0; 16; 1] = Done (x, r').
Proof.
  destruct (devlist_reply_total (R := pipe) [1; 17; 0; 5; 0; 0; 0; 0; 0; 0; 16; 1])
    as (x & r' & E & _). by exists x, r'.
Defined.

Lemma urb_reply_total_witness :
  ∃ x r', read_reply_header (R := pipe) [0; 0; 0; 3] = Done (x, r').
Proof.
  destruct (urb_reply_total (R := pipe) [0; 0; 0; 3] true 64) as (x & r' & E & _). by exists x, r'.
Defined.

Lemma import_request_roundtrip_witness :
  ∃ x, encode_import_request [0x31; 0x2d; 0x31] = Done x.
Proof.
  destruct (import_request_roundtrip [0x31; 0x2d; 0x31]) as (x & E & _). by exists x.
Defined.
