(* ===== verification/Session.v ===== *)
(** * Session: an imported device over one connection (src/src/client.rs)

    [Shared.t] is the state behind the session's mutex together with its channels: [frames] is what
    has been handed to the writer task, [replies] what has been sent on the reply channels
    (channel [n] is the [n]-th oneshot created), [closed_tx] the watch channel.  Each locked region
    of the code is one function on it.  The tasks interleave: [read_one] is split where it awaits
    the payload, and [System] runs the pieces as a step relation.  The text of a closing reason is
    represented by what it is formatted from. *)

From stdpp Require Import base tactics option list gmap fin_maps.
From S2P Require Import Prelude Wire Protocol.

(** The texts of [TransferError::Disconnected]: why a session was closed, or (in the engine) that a
    device reset took too long. *)
Inductive reason : Type :=
| ClosedByClient
| WriteFailed (e : io_error)
| ServerClosed
| ProtocolFailed (e : ProtocolError)
| DeviceResetTimedOut.

#[export] Instance reason_eq_dec : EqDecision reason.
Proof. solve_decision. Defined.

Module SubmitRequest.

Record t : Type := mk {
  ep : Z;
  direction : Direction.t;
  transfer_flags : Z;
  length : Z;
  setup : list Z;
  data : list Z;
  start_frame : Z;
  interval : Z;
  iso_packets : list IsoPacketDescriptor.t;
}.

Definition new (ep : Z) (direction : Direction.t) (length : Z) : t :=
  mk ep direction 0 length (replicate 8 0) [] 0 0 [].

End SubmitRequest.

(** The messages of [TransferError::Invalid], by their arguments. *)
Inductive invalid_request : Type :=
| OutDataLength (data length : Z)
| InCarriesData
| DeviceResetFailed (status : Z).

Inductive TransferError : Type :=
| Unlinked (status : Z)
| Disconnected (r : reason)
| InvalidRequest (m : invalid_request).

#[export] Instance invalid_request_eq_dec : EqDecision invalid_request.
Proof. solve_decision. Defined.
#[export] Instance TransferError_eq_dec : EqDecision TransferError.
Proof. solve_decision. Defined.

Definition TransferResult : Type := result TransferError RetSubmit.t.

(** A oneshot channel, by its number. *)
Notation chan := nat (only parsing).

Module PendingSubmit.

Record t : Type := mk { direction : Direction.t; length : Z; reply : chan }.

#[global] Instance eq_dec : EqDecision t.
Proof. solve_decision. Defined.

End PendingSubmit.

Module State.

Record t : Type := mk {
  next_seqnum : Z;
  submits : gmap Z PendingSubmit.t;
  unlinks : gmap Z Z;
  unlinked : list (Z * Direction.t * Z);
  closed : option reason;
}.

Definition default : t := mk 0 ∅ ∅ [] None.

Definition set_next (n : Z) (s : t) : t := mk n (submits s) (unlinks s) (unlinked s) (closed s).
Definition set_submits (m : gmap Z PendingSubmit.t) (s : t) : t :=
  mk (next_seqnum s) m (unlinks s) (unlinked s) (closed s).
Definition set_unlinks (m : gmap Z Z) (s : t) : t :=
  mk (next_seqnum s) (submits s) m (unlinked s) (closed s).
Definition set_unlinked (l : list (Z * Direction.t * Z)) (s : t) : t :=
  mk (next_seqnum s) (submits s) (unlinks s) l (closed s).
Definition set_closed (r : option reason) (s : t) : t :=
  mk (next_seqnum s) (submits s) (unlinks s) (unlinked s) r.

End State.

Module Shared.

Record t : Type := mk {
  devid : Z;
  state : State.t;
  frames : list (list Z);
  channels : nat;
  replies : list (chan * TransferResult);
  closed_tx : option reason;
}.

Definition set_state (s : State.t) (sh : t) : t :=
  mk (devid sh) s (frames sh) (channels sh) (replies sh) (closed_tx sh).

(** [frames.send(frame)], whose failure is ignored *)
Definition send_frame (f : list Z) (sh : t) : t :=
  mk (devid sh) (state sh) (frames sh ++ [f]) (channels sh) (replies sh) (closed_tx sh).

(** [oneshot::channel()] *)
Definition channel (sh : t) : chan * t :=
  (channels sh, mk (devid sh) (state sh) (frames sh) (S (channels sh)) (replies sh) (closed_tx sh)).

(** [p.reply.send(result)] *)
Definition send_reply (c : chan) (r : TransferResult) (sh : t) : t :=
  mk (devid sh) (state sh) (frames sh) (channels sh) (replies sh ++ [(c, r)]) (closed_tx sh).

Definition set_closed_tx (r : reason) (sh : t) : t :=
  mk (devid sh) (state sh) (frames sh) (channels sh) (replies sh) (Some r).

(** The pending replies are drained in the map's order, which Rust leaves unspecified; each goes to
    its own channel. *)
Definition close (reason : reason) (sh : t) : t :=
  match State.closed (state sh) with
  | Some _ => sh
  | None =>
    let pending := State.submits (state sh) in
    let sh := set_state (State.set_submits ∅ (State.set_unlinks ∅
                (State.set_closed (Some reason) (state sh)))) sh in
    let sh := foldl (λ sh p, send_reply (PendingSubmit.reply p.2) (Err (Disconnected reason)) sh)
                sh (map_to_list pending) in
    set_closed_tx reason sh
  end.

End Shared.

(** [Session::start]: the tasks it spawns are the steps of [System]. *)
Definition start (device : ExportedDevice.t) : Shared.t :=
  Shared.mk (ExportedDevice.devid device) State.default [] 0 [] None.

(** ** Sequence numbers *)

(** [u32::wrapping_add(1)] *)
Definition wrapping_inc (x : Z) : Z := wrap 32 (x + 1).

Fixpoint next_seqnum_loop (fuel : nat) (state : State.t) : outcome (Z * State.t) :=
  match fuel with
  | O => OutOfFuel
  | S fuel =>
    let state := State.set_next (wrapping_inc (State.next_seqnum state)) state in
    let s := State.next_seqnum state in
    if negb (s =? 0) && negb (bool_decide (is_Some (State.submits state !! s)))
       && negb (bool_decide (is_Some (State.unlinks state !! s)))
    then Done (s, state)
    else next_seqnum_loop fuel state
  end.

(** Enough turns for every number in use and for 0 to be skipped. *)
Definition next_seqnum (state : State.t) : outcome (Z * State.t) :=
  next_seqnum_loop (S (S (size (State.submits state) + size (State.unlinks state)))) state.

(** ** Operations of the session's clones *)

(** The command [submit] builds. *)
Definition cmd_of (devid seqnum : Z) (req : SubmitRequest.t) : CmdSubmit.t :=
  CmdSubmit.mk seqnum devid (Direction.as_u32 (SubmitRequest.direction req))
    (Z.land (SubmitRequest.ep req) 0x0f) (SubmitRequest.transfer_flags req)
    (SubmitRequest.length req) (SubmitRequest.start_frame req) (SubmitRequest.interval req)
    (SubmitRequest.setup req) (SubmitRequest.data req) (SubmitRequest.iso_packets req).

Section Operations.
Context `{B : BytesCrate}.

Definition submit (req : SubmitRequest.t) (sh : Shared.t) :
    outcome (result TransferError (Z * chan) * Shared.t) :=
  if bool_decide (SubmitRequest.direction req = Direction.Out)
     && negb (Z.of_nat (length (SubmitRequest.data req)) =? SubmitRequest.length req) then
    Done (Err (InvalidRequest (OutDataLength (Z.of_nat (length (SubmitRequest.data req)))
                                 (SubmitRequest.length req))), sh)
  else if bool_decide (SubmitRequest.direction req = Direction.In)
          && negb (length (SubmitRequest.data req) =? 0)%nat then
    Done (Err (InvalidRequest InCarriesData), sh)
  else
    let '(tx, sh) := Shared.channel sh in
    match State.closed (Shared.state sh) with
    | Some reason => Done (Err (Disconnected reason), sh)
    | None =>
      '(seqnum, state) ← next_seqnum (Shared.state sh);
      let frame := CmdSubmit.encode (cmd_of (Shared.devid sh) seqnum req) [] in
      let state := State.set_submits
                     (<[seqnum := PendingSubmit.mk (SubmitRequest.direction req)
                                    (SubmitRequest.length req) tx]> (State.submits state)) state in
      let sh := Shared.send_frame frame (Shared.set_state state sh) in
      Done (Ok (seqnum, tx), sh)
    end.

Definition unlink (target : Z) (sh : Shared.t) : outcome Shared.t :=
  let state := Shared.state sh in
  if bool_decide (is_Some (State.closed state))
     || negb (bool_decide (is_Some (State.submits state !! target)))
     || existsb (λ e, e.2 =? target) (map_to_list (State.unlinks state))
  then Done sh
  else
    '(seqnum, state) ← next_seqnum state;
    let state := State.set_unlinks (<[seqnum := target]> (State.unlinks state)) state in
    let frame := CmdUnlink.encode (CmdUnlink.mk seqnum (Shared.devid sh) target) [] in
    Done (Shared.send_frame frame (Shared.set_state state sh)).

(** The loop of [unlink_all] over the keys it collected, in the map's order. *)
Fixpoint unlink_each (targets : list Z) (sh : Shared.t) : outcome Shared.t :=
  match targets with
  | [] => Done sh
  | target :: targets => sh ← unlink target sh; unlink_each targets sh
  end.

Definition unlink_all (sh : Shared.t) : outcome Shared.t :=
  unlink_each ((map_to_list (State.submits (Shared.state sh))).*1) sh.

End Operations.

Definition pending (sh : Shared.t) : nat := size (State.submits (Shared.state sh)).

Definition is_closed (sh : Shared.t) : bool :=
  bool_decide (is_Some (State.closed (Shared.state sh))).

(** [closed()]: [None] while it still waits. *)
Definition closed (sh : Shared.t) : option reason := Shared.closed_tx sh.

Definition close (sh : Shared.t) : Shared.t := Shared.close ClosedByClient sh.

(** ** The reader *)

(** What [read_one] needs of the request a RET_SUBMIT answers. *)
Definition lookup_request (seqnum : Z) (sh : Shared.t) : result ProtocolError (Direction.t * Z) :=
  let state := Shared.state sh in
  let unlinked := find_first (λ u, u.1.1 =? seqnum) (State.unlinked state) in
  match State.submits state !! seqnum, unlinked with
  | Some p, _ => Ok (PendingSubmit.direction p, PendingSubmit.length p)
  | None, Some (_, direction, length) => Ok (direction, length)
  | None, None => Err (Invalid (UnknownSeqnum seqnum))
  end.

(** The locked region after the payload, and the reply. *)
Definition deliver (seqnum : Z) (ret : RetSubmit.t) (sh : Shared.t) : Shared.t :=
  let state := Shared.state sh in
  let state := State.set_unlinks (base.filter (λ e, e.2 ≠ seqnum) (State.unlinks state)) state in
  let state := State.set_unlinked (base.filter (λ u, u.1.1 ≠ seqnum) (State.unlinked state)) state in
  let pending := State.submits state !! seqnum in
  let state := State.set_submits (delete seqnum (State.submits state)) state in
  let sh := Shared.set_state state sh in
  match pending with
  | Some p => Shared.send_reply (PendingSubmit.reply p) (Ok ret) sh
  | None => sh
  end.

(** [if unlinked.len() == 256 { unlinked.pop_front() } unlinked.push_back(u)] *)
Definition push_unlinked (u : Z * Direction.t * Z) (l : list (Z * Direction.t * Z)) :
    list (Z * Direction.t * Z) :=
  (if (length l =? 256)%nat then tail l else l) ++ [u].

(** The [Reply::Unlink] arm. *)
Definition on_unlink (ret : RetUnlink.t) (sh : Shared.t) : Shared.t :=
  let state := Shared.state sh in
  let target := State.unlinks state !! RetUnlink.seqnum ret in
  let state := State.set_unlinks (delete (RetUnlink.seqnum ret) (State.unlinks state)) state in
  match target with
  | None => Shared.set_state state sh
  | Some target =>
    match State.submits state !! target with
    | None => Shared.set_state state sh
    | Some p =>
      let state := State.set_submits (delete target (State.submits state)) state in
      let state := State.set_unlinked
                     (push_unlinked (target, PendingSubmit.direction p, PendingSubmit.length p)
                        (State.unlinked state)) state in
      Shared.send_reply (PendingSubmit.reply p) (Err (Unlinked (RetUnlink.status ret)))
        (Shared.set_state state sh)
    end
  end.

Definition seqnum_of (h : Reply.t) : Z :=
  match h with
  | Reply.Submit seqnum _ _ _ _ _ => seqnum
  | Reply.Unlink ret => RetUnlink.seqnum ret
  end.

(** The reason the reader closes the session with. *)
Definition read_reason (e : ProtocolError) : reason :=
  match e with
  | Io UnexpectedEof => ServerClosed
  | e => ProtocolFailed e
  end.

Section Reader.
Context `{B : BytesCrate} {R : Type} `{AR : AsyncRead R}.

(** [between]: what the other holders of the session do while the payload is awaited. *)
Definition read_one (between : Shared.t → Shared.t) (sh : Shared.t) (reader : R) :
    outcome (result ProtocolError () * Shared.t * R) :=
  match read_reply_header reader with
  | Panic => Panic
  | OutOfFuel => OutOfFuel
  | Done (Err e, reader) => Done (Err e, sh, reader)
  | Done (Ok (Reply.Submit seqnum _ _ _ _ _ as header), reader) =>
    match lookup_request seqnum sh with
    | Err e => Done (Err e, sh, reader)
    | Ok (direction, length) =>
      '(payload, reader) ← read_submit_payload header (bool_decide (direction = Direction.In))
                             length reader;
      match payload with
      | Err e => Done (Err e, between sh, reader)
      | Ok ret => Done (Ok tt, deliver seqnum ret (between sh), reader)
      end
    end
  | Done (Ok (Reply.Unlink ret), reader) => Done (Ok tt, on_unlink ret sh, reader)
  end.

End Reader.

(** ** The writer *)

Definition BATCH_LIMIT : nat := 256 * 1024.

(** [while batch.len() < 256 * 1024 { match frames.try_recv() { ... } }]: [ready] of the queued
    frames are there when [try_recv] is called. *)
Fixpoint fill_batch (ready : nat) (batch : list Z) (frames : list (list Z)) :
    list Z * list (list Z) :=
  match ready, frames with
  | S ready, f :: frames' =>
    if (length batch <? BATCH_LIMIT)%nat then fill_batch ready (batch ++ f) frames'
    else (batch, frames)
  | _, _ => (batch, frames)
  end.

(** One turn of [write_loop]: the batch to write and the frames left in the queue; [None] when it
    waits. *)
Definition next_batch (ready : nat) (frames : list (list Z)) : option (list Z * list (list Z)) :=
  match frames with
  | [] => None
  | frame :: frames => Some (fill_batch ready frame frames)
  end.

(** ** Listing and importing devices *)

Section Client.
Context `{B : BytesCrate} {R : Type} `{AR : AsyncRead R} `{AW : AsyncWrite R}.

(** [stream.write_all(bytes).await?] *)
Definition write_request (bytes : list Z) : rd R () := rd_io (write_all bytes).

Definition list_devices : rd R (list ExportedDevice.t) :=
  request ← rd_pure encode_devlist_request;
  _ ← write_request request;
  read_devlist_reply.

Definition import (busid : list Z) : rd R (ExportedDevice.t * Shared.t) :=
  request ← rd_pure (encode_import_request busid);
  match request with
  | Err e => rd_err e
  | Ok request =>
    _ ← write_request request;
    device ← read_import_reply;
    if negb (bool_decide (ExportedDevice.busid device = busid)) then
      rd_err (Invalid (ImportedBusid (ExportedDevice.busid device) busid))
    else mret (device, start device)
  end.

End Client.
