(* ===== verification/SessionFacts.v ===== *)
(** * SessionFacts: the session's operations (src/src/client.rs)

    Sequence numbers never run out while fewer than 2^32 - 2 requests are outstanding and are always
    free; the functional behaviour of each operation; and the invariant [ok] of the shared state,
    which every operation preserves. *)

From stdpp Require Import base tactics option list gmap fin_maps fin_sets sorting.
From S2P Require Import Prelude Wire Protocol ProtocolFacts Session.

(** ** Sequence numbers *)

Definition in_use (state : State.t) (s : Z) : Prop :=
  s = 0 ∨ is_Some (State.submits state !! s) ∨ is_Some (State.unlinks state !! s).

#[local] Instance in_use_dec state s : Decision (in_use state s).
Proof. unfold in_use. apply _. Defined.

Lemma free_seqnum state s :
  negb (s =? 0) && negb (bool_decide (is_Some (State.submits state !! s)))
    && negb (bool_decide (is_Some (State.unlinks state !! s))) = true ↔ ¬ in_use state s.
Proof.
  unfold in_use. rewrite !andb_true_iff, !negb_true_iff, !bool_decide_eq_false, Z.eqb_neq. tauto.
Qed.

(** The numbers the loop tries: the ones that follow the last. *)
Lemma wrapping_inc_iter x k : wrap 32 (wrapping_inc x + k) = wrap 32 (x + (k + 1)).
Proof.
  unfold wrapping_inc, wrap. rewrite Zplus_mod_idemp_l. f_equal. lia.
Qed.

Lemma next_seqnum_loop_Done fuel state s state' :
  next_seqnum_loop fuel state = Done (s, state') →
  state' = State.set_next s state ∧ ¬ in_use state s ∧ is_u 32 s.
Proof.
  revert state. induction fuel as [|fuel IH]; intros state; [done|]. cbn [next_seqnum_loop].
  set (st := State.set_next _ state).
  destruct (negb _ && _ && _) eqn:E.
  - apply free_seqnum in E. intros [= <- <-]. split; [done|]. split; [exact E|].
    apply wrap_is_u. lia.
  - intros (-> & Hn & Hu)%IH. done.
Qed.

Lemma next_seqnum_loop_stuck fuel state :
  next_seqnum_loop fuel state = OutOfFuel →
  ∀ k, 1 ≤ k ≤ Z.of_nat fuel → in_use state (wrap 32 (State.next_seqnum state + k)).
Proof.
  revert state. induction fuel as [|fuel IH]; intros state; [lia|]. cbn [next_seqnum_loop].
  set (st := State.set_next _ state).
  destruct (negb _ && _ && _) eqn:E; [done|]. intros Hs k Hk.
  destruct (decide (k = 1)) as [->|].
  - change (wrap 32 (State.next_seqnum state + 1)) with (State.next_seqnum st).
    destruct (decide (in_use st (State.next_seqnum st))) as [H|H]; [exact H|].
    apply free_seqnum in H. congruence.
  - specialize (IH st Hs (k - 1) ltac:(lia)). change (State.next_seqnum st) with
      (wrapping_inc (State.next_seqnum state)) in IH.
    rewrite wrapping_inc_iter in IH. by replace (k - 1 + 1) with k in IH by lia.
Qed.

Lemma next_seqnum_loop_no_panic fuel state : next_seqnum_loop fuel state ≠ Panic.
Proof.
  revert state. induction fuel as [|fuel IH]; intros state; [done|]. cbn [next_seqnum_loop].
  case_match; [done|apply IH].
Qed.

(** The numbers of a window of at most 2^32 are distinct. *)
Lemma NoDup_window x n :
  Z.of_nat n ≤ 2 ^ 32 → NoDup ((λ k, wrap 32 (x + k)) <$> seqZ 1 (Z.of_nat n)).
Proof.
  intros Hn. apply NoDup_fmap_2_strong; [|apply NoDup_seqZ].
  intros a b Ha Hb E. apply elem_of_seqZ in Ha, Hb. unfold wrap in E.
  assert ((a - b) mod 2 ^ 32 = 0) as Hm.
  { replace (a - b) with ((x + a) - (x + b)) by lia. rewrite Zminus_mod, E, Z.sub_diag. done. }
  apply Z.mod_divide in Hm as [q Hq]; [|lia]. nia.
Qed.

Lemma size_union_le (X Y : gset Z) : (size (X ∪ Y) ≤ size X + size Y)%nat.
Proof.
  rewrite size_union_alt. apply Nat.add_le_mono_l, subseteq_size. set_solver.
Qed.

Lemma next_seqnum_ok state :
  Z.of_nat (size (State.submits state)) + Z.of_nat (size (State.unlinks state)) + 2 ≤ 2 ^ 32 →
  ∃ s, next_seqnum state = Done (s, State.set_next s state) ∧ ¬ in_use state s ∧ is_u 32 s.
Proof.
  intros Hsize. unfold next_seqnum. set (fuel := S (S _)).
  destruct (next_seqnum_loop fuel state) as [[s state']| |] eqn:E.
  - apply next_seqnum_loop_Done in E as (-> & ? & ?). eauto.
  - by apply next_seqnum_loop_no_panic in E.
  - exfalso. pose proof (next_seqnum_loop_stuck _ _ E) as Hs.
    set (tried := (λ k, wrap 32 (State.next_seqnum state + k)) <$> seqZ 1 (Z.of_nat fuel)).
    set (used := {[0]} ∪ (dom (State.submits state) : gset Z) ∪ (dom (State.unlinks state) : gset Z)).
    assert (NoDup tried) as Hnd by (apply NoDup_window; lia).
    assert ((list_to_set tried : gset Z) ⊆ used) as Hsub.
    { intros v Hv. apply elem_of_list_to_set, list_elem_of_fmap in Hv as (k & -> & Hk).
      apply elem_of_seqZ in Hk. specialize (Hs k ltac:(lia)). unfold used.
      rewrite !elem_of_union, elem_of_singleton, !elem_of_dom. unfold in_use in Hs. tauto. }
    apply subseteq_size in Hsub. rewrite size_list_to_set in Hsub by done.
    unfold tried in Hsub. rewrite length_fmap, length_seqZ, Nat2Z.id in Hsub.
    assert (size used ≤ 1 + size (State.submits state) + size (State.unlinks state))%nat.
    { unfold used. rewrite <- !size_dom. rewrite <- (size_singleton (C := gset Z) 0).
      etrans; [apply size_union_le|]. apply Nat.add_le_mono_r, size_union_le. }
    lia.
Qed.

(** Without wrap-around the next number is simply the successor. *)
Lemma next_seqnum_succ state s state' :
  next_seqnum state = Done (s, state') →
  0 ≤ State.next_seqnum state < 2 ^ 32 - 1 →
  (∀ k, in_use state k → k ≤ State.next_seqnum state) →
  s = State.next_seqnum state + 1.
Proof.
  unfold next_seqnum. cbn [next_seqnum_loop]. set (st := State.set_next _ state).
  intros H Hn Hk. assert (State.next_seqnum st = State.next_seqnum state + 1) as En.
  { cbn. unfold wrapping_inc. apply wrap_id. split; lia. }
  destruct (negb _ && _ && _) eqn:E.
  - injection H as <- _. exact En.
  - exfalso. assert (in_use st (State.next_seqnum st)) as Hu.
    { destruct (decide (in_use st (State.next_seqnum st))) as [|Hf]; [done|].
      apply free_seqnum in Hf. congruence. }
    apply (Hk (State.next_seqnum st)) in Hu. lia.
Qed.

(** ** The invariant *)

(** An accepted request: its reply channel, its sequence number, what was asked. *)
Notation issue := (chan * Z * SubmitRequest.t)%type.

Inductive command : Type :=
| CSubmit (c : CmdSubmit.t)
| CUnlink (c : CmdUnlink.t).

Definition encode_command `{BytesCrate} (c : command) : list Z :=
  match c with
  | CSubmit c => CmdSubmit.encode c []
  | CUnlink c => CmdUnlink.encode c []
  end.

Definition command_seqnum (c : command) : Z :=
  match c with CSubmit c => CmdSubmit.seqnum c | CUnlink c => CmdUnlink.seqnum c end.

(** Commands the session builds for [devid]: a fresh non-zero number, OUT data of the length
    announced and no data for IN; an unlink names an accepted request. *)
Definition command_ok (devid : Z) (issued : list issue) (c : command) : Prop :=
  is_u 32 (command_seqnum c) ∧ command_seqnum c ≠ 0 ∧
  match c with
  | CSubmit c => ∃ ch req, (ch, CmdSubmit.seqnum c, req) ∈ issued ∧
      c = cmd_of devid (CmdSubmit.seqnum c) req ∧
      Z.of_nat (length (CmdSubmit.data c)) =
        (if bool_decide (SubmitRequest.direction req = Direction.Out)
         then CmdSubmit.transfer_buffer_length c else 0)
  | CUnlink c => CmdUnlink.devid c = devid ∧ CmdUnlink.unlink_seqnum c ∈ (λ i : issue, i.1.2) <$> issued
  end.

Definition pending_chans (st : State.t) : list chan :=
  (λ e, PendingSubmit.reply e.2) <$> map_to_list (State.submits st).

Definition chans_of (issued : list issue) : list chan := (λ i : issue, i.1.1) <$> issued.

Section Invariant.
Context {B : BytesCrate}.

Record ok (sh : Shared.t) (issued : list issue) : Prop := {
  ok_next : is_u 32 (State.next_seqnum (Shared.state sh));
  ok_submit_keys : ∀ s p, State.submits (Shared.state sh) !! s = Some p →
    is_u 32 s ∧ s ≠ 0 ∧ State.unlinks (Shared.state sh) !! s = None;
  ok_unlink_keys : ∀ s t, State.unlinks (Shared.state sh) !! s = Some t →
    is_u 32 s ∧ s ≠ 0 ∧ is_Some (State.submits (Shared.state sh) !! t);
  ok_unlink_inj : ∀ s1 s2 t, State.unlinks (Shared.state sh) !! s1 = Some t →
    State.unlinks (Shared.state sh) !! s2 = Some t → s1 = s2;
  ok_unlinked : (length (State.unlinked (Shared.state sh)) ≤ 256)%nat;
  ok_closed : is_Some (State.closed (Shared.state sh)) →
    State.submits (Shared.state sh) = ∅ ∧ State.unlinks (Shared.state sh) = ∅;
  ok_closed_tx : Shared.closed_tx sh = State.closed (Shared.state sh);
  ok_pending : ∀ s p, State.submits (Shared.state sh) !! s = Some p →
    ∃ req, (PendingSubmit.reply p, s, req) ∈ issued ∧
      PendingSubmit.direction p = SubmitRequest.direction req ∧
      PendingSubmit.length p = SubmitRequest.length req;
  ok_channels : pending_chans (Shared.state sh) ++ (Shared.replies sh).*1 ≡ₚ chans_of issued;
  ok_issued : NoDup (chans_of issued);
  ok_fresh : ∀ i, i ∈ issued → (i.1.1 < Shared.channels sh)%nat;
  ok_seqnums : ∀ i, i ∈ issued → is_u 32 i.1.2 ∧ i.1.2 ≠ 0;
}.

(** *** Maps of pending requests *)

Lemma pending_chans_insert st s p n :
  State.submits st !! s = None →
  pending_chans (State.set_submits (<[s := p]> (State.submits st)) (State.set_next n st))
  ≡ₚ PendingSubmit.reply p :: pending_chans st.
Proof. intros H. unfold pending_chans. cbn. by rewrite map_to_list_insert. Qed.

Lemma fmap_delete_submit (m : gmap Z PendingSubmit.t) s p :
  m !! s = Some p →
  (λ e : Z * PendingSubmit.t, PendingSubmit.reply e.2) <$> map_to_list m
  ≡ₚ PendingSubmit.reply p :: ((λ e, PendingSubmit.reply e.2) <$> map_to_list (delete s m)).
Proof. intros H. by rewrite <- (map_to_list_delete m s p H). Qed.

(** *** Sending many replies *)

Lemma send_replies_fields {A} (l : list A) f g sh :
  let sh' := foldl (λ sh p, Shared.send_reply (f p) (g p) sh) sh l in
  Shared.state sh' = Shared.state sh ∧ Shared.frames sh' = Shared.frames sh ∧
  Shared.channels sh' = Shared.channels sh ∧ Shared.devid sh' = Shared.devid sh ∧
  Shared.closed_tx sh' = Shared.closed_tx sh ∧
  Shared.replies sh' = Shared.replies sh ++ ((λ p, (f p, g p)) <$> l).
Proof.
  revert sh. induction l as [|p l IH]; intros sh; simpl; [by rewrite app_nil_r|].
  destruct (IH (Shared.send_reply (f p) (g p) sh)) as (-> & -> & -> & -> & -> & ->). simpl.
  by rewrite <- app_assoc.
Qed.

(** *** Closing *)

(** What [close] does to an open session. *)
Lemma close_spec reason sh :
  Shared.closed_tx sh = State.closed (Shared.state sh) →
  let sh' := Shared.close reason sh in
  match State.closed (Shared.state sh) with
  | Some _ => sh' = sh
  | None =>
    State.closed (Shared.state sh') = Some reason ∧ Shared.closed_tx sh' = Some reason ∧
    State.submits (Shared.state sh') = ∅ ∧ State.unlinks (Shared.state sh') = ∅ ∧
    State.next_seqnum (Shared.state sh') = State.next_seqnum (Shared.state sh) ∧
    State.unlinked (Shared.state sh') = State.unlinked (Shared.state sh) ∧
    Shared.devid sh' = Shared.devid sh ∧ Shared.frames sh' = Shared.frames sh ∧
    Shared.channels sh' = Shared.channels sh ∧
    Shared.replies sh' = Shared.replies sh ++
      ((λ c, (c, Err (Disconnected reason))) <$> pending_chans (Shared.state sh))
  end.
Proof.
  intros _ sh'. subst sh'. unfold Shared.close. destruct (State.closed _); [done|].
  set (sh0 := Shared.set_state _ sh).
  pose proof (send_replies_fields (map_to_list (State.submits (Shared.state sh)))
    (λ p, PendingSubmit.reply p.2) (λ _, Err (Disconnected reason)) sh0) as H.
  destruct H as (E1 & E2 & E3 & E4 & E5 & E6). cbn [Shared.set_closed_tx Shared.state
    Shared.frames Shared.channels Shared.devid Shared.closed_tx Shared.replies].
  rewrite E1, E2, E3, E4, E6. cbn. unfold pending_chans.
  do 9 (split; [done|]). f_equal. by rewrite <- list_fmap_compose.
Qed.

Lemma ok_close reason sh issued : ok sh issued → ok (Shared.close reason sh) issued.
Proof.
  intros I. pose proof (close_spec reason sh (ok_closed_tx _ _ I)) as H. simpl in H.
  destruct (State.closed (Shared.state sh)) as [r|] eqn:Ec; [by rewrite H|].
  destruct H as (H1 & H2 & H3 & H4 & H5 & H6 & H7 & H8 & H9 & H10).
  destruct I. constructor; rewrite ?H1, ?H2, ?H3, ?H4, ?H5, ?H6, ?H7, ?H8, ?H9, ?H10; try done.
  unfold pending_chans at 1. rewrite H3, map_to_list_empty. simpl.
  rewrite fmap_app, <- list_fmap_compose.
  rewrite <- ok_channels0, Permutation_app_comm. apply Permutation_app_tail.
  apply reflexive_eq. rewrite <- (list_fmap_id (pending_chans (Shared.state sh))) at 2.
  by apply list_fmap_ext.
Qed.

(** *** Submitting *)

(** The shared state after an accepted request. *)
Definition submitted (sh : Shared.t) (seqnum : Z) (req : SubmitRequest.t) : Shared.t :=
  let sh1 := (Shared.channel sh).2 in
  Shared.send_frame (encode_command (CSubmit (cmd_of (Shared.devid sh) seqnum req)))
    (Shared.set_state
       (State.set_submits
          (<[seqnum := PendingSubmit.mk (SubmitRequest.direction req) (SubmitRequest.length req)
                         (Shared.channels sh)]> (State.submits (Shared.state sh)))
          (State.set_next seqnum (Shared.state sh))) sh1).

Definition request_data_ok (req : SubmitRequest.t) : Prop :=
  Z.of_nat (length (SubmitRequest.data req)) =
    if bool_decide (SubmitRequest.direction req = Direction.Out)
    then SubmitRequest.length req else 0.

(** Every branch of [submit]. *)
Lemma submit_cases req sh x sh' :
  submit req sh = Done (x, sh') →
  match x with
  | Err (InvalidRequest _) => sh' = sh ∧ ¬ request_data_ok req
  | Err (Disconnected r) => State.closed (Shared.state sh) = Some r ∧ request_data_ok req ∧
                            sh' = (Shared.channel sh).2
  | Err (Unlinked _) => False
  | Ok (seqnum, c) =>
      State.closed (Shared.state sh) = None ∧ request_data_ok req ∧ c = Shared.channels sh ∧
      next_seqnum (Shared.state sh) = Done (seqnum, State.set_next seqnum (Shared.state sh)) ∧
      sh' = submitted sh seqnum req
  end.
Proof.
  unfold submit, request_data_ok.
  destruct (SubmitRequest.direction req) eqn:Ed; cbn [bool_decide decide].
  - rewrite (bool_decide_eq_true_2 (Direction.Out = Direction.Out)) by done.
    rewrite (bool_decide_eq_false_2 (Direction.Out = Direction.In)) by done. cbn [andb].
    destruct (_ =? _) eqn:El; bool_props; cbn [negb].
    2: { intros [= <- <-]. done. }
    cbn [Shared.channel Shared.state].
    destruct (State.closed _) as [r|] eqn:Ec; [by intros [= <- <-]|].
    destruct (next_seqnum (Shared.state sh)) as [[s st]| |] eqn:Es; [|done..].
    intros [= <- <-]. pose proof Es as Es'. apply next_seqnum_loop_Done in Es' as [-> _].
    unfold submitted. rewrite Ed. done.
  - rewrite (bool_decide_eq_true_2 (Direction.In = Direction.In)) by done.
    rewrite (bool_decide_eq_false_2 (Direction.In = Direction.Out)) by done. cbn [andb].
    destruct (_ =? _)%nat eqn:El; cbn [negb].
    2: { intros [= <- <-]. apply Nat.eqb_neq in El. split; [done|lia]. }
    apply Nat.eqb_eq in El. cbn [Shared.channel Shared.state].
    destruct (State.closed _) as [r|] eqn:Ec; [intros [= <- <-]; auto with lia|].
    destruct (next_seqnum (Shared.state sh)) as [[s st]| |] eqn:Es; [|done..].
    intros [= <- <-]. pose proof Es as Es'. apply next_seqnum_loop_Done in Es' as [-> _].
    unfold submitted. rewrite Ed, El. done.
Qed.

Lemma ok_channel sh issued : ok sh issued → ok (Shared.channel sh).2 issued.
Proof. intros []. constructor; cbn; try done. intros i Hi. specialize (ok_fresh0 i Hi). lia. Qed.

Lemma command_ok_mono devid issued i c :
  command_ok devid issued c → command_ok devid (issued ++ [i]) c.
Proof.
  intros (H1 & H2 & H3). do 2 (split; [done|]). destruct c as [c|c].
  - destruct H3 as (ch & req & Hin & H). exists ch, req. rewrite elem_of_app. auto.
  - rewrite fmap_app, elem_of_app. naive_solver.
Qed.

Lemma ok_submitted sh issued seqnum req :
  ok sh issued → State.closed (Shared.state sh) = None → request_data_ok req →
  ¬ in_use (Shared.state sh) seqnum → is_u 32 seqnum →
  ok (submitted sh seqnum req) (issued ++ [(Shared.channels sh, seqnum, req)]).
Proof.
  intros I Hcl Hreq Hnu Hu. unfold in_use in Hnu.
  assert (State.submits (Shared.state sh) !! seqnum = None) as Hs
    by (apply eq_None_not_Some; tauto).
  assert (State.unlinks (Shared.state sh) !! seqnum = None) as Hun
    by (apply eq_None_not_Some; tauto).
  destruct I. constructor; cbn; try done.
  - intros s p. rewrite lookup_insert. case_decide; [intros [= <-]; subst; tauto|apply ok_submit_keys0].
  - intros s t Ht. destruct (ok_unlink_keys0 s t Ht) as (? & ? & ?). do 2 (split; [done|]).
    rewrite lookup_insert_is_Some'. auto.
  - by rewrite Hcl; intros [].
  - intros s p. rewrite lookup_insert. case_decide.
    + intros [= <-]; subst. exists req. rewrite elem_of_app, list_elem_of_singleton. auto.
    + intros (r & Hr & ?)%ok_pending0. exists r. rewrite elem_of_app. auto.
  - unfold chans_of. rewrite fmap_app. cbn.
    rewrite pending_chans_insert by done. cbn.
    rewrite (Permutation_app_comm (_ <$> issued) [_]). cbn. by apply Permutation_skip.
  - unfold chans_of in *. rewrite fmap_app. apply NoDup_app. split; [done|].
    split; [|apply NoDup_singleton]. intros c (i & -> & Hi)%list_elem_of_fmap Hc.
    cbn in Hc. apply list_elem_of_singleton in Hc. specialize (ok_fresh0 i Hi). lia.
  - intros i. rewrite elem_of_app, list_elem_of_singleton. intros [Hi| ->]; [|cbn; lia].
    specialize (ok_fresh0 i Hi). lia.
  - intros i. rewrite elem_of_app, list_elem_of_singleton. intros [Hi| ->]; [by apply ok_seqnums0|].
    cbn. tauto.
Qed.

Lemma ok_submit req sh x sh' issued :
  ok sh issued → submit req sh = Done (x, sh') →
  ok sh' (match x with Ok (seqnum, c) => issued ++ [(c, seqnum, req)] | Err _ => issued end).
Proof.
  intros I H. apply submit_cases in H. destruct x as [[seqnum c]|[| |]].
  - destruct H as (Hc & Hd & -> & Hn & ->).
    apply next_seqnum_loop_Done in Hn as (_ & ? & ?). by apply ok_submitted.
  - done.
  - destruct H as (_ & _ & ->). by apply ok_channel.
  - by destruct H as [-> _].
Qed.

(** *** Unlinking *)

Definition unlinking (sh : Shared.t) (seqnum target : Z) : Shared.t :=
  Shared.send_frame (encode_command (CUnlink (CmdUnlink.mk seqnum (Shared.devid sh) target)))
    (Shared.set_state
       (State.set_unlinks (<[seqnum := target]> (State.unlinks (Shared.state sh)))
          (State.set_next seqnum (Shared.state sh))) sh).

(** [target] is outstanding and not being unlinked. *)
Definition unlinkable (st : State.t) (target : Z) : Prop :=
  State.closed st = None ∧ is_Some (State.submits st !! target) ∧
  ∀ s, State.unlinks st !! s ≠ Some target.

Lemma unlinks_values (m : gmap Z Z) target :
  existsb (λ e, e.2 =? target) (map_to_list m) = true ↔ ∃ s, m !! s = Some target.
Proof.
  rewrite existsb_exists. split.
  - intros ([s t] & Hin & Ht). cbn in Ht. apply Z.eqb_eq in Ht as ->. exists s.
    by apply elem_of_map_to_list, list_elem_of_In.
  - intros [s Hs]. exists (s, target). split; [|apply Z.eqb_refl].
    by apply list_elem_of_In, elem_of_map_to_list.
Qed.

Lemma unlink_guard st target :
  bool_decide (is_Some (State.closed st))
    || negb (bool_decide (is_Some (State.submits st !! target)))
    || existsb (λ e, e.2 =? target) (map_to_list (State.unlinks st)) = false ↔ unlinkable st target.
Proof.
  unfold unlinkable. rewrite !orb_false_iff, negb_false_iff, bool_decide_eq_true,
    bool_decide_eq_false, <- eq_None_not_Some.
  rewrite <- not_true_iff_false, unlinks_values. naive_solver.
Qed.

Lemma unlink_cases target sh sh' :
  unlink target sh = Done sh' →
  (¬ unlinkable (Shared.state sh) target ∧ sh' = sh) ∨
  (unlinkable (Shared.state sh) target ∧ ∃ seqnum,
     next_seqnum (Shared.state sh) = Done (seqnum, State.set_next seqnum (Shared.state sh)) ∧
     sh' = unlinking sh seqnum target).
Proof.
  unfold unlink. destruct (_ || _ || _) eqn:E.
  - intros [= <-]. left. split; [|done]. rewrite <- unlink_guard. congruence.
  - apply unlink_guard in E. intros H. right. split; [done|].
    destruct (next_seqnum (Shared.state sh)) as [[s st]| |] eqn:Es; [|done..].
    injection H as <-. exists s. pose proof Es as Es'.
    apply next_seqnum_loop_Done in Es' as [-> _]. done.
Qed.

Lemma ok_unlinking sh issued seqnum target :
  ok sh issued → unlinkable (Shared.state sh) target →
  ¬ in_use (Shared.state sh) seqnum → is_u 32 seqnum →
  ok (unlinking sh seqnum target) issued.
Proof.
  intros I (Hcl & [p Hp] & Hnt) Hnu Hu. unfold in_use in Hnu.
  assert (State.submits (Shared.state sh) !! seqnum = None) as Hs
    by (apply eq_None_not_Some; tauto).
  destruct I. constructor; cbn; try done.
  - intros s q Hq. destruct (ok_submit_keys0 s q Hq) as (? & ? & ?). do 2 (split; [done|]).
    rewrite lookup_insert_ne by congruence. done.
  - intros s t. rewrite lookup_insert. case_decide; [|apply ok_unlink_keys0].
    intros [= <-]; subst. split; [done|]. split; [tauto|eauto].
  - intros s1 s2 t. rewrite !lookup_insert. repeat case_decide; [congruence| | |apply ok_unlink_inj0].
    + intros [= <-] Ht. by apply Hnt in Ht.
    + intros Ht [= <-]. by apply Hnt in Ht.
  - by rewrite Hcl; intros [].
Qed.

Lemma ok_unlink target sh sh' issued : ok sh issued → unlink target sh = Done sh' → ok sh' issued.
Proof.
  intros I [[_ ->]|(Hu & seqnum & Hn & ->)]%unlink_cases; [done|].
  apply next_seqnum_loop_Done in Hn as (_ & ? & ?). by apply ok_unlinking.
Qed.

(** *** Replies *)

Definition delivered_state (st : State.t) (seqnum : Z) : State.t :=
  State.mk (State.next_seqnum st) (delete seqnum (State.submits st))
    (base.filter (λ e, e.2 ≠ seqnum) (State.unlinks st))
    (base.filter (λ u, u.1.1 ≠ seqnum) (State.unlinked st)) (State.closed st).

Lemma deliver_cases seqnum ret sh :
  let sh' := Shared.set_state (delivered_state (Shared.state sh) seqnum) sh in
  deliver seqnum ret sh =
    match State.submits (Shared.state sh) !! seqnum with
    | Some p => Shared.send_reply (PendingSubmit.reply p) (Ok ret) sh'
    | None => sh'
    end.
Proof. done. Qed.

(** Removing a request together with the unlinks that name it. *)
Lemma ok_remove sh issued seqnum (unlinks : gmap Z Z) unlinked replies :
  ok sh issued →
  (∀ s t, unlinks !! s = Some t → State.unlinks (Shared.state sh) !! s = Some t ∧ t ≠ seqnum) →
  (length unlinked ≤ 256)%nat →
  replies.*1 = (match State.submits (Shared.state sh) !! seqnum with
                | Some p => [PendingSubmit.reply p]
                | None => []
                end) →
  ok (Shared.mk (Shared.devid sh)
        (State.mk (State.next_seqnum (Shared.state sh))
           (delete seqnum (State.submits (Shared.state sh))) unlinks unlinked
           (State.closed (Shared.state sh)))
        (Shared.frames sh) (Shared.channels sh) (Shared.replies sh ++ replies)
        (Shared.closed_tx sh)) issued.
Proof.
  intros I Hun Hlen Hr.
  destruct I. constructor; cbn; try done.
  - intros s p [? Hs]%lookup_delete_Some. destruct (ok_submit_keys0 s p Hs) as (? & ? & Hn).
    do 2 (split; [done|]). apply eq_None_not_Some. intros [t Ht]. apply Hun in Ht as [Ht _].
    congruence.
  - intros s t [Ht Hne]%Hun. destruct (ok_unlink_keys0 s t Ht) as (? & ? & ?).
    do 2 (split; [done|]). by rewrite lookup_delete_ne.
  - intros s1 s2 t [? _]%Hun [? _]%Hun. by eapply ok_unlink_inj0.
  - intros H. destruct (ok_closed0 H) as [-> Eu]. split; [apply delete_empty|].
    apply map_empty. intros s. apply eq_None_not_Some. intros [t [Ht _]%Hun].
    by rewrite Eu, lookup_empty in Ht.
  - intros s p [_ Hs]%lookup_delete_Some. by apply ok_pending0.
  - rewrite <- ok_channels0. unfold pending_chans. cbn. rewrite fmap_app, Hr.
    destruct (State.submits (Shared.state sh) !! seqnum) as [p|] eqn:Ep.
    + rewrite (fmap_delete_submit _ _ _ Ep). cbn. rewrite app_assoc.
      by rewrite (Permutation_app_comm _ [_]).
    + by rewrite delete_id, app_nil_r by done.
Qed.

Lemma ok_deliver seqnum ret sh issued : ok sh issued → ok (deliver seqnum ret sh) issued.
Proof.
  intros I. rewrite deliver_cases.
  assert (∀ r, r.*1 = (match State.submits (Shared.state sh) !! seqnum with
    | Some p => [PendingSubmit.reply p] | None => [] end) →
    ok (Shared.mk (Shared.devid sh) (delivered_state (Shared.state sh) seqnum)
      (Shared.frames sh) (Shared.channels sh) (Shared.replies sh ++ r) (Shared.closed_tx sh)) issued)
    as H.
  { intros r Hr. apply ok_remove; [done| |etrans; [apply length_filter|apply I]|done].
    intros s t [??]%map_lookup_filter_Some. done. }
  destruct (State.submits (Shared.state sh) !! seqnum) as [p|] eqn:Ep.
  - by apply (H [(PendingSubmit.reply p, Ok ret)]).
  - specialize (H [] eq_refl). rewrite app_nil_r in H. exact H.
Qed.

Lemma push_unlinked_length u l : (length l ≤ 256)%nat → (length (push_unlinked u l) ≤ 256)%nat.
Proof.
  intros H. unfold push_unlinked. destruct (length l =? 256)%nat eqn:E.
  - apply Nat.eqb_eq in E. rewrite length_app. destruct l; simpl in *; lia.
  - apply Nat.eqb_neq in E. rewrite length_app. simpl. lia.
Qed.

Lemma ok_forget_unlink sh issued s :
  ok sh issued →
  ok (Shared.set_state (State.set_unlinks (delete s (State.unlinks (Shared.state sh)))
        (Shared.state sh)) sh) issued.
Proof.
  intros []. constructor; cbn; try done.
  - intros s' p Hp. destruct (ok_submit_keys0 s' p Hp) as (? & ? & Hn). do 2 (split; [done|]).
    apply lookup_delete_None. auto.
  - intros s' t [_ Ht]%lookup_delete_Some. by apply ok_unlink_keys0 in Ht.
  - intros s1 s2 t [_ ?]%lookup_delete_Some [_ ?]%lookup_delete_Some. by eapply ok_unlink_inj0.
  - intros H. destruct (ok_closed0 H) as [-> ->]. split; [done|apply delete_empty].
Qed.

(** The two outcomes of a RET_UNLINK. *)
Lemma on_unlink_cases ret sh issued :
  ok sh issued →
  match State.unlinks (Shared.state sh) !! RetUnlink.seqnum ret with
  | None => on_unlink ret sh =
      Shared.set_state (State.set_unlinks (delete (RetUnlink.seqnum ret)
        (State.unlinks (Shared.state sh))) (Shared.state sh)) sh
  | Some target => ∃ p, State.submits (Shared.state sh) !! target = Some p ∧
      on_unlink ret sh =
        Shared.mk (Shared.devid sh)
          (State.mk (State.next_seqnum (Shared.state sh))
             (delete target (State.submits (Shared.state sh)))
             (delete (RetUnlink.seqnum ret) (State.unlinks (Shared.state sh)))
             (push_unlinked (target, PendingSubmit.direction p, PendingSubmit.length p)
                (State.unlinked (Shared.state sh))) (State.closed (Shared.state sh)))
          (Shared.frames sh) (Shared.channels sh)
          (Shared.replies sh ++ [(PendingSubmit.reply p, Err (Unlinked (RetUnlink.status ret)))])
          (Shared.closed_tx sh)
  end.
Proof.
  intros I. unfold on_unlink. destruct (State.unlinks _ !! _) as [t|] eqn:Et; [|done].
  destruct (ok_unlink_keys _ _ I _ _ Et) as (_ & _ & [p Hp]). exists p. split; [done|].
  cbn [State.submits State.set_unlinks]. rewrite Hp. done.
Qed.

Lemma ok_on_unlink ret sh issued : ok sh issued → ok (on_unlink ret sh) issued.
Proof.
  intros I. pose proof (on_unlink_cases ret sh issued I) as H.
  destruct (State.unlinks (Shared.state sh) !! RetUnlink.seqnum ret) as [t|] eqn:Et.
  - destruct H as (p & Hp & ->). apply ok_remove; [done| | |by rewrite Hp].
    + intros s t' [Hne Hs]%lookup_delete_Some. split; [done|]. intros ->. apply Hne.
      by eapply ok_unlink_inj.
    + apply push_unlinked_length, I.
  - rewrite H. by apply ok_forget_unlink.
Qed.

(** *** The operations return *)

(** The pending unlinks name distinct pending requests. *)
Lemma size_unlinks sh iss :
  ok sh iss → (size (State.unlinks (Shared.state sh)) ≤ size (State.submits (Shared.state sh)))%nat.
Proof.
  intros I. set (m := State.unlinks (Shared.state sh)).
  rewrite <- (size_dom (D := gset Z) (State.submits (Shared.state sh))).
  assert (NoDup ((map_to_list m).*2)) as Hnd.
  { apply NoDup_fmap_2_strong; [|apply NoDup_map_to_list].
    intros [s1 t1] [s2 t2] H1%elem_of_map_to_list H2%elem_of_map_to_list E. cbn in E. subst t2.
    f_equal. by eapply (ok_unlink_inj _ _ I). }
  rewrite <- (length_map_to_list m), <- (length_fmap snd).
  rewrite <- (size_list_to_set (C := gset Z)) by done. apply subseteq_size.
  intros t Ht. apply elem_of_list_to_set, list_elem_of_fmap in Ht as ([s t'] & -> & Hin).
  apply elem_of_map_to_list in Hin. apply elem_of_dom.
  by destruct (ok_unlink_keys _ _ I _ _ Hin) as (_ & _ & ?).
Qed.

Lemma ops_return sh iss :
  ok sh iss → Z.of_nat (pending sh) < 2 ^ 31 →
  (∀ target, returns (unlink target sh)) ∧ ∀ req, returns (submit req sh).
Proof.
  intros I Hp. pose proof (size_unlinks _ _ I) as Hu. unfold pending in Hp.
  destruct (next_seqnum_ok (Shared.state sh)) as (n & En & _); [lia|]. split.
  - intros target. unfold unlink, returns. destruct (_ || _ || _); [eauto|]. rewrite En. eauto.
  - intros req. unfold submit, returns. destruct (_ && _); [eauto|]. destruct (_ && _); [eauto|].
    cbn [Shared.channel Shared.state]. destruct (State.closed _); [eauto|]. rewrite En. eauto.
Qed.

End Invariant.
