(* ===== verification/System.v ===== *)
(** * System: the session's tasks, interleaved (src/src/client.rs)

    The reader task, the writer task and any number of clones of the session run concurrently; they
    meet in the state behind the mutex and in the channels.  A step is one locked region or one
    awaited read or write, in any order.  [issued] records, for the theorems only, which request
    each reply channel belongs to. *)

From stdpp Require Import base tactics option list gmap fin_maps relations.
From S2P Require Import Prelude Wire Protocol ProtocolFacts Server Session SessionFacts.

(** Where the reader task is. *)
Inductive phase : Type :=
| Idle
| AwaitPayload (header : Reply.t) (direction : Direction.t) (length : Z)
| Stopped.

Section System.
Context {B : BytesCrate} {BL : BytesLaws B}.
Context {R : Type} {AR : AsyncRead R} {AL : AsyncReadLaws R}.

Record sys : Type := mk_sys {
  shared : Shared.t;
  issued : list issue;
  reader : R;
  at_phase : phase;
  (** [None] once the writer task has ended; else how many frames it has taken. *)
  writer : option nat;
  written : list Z;
}.

Definition set_shared (sh : Shared.t) (s : sys) : sys :=
  mk_sys sh (issued s) (reader s) (at_phase s) (writer s) (written s).

Definition set_reader (sh : Shared.t) (r : R) (p : phase) (s : sys) : sys :=
  mk_sys sh (issued s) r p (writer s) (written s).

Inductive step : sys → sys → Prop :=
(** Clones of the session *)
| step_submit s req x sh' :
    submit req (shared s) = Done (x, sh') →
    step s (mk_sys sh'
              (match x with Ok (seqnum, c) => issued s ++ [(c, seqnum, req)] | Err _ => issued s end)
              (reader s) (at_phase s) (writer s) (written s))
| step_unlink s target sh' :
    unlink target (shared s) = Done sh' → step s (set_shared sh' s)
| step_close s : step s (set_shared (close (shared s)) s)
(** The reader task *)
| step_header_err s e r :
    at_phase s = Idle → read_reply_header (reader s) = Done (Err e, r) →
    step s (set_reader (Shared.close (read_reason e) (shared s)) r Stopped s)
| step_header s seqnum status len start n ec r d l :
    at_phase s = Idle →
    read_reply_header (reader s) = Done (Ok (Reply.Submit seqnum status len start n ec), r) →
    lookup_request seqnum (shared s) = Ok (d, l) →
    step s (set_reader (shared s) r (AwaitPayload (Reply.Submit seqnum status len start n ec) d l) s)
| step_unknown s seqnum status len start n ec r e :
    at_phase s = Idle →
    read_reply_header (reader s) = Done (Ok (Reply.Submit seqnum status len start n ec), r) →
    lookup_request seqnum (shared s) = Err e →
    step s (set_reader (Shared.close (read_reason e) (shared s)) r Stopped s)
| step_ret_unlink s ret r :
    at_phase s = Idle → read_reply_header (reader s) = Done (Ok (Reply.Unlink ret), r) →
    step s (set_reader (on_unlink ret (shared s)) r Idle s)
| step_payload s h d l ret r :
    at_phase s = AwaitPayload h d l →
    read_submit_payload h (bool_decide (d = Direction.In)) l (reader s) = Done (Ok ret, r) →
    step s (set_reader (deliver (seqnum_of h) ret (shared s)) r Idle s)
| step_payload_err s h d l e r :
    at_phase s = AwaitPayload h d l →
    read_submit_payload h (bool_decide (d = Direction.In)) l (reader s) = Done (Err e, r) →
    step s (set_reader (Shared.close (read_reason e) (shared s)) r Stopped s)
| step_reader_closed s :
    is_Some (Shared.closed_tx (shared s)) →
    step s (set_reader (shared s) (reader s) Stopped s)
(** The writer task *)
| step_write s n ready batch rest :
    writer s = Some n → next_batch ready (drop n (Shared.frames (shared s))) = Some (batch, rest) →
    step s (mk_sys (shared s) (issued s) (reader s) (at_phase s)
              (Some (length (Shared.frames (shared s)) - length rest)%nat) (written s ++ batch))
| step_write_err s n ready batch rest e part :
    writer s = Some n → next_batch ready (drop n (Shared.frames (shared s))) = Some (batch, rest) →
    part `prefix_of` batch →
    step s (mk_sys (Shared.close (WriteFailed e) (shared s)) (issued s) (reader s) (at_phase s)
              None (written s ++ part))
| step_writer_closed s :
    is_Some (Shared.closed_tx (shared s)) →
    step s (mk_sys (shared s) (issued s) (reader s) (at_phase s) None (written s)).

(** A session that has just been started on a stream. *)
Definition started (device : ExportedDevice.t) (r : R) : sys :=
  mk_sys (start device) [] r Idle (Some 0%nat) [].

Definition reachable (device : ExportedDevice.t) (r : R) (s : sys) : Prop :=
  rtc step (started device r) s.

(** ** The shared state is well formed at every point *)

Lemma ok_start device : ok (start device) [].
Proof.
  constructor; cbn; try done; try (intros ?? Hm; by rewrite lookup_empty in Hm).
  - lia.
  - constructor.
  - intros i []%elem_of_nil.
  - intros i []%elem_of_nil.
Qed.

Lemma step_ok s s' : ok (shared s) (issued s) → step s s' → ok (shared s') (issued s').
Proof.
  intros I. destruct 1; cbn; eauto using ok_submit, ok_unlink, ok_close, ok_deliver, ok_on_unlink.
Qed.

(** Rule induction over the run: what holds at the start and is preserved by steps from well-formed
    states holds everywhere. *)
Lemma reachable_ind device r (P : sys → Prop) :
  P (started device r) →
  (∀ s s', ok (shared s) (issued s) → P s → step s s' → P s') →
  ∀ s, reachable device r s → ok (shared s) (issued s) ∧ P s.
Proof.
  intros H0 Hstep s H. unfold reachable in H.
  assert (ok (shared (started device r)) (issued (started device r))) as I0 by apply ok_start.
  revert I0 H0. induction H as [s|s1 s2 s3 H12 _ IH]; intros I0 H0; [done|].
  apply IH; [by eapply step_ok|by eapply Hstep].
Qed.

Lemma reachable_ok device r s : reachable device r s → ok (shared s) (issued s).
Proof. intros H. by eapply (reachable_ind device r (λ _, True)). Qed.

Lemma devid_step s s' : ok (shared s) (issued s) → step s s' →
  Shared.devid (shared s') = Shared.devid (shared s).
Proof.
  assert (∀ reason sh iss, ok sh iss → Shared.devid (Shared.close reason sh) = Shared.devid sh) as Hc.
  { intros reason sh iss I. pose proof (close_spec reason sh (ok_closed_tx _ _ I)) as Hc.
    simpl in Hc. destruct (State.closed _); [by rewrite Hc|tauto]. }
  intros I. destruct 1 as [s req x sh' H|s t sh' H|s|s e r Hp H|s seqnum status len start n ec r d l Hp H Hl
    |s seqnum status len start n ec r e Hp H Hl|s ret r Hp H|s h d l ret r Hp H|s h d l e r Hp H|s H
    |s n ready batch rest Hw Hb|s n ready batch rest e part Hw Hb Hpf|s H]; cbn; eauto.
  - apply submit_cases in H. destruct x as [[]|[]]; naive_solver.
  - apply unlink_cases in H as [[_ ->]|(_ & ? & _ & ->)]; done.
  - pose proof (on_unlink_cases ret _ _ I) as Hu. destruct (State.unlinks _ !! _); [|by rewrite Hu].
    by destruct Hu as (? & _ & ->).
  - rewrite deliver_cases. by destruct (State.submits _ !! _).
Qed.

(** ** Replies reach the request they answer *)

(** Fewer than 2^32 commands were sent, so no sequence number was used twice. *)
Definition no_wrap (sh : Shared.t) : Prop := Z.of_nat (length (Shared.frames sh)) < 2 ^ 32.

(** What a completed request may carry. *)
Definition reply_fits (req : SubmitRequest.t) (ret : RetSubmit.t) : Prop :=
  0 ≤ RetSubmit.actual_length ret ≤ SubmitRequest.length req ∧
  Z.of_nat (length (RetSubmit.data ret)) =
    if bool_decide (SubmitRequest.direction req = Direction.In)
    then RetSubmit.actual_length ret else 0.

(** Numbers the session still associates with a request. *)
Definition known (st : State.t) (k : Z) : Prop :=
  in_use st k ∨ k ∈ (λ u : Z * Direction.t * Z, u.1.1) <$> State.unlinked st.

Record faithful (sh : Shared.t) (iss : list issue) (ph : phase) : Prop := {
  f_header : ∀ h d l, ph = AwaitPayload h d l → ∃ seqnum st len start n ec,
    h = Reply.Submit seqnum st len start n ec ∧ 0 ≤ len ∧ 0 ≤ n;
  f_replies : ∀ c ret, (c, Ok ret) ∈ Shared.replies sh →
    ∃ req, (c, RetSubmit.seqnum ret, req) ∈ iss ∧ (no_wrap sh → reply_fits req ret);
  f_next : no_wrap sh → State.next_seqnum (Shared.state sh) = Z.of_nat (length (Shared.frames sh));
  f_known : no_wrap sh → ∀ k, known (Shared.state sh) k → k ≤ State.next_seqnum (Shared.state sh);
  f_await : no_wrap sh → ∀ h d l, ph = AwaitPayload h d l →
    seqnum_of h ≤ State.next_seqnum (Shared.state sh) ∧
    ∀ p, State.submits (Shared.state sh) !! seqnum_of h = Some p →
      PendingSubmit.direction p = d ∧ PendingSubmit.length p = l;
}.

(** Operations that send no frame and complete no request. *)
Lemma faithful_shrink sh sh' iss ph ph' errs :
  faithful sh iss ph →
  State.next_seqnum (Shared.state sh') = State.next_seqnum (Shared.state sh) →
  Shared.frames sh' = Shared.frames sh →
  (∀ k, known (Shared.state sh') k → known (Shared.state sh) k) →
  State.submits (Shared.state sh') ⊆ State.submits (Shared.state sh) →
  Shared.replies sh' = Shared.replies sh ++ errs → Forall (λ r, is_ok r.2 = false) errs →
  (ph' = ph ∨ ∀ h d l, ph' ≠ AwaitPayload h d l) →
  faithful sh' iss ph'.
Proof.
  intros [F1 F2 F3 F4 F5] En Ef Hk Hs Er He Hph.
  assert (no_wrap sh' → no_wrap sh) as Hw by (unfold no_wrap; by rewrite Ef).
  constructor; rewrite ?En, ?Ef.
  - intros h d l E. destruct Hph as [->|Hph]; [eauto|by apply Hph in E].
  - intros c ret. rewrite Er, elem_of_app. intros [(req & ? & ?)%F2|Hin]; [eauto|].
    rewrite Forall_forall in He. by apply He in Hin.
  - auto.
  - eauto.
  - intros W h d l E. destruct Hph as [->|Hph]; [|by apply Hph in E].
    destruct (F5 (Hw W) h d l E) as [? HF]. split; [done|]. intros p Hp. apply HF.
    by eapply lookup_weaken.
Qed.

Lemma faithful_close reason sh iss ph ph' :
  ok sh iss → faithful sh iss ph → (ph' = ph ∨ ∀ h d l, ph' ≠ AwaitPayload h d l) →
  faithful (Shared.close reason sh) iss ph'.
Proof.
  intros I F Hph. pose proof (close_spec reason sh (ok_closed_tx _ _ I)) as H. simpl in H.
  destruct (State.closed (Shared.state sh)).
  - rewrite H. eapply (faithful_shrink _ _ _ _ _ []); eauto; by rewrite app_nil_r.
  - destruct H as (_ & _ & H3 & H4 & H5 & H6 & _ & H8 & _ & H10).
    eapply faithful_shrink; [exact F|exact H5|exact H8| | |exact H10| |exact Hph].
    + intros k. unfold known, in_use. rewrite H3, H4, H6, !lookup_empty.
      intros [[?|[[? [=]]|[? [=]]]]|?]; auto.
    + rewrite H3. apply map_empty_subseteq.
    + apply Forall_fmap, Forall_true. done.
Qed.

Lemma push_unlinked_known k u l :
  k ∈ (λ u : Z * Direction.t * Z, u.1.1) <$> push_unlinked u l →
  k = u.1.1 ∨ k ∈ (λ u : Z * Direction.t * Z, u.1.1) <$> l.
Proof.
  intros (v & -> & Hv)%list_elem_of_fmap. unfold push_unlinked in Hv.
  apply elem_of_app in Hv as [Hv| ->%list_elem_of_singleton]; [right|by left].
  apply list_elem_of_fmap. exists v. split; [done|].
  destruct (_ =? 256)%nat; [|done]. destruct l; [done|]. by right.
Qed.

Lemma faithful_on_unlink ret sh iss ph :
  ok sh iss → faithful sh iss ph → faithful (on_unlink ret sh) iss Idle.
Proof.
  intros I F. pose proof (on_unlink_cases ret sh iss I) as H.
  assert (∀ t u, is_Some (delete u (State.unlinks (Shared.state sh)) !! t) →
    is_Some (State.unlinks (Shared.state sh) !! t)) as Hd
    by (intros t u [x [_ Hx]%lookup_delete_Some]; eauto).
  destruct (State.unlinks (Shared.state sh) !! RetUnlink.seqnum ret) as [t|] eqn:Et.
  - destruct H as (p & Hp & ->). eapply faithful_shrink; [exact F|done..| | |cbn; reflexivity| |by right].
    + intros k. unfold known, in_use. cbn.
      intros [[?|[[x [_ Hx]%lookup_delete_Some]|?%Hd]]|[->|?]%push_unlinked_known]; eauto 6.
    + apply delete_subseteq.
    + by constructor.
  - rewrite H. eapply (faithful_shrink _ _ _ _ _ []); [exact F|done..| |done|by rewrite app_nil_r|done|by right].
    intros k. unfold known, in_use. cbn. intros [[?|[?|?%Hd]]|?]; auto 6.
Qed.

Lemma faithful_submit req sh x sh' iss ph :
  ok sh iss → faithful sh iss ph → submit req sh = Done (x, sh') →
  faithful sh' (match x with Ok (seqnum, c) => iss ++ [(c, seqnum, req)] | Err _ => iss end) ph.
Proof.
  intros I F H. apply submit_cases in H. destruct x as [[seqnum c]|[| |]]; [|done|..].
  2: { destruct H as (_ & _ & ->).
       eapply (faithful_shrink _ _ _ _ _ []); eauto; by rewrite app_nil_r. }
  2: by destruct H as [-> _].
  destruct H as (_ & _ & -> & Hn & ->).
  assert (∀ s, no_wrap (submitted sh seqnum req) → no_wrap sh) as _ by done.
  assert (no_wrap (submitted sh seqnum req) → no_wrap sh ∧
    seqnum = State.next_seqnum (Shared.state sh) + 1) as Hw.
  { unfold no_wrap. cbn. rewrite length_app. cbn. intros W. assert (no_wrap sh) as W' by
      (unfold no_wrap; lia). split; [lia|].
    eapply next_seqnum_succ; [exact Hn| |].
    - rewrite (f_next _ _ _ F) by done. lia.
    - intros k Hk. apply (f_known _ _ _ F W'). by left. }
  destruct F as [F1 F2 F3 F4 F5]. constructor; cbn.
  - exact F1.
  - intros c ret (r & Hin & Hr)%F2. exists r. rewrite elem_of_app. split; [auto|]. intros W.
    by apply Hr, Hw.
  - intros W. destruct (Hw W) as [W' ->]. rewrite length_app, F3 by done. cbn. lia.
  - intros W k. destruct (Hw W) as [W' E]. unfold known, in_use. cbn. intros Hk.
    assert (k = seqnum ∨ known (Shared.state sh) k) as [->|Hk'].
    { unfold known, in_use. rewrite lookup_insert_is_Some' in Hk. naive_solver. }
    + lia.
    + apply F4 in Hk'; [lia|done].
  - intros W h d l E. destruct (Hw W) as [W' Es]. destruct (F5 W' h d l E) as [? HF].
    split; [lia|]. intros p. rewrite lookup_insert_ne by lia. apply HF.
Qed.

Lemma faithful_unlink target sh sh' iss ph :
  ok sh iss → faithful sh iss ph → unlink target sh = Done sh' → faithful sh' iss ph.
Proof.
  intros I F [[_ ->]|(_ & seqnum & Hn & ->)]%unlink_cases; [done|].
  assert (no_wrap (unlinking sh seqnum target) → no_wrap sh ∧
    seqnum = State.next_seqnum (Shared.state sh) + 1) as Hw.
  { unfold no_wrap. cbn. rewrite length_app. cbn. intros W. assert (no_wrap sh) as W' by
      (unfold no_wrap; lia). split; [lia|].
    eapply next_seqnum_succ; [exact Hn| |].
    - rewrite (f_next _ _ _ F) by done. lia.
    - intros k Hk. apply (f_known _ _ _ F W'). by left. }
  destruct F as [F1 F2 F3 F4 F5]. constructor; cbn.
  - exact F1.
  - intros c ret (r & Hin & Hr)%F2. exists r. split; [auto|]. intros W. by apply Hr, Hw.
  - intros W. destruct (Hw W) as [W' ->]. rewrite length_app, F3 by done. cbn. lia.
  - intros W k. destruct (Hw W) as [W' E]. unfold known, in_use. cbn. intros Hk.
    assert (k = seqnum ∨ known (Shared.state sh) k) as [->|Hk'].
    { unfold known, in_use. rewrite lookup_insert_is_Some' in Hk. naive_solver. }
    + lia.
    + apply F4 in Hk'; [lia|done].
  - intros W h d l E. destruct (Hw W) as [W' Es]. destruct (F5 W' h d l E) as [? HF].
    split; [lia|]. exact HF.
Qed.

Lemma faithful_deliver sh iss h d l ret r r' :
  ok sh iss → faithful sh iss (AwaitPayload h d l) →
  read_submit_payload h (bool_decide (d = Direction.In)) l r = Done (Ok ret, r') →
  faithful (deliver (seqnum_of h) ret sh) iss Idle.
Proof.
  intros I F H. pose proof F as [F1 F2 F3 F4 F5].
  destruct (F1 h d l eq_refl) as (seqnum & st & len & start & n & ec & -> & Hlen & Hn).
  destruct (read_submit_payload_post seqnum st len start n ec (bool_decide (d = Direction.In)) l r
    Hlen Hn) as (y & r2 & E & Hy).
  rewrite E in H. injection H as -> ->. destruct Hy as (Hmax & Es & _ & Ea & _ & _ & Ed & _).
  cbn [seqnum_of] in *. rewrite deliver_cases.
  assert (∀ k, known (delivered_state (Shared.state sh) seqnum) k → known (Shared.state sh) k) as Hk.
  { intros k. unfold known, in_use. cbn. intros [[?|[Hs|Hs]]|Hs]; auto.
    - destruct Hs as [x [_ Hx]%lookup_delete_Some]. eauto 6.
    - destruct Hs as [x [Hx _]%map_lookup_filter_Some]. eauto 6.
    - right. apply list_elem_of_fmap in Hs as (u & -> & [_ Hu]%list_elem_of_filter).
      apply list_elem_of_fmap. eauto. }
  destruct (State.submits (Shared.state sh) !! seqnum) as [p|] eqn:Ep.
  2: { eapply (faithful_shrink _ _ _ _ _ []); [exact F|done..| |by rewrite app_nil_r|done|by right].
       apply delete_subseteq. }
  constructor; cbn; [done| |exact F3| |done].
  - intros c ret'. rewrite elem_of_app, list_elem_of_singleton. intros [Hin|[= -> <-]]; [by apply F2|].
    destruct (ok_pending _ _ I _ _ Ep) as (req & Hin & Hd & Hl). exists req. rewrite Es.
    split; [done|]. intros W. destruct (F5 W _ _ _ eq_refl) as [_ HF].
    destruct (HF p Ep) as [<- <-]. unfold reply_fits. rewrite Ea, Ed, <- Hd, <- Hl. done.
  - intros W k Hk'. apply F4; [done|]. by apply Hk.
Qed.

Lemma lookup_request_Ok seqnum sh d l :
  lookup_request seqnum sh = Ok (d, l) →
  known (Shared.state sh) seqnum ∧
  ∀ p, State.submits (Shared.state sh) !! seqnum = Some p →
    PendingSubmit.direction p = d ∧ PendingSubmit.length p = l.
Proof.
  unfold lookup_request, known, in_use.
  destruct (State.submits (Shared.state sh) !! seqnum) as [p|] eqn:Ep.
  - intros [= <- <-]. split; [eauto|]. by intros ? [= <-].
  - destruct (find_first _ _) as [[[s' d'] l']|] eqn:Ef; [|done]. intros _. split; [|done].
    right. apply find_first_Some in Ef as (l1 & l2 & -> & E & _). cbn in E. apply Z.eqb_eq in E as <-.
    rewrite fmap_app, elem_of_app. right. by left.
Qed.

Lemma step_faithful s s' :
  ok (shared s) (issued s) → faithful (shared s) (issued s) (at_phase s) → step s s' →
  faithful (shared s') (issued s') (at_phase s').
Proof.
  intros I F. destruct 1 as [s req x sh' H|s t sh' H|s|s e r Hp H
    |s seqnum status len start n ec r d l Hp H Hl
    |s seqnum status len start n ec r e Hp H Hl|s ret r Hp H|s h d l ret r Hp H|s h d l e r Hp H|s H
    |s n ready batch rest Hw Hb|s n ready batch rest e part Hw Hb Hpf|s H]; cbn; try done.
  - by eapply faithful_submit.
  - by eapply faithful_unlink.
  - apply (faithful_close ClosedByClient _ _ _ _ I F). by left.
  - apply (faithful_close _ _ _ _ _ I F). by right.
  - destruct (read_reply_header_post (reader s)) as (x & r2 & E & Hx).
    rewrite H in E. injection E as <- <-. destruct Hx as [(_ & _ & [? _] & _ & [? _] & _) _].
    apply lookup_request_Ok in Hl as [Hk Hl]. destruct F as [F1 F2 F3 F4 F5]. constructor; try done.
    + intros h' d' l' [= <- <- <-]. eauto 15.
    + intros W h' d' l' [= <- <- <-]. split; [by apply F4|exact Hl].
  - apply (faithful_close _ _ _ _ _ I F). by right.
  - by eapply faithful_on_unlink.
  - rewrite Hp in F. by eapply faithful_deliver.
  - apply (faithful_close _ _ _ _ _ I F). by right.
  - eapply (faithful_shrink _ _ _ _ _ []); eauto; by rewrite app_nil_r.
  - apply (faithful_close _ _ _ _ _ I F). by left.
Qed.

(** ** What goes out on the wire *)

(** The CMD_SUBMITs of a log. *)
Definition submits (log : list command) : list CmdSubmit.t :=
  omap (λ c, match c with CSubmit c => Some c | CUnlink _ => None end) log.

(** The CMD_SUBMIT an accepted request calls for. *)
Definition cmd_for (devid : Z) (i : issue) : CmdSubmit.t := cmd_of devid i.1.2 i.2.

(** A request is submitted before it is unlinked. *)
Definition causal (log : list command) : Prop :=
  ∀ l1 c l2, log = l1 ++ CUnlink c :: l2 →
    CmdUnlink.unlink_seqnum c ∈ CmdSubmit.seqnum <$> submits l1.

(** The frames are the encoded commands of a log, numbered 1, 2, 3, ... until numbers wrap, which
    submits each accepted request once, in order, and before it unlinks it. *)
Record log_of (s : sys) (log : list command) : Prop := {
  lo_frames : Shared.frames (shared s) = encode_command <$> log;
  lo_ok : Forall (command_ok (Shared.devid (shared s)) (issued s)) log;
  lo_seqnums : no_wrap (shared s) → command_seqnum <$> log = seqZ 1 (Z.of_nat (length log));
  lo_submits : submits log = cmd_for (Shared.devid (shared s)) <$> issued s;
  lo_causal : causal log;
}.

Definition logged (s : sys) : Prop := ∃ log, log_of s log.

Lemma close_frames reason sh iss : ok sh iss →
  Shared.frames (Shared.close reason sh) = Shared.frames sh ∧
  Shared.devid (Shared.close reason sh) = Shared.devid sh.
Proof.
  intros I. pose proof (close_spec reason sh (ok_closed_tx _ _ I)) as H. simpl in H.
  destruct (State.closed _); [by rewrite H|]. tauto.
Qed.

Lemma on_unlink_frames ret sh iss : ok sh iss →
  Shared.frames (on_unlink ret sh) = Shared.frames sh ∧
  Shared.devid (on_unlink ret sh) = Shared.devid sh.
Proof.
  intros I. pose proof (on_unlink_cases ret _ _ I) as H. destruct (State.unlinks _ !! _).
  - by destruct H as (? & _ & ->).
  - by rewrite H.
Qed.

Lemma deliver_frames seqnum ret sh :
  Shared.frames (deliver seqnum ret sh) = Shared.frames sh ∧
  Shared.devid (deliver seqnum ret sh) = Shared.devid sh.
Proof. rewrite deliver_cases. by destruct (State.submits _ !! _). Qed.

(** The number a command is given next. *)
Lemma next_is_count sh iss ph seqnum st frame :
  faithful sh iss ph → next_seqnum (Shared.state sh) = Done (seqnum, st) →
  Z.of_nat (length (Shared.frames sh ++ [frame])) < 2 ^ 32 →
  no_wrap sh ∧ seqnum = Z.of_nat (length (Shared.frames sh)) + 1.
Proof.
  intros F Hn W. rewrite length_app in W. cbn in W.
  assert (no_wrap sh) as W' by (unfold no_wrap; lia). split; [done|].
  rewrite <- (f_next _ _ _ F) by done. eapply next_seqnum_succ; [exact Hn| |].
  - rewrite (f_next _ _ _ F) by done. lia.
  - intros k Hk. apply (f_known _ _ _ F W'). by left.
Qed.

Lemma seqZ_snoc n : seqZ 1 (Z.of_nat n) ++ [Z.of_nat n + 1] = seqZ 1 (Z.of_nat (S n)).
Proof.
  rewrite Nat2Z.inj_succ, <- Z.add_1_r, seqZ_app by lia. f_equal.
  rewrite (seqZ_cons (1 + Z.of_nat n)) by lia. rewrite seqZ_nil by lia. f_equal. lia.
Qed.

Lemma causal_snoc log c :
  causal log →
  match c with
  | CSubmit _ => True
  | CUnlink c => CmdUnlink.unlink_seqnum c ∈ CmdSubmit.seqnum <$> submits log
  end → causal (log ++ [c]).
Proof.
  intros H Hc l1 d l2 E. induction l2 as [|x l2 _] using rev_ind.
  - apply app_inj_tail in E as [-> ->]. exact Hc.
  - rewrite app_comm_cons, app_assoc in E. apply app_inj_tail in E as [E _]. by eapply H.
Qed.

Lemma submits_seqnums devid (iss : list issue) :
  CmdSubmit.seqnum <$> (cmd_for devid <$> iss) = (λ i : issue, i.1.2) <$> iss.
Proof. by rewrite <- list_fmap_compose. Qed.

Lemma log_same s s' log :
  log_of s log → Shared.frames (shared s') = Shared.frames (shared s) →
  Shared.devid (shared s') = Shared.devid (shared s) → issued s' = issued s → log_of s' log.
Proof. intros [] Ef Ed Ei. constructor; unfold no_wrap in *; rewrite ?Ef, ?Ed, ?Ei; done. Qed.

Lemma log_snoc s s' log c :
  log_of s log → faithful (shared s) (issued s) (at_phase s) →
  next_seqnum (Shared.state (shared s))
    = Done (command_seqnum c, State.set_next (command_seqnum c) (Shared.state (shared s))) →
  Shared.frames (shared s') = Shared.frames (shared s) ++ [encode_command c] →
  Shared.devid (shared s') = Shared.devid (shared s) →
  command_ok (Shared.devid (shared s')) (issued s') c →
  match c with CSubmit _ => ∃ i, issued s' = issued s ++ [i] | CUnlink _ => issued s' = issued s end →
  cmd_for (Shared.devid (shared s')) <$> issued s' =
    (cmd_for (Shared.devid (shared s')) <$> issued s) ++ submits [c] →
  log_of s' (log ++ [c]).
Proof.
  intros [El Hl Hs Hi Hc] F Hn Ef Ed Hok Hiss Hi'. constructor.
  - by rewrite Ef, El, fmap_app.
  - apply Forall_app. split; [|by apply Forall_singleton]. eapply Forall_impl; [exact Hl|].
    rewrite Ed. intros d. destruct c; [|by rewrite Hiss]. destruct Hiss as [i ->].
    apply command_ok_mono.
  - intros W. unfold no_wrap in W. rewrite Ef in W.
    destruct (next_is_count _ _ _ _ _ _ F Hn W) as [W' E].
    rewrite fmap_app, Hs by done. cbn. rewrite E, El, length_fmap, length_app. cbn.
    rewrite seqZ_snoc. do 2 f_equal. lia.
  - rewrite Hi', Ed. unfold submits in *. by rewrite omap_app, Hi.
  - apply causal_snoc; [done|]. destruct c as [c|c]; [done|]. destruct Hok as (_ & _ & _ & Ht).
    by rewrite Hi, submits_seqnums, <- Hiss.
Qed.

Lemma log_submitted s s' log req seqnum c sh' :
  ok (shared s) (issued s) → faithful (shared s) (issued s) (at_phase s) → log_of s log →
  submit req (shared s) = Done (Ok (seqnum, c), sh') → shared s' = sh' →
  issued s' = issued s ++ [(c, seqnum, req)] →
  log_of s' (log ++ [CSubmit (cmd_of (Shared.devid (shared s)) seqnum req)]).
Proof.
  intros I F L H Es Ei. apply submit_cases in H as (_ & Hd & -> & Hn & ->).
  pose proof Hn as Hn'. apply next_seqnum_loop_Done in Hn' as (_ & Hnu & Hu).
  eapply log_snoc; [exact L|done|exact Hn|by rewrite Es|by rewrite Es| |by eexists|];
    rewrite Ei, ?Es; [|by rewrite fmap_app].
  split; [exact Hu|]. split; [unfold in_use in Hnu; cbn; tauto|].
  exists (Shared.channels (shared s)), req. rewrite elem_of_app, list_elem_of_singleton. auto.
Qed.

Lemma log_unlinking s s' log t seqnum p :
  ok (shared s) (issued s) → faithful (shared s) (issued s) (at_phase s) → log_of s log →
  State.submits (Shared.state (shared s)) !! t = Some p →
  next_seqnum (Shared.state (shared s))
    = Done (seqnum, State.set_next seqnum (Shared.state (shared s))) →
  shared s' = unlinking (shared s) seqnum t → issued s' = issued s →
  log_of s' (log ++ [CUnlink (CmdUnlink.mk seqnum (Shared.devid (shared s)) t)]).
Proof.
  intros I F L Hp Hn Es Ei.
  pose proof Hn as Hn'. apply next_seqnum_loop_Done in Hn' as (_ & Hnu & Hu).
  eapply log_snoc; [exact L|done|exact Hn|by rewrite Es|by rewrite Es| |done|];
    rewrite Ei, ?Es; [|by rewrite app_nil_r].
  split; [exact Hu|]. split; [unfold in_use in Hnu; cbn; tauto|].
  cbn. split; [done|]. destruct (ok_pending _ _ I _ _ Hp) as (req & Hin & _).
  apply list_elem_of_fmap. by exists (PendingSubmit.reply p, t, req).
Qed.

(** A step leaves the log alone or adds one command to it. *)
Lemma step_log s s' log :
  ok (shared s) (issued s) → faithful (shared s) (issued s) (at_phase s) →
  log_of s log → step s s' → ∃ ext, log_of s' (log ++ ext).
Proof.
  intros I F L Hstep.
  assert (∀ s', Shared.frames (shared s') = Shared.frames (shared s) →
    Shared.devid (shared s') = Shared.devid (shared s) → issued s' = issued s →
    ∃ ext, log_of s' (log ++ ext)) as Hsame.
  { intros. exists []. rewrite app_nil_r. by apply (log_same s). }
  pose proof (devid_step _ _ I Hstep) as Hdev.
  destruct Hstep as [s req x sh' H|s t sh' H|s|s e r Hp H
    |s seqnum status len start n ec r d l Hp H Hl
    |s seqnum status len start n ec r e Hp H Hl|s ret r Hp H|s h d l ret r Hp H|s h d l e r Hp H|s H
    |s n ready batch rest Hw Hb|s n ready batch rest e part Hw Hb Hpf|s H];
    try (apply Hsame; [|exact Hdev|done]; cbn;
         first [done | by apply (close_frames _ _ _ I) | by apply (on_unlink_frames _ _ _ I)
               | apply deliver_frames]).
  - destruct x as [[seqnum c]|e]; [eexists; by eapply log_submitted|].
    apply submit_cases in H. apply Hsame; [|exact Hdev|done].
    destruct e; [done|by destruct H as (_ & _ & ->)|by destruct H as [-> _]].
  - apply unlink_cases in H as [[_ ->]|((_ & [p Hp] & _) & seqnum & Hn & ->)]; [by apply Hsame|].
    eexists. by eapply log_unlinking.
Qed.

Lemma step_logged s s' :
  ok (shared s) (issued s) → faithful (shared s) (issued s) (at_phase s) →
  logged s → step s s' → logged s'.
Proof. intros I F [log L] H. destruct (step_log s s' log I F L H). by eexists. Qed.

(** *** The writer *)

Lemma fill_batch_spec ready batch frames b rest :
  fill_batch ready batch frames = (b, rest) →
  b ++ concat rest = batch ++ concat frames ∧ (length rest ≤ length frames)%nat ∧
  rest = drop (length frames - length rest) frames.
Proof.
  revert batch frames. induction ready as [|ready IH]; intros batch frames; simpl.
  { intros [= <- <-]. by rewrite Nat.sub_diag. }
  destruct frames as [|f frames]; [intros [= <- <-]; done|].
  destruct (_ <? _)%nat; [|intros [= <- <-]; by rewrite Nat.sub_diag].
  intros (E & Hl & Hr)%IH. cbn [length concat]. rewrite E, <- app_assoc.
  split; [done|]. split; [lia|]. rewrite Nat.sub_succ_l by done. exact Hr.
Qed.

Lemma next_batch_spec ready frames b rest :
  next_batch ready frames = Some (b, rest) →
  b ++ concat rest = concat frames ∧ (length rest < length frames)%nat ∧
  rest = drop (length frames - length rest) frames.
Proof.
  destruct frames as [|f frames]; [done|]. simpl. intros [= H].
  apply fill_batch_spec in H as (E & Hl & Hr). split; [done|]. split; [simpl; lia|].
  cbn [length]. rewrite Nat.sub_succ_l by done. exact Hr.
Qed.

(** What was written is a prefix of the frames in order, cut between frames while the writer runs. *)
Definition writes (s : sys) : Prop :=
  match writer s with
  | Some n => written s ++ concat (drop n (Shared.frames (shared s))) = concat (Shared.frames (shared s))
              ∧ (n ≤ length (Shared.frames (shared s)))%nat
  | None => written s `prefix_of` concat (Shared.frames (shared s))
  end.

Lemma writes_grow s s' fs :
  writes s → Shared.frames (shared s') = Shared.frames (shared s) ++ fs →
  writer s' = writer s → written s' = written s → writes s'.
Proof.
  unfold writes. intros W -> -> ->. destruct (writer s) as [n|].
  - destruct W as [W Hn]. rewrite drop_app_le, !concat_app, app_assoc, W by done.
    rewrite length_app. split; [done|lia].
  - rewrite concat_app. by apply prefix_app_r.
Qed.

Lemma step_writes s s' : ok (shared s) (issued s) → writes s → step s s' → writes s'.
Proof.
  intros I W Hstep.
  assert (∀ s', Shared.frames (shared s') = Shared.frames (shared s) →
    writer s' = writer s → written s' = written s → writes s') as Hsame.
  { intros s2 Ef Ew Et. apply (writes_grow s _ []); [done|by rewrite app_nil_r|done..]. }
  destruct Hstep as [s req x sh' H|s t sh' H|s|s e r Hp H
    |s seqnum status len start n ec r d l Hp H Hl
    |s seqnum status len start n ec r e Hp H Hl|s ret r Hp H|s h d l ret r Hp H|s h d l e r Hp H|s H
    |s n ready batch rest Hw Hb|s n ready batch rest e part Hw Hb Hpf|s H];
    try (apply Hsame; [|done..]; cbn;
         first [done | by apply (close_frames _ _ _ I) | by apply (on_unlink_frames _ _ _ I)
               | apply deliver_frames]).
  - apply submit_cases in H. destruct x as [[seqnum c]|[| |]]; [|done|..].
    + destruct H as (_ & _ & -> & _ & ->). by eapply writes_grow.
    + destruct H as (_ & _ & ->). by apply Hsame.
    + destruct H as [-> _]. by apply Hsame.
  - apply unlink_cases in H as [[_ ->]|(_ & seqnum & _ & ->)]; [by apply Hsame|].
    by eapply writes_grow.
  - unfold writes in *. rewrite Hw in W. cbn. destruct W as [W Hn].
    apply next_batch_spec in Hb as (E & Hl & Hr). rewrite length_drop in Hl, Hr.
    rewrite <- app_assoc. split; [|lia]. rewrite <- W, <- E. do 3 f_equal. symmetry.
    rewrite Hr at 1. rewrite drop_drop. f_equal. lia.
  - unfold writes in *. rewrite Hw in W. cbn. destruct W as [W Hn].
    rewrite (proj1 (close_frames _ _ _ I)). apply next_batch_spec in Hb as (E & _ & _).
    rewrite <- W, <- E. apply prefix_app. by apply prefix_app_r.
  - unfold writes in *. cbn. destruct (writer s); [|done]. destruct W as [<- _].
    by apply prefix_app_r.
Qed.

(** ** Everything that holds at every point *)

Lemma reachable_all device r s :
  reachable device r s →
  ok (shared s) (issued s) ∧ faithful (shared s) (issued s) (at_phase s) ∧ logged s ∧ writes s.
Proof.
  apply (reachable_ind device r (λ s, faithful (shared s) (issued s) (at_phase s) ∧ logged s ∧ writes s)).
  - split; [|split].
    + constructor; cbn; try done.
      * intros c ret []%elem_of_nil.
      * intros _ k. unfold known, in_use. cbn. rewrite !lookup_empty.
        intros [[->|[[? [=]]|[? [=]]]]|[]%elem_of_nil]. done.
    + exists []. constructor; try done. intros [|] ? ? [=].
    + split; cbn; [done|lia].
  - intros s1 s2 I (F & L & W) Hs.
    split; [by eapply step_faithful|]. split; [by eapply step_logged|by eapply step_writes].
Qed.

End System.
