(* ===== verification/SessionSpec.v ===== *)
(** * SessionSpec: what the session promises (src/src/client.rs)

    Theorems about every reachable state of [System], whatever the interleaving and whatever the
    server sends; the commands on the wire against the server's reading of them; and the device
    list and import operations against the server's answers. *)

From stdpp Require Import base tactics option list gmap fin_maps fin_sets relations.
From S2P Require Import Prelude Wire Protocol ProtocolFacts Server Codec Session SessionFacts System.

Section Spec.
Context {B : BytesCrate} {BL : BytesLaws B}.
Context {R : Type} {AR : AsyncRead R} {AL : AsyncReadLaws R}.

(** C1: Every accepted request is answered exactly once: at every point of every run the reply channels
    of the accepted requests are split, without repetition, into those still pending and those a
    reply was sent on; once the session is closed, for whatever reason, none is pending. *)
Theorem session_resolution device (r : R) s :
  reachable device r s →
  NoDup (chans_of (issued s)) ∧
  pending_chans (Shared.state (shared s)) ++ (Shared.replies (shared s)).*1 ≡ₚ chans_of (issued s) ∧
  (is_closed (shared s) = true →
   pending (shared s) = 0%nat ∧ (Shared.replies (shared s)).*1 ≡ₚ chans_of (issued s)).
Proof.
  intros H. pose proof (reachable_ok _ _ _ H) as I.
  split; [apply (ok_issued _ _ I)|]. split; [apply (ok_channels _ _ I)|].
  intros Hc%bool_decide_eq_true. destruct (ok_closed _ _ I Hc) as [Es _]. unfold pending. rewrite Es. split; [by rewrite map_size_empty|].
  rewrite <- (ok_channels _ _ I). unfold pending_chans. by rewrite Es, map_to_list_empty.
Qed.

(** C2: A request that completes got the server's reply to itself: the sequence number of the reply is
    the one the request was sent with, and (while fewer than 2^32 commands were sent) the reply is
    no longer than what was asked for, with exactly its [actual_length] bytes of data for an IN
    transfer and none for an OUT transfer. *)
Theorem session_replies_match device (r : R) s c ret :
  reachable device r s → (c, Ok ret) ∈ Shared.replies (shared s) →
  ∃ req, (c, RetSubmit.seqnum ret, req) ∈ issued s ∧
    (no_wrap (shared s) → reply_fits req ret).
Proof. intros (_ & F & _)%reachable_all Hin. by apply F. Qed.

(** C24: [submit] and [unlink] return from every reachable state in which at most 2^31 - 1 requests are
    outstanding: the search for a sequence number ends.  A request is accepted exactly when the session
    is open and its data fits its direction and length; it then gets a number that is not in use. *)
Theorem session_progress device (r : R) s req target :
  reachable device r s → Z.of_nat (pending (shared s)) < 2 ^ 31 →
  returns (unlink target (shared s)) ∧
  ∃ x sh', submit req (shared s) = Done (x, sh') ∧
    (is_ok x = true ↔ is_closed (shared s) = false ∧ request_data_ok req) ∧
    ∀ seqnum c, x = Ok (seqnum, c) → is_u 32 seqnum ∧ ¬ in_use (Shared.state (shared s)) seqnum.
Proof.
  intros H Hp. pose proof (reachable_ok _ _ _ H) as I.
  destruct (ops_return _ _ I Hp) as [Hul Hsub]. split; [apply Hul|].
  destruct (Hsub req) as [[x sh'] E].
  exists x, sh'. split; [done|]. pose proof (submit_cases _ _ _ _ E) as C.
  unfold is_closed. destruct x as [[seqnum c]|[| |]]; cbn [is_ok].
  - destruct C as (-> & Hd & _ & Es & _). split; [by rewrite bool_decide_eq_false_2 by (by intros [])|].
    intros ? ? [= <- <-]. apply next_seqnum_loop_Done in Es as (_ & ? & ?). done.
  - done.
  - destruct C as (-> & _ & _). split; [|done]. split; [done|].
    by rewrite bool_decide_eq_true_2 by eauto; intros [].
  - destruct C as [_ Hd]. split; [|done]. split; [done|]. tauto.
Qed.

(** ** The reader task *)

(** The shared state once the reader's loop has acted on the result of [read_one]. *)
Definition after_read (x : result ProtocolError ()) (sh : Shared.t) : Shared.t :=
  match x with Ok _ => sh | Err e => Shared.close (read_reason e) sh end.

(** [read_one] returns on every input, and the reader task's steps are exactly its parts: one step when
    the reply needs no payload or is refused; else a step that takes the header, after which any
    other steps may happen ([between]), and a step that takes the payload. *)
Theorem read_one_simulated (between : Shared.t → Shared.t) (s : sys (R := R)) :
  at_phase s = Idle →
  ∃ x sh' r', read_one between (shared s) (reader s) = Done (x, sh', r') ∧
  ∃ s1, step s s1 ∧
    (((∀ h d l, at_phase s1 ≠ AwaitPayload h d l) ∧ shared s1 = after_read x sh' ∧ reader s1 = r') ∨
     (∃ h d l, at_phase s1 = AwaitPayload h d l ∧ shared s1 = shared s ∧
        ∀ s2, shared s2 = between (shared s) → at_phase s2 = at_phase s1 → reader s2 = reader s1 →
          ∃ s3, step s2 s3 ∧ shared s3 = after_read x sh' ∧ reader s3 = r')).
Proof.
  intros Hp. destruct (read_reply_header_post (reader s)) as (x & r1 & E & Hx).
  unfold read_one. rewrite E. destruct x as [[seqnum st len start n ec|u]|e].
  - destruct (lookup_request seqnum (shared s)) as [[d l]|e] eqn:El.
    + destruct Hx as [(_ & _ & [Hlen _] & _ & [Hn _] & _) _].
      destruct (read_submit_payload_post seqnum st len start n ec (bool_decide (d = Direction.In))
        l r1 Hlen Hn) as (y & r2 & E2 & _). rewrite E2. cbn [mbind outcome_bind].
      destruct y as [ret|e]; eexists _, _, _; (split; [done|]);
        eexists; (split; [by eapply step_header|]); right; eexists _, _, _;
        (split; [done|]); (split; [done|]); intros s2 Es2 Ep2 Er2; cbn in Ep2, Er2.
      * eexists. split; [eapply step_payload; [exact Ep2|by rewrite Er2]|]. cbn. by rewrite Es2.
      * eexists. split; [eapply step_payload_err; [exact Ep2|by rewrite Er2]|]. cbn. by rewrite Es2.
    + eexists _, _, _. split; [done|]. eexists. split; [by eapply step_unknown|]. by left.
  - eexists _, _, _. split; [done|]. eexists. split; [by eapply step_ret_unlink|]. by left.
  - eexists _, _, _. split; [done|]. eexists. split; [by eapply step_header_err|]. by left.
Qed.

(** ** Unlinking *)

(** The life of an unlink: unlinking an outstanding request sends one CMD_UNLINK under a fresh number,
    and unlinking it again does nothing; the server's RET_UNLINK resolves the request as [Unlinked] with
    the server's status; and a RET_SUBMIT that still arrives for it is then parsed with the request's
    direction and length and dropped without a reply. *)
Theorem unlink_lifecycle sh iss target p status ret sh1 :
  ok sh iss → State.submits (Shared.state sh) !! target = Some p →
  unlinkable (Shared.state sh) target →
  target ∉ (λ u : Z * Direction.t * Z, u.1.1) <$> State.unlinked (Shared.state sh) →
  unlink target sh = Done sh1 →
  ∃ u, Shared.frames sh1 = Shared.frames sh
         ++ [encode_command (CUnlink (CmdUnlink.mk u (Shared.devid sh) target))] ∧
    ¬ in_use (Shared.state sh) u ∧ unlink target sh1 = Done sh1 ∧
    let sh2 := on_unlink (RetUnlink.mk u status) sh1 in
    Shared.replies sh2 = Shared.replies sh ++ [(PendingSubmit.reply p, Err (Unlinked status))] ∧
    State.submits (Shared.state sh2) = delete target (State.submits (Shared.state sh)) ∧
    State.unlinks (Shared.state sh2) = State.unlinks (Shared.state sh) ∧
    lookup_request target sh2 = Ok (PendingSubmit.direction p, PendingSubmit.length p) ∧
    Shared.replies (deliver target ret sh2) = Shared.replies sh2.
Proof.
  intros I Hp Hu Hnot H. apply unlink_cases in H as [[Hn _]|(_ & u & En & ->)]; [done|].
  apply next_seqnum_loop_Done in En as (_ & Hfree & _). unfold in_use in Hfree.
  assert (State.unlinks (Shared.state sh) !! u = None) as Hun by (apply eq_None_not_Some; tauto).
  exists u. split; [done|]. split; [done|]. split.
  { unfold unlink. assert (existsb (λ e, e.2 =? target) (map_to_list
      (State.unlinks (Shared.state (unlinking sh u target)))) = true) as ->
      by (apply unlinks_values; exists u; cbn; apply lookup_insert_eq).
    by rewrite orb_true_r. }
  cbn zeta. unfold on_unlink. cbn [RetUnlink.seqnum RetUnlink.status]. cbn [unlinking Shared.state
    Shared.send_frame Shared.set_state State.unlinks State.set_unlinks State.set_next State.submits].
  rewrite lookup_insert_eq, Hp. cbn. split; [done|]. split; [done|].
  split; [by rewrite delete_insert_id|].
  assert (delete target (State.submits (Shared.state sh)) !! target = None) as Hd
    by apply lookup_delete_eq.
  split.
  - unfold lookup_request. cbn. rewrite Hd. unfold push_unlinked.
    enough (find_first (λ u0 : Z * Direction.t * Z, u0.1.1 =? target)
      ((if (length (State.unlinked (Shared.state sh)) =? 256)%nat
        then tail (State.unlinked (Shared.state sh)) else State.unlinked (Shared.state sh))
       ++ [(target, PendingSubmit.direction p, PendingSubmit.length p)])
      = Some (target, PendingSubmit.direction p, PendingSubmit.length p)) as -> by done.
    apply find_first_Some. eexists _, []. split; [done|]. split; [apply Z.eqb_refl|].
    apply Forall_forall. intros v Hv. apply Z.eqb_neq. intros <-. apply Hnot.
    apply list_elem_of_fmap. exists v. split; [done|].
    destruct (_ =? 256)%nat; [|done]. destruct (State.unlinked _); [done|by right].
  - unfold deliver. cbn. by rewrite Hd.
Qed.

(** ** On the wire *)

(** What the writer has written is always a prefix of the encoded commands in the order they were
    issued, cut only at a failed write; while it runs, the rest is exactly the frames still queued.
    Each command carries a non-zero number, a CMD_SUBMIT the accepted request it was built from, and
    a CMD_UNLINK the number of an accepted request. *)
Theorem session_writes device (r : R) s :
  reachable device r s →
  ∃ log, Shared.frames (shared s) = encode_command <$> log ∧
    Forall (command_ok (Shared.devid (shared s)) (issued s)) log ∧
    match writer s with
    | Some n => written s ++ concat (drop n (encode_command <$> log)) = concat (encode_command <$> log)
    | None => written s `prefix_of` concat (encode_command <$> log)
    end.
Proof.
  intros (_ & _ & (log & [El Hl _ _ _]) & W)%reachable_all. exists log. do 2 (split; [done|]).
  unfold writes in W. rewrite El in W. by destruct (writer s); [destruct W|].
Qed.

(** Batching only groups frames: a batch is a non-empty run of the queue's first frames, in order and
    whole, the rest stays queued, and the batch without its last frame is below the batch limit. *)
Theorem next_batch_correct ready frames b rest :
  next_batch ready frames = Some (b, rest) →
  b ++ concat rest = concat frames ∧ rest `suffix_of` frames ∧ (length rest < length frames)%nat ∧
  (∃ b' f, b = b' ++ f ∧ f ∈ frames ∧ ((length b' < BATCH_LIMIT)%nat)).
Proof.
  intros H. pose proof (next_batch_spec _ _ _ _ H) as (E & Hl & Hr). split; [done|].
  split; [rewrite Hr; apply suffix_drop|]. split; [done|].
  destruct frames as [|f0 frames]; [done|]. simpl in H. injection H as H.
  clear E Hl Hr. revert f0 frames H.
  assert (∀ ready batch frames b rest, fill_batch ready batch frames = (b, rest) →
    (b = batch) ∨ ∃ b' f, b = b' ++ f ∧ f ∈ frames ∧ (length b' < BATCH_LIMIT)%nat) as Hfill.
  { clear. induction ready as [|ready IH]; intros batch frames b rest; simpl.
    { intros [= <- <-]. by left. }
    destruct frames as [|f frames]; [intros [= <- <-]; by left|].
    destruct (_ <? _)%nat eqn:E; [apply Nat.ltb_lt in E|intros [= <- <-]; by left].
    intros [->|(b' & g & -> & Hg & ?)]%IH; right.
    - exists batch, f. split; [done|]. split; [by left|done].
    - exists b', g. split; [done|]. split; [by right|done]. }
  intros f0 frames [->|(b' & f & -> & Hf & ?)]%Hfill.
  - exists [], f0. split; [done|]. split; [by left|]. by apply Nat.ltb_lt.
  - exists b', f. split; [done|]. split; [by right|done].
Qed.

(** ** The server's side of the connection *)

(** A request the callers of [submit] may build: fields of their widths, setup bytes on endpoint 0
    only, at most 1024 well-formed packets, at most the server's transfer limit. *)
Record request_wf (req : SubmitRequest.t) : Prop := {
  rwf_flags : is_u 32 (SubmitRequest.transfer_flags req);
  rwf_length : 0 ≤ SubmitRequest.length req ≤ 16 * 1024 * 1024;
  rwf_setup_len : length (SubmitRequest.setup req) = 8%nat;
  rwf_setup : Z.land (SubmitRequest.ep req) 0x0f ≠ 0 → SubmitRequest.setup req = replicate 8 0;
  rwf_start_frame : is_u 32 (SubmitRequest.start_frame req);
  rwf_interval : is_u 32 (SubmitRequest.interval req);
  rwf_iso_len : Z.of_nat (length (SubmitRequest.iso_packets req)) ≤ 1024;
  rwf_iso : Forall Iso.wf (SubmitRequest.iso_packets req);
}.

(** What the server makes of a command. *)
Definition seen_by_server (c : SessionFacts.command) : Server.command :=
  match c with
  | CSubmit c => Server.Submit (urb_of c)
  | CUnlink c => Server.Unlink (CmdUnlink.seqnum c) (CmdUnlink.unlink_seqnum c)
  end.

(** The server reading [n] commands, completing none of them: its pending table only grows. *)
Fixpoint serve (n : nat) (devid : Z) (pending : list Z) (r : R) :
    outcome (list Server.command * list violation * R) :=
  match n with
  | O => Done ([], [], r)
  | S n =>
    '(c, vs, r) ← read_command devid pending r;
    match c with
    | None => Done ([], vs, r)
    | Some c =>
      let pending := match c with Server.Submit u => Urb.seqnum u :: pending | _ => pending end in
      '(cs, vs', r) ← serve n devid pending r;
      Done (c :: cs, vs ++ vs', r)
    end
  end.

Lemma cmd_of_wf devid seqnum req :
  is_u 32 devid → is_u 32 seqnum → request_wf req →
  Z.of_nat (length (SubmitRequest.data req)) =
    (if bool_decide (SubmitRequest.direction req = Direction.Out)
     then SubmitRequest.length req else 0) →
  submit_wf (cmd_of devid seqnum req).
Proof.
  intros Hd Hs [] Hdata. constructor; cbn; try done.
  - by destruct (SubmitRequest.direction req).
  - assert (Z.land (SubmitRequest.ep req) 15 = SubmitRequest.ep req mod 2 ^ 4) as ->
      by (change 15 with (Z.ones 4); apply Z.land_ones; lia).
    pose proof (Z.mod_pos_bound (SubmitRequest.ep req) (2 ^ 4) ltac:(lia)). lia.
  - rewrite Hdata. by destruct (SubmitRequest.direction req).
Qed.

Lemma serve_log devid iss log : ∀ (pending : list Z) (r : R) rest,
  is_u 32 devid → (∀ i, i ∈ iss → is_u 32 i.1.2) → Forall (λ i : issue, request_wf i.2) iss →
  Forall (command_ok devid iss) log →
  NoDup (command_seqnum <$> log) → (∀ s, s ∈ command_seqnum <$> log → s ∉ pending) →
  incoming r = concat (encode_command <$> log) ++ rest →
  ∃ r', serve (length log) devid pending r = Done (seen_by_server <$> log, [], r') ∧
        incoming r' = rest.
Proof.
  intros pending r rest Hd Hiss Hreq. revert pending r.
  induction log as [|c log IH]; intros pending r Hlog Hnd Hfree Hin; [by exists r|].
  apply Forall_cons in Hlog as [Hc Hlog]. cbn [fmap list_fmap] in Hnd, Hfree, Hin.
  apply NoDup_cons in Hnd as [Hnew Hnd]. cbn [concat] in Hin. rewrite <- app_assoc in Hin.
  assert (∀ s, s ∈ command_seqnum <$> log → s ∉ pending) as Hfree' by (intros; apply Hfree; by right).
  assert (command_seqnum c ∉ pending) as Hcp by (apply Hfree; by left).
  destruct Hc as (Hu & _ & Hc). destruct c as [c|c]; cbn [command_seqnum encode_command] in *.
  - destruct Hc as (ch & req & Hi & Ec & Hdata). rewrite Ec in Hdata. cbn in Hdata.
    assert (submit_wf c) as W.
    { rewrite Ec. apply cmd_of_wf; [done..| |exact Hdata].
      rewrite Forall_forall in Hreq. by apply (Hreq _ Hi). }
    destruct (cmd_submit_decodes c pending _ r W Hcp Hin) as (r1 & E1 & Hin1).
    assert (CmdSubmit.devid c = devid) as Ed by (by rewrite Ec).
    destruct (IH (CmdSubmit.seqnum c :: pending) r1) as (r2 & E2 & Hin2); [done|done| |done|].
    { intros s Hs. apply not_elem_of_cons. split; [|by apply Hfree']. by intros ->. }
    exists r2. split; [|done]. cbn [length serve]. rewrite Ed in E1. rewrite E1.
    cbn [mbind outcome_bind]. cbn [urb_of Urb.seqnum]. by rewrite E2.
  - destruct Hc as [Ed Ht].
    assert (is_u 32 (CmdUnlink.unlink_seqnum c)) as Htu.
    { apply list_elem_of_fmap in Ht as (i & -> & Hi). by apply Hiss. }
    destruct (cmd_unlink_decodes c pending (concat (encode_command <$> log) ++ rest) r)
      as (r1 & E1 & Hin1); [done|by rewrite Ed|done|done|done|].
    destruct (IH pending r1) as (r2 & E2 & Hin2); [done..|].
    exists r2. split; [|done]. cbn [length serve]. rewrite Ed in E1. rewrite E1.
    cbn [mbind outcome_bind]. by rewrite E2.
Qed.

Lemma reachable_devid device (r : R) s :
  reachable device r s → Shared.devid (shared s) = ExportedDevice.devid device.
Proof.
  intros H. eapply (reachable_ind device r (λ s, Shared.devid (shared s) = ExportedDevice.devid device));
    [done| |exact H]. intros s1 s2 I E Hs. by rewrite (devid_step _ _ I Hs).
Qed.

(** What the server must make of an accepted request: the URB with the request's own fields, under
    the number the request was given; the endpoint number is the low four bits of the address. *)
Definition requested (devid : Z) (i : issue) : Urb.t :=
  let '(_, seqnum, req) := i in
  Urb.mk seqnum devid (match SubmitRequest.direction req with Direction.In => 1 | Direction.Out => 0 end)
    (SubmitRequest.ep req mod 16) (SubmitRequest.transfer_flags req) (SubmitRequest.length req)
    (SubmitRequest.start_frame req) (Z.of_nat (length (SubmitRequest.iso_packets req)))
    (SubmitRequest.interval req) (SubmitRequest.setup req) (SubmitRequest.data req)
    (Iso.to_server <$> SubmitRequest.iso_packets req).

Lemma urb_of_cmd devid i : urb_of (cmd_for devid i) = requested devid i.
Proof.
  destruct i as [[c n] req]. unfold urb_of, cmd_for, requested, cmd_of. cbn. f_equal.
  change 15 with (Z.ones 4). by rewrite Z.land_ones.
Qed.

(** The URBs among the commands the server read, and the requests its unlinks name. *)
Definition urbs (cmds : list Server.command) : list Urb.t :=
  omap (λ c, match c with Server.Submit u => Some u | Server.Unlink _ _ => None end) cmds.

Definition unlink_targets (cmds : list Server.command) : list Z :=
  omap (λ c, match c with Server.Unlink _ t => Some t | Server.Submit _ => None end) cmds.

Lemma urbs_seen log : urbs (seen_by_server <$> log) = urb_of <$> submits log.
Proof. induction log as [|[c|c] log IH]; [done|cbn; by f_equal|done]. Qed.

Lemma unlink_targets_seen devid iss log :
  Forall (command_ok devid iss) log → unlink_targets (seen_by_server <$> log) ⊆ (λ i : issue, i.1.2) <$> iss.
Proof.
  induction 1 as [|c log Hc _ IH]; [by intros ? ?%elem_of_nil|].
  destruct c as [c|c]; cbn; [exact IH|]. intros t [->|Ht]%elem_of_cons; [|by apply IH].
  apply Hc.
Qed.

(** C11: What a session puts on the wire, the server reads back: while fewer than 2^32 commands were sent
    and the requests are ones a server accepts, the server reads every frame and notes no protocol
    violation (in particular no number is reused while it is pending, even if the server completes
    nothing); the URBs it decodes are those of the accepted requests, field by field and in the order
    of acceptance, and the unlinks it decodes name accepted requests. *)
Theorem server_reads_session device (r : R) s (r0 : R) rest :
  reachable device r s → no_wrap (shared s) → is_u 32 (ExportedDevice.devid device) →
  Forall (λ i : issue, request_wf i.2) (issued s) →
  incoming r0 = concat (Shared.frames (shared s)) ++ rest →
  ∃ cmds r1,
    serve (length (Shared.frames (shared s))) (ExportedDevice.devid device) [] r0
      = Done (cmds, [], r1) ∧
    incoming r1 = rest ∧ length cmds = length (Shared.frames (shared s)) ∧
    urbs cmds = requested (ExportedDevice.devid device) <$> issued s ∧
    unlink_targets cmds ⊆ (λ i : issue, i.1.2) <$> issued s.
Proof.
  intros H W Hd Hreq Hin. pose proof (reachable_devid _ _ _ H) as Edev.
  apply reachable_all in H as (I & _ & (log & [El Hl Hs Hi _]) & _).
  rewrite El in Hin. rewrite Edev in Hl, Hi.
  destruct (serve_log (ExportedDevice.devid device) (issued s) log [] r0 rest Hd)
    as (r1 & E & ?); [by intros i ?; apply (ok_seqnums _ _ I)|done|done| | |done|].
  { rewrite (Hs W). apply NoDup_seqZ. }
  { intros s' _. apply not_elem_of_nil. }
  exists (seen_by_server <$> log), r1. rewrite El, !length_fmap. do 3 (split; [done|]).
  split; [|by eapply unlink_targets_seen].
  rewrite urbs_seen, Hi, <- list_fmap_compose. apply list_fmap_ext. intros _ i _. apply urb_of_cmd.
Qed.

End Spec.

(** ** Listing and importing devices *)

Section Client.
Context {B : BytesCrate} {BL : BytesLaws B}.
Context {R : Type} {AR : AsyncRead R} {AL : AsyncReadLaws R} {AW : AsyncWrite R}
  {WL : AsyncWriteLaws R}.

(** A reader that writes nothing. *)
Definition quiet {A} (m : rd R A) : Prop :=
  ∀ r x r', m r = Done (x, r') → outgoing r' = outgoing r.

Lemma quiet_ret {A} (a : A) : quiet (mret a).
Proof. by intros r x r' [= _ <-]. Qed.

Lemma quiet_err {A} e : quiet (A := A) (rd_err e).
Proof. by intros r x r' [= _ <-]. Qed.

Lemma quiet_pure {A} (m : outcome A) : quiet (rd_pure m).
Proof. intros r x r'. unfold rd_pure. destruct m; [|done..]. by intros [= _ <-]. Qed.

Lemma quiet_bind {A C} (m : rd R A) (f : A → rd R C) :
  quiet m → (∀ a, quiet (f a)) → quiet (m ≫= f).
Proof.
  intros Hm Hf r x r'. unfold mbind, rd_bind.
  destruct (m r) as [[[a|e] r1]| |] eqn:E; [|by intros [= _ <-]; eapply Hm|done..].
  intros H. rewrite (Hf a _ _ _ H). by eapply Hm.
Qed.

Lemma quiet_read_exact n : quiet (rd_io (read_exact n)).
Proof.
  intros r x r'. unfold rd_io. destruct (read_exact n r) as [y r1] eqn:E.
  apply read_exact_outgoing in E. by destruct y; intros [= _ <-].
Qed.

Lemma quiet_read_u32 : quiet (rd_io read_u32).
Proof.
  intros r x r'. unfold rd_io. destruct (read_u32 r) as [y r1] eqn:E.
  apply read_u32_outgoing in E. by destruct y; intros [= _ <-].
Qed.

Lemma quiet_if {A} (b : bool) (m1 m2 : rd R A) : quiet m1 → quiet m2 → quiet (if b then m1 else m2).
Proof. by destruct b. Qed.

#[local] Hint Resolve quiet_ret quiet_err quiet_pure quiet_bind quiet_read_exact quiet_read_u32
  quiet_if : quiet.

Ltac quiet := repeat first [apply quiet_bind; [|intros] | apply quiet_if | solve [auto with quiet]
                           | case_match].

Lemma quiet_read_op_header expected : quiet (read_op_header expected).
Proof. unfold read_op_header. quiet. Qed.

Lemma quiet_read_device : quiet read_device.
Proof. unfold read_device. quiet. Qed.

Lemma quiet_read_listed_devices count ds : quiet (read_listed_devices count ds).
Proof.
  revert ds. induction count as [|count IH]; intros ds; simpl; [apply quiet_ret|].
  apply quiet_bind; [|intros; apply IH]. unfold read_listed_device.
  apply quiet_bind; [apply quiet_read_device|intros]. quiet.
Qed.

Lemma quiet_read_devlist_reply : quiet read_devlist_reply.
Proof.
  unfold read_devlist_reply. apply quiet_bind; [apply quiet_read_op_header|intros _].
  apply quiet_bind; [apply quiet_read_u32|intros n]. apply quiet_if; [apply quiet_err|].
  apply quiet_read_listed_devices.
Qed.

Lemma quiet_read_import_reply : quiet read_import_reply.
Proof.
  unfold read_import_reply. apply quiet_bind; [apply quiet_read_op_header|intros _].
  apply quiet_read_device.
Qed.

Lemma write_request_cases bytes r :
  (∃ r', write_request bytes r = Done (Ok tt, r') ∧ outgoing r' = outgoing r ++ bytes ∧
         incoming r' = incoming r) ∨
  (∃ e r', write_request bytes r = Done (Err (Io e), r')).
Proof.
  unfold write_request, rd_io. destruct (write_all bytes r) as [[[]|e] r'] eqn:E.
  - left. exists r'. split; [done|]. by apply write_all_Ok.
  - right. by exists e, r'.
Qed.

(** The request of [list_devices]. *)
Definition devlist_request : list Z :=
  be_bytes 2 USBIP_VERSION ++ be_bytes 2 OP_REQ_DEVLIST ++ be_bytes 4 0.

Lemma list_devices_eq r :
  list_devices r = (write_request devlist_request ≫= λ _, read_devlist_reply) r.
Proof. unfold list_devices. rewrite devlist_request_layout. done. Qed.

Lemma list_devices_returns r : ∃ x r', list_devices r = Done (x, r').
Proof.
  rewrite list_devices_eq. unfold mbind, rd_bind.
  destruct (write_request_cases devlist_request r) as [(r1 & -> & _)|(e & r1 & ->)]; [|eauto].
  destruct (read_devlist_reply_post r1) as (x & r2 & -> & _). destruct x; eauto.
Qed.

Lemma list_devices_decodes exports rest r :
  Forall export_wf exports → Z.of_nat (length exports) ≤ MAX_EXPORTED_DEVICES →
  ∃ out, devlist_reply exports = Done out ∧
    (incoming r = out ++ rest →
     ∃ x r', list_devices r = Done (x, r') ∧
       ((∃ e, x = Err (Io e)) ∨
        (x = Ok ((λ e, device_of_export e true) <$> exports) ∧ incoming r' = rest ∧
         outgoing r' = outgoing r ++ devlist_request))).
Proof.
  intros W Hn. destruct (devlist_decodes exports rest r W Hn) as (out & E & _).
  exists out. split; [done|]. intros Hin. rewrite list_devices_eq.
  unfold mbind at 1, rd_bind at 1.
  destruct (write_request_cases devlist_request r) as [(r1 & -> & Ho & Hi)|(e & r1 & ->)].
  - destruct (devlist_decodes exports rest r1 W Hn) as (out' & E' & H).
    rewrite E in E'. injection E' as <-. destruct H as (r2 & E2 & Hin2); [by rewrite Hi|].
    exists (Ok ((λ e, device_of_export e true) <$> exports)), r2. split; [exact E2|]. right.
    split; [done|]. split; [done|].
    by rewrite (quiet_read_devlist_reply _ _ _ E2), Ho.
  - exists (Err (Io e)), r1. eauto.
Qed.

(** Listing devices against a server that answers: the client writes exactly one device list request
    and returns the exported devices, or fails with the error of its own write. *)
Theorem list_devices_exports exports rest r :
  Forall export_wf exports → Z.of_nat (length exports) ≤ MAX_EXPORTED_DEVICES →
  ∃ out, devlist_reply exports = Done out ∧
    (incoming r = out ++ rest →
     ∃ x r', list_devices r = Done (x, r') ∧
       ((∃ e, x = Err (Io e)) ∨
        (x = Ok ((λ e, device_of_export e true) <$> exports) ∧ incoming r' = rest ∧
         outgoing r' = outgoing r ++ devlist_request))).
Proof. apply list_devices_decodes. Qed.

Lemma import_eq busid r :
  import busid r =
  match encode_import_request busid with
  | Done (Ok request) =>
    (write_request request ≫= λ _,
       device ← read_import_reply;
       if negb (bool_decide (ExportedDevice.busid device = busid)) then
         rd_err (Invalid (ImportedBusid (ExportedDevice.busid device) busid))
       else mret (device, start device)) r
  | Done (Err e) => Done (Err e, r)
  | Panic => Panic
  | OutOfFuel => OutOfFuel
  end.
Proof.
  unfold import, rd_pure. unfold mbind at 1, rd_bind at 1.
  by destruct (encode_import_request busid) as [[request|e]| |].
Qed.

Lemma import_post busid r :
  ∃ x r', import busid r = Done (x, r') ∧
    match x with
    | Ok (device, sh) =>
      ExportedDevice.busid device = busid ∧ (length busid < BUSID_SIZE)%nat ∧
      sh = start device ∧
      ∃ req, encode_import_request busid = Done (Ok req) ∧ outgoing r' = outgoing r ++ req
    | Err (Invalid (ImportedBusid b b')) => b' = busid ∧ b ≠ busid
    | Err (Invalid (InvalidBusid b)) => b = busid ∧ r' = r
    | Err (UnexpectedReply e a) => e = OP_REP_IMPORT ∧ a ≠ OP_REP_IMPORT
    | Err (Status st) => st ≠ 0
    | Err (Io _) => True
    | Err _ => False
    end.
Proof.
  rewrite import_eq. destruct (import_request_cases busid) as (x & Ex & Hx). rewrite Ex.
  destruct x as [req|e].
  2: { destruct Hx as [-> _]. eexists _, _. split; [done|]. done. }
  destruct Hx as (Hlen & _). unfold mbind at 1, rd_bind at 1.
  destruct (write_request_cases req r) as [(r1 & -> & Ho & Hi)|(e & r1 & ->)].
  2: { eexists _, _. by split. }
  destruct (read_import_reply_post r1) as (y & r2 & E2 & Hy).
  pose proof (quiet_read_import_reply _ _ _ E2) as Hq.
  unfold mbind, rd_bind. rewrite E2. destruct y as [d|e].
  - case_bool_decide as Hb; cbn [negb].
    + eexists _, _. split; [done|]. do 3 (split; [done|]). exists req. by rewrite Hq, Ho.
    + eexists _, _. split; [done|]. done.
  - eexists _, _. split; [done|]. by destruct e.
Qed.

(** C31: Importing returns whatever the server sends, and a session is only started for the device that was
    asked for: then the bus id fits the protocol, the import request was written, the device record
    carries that bus id, and the session starts empty with the device's id. *)
Theorem import_checks_busid busid r :
  ∃ x r', import busid r = Done (x, r') ∧
    match x with
    | Ok (device, sh) =>
      ExportedDevice.busid device = busid ∧ (length busid < BUSID_SIZE)%nat ∧
      sh = start device ∧
      ∃ req, encode_import_request busid = Done (Ok req) ∧ outgoing r' = outgoing r ++ req
    | Err (Invalid (ImportedBusid b b')) => b' = busid ∧ b ≠ busid
    | Err (Invalid (InvalidBusid b)) => b = busid ∧ r' = r
    | Err (UnexpectedReply e a) => e = OP_REP_IMPORT ∧ a ≠ OP_REP_IMPORT
    | Err (Status st) => st ≠ 0
    | Err (Io _) => True
    | Err _ => False
    end.
Proof. apply import_post. Qed.

Lemma import_session export busid rest r :
  (∀ e, export = Some e → export_wf e) →
  ∃ out, import_reply export = Done out ∧
    (incoming r = out ++ rest →
     ∃ x r', import busid r = Done (x, r') ∧
       match encode_busid busid with
       | Err e => x = Err e ∧ r' = r
       | Ok _ =>
         (∃ e, x = Err (Io e)) ∨
         (incoming r' = rest ∧
          (∃ req, encode_import_request busid = Done (Ok req) ∧ outgoing r' = outgoing r ++ req) ∧
          x = match export with
              | None => Err (Status 1)
              | Some e =>
                if bool_decide (ExportDev.busid e = busid)
                then Ok (device_of_export e false, start (device_of_export e false))
                else Err (Invalid (ImportedBusid (ExportDev.busid e) busid))
              end)
       end).
Proof.
  intros W. destruct (import_decodes export rest r W) as (out & E & _). exists out.
  split; [done|]. intros Hin. rewrite import_eq.
  destruct (import_request_cases busid) as (x & Ex & Hx). rewrite Ex. destruct x as [req|e].
  2: { destruct Hx as [-> Hbad]. eexists _, _. split; [done|].
       destruct (encode_busid busid) as [id|e] eqn:Eb.
       - exfalso. unfold encode_busid in Eb. destruct (_ || _) eqn:Eo; [done|].
         apply orb_false_iff in Eo as [Eo1 Eo2]. apply Nat.leb_gt in Eo1. apply existsb_zero in Eo2.
         destruct Hbad; [lia|done].
       - unfold encode_busid in Eb. destruct (_ || _); [|done]. by injection Eb as <-. }
  destruct Hx as (Hlen & Hz & _). rewrite encode_busid_ok by done.
  unfold mbind at 1, rd_bind at 1.
  destruct (write_request_cases req r) as [(r1 & -> & Ho & Hi)|(e & r1 & ->)].
  2: { eexists _, _. split; [done|]. left. eauto. }
  destruct (import_decodes export rest r1 W) as (out' & E' & H). rewrite E in E'. injection E' as <-.
  destruct H as (r2 & E2 & Hin2); [by rewrite Hi|].
  pose proof (quiet_read_import_reply _ _ _ E2) as Hq. unfold mbind, rd_bind. rewrite E2.
  assert (∃ req0, @Done (result ProtocolError (list Z)) (Ok req) = Done (Ok req0) ∧
    outgoing r2 = outgoing r ++ req0) as Hreq by (exists req; by rewrite Hq, Ho).
  destruct export as [e|].
  - change (ExportedDevice.busid (device_of_export e false)) with (ExportDev.busid e).
    case_bool_decide; cbn [negb]; eexists _, _; (split; [done|]); right; auto.
  - eexists _, _. split; [done|]. right. auto.
Qed.

(** C32: Importing from a server: a bus id that does not fit is refused without any I/O; otherwise the
    client writes the import request and ends with a session for the export, the server's error
    status, or a refusal when the server answers with another device. *)
Theorem import_exported export busid rest r :
  (∀ e, export = Some e → export_wf e) →
  ∃ out, import_reply export = Done out ∧
    (incoming r = out ++ rest →
     ∃ x r', import busid r = Done (x, r') ∧
       match encode_busid busid with
       | Err e => x = Err e ∧ r' = r
       | Ok _ =>
         (∃ e, x = Err (Io e)) ∨
         (incoming r' = rest ∧
          (∃ req, encode_import_request busid = Done (Ok req) ∧ outgoing r' = outgoing r ++ req) ∧
          x = match export with
              | None => Err (Status 1)
              | Some e =>
                if bool_decide (ExportDev.busid e = busid)
                then Ok (device_of_export e false, start (device_of_export e false))
                else Err (Invalid (ImportedBusid (ExportDev.busid e) busid))
              end)
       end).
Proof. apply import_session. Qed.

End Client.

(** ** A run: one IN transfer that completes, one OUT transfer that is unlinked *)

Import Reference.

Module Run.

Definition device : ExportedDevice.t := device_of_export Samples.export false.

Definition req_in : SubmitRequest.t :=
  SubmitRequest.mk 0x81 Direction.In 0 6 (replicate 8 0) [] 0 0 [].
Definition req_out : SubmitRequest.t :=
  SubmitRequest.mk 0x02 Direction.Out 0 2 (replicate 8 0) [7; 8] 0 0 [].

Definition ret : RetSubmit.t := RetSubmit.mk 1 0 3 0 0 [9; 8; 7] [].

(** What the server sends: the completion of request 1, then the RET_UNLINK 3. *)
Definition stream : pipe :=
  ret_submit (Urb.mk 1 0x10002 1 1 0 6 0 0 0 (replicate 8 0) [] [])
    (Completion.mk 0 [9; 8; 7] None [] 0)
  ++ unlink_reply 3 true.

Definition or_start {A} (m : outcome A) (f : A → Shared.t) : Shared.t :=
  match m with Done a => f a | _ => start device end.

Definition sh1 : Shared.t := or_start (submit req_in (start device)) snd.
Definition sh2 : Shared.t := or_start (submit req_out sh1) snd.
Definition sh3 : Shared.t := or_start (unlink 2 sh2) id.
Definition sh4 : Shared.t := deliver 1 ret sh3.
Definition sh5 : Shared.t := on_unlink (RetUnlink.mk 3 (-104)) sh4.

Definition iss : list issue := [(0%nat, 1, req_in); (1%nat, 2, req_out)].

Definition rest_of {A} (m : outcome (A * pipe)) : pipe := match m with Done (_, r) => r | _ => [] end.

Definition r1 : pipe := rest_of (read_reply_header stream).
Definition r2 : pipe := drop 3 r1.
Definition r3 : pipe := rest_of (read_reply_header r2).

Definition s_end : sys :=
  mk_sys sh5 iss r3 Idle (Some 3%nat) (concat (Shared.frames sh5)).

Lemma reachable_end : reachable device stream s_end.
Proof.
  unfold reachable. eapply rtc_l.
  { eapply (step_submit (started device stream) req_in (Ok (1, 0%nat)) sh1). vm_compute. reflexivity. }
  eapply rtc_l.
  { eapply (step_submit _ req_out (Ok (2, 1%nat)) sh2). vm_compute. reflexivity. }
  eapply rtc_l. { eapply (step_unlink _ 2 sh3). vm_compute. reflexivity. }
  eapply rtc_l.
  { eapply (step_header _ 1 0 3 0 0 0 r1 Direction.In 6); [reflexivity|vm_compute; reflexivity..]. }
  eapply rtc_l.
  { eapply (step_payload _ _ _ _ ret r2); [reflexivity|vm_compute; reflexivity]. }
  eapply rtc_l.
  { eapply (step_ret_unlink _ (RetUnlink.mk 3 (-104)) r3); [reflexivity|vm_compute; reflexivity]. }
  eapply rtc_l.
  { eapply (step_write _ 0 3 (concat (Shared.frames sh5)) []); [reflexivity|vm_compute; reflexivity]. }
  apply rtc_refl.
Qed.

End Run.

Lemma session_resolution_witness :
  pending_chans (Shared.state (shared Run.s_end)) ++ (Shared.replies (shared Run.s_end)).*1
  ≡ₚ chans_of (issued Run.s_end).
Proof. exact (proj1 (proj2 (session_resolution _ _ _ Run.reachable_end))). Defined.

Lemma session_replies_match_witness :
  ∃ req, (0%nat, RetSubmit.seqnum Run.ret, req) ∈ issued Run.s_end ∧
    (no_wrap (shared Run.s_end) → reply_fits req Run.ret).
Proof.
  apply (session_replies_match _ _ _ 0%nat Run.ret Run.reachable_end). vm_compute. left.
Defined.

Lemma session_progress_witness :
  ∃ x sh', submit Run.req_in (shared Run.s_end) = Done (x, sh').
Proof.
  destruct (session_progress _ _ _ Run.req_in 2 Run.reachable_end) as [_ (x & sh' & E & _)].
  - vm_compute. reflexivity.
  - exists x, sh'. exact E.
Defined.

Lemma session_writes_witness :
  ∃ log, Shared.frames (shared Run.s_end) = encode_command <$> log.
Proof.
  destruct (session_writes _ _ _ Run.reachable_end) as (log & E & _). exists log. exact E.
Defined.

Lemma server_reads_session_witness :
  ∃ cmds r1,
    serve (R := pipe) 3 (ExportedDevice.devid Run.device) []
      (concat (Shared.frames (shared Run.s_end))) = Done (cmds, [], r1) ∧
    urbs cmds = requested (ExportedDevice.devid Run.device) <$> issued Run.s_end.
Proof.
  destruct (server_reads_session _ _ _ (concat (Shared.frames (shared Run.s_end))) []
    Run.reachable_end) as (cmds & r1 & E1 & _ & _ & E2 & _).
  - vm_compute. reflexivity.
  - apply (bool_decide_unpack _). vm_compute. exact I.
  - repeat constructor; try (by apply (bool_decide_unpack _)); cbn; lia.
  - vm_compute. reflexivity.
  - exists cmds, r1. exact (conj E1 E2).
Defined.

Lemma next_batch_correct_witness :
  [1; 2] ++ concat [[3]] = concat [[1]; [2]; [3]].
Proof. apply (next_batch_correct 1 [[1]; [2]; [3]] [1; 2] [[3]]). vm_compute. reflexivity. Defined.

Lemma list_devices_exports_witness :
  ∃ out x r', devlist_reply [Samples.export] = Done out ∧
    list_devices (R := duplex) (out, []) = Done (x, r').
Proof.
  destruct (list_devices_exports (R := duplex) [Samples.export] []
    (match devlist_reply [Samples.export] with Done o => (o, []) | _ => ([], []) end))
    as (out & E & H).
  - constructor; [apply Samples.export_ok|constructor].
  - vm_compute. congruence.
  - rewrite E in H. destruct H as (x & r' & H & _).
    { rewrite app_nil_r. revert E. vm_compute. intros [= <-]. reflexivity. }
    by exists out, x, r'.
Defined.

Lemma import_checks_busid_witness :
  ∃ x r', import (R := duplex) [0x31; 0x2d; 0x32] ([1; 17; 0; 3; 0; 0; 0; 1], []) = Done (x, r').
Proof.
  destruct (import_checks_busid (R := duplex) [0x31; 0x2d; 0x32] ([1; 17; 0; 3; 0; 0; 0; 1], []))
    as (x & r' & E & _). by exists x, r'.
Defined.

Lemma import_exported_witness :
  ∃ out x r', import_reply (Some Samples.export) = Done out ∧
    import (R := duplex) [0x31; 0x2d; 0x32] (out, []) = Done (x, r').
Proof.
  destruct (import_exported (R := duplex) (Some Samples.export) [0x31; 0x2d; 0x32] []
    (match import_reply (Some Samples.export) with Done o => (o, []) | _ => ([], []) end))
    as (out & E & H).
  - intros e [= <-]. apply Samples.export_ok.
  - rewrite E in H. destruct H as (x & r' & H & _).
    { rewrite app_nil_r. revert E. vm_compute. intros [= <-]. reflexivity. }
    by exists out, x, r'.
Defined.

Lemma unlink_lifecycle_witness :
  ∃ u, Shared.frames Run.sh3 = Shared.frames Run.sh2
         ++ [encode_command (CUnlink (CmdUnlink.mk u (Shared.devid Run.sh2) 2))].
Proof.
  assert (reachable Run.device Run.stream
    (mk_sys Run.sh2 Run.iss Run.stream Idle (Some 0%nat) [])) as H.
  { eapply rtc_l; [apply (step_submit _ Run.req_in (Ok (1, 0%nat)) Run.sh1); vm_compute; reflexivity|].
    eapply rtc_l; [apply (step_submit _ Run.req_out (Ok (2, 1%nat)) Run.sh2); vm_compute; reflexivity|].
    apply rtc_refl. }
  destruct (unlink_lifecycle Run.sh2 Run.iss 2 (PendingSubmit.mk Direction.Out 2 1%nat) (-104) Run.ret
    Run.sh3 (reachable_ok _ _ _ H)) as (u & E & _).
  - vm_compute. reflexivity.
  - split; [reflexivity|]. split; [vm_compute; eauto|]. intros s.
    assert (State.unlinks (Shared.state Run.sh2) = ∅) as -> by (vm_compute; reflexivity).
    by rewrite lookup_empty.
  - apply (bool_decide_unpack _). vm_compute. exact I.
  - vm_compute. reflexivity.
  - by exists u.
Defined.

Lemma read_one_simulated_witness :
  ∃ x sh' r', read_one id Run.sh2 Run.stream = Done (x, sh', r').
Proof.
  destruct (read_one_simulated id (mk_sys Run.sh2 Run.iss Run.stream Idle None [])
    eq_refl) as (x & sh' & r' & E & _). by exists x, sh', r'.
Defined.
