(* ===== verification/Peers.v ===== *)
(** * Peers: a session and the server, connected (src/src/client.rs, src/tests/support/server.rs)

    The tasks of a session ([System.step]) and those of a server connection ([Conn.step]) run
    concurrently; what one side's writer writes, the other side's reader reads, in order.  A connection
    may break at any time: a side then sees an I/O error, or the end of the stream after what has
    arrived.  The theorems relate the two ends: they agree on what was asked, what was answered and how,
    and in a quiet moment on what is outstanding.

    [net_step]: a step of either side, whose bytes written arrive at the other; a failed read at any
    time.  [fair], [conforming]: what the theorems assume of the requests and of the devices. *)

From stdpp Require Import base tactics option list gmap fin_maps fin_sets relations sorting.
From S2P Require Import Prelude Wire Protocol ProtocolFacts Server Serving ServingFacts Session SessionFacts System SessionSpec.

(** A stream that more bytes can arrive on. *)
Class Feed (R : Type) {AR : AsyncRead R} {AL : AsyncReadLaws R} := {
  fresh : R;
  feed : list Z → R → R;
  incoming_fresh : incoming fresh = [];
  incoming_feed bs r : bytes_ok bs → incoming (feed bs r) = incoming r ++ bs;
  feed_nil r : feed [] r = r;
}.

Record net (R : Type) : Type := mk_net { client : sys (R := R); server : Conn.t (R := R) }.
Arguments mk_net {R} client server.
Arguments client {R} n.
Arguments server {R} n.

Section Net.
Context {B : BytesCrate} {BL : BytesLaws B}.
Context {R : Type} {AR : AsyncRead R} {AL : AsyncReadLaws R} {F : Feed R} {D : Device}.
Context (export : ExportDev.t).

Definition arrive (bs : list Z) (s : sys (R := R)) : sys :=
  set_reader (shared s) (feed bs (reader s)) (at_phase s) s.

(** The reader task after a failed read. *)
Definition read_failed (e : io_error) (s : sys (R := R)) : sys :=
  set_reader (Shared.close (read_reason (Io e)) (shared s)) (reader s) Stopped s.

Inductive net_step : net R → net R → Prop :=
| net_client n c bs :
    step (client n) c → written c = written (client n) ++ bs →
    net_step n (mk_net c (Conn.set_reader (feed bs (Conn.reader (server n))) (server n)))
| net_server n s bs :
    Conn.step (ExportDev.devid export) (server n) s → Conn.written s = Conn.written (server n) ++ bs →
    net_step n (mk_net (arrive bs (client n)) s)
| net_client_lost n e :
    at_phase (client n) ≠ Stopped → net_step n (mk_net (read_failed e (client n)) (server n))
| net_server_lost n :
    Conn.at_stage (server n) ≠ Ended → net_step n (mk_net (client n) (Conn.stop (server n))).

(** The session [import] starts for the export, on a connection the server has just handed to it. *)
Definition imported : net R :=
  mk_net (started (device_of_export export false) fresh) (Conn.start fresh).

Definition net_reachable (n : net R) : Prop := rtc net_step imported n.

(** ** Requests and devices the statements are about *)

(** A request the server takes: well formed, made of bytes, and one Linux would queue on the endpoint. *)
Record request_fit (i : issue) : Prop := {
  fit_wf : request_wf i.2;
  fit_data : bytes_ok (SubmitRequest.data i.2);
  fit_setup : bytes_ok (SubmitRequest.setup i.2);
  fit_admitted : refused endpoints (requested (ExportDev.devid export) i) = None;
}.

(** A completion that keeps to what was asked for. *)
Record completion_fits (u : Urb.t) (c : Completion.t) : Prop := {
  cf_status : is_i 32 (Completion.status c);
  cf_actual : 0 ≤ actual_of u c ≤ Urb.length u;
  cf_start_frame : is_u 32 (Completion.start_frame c);
  cf_iso_len : Z.of_nat (length (Completion.iso c)) ≤ 1024;
  cf_iso : Forall (λ d, Iso.wf (Iso.to_client d)) (Completion.iso c);
  cf_data : bytes_ok (Completion.data c);
}.

(** A device that behaves: it completes within bounds or drops the connection. *)
Definition conforming : Prop := ∀ u o, 0 ≤ Urb.length u → resolves u o →
  match o with
  | Outcome.Complete c => completion_fits u c
  | Outcome.Raw _ => False
  | Outcome.Disconnect => True
  end.

(** What is assumed of a run: few enough commands for numbers not to repeat, and such requests. *)
Definition fair (s : sys (R := R)) : Prop := no_wrap (shared s) ∧ Forall request_fit (issued s).

End Net.
