(* ===== verification/PeersFacts.v ===== *)
(** * PeersFacts: the invariant of a connected session and server

    [tied n log told k j]: the commands of the session are [log], of which the server has handled [k];
    the messages of the server are [told], of which the session has handled [j].  The bytes in between
    are the rest of both, and each side's tables say what that means for its requests. *)

From stdpp Require Import base tactics option list gmap fin_maps fin_sets relations sorting.
From S2P Require Import Prelude Wire Protocol ProtocolFacts Server Serving ServingFacts Session SessionFacts System SessionSpec Peers.

(** ** Lists of frames *)

(** Between two frames: the bytes that follow begin the next one. *)
Lemma next_frame {A} (f : A → list Z) l k ρ :
  concat (f <$> take k l) ++ ρ `prefix_of` concat (f <$> l) → ρ ≠ [] →
  ∃ x, l !! k = Some x ∧ ρ `prefix_of` f x ++ concat (f <$> drop (S k) l).
Proof.
  intros H Hρ. rewrite <- (take_drop k l) in H at 2. rewrite fmap_app, concat_app in H.
  apply prefix_app_inv in H. destruct (drop k l) as [|x l'] eqn:E.
  { apply prefix_nil_inv in H. done. }
  assert (l !! k = Some x) as Hk by (rewrite <- (Nat.add_0_r k), <- lookup_drop, E; done).
  exists x. split; [done|]. by rewrite (drop_S _ _ _ Hk) in E; injection E as ->.
Qed.

Lemma prefix_cut {A} (ρ x y : list A) : ρ `prefix_of` x ++ y → (length x ≤ length ρ)%nat →
  ∃ ρ', ρ = x ++ ρ'.
Proof.
  intros [z E] Hl. exists (drop (length x) ρ). rewrite <- (take_drop (length x) ρ) at 1. f_equal.
  apply (f_equal (take (length x))) in E. by rewrite take_app_length, take_app_le in E.
Qed.

Lemma prefix_short {A} (ρ x y : list A) : ρ `prefix_of` x ++ y → (length ρ < length x)%nat →
  ∃ z, ρ ++ z = x ∧ z ≠ [].
Proof.
  intros [z E] Hl. exists (drop (length ρ) x). split.
  - apply (f_equal (take (length ρ))) in E. rewrite take_app_length, take_app_le in E by lia.
    rewrite <- E at 1. apply take_drop.
  - intros Hd%(f_equal length). rewrite length_drop in Hd. simpl in Hd. lia.
Qed.

Lemma prefix_head {A} (h ρ x y : list A) :
  h ++ ρ `prefix_of` x ++ y → length h = length x → h = x ∧ ρ `prefix_of` y.
Proof.
  intros [z E] Hl. rewrite <- app_assoc in E. apply app_inj_1 in E as [<- ->]; [|done].
  split; [done|]. by eexists.
Qed.

Lemma take_S_snoc {A} (l : list A) k x : l !! k = Some x → take (S k) l = take k l ++ [x].
Proof. apply take_S_r. Qed.

Lemma concat_take_S {A} (f : A → list Z) l k x :
  l !! k = Some x → concat (f <$> take (S k) l) = concat (f <$> take k l) ++ f x.
Proof. intros H. rewrite (take_S_snoc _ _ _ H), fmap_app, concat_app. cbn. by rewrite app_nil_r. Qed.

(** The bytes of a message. *)
Definition bytes_of (m : message) : list Z := default [] (frame_of m).

Definition unlink_pair (c : SessionFacts.command) : option (Z * Z) :=
  match c with
  | CUnlink c => Some (CmdUnlink.seqnum c, CmdUnlink.unlink_seqnum c)
  | CSubmit _ => None
  end.

(** ** The stream from the session to the server *)

Section Up.
Context {B : BytesCrate} {BL : BytesLaws B}.

(** What the writer has written is what the server has handled, and what its reader still has. *)
Definition up (written : list Z) (log : list SessionFacts.command) (k : nat) (g : stage)
    (inc : list Z) : Prop :=
  match g with
  | AwaitHeader => written = concat (encode_command <$> take k log) ++ inc
  | AwaitBody h seqnum devid => ∃ c, log !! k = Some (CSubmit c) ∧ h = submit_header c ∧
      seqnum = CmdSubmit.seqnum c ∧ devid = CmdSubmit.devid c ∧
      written = concat (encode_command <$> take k log) ++ h ++ inc
  | Ended => True
  end.

Lemma up_feed w log k g inc bs : up w log k g inc → up (w ++ bs) log k g (inc ++ bs).
Proof.
  destruct g as [|h s d|]; simpl; [..|done].
  - intros ->. by rewrite app_assoc.
  - intros (c & ? & ? & ? & ? & ->). exists c. by rewrite <- !app_assoc.
Qed.

Lemma up_log w log ext k g inc : (k ≤ length log)%nat → up w log k g inc → up w (log ++ ext) k g inc.
Proof.
  intros Hk. destruct g as [|h s d|]; simpl; [..|done].
  - intros ->. by rewrite take_app_le.
  - intros (c & Hc & ? & ? & ? & ->). exists c. rewrite take_app_le by done.
    split; [by apply lookup_app_l_Some|done].
Qed.

End Up.

(** ** The stream from the server to the session *)

(** What the server's writer has written: whole frames, but for the last. *)
Definition sending (written : list Z) (told : list message) (w : option nat) : Prop :=
  ∃ i, (i ≤ length told)%nat ∧ Forall (λ m, is_Some (frame_of m)) (take i told) ∧
    match w with
    | Some n => n = i ∧ written = concat (bytes_of <$> take i told)
    | None => written `prefix_of` concat (bytes_of <$> take i told)
    end.

Definition down (written : list Z) (told : list message) (j : nat) (p : phase) (inc : list Z) : Prop :=
  match p with
  | Idle => written = concat (bytes_of <$> take j told) ++ inc
  | AwaitPayload h d l => ∃ u c, told !! j = Some (Reply u (Outcome.Complete c)) ∧
      h = reply_header u c ∧ bool_decide (d = Direction.In) = Urb.is_in u ∧ l = Urb.length u ∧
      written = concat (bytes_of <$> take j told) ++ ret_header u c ++ inc
  | Stopped => True
  end.

Lemma down_feed w told j p inc bs : down w told j p inc → down (w ++ bs) told j p (inc ++ bs).
Proof.
  destruct p as [|h d l|]; simpl; [..|done].
  - intros ->. by rewrite app_assoc.
  - intros (u & c & ? & ? & ? & ? & ->). exists u, c. by rewrite <- !app_assoc.
Qed.

Lemma down_told w told ext j p inc :
  (j ≤ length told)%nat → down w told j p inc → down w (told ++ ext) j p inc.
Proof.
  intros Hj. destruct p as [|h d l|]; simpl; [..|done].
  - intros ->. by rewrite take_app_le.
  - intros (u & c & Hc & ? & ? & ? & ->). exists u, c. rewrite take_app_le by done.
    split; [by apply lookup_app_l_Some|done].
Qed.

Lemma sending_told w told ext r : sending w told r → sending w (told ++ ext) r.
Proof.
  intros (i & Hi & H). exists i. rewrite take_app_le by done. split; [rewrite length_app; lia|done].
Qed.

Lemma sending_prefix w told r : sending w told r →
  ∃ i, Forall (λ m, is_Some (frame_of m)) (take i told) ∧ w `prefix_of` concat (bytes_of <$> take i told).
Proof.
  intros (i & _ & Hf & H). exists i. split; [done|]. destruct r as [n|]; [|done]. by destruct H as [_ ->].
Qed.

(** The next message, from the first bytes of it. *)
Lemma next_message w told r j inc :
  sending w told r → w = concat (bytes_of <$> take j told) ++ inc → inc ≠ [] →
  ∃ m, told !! j = Some m ∧ is_Some (frame_of m) ∧ ∃ rest, inc `prefix_of` bytes_of m ++ rest.
Proof.
  intros (i & Hf & Hp)%sending_prefix -> Hi.
  destruct (decide (j ≤ i)%nat) as [Hji|Hji].
  - assert (take j told = take j (take i told)) as E by (rewrite take_take; f_equal; lia).
    rewrite E in Hp. destruct (next_frame _ _ _ _ Hp Hi) as (m & Hm & Hpre). exists m.
    split; [by apply lookup_take_Some in Hm as [? _]|]. rewrite Forall_lookup in Hf.
    split; [by eapply Hf|]. eauto.
  - exfalso. assert (take i told `prefix_of` take j told) as [t Et].
    { rewrite <- (take_drop i (take j told)), take_take, Nat.min_l by lia. by eexists. }
    rewrite Et, fmap_app, concat_app, <- app_assoc in Hp.
    rewrite <- (app_nil_r (concat (bytes_of <$> take i told))) in Hp at 2.
    apply prefix_app_inv, prefix_nil_inv in Hp. by apply app_eq_nil in Hp as [_ ?].
Qed.

(** ** The commands of a fair session *)

Section Log.
Context {B : BytesCrate} {BL : BytesLaws B}.
Context {R : Type} {AR : AsyncRead R} {AL : AsyncReadLaws R} {D : Device}.
Context (export : ExportDev.t) (Hdevnum : is_u 16 (ExportDev.devnum export)).

Notation dev := (ExportDev.devid export).
Notation numbers iss := ((λ i : issue, i.1.2) <$> iss).

Lemma devid_agrees : ExportedDevice.devid (device_of_export export false) = dev.
Proof.
  unfold ExportedDevice.devid, ExportDev.devid. cbn. f_equal.
  change 0xffff with (Z.ones 16). rewrite Z.land_ones by lia. by apply Z.mod_small.
Qed.

Lemma dev_is_u32 : is_u 32 dev.
Proof.
  unfold ExportDev.devid. set (b := wrap 32 _).
  assert (is_u 32 b) as [Hb1 Hb2] by (apply wrap_is_u; lia).
  assert (is_u 32 (ExportDev.devnum export)) as [Hd1 Hd2] by (eapply is_u_le; [|exact Hdevnum]; lia).
  split; [by apply Z.lor_nonneg|].
  destruct (decide (Z.lor b (ExportDev.devnum export) = 0)) as [->|Hn]; [done|].
  apply Z.log2_lt_pow2; [pose proof (proj2 (Z.lor_nonneg b (ExportDev.devnum export)) (conj Hb1 Hd1)); lia|].
  rewrite Z.log2_lor by done. apply Z.max_lub_lt.
  - destruct (decide (b = 0)) as [->|]; [done|]. by apply Z.log2_lt_pow2; [lia|].
  - destruct (decide (ExportDev.devnum export = 0)) as [->|]; [done|]. by apply Z.log2_lt_pow2; [lia|].
Qed.

Context (s : sys (R := R)) (log : list SessionFacts.command).
Context (I : ok (shared s) (issued s)) (L : log_of s log) (Hd : Shared.devid (shared s) = dev)
  (W : fair export s).

Lemma log_numbers : NoDup (command_seqnum <$> log).
Proof. rewrite (lo_seqnums _ _ L); [apply NoDup_seqZ|apply W]. Qed.

Lemma log_issued : CmdSubmit.seqnum <$> submits log = numbers (issued s).
Proof. by rewrite (lo_submits _ _ L), submits_seqnums. Qed.

Lemma submits_elem c l : c ∈ submits l ↔ CSubmit c ∈ l.
Proof.
  unfold submits. rewrite list_elem_of_omap. split.
  - intros ([d|d] & Hin & E); [|done]. by injection E as ->.
  - intros H. by exists (CSubmit c).
Qed.

Lemma submits_sublist l : CmdSubmit.seqnum <$> submits l `sublist_of` command_seqnum <$> l.
Proof.
  induction l as [|[c|c] l IH]; cbn; [done|by apply sublist_skip|by apply sublist_cons].
Qed.

Lemma pairs_sublist l : (omap unlink_pair l).*1 `sublist_of` command_seqnum <$> l.
Proof.
  induction l as [|[c|c] l IH]; cbn; [done|by apply sublist_cons|by apply sublist_skip].
Qed.

Lemma issued_numbers : NoDup (numbers (issued s)).
Proof. rewrite <- log_issued. eapply sublist_NoDup; [apply log_numbers|apply submits_sublist]. Qed.

(** A number names one request. *)
Lemma issue_unique i i' : i ∈ issued s → i' ∈ issued s → i.1.2 = i'.1.2 → i = i'.
Proof.
  intros Hi Hi' E. apply list_elem_of_lookup in Hi as [x Hx], Hi' as [y Hy].
  assert (x = y) as ->; [|congruence].
  eapply (NoDup_lookup (numbers (issued s)) x y); [apply issued_numbers|..];
    rewrite list_lookup_fmap, ?Hx, ?Hy; cbn; [done|]. by rewrite E.
Qed.

Lemma submit_in_log c : CSubmit c ∈ log →
  submit_wf c ∧ CmdSubmit.devid c = dev ∧
  ∃ i, i ∈ issued s ∧ i.1.2 = CmdSubmit.seqnum c ∧ c = cmd_for dev i ∧ urb_of c = requested dev i ∧
       request_fit export i.
Proof.
  intros Hin. pose proof (lo_ok _ _ L) as Hok. rewrite Forall_forall in Hok.
  destruct (Hok _ Hin) as (Hu & _ & ch & req & Hi & Ec & Hdata). rewrite Hd in *. cbn in Hu.
  pose proof (proj2 W) as Hfit. rewrite Forall_forall in Hfit. specialize (Hfit _ Hi).
  assert (c = cmd_for dev (ch, CmdSubmit.seqnum c, req)) as Ec' by exact Ec.
  split; [|split; [by rewrite Ec'|]].
  - rewrite Ec. rewrite Ec in Hdata. cbn in Hdata.
    apply cmd_of_wf; [apply dev_is_u32|done|apply (fit_wf _ _ Hfit)|done].
  - eexists. split; [exact Hi|]. split; [done|]. split; [done|]. split; [|done].
    rewrite Ec' at 1. by rewrite urb_of_cmd.
Qed.

Lemma unlink_in_log c : CUnlink c ∈ log →
  is_u 32 (CmdUnlink.seqnum c) ∧ CmdUnlink.devid c = dev ∧ is_u 32 (CmdUnlink.unlink_seqnum c) ∧
  CmdUnlink.unlink_seqnum c ∈ numbers (issued s).
Proof.
  intros Hin. pose proof (lo_ok _ _ L) as Hok. rewrite Forall_forall in Hok.
  destruct (Hok _ Hin) as (Hu & _ & Ed & Ht). rewrite Hd in *. split; [done|]. split; [done|].
  split; [|done]. apply list_elem_of_fmap in Ht as (i & -> & Hi). by apply (ok_seqnums _ _ I).
Qed.

Lemma iso_words_ok (l : list IsoPacketDescriptor.t) : bytes_ok (concat (iso_words <$> l)).
Proof.
  induction l as [|p l IH]; [constructor|]. cbn. apply Forall_app. split; [apply words_ok|done].
Qed.

(** Commands are bytes. *)
Lemma command_bytes c : c ∈ log → bytes_ok (encode_command c).
Proof.
  intros Hin. destruct c as [c|c]; cbn [encode_command].
  - destruct (submit_in_log c Hin) as (Wf & _ & i & _ & _ & Ec & _ & Hfit).
    rewrite submit_split by done. unfold submit_header, submit_body, bytes_ok.
    rewrite !Forall_app. pose proof (fit_data _ _ Hfit). pose proof (fit_setup _ _ Hfit).
    rewrite Ec. destruct i as [[ch n] req]. cbn in *. repeat split; try done; [apply words_ok|].
    apply iso_words_ok.
  - rewrite unlink_bytes. apply Forall_app. split; [apply words_ok|]. by apply Forall_replicate.
Qed.

Lemma frames_bytes : bytes_ok (concat (encode_command <$> log)).
Proof.
  assert (∀ l, (∀ c, c ∈ l → c ∈ log) → bytes_ok (concat (encode_command <$> l))) as H; [|by apply H].
  induction l as [|c l IH]; intros Hl; [constructor|]. cbn. apply Forall_app.
  split; [apply command_bytes, Hl; by left|]. apply IH. intros. apply Hl. by right.
Qed.

(** The server's view of a prefix of the log. *)
Lemma take_submits k : CmdSubmit.seqnum <$> submits (take k log) `sublist_of` numbers (issued s).
Proof.
  rewrite <- log_issued. apply fmap_sublist. rewrite <- (take_drop k log) at 2. unfold submits.
  rewrite omap_app. by apply sublist_inserts_r.
Qed.

(** The number of a command is not that of an earlier one. *)
Lemma number_fresh k c : log !! k = Some c → command_seqnum c ∉ command_seqnum <$> take k log.
Proof.
  intros Hk Hin. apply take_drop_middle in Hk as E. pose proof log_numbers as Hnd.
  rewrite <- E, fmap_app in Hnd. apply NoDup_app in Hnd as (_ & H & _).
  apply (H _ Hin). by left.
Qed.

Lemma submits_incl l n : n ∈ CmdSubmit.seqnum <$> submits l → n ∈ command_seqnum <$> l.
Proof. intros H. by eapply elem_of_sublist, submits_sublist. Qed.

(** ** The server's half of the invariant *)

(** A request is found gone only after it was resolved. *)
Definition late (told : list message) : Prop :=
  ∀ l1 n t l2, told = l1 ++ Unlinking n t false :: l2 → t ∈ omap resolves_in l1.

Record handled (v : Conn.t (R := R)) (told : list message) (k : nat) (w : list Z) : Prop := {
  h_served : served v told;
  h_accounted : accounted v;
  h_k : (k ≤ length log)%nat;
  h_submissions : submissions (Conn.events v) = urb_of <$> submits (take k log);
  h_unlinks : (omap unlink_of (Conn.events v)).*1 = omap unlink_pair (take k log);
  h_up : up w log k (Conn.at_stage v) (incoming (Conn.reader v));
  h_clean : Conn.violations v = [];
  h_late : late told;
  h_sending : sending (Conn.written v) told (Conn.writer v);
}.

Lemma late_ext told ext :
  late told → (∀ n t, Unlinking n t false ∈ ext → t ∈ omap resolves_in told) → late (told ++ ext).
Proof.
  intros Hl He l1 n t l2 E. apply List.app_eq_app in E as ([|x l] & [[-> E]|[-> ->]]).
  - rewrite app_nil_r in He. apply (He n). cbn in E. rewrite <- E. by left.
  - rewrite app_nil_r. apply (He n). by left.
  - injection E as <- ->. by eapply Hl.
  - rewrite omap_app, elem_of_app. left. apply (He n). rewrite elem_of_app. right. by left.
Qed.

Lemma answered_ext (v v' : Conn.t (R := R)) told ext :
  served v told → served v' (told ++ ext) →
  omap unlink_of (Conn.events v') = omap unlink_of (Conn.events v) ++ omap answers ext.
Proof. intros V V'. by rewrite <- (sv_unlinks _ _ V'), <- (sv_unlinks _ _ V), omap_app. Qed.

Lemma answers_elem n t b (ext : list message) : Unlinking n t b ∈ ext → (n, t, b) ∈ omap answers ext.
Proof. intros H. apply list_elem_of_omap. by exists (Unlinking n t b). Qed.

(** A step that handles no command. *)
Lemma handled_same v v' told ext k w :
  handled v told k w → served v' (told ++ ext) → accounted v' →
  submissions (Conn.events v') = submissions (Conn.events v) →
  omap unlink_of (Conn.events v') = omap unlink_of (Conn.events v) →
  up w log k (Conn.at_stage v') (incoming (Conn.reader v')) → Conn.violations v' = [] →
  sending (Conn.written v') (told ++ ext) (Conn.writer v') → handled v' (told ++ ext) k w.
Proof.
  intros [] V A Es Eu U C S. constructor; rewrite ?Es, ?Eu; try done.
  apply late_ext; [done|]. intros n t H%answers_elem.
  pose proof (answered_ext _ _ _ _ h_served0 V) as E. rewrite Eu in E.
  rewrite <- (app_nil_r (omap unlink_of (Conn.events v))) in E at 1. apply app_inv_head in E.
  rewrite <- E in H. by apply elem_of_nil in H.
Qed.

Lemma handled_keys v told k w n :
  handled v told k w → n ∈ keys v → n ∈ CmdSubmit.seqnum <$> submits (take k log).
Proof.
  intros [] Hn. pose proof (sv_once _ _ h_served0) as H.
  apply (elem_of_submseteq _ _ n) in H; [|by rewrite elem_of_app; right].
  rewrite h_submissions0, <- list_fmap_compose in H. exact H.
Qed.

(** *** Handling a command *)

Lemma next_command w k inc :
  w = concat (encode_command <$> take k log) ++ inc → w `prefix_of` concat (encode_command <$> log) →
  inc ≠ [] →
  ∃ c, log !! k = Some c ∧ (S k ≤ length log)%nat ∧
    inc `prefix_of` encode_command c ++ concat (encode_command <$> drop (S k) log).
Proof.
  intros -> Hp Hi. destruct (next_frame _ _ _ _ Hp Hi) as (c & Hc & H). exists c.
  apply lookup_lt_Some in Hc as Hl. split; [done|]. split; [lia|done].
Qed.

(** The header of a CMD_SUBMIT. *)
Lemma handled_submit_header v told k w c r' :
  handled v told k w → log !! k = Some (CSubmit c) → Conn.at_stage v = AwaitHeader →
  incoming (Conn.reader v) = submit_header c ++ incoming r' →
  Conn.on_header dev (submit_header c) (Conn.set_reader r' v)
    = Done (Conn.set_stage (AwaitBody (submit_header c) (CmdSubmit.seqnum c) (CmdSubmit.devid c))
              (Conn.note [] (Conn.set_reader r' v))) ∧
  handled (Conn.set_stage (AwaitBody (submit_header c) (CmdSubmit.seqnum c) (CmdSubmit.devid c))
              (Conn.note [] (Conn.set_reader r' v))) (told ++ []) k w.
Proof.
  intros H Hk Hst Hin. destruct (submit_in_log c) as (Wf & Ed & _); [by eapply list_elem_of_lookup_2|].
  assert (CmdSubmit.seqnum c ∉ keys v) as Hn.
  { intros Hn%(handled_keys _ _ _ _ _ H)%submits_incl. by apply (number_fresh k (CSubmit c)). }
  split.
  - unfold Conn.on_header. rewrite <- Ed. fold (keys v) in *.
    change ((map_to_list (Conn.pending (Conn.set_reader r' v))).*1) with (keys v).
    by rewrite check_submit_header.
  - pose proof H as []. apply (handled_same v); try done; cbn.
    + rewrite app_nil_r. by apply (served_same v).
    + apply (accounted_same v); try done. cbn. by rewrite Hst.
    + rewrite Hst in h_up0. cbn in h_up0. exists c. by rewrite h_up0, Hin.
    + by rewrite h_clean0.
    + by rewrite app_nil_r.
Qed.

(** A CMD_UNLINK: what was asked for was submitted, so it is pending or resolved. *)
Lemma handled_unlink v told k w c r' :
  handled v told k w → log !! k = Some (CUnlink c) → Conn.at_stage v = AwaitHeader →
  incoming (Conn.reader v) = CmdUnlink.encode c [] ++ incoming r' →
  let v' := Conn.on_unlink (CmdUnlink.seqnum c) (CmdUnlink.unlink_seqnum c)
              (Conn.note [] (Conn.note [] (Conn.set_reader r' v))) in
  ∃ ext, Conn.on_header dev (CmdUnlink.encode c []) (Conn.set_reader r' v) = Done v' ∧
    handled v' (told ++ ext) (S k) w.
Proof.
  intros H Hk Hst Hin. apply list_elem_of_lookup_2 in Hk as Hin'.
  destruct (unlink_in_log c Hin') as (Hs & Ed & Ht & _).
  assert (CmdUnlink.seqnum c ∉ keys v) as Hn.
  { intros Hn%(handled_keys _ _ _ _ _ H)%submits_incl. by apply (number_fresh k (CUnlink c)). }
  destruct (check_unlink_header c (keys v) Hs) as [E1 E2]; [rewrite Ed; apply dev_is_u32|done|done|].
  set (v1 := Conn.note [] (Conn.note [] (Conn.set_reader r' v))).
  intros v'. subst v'. fold v1. eexists. split.
  - unfold Conn.on_header. rewrite <- Ed.
    change ((map_to_list (Conn.pending (Conn.set_reader r' v))).*1) with (keys v).
    rewrite E1. cbn [mbind outcome_bind Z.eqb Pos.eqb]. by rewrite E2.
  - destruct H. assert (served v1 told) as V by by apply (served_same v).
    assert (accounted v1) as A by by apply (accounted_same v).
    apply (served_unlink (CmdUnlink.seqnum c) (CmdUnlink.unlink_seqnum c)) in V as V'.
    constructor; try done.
    + by apply accounted_unlink.
    + by apply lookup_lt_Some in Hk.
    + cbn. rewrite (take_S_snoc _ _ _ Hk). unfold submissions, submits in *.
      rewrite !omap_snoc. cbn. rewrite !app_nil_r. exact h_submissions0.
    + cbn. rewrite (take_S_snoc _ _ _ Hk), !omap_snoc, fmap_app. cbn. by rewrite h_unlinks0.
    + cbn. rewrite Hst in *. cbn in h_up0 |- *. rewrite (concat_take_S _ _ _ _ Hk), <- app_assoc. cbn. by rewrite <- Hin.
    + cbn. by rewrite !app_nil_r.
    + apply late_ext; [done|]. intros n t [= -> -> Hp%symmetry]%list_elem_of_singleton.
      apply bool_decide_eq_false in Hp. rewrite (sv_resolved _ _ V).
      assert (CmdUnlink.unlink_seqnum c ∈ Urb.seqnum <$> submissions (Conn.events v1)) as Hsub.
      { change (Conn.events v1) with (Conn.events v). rewrite h_submissions0, <- list_fmap_compose.
        apply (lo_causal _ _ L (take k log) c (drop (S k) log)). symmetry. by apply take_drop_middle. }
      rewrite (A ltac:(cbn; by rewrite Hst)), elem_of_app in Hsub.
      * destruct Hsub as [|Hsub]; [done|]. by apply pending_keys in Hsub.
      * change (Conn.events v1) with (Conn.events v). rewrite h_submissions0, <- list_fmap_compose.
        eapply sublist_NoDup; [apply issued_numbers|apply (take_submits k)].
    + cbn. by apply sending_told.
Qed.

(** The loop ends. *)
Lemma handled_stop v v1 told k w :
  handled v told k w → Conn.pending v1 = Conn.pending v → Conn.queues v1 = Conn.queues v →
  Conn.running v1 = Conn.running v → Conn.tx v1 = Conn.tx v → Conn.events v1 = Conn.events v →
  Conn.violations v1 = [] → Conn.written v1 = Conn.written v → Conn.writer v1 = Conn.writer v →
  Conn.at_stage v1 = Conn.at_stage v → handled (Conn.stop v1) (told ++ [Bye]) k w.
Proof.
  intros H Ep Eq Er Et Ee Ev Ew Ewr Est. pose proof H as [].
  apply (handled_same v); try done; cbn; rewrite ?Ew, ?Ewr, ?Ee.
  - apply served_stop. apply (served_same v); try done. by rewrite Est.
  - apply accounted_stop.
  - unfold submissions. by rewrite omap_snoc, app_nil_r.
  - by rewrite omap_snoc, app_nil_r.
  - by apply sending_told.
Qed.

(** The rest of a CMD_SUBMIT that has arrived. *)
Lemma on_body_whole v c ρ : CSubmit c ∈ log → incoming (Conn.reader v) = submit_body c ++ ρ → ∃ r',
  incoming r' = ρ ∧
  Conn.on_body (submit_header c) (CmdSubmit.seqnum c) (CmdSubmit.devid c) v =
    Done (Conn.set_stage AwaitHeader
            (Conn.enqueue (urb_of c) (Conn.push (Event.Submit (urb_of c)) (Conn.note [] (Conn.set_reader r' v))))).
Proof.
  intros Hin Hinc. destruct (submit_in_log c Hin) as (Wf & _ & i & _ & _ & _ & Eu & Hfit).
  destruct (read_submit_words c ρ (Conn.reader v) [] Wf Hinc) as (r' & E & Hr'). exists r'.
  split; [done|]. unfold Conn.on_body. rewrite E. cbn. by rewrite Eu, (fit_admitted _ _ Hfit).
Qed.

(** The rest of a CMD_SUBMIT, or of the stream. *)
Lemma handled_body v told k w h seqnum devid v' :
  handled v told k w → w `prefix_of` concat (encode_command <$> log) →
  Conn.at_stage v = AwaitBody h seqnum devid → Conn.on_body h seqnum devid v = Done v' →
  ∃ ext k', handled v' (told ++ ext) k' w.
Proof.
  intros H Hp Hst Hb. pose proof (h_up _ _ _ _ H) as U. rewrite Hst in U.
  destruct U as (c & Hk & -> & -> & -> & Hw). pose proof Hk as Hin%list_elem_of_lookup_2.
  destruct (submit_in_log c Hin) as (Wf & _ & i & _ & _ & _ & Eu & Hfit). rewrite Hw in Hp.
  destruct (next_frame _ _ _ _ Hp) as (x & Hx & Hpre).
  { intros E%(f_equal length). rewrite length_app, length_submit_header in E by done. simpl in E. lia. }
  rewrite Hk in Hx. injection Hx as <-. cbn [encode_command] in Hpre.
  rewrite submit_split, <- app_assoc in Hpre by done. apply prefix_app_inv in Hpre.
  destruct (decide (length (submit_body c) ≤ length (incoming (Conn.reader v)))%nat) as [Hl|Hl].
  - destruct (prefix_cut _ _ _ Hpre Hl) as [ρ Hinc].
    destruct (on_body_whole v c ρ Hin Hinc) as (r' & Hr' & E). rewrite E in Hb. injection Hb as <-.
    set (v1 := Conn.note [] (Conn.set_reader r' v)). pose proof H as [].
    assert (served v1 told) as V by by apply (served_same v).
    assert (accounted v1) as A by by apply (accounted_same v).
    assert (Conn.at_stage v1 ≠ Ended) as Hs1 by (by cbn; rewrite Hst).
    apply (served_submit (requested dev i)) in V; [|done].
    apply (accounted_submit (requested dev i)) in A; [|done].
    rewrite <- Eu in *. rewrite enqueue_eq in *.
    exists [], (S k). rewrite app_nil_r. constructor; try done.
    + by apply (served_same (enqueued (urb_of c) (Conn.push (Event.Submit (urb_of c)) v1))).
    + by apply (accounted_same (enqueued (urb_of c) (Conn.push (Event.Submit (urb_of c)) v1))).
    + by apply lookup_lt_Some in Hk.
    + cbn. rewrite (take_S_snoc _ _ _ Hk). unfold submissions, submits in *.
      rewrite omap_reset, !omap_snoc, fmap_app by done. cbn. by rewrite h_submissions0.
    + cbn. rewrite (take_S_snoc _ _ _ Hk). rewrite omap_reset, !omap_snoc by done. cbn.
      by rewrite !app_nil_r.
    + cbn. rewrite Hr', (concat_take_S _ _ _ _ Hk), Hw, Hinc. cbn.
      by rewrite submit_split, <- !app_assoc by done.
    + cbn. by rewrite app_nil_r.
  - destruct (prefix_short _ _ _ Hpre) as (z & Hz & Hne); [lia|].
    destruct (read_submit_short c z (Conn.reader v) [] Wf Hz Hne) as (r' & E).
    unfold Conn.on_body in Hb. rewrite E in Hb. cbn in Hb. injection Hb as <-. exists [Bye], k. apply (handled_stop v); try done. cbn. by rewrite (h_clean _ _ _ _ H).
Qed.

(** Every step of the server. *)
Lemma handled_header v told k w h r' v' :
  handled v told k w → w `prefix_of` concat (encode_command <$> log) →
  Conn.at_stage v = AwaitHeader → read_exact 48 (Conn.reader v) = (Ok h, r') →
  Conn.on_header dev h (Conn.set_reader r' v) = Done v' →
  ∃ ext k', handled v' (told ++ ext) k' w.
Proof.
  intros H Hp Hst Hr Hh. apply read_exact_Ok in Hr as (Hl & _ & Hin).
  pose proof (h_up _ _ _ _ H) as U. rewrite Hst in U. cbn in U.
  destruct (next_command w k _ U Hp) as (c & Hk & _ & Hpre).
  { rewrite Hin. by destruct h. }
  rewrite Hin in Hpre. destruct c as [c|c]; cbn [encode_command] in Hpre.
  - destruct (submit_in_log c) as (Wf & _); [by eapply list_elem_of_lookup_2|].
    rewrite submit_split, <- app_assoc in Hpre by done.
    apply prefix_head in Hpre as [-> _]; [|by rewrite length_submit_header].
    destruct (handled_submit_header _ _ _ _ c r' H Hk Hst Hin) as [E Hv].
    rewrite E in Hh. injection Hh as <-. eauto.
  - apply prefix_head in Hpre as [-> _]; [|by rewrite length_cmd_unlink].
    destruct (handled_unlink _ _ _ _ c r' H Hk Hst Hin) as (ext & E & Hv).
    rewrite E in Hh. injection Hh as <-. eauto.
Qed.

Lemma handled_worker v told ext k w v' :
  handled v told k w → served v' (told ++ ext) → accounted v' →
  submissions (Conn.events v') = submissions (Conn.events v) →
  omap unlink_of (Conn.events v') = omap unlink_of (Conn.events v) →
  Conn.at_stage v' = Conn.at_stage v → Conn.reader v' = Conn.reader v →
  Conn.violations v' = Conn.violations v → Conn.written v' = Conn.written v →
  Conn.writer v' = Conn.writer v →
  ∃ ext k', handled v' (told ++ ext) k' w.
Proof.
  intros H V A Es Eu Est Er Ev Ew Ewr. exists ext, k. pose proof H as [].
  apply (handled_same v); rewrite ?Est, ?Er, ?Ev, ?Ew, ?Ewr; try done. by apply sending_told.
Qed.

Lemma sending_write (v : Conn.t (R := R)) told n frame :
  served v told → sending (Conn.written v) told (Conn.writer v) → Conn.writer v = Some n →
  Conn.tx v !! n = Some (Some frame) →
  sending (Conn.written v ++ frame) told (Some (S n)) ∧
  ∀ part, part `prefix_of` frame → sending (Conn.written v ++ part) told None.
Proof.
  intros V (i & Hi & Hf & Hw) Ew Ht. rewrite Ew in Hw. destruct Hw as [<- Hw].
  rewrite (sv_tx _ _ V), list_lookup_fmap in Ht. apply fmap_Some in Ht as (m & Hm & Em).
  assert (bytes_of m = frame) as Eb by (unfold bytes_of; by rewrite <- Em).
  apply lookup_lt_Some in Hm as Hlt.
  assert (Forall (λ m, is_Some (frame_of m)) (take (S n) told)) as Hf'.
  { rewrite (take_S_snoc _ _ _ Hm). apply Forall_app. split; [done|]. apply Forall_singleton.
    by rewrite <- Em. }
  assert (concat (bytes_of <$> take (S n) told) = Conn.written v ++ frame) as E.
  { by rewrite (concat_take_S _ _ _ _ Hm), Hw, Eb. }
  split.
  - exists (S n). split; [lia|]. by rewrite E.
  - intros part Hp. exists (S n). split; [lia|]. split; [done|]. rewrite E. by apply prefix_app.
Qed.

Lemma handled_writer v told k w wr out :
  handled v told k w → sending out told wr → handled (Conn.set_written wr out v) told k w.
Proof. intros [] Hs. constructor; try done. by apply (served_same v). Qed.

Lemma handled_step v v' told k w :
  handled v told k w → w `prefix_of` concat (encode_command <$> log) → Conn.step dev v v' →
  ∃ ext k', handled v' (told ++ ext) k' w.
Proof.
  intros H Hp Hs. pose proof (h_served _ _ _ _ H) as V. pose proof (h_accounted _ _ _ _ H) as A.
  destruct Hs as [v h r v' Hst Hr Hh|v e r Hst Hr|v h n d v' Hst Hb|v a j rest Hr Hq|v a j Hr Hc
    |v a j o Hr Ho|v n f Hw Ht|v n f part Hw Ht Hpf|v n Hw Ht].
  - by eapply handled_header.
  - exists [Bye], k. apply (handled_stop v); try done. apply (h_clean _ _ _ _ H).
  - by eapply handled_body.
  - apply (handled_worker v told [] k w); try done. rewrite app_nil_r. by apply served_take.
  - apply (handled_worker v told [] k w); try done. rewrite app_nil_r.
    eapply served_let_go; [done..|apply Hc].
  - rewrite worker_finish_cases. destruct (Conn.pending v !! _) as [m|] eqn:Ep.
    + apply (handled_worker v told [Reply (Job.urb j) o] k w); try done.
      * by eapply served_reply; eauto.
      * apply accounted_reply; eauto.
      * cbn. unfold submissions. by rewrite omap_snoc, app_nil_r.
      * cbn. by rewrite omap_snoc, app_nil_r.
    + apply (handled_worker v told [] k w); try done. rewrite app_nil_r.
      eapply served_let_go; [done..|by rewrite Ep].
  - exists [], k. rewrite app_nil_r. apply handled_writer; [done|].
    by apply (sending_write v told n f V (h_sending _ _ _ _ H)).
  - exists [], k. rewrite app_nil_r. apply handled_writer; [done|].
    by apply (sending_write v told n f V (h_sending _ _ _ _ H)).
  - exists [], k. rewrite app_nil_r. apply handled_writer; [done|].
    destruct (h_sending _ _ _ _ H) as (i & Hi & Hf & Hx). rewrite Hw in Hx. destruct Hx as [_ ->].
    by exists i.
Qed.

(** ** What the messages of the server say of the requests *)

Definition answered (told : list message) : list Z := (λ a : Z * Z * bool, a.1.1) <$> omap answers told.

Record coherent (iss : list issue) (told : list message) : Prop := {
  c_numbers : NoDup (numbers iss);
  c_pairs : NoDup (omap unlink_pair log).*1;
  c_once : NoDup (omap resolves_in told);
  c_issued : ∀ n, n ∈ omap resolves_in told → n ∈ numbers iss;
  c_replies : ∀ u o, Reply u o ∈ told →
    ∃ i, i ∈ iss ∧ u = requested dev i ∧ request_fit export i ∧ may_end u o;
  c_unlinks : ∀ u t b, Unlinking u t b ∈ told → (u, t) ∈ omap unlink_pair log;
  c_answers : NoDup (answered told);
  c_late : late told;
}.

Lemma take_pairs k : omap unlink_pair (take k log) `prefix_of` omap unlink_pair log.
Proof. exists (omap unlink_pair (drop k log)). by rewrite <- omap_app, take_drop. Qed.

Lemma handled_coherent v told k w : handled v told k w → coherent (issued s) told.
Proof.
  intros []. pose proof (sv_once _ _ h_served0) as Hon. rewrite <- (sv_resolved _ _ h_served0) in Hon.
  rewrite h_submissions0, <- list_fmap_compose in Hon.
  change (Urb.seqnum ∘ urb_of) with CmdSubmit.seqnum in Hon.
  assert (NoDup (omap unlink_pair log).*1) as Hpairs
    by (eapply sublist_NoDup; [apply log_numbers|apply pairs_sublist]).
  constructor; try done.
  - apply issued_numbers.
  - apply submseteq_Permutation in Hon as [l Hl].
    assert (NoDup (CmdSubmit.seqnum <$> submits (take k log))) as Hnd
      by (eapply sublist_NoDup; [apply issued_numbers|apply take_submits]).
    rewrite Hl, <- app_assoc in Hnd. by apply NoDup_app in Hnd as [? _].
  - intros n Hn. eapply elem_of_sublist, (take_submits k). eapply elem_of_submseteq; [|exact Hon].
    rewrite elem_of_app. by left.
  - intros u o Hu. destruct (sv_replies _ _ h_served0 u o Hu) as [Hin Hm].
    rewrite h_submissions0 in Hin. apply list_elem_of_fmap in Hin as (c & -> & Hc%submits_elem).
    destruct (submit_in_log c) as (_ & _ & i & Hi & _ & _ & Eu & Hfit).
    { by eapply elem_of_sublist, sublist_take. }
    exists i. by rewrite Eu in *.
  - intros u t b Hu%answers_elem. rewrite (sv_unlinks _ _ h_served0) in Hu.
    apply (list_elem_of_fmap_2 fst) in Hu. rewrite h_unlinks0 in Hu.
    eapply elem_of_prefix; [exact Hu|apply take_pairs].
  - unfold answered. rewrite (sv_unlinks _ _ h_served0).
    assert ((λ a : Z * Z * bool, a.1.1) <$> omap unlink_of (Conn.events v)
            = ((omap unlink_of (Conn.events v)).*1).*1) as -> by by rewrite <- list_fmap_compose.
    rewrite h_unlinks0. eapply sublist_NoDup; [exact Hpairs|].
    destruct (take_pairs k) as [l ->]. rewrite fmap_app. by apply sublist_inserts_r.
Qed.

End Log.
