(* ===== verification/PeersView.v ===== *)
(** * PeersView: the session's tables against the messages it has handled

    [view sh iss log rcvd]: [rcvd] are the server's messages the reader task has handled.  What the
    session holds as pending, as unlinked and as answered is a function of them: each operation of the
    session, on the messages a server sends, keeps it so. *)

From stdpp Require Import base tactics option list gmap fin_maps fin_sets relations sorting.
From S2P Require Import Prelude Wire Protocol ProtocolFacts Server Serving ServingFacts Session SessionFacts System SessionSpec Peers PeersFacts.

(** The reasons of a session that never saw a malformed reply. *)
Definition benign (r : reason) : Prop :=
  match r with ProtocolFailed (Io _) => True | ProtocolFailed _ => False | _ => True end.

(** The channel a completion was sent on. *)
Definition completion_chan (r : chan * TransferResult) : option chan :=
  match r with (c, Ok _) => Some c | (_, Err _) => None end.

Section View.
Context {B : BytesCrate} {BL : BytesLaws B} {D : Device}.
Context (export : ExportDev.t).

Notation dev := (ExportDev.devid export).
Notation numbers iss := ((λ i : issue, i.1.2) <$> iss).
Notation requests sh := (State.submits (Shared.state sh)).
Notation asked sh := (State.unlinks (Shared.state sh)).
Notation is_open sh := (State.closed (Shared.state sh) = None).

Record view (sh : Shared.t) (iss : list issue) (log : list SessionFacts.command)
    (rcvd : list message) : Prop := {
  v_pending : is_open sh → ∀ n,
    is_Some (requests sh !! n) ↔ n ∈ numbers iss ∧ n ∉ omap resolves_in rcvd;
  v_unlinks : ∀ u t, asked sh !! u = Some t → (u, t) ∈ omap unlink_pair log ∧ u ∉ answered rcvd;
  v_asked : is_open sh → ∀ u t, (u, t) ∈ omap unlink_pair log → u ∉ answered rcvd →
    t ∉ omap resolves_in rcvd → asked sh !! u = Some t;
  v_unlinked : ∀ e, e ∈ State.unlinked (Shared.state sh) → e.1.1 ∈ omap resolves_in rcvd;
  v_completed : ∀ c ret, (c, Ok ret) ∈ Shared.replies sh → ∃ i comp, i ∈ iss ∧ i.1.1 = c ∧
    Reply (requested dev i) (Outcome.Complete comp) ∈ rcvd ∧ ret = reply_of (requested dev i) comp;
  v_cancelled : ∀ c st, (c, Err (Unlinked st)) ∈ Shared.replies sh → st = -104 ∧
    ∃ i u, i ∈ iss ∧ i.1.1 = c ∧ Unlinking u i.1.2 true ∈ rcvd;
  v_order : ∃ dones, omap completion_chan (Shared.replies sh) = chans_of dones ∧
    (∀ i, i ∈ dones → i ∈ iss) ∧ (requested dev <$> dones) `sublist_of` omap replied rcvd;
  v_reason : ∀ r, Shared.closed_tx sh = Some r → benign r;
}.

Lemma view_start device : view (start device) [] [] [].
Proof.
  constructor; cbn; try done.
  - intros _ n. rewrite lookup_empty. split; [by intros [? [=]]|by intros [[]%elem_of_nil _]].
  - intros _ u t []%elem_of_nil.
  - intros e []%elem_of_nil.
  - intros c ret []%elem_of_nil.
  - intros c st []%elem_of_nil.
  - exists []. split; [done|]. split; [|done]. by intros i ?%elem_of_nil.
Qed.

(** Changes that leave the tables and the answers alone. *)
Lemma view_same sh sh' iss log rcvd :
  view sh iss log rcvd → Shared.state sh' = Shared.state sh → Shared.replies sh' = Shared.replies sh →
  Shared.closed_tx sh' = Shared.closed_tx sh → view sh' iss log rcvd.
Proof. intros [] Es Er Ec. constructor; rewrite ?Es, ?Er, ?Ec; done. Qed.

Lemma view_submit sh iss log rcvd req seqnum c :
  view sh iss log rcvd → NoDup (numbers (iss ++ [(Shared.channels sh, seqnum, req)])) →
  (∀ n, n ∈ omap resolves_in rcvd → n ∈ numbers iss) →
  view (submitted sh seqnum req) (iss ++ [(Shared.channels sh, seqnum, req)]) (log ++ [CSubmit c]) rcvd.
Proof.
  intros V Hnd Hr. rewrite fmap_app in Hnd. cbn in Hnd. apply NoDup_app in Hnd as (_ & Hnew & _).
  assert (seqnum ∉ omap resolves_in rcvd) as Hs.
  { intros Hs%Hr. apply (Hnew _ Hs). by left. }
  destruct V. constructor; cbn; rewrite ?omap_snoc; cbn; rewrite ?app_nil_r; try done.
  - intros Ho n. rewrite lookup_insert_is_Some', fmap_app, elem_of_app, v_pending0 by done.
    cbn. rewrite list_elem_of_singleton. naive_solver.
  - intros c0 ret (i & comp & ? & H)%v_completed0. exists i, comp. rewrite elem_of_app. auto.
  - intros c0 st (-> & i & u & ? & H)%v_cancelled0. split; [done|]. exists i, u. rewrite elem_of_app. auto.
  - destruct v_order0 as (dones & E1 & E2 & E3). exists dones. split; [done|]. split; [|done].
    intros i Hi. rewrite elem_of_app. auto.
Qed.

Lemma view_unlinking sh iss log rcvd seqnum t d :
  view sh iss log rcvd →
  NoDup (omap unlink_pair (log ++ [CUnlink (CmdUnlink.mk seqnum d t)])).*1 →
  (∀ n, n ∈ answered rcvd → n ∈ (omap unlink_pair log).*1) →
  view (unlinking sh seqnum t) iss (log ++ [CUnlink (CmdUnlink.mk seqnum d t)]) rcvd.
Proof.
  intros V Hnd Ha. rewrite omap_snoc, fmap_app in Hnd. cbn in Hnd.
  apply NoDup_app in Hnd as (_ & Hnew & _).
  assert (∀ u x, (u, x) ∈ omap unlink_pair log → u ≠ seqnum) as Hne.
  { intros u x H ->. apply (Hnew seqnum); [by apply (list_elem_of_fmap_2 fst) in H|by left]. }
  assert (seqnum ∉ answered rcvd) as Hs.
  { intros Hs%Ha. apply (Hnew _ Hs). by left. }
  destruct V. constructor; cbn; rewrite ?omap_snoc; cbn; try done.
  - intros u x. rewrite lookup_insert. case_decide; [intros [= <-]; subst|].
    + rewrite elem_of_app, list_elem_of_singleton. auto.
    + intros [? ?]%v_unlinks0. rewrite elem_of_app. auto.
  - intros Ho u x. rewrite elem_of_app, list_elem_of_singleton. intros [H|[= -> ->]] H1 H2.
    + rewrite lookup_insert_ne; [by apply v_asked0|]. by apply not_eq_sym, (Hne u x).
    + apply lookup_insert_eq.
Qed.

Lemma view_close reason sh iss log rcvd :
  ok sh iss → view sh iss log rcvd → (is_open sh → benign reason) →
  view (Shared.close reason sh) iss log rcvd.
Proof.
  intros I V Hb. pose proof (close_spec reason sh (ok_closed_tx _ _ I)) as H. simpl in H.
  destruct (State.closed (Shared.state sh)) eqn:Ec; [by rewrite H|].
  destruct H as (H1 & H2 & H3 & H4 & H5 & H6 & _ & _ & _ & H10).
  assert (∀ c r, (c, r) ∈ Shared.replies (Shared.close reason sh) →
    (c, r) ∈ Shared.replies sh ∨ r = Err (Disconnected reason)) as Hr.
  { intros c r. rewrite H10, elem_of_app. intros [|(x & [= -> ->] & _)%list_elem_of_fmap]; auto. }
  destruct V. constructor; rewrite ?H1, ?H3, ?H4, ?H6; try done.
  - intros c ret [Hin|]%Hr; [by apply v_completed0|done].
  - intros c st [Hin|]%Hr; [by apply v_cancelled0|done].
  - rewrite H10, omap_app. assert (∀ cs : list chan, omap completion_chan
      ((λ c, (c, Err (Disconnected reason) : TransferResult)) <$> cs) = []) as -> by by induction cs.
    by rewrite app_nil_r.
  - intros r. rewrite H2. intros [= <-]. auto.
Qed.

(** ** Handling a message *)

Context (iss : list issue) (log : list SessionFacts.command) (told : list message).
Context (C : coherent export log iss told).

Lemma rcvd_snoc j m : told !! j = Some m →
  take (S j) told = take j told ++ [m] ∧ told = take j told ++ m :: drop (S j) told.
Proof. intros H. split; [by apply take_S_snoc|]. symmetry. by apply take_drop_middle. Qed.

(** What a message resolves was not resolved before. *)
Lemma resolved_now j m n : told !! j = Some m → resolves_in m = Some n →
  n ∉ omap resolves_in (take j told).
Proof.
  intros Hj Hm Hin. destruct (rcvd_snoc j m Hj) as [_ E]. pose proof (c_once _ _ _ _ C) as Hnd.
  rewrite E, omap_app in Hnd. apply NoDup_app in Hnd as (_ & H & _). apply (H n Hin). cbn.
  rewrite Hm. by left.
Qed.

Lemma answered_now j u t b : told !! j = Some (Unlinking u t b) → u ∉ answered (take j told).
Proof.
  intros Hj Hin. destruct (rcvd_snoc j _ Hj) as [_ E]. pose proof (c_answers _ _ _ _ C) as Hnd.
  unfold answered in *. rewrite E, omap_app, fmap_app in Hnd. apply NoDup_app in Hnd as (_ & H & _).
  apply (H u Hin). cbn. by left.
Qed.

Lemma pair_unique u t t' : (u, t) ∈ omap unlink_pair log → (u, t') ∈ omap unlink_pair log → t = t'.
Proof.
  intros H1 H2. pose proof (c_pairs _ _ _ _ C) as Hnd.
  apply list_elem_of_lookup in H1 as [x Hx], H2 as [y Hy].
  assert (x = y) as ->; [|congruence].
  eapply (NoDup_lookup _ x y); [exact Hnd|..]; rewrite list_lookup_fmap, ?Hx, ?Hy; done.
Qed.

Lemma number_unique i i' : i ∈ iss → i' ∈ iss → i.1.2 = i'.1.2 → i = i'.
Proof.
  intros Hi Hi' E. apply list_elem_of_lookup in Hi as [x Hx], Hi' as [y Hy].
  assert (x = y) as ->; [|congruence].
  eapply (NoDup_lookup (numbers iss) x y); [apply (c_numbers _ _ _ _ C)|..];
    rewrite list_lookup_fmap, ?Hx, ?Hy; cbn; [done|]. by rewrite E.
Qed.


(** *** RET_UNLINK *)

Lemma answered_snoc l u t b : answered (l ++ [Unlinking u t b]) = answered l ++ [u].
Proof. unfold answered. by rewrite omap_snoc, fmap_app. Qed.

(** The unlink is one the session waits for: its request is resolved, unlinked. *)
Definition unlink_found (u t : Z) (p : PendingSubmit.t) (sh : Shared.t) : Shared.t :=
  Shared.mk (Shared.devid sh)
    (State.mk (State.next_seqnum (Shared.state sh)) (delete t (requests sh)) (delete u (asked sh))
       (push_unlinked (t, PendingSubmit.direction p, PendingSubmit.length p)
          (State.unlinked (Shared.state sh))) (State.closed (Shared.state sh)))
    (Shared.frames sh) (Shared.channels sh)
    (Shared.replies sh ++ [(PendingSubmit.reply p, Err (Unlinked (-104)))]) (Shared.closed_tx sh).

Lemma view_unlink_found sh rcvd u t p :
  ok sh iss → view sh iss log rcvd → is_open sh → requests sh !! t = Some p → u ∉ answered rcvd →
  view (unlink_found u t p sh) iss log (rcvd ++ [Unlinking u t true]).
Proof.
  intros I [] Ho Hp Hu.
  constructor; cbn; rewrite ?omap_snoc; cbn; rewrite ?answered_snoc.
  - intros _ n. rewrite lookup_delete_is_Some, v_pending0, not_elem_of_app by done.
    rewrite list_elem_of_singleton. naive_solver.
  - intros u0 t0 [Hne [? ?]%v_unlinks0]%lookup_delete_Some. split; [done|].
    rewrite not_elem_of_app, list_elem_of_singleton. auto.
  - intros _ u0 t0 H0. rewrite !not_elem_of_app, !list_elem_of_singleton. intros [H1 H2] [H3 H4].
    rewrite lookup_delete_ne by auto. by apply v_asked0.
  - intros e He. rewrite elem_of_app.
    assert (e.1.1 ∈ (λ u : Z * Direction.t * Z, u.1.1) <$> push_unlinked (t, PendingSubmit.direction p,
      PendingSubmit.length p) (State.unlinked (Shared.state sh))) as [->|Hx]%push_unlinked_known
      by (apply list_elem_of_fmap; eauto); [right; by left|left].
    apply list_elem_of_fmap in Hx as (y & -> & Hy). by apply v_unlinked0.
  - intros c ret. rewrite elem_of_app, list_elem_of_singleton. intros [H|]; [|done].
    destruct (v_completed0 _ _ H) as (i & comp & H1 & H2 & H3 & H4). exists i, comp.
    rewrite elem_of_app. auto.
  - intros c st. rewrite elem_of_app, list_elem_of_singleton. intros [H|[= -> ->]].
    + destruct (v_cancelled0 _ _ H) as (-> & i & w & H1 & H2 & H3). split; [done|]. exists i, w.
      rewrite elem_of_app. auto.
    + split; [done|]. destruct (ok_pending _ _ I _ _ Hp) as (req & Hin & _).
      exists (PendingSubmit.reply p, t, req), u. rewrite elem_of_app. split; [done|]. split; [done|].
      right. by left.
  - by rewrite !app_nil_r.
  - exact v_reason0.
Qed.

(** The unlink lost the race: its request was resolved before. *)
Lemma view_unlink_stale sh rcvd u t b :
  view sh iss log rcvd → asked sh !! u = None → u ∉ answered rcvd → (is_open sh → b = false) →
  view (Shared.set_state (State.set_unlinks (delete u (asked sh)) (Shared.state sh)) sh) iss log
    (rcvd ++ [Unlinking u t b]).
Proof.
  intros [] Eu Hu Hb.
  assert (∀ n, n ∈ omap resolves_in rcvd → n ∈ omap resolves_in (rcvd ++ [Unlinking u t b])) as Hmono
    by (intros n; rewrite omap_app, elem_of_app; auto).
  assert (delete u (asked sh) = asked sh) as Ed by by apply delete_id.
  constructor; cbn; rewrite ?answered_snoc, ?Ed.
  - intros Ho n. rewrite v_pending0, Hb by done. by rewrite omap_snoc, app_nil_r.
  - intros u0 t0 H. destruct (v_unlinks0 _ _ H) as [? ?]. split; [done|].
    rewrite not_elem_of_app, list_elem_of_singleton. split; [done|]. intros ->. congruence.
  - intros Ho u0 t0 H0. rewrite not_elem_of_app. intros [H1 _] H2. apply v_asked0; [done..|].
    intros H%Hmono. done.
  - intros e He. by apply Hmono, v_unlinked0.
  - intros c ret (i & comp & H1 & H2 & H3 & H4)%v_completed0. exists i, comp. rewrite elem_of_app. auto.
  - intros c st (-> & i & w & H1 & H2 & H3)%v_cancelled0. split; [done|]. exists i, w.
    rewrite elem_of_app. auto.
  - rewrite omap_snoc. cbn. by rewrite app_nil_r.
  - exact v_reason0.
Qed.

Lemma view_on_unlink sh j u t b :
  ok sh iss → view sh iss log (take j told) → told !! j = Some (Unlinking u t b) →
  view (Session.on_unlink (RetUnlink.mk u (if b then -104 else 0)) sh) iss log (take (S j) told).
Proof.
  intros I V Hj. destruct (rcvd_snoc j _ Hj) as [-> E].
  assert ((u, t) ∈ omap unlink_pair log) as Hut.
  { apply (c_unlinks _ _ _ _ C u t b). by eapply list_elem_of_lookup_2. }
  pose proof (answered_now j u t b Hj) as Hu.
  assert (b = false → t ∈ omap resolves_in (take j told)) as Hlate.
  { intros ->. by eapply (c_late _ _ _ _ C). }
  assert (b = true → t ∉ omap resolves_in (take j told)) as Hnow.
  { intros ->. by eapply resolved_now. }
  pose proof V as [].
  pose proof (on_unlink_cases (RetUnlink.mk u (if b then -104 else 0)) sh iss I) as Hc.
  cbn [RetUnlink.seqnum RetUnlink.status] in Hc.
  destruct (asked sh !! u) as [t'|] eqn:Eu.
  - destruct Hc as (p & Hp & ->).
    assert (t' = t) as -> by (eapply pair_unique; [by apply v_unlinks0|done]).
    assert (is_open sh) as Ho.
    { apply eq_None_not_Some. intros [_ Hem]%(ok_closed _ _ I). by rewrite Hem, lookup_empty in Eu. }
    destruct b; [by apply view_unlink_found|].
    exfalso. apply (v_pending0 Ho t); [by eexists|auto].
  - rewrite Hc. apply view_unlink_stale; [done..|]. intros Ho. destruct b; [|done].
    by rewrite (v_asked0 Ho u t) in Eu by auto.
Qed.

(** *** RET_SUBMIT *)

Lemma view_deliver sh j i comp :
  ok sh iss → view sh iss log (take j told) →
  told !! j = Some (Reply (requested dev i) (Outcome.Complete comp)) → i ∈ iss →
  view (deliver i.1.2 (reply_of (requested dev i) comp) sh) iss log (take (S j) told).
Proof.
  intros I V Hj Hi. destruct (rcvd_snoc j _ Hj) as [-> E].
  assert (Urb.seqnum (requested dev i) = i.1.2) as En by by destruct i as [[? ?] ?].
  set (rcvd := take j told) in *.
  assert (omap resolves_in (rcvd ++ [Reply (requested dev i) (Outcome.Complete comp)])
    = omap resolves_in rcvd ++ [i.1.2]) as Er by (rewrite omap_snoc; cbn; by rewrite En).
  assert (answered (rcvd ++ [Reply (requested dev i) (Outcome.Complete comp)]) = answered rcvd) as Ea
    by (unfold answered; by rewrite omap_snoc, app_nil_r).
  destruct V.
  assert (view (Shared.set_state (delivered_state (Shared.state sh) i.1.2) sh) iss log
    (rcvd ++ [Reply (requested dev i) (Outcome.Complete comp)])) as V'.
  { constructor; cbn; rewrite ?Er, ?Ea.
    - intros Ho n. rewrite lookup_delete_is_Some, v_pending0, not_elem_of_app by done.
      rewrite list_elem_of_singleton. naive_solver.
    - intros u t [? _]%map_lookup_filter_Some. by apply v_unlinks0.
    - intros Ho u t H0 H1. rewrite not_elem_of_app, list_elem_of_singleton. intros [H2 H3].
      apply map_lookup_filter_Some. split; [by apply v_asked0|done].
    - intros e [_ He]%list_elem_of_filter. rewrite elem_of_app. left. by apply v_unlinked0.
    - intros c ret (x & y & H1 & H2 & H3 & H4)%v_completed0. exists x, y. rewrite elem_of_app. auto.
    - intros c st (-> & x & w & H1 & H2 & H3)%v_cancelled0. split; [done|]. exists x, w.
      rewrite elem_of_app. auto.
    - destruct v_order0 as (dones & E1 & E2 & E3). exists dones. split; [done|]. split; [done|].
      rewrite omap_snoc. by apply sublist_inserts_r.
    - exact v_reason0. }
  rewrite deliver_cases. destruct (requests sh !! i.1.2) as [p|] eqn:Ep; [|done].
  destruct V'. constructor; cbn; try done.
  - intros c ret. rewrite elem_of_app, list_elem_of_singleton. intros [?|[= -> ->]]; [by apply v_completed1|].
    destruct (ok_pending _ _ I _ _ Ep) as (req & Hin & _).
    assert (i = (PendingSubmit.reply p, i.1.2, req)) as Ei by by apply number_unique.
    exists i, comp. split; [done|]. split; [by rewrite Ei|]. split; [|done].
    rewrite elem_of_app. right. by left.
  - intros c st. rewrite elem_of_app, list_elem_of_singleton. intros [?|]; [by apply v_cancelled1|done].
  - destruct v_order0 as (dones & E1 & E2 & E3). exists (dones ++ [i]).
    destruct (ok_pending _ _ I _ _ Ep) as (req & Hin & _).
    assert (i = (PendingSubmit.reply p, i.1.2, req)) as Ei by by apply number_unique.
    rewrite !omap_snoc, E1. unfold chans_of. rewrite !fmap_app. cbn. split; [by rewrite Ei|]. split.
    + intros x. rewrite elem_of_app, list_elem_of_singleton. intros [?| ->]; auto.
    + by apply sublist_app.
Qed.

(** While the session is open, the request of a reply that has just arrived is pending. *)
Lemma view_lookup sh j i comp :
  ok sh iss → view sh iss log (take j told) →
  told !! j = Some (Reply (requested dev i) (Outcome.Complete comp)) → i ∈ iss →
  match lookup_request i.1.2 sh with
  | Ok (d, l) => d = SubmitRequest.direction i.2 ∧ l = SubmitRequest.length i.2
  | Err _ => ¬ is_open sh
  end.
Proof.
  intros I V Hj Hi.
  assert (Urb.seqnum (requested dev i) = i.1.2) as En by by destruct i as [[? ?] ?].
  assert (i.1.2 ∉ omap resolves_in (take j told)) as Hn.
  { eapply resolved_now; [exact Hj|]. cbn. by rewrite En. }
  unfold lookup_request. destruct (requests sh !! i.1.2) as [p|] eqn:Ep.
  - destruct (ok_pending _ _ I _ _ Ep) as (req & Hin & -> & ->).
    assert (i = (PendingSubmit.reply p, i.1.2, req)) as -> by by apply number_unique. done.
  - destruct (find_first _ _) as [[[s d] l]|] eqn:Ef.
    + apply find_first_Some in Ef as (l1 & l2 & El & Es & _). cbn in Es. apply Z.eqb_eq in Es as ->.
      exfalso. apply Hn. apply (v_unlinked _ _ _ _ V (i.1.2, d, l)). rewrite El, elem_of_app. right. by left.
    + intros Ho. assert (is_Some (requests sh !! i.1.2)) as [? ?]; [|congruence].
      apply (v_pending _ _ _ _ V Ho). split; [|done]. by apply (list_elem_of_fmap_2 (λ i : issue, i.1.2)).
Qed.

End View.
