(* ===== verification/PeersRun.v ===== *)
(** * PeersRun: every run of a connected session and server keeps the invariant

    What the session's reader makes of the server's bytes, the invariant [tied], and that each step of
    either side keeps it. *)

From stdpp Require Import base tactics option list gmap fin_maps fin_sets relations sorting.
From S2P Require Import Prelude Wire Protocol ProtocolFacts Server Serving ServingFacts Session SessionFacts System SessionSpec Peers PeersFacts PeersView.

Section Reading.
Context {B : BytesCrate} {BL : BytesLaws B}.
Context {R : Type} {AR : AsyncRead R} {AL : AsyncReadLaws R} {D : Device}.
Context (export : ExportDev.t) (HD : conforming).

Notation dev := (ExportDev.devid export).

Lemma read_header_short (r : R) : (length (incoming r) < 48)%nat →
  ∃ e r', read_reply_header r = Done (Err (Io e), r').
Proof.
  intros H. destruct (read_exact_short 48 r H) as (e & r' & E). exists e, r'.
  unfold read_reply_header, mbind, rd_bind, rd_io, URB_HEADER_SIZE. by rewrite E.
Qed.

(** The stream ends within the body of a reply. *)
Lemma read_ret_body_short u c (r : R) missing :
  completion_wf u c → incoming r ++ missing = ret_body u c → missing ≠ [] →
  ∃ e r', read_submit_payload (reply_header u c) (Urb.is_in u) (Urb.length u) r = Done (Err (Io e), r').
Proof.
  intros [] Hin Hm. destruct (read_submit_payload_post (Urb.seqnum u) (Completion.status c)
    (actual_of u c) (Completion.start_frame c) (Z.of_nat (length (iso_of u c))) 0 (Urb.is_in u)
    (Urb.length u) r) as (x & r' & E & Hx); [lia..|].
  destruct x as [ret|e]; [exfalso|].
  - destruct Hx as (_ & _ & _ & _ & _ & _ & Hd & _ & iso & Hi & Ein). rewrite Ein in Hin.
    apply (f_equal length) in Hin. unfold ret_body in Hin. rewrite !length_app in Hin.
    assert (length (if Urb.is_in u then Completion.data c else []) = length (RetSubmit.data ret)) as Ed.
    { apply Nat2Z.inj. rewrite Hd. unfold actual_of. by destruct (Urb.is_in u). }
    rewrite (length_concat_uniform ISO_DESCRIPTOR_SIZE), length_fmap in Hin by apply iso_words_uniform.
    destruct missing; [done|]. simpl in Hin. lia.
  - destruct e as [e| | | |[| | | |s a m| |]]; try done; [by exists e, r'|].
    destruct Hx as (_ & -> & -> & ?). lia.
Qed.

(** What a conforming device completes fits into a reply. *)
Lemma completion_sent i comp :
  request_fit export i → is_u 32 i.1.2 → may_end (requested dev i) (Outcome.Complete comp) →
  completion_wf (requested dev i) comp ∧ bytes_ok (Completion.data comp).
Proof.
  intros Hfit Hn Hm. destruct i as [[ch n] req]. pose proof (fit_wf _ _ Hfit) as [].
  set (u := requested dev (ch, n, req)) in *. cbn in *.
  assert (completion_fits u comp) as [].
  { unfold may_end in Hm. destruct (_ && _).
    - injection Hm as ->. constructor; cbn; try (by apply (bool_decide_unpack _)).
      unfold actual_of. destruct (Urb.is_in u); cbn; lia.
    - exact (HD u _ (proj1 rwf_length) Hm). }
  split; [|done]. constructor; cbn in *; try done; [split; lia|..].
  - unfold iso_of. rewrite length_fmap. destruct (Completion.iso comp); [|done]. cbn.
    by rewrite length_fmap.
  - unfold iso_of. apply Forall_fmap. destruct (Completion.iso comp); [|done]. cbn.
    apply Forall_fmap. eapply Forall_impl; [eassumption|]. by intros [].
Qed.

(** It never answers with bytes of its own. *)
Lemma raw_never i bs : request_fit export i → ¬ may_end (requested dev i) (Outcome.Raw bs).
Proof.
  intros Hfit. unfold may_end. destruct (_ && _); [done|]. intros H. destruct i as [[ch n] req].
  pose proof (rwf_length _ (fit_wf _ _ Hfit)) as [H0 _]. exact (HD (requested dev (ch, n, req)) _ H0 H).
Qed.

Context (iss : list issue) (log : list SessionFacts.command) (told : list message).
Context (C : coherent export log iss told) (Hu : ∀ i, i ∈ iss → is_u 32 i.1.2)
  (Hlog : ∀ u t, (u, t) ∈ omap unlink_pair log → is_u 32 u).

Lemma unlink_reply_length u b : length (unlink_reply u b) = 48%nat.
Proof. unfold unlink_reply. rewrite length_app, length_take, length_replicate. by destruct b. Qed.

(** What the reader task makes of the next bytes, in front of a header. *)
Lemma reads_header w sw j (r : R) :
  sending w told sw → w = concat (bytes_of <$> take j told) ++ incoming r →
  ∃ x r', read_reply_header r = Done (x, r') ∧
  match x with
  | Err e => (∃ io, e = Io io) ∧ (length (incoming r) < 48)%nat
  | Ok (Reply.Unlink ret) => ∃ u t b, told !! j = Some (Unlinking u t b) ∧
      ret = RetUnlink.mk u (if b then -104 else 0) ∧ down w told (S j) Idle (incoming r')
  | Ok h => ∃ i comp, told !! j = Some (Reply (requested dev i) (Outcome.Complete comp)) ∧ i ∈ iss ∧
      completion_wf (requested dev i) comp ∧ h = reply_header (requested dev i) comp ∧
      w = concat (bytes_of <$> take j told) ++ ret_header (requested dev i) comp ++ incoming r'
  end.
Proof.
  intros Hs Hw. destruct (decide (length (incoming r) < 48)%nat) as [Hl|Hl].
  { destruct (read_header_short r Hl) as (e & r' & ->). exists (Err (Io e)), r'. split; [done|].
    split; [by exists e|done]. }
  destruct (next_message _ _ _ _ _ Hs Hw) as (m & Hm & Hf & rest & Hp).
  { intros E. rewrite E in Hl. simpl in Hl. lia. }
  destruct m as [u o|u t b|]; [| |by destruct Hf].
  - destruct (c_replies _ _ _ _ C u o) as (i & Hi & -> & Hfit & Hend); [by eapply list_elem_of_lookup_2|].
    destruct o as [comp|bs|]; [|exfalso|by destruct Hf].
    2: by apply raw_never in Hend.
    destruct (completion_sent i comp Hfit (Hu _ Hi) Hend) as [Wf _].
    unfold bytes_of in Hp. cbn in Hp. rewrite ret_submit_split, <- app_assoc in Hp by done.
    destruct (prefix_cut _ _ _ Hp) as [ρ Hinc]; [rewrite length_ret_header; lia|].
    destruct (read_ret_header _ _ ρ r Wf Hinc) as (r' & E & Hr'). exists (Ok (reply_header (requested dev i) comp)), r'.
    split; [done|]. cbn. exists i, comp. rewrite Hw, Hinc, Hr'. done.
  - change (bytes_of (Unlinking u t b)) with (unlink_reply u b) in Hp.
    destruct (prefix_cut _ _ _ Hp) as [ρ Hinc]; [rewrite unlink_reply_length; lia|].
    assert (is_u 32 u) as Huu.
    { eapply (Hlog u t), (c_unlinks _ _ _ _ C u t b). by eapply list_elem_of_lookup_2. }
    destruct (ret_unlink_roundtrip u b ρ r Huu Hinc) as (r' & E & Hr').
    eexists _, r'. split; [exact E|]. cbn. exists u, t, b. split; [done|]. split; [done|].
    rewrite (concat_take_S _ _ _ _ Hm), Hw, Hinc, Hr'. by rewrite <- app_assoc.
Qed.

(** And of the rest of a reply. *)
Lemma reads_payload w sw j (r : R) i comp :
  sending w told sw → told !! j = Some (Reply (requested dev i) (Outcome.Complete comp)) → i ∈ iss →
  w = concat (bytes_of <$> take j told) ++ ret_header (requested dev i) comp ++ incoming r →
  ∃ x r', read_submit_payload (reply_header (requested dev i) comp) (Urb.is_in (requested dev i))
            (Urb.length (requested dev i)) r = Done (x, r') ∧
  match x with
  | Err e => (∃ io, e = Io io) ∧ (length (incoming r) < length (ret_body (requested dev i) comp))%nat
  | Ok ret => ret = reply_of (requested dev i) comp ∧ down w told (S j) Idle (incoming r')
  end.
Proof.
  intros Hs Hj Hi Hw.
  destruct (c_replies _ _ _ _ C (requested dev i) (Outcome.Complete comp)) as (i' & Hi' & Ei & Hfit & Hend);
    [by eapply list_elem_of_lookup_2|].
  assert (i' = i) as ->.
  { apply (number_unique export iss log told C); [done..|].
    assert (∀ i, Urb.seqnum (requested dev i) = i.1.2) as En by by intros [[? ?] ?].
    by rewrite <- !En, Ei. }
  destruct (completion_sent i comp Hfit (Hu _ Hi) Hend) as [Wf _]. set (u := requested dev i) in *.
  destruct (next_message _ _ _ _ _ Hs Hw) as (m & Hm & _ & rest & Hp).
  { intros E%(f_equal length). rewrite length_app, length_ret_header in E. simpl in E. lia. }
  rewrite Hj in Hm. injection Hm as <-. unfold bytes_of in Hp. cbn in Hp.
  rewrite ret_submit_split, <- app_assoc in Hp by done. apply prefix_app_inv in Hp.
  destruct (decide (length (ret_body u comp) ≤ length (incoming r))%nat) as [Hl|Hl].
  - destruct (prefix_cut _ _ _ Hp Hl) as [ρ Hinc].
    destruct (read_ret_body u comp ρ r Wf Hinc) as (r' & E & Hr'). eexists _, r'. split; [exact E|].
    split; [done|]. cbn. rewrite (concat_take_S _ _ _ _ Hj), Hw, Hinc, Hr'.
    change (bytes_of _) with (ret_submit u comp). by rewrite ret_submit_split, <- !app_assoc by done.
  - destruct (prefix_short _ _ _ Hp) as (z & Hz & Hne); [lia|].
    destruct (read_ret_body_short u comp r z Wf Hz Hne) as (e & r' & E). exists (Err (Io e)), r'.
    split; [done|]. split; [by exists e|]. fold u. lia.
Qed.

End Reading.

(** ** The invariant *)

Section Run.
Context {B : BytesCrate} {BL : BytesLaws B}.
Context {R : Type} {AR : AsyncRead R} {AL : AsyncReadLaws R} {F : Feed R} {D : Device}.
Context (export : ExportDev.t) (Hdevnum : is_u 16 (ExportDev.devnum export)) (HD : conforming).

Notation dev := (ExportDev.devid export).

Record tied (n : net R) (log : list SessionFacts.command) (told : list message) (k j : nat) : Prop := {
  t_ok : ok (shared (client n)) (issued (client n));
  t_faithful : faithful (shared (client n)) (issued (client n)) (at_phase (client n));
  t_log : log_of (client n) log;
  t_devid : Shared.devid (shared (client n)) = dev;
  t_writes : writes (client n);
  t_handled : handled log (server n) told k (written (client n));
  t_j : (j ≤ length told)%nat;
  t_down : down (Conn.written (server n)) told j (at_phase (client n)) (incoming (reader (client n)));
  t_view : view export (shared (client n)) (issued (client n)) log (take j told);
}.

(** *** What the session has issued only grows *)

Lemma session_grows (s s' : sys (R := R)) : ok (shared s) (issued s) → step s s' →
  (∃ l, issued s' = issued s ++ l) ∧ (∃ l, Shared.frames (shared s') = Shared.frames (shared s) ++ l) ∧
  ∃ l, written s' = written s ++ l.
Proof.
  intros I Hs. assert (∀ A (l : list A), ∃ k, l = l ++ k) as Hn by (intros; exists []; by rewrite app_nil_r).
  assert (∀ reason, ∃ l, Shared.frames (Shared.close reason (shared s)) = Shared.frames (shared s) ++ l) as Hcl.
  { intros reason. rewrite (proj1 (close_frames reason _ _ I)). apply Hn. }
  destruct Hs as [s req x sh' H|s t sh' H|s|s e r Hp H|s seqnum status len start n ec r d l Hp H Hl
    |s seqnum status len start n ec r e Hp H Hl|s ret r Hp H|s h d l ret r Hp H|s h d l e r Hp H|s H
    |s n ready batch rest Hw Hb|s n ready batch rest e part Hw Hb Hpf|s H]; cbn; eauto.
  - apply submit_cases in H. destruct x as [[seqnum c]|[| |]]; [|done|..].
    + destruct H as (_ & _ & _ & _ & ->). cbn. eauto.
    + destruct H as (_ & _ & ->). auto.
    + destruct H as [-> _]. auto.
  - apply unlink_cases in H as [[_ ->]|(_ & ? & _ & ->)]; cbn; eauto.
  - rewrite (proj1 (on_unlink_frames _ _ _ I)). auto.
  - rewrite (proj1 (deliver_frames _ _ _)). auto.
Qed.

Lemma fair_step (s s' : sys (R := R)) : ok (shared s) (issued s) → step s s' → fair export s' → fair export s.
Proof.
  intros I Hs [W Hf]. destruct (session_grows s s' I Hs) as ([l El] & [f Ef] & _). split.
  - unfold no_wrap in *. rewrite Ef, length_app in W. lia.
  - rewrite El in Hf. by apply Forall_app in Hf as [? _].
Qed.

Lemma writes_prefix (s : sys (R := R)) log :
  log_of s log → writes s → written s `prefix_of` concat (encode_command <$> log).
Proof.
  intros L W. rewrite <- (lo_frames _ _ L). unfold writes in W. destruct (writer s); [|done].
  destruct W as [W _]. by eexists.
Qed.

(** *** Bytes that arrive *)

Lemma handled_feed log ext v told k w bs :
  handled log v told k w → bytes_ok bs →
  handled (log ++ ext) (Conn.set_reader (feed bs (Conn.reader v)) v) told k (w ++ bs).
Proof.
  intros [] Hb. constructor; cbn; rewrite ?take_app_le by done; try done.
  - by apply (served_same v).
  - rewrite length_app. lia.
  - rewrite incoming_feed by done. by apply up_log, up_feed.
Qed.

Lemma message_bytes log iss told m :
  coherent export log iss told → (∀ i, i ∈ iss → is_u 32 i.1.2) → m ∈ told → bytes_ok (bytes_of m).
Proof.
  intros C Hu Hm. destruct m as [u [comp|bs|]|u t b|]; try by constructor.
  - destruct (c_replies _ _ _ _ C u _ Hm) as (i & Hi & -> & Hfit & Hend).
    destruct (completion_sent export HD i comp Hfit (Hu _ Hi) Hend) as [Wf Hb].
    change (bytes_of _) with (ret_submit (requested dev i) comp). rewrite ret_submit_split by done.
    unfold ret_header, ret_body, bytes_ok. rewrite !Forall_app. repeat split.
    + apply words_ok.
    + by apply Forall_replicate.
    + by destruct (Urb.is_in _).
    + apply iso_words_ok.
  - destruct (c_replies _ _ _ _ C u _ Hm) as (i & Hi & -> & Hfit & Hend). by apply (raw_never export HD) in Hend.
  - change (bytes_of _) with (unlink_reply u b). unfold unlink_reply. apply Forall_app. split.
    + apply Forall_take. change (concat _) with (words [4; u; 0; 0; 0; wrap 32 (if b then -104 else 0)]).
      apply words_ok.
    + by apply Forall_replicate.
Qed.

Lemma sending_bytes log iss told w sw :
  coherent export log iss told → (∀ i, i ∈ iss → is_u 32 i.1.2) → sending w told sw → bytes_ok w.
Proof.
  intros C Hu (i & _ & z & E)%sending_prefix.
  assert (bytes_ok (concat (bytes_of <$> take i told))) as H.
  { assert (∀ l, (∀ m, m ∈ l → m ∈ told) → bytes_ok (concat (bytes_of <$> l))) as H.
    { induction l as [|m l IH]; intros Hl; [constructor|]. cbn. apply Forall_app. split.
      - eapply message_bytes; [done..|]. apply Hl. by left.
      - apply IH. intros. apply Hl. by right. }
    apply H. intros m Hm. by eapply elem_of_sublist, sublist_take. }
  rewrite E in H. by apply Forall_app in H as [? _].
Qed.

(** *** Steps of the session *)

(** What a step of the session must leave behind. *)
Definition stays (n : net R) (log : list SessionFacts.command) (told : list message)
    (c : sys (R := R)) : Prop :=
  ∃ ext j, log_of c (log ++ ext) ∧ (j ≤ length told)%nat ∧
    down (Conn.written (server n)) told j (at_phase c) (incoming (reader c)) ∧
    view export (shared c) (issued c) (log ++ ext) (take j told).

Lemma tied_coherent n log told k j :
  tied n log told k j → fair export (client n) → coherent export log (issued (client n)) told.
Proof. intros [] W. by eapply handled_coherent. Qed.

Lemma issued_u32 n log told k j : tied n log told k j →
  ∀ i, i ∈ issued (client n) → is_u 32 i.1.2.
Proof. intros T i Hi. by apply (ok_seqnums _ _ (t_ok _ _ _ _ _ T)). Qed.

Lemma pairs_u32 n log told k j : tied n log told k j →
  ∀ u t, (u, t) ∈ omap unlink_pair log → is_u 32 u.
Proof.
  intros T u t (c & Hc & E)%list_elem_of_omap. destruct c as [c|c]; [done|]. injection E as <- <-.
  pose proof (lo_ok _ _ (t_log _ _ _ _ _ T)) as H. rewrite Forall_forall in H. by apply (H _ Hc).
Qed.

(** Steps that send nothing and read nothing. *)
Lemma stays_same n log told k j c :
  tied n log told k j → Shared.frames (shared c) = Shared.frames (shared (client n)) →
  Shared.devid (shared c) = Shared.devid (shared (client n)) → issued c = issued (client n) →
  (at_phase c = at_phase (client n) ∧ reader c = reader (client n) ∨ at_phase c = Stopped) →
  view export (shared c) (issued (client n)) log (take j told) → stays n log told c.
Proof.
  intros [] Ef Ed Ei Hp V. exists [], j. rewrite app_nil_r, Ei. split; [by eapply log_same|].
  split; [done|]. split; [|done]. destruct Hp as [[-> ->]| ->]; done.
Qed.

Lemma stays_submit n log told k j req x sh' :
  tied n log told k j → submit req (shared (client n)) = Done (x, sh') →
  let c' := mk_sys sh' (match x with Ok (seqnum, c) => issued (client n) ++ [(c, seqnum, req)]
                                   | Err _ => issued (client n) end)
              (reader (client n)) (at_phase (client n)) (writer (client n)) (written (client n)) in
  fair export c' → fair export (client n) → stays n log told c'.
Proof.
  intros T H c' W' W. pose proof T as []. destruct x as [[seqnum c]|e].
  - assert (log_of c' (log ++ [CSubmit (cmd_of (Shared.devid (shared (client n))) seqnum req)])) as L'
      by (by eapply log_submitted).
    pose proof (step_ok _ _ t_ok0 (step_submit (client n) req _ sh' H)) as I'. fold c' in I'.
    pose proof (devid_step _ _ t_ok0 (step_submit (client n) req _ sh' H)) as Hd. cbn in Hd.
    apply submit_cases in H as (_ & _ & -> & _ & Esh). eexists _, j. split; [exact L'|].
    split; [done|]. split; [done|]. cbn. rewrite Esh. apply view_submit; [done|..].
    + eapply (issued_numbers export c'); try done.
    + intros m Hm. eapply (c_issued _ _ _ _ (tied_coherent _ _ _ _ _ T W)).
      rewrite <- (take_drop j told), omap_app, elem_of_app. by left.
  - apply submit_cases in H.
    assert (sh' = shared (client n) ∨ sh' = (Shared.channel (shared (client n))).2) as Hsh.
    { destruct e; [done|by right; destruct H as (_ & _ & ->)|by left; destruct H as [-> _]]. }
    eapply stays_same; [exact T|..]; cbn; try by destruct Hsh as [-> | ->].
    { by left. }
    eapply view_same; [exact t_view0|..]; by destruct Hsh as [-> | ->].
Qed.

Lemma stays_unlink n log told k j t sh' :
  tied n log told k j → Session.unlink t (shared (client n)) = Done sh' →
  fair export (set_shared sh' (client n)) → fair export (client n) →
  stays n log told (set_shared sh' (client n)).
Proof.
  intros T H W' W. pose proof T as []. apply unlink_cases in H as Hc.
  destruct Hc as [[_ ->]|((_ & [p Hp] & _) & seqnum & Hn & Esh)].
  { eapply stays_same; [exact T|done..| |done]. by left. }
  assert (log_of (set_shared sh' (client n))
    (log ++ [CUnlink (CmdUnlink.mk seqnum (Shared.devid (shared (client n))) t)])) as L'
    by (by eapply log_unlinking).
  pose proof (devid_step _ _ t_ok0 (step_unlink (client n) t sh' H)) as Hd. cbn in Hd.
  eexists _, j. split; [exact L'|]. split; [done|]. split; [done|]. cbn. rewrite Esh.
  apply view_unlinking; [done|..].
  - eapply sublist_NoDup; [|apply pairs_sublist]. eapply (log_numbers export (set_shared sh' (client n))); done.
  - intros u Hu. unfold answered in Hu. apply list_elem_of_fmap in Hu as ([[u' t'] b] & -> & Hu).
    apply list_elem_of_omap in Hu as (m & Hm & Em). destruct m; [done| |done]. injection Em as -> -> ->.
    apply list_elem_of_fmap. exists (u', t'). split; [done|].
    eapply (c_unlinks _ _ _ _ (tied_coherent _ _ _ _ _ T W)).
    by eapply elem_of_sublist, sublist_take.
Qed.

Lemma stays_close n log told k j reason c :
  tied n log told k j → shared c = Shared.close reason (shared (client n)) →
  issued c = issued (client n) →
  (at_phase c = at_phase (client n) ∧ reader c = reader (client n) ∨ at_phase c = Stopped) →
  (State.closed (Shared.state (shared (client n))) = None → benign reason) → stays n log told c.
Proof.
  intros T Es Ei Hp Hb. pose proof T as [].
  destruct (close_frames reason _ _ t_ok0) as [Ef Ed].
  eapply stays_same; [exact T|by rewrite Es|by rewrite Es|done|done|]. rewrite Es. by apply view_close.
Qed.

Lemma io_benign e : benign (read_reason (Io e)).
Proof. by destruct e. Qed.

(** What the reader finds in front of a header. *)
Lemma tied_reads n log told k j :
  tied n log told k j → fair export (client n) → at_phase (client n) = Idle →
  ∃ x r', read_reply_header (reader (client n)) = Done (x, r') ∧
  match x with
  | Err e => (∃ io, e = Io io) ∧ (length (incoming (reader (client n))) < 48)%nat
  | Ok (Reply.Unlink ret) => ∃ u t b, told !! j = Some (Unlinking u t b) ∧
      ret = RetUnlink.mk u (if b then -104 else 0) ∧
      down (Conn.written (server n)) told (S j) Idle (incoming r')
  | Ok h => ∃ i comp, told !! j = Some (Reply (requested dev i) (Outcome.Complete comp)) ∧
      i ∈ issued (client n) ∧ completion_wf (requested dev i) comp ∧
      h = reply_header (requested dev i) comp ∧
      Conn.written (server n) =
        concat (bytes_of <$> take j told) ++ ret_header (requested dev i) comp ++ incoming r'
  end.
Proof.
  intros T W Hp. pose proof T as []. rewrite Hp in t_down0. cbn in t_down0.
  eapply (reads_header export HD (issued (client n)) log told); [|by eapply issued_u32|by eapply pairs_u32| |done].
  - by eapply tied_coherent.
  - by eapply h_sending.
Qed.

Lemma requested_number (i : issue) : Urb.seqnum (requested dev i) = i.1.2.
Proof. by destruct i as [[? ?] ?]. Qed.

Lemma requested_stage (i : issue) :
  Urb.is_in (requested dev i) = bool_decide (SubmitRequest.direction i.2 = Direction.In) ∧
  Urb.length (requested dev i) = SubmitRequest.length i.2.
Proof. destruct i as [[? ?] req]. split; [|done]. cbn. by destruct (SubmitRequest.direction req). Qed.

Lemma stays_header n log told k j seqnum st len start np ec r :
  tied n log told k j → fair export (client n) → at_phase (client n) = Idle →
  read_reply_header (reader (client n)) = Done (Ok (Reply.Submit seqnum st len start np ec), r) →
  match lookup_request seqnum (shared (client n)) with
  | Ok (d, l) => stays n log told (set_reader (shared (client n)) r
      (AwaitPayload (Reply.Submit seqnum st len start np ec) d l) (client n))
  | Err e => stays n log told
      (set_reader (Shared.close (read_reason e) (shared (client n))) r Stopped (client n))
  end.
Proof.
  intros T W Hp H. destruct (tied_reads _ _ _ _ _ T W Hp) as (x & r' & E & Hx).
  rewrite H in E. injection E as <- <-. destruct Hx as (i & comp & Hj & Hi & Wf & Eh & Hw).
  pose proof T as []. assert (seqnum = i.1.2) as -> by (rewrite <- requested_number; by injection Eh).
  pose proof (view_lookup export (issued (client n)) log told (tied_coherent _ _ _ _ _ T W)
    (shared (client n)) j i comp t_ok0 t_view0 Hj Hi) as Hl.
  destruct (lookup_request i.1.2 (shared (client n))) as [[d l]|e].
  - destruct Hl as [-> ->]. exists [], j. rewrite app_nil_r. split; [by eapply log_same|].
    split; [done|]. split; [|done]. destruct (requested_stage i) as [E1 E2].
    exists (requested dev i), comp. rewrite E1, E2. done.
  - eapply (stays_close n log told k j (read_reason e)); [exact T|done..| |done]. by right.
Qed.

Lemma stays_ret_unlink n log told k j ret r :
  tied n log told k j → fair export (client n) → at_phase (client n) = Idle →
  read_reply_header (reader (client n)) = Done (Ok (Reply.Unlink ret), r) →
  stays n log told (set_reader (Session.on_unlink ret (shared (client n))) r Idle (client n)).
Proof.
  intros T W Hp H. destruct (tied_reads _ _ _ _ _ T W Hp) as (x & r' & E & Hx).
  rewrite H in E. injection E as <- <-. destruct Hx as (u & t & b & Hj & -> & Hd).
  pose proof T as []. exists [], (S j). rewrite app_nil_r.
  destruct (on_unlink_frames (RetUnlink.mk u (if b then -104 else 0)) _ _ t_ok0) as [Ef Ed].
  split; [by eapply log_same|]. split; [by apply lookup_lt_Some in Hj|]. split; [done|].
  eapply view_on_unlink; try done. by eapply tied_coherent.
Qed.

(** What the reader finds behind a header. *)
Lemma tied_payload n log told k j h d l :
  tied n log told k j → fair export (client n) → at_phase (client n) = AwaitPayload h d l →
  ∃ i comp x r', told !! j = Some (Reply (requested dev i) (Outcome.Complete comp)) ∧
    i ∈ issued (client n) ∧ seqnum_of h = i.1.2 ∧
    Conn.written (server n) =
      concat (bytes_of <$> take j told) ++ ret_header (requested dev i) comp ++ incoming (reader (client n)) ∧
    read_submit_payload h (bool_decide (d = Direction.In)) l (reader (client n)) = Done (x, r') ∧
    match x with
    | Err e => (∃ io, e = Io io) ∧
        (length (incoming (reader (client n))) < length (ret_body (requested dev i) comp))%nat
    | Ok ret => ret = reply_of (requested dev i) comp ∧
                down (Conn.written (server n)) told (S j) Idle (incoming r')
    end.
Proof.
  intros T W Hp. pose proof T as []. rewrite Hp in t_down0.
  destruct t_down0 as (u & comp & Hj & -> & Ed & -> & Hw).
  pose proof (tied_coherent _ _ _ _ _ T W) as C.
  destruct (c_replies _ _ _ _ C u (Outcome.Complete comp)) as (i & Hi & -> & _);
    [by eapply list_elem_of_lookup_2|].
  destruct (reads_payload export HD (issued (client n)) log told C (issued_u32 _ _ _ _ _ T)
    _ _ j (reader (client n)) i comp (h_sending _ _ _ _ _ t_handled0) Hj Hi Hw) as (x & r' & E & Hx).
  exists i, comp, x, r'. rewrite Ed. cbn [seqnum_of reply_header]. rewrite requested_number. done.
Qed.

Lemma stays_payload n log told k j h d l x r :
  tied n log told k j → fair export (client n) → at_phase (client n) = AwaitPayload h d l →
  read_submit_payload h (bool_decide (d = Direction.In)) l (reader (client n)) = Done (x, r) →
  match x with
  | Ok ret => stays n log told (set_reader (deliver (seqnum_of h) ret (shared (client n))) r Idle (client n))
  | Err e => stays n log told
      (set_reader (Shared.close (read_reason e) (shared (client n))) r Stopped (client n))
  end.
Proof.
  intros T W Hp H. destruct (tied_payload _ _ _ _ _ _ _ _ T W Hp) as (i & comp & x' & r' & Hj & Hi & En & _ & E & Hx).
  rewrite H in E. injection E as <- <-. destruct x as [ret|e].
  - destruct Hx as [-> Hd]. pose proof T as []. exists [], (S j). rewrite app_nil_r, En.
    destruct (deliver_frames i.1.2 (reply_of (requested dev i) comp) (shared (client n))) as [Ef Ed].
    split; [by eapply log_same|]. split; [by apply lookup_lt_Some in Hj|]. split; [done|].
    eapply view_deliver; try done. by eapply tied_coherent.
  - destruct Hx as [[io ->] _]. eapply (stays_close n log told k j (read_reason (Io io))); [exact T|done..| |].
    + by right.
    + intros _. apply io_benign.
Qed.

(** Every step of the session. *)
Lemma client_stays n log told k j c :
  tied n log told k j → fair export c → step (client n) c → stays n log told c.
Proof.
  intros T W' Hs. pose proof (fair_step _ _ (t_ok _ _ _ _ _ T) Hs W') as W. pose proof T as [].
  remember (client n) as s eqn:Ec. destruct Hs as [s req x sh' H|s t sh' H|s|s e r Hp H
    |s seqnum status len start np ec r d l Hp H Hl|s seqnum status len start np ec r e Hp H Hl|s ret r Hp H
    |s h d l ret r Hp H|s h d l e r Hp H|s H|s m ready batch rest Hw Hb|s m ready batch rest e part Hw Hb Hpf|s H];
    subst s.
  - by eapply stays_submit.
  - by eapply stays_unlink.
  - eapply (stays_close n log told k j ClosedByClient); [exact T|done..| |done]. by left.
  - destruct (tied_reads _ _ _ _ _ T W Hp) as (x & r' & E & Hx).
    rewrite H in E. injection E as <- <-. destruct Hx as [[io ->] _].
    eapply (stays_close n log told k j (read_reason (Io io))); [exact T|done..| |intros _; apply io_benign].
    by right.
  - pose proof (stays_header _ _ _ _ _ _ _ _ _ _ _ _ T W Hp H) as Hh. by rewrite Hl in Hh.
  - pose proof (stays_header _ _ _ _ _ _ _ _ _ _ _ _ T W Hp H) as Hh. by rewrite Hl in Hh.
  - by eapply stays_ret_unlink.
  - by apply (stays_payload _ _ _ _ _ _ _ _ _ _ T W Hp H).
  - by apply (stays_payload _ _ _ _ _ _ _ _ _ _ T W Hp H).
  - eapply stays_same; [exact T|done..|by right|done].
  - eapply stays_same; [exact T|done..|by left|done].
  - eapply (stays_close n log told k j (WriteFailed e)); [exact T|done..| |done]. by left.
  - eapply stays_same; [exact T|done..|by left|done].
Qed.

(** ** Steps of the connected system *)

Lemma tied_client n log told k j c bs :
  tied n log told k j → fair export c → step (client n) c → written c = written (client n) ++ bs →
  ∃ log' j', tied (mk_net c (Conn.set_reader (feed bs (Conn.reader (server n))) (server n))) log' told k j'.
Proof.
  intros T W' Hs Hw. destruct (client_stays _ _ _ _ _ _ T W' Hs) as (ext & j' & L & Hj & Hd & V).
  pose proof T as []. exists (log ++ ext), j'.
  pose proof (step_ok _ _ t_ok0 Hs) as I'. pose proof (step_writes _ _ t_ok0 t_writes0 Hs) as Wr'.
  pose proof (devid_step _ _ t_ok0 Hs) as Hdev. rewrite t_devid0 in Hdev.
  assert (bytes_ok bs) as Hb.
  { pose proof (writes_prefix _ _ L Wr') as [z Ez]. rewrite Hw, <- app_assoc in Ez.
    pose proof (frames_bytes export Hdevnum c (log ++ ext) L Hdev W') as Hfb.
    rewrite Ez in Hfb. unfold bytes_ok in Hfb. rewrite !Forall_app in Hfb. destruct Hfb as (_ & Hb & _). exact Hb. }
  constructor; cbn; try done; [exact (step_faithful _ _ t_ok0 t_faithful0 Hs)|]. rewrite Hw. by apply handled_feed.
Qed.

Lemma tied_arrive n log told ext k k' j v bs :
  tied n log told k j → fair export (client n) →
  handled log v (told ++ ext) k' (written (client n)) → Conn.written v = Conn.written (server n) ++ bs →
  tied (mk_net (arrive bs (client n)) v) log (told ++ ext) k' j.
Proof.
  intros T W H Hw. pose proof T as [].
  assert (bytes_ok bs) as Hb.
  { assert (bytes_ok (Conn.written v)) as Hv.
    { eapply (sending_bytes log (issued (client n)) (told ++ ext)); [|by eapply issued_u32|by eapply h_sending].
      by eapply handled_coherent. }
    rewrite Hw in Hv. by apply Forall_app in Hv as [_ ?]. }
  constructor; cbn; try done.
  - by eapply log_same.
  - rewrite length_app. lia.
  - rewrite Hw, incoming_feed by done. by apply down_told, down_feed.
  - by rewrite take_app_le.
Qed.

Lemma tied_server n log told k j v bs :
  tied n log told k j → fair export (client n) → Conn.step dev (server n) v →
  Conn.written v = Conn.written (server n) ++ bs →
  ∃ told' k', tied (mk_net (arrive bs (client n)) v) log told' k' j.
Proof.
  intros T W Hs Hw. pose proof T as [].
  destruct (handled_step export Hdevnum (client n) log t_ok0 t_log0 t_devid0 W _ _ _ _ _ t_handled0
    (writes_prefix _ _ t_log0 t_writes0) Hs) as (ext & k' & H).
  exists (told ++ ext), k'. by eapply tied_arrive.
Qed.

Lemma tied_lost n log told k j e :
  tied n log told k j → fair export (client n) → tied (mk_net (read_failed e (client n)) (server n)) log told k j.
Proof.
  intros T W. pose proof T as []. destruct (close_frames (read_reason (Io e)) _ _ t_ok0) as [Ef Ed].
  constructor; cbn; try done.
  - by apply ok_close.
  - apply (faithful_close _ _ _ (at_phase (client n))); [done..|]. by right.
  - by eapply log_same.
  - exact (eq_trans Ed t_devid0).
  - apply (writes_grow (client n) _ []); try done. rewrite app_nil_r. exact Ef.
  - apply view_close; [done..|]. intros _. apply io_benign.
Qed.

Lemma tied_stop n log told k j :
  tied n log told k j → tied (mk_net (client n) (Conn.stop (server n))) log (told ++ [Bye]) k j.
Proof.
  intros []. constructor; cbn; try done.
  - apply (handled_stop log (server n)); try done. by eapply h_clean.
  - rewrite length_app. lia.
  - by apply down_told.
  - by rewrite take_app_le.
Qed.

(** A step keeps the invariant, if the run is still fair after it. *)
Lemma net_step_tied n n' log told k j :
  tied n log told k j → net_step export n n' → fair export (client n') →
  ∃ log' told' k' j', tied n' log' told' k' j'.
Proof.
  intros T Hs W. destruct Hs as [n c bs Hs Hw|n v bs Hs Hw|n e Hp|n Hst]; cbn in W.
  - destruct (tied_client _ _ _ _ _ _ _ T W Hs Hw) as (? & ? & ?). eauto.
  - destruct (tied_server _ _ _ _ _ _ _ T W Hs Hw) as (? & ? & ?). eauto.
  - exists log, told, k, j. apply tied_lost; [done|]. destruct W as [W Hf].
    split; [|done]. unfold no_wrap in *. cbn in W.
    by rewrite (proj1 (close_frames _ _ _ (t_ok _ _ _ _ _ T))) in W.
  - eexists _, _, _, _. by apply tied_stop.
Qed.

Lemma net_step_ok n n' :
  ok (shared (client n)) (issued (client n)) → net_step export n n' →
  ok (shared (client n')) (issued (client n')) ∧ (fair export (client n') → fair export (client n)).
Proof.
  intros I Hs. destruct Hs as [n c bs Hs Hw|n v bs Hs Hw|n e Hp|n Hst]; cbn.
  - split; [by eapply step_ok|by eapply fair_step].
  - split; done.
  - split; [by apply ok_close|]. intros [W Hf]. split; [|done]. unfold no_wrap in *. cbn in W.
    by rewrite (proj1 (close_frames _ _ _ I)) in W.
  - done.
Qed.

Lemma tied_imported : tied (imported export) [] [] 0 0.
Proof.
  constructor; cbn.
  - apply ok_start.
  - constructor; cbn; try done.
    + intros c ret []%elem_of_nil.
    + intros _ k. unfold known, in_use. cbn. rewrite !lookup_empty.
      intros [[->|[[? [=]]|[? [=]]]]|[]%elem_of_nil]. done.
  - constructor; try done. intros [|] ? ? [=].
  - by apply devid_agrees.
  - split; cbn; [done|lia].
  - constructor; cbn; try done.
    + apply served_start.
    + by intros _ _.
    + by rewrite incoming_fresh.
    + intros [|] ? ? ? [=].
    + exists 0%nat. done.
  - done.
  - by rewrite incoming_fresh.
  - apply view_start.
Qed.

(** In every fair run the two ends are tied. *)
Lemma reachable_tied n : net_reachable export n → fair export (client n) →
  ∃ log told k j, tied n log told k j.
Proof.
  intros H. unfold net_reachable in H. pose proof tied_imported as T0.
  assert (ok (shared (client (imported export))) (issued (client (imported export)))) as I0 by apply T0.
  assert (fair export (client (imported export)) → ∃ log told k j, tied (imported export) log told k j) as G0 by eauto.
  clear T0. revert I0 G0. induction H as [n|n1 n2 n3 H12 _ IH]; intros I0 G0; [done|].
  destruct (net_step_ok _ _ I0 H12) as [I1 Hf]. apply IH; [done|]. intros W2.
  destruct (G0 (Hf W2)) as (log & told & k & j & T). by eapply net_step_tied.
Qed.

End Run.
