(* ===== verification/PeersScript.v ===== *)
(** * PeersScript: runs of a connected session and server, by the task that goes next

    [run]: an interleaving as a list of turns, evaluated; [run_steps]: it is a run of [net_step].
    [Module Peering] is a concrete one. *)

From stdpp Require Import base tactics option list gmap fin_maps fin_sets relations sorting.
From S2P Require Import Prelude Wire Protocol ProtocolFacts Server Serving ServingFacts ServingSpec Session SessionFacts System SessionSpec Peers.

(** ** Which task goes next *)

Module Script.

Inductive act : Type :=
| Submit (req : SubmitRequest.t)
| Unlink (target : Z)
| ClientWrite
| ClientRead
| ServerRead
| ServerTake (a : Z)
| ServerFinish (a : Z)
| ServerWrite.

Section Script.
Context {B : BytesCrate} {BL : BytesLaws B}.
Context {R : Type} {AR : AsyncRead R} {AL : AsyncReadLaws R} {F : Feed R} {D : Device}.
Context (export : ExportDev.t).
(** What the device makes of a job. *)
Context (choose : Job.t → Outcome.t) (Hchoose : ∀ j, Conn.comes_to j (choose j)).

Notation dev := (ExportDev.devid export).

Definition ok_of {A} (m : outcome A) : option A := match m with Done a => Some a | _ => None end.

Lemma ok_of_Some {A} (m : outcome A) a : ok_of m = Some a → m = Done a.
Proof. destruct m; cbn; congruence. Qed.

(** The session's turn, and what it writes. *)
Definition client_turn (x : act) (s : sys (R := R)) : option (sys (R := R) * list Z) :=
  match x with
  | Submit req =>
    '(x, sh) ← ok_of (submit req (shared s));
    Some (mk_sys sh (match x with Ok (seqnum, c) => issued s ++ [(c, seqnum, req)] | Err _ => issued s end)
            (reader s) (at_phase s) (writer s) (written s), [])
  | Unlink target => sh ← ok_of (Session.unlink target (shared s)); Some (set_shared sh s, [])
  | ClientWrite =>
    n ← writer s;
    '(batch, rest) ← next_batch 1000 (drop n (Shared.frames (shared s)));
    Some (mk_sys (shared s) (issued s) (reader s) (at_phase s)
            (Some (length (Shared.frames (shared s)) - length rest)%nat) (written s ++ batch), batch)
  | ClientRead =>
    match at_phase s with
    | Idle =>
      '(x, r) ← ok_of (read_reply_header (reader s));
      match x with
      | Ok (Reply.Unlink ret) => Some (set_reader (Session.on_unlink ret (shared s)) r Idle s, [])
      | Ok (Reply.Submit seqnum status len start n ec) =>
        match lookup_request seqnum (shared s) with
        | Ok (d, l) =>
          Some (set_reader (shared s) r (AwaitPayload (Reply.Submit seqnum status len start n ec) d l) s, [])
        | Err _ => None
        end
      | Err _ => None
      end
    | AwaitPayload h d l =>
      '(x, r) ← ok_of (read_submit_payload h (bool_decide (d = Direction.In)) l (reader s));
      match x with
      | Ok ret => Some (set_reader (deliver (seqnum_of h) ret (shared s)) r Idle s, [])
      | Err _ => None
      end
    | Stopped => None
    end
  | _ => None
  end.

(** The server's. *)
Definition server_turn (x : act) (s : Conn.t (R := R)) : option (Conn.t (R := R) * list Z) :=
  match x with
  | ServerRead =>
    match Conn.at_stage s with
    | AwaitHeader =>
      let '(h, r) := read_exact 48 (Conn.reader s) in
      match h with
      | Ok h => s ← ok_of (Conn.on_header dev h (Conn.set_reader r s)); Some (s, [])
      | Err _ => None
      end
    | AwaitBody h seqnum devid => s ← ok_of (Conn.on_body h seqnum devid s); Some (s, [])
    | Ended => None
    end
  | ServerTake a =>
    match Conn.running s !! a, Conn.queues s !! a with
    | None, Some (j :: rest) => Some (Conn.take_job a j rest s, [])
    | _, _ => None
    end
  | ServerFinish a => j ← Conn.running s !! a; Some (Conn.finish a j (choose j) s, [])
  | ServerWrite =>
    n ← Conn.writer s;
    match Conn.tx s !! n with
    | Some (Some frame) => Some (Conn.set_written (Some (S n)) (Conn.written s ++ frame) s, frame)
    | _ => None
    end
  | _ => None
  end.

Definition turn (x : act) (n : net R) : option (net R) :=
  match client_turn x (client n) with
  | Some (c, bs) => Some (mk_net c (Conn.set_reader (feed bs (Conn.reader (server n))) (server n)))
  | None => '(s, bs) ← server_turn x (server n); Some (mk_net (arrive bs (client n)) s)
  end.

Lemma client_turn_step x s s' bs :
  client_turn x s = Some (s', bs) → step s s' ∧ written s' = written s ++ bs.
Proof.
  intros H. destruct x; try done; cbn in H.
  - destruct (ok_of _) as [[x sh]|] eqn:E; [apply ok_of_Some in E|done].
    injection H as <- <-. split; [by constructor|]. cbn. by rewrite app_nil_r.
  - destruct (ok_of _) as [sh|] eqn:E; [apply ok_of_Some in E|done].
    injection H as <- <-. split; [by econstructor|]. cbn. by rewrite app_nil_r.
  - destruct (writer s) as [n|] eqn:Ew; [|done]. cbn in H.
    destruct (next_batch _ _) as [[batch rest]|] eqn:Eb; [|done]. injection H as <- <-.
    split; [by econstructor|done].
  - destruct (at_phase s) as [|h d l|] eqn:Ep; [..|done].
    + destruct (ok_of _) as [[x r]|] eqn:E; [apply ok_of_Some in E|done]. cbn in H.
      destruct x as [[seqnum st len start np ec|ret]|e]; [|..|done].
      * destruct (lookup_request seqnum (shared s)) as [[d l]|e] eqn:El; [|done].
        injection H as <- <-. split; [by econstructor|]. cbn. by rewrite app_nil_r.
      * injection H as <- <-. split; [by econstructor|]. cbn. by rewrite app_nil_r.
    + destruct (ok_of _) as [[[ret|e] r]|] eqn:E; [apply ok_of_Some in E|done..].
      injection H as <- <-. split; [by econstructor|]. cbn. by rewrite app_nil_r.
Qed.

Lemma server_turn_step x s s' bs :
  server_turn x s = Some (s', bs) → Conn.step dev s s' ∧ Conn.written s' = Conn.written s ++ bs.
Proof.
  intros H. destruct x as [| | | | |a|a|]; try done; cbn in H.
  - destruct (Conn.at_stage s) as [|h m d|] eqn:Es; [..|done].
    + destruct (read_exact 48 (Conn.reader s)) as [[h|e] r] eqn:Er; [|done].
      destruct (ok_of _) as [v|] eqn:E; [apply ok_of_Some in E|done]. injection H as <- <-.
      split; [by econstructor|]. rewrite app_nil_r. by apply header_written in E.
    + destruct (ok_of _) as [v|] eqn:E; [apply ok_of_Some in E|done]. injection H as <- <-.
      split; [by econstructor|]. rewrite app_nil_r. by apply body_written in E.
  - destruct (Conn.running s !! a) eqn:Er; [done|].
    destruct (Conn.queues s !! a) as [[|j rest]|] eqn:Eq; [done| |done]. injection H as <- <-.
    split; [by econstructor|]. cbn. by rewrite app_nil_r.
  - destruct (Conn.running s !! a) as [j|] eqn:Er; [|done]. injection H as <- <-.
    split; [by econstructor|]. rewrite app_nil_r, worker_finish_cases.
    by destruct (Conn.pending s !! _).
  - destruct (Conn.writer s) as [m|] eqn:Ew; [|done]. cbn in H.
    destruct (Conn.tx s !! m) as [[f|]|] eqn:Et; [|done..]. injection H as <- <-.
    split; [by econstructor|done].
Qed.

Lemma turn_step x n n' : turn x n = Some n' → net_step export n n'.
Proof.
  unfold turn. intros H. destruct (client_turn x (client n)) as [[c bs]|] eqn:E.
  - injection H as <-. apply client_turn_step in E as [??]. by econstructor.
  - destruct (server_turn x (server n)) as [[s bs]|] eqn:E'; [|done]. injection H as <-.
    apply server_turn_step in E' as [??]. by econstructor.
Qed.

Fixpoint run (l : list act) (n : net R) : option (net R) :=
  match l with [] => Some n | x :: l => n ← turn x n; run l n end.

Lemma run_steps l n n' : run l n = Some n' → rtc (net_step export) n n'.
Proof.
  revert n. induction l as [|x l IH]; intros n H; cbn in H; [injection H as <-; apply rtc_refl|].
  destruct (turn x n) as [n1|] eqn:E; [|done].
  eapply rtc_l; [by eapply turn_step|]. by apply IH.
Qed.

End Script.
End Script.

(** ** A run: a transfer that completes, one that is unlinked, one that is left *)

Import Reference.

#[export] Instance pipe_feed : Feed pipe.
Proof.
  refine {| fresh := []; feed bs r := r ++ bs |}; [done| |exact (app_nil_r (A := Z))].
  intros bs r H. change (pipe_bytes (r ++ bs) = pipe_bytes r ++ bs). unfold pipe_bytes.
  rewrite fmap_app. f_equal. induction H as [|b bs [H1 H2] _ IH]; [done|]. cbn. rewrite IH.
  f_equal. by apply Z.mod_small.
Defined.

Import Echo.

Module Peering.

Lemma device_conforms : conforming.
Proof.
  intros u o H ->. unfold answer.
  constructor; unfold actual_of; destruct (Urb.is_in u); cbn; try done;
    try lia; try (by apply (bool_decide_unpack _)).
  - rewrite length_take. lia.
  - apply Forall_take. by apply (bool_decide_unpack _).
Qed.

Definition choose (j : Job.t) : Outcome.t :=
  match Job.future j with Ready c => Outcome.Complete c | Submitted => answer (Job.urb j) end.

Lemma choose_ok j : Conn.comes_to j (choose j).
Proof. unfold Conn.comes_to, choose. by destruct (Job.future j). Qed.

Definition script : list Script.act :=
  [Script.Submit Run.req_in; Script.Submit Run.req_out; Script.Unlink 2; Script.Submit Run.req_in;
   Script.ClientWrite; Script.ServerRead; Script.ServerRead; Script.ServerRead; Script.ServerRead;
   Script.ServerTake 0x81; Script.ServerTake 0x02; Script.ServerRead; Script.ServerRead;
   Script.ServerFinish 0x81; Script.ServerRead;
   Script.ServerWrite; Script.ServerWrite; Script.ClientRead; Script.ClientRead; Script.ClientRead].

Definition start_net : net pipe := imported Samples.export.

Definition last_net : net pipe := default start_net (Script.run Samples.export choose script start_net).

Lemma last_reachable : net_reachable Samples.export last_net.
Proof.
  apply (Script.run_steps Samples.export choose choose_ok script). unfold last_net.
  destruct (Script.run _ _ _ _) as [n|] eqn:E; [done|]. exfalso. revert E. vm_compute. congruence.
Qed.

Lemma last_fair : fair Samples.export (client last_net).
Proof.
  split; [vm_compute; reflexivity|].
  assert (issued (client last_net)
    = [(0%nat, 1, Run.req_in); (1%nat, 2, Run.req_out); (2%nat, 4, Run.req_in)]) as ->
    by (vm_compute; reflexivity).
  repeat constructor; try (by apply (bool_decide_unpack _)); cbn; lia.
Qed.

Lemma devnum_ok : is_u 16 (ExportDev.devnum Samples.export).
Proof. cbn. split; lia. Qed.

End Peering.
