(* ===== verification/PeersSpec.v ===== *)
(** * PeersSpec: what a session and the server agree on (src/src/client.rs, src/tests/support/server.rs)

    For every run of a connected session and server, whatever the interleaving and whenever the
    connection breaks: answers are true, unlinked requests were given up by the server, the two tables
    agree in a quiet moment, and the results of an endpoint arrive in the order of its requests. *)

From stdpp Require Import base tactics option list gmap fin_maps fin_sets relations sorting.
From S2P Require Import Prelude Wire Protocol ProtocolFacts Server Serving ServingFacts ServingSpec Session SessionFacts System SessionSpec Peers PeersFacts PeersView PeersRun PeersScript.

(** A prefix of frames with all their bytes is all of them. *)
Lemma concat_take_all {A} (f : A → list Z) l k :
  (∀ x, x ∈ l → f x ≠ []) → concat (f <$> l) = concat (f <$> take k l) → take k l = l.
Proof.
  intros Hf E. rewrite <- (take_drop k l) in E at 1. rewrite fmap_app, concat_app in E.
  rewrite <- (app_nil_r (concat (f <$> take k l))) in E at 2. apply app_inv_head in E. rewrite <- (take_drop k l) at 2.
  destruct (drop k l) as [|x d] eqn:Ed; [by rewrite app_nil_r|]. exfalso.
  apply app_eq_nil in E as [E _]. apply (Hf x); [|done].
  rewrite <- (take_drop k l), Ed, elem_of_app. right. by left.
Qed.

Section Spec.
Context {B : BytesCrate} {BL : BytesLaws B}.
Context {R : Type} {AR : AsyncRead R} {AL : AsyncReadLaws R} {F : Feed R} {D : Device}.
Context (export : ExportDev.t).

Notation dev := (ExportDev.devid export).
Notation numbers iss := ((λ i : issue, i.1.2) <$> iss).

(** ** What the tied tables say of each other *)

Section Tied.
Context (Hdevnum : is_u 16 (ExportDev.devnum export)) (HD : conforming).
Context (n : net R) (log : list SessionFacts.command) (told : list message) (k j : nat).
Context (T : tied export n log told k j) (W : fair export (client n)).

Notation sh := (shared (client n)).
Notation iss := (issued (client n)).
Notation events := (Conn.events (server n)).

Lemma told_coherent : coherent export log iss told.
Proof. by eapply tied_coherent. Qed.

(** Two messages do not resolve the same request. *)
Lemma told_once m m' s : m ∈ told → m' ∈ told → resolves_in m = Some s → resolves_in m' = Some s →
  m = m'.
Proof. apply omap_NoDup_inj, told_coherent. Qed.

Lemma event_told u t b : Event.Unlink u t b ∈ events → Unlinking u t b ∈ told.
Proof.
  intros H. pose proof (sv_unlinks _ _ (h_served _ _ _ _ _ (t_handled _ _ _ _ _ _ T))) as E.
  assert ((u, t, b) ∈ omap unlink_of events) as Hu by (apply list_elem_of_omap; by eexists).
  rewrite <- E in Hu. apply list_elem_of_omap in Hu as (m & Hm & Em). destruct m; [done| |done].
  by injection Em as -> -> ->.
Qed.

Lemma told_event u t b : Unlinking u t b ∈ told → Event.Unlink u t b ∈ events.
Proof.
  intros H%answers_elem. rewrite (sv_unlinks _ _ (h_served _ _ _ _ _ (t_handled _ _ _ _ _ _ T))) in H.
  apply list_elem_of_omap in H as (e & He & Ee). destruct e; try done. by injection Ee as -> -> ->.
Qed.

Lemma resolved_told s : s ∈ omap resolves_in told ↔ s ∈ omap resolved_by events.
Proof. by rewrite (sv_resolved _ _ (h_served _ _ _ _ _ (t_handled _ _ _ _ _ _ T))). Qed.

(** The server logged as completed what it replied to. *)
Lemma reply_completed u o : Reply u o ∈ told → Event.Completed (Urb.seqnum u) ∈ events.
Proof.
  intros H. assert (Urb.seqnum u ∈ omap resolved_by events) as (e & He & Ee)%list_elem_of_omap.
  { apply resolved_told, list_elem_of_omap. by exists (Reply u o). }
  destruct e as [| | |x t b|x| |]; try done; [|by injection Ee as ->].
  destruct b; [|done]. injection Ee as ->. apply event_told in He.
  by pose proof (told_once _ _ (Urb.seqnum u) H He eq_refl eq_refl).
Qed.

(** And did not complete what it gave up. *)
Lemma unlinked_not_completed u t : Unlinking u t true ∈ told → Event.Completed t ∉ events.
Proof.
  intros H Hc. apply told_event in H as He.
  assert (NoDup (omap resolved_by events)) as Hnd.
  { rewrite <- (sv_resolved _ _ (h_served _ _ _ _ _ (t_handled _ _ _ _ _ _ T))). apply told_coherent. }
  by pose proof (omap_NoDup_inj resolved_by events _ _ t Hnd He Hc eq_refl eq_refl).
Qed.

(** What the server takes as submitted. *)
Lemma submissions_issued :
  submissions events = urb_of <$> submits (take k log) ∧ urb_of <$> submits log = requested dev <$> iss.
Proof.
  split; [apply T|]. rewrite (lo_submits _ _ (t_log _ _ _ _ _ _ T)), (t_devid _ _ _ _ _ _ T).
  rewrite <- list_fmap_compose. apply list_fmap_ext. intros. apply urb_of_cmd.
Qed.

Lemma submissions_prefix : submissions events `prefix_of` requested dev <$> iss.
Proof.
  destruct submissions_issued as [-> <-]. exists (urb_of <$> submits (drop k log)).
  rewrite <- fmap_app. f_equal. unfold submits. by rewrite <- omap_app, take_drop.
Qed.

Lemma submissions_sublist : submissions events `sublist_of` requested dev <$> iss.
Proof. destruct submissions_prefix as [l ->]. by apply sublist_inserts_r. Qed.

(** Everything the session wrote was handled. *)
Lemma all_handled :
  writer (client n) = Some (length (Shared.frames sh)) → Conn.at_stage (server n) = AwaitHeader →
  incoming (Conn.reader (server n)) = [] → take k log = log.
Proof.
  intros Hw Hst Hin. pose proof T as []. pose proof (h_up _ _ _ _ _ t_handled) as U.
  rewrite Hst, Hin in U. cbn in U. rewrite app_nil_r in U.
  unfold writes in t_writes. rewrite Hw, drop_ge, app_nil_r in t_writes by done.
  destruct t_writes as [Ew _]. rewrite Ew, (lo_frames _ _ t_log) in U.
  apply (concat_take_all encode_command); [|exact U]. 
  intros [c|c] Hc; cbn [encode_command]; intros E%(f_equal length).
  - destruct (submit_in_log export Hdevnum (client n) log t_log t_devid W c Hc) as [Wf _].
    rewrite submit_split, length_app, length_submit_header in E by done. simpl in E. lia.
  - by rewrite length_cmd_unlink in E.
Qed.

(** And everything the server sent. *)
Lemma all_told :
  Conn.writer (server n) = Some (length (Conn.tx (server n))) → at_phase (client n) = Idle →
  incoming (reader (client n)) = [] → take j told = told.
Proof.
  intros Hw Hp Hin. pose proof T as []. rewrite Hp, Hin in t_down. cbn in t_down.
  rewrite app_nil_r in t_down. destruct (h_sending _ _ _ _ _ t_handled) as (i & Hi & Hf & Hs).
  rewrite Hw, (sv_tx _ _ (h_served _ _ _ _ _ t_handled)), length_fmap in Hs. destruct Hs as [<- Es].
  rewrite take_ge in Es, Hf by done. rewrite Es in t_down.
  apply (concat_take_all bytes_of); [|done]. intros m Hm. rewrite Forall_forall in Hf.
  specialize (Hf m Hm). intros E%(f_equal length).
  destruct m as [u o|u t b|]; [| |by destruct Hf].
  - destruct (c_replies _ _ _ _ told_coherent u _ Hm) as (x & Hx & -> & Hfit & Hend).
    destruct o as [comp|bs|]; [| |by destruct Hf].
    + destruct (completion_sent export HD x comp Hfit (issued_u32 _ _ _ _ _ _ T _ Hx) Hend) as [Wf _].
      unfold bytes_of in E. cbn in E.
      rewrite ret_submit_split, length_app, length_ret_header in E by done. simpl in E. lia.
    + by apply (raw_never export HD) in Hend.
  - change (length (unlink_reply u b) = 0%nat) in E. by rewrite unlink_reply_length in E.
Qed.

(** ** What each table says in the end *)

Lemma reply_true c ret : (c, Ok ret) ∈ Shared.replies sh → ∃ i comp,
  i ∈ iss ∧ i.1.1 = c ∧ ret = reply_of (requested dev i) comp ∧
  may_end (requested dev i) (Outcome.Complete comp) ∧ Event.Completed i.1.2 ∈ events.
Proof.
  intros (i & comp & Hi & Hc & Hm & ->)%(v_completed _ _ _ _ _ (t_view _ _ _ _ _ _ T)).
  assert (Reply (requested dev i) (Outcome.Complete comp) ∈ told) as Ht
    by (by eapply elem_of_sublist, sublist_take).
  exists i, comp. split; [done|]. split; [done|]. split; [done|]. split.
  - by destruct (c_replies _ _ _ _ told_coherent _ _ Ht) as (_ & _ & _ & _ & ?).
  - rewrite <- (requested_number export). by eapply reply_completed.
Qed.

Lemma unlinked_true c st : (c, Err (Unlinked st)) ∈ Shared.replies sh → st = -104 ∧ ∃ i u,
  i ∈ iss ∧ i.1.1 = c ∧ Event.Unlink u i.1.2 true ∈ events ∧ Event.Completed i.1.2 ∉ events.
Proof.
  intros (-> & i & u & Hi & Hc & Hm)%(v_cancelled _ _ _ _ _ (t_view _ _ _ _ _ _ T)). split; [done|].
  assert (Unlinking u i.1.2 true ∈ told) as Ht by (by eapply elem_of_sublist, sublist_take).
  exists i, u. split; [done|]. split; [done|]. split; [by apply told_event|].
  by eapply unlinked_not_completed.
Qed.

(** The results of an endpoint, in the order of its requests. *)
Lemma replies_ordered : ∃ dones, omap completion_chan (Shared.replies sh) = chans_of dones ∧
  (∀ i, i ∈ dones → i ∈ iss) ∧
  ∀ a, on_endpoint a (requested dev <$> dones) `sublist_of` on_endpoint a (requested dev <$> iss).
Proof.
  destruct (v_order _ _ _ _ _ (t_view _ _ _ _ _ _ T)) as (dones & E1 & E2 & E3).
  exists dones. split; [done|]. split; [done|]. intros a.
  etrans; [by apply filter_sublist, E3|].
  etrans; [|apply filter_sublist, submissions_sublist].
  etrans; [|apply (sv_order _ _ (h_served _ _ _ _ _ (t_handled _ _ _ _ _ _ T)) a)].
  apply sublist_inserts_r, filter_sublist. rewrite <- (take_drop j told) at 2.
  rewrite omap_app. by apply sublist_inserts_r.
Qed.

(** In a quiet moment. *)
Record quiet : Prop := {
  q_open : State.closed (Shared.state sh) = None;
  q_serving : Conn.at_stage (server n) = AwaitHeader;
  q_waiting : at_phase (client n) = Idle;
  q_written : writer (client n) = Some (length (Shared.frames sh));
  q_sent : Conn.writer (server n) = Some (length (Conn.tx (server n)));
  q_up : incoming (Conn.reader (server n)) = [];
  q_down : incoming (reader (client n)) = [];
}.

Lemma quiet_keys : quiet → ∀ s,
  is_Some (State.submits (Shared.state sh) !! s) ↔ is_Some (Conn.pending (server n) !! s).
Proof.
  intros [] s. rewrite <- (pending_keys s (server n)).
  pose proof (h_accounted _ _ _ _ _ (t_handled _ _ _ _ _ _ T)) as A.
  pose proof (v_pending _ _ _ _ _ (t_view _ _ _ _ _ _ T) q_open0 s) as ->.
  rewrite all_told by done. destruct submissions_issued as [E1 E2].
  rewrite all_handled, E2 in E1 by done.
  assert (Urb.seqnum <$> submissions events = numbers iss) as En.
  { rewrite E1, <- list_fmap_compose. apply list_fmap_ext. intros. apply requested_number. }
  assert (NoDup (numbers iss)) as Hnd by apply told_coherent.
  unfold accounted in A. rewrite En in A. specialize (A ltac:(by rewrite q_serving0) Hnd).
  rewrite resolved_told. rewrite A in Hnd |- *. apply NoDup_app in Hnd as (_ & Hnd & _).
  rewrite elem_of_app. split; [naive_solver|]. intros Hs. split; [by right|]. intros Hr.
  by apply (Hnd s).
Qed.

Lemma quiet_unlinks : quiet → State.unlinks (Shared.state sh) = ∅.
Proof.
  intros []. apply map_empty. intros u. apply eq_None_not_Some. intros [t Ht].
  destruct (v_unlinks _ _ _ _ _ (t_view _ _ _ _ _ _ T) u t Ht) as [Hl Ha].
  rewrite all_told in Ha by done. apply Ha. unfold answered.
  rewrite (sv_unlinks _ _ (h_served _ _ _ _ _ (t_handled _ _ _ _ _ _ T))).
  pose proof (h_unlinks _ _ _ _ _ (t_handled _ _ _ _ _ _ T)) as E.
  rewrite all_handled in E by done. rewrite <- E in Hl.
  apply list_elem_of_fmap in Hl as ([[x y] b] & Exy & Hx). injection Exy as -> ->.
  apply list_elem_of_fmap. by exists (x, y, b).
Qed.

(** The server works on every request that is pending in the session. *)
Lemma quiet_jobs s : quiet → is_Some (State.submits (Shared.state sh) !! s) → ∃ i a job,
  i ∈ iss ∧ i.1.2 = s ∧ job ∈ held a (server n) ∧ Job.urb job = requested dev i.
Proof.
  intros Hq [m Hm]%(quiet_keys Hq). pose proof (h_served _ _ _ _ _ (t_handled _ _ _ _ _ _ T)) as V.
  destruct (sv_pending _ _ V s m Hm) as (a & job & Hj & _ & Es).
  destruct (sv_held _ _ V a job Hj) as (_ & Hin & _).
  pose proof (elem_of_prefix _ _ _ Hin submissions_prefix) as Hi.
  apply list_elem_of_fmap in Hi as (i & Ei & Hi). exists i, a, job. split; [done|]. split; [|done].
  by rewrite <- (requested_number export), <- Ei.
Qed.

End Tied.

(** ** The theorems *)

(** C7: In every fair run of a session connected to the server, whatever the interleaving and whenever
    the connection breaks: the server notes no violation; the session never fails on a malformed reply;
    what a request is completed with is, decoded, what the device made of that very request, and the
    server logged its completion; a request reported as unlinked was pending at the server and given up,
    and the device's result for it never sent; the server's submissions are the first of the session's. *)
Theorem peers_agree n :
  is_u 16 (ExportDev.devnum export) → conforming → net_reachable export n → fair export (client n) →
  Conn.violations (server n) = [] ∧
  (∀ r, Shared.closed_tx (shared (client n)) = Some r → benign r) ∧
  (∀ c ret, (c, Ok ret) ∈ Shared.replies (shared (client n)) → ∃ i comp,
    i ∈ issued (client n) ∧ i.1.1 = c ∧ ret = reply_of (requested dev i) comp ∧
    may_end (requested dev i) (Outcome.Complete comp) ∧
    Event.Completed i.1.2 ∈ Conn.events (server n)) ∧
  (∀ c st, (c, Err (Unlinked st)) ∈ Shared.replies (shared (client n)) → st = -104 ∧ ∃ i u,
    i ∈ issued (client n) ∧ i.1.1 = c ∧ Event.Unlink u i.1.2 true ∈ Conn.events (server n) ∧
    Event.Completed i.1.2 ∉ Conn.events (server n)) ∧
  submissions (Conn.events (server n)) `prefix_of` requested dev <$> issued (client n).
Proof.
  intros Hd HD H W. destruct (reachable_tied export Hd HD n H W) as (log & told & k & j & T).
  split; [apply T|]. split; [apply T|].
  split; [by eapply reply_true|]. split; [by eapply unlinked_true|]. by eapply submissions_prefix.
Qed.

(** C9: When everything written was read and handled, the two tables agree: the session's pending
    requests are the server's, no unlink is unanswered, and the server has a job for each pending request,
    with the URB that was asked for. *)
Theorem peers_quiet n :
  is_u 16 (ExportDev.devnum export) → conforming → net_reachable export n → fair export (client n) →
  quiet n →
  (∀ s, is_Some (State.submits (Shared.state (shared (client n))) !! s) ↔
        is_Some (Conn.pending (server n) !! s)) ∧
  State.unlinks (Shared.state (shared (client n))) = ∅ ∧
  (∀ s, is_Some (State.submits (Shared.state (shared (client n))) !! s) → ∃ i a job,
    i ∈ issued (client n) ∧ i.1.2 = s ∧ job ∈ held a (server n) ∧ Job.urb job = requested dev i).
Proof.
  intros Hd HD H W Q. destruct (reachable_tied export Hd HD n H W) as (log & told & k & j & T).
  split; [by eapply quiet_keys|]. split; [by eapply quiet_unlinks|]. intros s. by eapply quiet_jobs.
Qed.

(** C10: The requests of an endpoint are completed in the order they were submitted, even though the
    requests, the unlinks and the endpoints interleave. *)
Theorem peers_in_order n :
  is_u 16 (ExportDev.devnum export) → conforming → net_reachable export n → fair export (client n) →
  ∃ dones, omap completion_chan (Shared.replies (shared (client n))) = chans_of dones ∧
    (∀ i, i ∈ dones → i ∈ issued (client n)) ∧
    ∀ a, on_endpoint a (requested dev <$> dones)
         `sublist_of` on_endpoint a (requested dev <$> issued (client n)).
Proof.
  intros Hd HD H W. destruct (reachable_tied export Hd HD n H W) as (log & told & k & j & T).
  by eapply replies_ordered.
Qed.

End Spec.

(** ** The run of [PeersScript] *)

Import Reference Echo Peering.

Lemma last_quiet : quiet last_net.
Proof. constructor; vm_compute; reflexivity. Qed.

Lemma peers_agree_witness :
  (∃ i comp, i ∈ issued (client last_net) ∧ i.1.1 = 0%nat ∧
    Run.ret = reply_of (requested (ExportDev.devid Samples.export) i) comp) ∧
  ∃ i u, i ∈ issued (client last_net) ∧ i.1.1 = 1%nat ∧
    Event.Unlink u i.1.2 true ∈ Conn.events (server last_net).
Proof.
  destruct (peers_agree Samples.export last_net devnum_ok device_conforms last_reachable last_fair)
    as (_ & _ & H1 & H2 & _). split.
  - destruct (H1 0%nat Run.ret) as (i & comp & ? & ? & ? & _); [vm_compute; right; left|].
    by exists i, comp.
  - destruct (H2 1%nat (-104)) as (_ & i & u & ? & ? & ? & _); [vm_compute; left|].
    by exists i, u.
Defined.

Lemma peers_quiet_witness :
  is_Some (Conn.pending (server last_net) !! 4) ∧ ∃ i a job,
    i ∈ issued (client last_net) ∧ i.1.2 = 4 ∧ job ∈ held a (server last_net) ∧
    Job.urb job = requested (ExportDev.devid Samples.export) i.
Proof.
  destruct (peers_quiet Samples.export last_net devnum_ok device_conforms last_reachable last_fair
    last_quiet) as (H1 & _ & H2).
  assert (is_Some (State.submits (Shared.state (shared (client last_net))) !! 4)) as H
    by (vm_compute; eauto).
  split; [by apply H1|by apply H2].
Defined.

Lemma peers_in_order_witness :
  ∃ dones, omap completion_chan (Shared.replies (shared (client last_net))) = chans_of dones ∧
    chans_of dones = [0%nat].
Proof.
  destruct (peers_in_order Samples.export last_net devnum_ok device_conforms last_reachable last_fair)
    as (dones & E & _). exists dones. split; [exact E|]. rewrite <- E. vm_compute. reflexivity.
Defined.
