(* ===== verification/PeersLive.v ===== *)
(** * PeersLive: a connected session and server can finish what is outstanding

    As long as neither side is broken, the tasks that remain to be run (the session's writer, the
    server's loop, its workers and its writer, the session's reader) come to a moment where every
    request has its answer.  Each phase is a loop with a measure. *)

From stdpp Require Import base tactics option list gmap fin_maps fin_sets relations sorting.
From S2P Require Import Prelude Wire Protocol ProtocolFacts Server Serving ServingFacts ServingSpec Session SessionFacts System SessionSpec Peers PeersFacts PeersView PeersRun PeersScript PeersSpec.

Section Live.
Context {B : BytesCrate} {BL : BytesLaws B}.
Context {R : Type} {AR : AsyncRead R} {AL : AsyncReadLaws R} {F : Feed R} {D : Device}.
Context (export : ExportDev.t).

Notation dev := (ExportDev.devid export).
Notation frames n := (Shared.frames (shared (client n))).

(** Neither side has seen an error, and no device has dropped the connection. *)
Record lively (n : net R) : Prop := {
  l_run : net_reachable export n;
  l_fair : fair export (client n);
  l_open : State.closed (Shared.state (shared (client n))) = None;
  l_phase : at_phase (client n) ≠ Stopped;
  l_writer : is_Some (writer (client n));
  l_stage : Conn.at_stage (server n) ≠ Ended;
  l_sender : is_Some (Conn.writer (server n));
  l_tx : Forall is_Some (Conn.tx (server n));
}.

(** Further along the same run, with nothing new asked. *)
Record onward (n n' : net R) : Prop := {
  on_run : rtc (net_step export) n n';
  on_issued : issued (client n') = issued (client n);
  on_frames : frames n' = frames n;
}.

#[local] Instance onward_preorder : PreOrder onward.
Proof.
  split; [by constructor|]. intros n1 n2 n3 [] []. constructor; [by etrans|congruence..].
Qed.

Lemma lively_onward n n' : lively n → onward n n' →
  State.closed (Shared.state (shared (client n'))) = None → at_phase (client n') ≠ Stopped →
  is_Some (writer (client n')) → Conn.at_stage (server n') ≠ Ended →
  is_Some (Conn.writer (server n')) → Forall is_Some (Conn.tx (server n')) → lively n'.
Proof.
  intros [] []. constructor; try done; [unfold net_reachable in *; by etrans|].
  destruct l_fair0 as [W Hf]. split; [|by rewrite on_issued0]. unfold no_wrap in *. by rewrite on_frames0.
Qed.

(** A loop of steps that keep [P], until [Q]. *)
Lemma loop (P Q : net R → Prop) (μ : net R → nat) :
  (∀ n, lively n → P n → Q n ∨ ∃ n', lively n' ∧ onward n n' ∧ P n' ∧ (μ n' < μ n)%nat) →
  ∀ n, lively n → P n → ∃ n', lively n' ∧ onward n n' ∧ P n' ∧ Q n'.
Proof.
  intros Hstep n. remember (μ n) as m eqn:E. revert n E.
  induction (lt_wf m) as [m _ IH]. intros n -> L HP.
  destruct (Hstep n L HP) as [HQ|(n1 & L1 & O1 & P1 & Hlt)]; [by exists n|].
  destruct (IH _ Hlt n1 eq_refl L1 P1) as (n2 & L2 & O2 & ? & ?). exists n2.
  split; [done|]. split; [by etrans|done].
Qed.

(** A step of the session, and of the server. *)
Lemma onward_client n c bs : step (client n) c → written c = written (client n) ++ bs →
  issued c = issued (client n) → Shared.frames (shared c) = frames n →
  onward n (mk_net c (Conn.set_reader (feed bs (Conn.reader (server n))) (server n))).
Proof. intros. constructor; [|done..]. apply rtc_once. by constructor. Qed.

Lemma onward_server n v bs : Conn.step dev (server n) v →
  Conn.written v = Conn.written (server n) ++ bs → onward n (mk_net (arrive bs (client n)) v).
Proof. intros. constructor; [|done..]. apply rtc_once. by constructor. Qed.

Lemma incoming_feed_nil (r : R) : incoming (feed [] r) = incoming r.
Proof. by rewrite feed_nil. Qed.

Context (Hdevnum : is_u 16 (ExportDev.devnum export)) (HD : conforming).

Lemma lively_tied n : lively n → ∃ log told k j, tied export n log told k j.
Proof. intros []. by apply reachable_tied. Qed.

(** ** The session's writer *)

Definition all_written (n : net R) : Prop := writer (client n) = Some (length (frames n)).

Lemma write_all_frames n : lively n → ∃ n', lively n' ∧ onward n n' ∧ True ∧ all_written n'.
Proof.
  intros L. apply (loop (λ _, True) all_written
    (λ n, length (frames n) - default 0 (writer (client n)))%nat); [|done..].
  clear n L. intros n L _. destruct (l_writer _ L) as [m Hm].
  destruct (lively_tied n L) as (log & told & k & j & []).
  unfold writes in t_writes. rewrite Hm in t_writes. destruct t_writes as [_ Hle].
  destruct (decide (m = length (frames n))) as [->|Hne]; [by left|]. right.
  destruct (lookup_lt_is_Some_2 (frames n) m) as [f Hf]; [lia|].
  assert (next_batch 0 (drop m (frames n)) = Some (f, drop (S m) (frames n))) as Hb
    by by rewrite (drop_S _ _ _ Hf).
  pose proof (step_write (client n) m 0 f (drop (S m) (frames n)) Hm Hb) as Hs.
  rewrite length_drop in Hs. replace (length _ - (length _ - S m))%nat with (S m) in Hs by lia.
  pose proof (onward_client n _ f Hs eq_refl eq_refl eq_refl) as O. eexists.
  split; [|split; [exact O|]].
  - apply (lively_onward n _ L O); cbn; try apply L. by eexists.
  - split; [done|]. cbn. rewrite Hm. cbn. lia.
Qed.

(** ** The server's loop *)

Definition at_rest (n : net R) : Prop :=
  Conn.at_stage (server n) = AwaitHeader ∧ incoming (Conn.reader (server n)) = [].

Definition in_body (g : stage) : nat := match g with AwaitBody _ _ _ => 1 | _ => 0 end.

Definition backlog (n : net R) : nat :=
  2 * length (incoming (Conn.reader (server n))) + in_body (Conn.at_stage (server n)).

Lemma all_written_bytes n log told k j : tied export n log told k j → all_written n →
  written (client n) = concat (encode_command <$> log).
Proof.
  intros [] Hw. unfold writes in t_writes. rewrite Hw, drop_ge, app_nil_r in t_writes by done.
  by rewrite (proj1 t_writes), (lo_frames _ _ t_log).
Qed.

Lemma incoming_drop {A} (f : A → list Z) l k inc :
  concat (f <$> l) = concat (f <$> take k l) ++ inc → inc = concat (f <$> drop k l).
Proof.
  rewrite <- (take_drop k l) at 1. rewrite fmap_app, concat_app. by intros ->%app_inv_head.
Qed.

Lemma incoming_next {A} (f : A → list Z) l k inc :
  concat (f <$> l) = concat (f <$> take k l) ++ inc → inc ≠ [] →
  ∃ x, l !! k = Some x ∧ inc = f x ++ concat (f <$> drop (S k) l).
Proof.
  intros ->%incoming_drop Hi. destruct (drop k l) as [|x l'] eqn:E; [done|]. exists x.
  assert (l !! k = Some x) as Hx by by rewrite <- (Nat.add_0_r k), <- lookup_drop, E.
  split; [done|]. rewrite (drop_S _ _ _ Hx) in E. by injection E as <-.
Qed.

(** What the loop does next. *)
Lemma loop_step n : lively n → all_written n → at_rest n ∨ ∃ v,
  Conn.step dev (server n) v ∧ Conn.written v = Conn.written (server n) ∧
  Conn.writer v = Conn.writer (server n) ∧ Conn.at_stage v ≠ Ended ∧
  Forall is_Some (Conn.tx v) ∧
  (2 * length (incoming (Conn.reader v)) + in_body (Conn.at_stage v) < backlog n)%nat.
Proof.
  intros L Hw. destruct (lively_tied n L) as (log & told & k & j & T). pose proof T as [].
  pose proof (all_written_bytes _ _ _ _ _ T Hw) as Ew. pose proof (h_up _ _ _ _ _ t_handled) as U.
  rewrite Ew in U. unfold at_rest, backlog. pose proof (l_tx _ L) as Htx.
  destruct (Conn.at_stage (server n)) as [|h m d|] eqn:Est; [..|by destruct (l_stage _ L)].
  - destruct (decide (incoming (Conn.reader (server n)) = [])) as [|Hne]; [by left|right].
    destruct (incoming_next _ _ _ _ U Hne) as (c & Hc & Ei).
    apply list_elem_of_lookup_2 in Hc as Hin. destruct c as [c|c]; cbn [encode_command] in Ei.
    + destruct (submit_in_log export Hdevnum (client n) log t_log t_devid (l_fair _ L) c Hin) as [Wf _].
      rewrite submit_split, <- app_assoc in Ei by done.
      destruct (read_exact_app _ _ _ Ei) as (r' & Er & Hr'). rewrite length_submit_header in Er by done.
      rewrite <- Hr' in Ei.
      destruct (handled_submit_header export Hdevnum (client n) log t_log t_devid (l_fair _ L)
        _ _ _ _ _ r' t_handled Hc Est Ei) as [E _].
      eexists. split; [by econstructor|]. repeat (split; [done|]). cbn.
      rewrite Ei, length_app, length_submit_header by done. lia.
    + destruct (read_exact_app _ _ _ Ei) as (r' & Er & Hr'). rewrite length_cmd_unlink in Er.
      rewrite <- Hr' in Ei.
      destruct (handled_unlink export Hdevnum (client n) log t_ok t_log t_devid (l_fair _ L)
        _ _ _ _ _ r' t_handled Hc Est Ei) as (ext & E & _).
      eexists. split; [by econstructor|]. repeat (split; [done|]). cbn. rewrite Est.
      split; [done|]. split; [apply Forall_app; by rewrite Forall_singleton|].
      rewrite Ei, length_app, length_cmd_unlink. cbn. lia.
  - right. destruct U as (c & Hc & -> & -> & -> & U).
    apply list_elem_of_lookup_2 in Hc as Hin.
    destruct (submit_in_log export Hdevnum (client n) log t_log t_devid (l_fair _ L) c Hin) as [Wf _].
    apply incoming_drop in U. rewrite (drop_S _ _ _ Hc), fmap_cons in U. cbn [concat encode_command] in U.
    rewrite submit_split, <- app_assoc in U by done. apply app_inv_head in U.
    destruct (on_body_whole export Hdevnum (client n) log t_log t_devid (l_fair _ L) _ c _ Hin U)
      as (r' & Hr' & E).
    eexists. split; [by econstructor|]. rewrite enqueue_eq. repeat (split; [done|]). cbn.
    rewrite U, length_app, Hr'. lia.
Qed.

Lemma read_all_commands n : lively n → all_written n → ∃ n', lively n' ∧ onward n n' ∧
  all_written n' ∧ at_rest n'.
Proof.
  apply (loop all_written at_rest backlog). clear n. intros n L Hw.
  destruct (loop_step n L Hw) as [|(v & Hs & Ew & Ewr & Est & Htx & Hlt)]; [by left|right].
  rewrite <- (app_nil_r (Conn.written (server n))) in Ew.
  pose proof (onward_server n v [] Hs Ew) as O. eexists. split; [|split; [exact O|by split]].
  apply (lively_onward n _ L O); cbn; try apply L; try done. rewrite Ewr. apply L.
Qed.

(** ** The endpoint workers *)

(** The same session, whose stream may have been handed empty pieces. *)
Record same_session (c c' : sys (R := R)) : Prop := {
  ss_shared : shared c' = shared c;
  ss_issued : issued c' = issued c;
  ss_phase : at_phase c' = at_phase c;
  ss_writer : writer c' = writer c;
  ss_incoming : incoming (reader c') = incoming (reader c);
}.

Lemma lift_silent c v v' : rtc (silent dev) v v' → ∃ c',
  same_session c c' ∧ onward (mk_net c v) (mk_net c' v').
Proof.
  intros H. revert c. induction H as [v|v1 v2 v3 [Hs Hw] _ IH]; intros c; [by exists c|].
  rewrite <- (app_nil_r (Conn.written v1)) in Hw.
  pose proof (onward_server (mk_net c v1) v2 [] Hs Hw) as O.
  destruct (IH (arrive [] c)) as (c' & [] & O'). exists c'. split; [|by etrans].
  constructor; try done. rewrite ss_incoming0. apply incoming_feed_nil.
Qed.

Context (Hdev : ∀ u, ∃ c, resolves u (Outcome.Complete c)).

Definition settled (n : net R) : Prop :=
  all_written n ∧ at_rest n ∧ Conn.pending (server n) = ∅.

Lemma drain_workers n : lively n → all_written n → at_rest n →
  ∃ n', lively n' ∧ onward n n' ∧ settled n'.
Proof.
  intros L Hw [Hr1 Hr2]. destruct (lively_tied n L) as (log & told & k & j & []).
  pose proof (h_served _ _ _ _ _ t_handled) as V. pose proof (h_accounted _ _ _ _ _ t_handled) as A.
  destruct (drain dev is_Some (λ f, ex_intro _ f eq_refl)
    ltac:(intros u; destruct (Hdev u) as [c Hc]; eexists; split; [exact Hc|by eexists])
    (server n)) as (v & [] & H).
  destruct (rtc_served dev _ _ _ V A (silent_steps _ _ _ wo_steps)) as (told' & V' & _).
  destruct (lift_silent (client n) _ _ wo_steps) as (c & [] & O).
  assert (onward n (mk_net c v)) as O' by by destruct n.
  exists (mk_net c v). split; [|split; [exact O'|]].
  - apply (lively_onward n _ L O'); cbn; rewrite ?ss_shared0, ?ss_phase0, ?ss_writer0, ?wo_stage, ?wo_writer;
      try apply L. apply wo_tx, L.
  - split; [|split; [split|]].
    + unfold all_written. cbn. by rewrite ss_writer0, ss_shared0.
    + cbn. by rewrite wo_stage.
    + cbn. by rewrite wo_reader.
    + by apply (drained_pending _ _ V').
Qed.

(** ** The server's writer *)

Definition all_sent (n : net R) : Prop :=
  Conn.writer (server n) = Some (length (Conn.tx (server n))).

Lemma send_all n : lively n → settled n →
  ∃ n', lively n' ∧ onward n n' ∧ settled n' ∧ all_sent n'.
Proof.
  apply (loop settled all_sent
    (λ n, length (Conn.tx (server n)) - default 0 (Conn.writer (server n)))%nat).
  clear n. intros n L Hset. destruct (l_sender _ L) as [m Hm].
  destruct (lively_tied n L) as (log & told & k & j & []).
  destruct (h_sending _ _ _ _ _ t_handled) as (i & Hi & _ & Hx). rewrite Hm in Hx.
  destruct Hx as [-> _].
  pose proof (f_equal length (sv_tx _ _ (h_served _ _ _ _ _ t_handled))) as Hl. rewrite length_fmap in Hl.
  destruct (decide (i = length (Conn.tx (server n)))) as [->|Hne]; [by left|right].
  destruct (lookup_lt_is_Some_2 (Conn.tx (server n)) i) as [f Hf]; [lia|].
  pose proof (l_tx _ L) as Htx. rewrite Forall_lookup in Htx. destruct (Htx _ _ Hf) as [frame ->].
  pose proof (onward_server n _ frame (Conn.step_write dev _ _ _ Hm Hf) eq_refl) as O.
  eexists. split; [|split; [exact O|]].
  - apply (lively_onward n _ L O); cbn; try apply L. by eexists.
  - split; [done|]. cbn. rewrite Hm. cbn. lia.
Qed.

(** ** The session's reader *)

Definition delivered (n : net R) : Prop := at_phase (client n) = Idle ∧ incoming (reader (client n)) = [].

Definition in_payload (p : phase) : nat := match p with AwaitPayload _ _ _ => 1 | _ => 0 end.

Definition unread (c : sys (R := R)) : nat :=
  2 * length (incoming (reader c)) + in_payload (at_phase c).

(** A message has at least a header. *)
Lemma bytes_of_long log iss told m :
  coherent export log iss told → (∀ i, i ∈ iss → is_u 32 i.1.2) → m ∈ told → is_Some (frame_of m) →
  (48 ≤ length (bytes_of m))%nat.
Proof.
  intros C Hu Hm Hf. destruct m as [u o|u t b|]; [| |by destruct Hf].
  - destruct (c_replies _ _ _ _ C u o Hm) as (i & Hi & -> & Hfit & Hend).
    destruct o as [comp|bs|]; [| |by destruct Hf].
    + destruct (completion_sent export HD i comp Hfit (Hu _ Hi) Hend) as [Wf _].
      change (bytes_of _) with (ret_submit (requested dev i) comp).
      rewrite ret_submit_split, length_app, length_ret_header by done. lia.
    + by apply (raw_never export HD) in Hend.
  - change (bytes_of _) with (unlink_reply u b). by rewrite unlink_reply_length.
Qed.

Lemma all_sent_bytes n log told k j : tied export n log told k j → all_sent n →
  Conn.written (server n) = concat (bytes_of <$> told).
Proof.
  intros [] Hs. destruct (h_sending _ _ _ _ _ t_handled) as (i & _ & _ & Hx).
  unfold all_sent in Hs. rewrite Hs, (sv_tx _ _ (h_served _ _ _ _ _ t_handled)), length_fmap in Hx.
  destruct Hx as [<- ->]. by rewrite take_ge.
Qed.

Lemma on_unlink_open ret sh iss : ok sh iss →
  State.closed (Shared.state (Session.on_unlink ret sh)) = State.closed (Shared.state sh).
Proof.
  intros I. pose proof (on_unlink_cases ret _ _ I) as H. destruct (State.unlinks _ !! _).
  - by destruct H as (? & _ & ->).
  - by rewrite H.
Qed.

Lemma deliver_open seqnum ret sh :
  State.closed (Shared.state (deliver seqnum ret sh)) = State.closed (Shared.state sh).
Proof. rewrite deliver_cases. by destruct (State.submits _ !! _). Qed.

(** What the reader does next. *)
Definition read_on (n : net R) (c : sys (R := R)) : Prop :=
  step (client n) c ∧ written c = written (client n) ∧ writer c = writer (client n) ∧
  issued c = issued (client n) ∧ Shared.frames (shared c) = frames n ∧
  State.closed (Shared.state (shared c)) = None ∧ at_phase c ≠ Stopped ∧
  (unread c < unread (client n))%nat.

Lemma header_step n log told k j : lively n → tied export n log told k j → all_sent n →
  at_phase (client n) = Idle → incoming (reader (client n)) ≠ [] → ∃ c, read_on n c.
Proof.
  intros L T Hs Hp Hne. pose proof T as []. pose proof (all_sent_bytes _ _ _ _ _ T Hs) as Ew.
  pose proof t_down as U. rewrite Hp in U. cbn in U. pose proof U as U'. rewrite Ew in U'.
  destruct (incoming_next _ _ _ _ U' Hne) as (m & Hm & Ei). clear U'.
  assert (is_Some (frame_of m)) as Hf.
  { pose proof (l_tx _ L) as Htx. rewrite (sv_tx _ _ (h_served _ _ _ _ _ t_handled)) in Htx.
    rewrite Forall_lookup in Htx. apply (Htx j). by rewrite list_lookup_fmap, Hm. }
  apply list_elem_of_lookup_2 in Hm as Hin.
  pose proof (tied_coherent _ Hdevnum _ _ _ _ _ T (l_fair _ L)) as C.
  pose proof (bytes_of_long _ _ _ _ C (issued_u32 _ _ _ _ _ _ T) Hin Hf) as H48.
  assert (length (incoming (reader (client n))) = length (bytes_of m)
    + length (concat (bytes_of <$> drop (S j) told)))%nat as El by by rewrite Ei, length_app.
  destruct (tied_reads _ Hdevnum HD _ _ _ _ _ T (l_fair _ L) Hp) as (x & r' & E & Hx).
  destruct x as [[seqnum st len start np ec|ret]|e]; [..|lia].
  - destruct Hx as (i & comp & Hj & Hi & Wf & Eh & Hw).
    assert (seqnum = i.1.2) as -> by (rewrite <- (requested_number export); by injection Eh).
    pose proof (view_lookup export (issued (client n)) log told C _ j i comp t_ok t_view Hj Hi) as Hl.
    destruct (lookup_request i.1.2 (shared (client n))) as [[d l]|e] eqn:El'; [|by destruct Hl; apply L].
    eexists. split; [by eapply step_header|]. repeat (split; [done|]). split; [apply L|]. split; [done|].
    unfold unread. rewrite Hp. cbn. rewrite U in Hw. apply app_inv_head in Hw.
    rewrite Hw, length_app, length_ret_header. lia.
  - destruct Hx as (u & t & b & Hj & -> & Hd). cbn in Hd.
    rewrite U, (concat_take_S _ _ _ _ Hm), <- app_assoc in Hd. apply app_inv_head in Hd.
    eexists. split; [by eapply step_ret_unlink|]. repeat (split; [done|]).
    split; [apply (on_unlink_frames _ _ _ t_ok)|].
    split; [cbn; rewrite (on_unlink_open _ _ _ t_ok); apply L|]. split; [done|].
    unfold unread. rewrite Hp. cbn. rewrite Hd, length_app. lia.
Qed.

Lemma payload_step n log told k j h d l : lively n → tied export n log told k j → all_sent n →
  at_phase (client n) = AwaitPayload h d l → ∃ c, read_on n c.
Proof.
  intros L T Hs Hp. pose proof T as []. pose proof (all_sent_bytes _ _ _ _ _ T Hs) as Ew.
  destruct (tied_payload _ Hdevnum HD _ _ _ _ _ _ _ _ T (l_fair _ L) Hp)
    as (i & comp & x & r' & Hj & Hi & En & Hw & E & Hx).
  pose proof Hw as Hw'. rewrite Ew in Hw'. apply incoming_drop in Hw'.
  rewrite (drop_S _ _ _ Hj), fmap_cons in Hw'. cbn [concat] in Hw'.
  change (bytes_of (Reply _ _)) with (ret_submit (requested dev i) comp) in Hw'.
  pose proof (tied_coherent _ Hdevnum _ _ _ _ _ T (l_fair _ L)) as C.
  destruct (c_replies _ _ _ _ C _ _ (list_elem_of_lookup_2 _ _ _ Hj)) as (i' & Hi' & Ei & Hfit & Hend).
  rewrite Ei in *. destruct (completion_sent export HD i' comp Hfit (issued_u32 _ _ _ _ _ _ T _ Hi') Hend) as [Wf _].
  rewrite ret_submit_split, <- app_assoc in Hw' by done. apply app_inv_head in Hw'.
  destruct x as [ret|e]; [|destruct Hx as [_ Hx]; rewrite Hw', length_app in Hx; lia].
  destruct Hx as [-> Hd]. cbn in Hd. rewrite Hw, (concat_take_S _ _ _ _ Hj), <- app_assoc in Hd.
  apply app_inv_head in Hd. change (bytes_of (Reply _ _)) with (ret_submit (requested dev i') comp) in Hd.
  rewrite ret_submit_split, <- app_assoc in Hd by done. apply app_inv_head in Hd.
  eexists. split; [by eapply step_payload|]. repeat (split; [done|]).
  split; [apply deliver_frames|]. split; [cbn; rewrite deliver_open; apply L|]. split; [done|].
  unfold unread. rewrite Hp. cbn. rewrite Hd, length_app. lia.
Qed.

Lemma read_all_replies n : lively n → settled n → all_sent n →
  ∃ n', lively n' ∧ onward n n' ∧ (settled n' ∧ all_sent n') ∧ delivered n'.
Proof.
  intros L Hset Hs. apply (loop (λ n, settled n ∧ all_sent n) delivered (λ n, unread (client n))); [|done..].
  clear n L Hset Hs. intros n L [Hset Hs]. destruct (lively_tied n L) as (log & told & k & j & T).
  assert (delivered n ∨ ∃ c, read_on n c) as [|(c & Hst & Ew & Ewr & Ei & Ef & Ho & Hp & Hlt)]; [|by left|right].
  { destruct (at_phase (client n)) as [|h d l|] eqn:Hp; [| |by destruct (l_phase _ L)].
    - destruct (decide (incoming (reader (client n)) = [])) as [|Hne]; [by left|right].
      by eapply header_step.
    - right. by eapply payload_step. }
  rewrite <- (app_nil_r (written (client n))) in Ew.
  pose proof (onward_client n c [] Hst Ew Ei Ef) as O. eexists. split; [|split; [exact O|]].
  - apply (lively_onward n _ L O); cbn; try done; try apply L. rewrite Ewr. apply L.
  - split; [|done]. destruct Hset as (H1 & [H2 H3] & H4). split; [|done]. split; [|split; [split|]]; cbn; try done.
    + unfold all_written in *. cbn. by rewrite Ewr, Ef.
    + by rewrite incoming_feed_nil.
Qed.

(** ** All of them *)

Lemma settles n : lively n → ∃ n', lively n' ∧ onward n n' ∧ quiet n' ∧ Conn.pending (server n') = ∅.
Proof.
  intros L0. destruct (write_all_frames n L0) as (n1 & L1 & O1 & _ & W1).
  destruct (read_all_commands n1 L1 W1) as (n2 & L2 & O2 & W2 & R2).
  destruct (drain_workers n2 L2 W2 R2) as (n3 & L3 & O3 & S3).
  destruct (send_all n3 L3 S3) as (n4 & L4 & O4 & S4 & T4).
  destruct (read_all_replies n4 L4 S4 T4) as (n5 & L5 & O5 & [[H1 [[H2 H3] H4]] H5] & [H6 H7]).
  exists n5. split; [done|]. split; [by rewrite O1, O2, O3, O4|]. split; [|done].
  constructor; try done. apply L5.
Qed.

(** What a quiet moment means for the requests. *)
Lemma settles_answered n : lively n → ∃ n', lively n' ∧ onward n n' ∧
  State.submits (Shared.state (shared (client n'))) = ∅ ∧
  State.unlinks (Shared.state (shared (client n'))) = ∅ ∧
  Conn.pending (server n') = ∅ ∧
  (Shared.replies (shared (client n'))).*1 ≡ₚ chans_of (issued (client n)).
Proof.
  intros L. destruct (settles n L) as (n' & L' & O & Q & Hp).
  destruct (lively_tied n' L') as (log & told & k & j & T).
  assert (State.submits (Shared.state (shared (client n'))) = ∅) as Hs.
  { apply map_empty. intros s. apply eq_None_not_Some.
    rewrite (quiet_keys _ Hdevnum HD _ _ _ _ _ T (l_fair _ L') Q), Hp, lookup_empty. by intros []. }
  exists n'. split; [done|]. split; [done|]. split; [done|].
  split; [by eapply quiet_unlinks; [..|apply L'|]|]. split; [done|].
  pose proof (ok_channels _ _ (t_ok _ _ _ _ _ _ T)) as Hc. rewrite (on_issued _ _ O) in Hc.
  unfold pending_chans in Hc. by rewrite Hs, map_to_list_empty in Hc.
Qed.

End Live.

Section Spec.
Context {B : BytesCrate} {BL : BytesLaws B}.
Context {R : Type} {AR : AsyncRead R} {AL : AsyncReadLaws R} {F : Feed R} {D : Device}.
Context (export : ExportDev.t).

(** C8: As long as neither side is broken and the devices complete, a connected session and server can
    finish: from every state of every fair run their tasks, run on, answer every request ever accepted,
    with the session open and nothing pending or being unlinked on either side. *)
Theorem peers_settle n :
  is_u 16 (ExportDev.devnum export) → conforming → (∀ u, ∃ c, resolves u (Outcome.Complete c)) →
  lively export n → ∃ n',
    rtc (net_step export) n n' ∧ issued (client n') = issued (client n) ∧
    State.closed (Shared.state (shared (client n'))) = None ∧
    State.submits (Shared.state (shared (client n'))) = ∅ ∧
    State.unlinks (Shared.state (shared (client n'))) = ∅ ∧
    Conn.pending (server n') = ∅ ∧
    (Shared.replies (shared (client n'))).*1 ≡ₚ chans_of (issued (client n)).
Proof.
  intros Hd HD Hdev L. destruct (settles_answered export Hd HD Hdev n L) as (n' & L' & [] & ? & ? & ? & ?).
  exists n'. split; [done|]. split; [done|]. split; [apply L'|]. by split_and!.
Qed.

End Spec.

Import Reference Echo Peering.

Lemma last_lively : lively Samples.export last_net.
Proof.
  constructor; [apply last_reachable|apply last_fair|..]; try (vm_compute; congruence);
    try (vm_compute; by eexists).
  assert (bool_decide (Forall is_Some (Conn.tx (server last_net)))) as H by (vm_compute; done).
  exact (bool_decide_unpack _ H).
Qed.

Lemma always_completes u : ∃ c, resolves u (Outcome.Complete c).
Proof. by eexists. Qed.

(** The request that is left in [last_net] is answered too. *)
Lemma peers_settle_witness : ∃ n', rtc (net_step Samples.export) last_net n' ∧
  Conn.pending (server n') = ∅ ∧ (Shared.replies (shared (client n'))).*1 ≡ₚ [0; 1; 2]%nat.
Proof.
  destruct (peers_settle Samples.export last_net devnum_ok device_conforms always_completes last_lively)
    as (n' & H & _ & _ & _ & _ & Hp & Hc). exists n'. split; [exact H|]. split; [exact Hp|].
  rewrite Hc. vm_compute. reflexivity.
Defined.
