(* ===== verification/Hci.v ===== *)
(** * Hci: the host controller's message format (src/src/hci.rs)

    One module per type with methods ([RawMessage], [Transfer], [Status], [AddressPool],
    [EndpointInfo]), then [decode_doorbell] and [hide_uas].  Code that indexes slices returns an
    [outcome], so that the absence of panics is a theorem; its loops run on fuel bounded by the
    length of the input, and the theorems show that the fuel is enough. *)

From stdpp Require Import base tactics option list.
From S2P Require Import Prelude Protocol.

Definition CONTROL_TYPE_MASK : Z := 0x3f.
Definition CONTROL_NO_RESPONSE : Z := Z.shiftl 1 14.
Definition CONTROL_VALID : Z := Z.shiftl 1 15.
Definition ISO_CONTROL_FRAME_SHIFT : Z := 16.
Definition ISO_CONTROL_FRAME_MASK : Z := Z.shiftl 0xff ISO_CONTROL_FRAME_SHIFT.
Definition ISO_CONTROL_ASAP : Z := Z.shiftl 1 24.
Definition TRANSFER_LENGTH_MASK : Z := 0x0fffffff.

Module message_type.

Definition CONTROLLER_POWER_ON : Z := 0x10.
Definition CONTROLLER_PAUSE : Z := 0x13.
Definition CONTROLLER_FRAME_NUMBER : Z := 0x14.
Definition PORT_POWER_ON : Z := 0x18.
Definition PORT_RESET : Z := 0x1c.
Definition PORT_STATUS : Z := 0x1e.
Definition DEVICE_CREATE : Z := 0x20.
Definition DEVICE_DESTROY : Z := 0x21.
Definition DEVICE_PAUSE : Z := 0x23.
Definition DEVICE_UPDATE : Z := 0x24.
Definition ENDPOINT_CREATE : Z := 0x28.
Definition ENDPOINT_DESTROY : Z := 0x29.
Definition ENDPOINT_PAUSE : Z := 0x2b.
Definition ENDPOINT_UPDATE : Z := 0x2c.
Definition ENDPOINT_RESET : Z := 0x2d.
Definition ENDPOINT_SET_NEXT_TRANSFER : Z := 0x2e.
Definition SETUP_TRANSFER : Z := 0x38.
Definition NORMAL_TRANSFER : Z := 0x39.
Definition STATUS_TRANSFER : Z := 0x3a.
Definition ISOCHRONOUS_TRANSFER : Z := 0x3b.
Definition LINK : Z := 0x3c.

End message_type.

Module RawMessage.

Record t : Type := mk { control : Z; data0 : Z; data1 : Z }.

#[global] Instance eq_dec : EqDecision t.
Proof. solve_decision. Defined.

Definition message_type (m : t) : Z := Z.land (control m) CONTROL_TYPE_MASK.
Definition is_valid (m : t) : bool := negb (Z.land (control m) CONTROL_VALID =? 0).
Definition needs_response (m : t) : bool := Z.land (control m) CONTROL_NO_RESPONSE =? 0.
Definition device_address (m : t) : Z := wrap 8 (data0 m).
Definition endpoint_address (m : t) : Z := wrap 8 (Z.shiftr (data0 m) 8).
Definition transfer_length (m : t) : Z := Z.land (data0 m) TRANSFER_LENGTH_MASK.
Definition buffer (m : t) : Z := data1 m.

End RawMessage.

Module Transfer.

Inductive t : Type :=
| Setup (bytes : list Z)
| Normal (length : Z)
| Status
| Isochronous (length : Z) (frame : option Z)
| Link (needs_response : bool)
| Other (kind : Z).

#[global] Instance eq_dec : EqDecision t.
Proof. solve_decision. Defined.

Definition decode (msg : RawMessage.t) : option t :=
  if negb (RawMessage.is_valid msg) then None
  else
    let kind := RawMessage.message_type msg in
    Some (
      if kind =? message_type.SETUP_TRANSFER then Setup (le_bytes 8 (RawMessage.data1 msg))
      else if kind =? message_type.NORMAL_TRANSFER then Normal (RawMessage.transfer_length msg)
      else if kind =? message_type.STATUS_TRANSFER then Status
      else if kind =? message_type.ISOCHRONOUS_TRANSFER then
        Isochronous (RawMessage.transfer_length msg)
          (if Z.land (RawMessage.control msg) ISO_CONTROL_ASAP =? 0
           then Some (wrap 8 (Z.shiftr (Z.land (RawMessage.control msg) ISO_CONTROL_FRAME_MASK)
                                ISO_CONTROL_FRAME_SHIFT))
           else None)
      else if kind =? message_type.LINK then Link (RawMessage.needs_response msg)
      else Other kind).

End Transfer.

Definition decode_doorbell (doorbell : Z) : Z * Z * Z :=
  (wrap 8 doorbell, wrap 8 (Z.shiftr doorbell 8), wrap 16 (Z.shiftr doorbell 16)).

Module Status.

Inductive t : Type :=
| Success
| Offline
| Timeout
| EndpointStopped
| ProtocolError
| TransactionError
| OverrunError
| StallError
| Error.

#[global] Instance eq_dec : EqDecision t.
Proof. solve_decision. Defined.

(** [-status] on [i32], wrapping as in a build without overflow checks. *)
Definition neg_i32 (status : Z) : Z := swrap 32 (- status).

Definition from_urb_status (status : Z) : t :=
  match neg_i32 status with
  | 0 => Success
  | 121 | 18 => Success
  | 32 => StallError
  | 75 => OverrunError
  | 71 | 84 => ProtocolError
  | 62 | 110 => Timeout
  | 19 | 108 => Offline
  | 2 | 104 => EndpointStopped
  | 70 | 63 => TransactionError
  | _ => Error
  end.

End Status.

Module AddressPool.

(** [used] is a [u128]. *)
Record t : Type := mk { used : Z }.

Definition default : t := mk 0.

Definition allocate (p : t) : option (Z * t) :=
  address ← find_first (λ a, Z.land (used p) (Z.shiftl 1 a) =? 0) (seqZ 1 127);
  Some (address, mk (Z.lor (used p) (Z.shiftl 1 address))).

(** [!x] on [u128] *)
Definition not_u128 (x : Z) : Z := Z.lxor (Z.ones 128) x.

Definition release (p : t) (address : Z) : t :=
  if address <? 128 then mk (Z.land (used p) (not_u128 (Z.shiftl 1 address))) else p.

End AddressPool.

Module EndpointKind.

Inductive t : Type := Control | Isochronous | Bulk | Interrupt.

#[global] Instance eq_dec : EqDecision t.
Proof. solve_decision. Defined.

End EndpointKind.

Module EndpointInfo.

Record t : Type := mk { kind : EndpointKind.t; max_packet_size : Z; b_interval : Z }.

#[global] Instance eq_dec : EqDecision t.
Proof. solve_decision. Defined.

Definition CONTROL : t := mk EndpointKind.Control 64 0.

(** [while i + 2 <= total && desc[i] >= 2 { ... }]; [parse] is the recursive call. *)
Fixpoint walk (parse : list Z → outcome (option t)) (fuel : nat) (desc : list Z) (total i : nat) :
    outcome (option t) :=
  match fuel with
  | O => OutOfFuel
  | S fuel =>
    if (i + 2 <=? total)%nat then
      len ← idx desc i;
      if 2 <=? len then
        kind ← idx desc (i + 1);
        if kind =? 5 then
          match get_range desc i total with
          | Some desc => parse desc
          | None => Done None
          end
        else walk parse fuel desc total (i + Z.to_nat len)
      else Done None
    else Done None
  end.

(** [depth] bounds the recursion. *)
Fixpoint parse_at (depth : nat) (desc : list Z) : outcome (option t) :=
  match depth with
  | O => OutOfFuel
  | S depth =>
    config ← (if (4 <=? length desc)%nat then
                d0 ← idx desc 0;
                if 2 <=? d0 then d1 ← idx desc 1; Done (d1 =? 2) else Done false
              else Done false);
    if config : bool then
      d2 ← idx desc 2;
      d3 ← idx desc 3;
      let total := (Z.to_nat (le_to_Z [d2; d3]) `min` length desc)%nat in
      d0 ← idx desc 0;
      walk (parse_at depth) (S (length desc)) desc total (Z.to_nat d0)
    else if (length desc <? 7)%nat then Done None
    else
      d1 ← idx desc 1;
      if negb (d1 =? 5) then Done None
      else
        d3 ← idx desc 3;
        d4 ← idx desc 4;
        d5 ← idx desc 5;
        d6 ← idx desc 6;
        Done (Some (mk (match Z.land d3 0x03 with
                        | 0 => EndpointKind.Control
                        | 1 => EndpointKind.Isochronous
                        | 2 => EndpointKind.Bulk
                        | _ => EndpointKind.Interrupt
                        end) (le_to_Z [d4; d5]) d6))
  end.

Definition parse (desc : list Z) : outcome (option t) := parse_at 2 desc.

Definition urb_interval (e : t) (speed : Speed.t) : Z :=
  let b := Z.max (b_interval e) 1 in
  match kind e, speed with
  | (EndpointKind.Bulk | EndpointKind.Control), _ => 0
  | _, (Speed.High | Speed.Wireless | Speed.Super | Speed.SuperPlus) =>
    Z.shiftl 1 (Z.min b 16 - 1)
  | EndpointKind.Isochronous, _ => Z.shiftl 1 (Z.min b 16 - 1)
  | EndpointKind.Interrupt, _ => b
  end.

End EndpointInfo.

(** ** Hiding UAS alternate settings *)

(** [std::ops::Range<usize>] *)
Notation range := (nat * nat)%type.
Definition range_len (g : range) : nat := g.2 - g.1.

(** [if let Some(g) = groups.last_mut().filter(|g| g.start != g.end) { g.end = to }] *)
Definition extend_last (groups : list range) (to : nat) : list range :=
  match reverse groups with
  | (s, e) :: before => if (s =? e)%nat then groups else reverse before ++ [(s, to)]
  | [] => groups
  end.

(** The loop that collects the byte ranges of each interface and its descriptors; [None] is the
    early return on a malformed descriptor. *)
Fixpoint scan_groups (fuel : nat) (config : list Z) (groups : list range) (i : nat) :
    outcome (option (list range)) :=
  match fuel with
  | O => OutOfFuel
  | S fuel =>
    if (i <? length config)%nat then
      l ← idx config i;
      let len := Z.to_nat l in
      if (len <? 2)%nat || (length config <? i + len)%nat then Done None
      else
        kind ← idx config (i + 1);
        let groups :=
          if kind =? 4 then groups ++ [(i, i + len)%nat]
          else if kind =? 0x0b then groups ++ [(i, i)]
          else extend_last groups (i + len) in
        scan_groups fuel config groups (i + len)
    else Done (Some groups)
  end.

Definition is_uas (config : list Z) (g : range) : outcome bool :=
  if (9 <=? range_len g)%nat then
    s ← slice config (g.1 + 5) (g.1 + 8);
    Done (bool_decide (s = [0x08; 0x06; 0x62]))
  else Done false.

(** [groups.iter().any(|g| g.len() >= 9 && config[g.start + 2] == number && !is_uas(g))] *)
Fixpoint fallback (config : list Z) (groups : list range) (number : Z) : outcome bool :=
  match groups with
  | [] => Done false
  | g :: groups =>
    here ← (if (9 <=? range_len g)%nat then
              n ← idx config (g.1 + 2);
              if n =? number then negb <$> is_uas config g else Done false
            else Done false);
    if here : bool then Done true else fallback config groups number
  end.

(** [groups.iter().filter(|g| is_uas(g) && fallback(config[g.start + 2]))] over the tail [todo]. *)
Fixpoint hidden_groups (config : list Z) (groups todo : list range) : outcome (list range) :=
  match todo with
  | [] => Done []
  | g :: todo =>
    uas ← is_uas config g;
    hide ← (if uas : bool then n ← idx config (g.1 + 2); fallback config groups n else Done false);
    rest ← hidden_groups config groups todo;
    Done (if hide : bool then g :: rest else rest)
  end.

(** [for g in &hidden { out.extend_from_slice(&config[at..g.start]); at = g.end; }] and the rest. *)
Fixpoint cut (config : list Z) (hidden : list range) (out : list Z) (at_ : nat) :
    outcome (list Z) :=
  match hidden with
  | [] => s ← slice config at_ (length config); Done (out ++ s)
  | g :: hidden => s ← slice config at_ g.1; cut config hidden (out ++ s) g.2
  end.

(** The configuration afterwards, and what the function returns. *)
Definition hide_uas (config : list Z) : outcome (list Z * option (Z * Z)) :=
  bad ← (if (length config <? 9)%nat then Done true
         else d0 ← idx config 0;
              if d0 <? 9 then Done true else d1 ← idx config 1; Done (negb (d1 =? 2)));
  if bad : bool then Done (config, None)
  else
    d0 ← idx config 0;
    groups ← scan_groups (S (length config)) config [] (Z.to_nat d0);
    match groups with
    | None => Done (config, None)
    | Some groups =>
      hidden ← hidden_groups config groups groups;
      match hidden with
      | [] => Done (config, None)
      | _ :: _ =>
        out ← cut config hidden [] 0;
        let total := le_bytes 2 (wrap 16 (Z.of_nat (length out))) in
        out ← copy_at out 2 total;
        c2 ← idx config 2;
        c3 ← idx config 3;
        Done (out, Some (le_to_Z [c2; c3], le_to_Z total))
      end
    end.
