(* ===== verification/HideUas.v ===== *)
(** * HideUas: [hide_uas] against a specification on descriptors (src/src/hci.rs)

    The code works on byte ranges of the configuration descriptor.  The specification splits the
    bytes into descriptors, groups each interface descriptor with the descriptors that belong to
    it into a segment, and drops the segments of UAS alternate settings whose interface has another
    setting to fall back to.  [hide_uas_refines] shows that the code computes exactly the
    specification on every input, malformed ones included, and never panics; the other theorems
    are consequences. *)

From stdpp Require Import base tactics option list.
From S2P Require Import Prelude Protocol Hci.

(** ** Specification *)

(** The descriptors of a body: length-prefixed, at least two bytes each; [None] when malformed. *)
Fixpoint split_descs (fuel : nat) (bs : list Z) : option (list (list Z)) :=
  match fuel, bs with
  | _, [] => Some []
  | O, _ => None
  | S fuel, l :: _ =>
    let len := Z.to_nat l in
    if (len <? 2)%nat || (length bs <? len)%nat then None
    else (take len bs ::.) <$> split_descs fuel (drop len bs)
  end.

(** A segment: an interface with the descriptors that belong to it ([true]), or a descriptor that
    belongs to none. *)
Notation seg := (bool * list Z)%type.

Definition flush (cur : option (list Z)) : list seg :=
  match cur with Some g => [(true, g)] | None => [] end.

(** [cur]: the interface being collected. *)
Fixpoint segments (ds : list (list Z)) (cur : option (list Z)) : list seg :=
  match ds with
  | [] => flush cur
  | d :: ds =>
    if at_ d 1 =? 4 then flush cur ++ segments ds (Some d)
    else if at_ d 1 =? 0x0b then flush cur ++ (false, d) :: segments ds None
    else match cur with
         | Some g => segments ds (Some (g ++ d))
         | None => (false, d) :: segments ds None
         end
  end.

Definition uas_bytes (b : list Z) : bool :=
  (9 <=? length b)%nat && bool_decide (take 3 (drop 5 b) = [0x08; 0x06; 0x62]).

(** A setting of interface [number] that is not UAS. *)
Definition falls_back (number : Z) (b : list Z) : bool :=
  (9 <=? length b)%nat && (at_ b 2 =? number) && negb (uas_bytes b).

(** Whether a segment is hidden, given the segments of the configuration. *)
Definition hides (segs : list seg) (s : seg) : bool :=
  s.1 && (uas_bytes s.2 && existsb (λ s', s'.1 && falls_back (at_ s.2 2) s'.2) segs).

Definition keep (segs : list seg) : list seg := base.filter (λ s, hides segs s = false) segs.

Definition seg_bytes (segs : list seg) : list Z := concat (segs.*2).

(** A configuration descriptor header. *)
Definition header_good (config : list Z) : bool :=
  (9 <=? length config)%nat && (9 <=? at_ config 0) && (at_ config 1 =? 2).

Definition with_total (out : list Z) : list Z :=
  splice out 2 (le_bytes 2 (wrap 16 (Z.of_nat (length out)))).

Definition hide_spec (config : list Z) : list Z * option (Z * Z) :=
  if header_good config then
    let n := Z.to_nat (at_ config 0) in
    match split_descs (S (length config)) (drop n config) with
    | None => (config, None)
    | Some ds =>
      let segs := segments ds None in
      if existsb (hides segs) segs then
        let out := take n config ++ seg_bytes (keep segs) in
        (with_total out, Some (le_to_Z [at_ config 2; at_ config 3], wrap 16 (Z.of_nat (length out))))
      else (config, None)
    end
  else (config, None).

#[global] Arguments seg_bytes : simpl never.

Lemma seg_bytes_cons s segs : seg_bytes (s :: segs) = s.2 ++ seg_bytes segs.
Proof. done. Qed.

Lemma seg_bytes_app s1 s2 : seg_bytes (s1 ++ s2) = seg_bytes s1 ++ seg_bytes s2.
Proof. unfold seg_bytes. by rewrite fmap_app, concat_app. Qed.

(** ** The scan *)

Definition scan_step (groups : list range) (off : nat) (d : list Z) : list range :=
  if at_ d 1 =? 4 then groups ++ [(off, off + length d)%nat]
  else if at_ d 1 =? 0x0b then groups ++ [(off, off)]
  else extend_last groups (off + length d).

Fixpoint scan_ref (groups : list range) (off : nat) (ds : list (list Z)) : list range :=
  match ds with
  | [] => groups
  | d :: ds => scan_ref (scan_step groups off d) (off + length d) ds
  end.

Lemma scan_groups_split fuel config groups i :
  (length config - i < fuel)%nat →
  scan_groups fuel config groups i =
    Done (scan_ref groups i <$> split_descs fuel (drop i config)).
Proof.
  revert groups i. induction fuel as [|fuel IH]; intros groups i Hf; [lia|]. simpl scan_groups.
  destruct (i <? length config)%nat eqn:Hi; [apply Nat.ltb_lt in Hi|apply Nat.ltb_ge in Hi].
  2: { rewrite drop_ge by lia. reflexivity. }
  rewrite (idx_at config i) by lia. cbn [mbind outcome_bind].
  assert (drop i config = at_ config i :: drop (S i) config) as Ed
    by (apply drop_S, at_lookup; lia).
  rewrite Ed. cbn [split_descs]. rewrite <- Ed. rewrite length_drop.
  destruct (Z.to_nat (at_ config i) <? 2)%nat eqn:H2; [done|]. cbn [orb]. apply Nat.ltb_ge in H2.
  destruct (length config <? i + Z.to_nat (at_ config i))%nat eqn:Hle;
    [apply Nat.ltb_lt in Hle|apply Nat.ltb_ge in Hle].
  { by rewrite (proj2 (Nat.ltb_lt _ _)) by lia. }
  rewrite (proj2 (Nat.ltb_ge _ _)) by lia.
  rewrite idx_at by lia. cbn [mbind outcome_bind]. rewrite IH by lia. rewrite drop_drop.
  rewrite <- option_fmap_compose. f_equal. apply option_fmap_ext. intros ds. simpl.
  assert (length (take (Z.to_nat (at_ config i)) (drop i config)) = Z.to_nat (at_ config i)) as Hl
    by (rewrite length_take, length_drop; lia).
  unfold scan_step. rewrite Hl, at_take, at_drop by lia. done.
Qed.

Lemma split_descs_spec fuel bs ds :
  split_descs fuel bs = Some ds →
  bs = concat ds ∧ Forall (λ d, (2 ≤ length d)%nat ∧ Z.to_nat (at_ d 0) = length d) ds.
Proof.
  revert bs ds. induction fuel as [|fuel IH]; intros [|l bs] ds H; simpl in H; try (by simplify_eq).
  destruct (_ || _)%bool eqn:E; [done|]. apply orb_false_iff in E as [E1 E2].
  apply Nat.ltb_ge in E1, E2. cbn [length] in E2.
  apply fmap_Some in H as (ds' & H & ->). destruct (IH _ _ H) as [Hb Hall].
  set (d := take (Z.to_nat l) (l :: bs)) in *.
  assert (length d = Z.to_nat l) as Hl by (subst d; rewrite length_take; cbn [length]; lia).
  split.
  - cbn [concat]. rewrite <- Hb. symmetry. apply take_drop.
  - constructor; [|done]. split; [lia|]. rewrite Hl. unfold d.
    by rewrite at_take by lia.
Qed.

(** ** Ranges and segments *)

Definition live (g : range) : Prop := g.1 ≠ g.2.

#[local] Instance live_dec g : Decision (live g).
Proof. unfold live. apply _. Defined.

(** The byte ranges of the interface segments, laid out from offset [off]. *)
Fixpoint ranges (off : nat) (segs : list seg) : list range :=
  match segs with
  | [] => []
  | s :: segs =>
    (if s.1 : bool then [(off, off + length s.2)%nat] else []) ++ ranges (off + length s.2) segs
  end.

(** How the code's list of groups represents the interface being collected. *)
Definition tracks (groups : list range) (off : nat) (cur : option (list Z)) (base : list range) :
    Prop :=
  match cur with
  | None => base.filter live groups = base ∧
            (groups = [] ∨ ∃ g0 s, groups = g0 ++ [(s, s)])
  | Some g => ∃ g0, groups = g0 ++ [(off - length g, off)%nat] ∧ base.filter live g0 = base ∧
              (0 < length g ≤ off)%nat
  end.

Lemma extend_last_snoc g0 s e to :
  extend_last (g0 ++ [(s, e)]) to = if (s =? e)%nat then g0 ++ [(s, e)] else g0 ++ [(s, to)].
Proof.
  unfold extend_last. rewrite reverse_snoc. case_match; [done|]. by rewrite reverse_involutive.
Qed.

Lemma live_snoc_empty (g0 : list range) s : base.filter live (g0 ++ [(s, s)]) = base.filter live g0.
Proof.
  rewrite filter_app, filter_cons_False, filter_nil, app_nil_r by (unfold live; simpl; naive_solver).
  done.
Qed.

Lemma live_snoc (g0 : list range) s e :
  s ≠ e → base.filter live (g0 ++ [(s, e)]) = base.filter live g0 ++ [(s, e)].
Proof.
  intros. by rewrite filter_app, filter_cons_True, filter_nil by (unfold live; simpl; done).
Qed.

(** What a group list amounts to once the interface being collected is closed. *)
Lemma tracks_live groups off cur base :
  tracks groups off cur base →
  base.filter live groups = base ++ ranges (off - length (default [] cur)) (flush cur).
Proof.
  destruct cur as [g|]; simpl.
  - intros (g0 & -> & <- & ?). rewrite live_snoc by lia. do 4 f_equal. lia.
  - intros [<- _]. by rewrite app_nil_r.
Qed.

Lemma ranges_app off s1 s2 :
  ranges off (s1 ++ s2) = ranges off s1 ++ ranges (off + length (seg_bytes s1)) s2.
Proof.
  revert off. induction s1 as [|s s1 IH]; intros off; simpl; [f_equal; cbn; lia|].
  rewrite IH, <- app_assoc, seg_bytes_cons, length_app. do 3 f_equal. lia.
Qed.

Lemma scan_segments ds groups off cur base :
  Forall (λ d : list Z, (2 ≤ length d)%nat) ds → tracks groups off cur base →
  base.filter live (scan_ref groups off ds)
    = base ++ ranges (off - length (default [] cur)) (segments ds cur).
Proof.
  intros Hd. revert groups off cur base. induction Hd as [|d ds Hd _ IH];
    intros groups off cur base Ht; simpl.
  { by apply tracks_live. }
  pose proof (tracks_live _ _ _ _ Ht) as Hl. unfold scan_step.
  assert (off - length (default [] cur) + length (seg_bytes (flush cur)) = off)%nat as Hoff.
  { destruct cur as [g|]; simpl; [|lia]. destruct Ht as (? & _ & _ & ?).
    unfold seg_bytes. simpl. rewrite app_nil_r. lia. }
  destruct (at_ d 1 =? 4).
  - rewrite (IH _ _ (Some d) (base.filter live groups)).
    + rewrite ranges_app, Hoff, Hl. simpl. rewrite <- app_assoc. do 3 f_equal. lia.
    + exists groups. split; [do 3 f_equal; lia|]. split; [done|lia].
  - destruct (at_ d 1 =? 0x0b).
    + rewrite (IH _ _ None (base.filter live groups)).
      * rewrite ranges_app, Hoff, Hl. simpl. rewrite <- app_assoc. do 3 f_equal. lia.
      * split; [apply live_snoc_empty|eauto].
    + destruct cur as [g|]; simpl in *.
      * destruct Ht as (g0 & -> & <- & ?). rewrite extend_last_snoc.
        rewrite (proj2 (Nat.eqb_neq _ _)) by lia.
        rewrite (IH _ _ (Some (g ++ d)) (base.filter live g0)); simpl.
        -- rewrite length_app. do 2 f_equal. lia.
        -- exists g0. rewrite length_app. split; [do 3 f_equal; lia|]. split; [done|lia].
      * destruct Ht as [<- Hlast].
        assert (extend_last groups (off + length d) = groups) as ->.
        { destruct Hlast as [->|(g0 & s & ->)]; [done|].
          by rewrite extend_last_snoc, Nat.eqb_refl. }
        rewrite (IH _ _ None (base.filter live groups)); simpl; [|done].
        do 2 f_equal. lia.
Qed.

(** ** Reading the groups *)

Definition range_bytes (config : list Z) (g : range) : list Z :=
  take (g.2 - g.1) (drop g.1 config).

Definition in_bounds (config : list Z) (g : range) : Prop := (g.1 ≤ g.2 ∧ g.2 ≤ length config)%nat.

Lemma length_range_bytes config g : in_bounds config g → length (range_bytes config g) = range_len g.
Proof.
  intros []. unfold range_bytes, range_len. rewrite length_take, length_drop. lia.
Qed.

Lemma at_range_bytes config g k : (k < range_len g)%nat →
  at_ (range_bytes config g) k = at_ config (g.1 + k).
Proof. intros. unfold range_bytes. by rewrite at_take, at_drop. Qed.

Lemma is_uas_spec config g :
  in_bounds config g → is_uas config g = Done (uas_bytes (range_bytes config g)).
Proof.
  intros Hg. unfold is_uas, uas_bytes. rewrite length_range_bytes by done.
  destruct (9 <=? range_len g)%nat eqn:E; [|done]. apply Nat.leb_le in E.
  unfold range_len in *. destruct Hg. rewrite slice_done by lia. cbn [mbind outcome_bind andb].
  unfold range_bytes. rewrite <- drop_drop, skipn_firstn_comm, take_take.
  replace (g.1 + 8 - (g.1 + 5))%nat with 3%nat by lia.
  by replace (3 `min` (g.2 - g.1 - 5))%nat with 3%nat by lia.
Qed.

Lemma fallback_spec config groups n :
  Forall (in_bounds config) groups →
  fallback config groups n = Done (existsb (λ g, falls_back n (range_bytes config g)) groups).
Proof.
  induction 1 as [|g groups Hg _ IH]; cbn [fallback existsb]; [done|].
  unfold falls_back at 1. rewrite length_range_bytes by done.
  destruct (9 <=? range_len g)%nat eqn:E; cbn [andb orb mbind outcome_bind]; [|exact IH].
  apply Nat.leb_le in E. rewrite at_range_bytes by lia.
  rewrite idx_at by (destruct Hg; unfold range_len in *; lia). cbn [mbind outcome_bind].
  destruct (at_ config (g.1 + 2) =? n); cbn [andb orb mbind outcome_bind]; [|exact IH].
  rewrite is_uas_spec by done. cbn [fmap outcome_fmap mbind outcome_bind].
  destruct (uas_bytes _); [exact IH|done].
Qed.

(** Whether the code hides a group. *)
Definition hides_range (config : list Z) (groups : list range) (g : range) : bool :=
  uas_bytes (range_bytes config g) &&
  existsb (λ g', falls_back (at_ (range_bytes config g) 2) (range_bytes config g')) groups.

Lemma hidden_groups_spec config groups todo :
  Forall (in_bounds config) groups → Forall (in_bounds config) todo →
  hidden_groups config groups todo
    = Done (base.filter (λ g, hides_range config groups g = true) todo).
Proof.
  intros Hgs. induction 1 as [|g todo Hg _ IH]; cbn [hidden_groups]; [done|].
  rewrite is_uas_spec by done. cbn [mbind outcome_bind]. rewrite IH, filter_cons.
  enough ((if uas_bytes (range_bytes config g)
           then n ← idx config (g.1 + 2); fallback config groups n else Done false)
          = Done (hides_range config groups g)) as ->.
  { cbn [mbind outcome_bind]. destruct (hides_range config groups g); by case_decide. }
  unfold hides_range. destruct (uas_bytes (range_bytes config g)) eqn:Eu; [|done].
  assert (9 ≤ range_len g)%nat as H9.
  { unfold uas_bytes in Eu. apply andb_true_iff in Eu as [Eu _]. apply Nat.leb_le in Eu.
    by rewrite length_range_bytes in Eu. }
  rewrite idx_at by (destruct Hg; unfold range_len in *; lia). cbn [mbind outcome_bind].
  by rewrite fallback_spec, at_range_bytes by (done || lia).
Qed.

(** Groups without bytes play no part. *)
Lemma dead_short config g : in_bounds config g → ¬ live g → range_bytes config g = [].
Proof.
  unfold live, range_bytes. intros _ Hl. replace (g.2 - g.1)%nat with 0%nat by lia. done.
Qed.

Lemma existsb_live config n groups :
  Forall (in_bounds config) groups →
  existsb (λ g, falls_back n (range_bytes config g)) groups
  = existsb (λ g, falls_back n (range_bytes config g)) (base.filter live groups).
Proof.
  induction 1 as [|g groups Hg _ IH]; simpl; [done|]. rewrite IH.
  destruct (decide (live g)) as [Hl|Hl].
  - by rewrite filter_cons_True.
  - by rewrite filter_cons_False, dead_short by done.
Qed.

Lemma hidden_live config groups todo :
  Forall (in_bounds config) groups → Forall (in_bounds config) todo →
  base.filter (λ g, hides_range config groups g = true) todo
  = base.filter (λ g, hides_range config (base.filter live groups) g = true)
      (base.filter live todo).
Proof.
  intros Hgs. induction 1 as [|g todo Hg _ IH]; [done|].
  assert (hides_range config groups g = hides_range config (base.filter live groups) g) as E
    by (unfold hides_range; by rewrite existsb_live).
  destruct (decide (live g)) as [Hl|Hl].
  - rewrite (filter_cons_True live) by done. rewrite !filter_cons, E, IH. done.
  - rewrite (filter_cons_False live) by done. rewrite filter_cons_False; [done|].
    unfold hides_range. rewrite dead_short by done. done.
Qed.

(** ** Cutting *)

(** [segs] laid out in [config] from offset [off] to its end. *)
Definition laid_out (config : list Z) (off : nat) (segs : list seg) : Prop :=
  drop off config = seg_bytes segs ∧ (off ≤ length config)%nat.

Lemma laid_out_cons config off s segs :
  laid_out config off (s :: segs) →
  range_bytes config (off, off + length s.2)%nat = s.2 ∧
  laid_out config (off + length s.2) segs.
Proof.
  unfold laid_out, range_bytes. rewrite seg_bytes_cons. intros [E Hle]. simpl.
  assert (length (drop off config) = length s.2 + length (seg_bytes segs))%nat as Hl
    by (rewrite E; apply length_app). rewrite length_drop in Hl.
  rewrite <- drop_drop, E. replace (off + length s.2 - off)%nat with (length s.2) by lia.
  rewrite take_app_length, drop_app_length. auto with lia.
Qed.

Lemma ranges_in_bounds config off segs :
  laid_out config off segs → Forall (in_bounds config) (ranges off segs).
Proof.
  revert off. induction segs as [|s segs IH]; intros off Hl; simpl; [done|].
  apply laid_out_cons in Hl as [_ Hl]. apply Forall_app. split; [|by apply IH].
  destruct s.1; constructor; [|done]. destruct Hl. split; simpl; lia.
Qed.

Lemma existsb_ranges config off segs (f : list Z → bool) :
  laid_out config off segs →
  existsb (λ g, f (range_bytes config g)) (ranges off segs) = existsb (λ s, s.1 && f s.2) segs.
Proof.
  revert off. induction segs as [|s segs IH]; intros off Hl; [done|].
  apply laid_out_cons in Hl as [Hb Hl]. cbn [ranges existsb]. rewrite existsb_app, (IH _ Hl).
  destruct s.1; cbn [existsb andb orb]; [|done]. by rewrite Hb, orb_false_r.
Qed.

(** The ranges of the segments a predicate selects. *)
Lemma filter_ranges config off segs (f : list Z → bool) :
  laid_out config off segs →
  base.filter (λ g, f (range_bytes config g) = true) (ranges off segs)
  = ranges off ((λ s, (s.1 && f s.2, s.2)) <$> segs).
Proof.
  revert off. induction segs as [|s segs IH]; intros off Hl; [done|].
  apply laid_out_cons in Hl as [Hb Hl]. cbn [ranges fmap list_fmap]. rewrite filter_app, (IH _ Hl).
  destruct s.1; simpl; [|done]. rewrite filter_cons, Hb.
  destruct (f s.2); case_decide; done.
Qed.

Lemma slice_extend (config : list Z) at0 off n :
  (at0 ≤ off)%nat → (off + n ≤ length config)%nat →
  take (off - at0) (drop at0 config) ++ take n (drop off config)
  = take (off + n - at0) (drop at0 config).
Proof.
  intros. replace (off + n - at0)%nat with (off - at0 + n)%nat by lia.
  rewrite <- take_take_drop, drop_drop. do 3 f_equal. lia.
Qed.

(** Cutting the marked segments leaves the others, in order. *)
Lemma cut_spec config off segs out at0 :
  laid_out config off segs → (at0 ≤ off)%nat →
  cut config (ranges off segs) out at0 =
    Done (out ++ take (off - at0) (drop at0 config)
          ++ seg_bytes (base.filter (λ s, s.1 = false) segs)).
Proof.
  revert off out at0. induction segs as [|s segs IH]; intros off out at0 Hl Hat; simpl.
  { destruct Hl as [E Hle]. rewrite slice_done by lia. cbn [mbind outcome_bind].
    assert (length config = off) as ->.
    { apply (f_equal length) in E. rewrite length_drop in E.
      change (length (seg_bytes [])) with 0%nat in E. lia. }
    change (seg_bytes (base.filter _ [])) with (@nil Z). by rewrite app_nil_r. }
  pose proof (laid_out_cons _ _ _ _ Hl) as [Hb Hl']. unfold range_bytes in Hb. simpl in Hb.
  replace (off + length s.2 - off)%nat with (length s.2) in Hb by lia.
  destruct Hl' as [E Hle]. destruct s as [[|] b]; simpl in *.
  - rewrite slice_done by lia. cbn [mbind outcome_bind]. rewrite IH by (done || lia).
    rewrite Nat.sub_diag, filter_cons_False by done. by rewrite <- app_assoc.
  - rewrite IH by (done || lia). rewrite filter_cons_True by done.
    rewrite seg_bytes_cons. simpl. rewrite <- (slice_extend config at0 off) by lia.
    by rewrite Hb, <- !app_assoc.
Qed.

(** ** Refinement *)

Lemma seg_bytes_segments ds cur :
  seg_bytes (segments ds cur) = default [] cur ++ concat ds.
Proof.
  revert cur. induction ds as [|d ds IH]; intros cur; simpl.
  { destruct cur; simpl; [|done]. by rewrite seg_bytes_cons. }
  assert (seg_bytes (flush cur) = default [] cur) as Hf.
  { destruct cur; simpl; [|done]. rewrite seg_bytes_cons. apply app_nil_r. }
  destruct (at_ d 1 =? 4); [by rewrite seg_bytes_app, Hf, IH|].
  destruct (at_ d 1 =? 0x0b); [by rewrite seg_bytes_app, Hf, seg_bytes_cons, IH|].
  destruct cur as [g|]; rewrite ?seg_bytes_cons, IH; simpl; by rewrite <- ?app_assoc.
Qed.

Lemma scan_ref_bounded groups off ds :
  Forall (λ g : range, g.1 ≤ g.2 ∧ g.2 ≤ off)%nat groups →
  Forall (λ g : range, g.1 ≤ g.2 ∧ g.2 ≤ off + length (concat ds))%nat (scan_ref groups off ds).
Proof.
  revert groups off. induction ds as [|d ds IH]; intros groups off Hg; simpl.
  { eapply Forall_impl; [exact Hg|]. simpl. lia. }
  rewrite length_app, Nat.add_assoc. apply IH.
  assert (Forall (λ g : range, g.1 ≤ g.2 ∧ g.2 ≤ off + length d)%nat groups) as Hg'
    by (eapply Forall_impl; [exact Hg|]; simpl; lia).
  unfold scan_step. repeat case_match; try (apply Forall_app; split; [done|];
    constructor; [simpl; lia|done]).
  destruct groups as [|[s e] g0 _] using rev_ind; [done|]. rewrite extend_last_snoc.
  case_match; [done|]. apply Forall_app in Hg as [_ Hl], Hg' as [Hg' _].
  apply Forall_app. split; [done|]. apply Forall_cons in Hl as [Hl _].
  constructor; [simpl in *; lia|done].
Qed.

Definition mark (segs : list seg) (s : seg) : seg := (hides segs s, s.2).

Lemma marked_bytes segs0 segs : seg_bytes (mark segs0 <$> segs) = seg_bytes segs.
Proof. unfold seg_bytes. by rewrite <- list_fmap_compose. Qed.

Lemma marked_kept segs0 segs :
  seg_bytes (base.filter (λ s, s.1 = false) (mark segs0 <$> segs))
  = seg_bytes (base.filter (λ s, hides segs0 s = false) segs).
Proof.
  induction segs as [|s segs IH]; [done|]. cbn [fmap list_fmap]. rewrite !filter_cons. cbn [fst mark].
  change (list_fmap _ _ (mark segs0) segs) with (mark segs0 <$> segs).
  destruct (decide (hides segs0 s = false)); [|done]. by rewrite !seg_bytes_cons, IH.
Qed.

Lemma ranges_nil off segs : ranges off segs = [] ↔ existsb fst segs = false.
Proof.
  revert off. induction segs as [|[b bs] segs IH]; intros off; simpl; [done|].
  destruct b; simpl; [done|apply IH].
Qed.

Lemma existsb_marked segs0 segs : existsb fst (mark segs0 <$> segs) = existsb (hides segs0) segs.
Proof. induction segs as [|s segs IH]; [done|]. simpl. by rewrite <- IH. Qed.

(** The ranges the code cuts are those of the segments the specification hides. *)
Lemma hidden_groups_segments config off ds :
  drop off config = concat ds → (off ≤ length config)%nat →
  Forall (λ d : list Z, (2 ≤ length d)%nat) ds →
  let groups := scan_ref [] off ds in
  let segs := segments ds None in
  laid_out config off segs ∧
  hidden_groups config groups groups = Done (ranges off (mark segs <$> segs)).
Proof.
  intros Hb Hoff Hds groups segs.
  assert (laid_out config off segs) as Hl by (split; [|done]; rewrite Hb; symmetry; apply (seg_bytes_segments ds None)).
  split; [done|].
  assert (Forall (in_bounds config) groups) as Hin.
  { eapply Forall_impl; [apply (scan_ref_bounded [] off ds); done|]. intros g [? ?].
    split; [done|]. apply (f_equal length) in Hb. rewrite length_drop in Hb. lia. }
  rewrite hidden_groups_spec, hidden_live by done.
  assert (base.filter live groups = ranges off segs) as Er.
  { subst groups segs. rewrite (scan_segments ds [] off None []); [|done|].
    - cbn. by rewrite Nat.sub_0_r.
    - split; [done|by left]. }
  rewrite Er. f_equal.
  etrans; [|exact (filter_ranges config off segs (λ b, uas_bytes b &&
    existsb (λ s', s'.1 && falls_back (at_ b 2) s'.2) segs) Hl)].
  apply list_filter_iff. intros g. unfold hides_range.
  by rewrite (existsb_ranges config off segs (falls_back (at_ (range_bytes config g) 2)) Hl).
Qed.

Lemma header_check config :
  (if (length config <? 9)%nat then Done true
   else d0 ← idx config 0;
        if d0 <? 9 then Done true else d1 ← idx config 1; Done (negb (d1 =? 2)))
  = Done (negb (header_good config)).
Proof.
  unfold header_good. destruct (length config <? 9)%nat eqn:E.
  - apply Nat.ltb_lt in E. by rewrite (proj2 (Nat.leb_gt _ _)).
  - apply Nat.ltb_ge in E. rewrite (proj2 (Nat.leb_le _ _)) by done.
    rewrite (idx_at config 0), (idx_at config 1) by lia. cbn [mbind outcome_bind andb].
    rewrite Z.leb_antisym. by destruct (at_ config 0 <? 9).
Qed.

Lemma header_good_inv config :
  header_good config = true → (9 ≤ length config)%nat ∧ (9 ≤ Z.to_nat (at_ config 0))%nat ∧
  at_ config 1 = 2.
Proof.
  unfold header_good. intros [[H1%Nat.leb_le H2%Z.leb_le]%andb_true_iff H3%Z.eqb_eq]%andb_true_iff.
  lia.
Qed.

Lemma hide_uas_hidden config n segs :
  laid_out config n segs → (9 ≤ n)%nat →
  let out := take n config ++ seg_bytes (keep segs) in
  (out0 ← cut config (ranges n (mark segs <$> segs)) [] 0;
   let total := le_bytes 2 (wrap 16 (Z.of_nat (length out0))) in
   out1 ← copy_at out0 2 total;
   c2 ← idx config 2;
   c3 ← idx config 3;
   Done (out1, Some (le_to_Z [c2; c3], le_to_Z total)))
  = Done (with_total out,
          Some (le_to_Z [at_ config 2; at_ config 3], wrap 16 (Z.of_nat (length out)))).
Proof.
  intros [E Hle] Hn out. rewrite (cut_spec config n).
  2: { split; [by rewrite marked_bytes|done]. }
  2: lia.
  cbn [mbind outcome_bind]. rewrite Nat.sub_0_r, drop_0, app_nil_l, marked_kept.
  fold (keep segs) out. unfold copy_at. rewrite length_le_bytes.
  rewrite decide_True by (subst out; rewrite length_app, length_take; lia).
  cbn [mbind outcome_bind]. rewrite !idx_at by lia. cbn [mbind outcome_bind].
  rewrite le_to_Z_bytes, Z.mod_small by (apply (wrap_is_u 16); lia). done.
Qed.

Lemma hide_uas_spec config : hide_uas config = Done (hide_spec config).
Proof.
  unfold hide_uas, hide_spec. rewrite header_check. cbn [mbind outcome_bind].
  destruct (header_good config) eqn:Hg; [|done]. cbn [negb].
  apply header_good_inv in Hg as (H9 & Hn & _).
  rewrite (idx_at config 0) by lia. cbn [mbind outcome_bind].
  set (n := Z.to_nat (at_ config 0)) in *.
  rewrite scan_groups_split by lia. cbn [mbind outcome_bind].
  destruct (split_descs (S (length config)) (drop n config)) as [ds|] eqn:Es; [|done].
  cbn [fmap option_fmap option_map].
  apply split_descs_spec in Es as [Eb Hds].
  destruct (decide (n ≤ length config)%nat) as [Hle|Hgt].
  - destruct (hidden_groups_segments config n ds) as [Hl Hh]; [done|done| |].
    { eapply Forall_impl; [exact Hds|]. naive_solver. }
    rewrite Hh. cbn [mbind outcome_bind].
    pose proof (ranges_nil n (mark (segments ds None) <$> segments ds None)) as Hr.
    rewrite existsb_marked in Hr.
    destruct (existsb (hides (segments ds None)) (segments ds None)) eqn:Ex.
    + rewrite <- (hide_uas_hidden config n _ Hl Hn).
      destruct (ranges n (mark (segments ds None) <$> segments ds None)); [|done].
      naive_solver.
    + by rewrite (proj2 Hr).
  - rewrite drop_ge in Eb by lia. destruct ds as [|d ds]; [done|].
    apply Forall_cons in Hds as [[Hd _] _]. destruct d; simpl in *; [lia|done].
Qed.

(** C33: [hide_uas] computes its specification on every byte string: it never panics and terminates; it
    leaves malformed configurations and those without a UAS setting to hide unchanged; otherwise it
    removes exactly the segments of UAS alternate settings with a fallback, keeps all other bytes in
    order, patches [wTotalLength] and returns its old and new value. *)
Theorem hide_uas_refines config : hide_uas config = Done (hide_spec config).
Proof. apply hide_uas_spec. Qed.

Lemma hide_spec_unchanged config out : hide_spec config = (out, None) → out = config.
Proof. unfold hide_spec. repeat case_match; naive_solver. Qed.

(** ** The output is again a configuration with nothing to hide *)

(** Segments as lists of descriptors. *)
Notation dseg := (bool * list (list Z))%type.

Definition dflush (cur : option (list (list Z))) : list dseg :=
  match cur with Some g => [(true, g)] | None => [] end.

Fixpoint dsegments (ds : list (list Z)) (cur : option (list (list Z))) : list dseg :=
  match ds with
  | [] => dflush cur
  | d :: ds =>
    if at_ d 1 =? 4 then dflush cur ++ dsegments ds (Some [d])
    else if at_ d 1 =? 0x0b then dflush cur ++ (false, [d]) :: dsegments ds None
    else match cur with
         | Some g => dsegments ds (Some (g ++ [d]))
         | None => (false, [d]) :: dsegments ds None
         end
  end.

Definition flat (s : dseg) : seg := (s.1, concat s.2).

Lemma dsegments_flat ds cur :
  flat <$> dsegments ds cur = segments ds (@concat Z <$> cur).
Proof.
  revert cur. induction ds as [|d ds IH]; intros cur; simpl; [by destruct cur|].
  assert (flat <$> dflush cur = flush (@concat Z <$> cur)) as Hf by by destruct cur.
  destruct (at_ d 1 =? 4).
  { rewrite fmap_app, Hf, IH. simpl. by rewrite app_nil_r. }
  destruct (at_ d 1 =? 0x0b).
  { rewrite fmap_app, Hf. cbn [fmap list_fmap]. change (list_fmap _ _ flat _) with
      (flat <$> dsegments ds None). rewrite IH. unfold flat. simpl. by rewrite app_nil_r. }
  destruct cur as [g|]; simpl.
  - rewrite IH. simpl. rewrite concat_app. simpl. by rewrite app_nil_r.
  - change (list_fmap _ _ flat _) with (flat <$> dsegments ds None). rewrite IH.
    unfold flat. simpl. by rewrite app_nil_r.
Qed.

Definition plain (d : list Z) : Prop := at_ d 1 ≠ 4 ∧ at_ d 1 ≠ 0x0b.

(** Segment lists that grouping produces; [open]: the previous segment is an interface. *)
Fixpoint canon (open : bool) (l : list dseg) : Prop :=
  match l with
  | [] => True
  | (true, g) :: l =>
    (∃ d g', g = d :: g' ∧ at_ d 1 = 4 ∧ Forall plain g') ∧ canon true l
  | (false, g) :: l =>
    (∃ d, g = [d] ∧ at_ d 1 ≠ 4 ∧ (open = true → at_ d 1 = 0x0b)) ∧ canon false l
  end.

Lemma canon_closed open l : canon open l → canon false l.
Proof. destruct l as [|[[|] g] l]; simpl; naive_solver. Qed.

Definition interface_group (g : list (list Z)) : Prop :=
  ∃ d g', g = d :: g' ∧ at_ d 1 = 4 ∧ Forall plain g'.

Lemma interface_group_snoc g d : interface_group g → plain d → interface_group (g ++ [d]).
Proof.
  intros (d0 & g' & -> & H4 & Hg) Hd. exists d0, (g' ++ [d]). split; [done|]. split; [done|].
  apply Forall_app. auto.
Qed.

Lemma canon_dsegments ds cur :
  from_option interface_group True cur →
  ∀ open, (open = true → is_Some cur) → canon open (dsegments ds cur).
Proof.
  revert cur. induction ds as [|d ds IH]; intros cur Hcur open Ho; simpl.
  { destruct cur; simpl; auto. }
  assert (∀ l, canon (bool_decide (is_Some cur)) l → canon open (dflush cur ++ l)) as Hf.
  { intros l Hl. destruct cur as [g|]; simpl in *; [auto|].
    destruct open; [destruct Ho; done|done]. }
  destruct (at_ d 1 =? 4) eqn:E4; bool_props.
  { apply Hf, IH; [|by eauto]. exists d, []. done. }
  destruct (at_ d 1 =? 0x0b) eqn:Eb; bool_props.
  { apply Hf. simpl. split; [exists d; auto|]. apply IH; done. }
  destruct cur as [g|]; simpl.
  - apply IH; [|by eauto]. apply interface_group_snoc; [done|by split].
  - split; [|by apply IH]. exists d. split; [done|]. split; [done|].
    intros H%Ho. by destruct H.
Qed.

Lemma dsegments_plain g' rest g :
  Forall plain g' → dsegments (g' ++ rest) (Some g) = dsegments rest (Some (g ++ g')).
Proof.
  intros Hg. revert g. induction Hg as [|d g' [H4 Hb] _ IH]; intros g; simpl; [by rewrite app_nil_r|].
  apply Z.eqb_neq in H4, Hb. rewrite H4, Hb, IH. by rewrite <- app_assoc.
Qed.

(** Grouping the descriptors of a canonical segment list gives it back. *)
Lemma dsegments_canon l cur :
  canon (bool_decide (is_Some cur)) l → dsegments (concat l.*2) cur = dflush cur ++ l.
Proof.
  revert cur. induction l as [|[[|] g] l IH]; intros cur; simpl.
  - intros _. by rewrite app_nil_r.
  - intros [(d & g' & -> & H4 & Hg) Hl]. simpl. rewrite (proj2 (Z.eqb_eq _ _) H4).
    by rewrite dsegments_plain, IH by done.
  - intros [(d & -> & H4 & Ho) Hl]. simpl. rewrite (proj2 (Z.eqb_neq _ _) H4), IH by done.
    destruct (at_ d 1 =? 0x0b) eqn:Eb; [done|]. apply Z.eqb_neq in Eb.
    destruct cur; [|done]. by destruct Eb; apply Ho.
Qed.

(** Dropping interfaces keeps a segment list canonical. *)
Lemma canon_filter (P : dseg → Prop) `{!∀ s, Decision (P s)} open l :
  (∀ g, P (false, g)) → canon open l → canon open (base.filter P l).
Proof.
  intros HP. revert open. induction l as [|[[|] g] l IH]; intros open; simpl; [done|..].
  - intros [Hg Hl]. rewrite filter_cons. case_decide; simpl; [by auto|].
    apply IH in Hl. destruct open; [done|]. by eapply canon_closed.
  - intros [Hg Hl]. rewrite filter_cons_True by done. simpl. auto.
Qed.

Lemma split_descs_concat ds fuel :
  Forall (λ d, (2 ≤ length d)%nat ∧ Z.to_nat (at_ d 0) = length d) ds →
  (length (concat ds) < fuel)%nat → split_descs fuel (concat ds) = Some ds.
Proof.
  intros Hds. revert fuel. induction Hds as [|d ds [H2 Hd] _ IH]; intros fuel Hf; simpl.
  { by destruct fuel. }
  destruct fuel as [|fuel]; [lia|]. destruct d as [|x d]; [simpl in H2; lia|].
  change (at_ (x :: d) 0) with x in Hd. cbn [concat] in Hf. rewrite length_app in Hf.
  cbn [app split_descs]. rewrite Hd. change (x :: d ++ concat ds) with ((x :: d) ++ concat ds).
  rewrite length_app, (proj2 (Nat.ltb_ge _ _)), (proj2 (Nat.ltb_ge _ _)) by lia. simpl orb.
  cbn iota. rewrite take_app_length, drop_app_length, IH by lia. done.
Qed.

(** Whether a segment is hidden only depends on the interfaces of the configuration. *)
Lemma kept_not_hidden segs : existsb (hides (keep segs)) (keep segs) = false.
Proof.
  apply not_true_iff_false. intros (s & Hs & Hh)%existsb_exists.
  apply list_elem_of_In, list_elem_of_filter in Hs as [Hk Hs].
  enough (hides segs s = true) by congruence. unfold hides in *.
  destruct s.1; [|done]. destruct (uas_bytes s.2); [|done]. simpl in *.
  apply existsb_exists in Hh as (s' & Hs' & Hf). apply existsb_exists. exists s'. split; [|done].
  apply list_elem_of_In. apply list_elem_of_In, list_elem_of_filter in Hs'. by destruct Hs'.
Qed.

Lemma dsegments_concat ds cur : concat (dsegments ds cur).*2 = default [] cur ++ ds.
Proof.
  revert cur. induction ds as [|d ds IH]; intros cur; simpl.
  { by destruct cur. }
  assert (concat (dflush cur).*2 = default [] cur) as Hf
    by (destruct cur; simpl; [apply app_nil_r|done]).
  destruct (at_ d 1 =? 4); [by rewrite fmap_app, concat_app, Hf, IH|].
  destruct (at_ d 1 =? 0x0b); [rewrite fmap_app, concat_app, Hf; simpl; by rewrite IH|].
  destruct cur as [g|]; simpl; rewrite IH; simpl; by rewrite <- ?app_assoc.
Qed.

(** The segments of the bytes left by [keep] are those it kept. *)
Lemma segments_keep ds :
  Forall (λ d, (2 ≤ length d)%nat ∧ Z.to_nat (at_ d 0) = length d) ds →
  ∃ ds', seg_bytes (keep (segments ds None)) = concat ds' ∧
         segments ds' None = keep (segments ds None) ∧
         Forall (λ d, (2 ≤ length d)%nat ∧ Z.to_nat (at_ d 0) = length d) ds'.
Proof.
  intros Hds. pose (L := dsegments ds None).
  pose (L' := base.filter (λ s, hides (segments ds None) (flat s) = false) L).
  assert (flat <$> L = segments ds None) as HL by apply (dsegments_flat ds None).
  assert (flat <$> L' = keep (segments ds None)) as HL'.
  { transitivity (base.filter (λ s, hides (segments ds None) s = false) (flat <$> L));
      [|by rewrite HL]. unfold L'. generalize L. intros l.
    induction l as [|s l IH]; [done|]. cbn [fmap list_fmap]. rewrite !filter_cons.
    case_decide; [|done]. cbn [fmap list_fmap]. by f_equal. }
  assert (concat (concat L'.*2) = seg_bytes (flat <$> L')) as Hc.
  { unfold seg_bytes. generalize L'. intros l. induction l as [|s l IH]; [done|].
    cbn [fmap list_fmap concat]. rewrite concat_app. by f_equal. }
  exists (concat L'.*2). rewrite <- HL'. split; [done|]. split.
  - rewrite <- (dsegments_flat _ None). f_equal. rewrite dsegments_canon; [done|].
    apply canon_filter; [done|]. by apply canon_dsegments.
  - apply Forall_concat, Forall_fmap. apply Forall_forall.
    intros s [_ Hs]%list_elem_of_filter. revert s Hs. apply Forall_forall.
    apply Forall_fmap, Forall_concat. unfold L.
    by rewrite (dsegments_concat ds None).
Qed.

Lemma with_total_splice out :
  (4 ≤ length out)%nat →
  with_total out = take 2 out ++ le_bytes 2 (wrap 16 (Z.of_nat (length out))) ++ drop 4 out.
Proof. intros. unfold with_total, splice. by rewrite length_le_bytes. Qed.

Lemma length_with_total out : (4 ≤ length out)%nat → length (with_total out) = length out.
Proof. intros. apply length_splice. rewrite length_le_bytes. lia. Qed.

Lemma at_with_total out k : (4 ≤ length out)%nat → (k < 2)%nat → at_ (with_total out) k = at_ out k.
Proof.
  intros. rewrite with_total_splice by done. unfold at_.
  do 2 (destruct out as [|? out]; [simpl in *; lia|]). by destruct k as [|[|]]; [..|lia].
Qed.

Lemma drop_with_total out n : (4 ≤ n)%nat → (4 ≤ length out)%nat →
  drop n (with_total out) = drop n out.
Proof.
  intros. rewrite with_total_splice by done.
  rewrite drop_app_ge by (rewrite length_take; lia). rewrite length_take.
  rewrite drop_app_ge by (rewrite length_le_bytes; lia). rewrite length_le_bytes, drop_drop.
  f_equal. lia.
Qed.

(** What [hide_uas] changed, when it changed something. *)
Lemma hide_spec_changed config out r :
  hide_spec config = (out, Some r) →
  ∃ ds, let n := Z.to_nat (at_ config 0) in let segs := segments ds None in
    header_good config = true ∧ (n ≤ length config)%nat ∧ drop n config = concat ds ∧
    Forall (λ d, (2 ≤ length d)%nat ∧ Z.to_nat (at_ d 0) = length d) ds ∧
    existsb (hides segs) segs = true ∧
    out = with_total (take n config ++ seg_bytes (keep segs)) ∧
    r = (le_to_Z [at_ config 2; at_ config 3], wrap 16 (Z.of_nat (length out))).
Proof.
  unfold hide_spec. destruct (header_good config) eqn:Hg; [|done].
  pose proof (header_good_inv _ Hg) as (H9 & Hn & _).
  destruct (split_descs _ _) as [ds|] eqn:Es; [|done]. apply split_descs_spec in Es as [Eb Hds].
  destruct (existsb _ _) eqn:Ex; [|done]. intros [= <- <-]. exists ds. simpl.
  assert (Z.to_nat (at_ config 0) ≤ length config)%nat as Hle.
  { destruct (decide (Z.to_nat (at_ config 0) ≤ length config)%nat); [done|].
    rewrite drop_ge in Eb by lia. destruct ds as [|d ds]; [done|].
    apply Forall_cons in Hds as [[Hd _] _]. destruct d; simpl in *; [lia|done]. }
  do 6 (split; [done|]). rewrite length_with_total; [done|]. rewrite length_app, length_take. lia.
Qed.

(** Hiding is idempotent: the configuration [hide_uas] returns is again well formed and has nothing
    left to hide, so running it again changes nothing. *)
Theorem hide_uas_idempotent config out r :
  hide_uas config = Done (out, r) → hide_uas out = Done (out, None).
Proof.
  rewrite hide_uas_spec. intros [= H]. rewrite hide_uas_spec. f_equal.
  destruct r as [r|].
  2: { pose proof (hide_spec_unchanged _ _ H). by subst out. }
  apply hide_spec_changed in H as (ds & Hg & Hle & Eb & Hds & _ & -> & _).
  pose proof (header_good_inv _ Hg) as (H9 & Hn & H1).
  set (n := Z.to_nat (at_ config 0)) in *. set (segs := segments ds None).
  set (o := take n config ++ seg_bytes (keep segs)).
  assert (length (take n config) = n) as Ht by (rewrite length_take; lia).
  assert (9 ≤ length o)%nat as Ho by (unfold o; rewrite length_app; lia).
  assert (∀ k, (k < 2)%nat → at_ (with_total o) k = at_ config k) as Hat.
  { intros. rewrite at_with_total by lia. unfold o. unfold at_.
    rewrite app_nth1 by lia. apply at_take. lia. }
  destruct (segments_keep ds Hds) as (ds' & Ek & Es & Hds').
  unfold hide_spec, header_good. rewrite !Hat by lia. rewrite length_with_total by lia.
  rewrite H1, (proj2 (Nat.leb_le _ _)), (proj2 (Z.leb_le _ _)) by lia. simpl andb. cbn iota.
  fold n. rewrite drop_with_total by lia.
  assert (drop n o = concat ds') as -> by (unfold o; rewrite drop_app_length'; [|done]; exact Ek).
  rewrite split_descs_concat; [|done|].
  2: { rewrite <- Ek. unfold o. rewrite length_app. unfold segs. lia. }
  rewrite Es. by rewrite kept_not_hidden.
Qed.

(** A configuration with a bulk-only setting 0 and a UAS setting 1 of interface 0. *)
Definition uas_disk : list Z :=
  [9; 2; 35; 0; 1; 1; 0; 0x80; 50] ++
  [9; 4; 0; 0; 0; 8; 6; 0x50; 0] ++
  [9; 4; 0; 1; 0; 8; 6; 0x62; 0; 4; 0x24; 1; 0; 4; 0x24; 2; 0].

(** The same with the UAS setting gone. *)
Definition bot_disk : list Z :=
  [9; 2; 18; 0; 1; 1; 0; 0x80; 50] ++ [9; 4; 0; 0; 0; 8; 6; 0x50; 0].

Lemma hide_uas_idempotent_witness :
  hide_uas uas_disk = Done (bot_disk, Some (35, 18)) ∧ hide_uas bot_disk = Done (bot_disk, None).
Proof.
  split; [vm_compute; reflexivity|].
  apply (hide_uas_idempotent uas_disk bot_disk (Some (35, 18))). vm_compute. reflexivity.
Defined.

(** ** What is left of each interface *)

Lemma hides_inv segs s :
  hides segs s = true →
  s.1 = true ∧ uas_bytes s.2 = true ∧
  ∃ s', s' ∈ segs ∧ s'.1 = true ∧ falls_back (at_ s.2 2) s'.2 = true.
Proof.
  unfold hides. intros [H1 [H2 (s' & Hs' & [H3 H4]%andb_true_iff)%existsb_exists]%andb_true_iff]%andb_true_iff.
  apply list_elem_of_In in Hs'. eauto 10.
Qed.

Lemma falls_back_kept segs s n : falls_back n s.2 = true → hides segs s = false.
Proof.
  unfold falls_back. intros [_ Hu%negb_true_iff]%andb_true_iff.
  apply not_true_iff_false. intros (_ & Hu' & _)%hides_inv. congruence.
Qed.

(** Every setting is kept, or replaced by a kept setting of its interface that is not UAS. *)
Lemma keep_fallback segs s :
  s ∈ segs → s ∈ keep segs ∨
  (uas_bytes s.2 = true ∧
   ∃ s', s' ∈ keep segs ∧ s'.1 = true ∧ falls_back (at_ s.2 2) s'.2 = true).
Proof.
  intros Hs. destruct (hides segs s) eqn:Eh.
  - right. apply hides_inv in Eh as (_ & Hu & s' & Hs' & H1 & Hf). split; [done|].
    exists s'. split; [|done]. apply list_elem_of_filter. split; [|done].
    by eapply falls_back_kept.
  - left. by apply list_elem_of_filter.
Qed.

Lemma seg_bytes_filter (P : seg → Prop) `{!∀ s, Decision (P s)} segs :
  (length (seg_bytes (base.filter P segs)) ≤ length (seg_bytes segs))%nat.
Proof.
  induction segs as [|s segs IH]; [done|]. rewrite filter_cons.
  case_decide; rewrite !seg_bytes_cons, ?length_app; lia.
Qed.

Lemma seg_bytes_filter_lt (P : seg → Prop) `{!∀ s, Decision (P s)} segs s :
  s ∈ segs → ¬ P s → s.2 ≠ [] →
  (length (seg_bytes (base.filter P segs)) < length (seg_bytes segs))%nat.
Proof.
  intros Hs HP Hne. apply list_elem_of_split in Hs as (l1 & l2 & ->).
  rewrite filter_app, filter_cons_False, !seg_bytes_app, seg_bytes_cons, !length_app by done.
  pose proof (seg_bytes_filter P l1). pose proof (seg_bytes_filter P l2).
  destruct s.2; simpl; [done|lia].
Qed.

Lemma total_of out :
  (4 ≤ length out)%nat →
  le_to_Z [at_ (with_total out) 2; at_ (with_total out) 3] = wrap 16 (Z.of_nat (length out)).
Proof.
  intros H. rewrite with_total_splice by done.
  do 2 (destruct out as [|? out]; [simpl in H; lia|]).
  set (t := wrap 16 (Z.of_nat (length (z :: z0 :: out)))).
  change (le_to_Z (le_bytes 2 t) = t). rewrite le_to_Z_bytes. apply Z.mod_small.
  apply (wrap_is_u 16). lia.
Qed.

(** When [hide_uas] hides something, no interface disappears: the result's segments are a sublist of
    the original's in which every setting survives or, if it was UAS, a setting of the same interface
    that is not UAS does; the result is strictly shorter, and its [wTotalLength] holds its length
    (modulo 2^16), the value reported as new. *)
Theorem hide_uas_keeps_interfaces config out old new :
  hide_uas config = Done (out, Some (old, new)) →
  ∃ ds ds',
    drop (Z.to_nat (at_ config 0)) config = concat ds ∧
    drop (Z.to_nat (at_ config 0)) out = concat ds' ∧
    sublist (segments ds' None) (segments ds None) ∧
    (∀ s, s ∈ segments ds None → s ∈ segments ds' None ∨
       (uas_bytes s.2 = true ∧
        ∃ s', s' ∈ segments ds' None ∧ s'.1 = true ∧ falls_back (at_ s.2 2) s'.2 = true)) ∧
    (length out < length config)%nat ∧
    le_to_Z [at_ out 2; at_ out 3] = new ∧ new = wrap 16 (Z.of_nat (length out)) ∧
    old = le_to_Z [at_ config 2; at_ config 3].
Proof.
  rewrite hide_uas_spec. intros [= H].
  apply hide_spec_changed in H as (ds & Hg & Hle & Eb & Hds & Hx & Eo & [= -> ->]).
  pose proof (header_good_inv _ Hg) as (H9 & Hn & H1).
  destruct (segments_keep ds Hds) as (ds' & Ek & Es & Hds').
  set (n := Z.to_nat (at_ config 0)) in *. set (segs := segments ds None) in *.
  set (o := take n config ++ seg_bytes (keep segs)) in *.
  assert (length (take n config) = n) as Ht by (rewrite length_take; lia).
  assert (9 ≤ length o)%nat as Ho by (unfold o; rewrite length_app; lia).
  exists ds, ds'. split; [done|]. rewrite Es. subst out. rewrite length_with_total by lia.
  split; [rewrite drop_with_total by lia; unfold o; rewrite drop_app_length' by done; exact Ek|].
  split; [apply sublist_filter|]. split; [apply keep_fallback|].
  split; [|split; [apply total_of; lia|done]].
  assert (length config = n + length (seg_bytes segs))%nat as ->.
  { unfold segs. rewrite seg_bytes_segments. simpl. rewrite <- Eb, length_drop. lia. }
  unfold o. rewrite length_app, Ht. apply Nat.add_lt_mono_l.
  apply existsb_exists in Hx as (s & Hs%list_elem_of_In & Hh).
  apply (seg_bytes_filter_lt _ _ s); [done|congruence|].
  apply hides_inv in Hh as (_ & Hu & _). intros E. by rewrite E in Hu.
Qed.

Lemma hide_uas_keeps_interfaces_witness :
  ∃ ds ds',
    drop 9 uas_disk = concat ds ∧ drop 9 bot_disk = concat ds' ∧
    sublist (segments ds' None) (segments ds None) ∧ (length bot_disk < length uas_disk)%nat.
Proof.
  destruct (hide_uas_keeps_interfaces uas_disk bot_disk 35 18)
    as (ds & ds' & H1 & H2 & H3 & _ & H4 & _).
  { vm_compute. reflexivity. }
  exists ds, ds'. exact (conj H1 (conj H2 (conj H3 H4))).
Defined.

(** The result is never longer than the configuration. *)
Lemma hide_spec_length config : (length (hide_spec config).1 ≤ length config)%nat.
Proof.
  destruct (hide_spec config) as [out r] eqn:H. cbn. destruct r as [r|].
  2: by rewrite (hide_spec_unchanged _ _ H).
  apply hide_spec_changed in H as (ds & Hg & Hle & Eb & Hds & _ & -> & _).
  apply header_good_inv in Hg as (H9 & Hn & _).
  assert (length config = Z.to_nat (at_ config 0) + length (seg_bytes (segments ds None)))%nat as El.
  { rewrite seg_bytes_segments. simpl. rewrite <- Eb, length_drop. lia. }
  rewrite length_with_total; rewrite length_app, length_take; [|lia].
  pose proof (seg_bytes_filter (λ s, hides (segments ds None) s = false) (segments ds None)).
  unfold keep. lia.
Qed.
