(* ===== verification/HciFacts.v ===== *)
(** * HciFacts: the message format and the endpoint parser (src/src/hci.rs)

    Decoding of ring messages and doorbells against a reference encoder, the status table, the
    address pool as a set with lowest-free allocation, and the endpoint descriptor parser against a
    specification on descriptors. *)

From stdpp Require Import base tactics option list.
From S2P Require Import Prelude Protocol Hci.

(** ** Bit fields *)

Lemma land_bit x k : 0 ≤ k → (Z.land x (Z.shiftl 1 k) =? 0) = negb (Z.testbit x k).
Proof.
  intros Hk. destruct (Z.testbit x k) eqn:E; [apply Z.eqb_neq|apply Z.eqb_eq].
  - intros H. assert (Z.testbit (Z.land x (Z.shiftl 1 k)) k = false) as H'
      by (rewrite H; apply Z.bits_0).
    rewrite Z.land_spec, E, Z.shiftl_1_l, Z.pow2_bits_true in H' by lia. done.
  - apply Z.bits_inj_0. intros n. rewrite Z.land_spec, Z.shiftl_1_l.
    destruct (decide (n = k)) as [->|]; [by rewrite E|].
    rewrite Z.pow2_bits_false by lia. apply andb_false_r.
Qed.

Lemma land_mask x k : 0 ≤ k → Z.land x (Z.ones k) = wrap k x.
Proof. intros. by rewrite Z.land_ones. Qed.

Lemma wrap_shiftr w k x : 0 ≤ w → 0 ≤ k → wrap w (Z.shiftr x k) = x / 2 ^ k mod 2 ^ w.
Proof. intros. unfold wrap. by rewrite Z.shiftr_div_pow2 by lia. Qed.

(** ** Ring messages *)

(** A reference encoder: the fields of a message as the host controller lays them out. *)
Definition control_word (kind frame : Z) (asap no_response : bool) : Z :=
  kind + (Z.b2z no_response) * 2 ^ 14 + 2 ^ 15 + frame * 2 ^ 16 + (Z.b2z asap) * 2 ^ 24.

Definition raw_of (t : Transfer.t) : RawMessage.t :=
  match t with
  | Transfer.Setup bs =>
    RawMessage.mk (control_word message_type.SETUP_TRANSFER 0 false false) 0 (le_to_Z bs)
  | Transfer.Normal n => RawMessage.mk (control_word message_type.NORMAL_TRANSFER 0 false false) n 0
  | Transfer.Status => RawMessage.mk (control_word message_type.STATUS_TRANSFER 0 false false) 0 0
  | Transfer.Isochronous n frame =>
    RawMessage.mk (control_word message_type.ISOCHRONOUS_TRANSFER (default 0 frame)
                     (negb (bool_decide (is_Some frame))) false) n 0
  | Transfer.Link nr => RawMessage.mk (control_word message_type.LINK 0 false (negb nr)) 0 0
  | Transfer.Other kind => RawMessage.mk (control_word kind 0 false false) 0 0
  end.

(** The transfers a ring message can hold. *)
Definition transfer_wf (t : Transfer.t) : Prop :=
  match t with
  | Transfer.Setup bs => length bs = 8%nat ∧ bytes_ok bs
  | Transfer.Normal n => is_u 28 n
  | Transfer.Status => True
  | Transfer.Isochronous n frame => is_u 28 n ∧ from_option (is_u 8) True frame
  | Transfer.Link _ => True
  | Transfer.Other kind =>
    is_u 6 kind ∧ kind ∉ [message_type.SETUP_TRANSFER; message_type.NORMAL_TRANSFER;
      message_type.STATUS_TRANSFER; message_type.ISOCHRONOUS_TRANSFER; message_type.LINK]
  end.

Lemma control_word_fields kind frame asap nr d0 d1 :
  is_u 6 kind → is_u 8 frame →
  let m := RawMessage.mk (control_word kind frame asap nr) d0 d1 in
  RawMessage.message_type m = kind ∧ RawMessage.is_valid m = true ∧
  RawMessage.needs_response m = negb nr ∧
  (Z.land (RawMessage.control m) ISO_CONTROL_ASAP =? 0) = negb asap ∧
  wrap 8 (Z.shiftr (Z.land (RawMessage.control m) ISO_CONTROL_FRAME_MASK) ISO_CONTROL_FRAME_SHIFT)
    = frame.
Proof.
  intros Hk Hf m. unfold is_u in *. unfold RawMessage.message_type, RawMessage.is_valid,
    RawMessage.needs_response, CONTROL_VALID, CONTROL_NO_RESPONSE, ISO_CONTROL_ASAP.
  rewrite !land_bit by lia. change CONTROL_TYPE_MASK with (Z.ones 6).
  rewrite land_mask by lia. unfold ISO_CONTROL_FRAME_MASK, ISO_CONTROL_FRAME_SHIFT.
  rewrite Z.shiftr_land. change (Z.shiftr (Z.shiftl 255 16) 16) with (Z.ones 8).
  rewrite land_mask by lia. rewrite (wrap_id 8 (wrap 8 _)) by (apply wrap_is_u; lia).
  rewrite wrap_shiftr by lia. rewrite !Z.testbit_eqb by lia.
  unfold m, RawMessage.control, control_word, wrap.
  destruct asap, nr; cbn [Z.b2z negb]; repeat split;
    rewrite ?negb_involutive, ?negb_true_iff, ?negb_false_iff;
    first [apply Z.eqb_eq|apply Z.eqb_neq|idtac];
    rewrite <- ?Z.bit0_eqb; Z.div_mod_to_equations; lia.
Qed.

Lemma decode_control_word kind frame asap nr d0 d1 :
  is_u 6 kind → is_u 8 frame → is_u 28 d0 →
  Transfer.decode (RawMessage.mk (control_word kind frame asap nr) d0 d1) = Some (
    if kind =? message_type.SETUP_TRANSFER then Transfer.Setup (le_bytes 8 d1)
    else if kind =? message_type.NORMAL_TRANSFER then Transfer.Normal d0
    else if kind =? message_type.STATUS_TRANSFER then Transfer.Status
    else if kind =? message_type.ISOCHRONOUS_TRANSFER then
      Transfer.Isochronous d0 (if asap then None else Some frame)
    else if kind =? message_type.LINK then Transfer.Link (negb nr)
    else Transfer.Other kind).
Proof.
  intros Hk Hf Hd. destruct (control_word_fields kind frame asap nr d0 d1 Hk Hf)
    as (Ek & Ev & Er & Ea & Ef).
  unfold Transfer.decode. rewrite Ek, Ev, Er, Ea, Ef.
  assert (RawMessage.transfer_length (RawMessage.mk (control_word kind frame asap nr) d0 d1) = d0)
    as ->; [|by destruct asap].
  unfold RawMessage.transfer_length. change TRANSFER_LENGTH_MASK with (Z.ones 28).
  rewrite land_mask by lia. by apply wrap_id.
Qed.

Lemma is_u_true w x : (0 <=? x) && (x <? 2 ^ w) = true → is_u w x.
Proof. intros ?. bool_props. by split. Qed.

(** Every transfer a ring message can hold is decoded from its encoding. *)
Theorem transfer_decode_encode t : transfer_wf t → Transfer.decode (raw_of t) = Some t.
Proof.
  intros Hw. unfold raw_of.
  destruct t as [bs|n| |n [frame|]|nr|kind]; simpl in Hw; destruct_and?;
    rewrite decode_control_word; try assumption; try (by apply is_u_true); try done.
  - transitivity (Some (Transfer.Setup (le_bytes (length bs) (le_to_Z bs))));
      [by match goal with H : length bs = _ |- _ => rewrite H end|by rewrite le_bytes_to_Z].
  - cbn. by rewrite negb_involutive.
  - rewrite !not_elem_of_cons in *. destruct_and?.
    by repeat match goal with H : kind ≠ _ |- _ => apply Z.eqb_neq in H; rewrite H; clear H end.
Qed.

Lemma transfer_decode_encode_witness :
  Transfer.decode (raw_of (Transfer.Isochronous 192 (Some 7)))
  = Some (Transfer.Isochronous 192 (Some 7)).
Proof. apply (transfer_decode_encode (Transfer.Isochronous 192 (Some 7))). vm_compute. repeat split; congruence. Defined.

(** Every decoded transfer is one a message can hold: what the engine may assume of the ring. *)
Lemma transfer_decode_wf m t : Transfer.decode m = Some t → transfer_wf t.
Proof.
  unfold Transfer.decode. destruct (RawMessage.is_valid m); [|done]. intros [= <-].
  assert (is_u 28 (RawMessage.transfer_length m)).
  { unfold RawMessage.transfer_length. change TRANSFER_LENGTH_MASK with (Z.ones 28).
    rewrite land_mask by lia. apply wrap_is_u. lia. }
  assert (is_u 6 (RawMessage.message_type m)).
  { unfold RawMessage.message_type. change CONTROL_TYPE_MASK with (Z.ones 6).
    rewrite land_mask by lia. apply wrap_is_u. lia. }
  set (kind := RawMessage.message_type m) in *.
  destruct (kind =? message_type.SETUP_TRANSFER) eqn:?;
    [exact (conj (length_le_bytes 8 _) (le_bytes_ok 8 _))|].
  destruct (kind =? message_type.NORMAL_TRANSFER) eqn:?; [assumption|].
  destruct (kind =? message_type.STATUS_TRANSFER) eqn:?; [exact I|].
  destruct (kind =? message_type.ISOCHRONOUS_TRANSFER) eqn:?.
  { split; [done|]. destruct (_ =? 0); simpl; [apply wrap_is_u; lia|done]. }
  destruct (kind =? message_type.LINK) eqn:?; [exact I|]. bool_props.
  split; [done|]. rewrite !not_elem_of_cons. repeat split; try done. apply not_elem_of_nil.
Qed.

(** A doorbell splits into device, endpoint and stream, and nothing else: the three fields are in
    range and put the 32-bit word back together. *)
Theorem decode_doorbell_fields doorbell :
  is_u 32 doorbell →
  let '(device, endpoint, stream) := decode_doorbell doorbell in
  is_u 8 device ∧ is_u 8 endpoint ∧ is_u 16 stream ∧
  doorbell = device + endpoint * 2 ^ 8 + stream * 2 ^ 16.
Proof.
  intros [H1 H2]. unfold decode_doorbell. rewrite !wrap_shiftr by lia. unfold wrap, is_u.
  repeat split; Z.div_mod_to_equations; lia.
Qed.

Lemma decode_doorbell_fields_witness :
  decode_doorbell 0x00028105 = (5, 0x81, 2) ∧ 0x00028105 = 5 + 0x81 * 2 ^ 8 + 2 * 2 ^ 16.
Proof.
  assert (is_u 32 0x00028105) as H by (vm_compute; split; congruence).
  split; [reflexivity|]. exact (proj2 (proj2 (proj2 (decode_doorbell_fields _ H)))).
Defined.

(** ** Completion statuses *)

(** What each class of Linux error numbers becomes. *)
Definition errnos (s : Status.t) : list Z :=
  match s with
  | Status.Success => [0; 121; 18]
  | Status.StallError => [32]
  | Status.OverrunError => [75]
  | Status.ProtocolError => [71; 84]
  | Status.Timeout => [62; 110]
  | Status.Offline => [19; 108]
  | Status.EndpointStopped => [2; 104]
  | Status.TransactionError => [70; 63]
  | Status.Error => []
  end.

Lemma from_urb_status_listed e :
  e ∉ [0; 121; 18; 32; 75; 71; 84; 62; 110; 19; 108; 2; 104; 70; 63] →
  match e with
  | 0 => Status.Success
  | 121 | 18 => Status.Success
  | 32 => Status.StallError
  | 75 => Status.OverrunError
  | 71 | 84 => Status.ProtocolError
  | 62 | 110 => Status.Timeout
  | 19 | 108 => Status.Offline
  | 2 | 104 => Status.EndpointStopped
  | 70 | 63 => Status.TransactionError
  | _ => Status.Error
  end = Status.Error.
Proof.
  intros H. repeat (done || case_match); subst; exfalso; apply H; by apply (bool_decide_unpack _).
Qed.

Lemma neg_i32_neg s : is_i 32 s → s ≠ - 2 ^ 31 → Status.neg_i32 s = - s.
Proof.
  unfold Status.neg_i32, swrap, wrap. intros [? ?] ?. case_match; bool_props;
    Z.div_mod_to_equations; lia.
Qed.

(** The status table on every 32-bit status but the most negative: a status is reported as [s]
    exactly when it is the negation of one of [s]'s error numbers, and as [Error] otherwise. *)
Theorem from_urb_status_spec status s :
  is_i 32 status → status ≠ - 2 ^ 31 →
  Status.from_urb_status status = s ↔
  - status ∈ errnos s ∨
  (s = Status.Error ∧
   - status ∉ [0; 121; 18; 32; 75; 71; 84; 62; 110; 19; 108; 2; 104; 70; 63]).
Proof.
  intros Hi Hn. unfold Status.from_urb_status. rewrite neg_i32_neg by done.
  generalize (- status). clear. intros e.
  destruct (decide (e ∈ [0; 121; 18; 32; 75; 71; 84; 62; 110; 19; 108; 2; 104; 70; 63])) as [He|He].
  - rewrite !elem_of_cons, elem_of_nil in He.
    destruct_or?; subst; try done; destruct s; by apply (bool_decide_unpack _).
  - rewrite from_urb_status_listed by done. split; [intros <-; auto|].
    intros [Hs|[-> _]]; [|done]. exfalso. apply He. revert Hs.
    destruct s; cbn; rewrite !elem_of_cons, elem_of_nil; tauto.
Qed.

Lemma from_urb_status_spec_witness : - (-32) ∈ errnos Status.StallError.
Proof.
  destruct (from_urb_status_spec (-32) Status.StallError) as [H _];
    [vm_compute; split; congruence|lia|].
  destruct (H eq_refl) as [?|[? _]]; [done|congruence].
Defined.

(** [-status] does not fit when the wire carries the most negative status. *)
Lemma from_urb_status_overflow : ¬ is_i 32 (- (- 2 ^ 31)).
Proof. unfold is_i. lia. Qed.

(** ** The address pool as a set *)

Module PoolFacts.
Import AddressPool.

(** [a] is allocated. *)
Definition taken (p : t) (a : Z) : Prop := Z.testbit (used p) a = true.

#[global] Instance taken_dec p a : Decision (taken p a).
Proof. unfold taken. apply _. Defined.

(** Only device addresses are ever taken; in particular [used] fits in 128 bits. *)
Definition wf (p : t) : Prop := 0 ≤ used p ∧ ∀ a, taken p a → 1 ≤ a < 128.

Lemma wf_default : wf default.
Proof. split; [done|]. intros a. unfold taken. cbn. by rewrite Z.bits_0. Qed.

Lemma wf_u128 p : wf p → is_u 128 (used p).
Proof.
  intros [H0 Ht]. split; [done|]. destruct (decide (used p = 0)) as [->|Hn]; [done|].
  apply Z.log2_lt_pow2; [lia|]. apply (Ht (Z.log2 (used p))). apply Z.bit_log2. lia.
Qed.

Lemma taken_or p a b :
  0 ≤ a → taken (mk (Z.lor (used p) (Z.shiftl 1 a))) b ↔ b = a ∨ taken p b.
Proof.
  intros Ha. unfold taken. cbn [used]. rewrite Z.lor_spec, Z.shiftl_1_l, Z.pow2_bits_eqb by done.
  destruct (Z.testbit (used p) b); simpl; rewrite ?Z.eqb_eq; naive_solver.
Qed.

Lemma free_bit p a : 0 ≤ a → (Z.land (used p) (Z.shiftl 1 a) =? 0) = negb (bool_decide (taken p a)).
Proof.
  intros Ha. rewrite land_bit by done. f_equal.
  symmetry. destruct (Z.testbit (used p) a) eqn:E.
  - by apply bool_decide_eq_true.
  - apply bool_decide_eq_false. unfold taken. congruence.
Qed.

Lemma allocate_Some p a p' :
  allocate p = Some (a, p') →
  1 ≤ a < 128 ∧ ¬ taken p a ∧ (∀ b, 1 ≤ b < a → taken p b) ∧
  p' = mk (Z.lor (used p) (Z.shiftl 1 a)).
Proof.
  unfold allocate. intros (x & Hf & [= -> <-])%bind_Some.
  apply find_first_Some in Hf as (l1 & l2 & E & Hp & Hl).
  assert (a = 1 + Z.of_nat (length l1)) as Ea.
  { assert (seqZ 1 127 !! length l1 = Some a) as Hi by (rewrite E; by apply list_lookup_middle).
    apply lookup_seqZ in Hi. lia. }
  assert (length l1 < 127)%nat as Hlt.
  { apply (f_equal length) in E. rewrite length_app, length_seqZ in E. simpl in E. lia. }
  rewrite free_bit in Hp by lia. split; [lia|]. split; [by apply negb_true_iff, bool_decide_eq_false in Hp|].
  split; [|done]. intros b Hb.
  assert (l1 !! Z.to_nat (b - 1) = Some b) as Hi.
  { rewrite <- (lookup_app_l l1 (a :: l2)), <- E by lia. apply lookup_seqZ. lia. }
  apply (Forall_lookup_1 _ _ _ _ Hl) in Hi. rewrite free_bit in Hi by lia.
  by apply negb_false_iff, bool_decide_eq_true in Hi.
Qed.

Lemma allocate_props p :
  wf p →
  match allocate p with
  | Some (a, p') =>
    1 ≤ a < 128 ∧ ¬ taken p a ∧ (∀ b, 1 ≤ b < a → taken p b) ∧
    wf p' ∧ is_u 128 (used p') ∧ ∀ b, taken p' b ↔ b = a ∨ taken p b
  | None => ∀ a, 1 ≤ a < 128 ↔ taken p a
  end.
Proof.
  intros Hw. destruct (allocate p) as [[a p']|] eqn:E.
  - apply allocate_Some in E as (Ha & Hn & Hb & ->).
    assert (wf (mk (Z.lor (used p) (Z.shiftl 1 a)))) as Hw'.
    { split; [|intros b [->|Hbt]%taken_or; [done|by apply Hw|lia]].
      cbn. apply Z.lor_nonneg. split; [apply Hw|]. rewrite Z.shiftl_1_l. lia. }
    do 3 (split; [done|]). split; [done|]. split; [by apply wf_u128|].
    intros b. apply taken_or. lia.
  - intros a. split; [|apply Hw]. intros Ha. unfold allocate in E.
    apply bind_None in E as [E|(? & _ & [=])].
    apply find_first_None in E. rewrite Forall_forall in E.
    specialize (E a). rewrite free_bit in E by lia.
    apply (bool_decide_eq_true (taken p a)), negb_false_iff, E, elem_of_seqZ. lia.
Qed.

(** Allocation from a well-formed pool: the lowest address of 1..127 that is not taken, which becomes
    taken, everything else staying as it was; it fails exactly when all of 1..127 are taken. *)
Theorem allocate_spec p :
  wf p →
  match allocate p with
  | Some (a, p') =>
    1 ≤ a < 128 ∧ ¬ taken p a ∧ (∀ b, 1 ≤ b < a → taken p b) ∧
    wf p' ∧ is_u 128 (used p') ∧ ∀ b, taken p' b ↔ b = a ∨ taken p b
  | None => ∀ a, 1 ≤ a < 128 ↔ taken p a
  end.
Proof. apply allocate_props. Qed.

Lemma allocate_spec_witness :
  ∃ p', allocate (mk 22) = Some (3, p') ∧ ∀ b, taken p' b ↔ b = 3 ∨ taken (mk 22) b.
Proof.
  assert (wf (mk 22)) as Hw.
  { split; [done|]. intros a. unfold taken. cbn [used]. intros Ht.
    destruct (decide (a < 0)); [by rewrite Z.testbit_neg_r in Ht|].
    destruct (decide (5 ≤ a)) as [H5|]; [rewrite (Z.bits_above_log2 22 a) in Ht; [done|done|cbn; lia]|].
    destruct (decide (a = 0)) as [->|]; [done|lia]. }
  exists (mk 30). pose proof (allocate_spec (mk 22) Hw) as H.
  split; [reflexivity|]. exact (proj2 (proj2 (proj2 (proj2 (proj2 H))))).
Defined.

Lemma release_props p a :
  wf p → is_u 8 a → wf (release p a) ∧ ∀ b, taken (release p a) b ↔ taken p b ∧ b ≠ a.
Proof.
  intros Hw [Ha _].
  assert (∀ b, taken (release p a) b ↔ taken p b ∧ b ≠ a) as Ht.
  { intros b. unfold release. destruct (a <? 128) eqn:E; bool_props.
    2: { split; [|naive_solver]. intros H. split; [done|]. apply Hw in H. lia. }
    unfold taken at 1. cbn [used]. rewrite Z.land_spec. unfold not_u128.
    rewrite Z.lxor_spec, Z.shiftl_1_l, Z.pow2_bits_eqb by lia.
    rewrite andb_true_iff. split; intros [Hb Hx].
    - split; [done|]. intros ->. rewrite Z.eqb_refl, Z.ones_spec_low in Hx; [done|lia].
    - split; [done|]. apply not_eq_sym in Hx. apply Hw in Hb.
      rewrite (proj2 (Z.eqb_neq a b)), Z.ones_spec_low by (done || lia). done. }
  split; [|done]. split.
  - unfold release. case_match; [|apply Hw]. apply Z.land_nonneg. left. apply Hw.
  - intros b [Hb _]%Ht. by apply Hw.
Qed.

(** Releasing an address of a well-formed pool frees exactly that address, and does nothing for
    numbers that are no device address. *)
Theorem release_spec p a :
  wf p → is_u 8 a → wf (release p a) ∧ ∀ b, taken (release p a) b ↔ taken p b ∧ b ≠ a.
Proof. apply release_props. Qed.

Lemma release_spec_witness : taken (release (mk 2) 1) 1 ↔ taken (mk 2) 1 ∧ 1 ≠ 1.
Proof.
  apply (release_spec (mk 2) 1).
  - split; [done|]. intros a. unfold taken. cbn [used]. intros Ht.
    destruct (decide (a < 0)); [by rewrite Z.testbit_neg_r in Ht|].
    destruct (decide (2 ≤ a)); [rewrite (Z.bits_above_log2 2 a) in Ht; [done|done|cbn; lia]|].
    destruct (decide (a = 0)) as [->|]; [done|lia].
  - by apply is_u_true.
Defined.

End PoolFacts.

(** ** The endpoint descriptor parser *)

Module ParseFacts.
Import EndpointInfo.

(** A standard endpoint descriptor, read field by field. *)
Definition endpoint_of (d : list Z) : option t :=
  if (7 <=? length d)%nat && (at_ d 1 =? 5) then
    Some (mk (match Z.land (at_ d 3) 0x03 with
              | 0 => EndpointKind.Control
              | 1 => EndpointKind.Isochronous
              | 2 => EndpointKind.Bulk
              | _ => EndpointKind.Interrupt
              end) (le_to_Z [at_ d 4; at_ d 5]) (at_ d 6))
  else None.

(** The bytes from the first endpoint descriptor on. *)
Fixpoint first_endpoint (fuel : nat) (bs : list Z) : option (list Z) :=
  match fuel, bs with
  | S fuel, l :: k :: _ =>
    if 2 <=? l then if k =? 5 then Some bs else first_endpoint fuel (drop (Z.to_nat l) bs)
    else None
  | _, _ => None
  end.

Definition is_config (desc : list Z) : bool :=
  (4 <=? length desc)%nat && (2 <=? at_ desc 0) && (at_ desc 1 =? 2).

Definition parse_spec (desc : list Z) : option t :=
  if is_config desc then
    let total := (Z.to_nat (le_to_Z [at_ desc 2; at_ desc 3]) `min` length desc)%nat in
    first_endpoint (S (length desc)) (drop (Z.to_nat (at_ desc 0)) (take total desc)) ≫= endpoint_of
  else endpoint_of desc.

Lemma first_endpoint_is fuel bs d :
  first_endpoint fuel bs = Some d → (2 ≤ length d)%nat ∧ at_ d 1 = 5.
Proof.
  revert bs. induction fuel as [|fuel IH]; intros bs; [by destruct bs|].
  destruct bs as [|l [|k bs]]; simpl; [done..|].
  case_match; [|done]. case_match; [|apply IH]. intros [= <-]. bool_props. simpl. auto with lia.
Qed.

(** Two levels of the recursion are enough: an endpoint descriptor is not a configuration. *)
Lemma parse_at_endpoint depth d :
  (2 ≤ length d)%nat → at_ d 1 = 5 → parse_at (S depth) d = Done (endpoint_of d).
Proof.
  intros H2 H5. cbn [parse_at]. unfold endpoint_of. rewrite H5.
  rewrite (idx_at d 0), (idx_at d 1), H5 by lia. cbn [mbind outcome_bind].
  transitivity (if (length d <? 7)%nat then Done None else
    d3 ← idx d 3; d4 ← idx d 4; d5 ← idx d 5; d6 ← idx d 6;
    Done (Some (mk (match Z.land d3 0x03 with
                    | 0 => EndpointKind.Control
                    | 1 => EndpointKind.Isochronous
                    | 2 => EndpointKind.Bulk
                    | _ => EndpointKind.Interrupt
                    end) (le_to_Z [d4; d5]) d6))).
  { by destruct (4 <=? length d)%nat, (2 <=? at_ d 0). }
  rewrite Nat.ltb_antisym. destruct (7 <=? length d)%nat eqn:E; [|done]. apply Nat.leb_le in E.
  cbn [negb andb]. rewrite !idx_at by lia. done.
Qed.

Lemma walk_spec depth fuel desc total i :
  (total ≤ length desc)%nat → (total - i < fuel)%nat →
  walk (parse_at (S depth)) fuel desc total i
  = Done (first_endpoint fuel (drop i (take total desc)) ≫= endpoint_of).
Proof.
  intros Ht. revert i. induction fuel as [|fuel IH]; intros i Hf; [lia|]. cbn [walk].
  assert (length (take total desc) = total) as Hl by (rewrite length_take; lia).
  destruct (i + 2 <=? total)%nat eqn:E; [apply Nat.leb_le in E|apply Nat.leb_gt in E].
  2: { destruct (drop i (take total desc)) as [|l [|k bs]] eqn:Ed; [done..|].
       apply (f_equal length) in Ed. rewrite length_drop in Ed. simpl in Ed. lia. }
  assert (drop i (take total desc) =
    at_ desc i :: at_ desc (i + 1) :: drop (S (S i)) (take total desc)) as Ed.
  { rewrite (drop_S _ (at_ desc i) i), (drop_S _ (at_ desc (i + 1)) (S i)); [done|..].
    - rewrite <- Nat.add_1_r, <- (at_take desc total) by lia. apply at_lookup. lia.
    - rewrite <- (at_take desc total i) by lia. apply at_lookup. lia. }
  rewrite !idx_at by lia. cbn [mbind outcome_bind]. rewrite Ed. cbn [first_endpoint].
  rewrite <- Ed. destruct (2 <=? at_ desc i) eqn:E2; [|done]. apply Z.leb_le in E2.
  destruct (at_ desc (i + 1) =? 5) eqn:E5; bool_props.
  - unfold get_range. rewrite decide_True by lia. rewrite <- skipn_firstn_comm.
    rewrite parse_at_endpoint; [done|rewrite length_drop; lia|].
    by rewrite at_drop, at_take by lia.
  - rewrite IH by lia. by rewrite drop_drop.
Qed.

Lemma parse_eq desc : parse desc = Done (parse_spec desc).
Proof.
  unfold parse, parse_spec, is_config. cbn [parse_at].
  destruct (4 <=? length desc)%nat eqn:E4; [apply Nat.leb_le in E4|apply Nat.leb_gt in E4].
  - rewrite !(idx_at desc 0), !(idx_at desc 1) by lia. cbn [mbind outcome_bind andb].
    destruct (2 <=? at_ desc 0); cbn [mbind outcome_bind andb].
    1: destruct (at_ desc 1 =? 2) eqn:E2.
    + rewrite (idx_at desc 2), (idx_at desc 3) by lia. cbn [mbind outcome_bind].
      apply (walk_spec 0). all: lia.
    + cbn [negb]. unfold endpoint_of. rewrite Nat.ltb_antisym.
      destruct (7 <=? length desc)%nat eqn:E7; [|done]. apply Nat.leb_le in E7. cbn [negb andb].
      rewrite !idx_at by lia. by destruct (at_ desc 1 =? 5).
    + unfold endpoint_of. rewrite Nat.ltb_antisym.
      destruct (7 <=? length desc)%nat eqn:E7; [|done]. apply Nat.leb_le in E7. cbn [negb andb].
      rewrite !idx_at by lia. by destruct (at_ desc 1 =? 5).
  - cbn [mbind outcome_bind andb]. unfold endpoint_of.
    by rewrite (proj2 (Nat.ltb_lt _ 7)), (proj2 (Nat.leb_gt 7 _)) by lia.
Qed.

(** C40: The parser returns on every byte string (no index is out of range, the walk and the recursion
    terminate), and its result is the first endpoint descriptor inside the configuration's
    [wTotalLength], or the descriptor itself when it is not a configuration. *)
Theorem parse_refines desc : parse desc = Done (parse_spec desc).
Proof. apply parse_eq. Qed.

(** A standard endpoint descriptor. *)
Definition encode_endpoint (address attributes max_packet interval : Z) : list Z :=
  [7; 5; address; attributes] ++ le_bytes 2 max_packet ++ [interval].

Definition config_header (total : Z) (rest : list Z) : list Z := [9; 2] ++ le_bytes 2 total ++ rest.

Lemma first_endpoint_skip fuel ds rest :
  Forall (λ d, (2 ≤ length d)%nat ∧ at_ d 0 = Z.of_nat (length d) ∧ at_ d 1 ≠ 5) ds →
  (length ds < fuel)%nat → 2 ≤ at_ rest 0 → at_ rest 1 = 5 → (2 ≤ length rest)%nat →
  first_endpoint fuel (concat ds ++ rest) = Some rest.
Proof.
  intros Hd. revert fuel. induction Hd as [|d ds (H2 & H0 & H1) _ IH]; intros fuel Hf Hr H5 Hl;
    (destruct fuel as [|fuel]; [simpl in Hf; lia|]); cbn [concat app first_endpoint].
  - destruct rest as [|l [|k rest]]; [simpl in *; lia..|]. change (at_ _ 1) with k in H5.
    change (at_ _ 0) with l in Hr. subst k. by rewrite (proj2 (Z.leb_le _ _)) by lia.
  - assert (∃ k d', d = Z.of_nat (length d) :: k :: d' ∧ k ≠ 5) as (k & d' & E & Hk).
    { destruct d as [|l [|k d]]; [simpl in H2; lia..|]. change (at_ _ 0) with l in H0.
      change (at_ _ 1) with k in H1. exists k, d. by rewrite <- H0. }
    rewrite <- app_assoc. rewrite E at 1. cbn [app].
    rewrite (proj2 (Z.leb_le _ _)), (proj2 (Z.eqb_neq _ _) Hk) by lia.
    rewrite Nat2Z.id, drop_app_length.
    apply IH; [simpl in Hf; lia|done..].
Qed.

(** What macOS passes for an endpoint: the first endpoint descriptor of a configuration is found
    behind any other descriptors and read back field by field, whatever follows it. *)
Theorem parse_config_endpoint header ds address attributes max_packet interval rest total :
  length header = 5%nat →
  Forall (λ d, (2 ≤ length d)%nat ∧ at_ d 0 = Z.of_nat (length d) ∧ at_ d 1 ≠ 5) ds →
  is_u 16 max_packet → is_u 16 total →
  (9 + length (concat ds) + 7 ≤ Z.to_nat total)%nat →
  parse (config_header total header ++ concat ds
         ++ encode_endpoint address attributes max_packet interval ++ rest)
  = Done (Some (mk (match Z.land attributes 0x03 with
                    | 0 => EndpointKind.Control
                    | 1 => EndpointKind.Isochronous
                    | 2 => EndpointKind.Bulk
                    | _ => EndpointKind.Interrupt
                    end) max_packet interval)).
Proof.
  intros Hh Hds Hm Ht Hlen. rewrite parse_eq. f_equal. unfold parse_spec.
  set (ep := encode_endpoint address attributes max_packet interval).
  destruct header as [|h0 [|h1 [|h2 [|h3 [|h4 [|]]]]]]; try done.
  set (desc := config_header total [h0; h1; h2; h3; h4] ++ concat ds ++ ep ++ rest).
  assert (length desc = 9 + (length (concat ds) + (7 + length rest)))%nat as Hdl
    by (unfold desc; by rewrite !length_app).
  assert (is_config desc = true) as ->.
  { unfold is_config. rewrite (proj2 (Nat.leb_le 4 _)) by lia. done. }
  assert (le_to_Z [at_ desc 2; at_ desc 3] = total) as ->.
  { change (le_to_Z (le_bytes 2 total) = total). rewrite le_to_Z_bytes. by apply Z.mod_small. }
  set (n := (Z.to_nat total `min` length desc)%nat). change (Z.to_nat (at_ desc 0)) with 9%nat.
  assert (drop 9 (take n desc) = concat ds ++ ep ++ take (n - (9 + length (concat ds) + 7)) rest)
    as ->.
  { rewrite skipn_firstn_comm. change (drop 9 desc) with (concat ds ++ ep ++ rest).
    rewrite !take_app. change (length ep) with 7%nat.
    rewrite !take_ge by (change (length ep) with 7%nat; lia). do 3 f_equal. lia. }
  rewrite first_endpoint_skip; [|exact Hds| |done|done|simpl; lia].
  2: { enough (length ds ≤ length (concat ds))%nat by lia. clear -Hds.
       induction Hds as [|d ds [? _] _ IH]; simpl; [done|]. rewrite length_app. lia. }
  cbn [mbind option_bind]. unfold endpoint_of, ep, encode_endpoint. cbn -[le_to_Z le_bytes Z.land].
  do 2 f_equal. change (le_to_Z (le_bytes 2 max_packet) = max_packet).
  rewrite le_to_Z_bytes. by apply Z.mod_small.
Qed.

Lemma parse_config_endpoint_witness :
  parse (config_header 25 [1; 1; 0; 0x80; 50] ++ concat [[9; 4; 0; 0; 1; 3; 1; 1; 0]]
         ++ encode_endpoint 0x81 3 8 10 ++ [])
  = Done (Some (mk EndpointKind.Interrupt 8 10)).
Proof.
  apply (parse_config_endpoint [1; 1; 0; 0x80; 50] [[9; 4; 0; 0; 1; 3; 1; 1; 0]] 0x81 3 8 10 [] 25);
    try by apply is_u_true.
  - done.
  - repeat constructor; cbn; lia.
  - cbn. lia.
Defined.

(** The URB interval is one Linux accepts: 0 for bulk and control endpoints, between 1 and 2^15 for
    periodic ones: a power of two at high speed and above and for isochronous endpoints, the number of
    frames otherwise. *)
Theorem urb_interval_range e speed :
  is_u 8 (b_interval e) →
  match kind e with
  | EndpointKind.Bulk | EndpointKind.Control => urb_interval e speed = 0
  | EndpointKind.Isochronous =>
    ∃ n, 0 ≤ n ≤ 15 ∧ urb_interval e speed = 2 ^ n ∧ (1 ≤ b_interval e ≤ 16 → n = b_interval e - 1)
  | EndpointKind.Interrupt =>
    1 ≤ urb_interval e speed ≤ 2 ^ 15 ∧
    (speed = Speed.Low ∨ speed = Speed.Full → urb_interval e speed = Z.max 1 (b_interval e))
  end.
Proof.
  intros Hb. unfold is_u in Hb. unfold urb_interval.
  destruct (kind e); try done.
  - exists (Z.min (Z.max (b_interval e) 1) 16 - 1). rewrite !Z.shiftl_1_l.
    split; [lia|]. split; [by destruct speed|]. lia.
  - assert (1 ≤ Z.shiftl 1 (Z.min (Z.max (b_interval e) 1) 16 - 1) ≤ 2 ^ 15) as Hp.
    { rewrite Z.shiftl_1_l. split.
      - change 1 with (2 ^ 0) at 1. apply Z.pow_le_mono_r; lia.
      - apply Z.pow_le_mono_r; lia. }
    destruct speed; (split; [exact Hp || lia|]); intros [|]; (done || lia).
Qed.

Lemma urb_interval_range_witness :
  1 ≤ urb_interval (mk EndpointKind.Interrupt 8 0) Speed.Full ≤ 2 ^ 15.
Proof. apply (urb_interval_range (mk EndpointKind.Interrupt 8 0)). by apply is_u_true. Defined.

End ParseFacts.
