(* ===== verification/UnitTests.v ===== *)
(** * UnitTests: the unit tests of src/src/hci.rs, run on the model

    Each test is the program it is: it builds descriptors, calls [hide_uas] and compares.  That they pass on
    the model ties [Hci.hide_uas] to what the authors ran. *)

From stdpp Require Import base tactics option list.
From S2P Require Import Prelude Wire Protocol Hci.

Module UasTests.

Definition interface (number alt endpoints protocol : Z) : list Z :=
  [9; 4; number; alt; endpoints; 0x08; 0x06; protocol; 0].

Definition config (body : list Z) : list Z :=
  let total := wrap 16 (9 + Z.of_nat (length body)) in
  [9; 2; wrap 8 total; wrap 8 (Z.shiftr total 8); 1; 1; 0; 0x80; 50] ++ body.

(** [hide_uas(&mut d); assert_eq!(d, expected)] *)
Definition becomes (d expected : list Z) : outcome bool :=
  '(d, _) ← hide_uas d; Done (bool_decide (d = expected)).

Definition hides_uas_when_bulk_only_is_there : outcome bool :=
  let bot := concat [interface 0 0 2 0x50; [7; 5; 0x81; 2; 0; 4; 0]; [6; 0x30; 15; 0; 0; 0]] in
  let uas := concat [interface 0 1 4 0x62; [7; 5; 0x81; 2; 0; 4; 0]; [6; 0x30; 15; 5; 0; 0]; [4; 0x24; 3; 0]] in
  becomes (config (concat [bot; uas])) (config bot).

Definition keeps_a_uas_only_interface : outcome bool :=
  let original := config (concat [interface 0 0 4 0x62; [7; 5; 0x81; 2; 0; 4; 0]]) in
  becomes original original.

Definition leaves_other_interfaces_and_short_reads_alone : outcome bool :=
  let body := concat [interface 0 0 2 0x50; interface 0 1 4 0x62; [9; 4; 1; 0; 1; 3; 0; 0; 0];
                      [7; 5; 0x83; 3; 8; 0; 4]] in
  let expected := config (concat [interface 0 0 2 0x50; [9; 4; 1; 0; 1; 3; 0; 0; 0]; [7; 5; 0x83; 3; 8; 0; 4]]) in
  whole ← becomes (config body) expected;
  header ← slice (config body) 0 9;
  short ← becomes header header;
  Done (whole && short).

Lemma uas_tests_pass :
  hides_uas_when_bulk_only_is_there = Done true ∧ keeps_a_uas_only_interface = Done true ∧
  leaves_other_interfaces_and_short_reads_alone = Done true.
Proof. split_and!; vm_compute; reflexivity. Qed.

End UasTests.
