(* ===== verification/Engine.v ===== *)
(** * Engine: from endpoint rings to URBs and back (src/src/engine.rs)

    [Ring] is the trait of the file and [SessionOps] what it uses of the session; both are classes,
    so that the theorems hold for every ring and every session that keeps their laws.  [Engine.t]
    holds the session, the state behind the mutex, the warning flag and the spawned tasks, each of
    which waits for a reply channel and then calls [finish].  All operations run on one serial
    executor, so they are functions of [Engine.t]. *)

From stdpp Require Import base tactics option list gmap fin_maps.
From S2P Require Import Prelude Protocol Hci Session.

(** ** The ring of an endpoint *)

(** Between two completions the observers read the same ring. *)
Class Ring (R : Type) := {
  active : R → bool;
  current : R → Z * option Transfer.t;
  peek : nat → R → option (Z * Transfer.t);
  read : nat → nat → R → list Z;
  ring_complete : Status.t → list Z → Z → R → bool * R;
}.

(** ** What the engine uses of the session *)

Class SessionOps (S : Type) := {
  session_submit : SubmitRequest.t → S → outcome (result TransferError (Z * chan) * S);
  session_unlink : Z → S → outcome S;
  session_speed : S → Speed.t;
}.

Notation EndpointKey := (Z * Z)%type (only parsing).

Definition depth (kind : EndpointKind.t) : nat :=
  match kind with
  | EndpointKind.Isochronous => 32
  | EndpointKind.Bulk => 8
  | EndpointKind.Control | EndpointKind.Interrupt => 1
  end.

Module Stage.

Inductive t : Type := ControlData | ControlStatus | Normal | Isochronous.

#[global] Instance eq_dec : EqDecision t.
Proof. solve_decision. Defined.

End Stage.

Module InFlight.

Record t : Type := mk {
  token : Z;
  message : Z;
  stage : Stage.t;
  direction : Direction.t;
  length : Z;
  seqnum : Z;
  unlinking : bool;
  result : option TransferResult;
}.

Definition set_unlinking (f : t) : t :=
  mk (token f) (message f) (stage f) (direction f) (length f) (seqnum f) true (result f).
Definition set_result (r : TransferResult) (f : t) : t :=
  mk (token f) (message f) (stage f) (direction f) (length f) (seqnum f) (unlinking f) (Some r).

(** [f.result.is_none()] *)
Definition unresolved (f : t) : bool := match result f with None => true | Some _ => false end.

End InFlight.

Module Setup.

Record t : Type := mk { bytes : list Z; data_done : bool }.

End Setup.

Module Endpoint.

Record t (R : Type) : Type := mk {
  ring : R;
  info : EndpointInfo.t;
  in_flight : list InFlight.t;
  setup : option Setup.t;
  hidden_config : option (Z * Z);
}.
#[global] Arguments mk {R} ring info in_flight setup hidden_config.
#[global] Arguments ring {R} t.
#[global] Arguments info {R} t.
#[global] Arguments in_flight {R} t.
#[global] Arguments setup {R} t.
#[global] Arguments hidden_config {R} t.

Section Setters.
Context {R : Type}.

Definition set_ring (r : R) (e : t R) : t R :=
  mk r (info e) (in_flight e) (setup e) (hidden_config e).
Definition set_info (i : EndpointInfo.t) (e : t R) : t R :=
  mk (ring e) i (in_flight e) (setup e) (hidden_config e).
Definition set_in_flight (l : list InFlight.t) (e : t R) : t R :=
  mk (ring e) (info e) l (setup e) (hidden_config e).
Definition set_setup (s : option Setup.t) (e : t R) : t R :=
  mk (ring e) (info e) (in_flight e) s (hidden_config e).
Definition set_hidden_config (h : option (Z * Z)) (e : t R) : t R :=
  mk (ring e) (info e) (in_flight e) (setup e) h.

End Setters.

End Endpoint.

(** A spawned task: it waits for [chan] and then runs [finish(key, token, result)]. *)
Record waiter : Type := mk_waiter { w_key : EndpointKey; w_token : Z; w_chan : chan }.

Inductive Flow : Type := FlowContinue | FlowStop | FlowOffline.

Inductive Next : Type :=
| NextContinue
| NextStop
| NextSubmit (req : SubmitRequest.t) (stage : Stage.t).

Definition error_status (e : TransferError) : Status.t :=
  match e with
  | Disconnected _ => Status.Offline
  | Unlinked _ => Status.EndpointStopped
  | InvalidRequest _ => Status.Error
  end.

(** [SubmitRequest::new] with some fields set. *)
Definition set_setup_bytes (setup : list Z) (r : SubmitRequest.t) : SubmitRequest.t :=
  SubmitRequest.mk (SubmitRequest.ep r) (SubmitRequest.direction r) (SubmitRequest.transfer_flags r)
    (SubmitRequest.length r) setup (SubmitRequest.data r) (SubmitRequest.start_frame r)
    (SubmitRequest.interval r) (SubmitRequest.iso_packets r).
Definition set_data (data : list Z) (r : SubmitRequest.t) : SubmitRequest.t :=
  SubmitRequest.mk (SubmitRequest.ep r) (SubmitRequest.direction r) (SubmitRequest.transfer_flags r)
    (SubmitRequest.length r) (SubmitRequest.setup r) data (SubmitRequest.start_frame r)
    (SubmitRequest.interval r) (SubmitRequest.iso_packets r).
Definition set_interval (interval : Z) (r : SubmitRequest.t) : SubmitRequest.t :=
  SubmitRequest.mk (SubmitRequest.ep r) (SubmitRequest.direction r) (SubmitRequest.transfer_flags r)
    (SubmitRequest.length r) (SubmitRequest.setup r) (SubmitRequest.data r)
    (SubmitRequest.start_frame r) interval (SubmitRequest.iso_packets r).
Definition set_start_frame (frame : Z) (r : SubmitRequest.t) : SubmitRequest.t :=
  SubmitRequest.mk (SubmitRequest.ep r) (SubmitRequest.direction r) (SubmitRequest.transfer_flags r)
    (SubmitRequest.length r) (SubmitRequest.setup r) (SubmitRequest.data r) frame
    (SubmitRequest.interval r) (SubmitRequest.iso_packets r).
Definition add_flags (flags : Z) (r : SubmitRequest.t) : SubmitRequest.t :=
  SubmitRequest.mk (SubmitRequest.ep r) (SubmitRequest.direction r)
    (Z.lor (SubmitRequest.transfer_flags r) flags) (SubmitRequest.length r) (SubmitRequest.setup r)
    (SubmitRequest.data r) (SubmitRequest.start_frame r) (SubmitRequest.interval r)
    (SubmitRequest.iso_packets r).
Definition set_iso_packets (l : list IsoPacketDescriptor.t) (r : SubmitRequest.t) : SubmitRequest.t :=
  SubmitRequest.mk (SubmitRequest.ep r) (SubmitRequest.direction r) (SubmitRequest.transfer_flags r)
    (SubmitRequest.length r) (SubmitRequest.setup r) (SubmitRequest.data r)
    (SubmitRequest.start_frame r) (SubmitRequest.interval r) l.

(** ** Completing the head message *)

Section Completion.
Context {R : Type} `{RG : Ring R}.

Definition complete (ep : Endpoint.t R) (status : Status.t) (data : list Z) (len : Z) :
    bool * Endpoint.t R :=
  let '(ok, r) := ring_complete status data len (Endpoint.ring ep) in (ok, Endpoint.set_ring r ep).

(** The status, data and length of a URB result, for the flight it belongs to. *)
Definition outcome_of (flight : InFlight.t) (result : TransferResult) : Status.t * list Z * Z :=
  match result with
  | Ok ret =>
    let '(status, actual) :=
      match InFlight.stage flight, head (RetSubmit.iso_packets ret) with
      | Stage.Isochronous, Some p =>
        (Status.from_urb_status (IsoPacketDescriptor.status p), IsoPacketDescriptor.actual_length p)
      | _, _ => (Status.from_urb_status (RetSubmit.status ret), RetSubmit.actual_length ret)
      end in
    let len := Z.min actual (InFlight.length flight) in
    (status, take (Z.to_nat len) (RetSubmit.data ret), len)
  | Err e => (error_status e, [], 0)
  end.

(** [s.bytes[..2] == [0x80, 0x06] && s.bytes[3] == 2] *)
Definition is_get_config (s : Setup.t) : bool :=
  bool_decide (take 2 (Setup.bytes s) = [0x80; 0x06]) && (at_ (Setup.bytes s) 3 =? 2).

(** The [ControlData] arm: the endpoint, the warning flag, the data and the length. *)
Definition control_data (ep : Endpoint.t R) (uas_warned : bool) (data : list Z) (len : Z) :
    outcome (Endpoint.t R * bool * list Z * Z) :=
  let ep := Endpoint.set_setup
              ((λ s, Setup.mk (Setup.bytes s) true) <$> Endpoint.setup ep) ep in
  if from_option is_get_config false (Endpoint.setup ep) then
    '(data, totals) ← hide_uas data;
    '(ep, uas_warned, data) ←
      match totals with
      | Some totals => Done (Endpoint.set_hidden_config (Some totals) ep, true, data)
      | None =>
        match Endpoint.hidden_config ep with
        | Some (original, hidden) =>
          if (4 <=? length data)%nat then
            here ← slice data 2 4;
            if bool_decide (here = le_bytes 2 original) then
              data ← copy_at data 2 (le_bytes 2 hidden);
              Done (ep, uas_warned, data)
            else Done (ep, uas_warned, data)
          else Done (ep, uas_warned, data)
        | None => Done (ep, uas_warned, data)
        end
      end;
    Done (ep, uas_warned, data, Z.min len (wrap 32 (Z.of_nat (length data))))
  else Done (ep, uas_warned, data, len).

Definition apply (ep : Endpoint.t R) (flight : InFlight.t) (uas_warned : bool) :
    outcome (Flow * Endpoint.t R * bool) :=
  match InFlight.result flight with
  | None => Panic
  | Some result =>
    let '(status, data, len) := outcome_of flight result in
    let data := if bool_decide (InFlight.direction flight = Direction.In) then data else [] in
    '(ep, uas_warned, data, len) ←
      match InFlight.stage flight with
      | Stage.ControlData => control_data ep uas_warned data len
      | Stage.ControlStatus => Done (Endpoint.set_setup None ep, uas_warned, data, len)
      | Stage.Normal | Stage.Isochronous => Done (ep, uas_warned, data, len)
      end;
    let '(ok, ep) := complete ep status data len in
    Done (match ok, status with
          | false, _ => FlowStop
          | true, Status.Offline => FlowOffline
          | true, _ => FlowContinue
          end, ep, uas_warned)
  end.

End Completion.

(** ** The engine *)

Module Engine.

Record t (S R : Type) : Type := mk {
  session : S;
  endpoints : gmap EndpointKey (Endpoint.t R);
  next_token : Z;
  uas_warned : bool;
  waiters : list waiter;
}.
#[global] Arguments mk {S R} session endpoints next_token uas_warned waiters.
#[global] Arguments session {S R} t.
#[global] Arguments endpoints {S R} t.
#[global] Arguments next_token {S R} t.
#[global] Arguments uas_warned {S R} t.
#[global] Arguments waiters {S R} t.

Section Setters.
Context {S R : Type}.

Definition set_session (s : S) (e : t S R) : t S R :=
  mk s (endpoints e) (next_token e) (uas_warned e) (waiters e).
Definition set_endpoints (m : gmap EndpointKey (Endpoint.t R)) (e : t S R) : t S R :=
  mk (session e) m (next_token e) (uas_warned e) (waiters e).
Definition set_uas_warned (b : bool) (e : t S R) : t S R :=
  mk (session e) (endpoints e) (next_token e) b (waiters e).

(** Writing back an endpoint changed through [get_mut]. *)
Definition put (key : EndpointKey) (ep : Endpoint.t R) (e : t S R) : t S R :=
  set_endpoints (<[key := ep]> (endpoints e)) e.

End Setters.

End Engine.

Section Operations.
Context {R : Type} `{RG : Ring R} {S : Type} `{SO : SessionOps S}.

Notation engine := (Engine.t S R).

Definition new (session : S) : engine := Engine.mk session ∅ 0 false [].

(** [unlink_all] *)
Fixpoint unlink_flights (in_flight : list InFlight.t) (s : S) : outcome S :=
  match in_flight with
  | [] => Done s
  | f :: in_flight =>
    s ← (if InFlight.unresolved f then session_unlink (InFlight.seqnum f) s else Done s);
    unlink_flights in_flight s
  end.

Definition unlink_all (in_flight : list InFlight.t) (e : engine) : outcome engine :=
  s ← unlink_flights in_flight (Engine.session e);
  Done (Engine.set_session s e).

Definition add_endpoint (key : EndpointKey) (info : EndpointInfo.t) (ring : R) (e : engine) :
    outcome engine :=
  let old := Engine.endpoints e !! key in
  let e := Engine.put key (Endpoint.mk ring info [] None None) e in
  match old with
  | Some old => unlink_all (Endpoint.in_flight old) e
  | None => Done e
  end.

Definition update_endpoint (key : EndpointKey) (info : EndpointInfo.t) (e : engine) : engine :=
  match Engine.endpoints e !! key with
  | Some ep => Engine.put key (Endpoint.set_info info ep) e
  | None => e
  end.

Definition remove_endpoint (key : EndpointKey) (e : engine) : outcome engine :=
  let removed := Engine.endpoints e !! key in
  let e := Engine.set_endpoints (delete key (Engine.endpoints e)) e in
  match removed with
  | Some ep => unlink_all (Endpoint.in_flight ep) e
  | None => Done e
  end.

(** [for ep in removed { self.unlink_all(ep.in_flight) }] *)
Fixpoint unlink_removed (removed : list (Endpoint.t R)) (e : engine) : outcome engine :=
  match removed with
  | [] => Done e
  | ep :: removed => e ← unlink_all (Endpoint.in_flight ep) e; unlink_removed removed e
  end.

(** The device's endpoints are visited in the map's order, which Rust leaves unspecified. *)
Definition remove_device (device : Z) (e : engine) : outcome engine :=
  let keys := base.filter (λ k, k.1 = device) ((map_to_list (Engine.endpoints e)).*1) in
  let removed := omap (λ k, Engine.endpoints e !! k) keys in
  let e := Engine.set_endpoints (foldl (λ m k, delete k m) (Engine.endpoints e) keys) e in
  unlink_removed removed e.

Definition reset_endpoint (key : EndpointKey) (e : engine) : outcome engine :=
  match Engine.endpoints e !! key with
  | None => Done e
  | Some ep =>
    unlink_all (Endpoint.in_flight ep)
      (Engine.put key (Endpoint.set_in_flight [] (Endpoint.set_setup None ep)) e)
  end.

(** The loop of [pause_endpoint] over the URBs in flight. *)
Fixpoint pause_flights (in_flight : list InFlight.t) (s : S) : outcome (list InFlight.t * S) :=
  match in_flight with
  | [] => Done ([], s)
  | f :: in_flight =>
    '(f, s) ←
      (if InFlight.unresolved f && negb (InFlight.unlinking f) then
         s ← session_unlink (InFlight.seqnum f) s; Done (InFlight.set_unlinking f, s)
       else Done (f, s));
    '(in_flight, s) ← pause_flights in_flight s;
    Done (f :: in_flight, s)
  end.

Definition pause_endpoint (key : EndpointKey) (e : engine) : outcome engine :=
  if (Z.land key.2 0x80 =? 0) || (Z.land key.2 0x7f =? 0) then Done e
  else
    match Engine.endpoints e !! key with
    | None => Done e
    | Some ep =>
      '(in_flight, s) ← pause_flights (Endpoint.in_flight ep) (Engine.session e);
      Done (Engine.set_session s (Engine.put key (Endpoint.set_in_flight in_flight ep) e))
    end.

Definition sync_endpoint (key : EndpointKey) (e : engine) : outcome engine :=
  match Engine.endpoints e !! key with
  | None => Done e
  | Some ep =>
    let head := (current (Endpoint.ring ep)).1 in
    match Endpoint.in_flight ep with
    | f :: _ =>
      if negb (InFlight.message f =? head) then
        unlink_all (Endpoint.in_flight ep) (Engine.put key (Endpoint.set_in_flight [] ep) e)
      else Done e
    | [] => Done e
    end
  end.

Definition has_endpoint (key : EndpointKey) (e : engine) : bool :=
  bool_decide (is_Some (Engine.endpoints e !! key)).

Definition in_flight (key : EndpointKey) (e : engine) : option Z :=
  ep ← Engine.endpoints e !! key;
  f ← find_first InFlight.unresolved (Endpoint.in_flight ep);
  Some (InFlight.seqnum f).

Definition in_flight_count (key : EndpointKey) (e : engine) : nat :=
  match Engine.endpoints e !! key with
  | Some ep => length (Endpoint.in_flight ep)
  | None => 0
  end.

(** *** Requests *)

Definition control_request (ep : Endpoint.t R) (setup : list Z) (len : Z) : SubmitRequest.t :=
  let direction := if negb (Z.land (at_ setup 0) 0x80 =? 0) then Direction.In else Direction.Out in
  let req := set_setup_bytes setup (SubmitRequest.new 0 direction len) in
  if bool_decide (direction = Direction.Out)
  then set_data (read 0 (Z.to_nat len) (Endpoint.ring ep)) req else req.

Definition data_request (speed : Speed.t) (ep : Endpoint.t R) (key : EndpointKey) (ahead : nat)
    (transfer : Transfer.t) : option (SubmitRequest.t * Stage.t) :=
  let direction := Direction.of_endpoint key.2 in
  let interval := EndpointInfo.urb_interval (Endpoint.info ep) speed in
  match transfer with
  | Transfer.Normal len =>
    let req := set_interval interval (SubmitRequest.new key.2 direction len) in
    let req := if bool_decide (direction = Direction.Out)
               then set_data (read ahead (Z.to_nat len) (Endpoint.ring ep)) req else req in
    Some (req, Stage.Normal)
  | Transfer.Isochronous len frame =>
    let req := SubmitRequest.new key.2 direction len in
    let req := if bool_decide (direction = Direction.Out)
               then set_data (read ahead (Z.to_nat len) (Endpoint.ring ep)) req else req in
    let req := match frame with
               | Some frame => set_start_frame frame req
               | None => add_flags URB_ISO_ASAP req
               end in
    let req := set_interval (Z.max interval 1) req in
    let req := set_iso_packets [IsoPacketDescriptor.mk 0 len 0 0] req in
    Some (req, Stage.Isochronous)
  | _ => None
  end.

Definition continue_if (r : bool * Endpoint.t R) : Next * Endpoint.t R :=
  (if r.1 then NextContinue else NextStop, r.2).

Definition head_request (speed : Speed.t) (ep : Endpoint.t R) (key : EndpointKey)
    (transfer : Transfer.t) : Next * Endpoint.t R :=
  let control := Z.land key.2 0x7f =? 0 in
  match transfer, control with
  | Transfer.Setup bytes, true =>
    continue_if (complete (Endpoint.set_setup (Some (Setup.mk bytes false)) ep) Status.Success [] 0)
  | Transfer.Normal len, true =>
    match Endpoint.setup ep with
    | Some setup =>
      if negb (Setup.data_done setup) then
        let w_length := le_to_Z [at_ (Setup.bytes setup) 6; at_ (Setup.bytes setup) 7] in
        let len := Z.min len w_length in
        (NextSubmit (control_request ep (Setup.bytes setup) len) Stage.ControlData, ep)
      else continue_if (complete ep Status.Error [] 0)
    | None => continue_if (complete ep Status.Error [] 0)
    end
  | Transfer.Status, true =>
    match Endpoint.setup ep with
    | Some setup =>
      if negb (Setup.data_done setup) then
        (NextSubmit (control_request ep (Setup.bytes setup) 0) Stage.ControlStatus, ep)
      else continue_if (complete (Endpoint.set_setup None ep) Status.Success [] 0)
    | None => continue_if (complete (Endpoint.set_setup None ep) Status.Success [] 0)
    end
  | Transfer.Link needs_response, _ =>
    if needs_response then continue_if (complete ep Status.Success [] 0) else (NextStop, ep)
  | (Transfer.Normal _ | Transfer.Isochronous _ _) as t, false =>
    match data_request speed ep key 0 t with
    | Some (req, stage) => (NextSubmit req stage, ep)
    | None => (NextStop, ep)
    end
  | _, _ => continue_if (complete ep Status.Error [] 0)
  end.

(** *** Submitting and pumping *)

(** [u64], incremented for every URB *)
Definition next_u64 (token : Z) : Z := wrap 64 (token + 1).

(** [pump] is [self.pump(state, key)]. *)
Definition submit (pump : engine → outcome engine) (key : EndpointKey) (message : Z)
    (req : SubmitRequest.t) (stage : Stage.t) (e : engine) : outcome (bool * engine) :=
  let token := Engine.next_token e in
  match Engine.endpoints e !! key with
  | None => Panic
  | Some ep =>
    '(reply, s) ← session_submit req (Engine.session e);
    match reply with
    | Ok (seqnum, c) =>
      let f := InFlight.mk token message stage (SubmitRequest.direction req)
                 (SubmitRequest.length req) seqnum false None in
      let ep := Endpoint.set_in_flight (Endpoint.in_flight ep ++ [f]) ep in
      Done (true, Engine.mk s (<[key := ep]> (Engine.endpoints e)) (next_u64 token)
                    (Engine.uas_warned e) (Engine.waiters e ++ [mk_waiter key token c]))
    | Err err =>
      let e := Engine.set_session s e in
      match Endpoint.in_flight ep with
      | [] =>
        let status := error_status err in
        let '(ok, ep) := complete ep status [] 0 in
        let e := Engine.put key ep e in
        if ok && negb (bool_decide (status = Status.Offline)) then
          e ← pump e; Done (false, e)
        else Done (false, e)
      | _ :: _ => Done (false, e)
      end
    end
  end.

Fixpoint fill (pump : engine → outcome engine) (fuel : nat) (key : EndpointKey) (e : engine) :
    outcome engine :=
  match fuel with
  | O => OutOfFuel
  | Datatypes.S fuel =>
    match Engine.endpoints e !! key with
    | None => Done e
    | Some ep =>
      let ahead := length (Endpoint.in_flight ep) in
      if (ahead =? 0)%nat || (depth (EndpointInfo.kind (Endpoint.info ep)) <=? ahead)%nat
         || existsb (λ f, negb (InFlight.unresolved f)) (Endpoint.in_flight ep)
      then Done e
      else
        match peek ahead (Endpoint.ring ep) with
        | None => Done e
        | Some (message, transfer) =>
          match data_request (session_speed (Engine.session e)) ep key ahead transfer with
          | None => Done e
          | Some (req, stage) =>
            '(submitted, e) ← submit pump key message req stage e;
            if submitted : bool then fill pump fuel key e else Done e
          end
        end
    end
  end.

(** [depth] is at most 32, and every turn adds a URB. *)
Definition FILL_FUEL : nat := 33.

Fixpoint pump_loop (fuel : nat) (offline : bool) (key : EndpointKey) (e : engine) : outcome engine :=
  match fuel with
  | O => OutOfFuel
  | Datatypes.S fuel =>
    let pump := pump_loop fuel false key in
    match Engine.endpoints e !! key with
    | None => Done e
    | Some ep =>
      if negb (active (Endpoint.ring ep)) then Done e
      else
        let '(head, transfer) := current (Endpoint.ring ep) in
        match Endpoint.in_flight ep with
        | front :: rest =>
          if negb (InFlight.message front =? head) then
            e ← unlink_all (front :: rest) (Engine.put key (Endpoint.set_in_flight [] ep) e);
            pump_loop fuel offline key e
          else if negb (InFlight.unresolved front) then
            '(flow, ep, uas_warned) ← apply (Endpoint.set_in_flight rest ep) front
                                        (Engine.uas_warned e);
            let e := Engine.put key ep (Engine.set_uas_warned uas_warned e) in
            match flow with
            | FlowContinue => pump_loop fuel offline key e
            | FlowOffline => pump_loop fuel true key e
            | FlowStop => Done e
            end
          else if negb offline then fill pump FILL_FUEL key e
          else Done e
        | [] =>
          match transfer with
          | None => Done e
          | Some transfer =>
            if offline : bool then Done e
            else
              let '(next, ep) := head_request (session_speed (Engine.session e)) ep key transfer in
              let e := Engine.put key ep e in
              match next with
              | NextContinue => pump_loop fuel offline key e
              | NextStop => Done e
              | NextSubmit req stage =>
                '(submitted, e) ← submit pump key head req stage e;
                if submitted : bool then fill pump FILL_FUEL key e else Done e
              end
          end
        end
    end
  end.

(** [pump]; [messages] bounds the messages the host has queued on the endpoint's ring. *)
Definition pump (messages : nat) (key : EndpointKey) (e : engine) : outcome engine :=
  pump_loop (Datatypes.S (Datatypes.S (2 * messages))) false key e.

Definition doorbell (messages : nat) (key : EndpointKey) (e : engine) : outcome engine :=
  pump messages key e.

Definition finish (messages : nat) (key : EndpointKey) (token : Z) (result : TransferResult)
    (e : engine) : outcome engine :=
  match Engine.endpoints e !! key with
  | None => Done e
  | Some ep =>
    match position (λ f, InFlight.token f =? token) (Endpoint.in_flight ep) with
    | None => Done e
    | Some index =>
      f ← idx (Endpoint.in_flight ep) index;
      if InFlight.unlinking f && match result with Err (Unlinked _) => true | _ => false end then
        let stale := tail (drop index (Endpoint.in_flight ep)) in
        e ← unlink_all stale
              (Engine.put key (Endpoint.set_in_flight (take index (Endpoint.in_flight ep)) ep) e);
        pump messages key e
      else
        pump messages key
          (Engine.put key
             (Endpoint.set_in_flight
                (<[index := InFlight.set_result result f]> (Endpoint.in_flight ep)) ep) e)
    end
  end.

(** *** Resetting the device *)

Definition reset_request : SubmitRequest.t :=
  set_setup_bytes PORT_RESET_SETUP (SubmitRequest.new 0 Direction.Out 0).

(** [await]: how waiting for the reply ends, [None] when it times out. *)
Definition reset_device (await : chan → option TransferResult) (e : engine) :
    outcome (result TransferError () * engine) :=
  '(reply, s) ← session_submit reset_request (Engine.session e);
  let e := Engine.set_session s e in
  match reply with
  | Err err => Done (Err err, e)
  | Ok (_, c) =>
    match await c with
    | None => Done (Err (Disconnected DeviceResetTimedOut), e)
    | Some (Err err) => Done (Err err, e)
    | Some (Ok ret) =>
      if RetSubmit.status ret =? 0 then Done (Ok tt, e)
      else Done (Err (InvalidRequest (DeviceResetFailed (RetSubmit.status ret))), e)
    end
  end.

End Operations.
