(* ===== verification/EngineFacts.v ===== *)
(** * EngineFacts: the engine's loops end, and run as a state machine (src/src/engine.rs)

    [RingLaws] and [SessionLaws] are what the engine relies on.  [pump] returns for every endpoint
    whose queued messages it is given as a bound, and its runs are sequences of the small steps
    [pstep], on which invariants are proved; they end [settled], unless the ring or the session
    refuses. *)

From stdpp Require Import base tactics option list gmap fin_maps relations.
From S2P Require Import Prelude Protocol Hci HideUas Session Engine.

(** While one operation runs, the host queues nothing: every completed message leaves fewer. *)
Class RingLaws (R : Type) {RG : Ring R} := {
  queued : R → nat;
  complete_queued status data len r r' :
    ring_complete status data len r = (true, r') → (queued r' < queued r)%nat;
}.

(** The session's operations return while there is room; an accepted request takes one place. *)
Class SessionLaws (S : Type) {SO : SessionOps S} := {
  good : S → Prop;
  room : S → Z;
  submit_returns req s : good s → 0 < room s →
    ∃ x s', session_submit req s = Done (x, s') ∧ good s' ∧
      room s - (if is_ok x then 1 else 0) ≤ room s';
  unlink_returns seqnum s : good s → 0 < room s →
    ∃ s', session_unlink seqnum s = Done s' ∧ good s' ∧ room s ≤ room s';
  submit_speed req s x s' : session_submit req s = Done (x, s') → session_speed s' = session_speed s;
  unlink_speed seqnum s s' : session_unlink seqnum s = Done s' → session_speed s' = session_speed s;
}.

(** ** Applying a result *)

Section Apply.
Context {R : Type} {RG : Ring R}.

(** What the [ControlData] stage makes of the data and the length. *)
Lemma control_data_returns (ep : Endpoint.t R) warned data len :
  ∃ ep' warned' data' len', control_data ep warned data len = Done (ep', warned', data', len') ∧
    Endpoint.ring ep' = Endpoint.ring ep ∧ Endpoint.info ep' = Endpoint.info ep ∧
    Endpoint.in_flight ep' = Endpoint.in_flight ep ∧
    (length data' ≤ length data)%nat ∧ (len' ≤ len) ∧
    (Z.of_nat (length data) ≤ len → Z.of_nat (length data') < 2 ^ 32 → Z.of_nat (length data') ≤ len').
Proof.
  unfold control_data. set (ep1 := Endpoint.set_setup _ ep).
  destruct (from_option is_get_config false _).
  2: { exists ep1, warned, data, len. repeat split; lia. }
  rewrite hide_uas_spec. cbn [mbind outcome_bind].
  pose proof (hide_spec_length data) as Hl. destruct (hide_spec data) as [data1 totals].
  cbn [fst] in Hl.
  assert (∀ d : list Z, Z.of_nat (length d) < 2 ^ 32 → wrap 32 (Z.of_nat (length d)) = Z.of_nat (length d))
    as Hw by (intros; apply wrap_id; split; lia).
  destruct totals as [totals|].
  { cbn [mbind outcome_bind]. eexists _, _, _, _. split; [done|]. repeat split; try done; try lia.
    intros H1 H2. rewrite Hw by done. lia. }
  destruct (Endpoint.hidden_config ep1) as [[original hidden]|].
  2: { cbn [mbind outcome_bind]. eexists _, _, _, _. split; [done|]. repeat split; try done; try lia.
       intros H1 H2. rewrite Hw by done. lia. }
  destruct (4 <=? length data1)%nat eqn:E4; [apply Nat.leb_le in E4|].
  2: { cbn [mbind outcome_bind]. eexists _, _, _, _. split; [done|]. repeat split; try done; try lia.
       intros H1 H2. rewrite Hw by done. lia. }
  rewrite slice_done by lia. cbn [mbind outcome_bind].
  case_bool_decide.
  - unfold copy_at. rewrite length_le_bytes, decide_True by lia. cbn [mbind outcome_bind].
    eexists _, _, _, _. split; [done|]. rewrite length_splice by (rewrite length_le_bytes; lia).
    repeat split; try done; try lia. intros H1 H2. rewrite Hw by done. lia.
  - eexists _, _, _, _. split; [done|]. repeat split; try done; try lia.
    intros H1 H2. rewrite Hw by done. lia.
Qed.

(** The completion a finished URB leads to. *)
Definition completes (ep : Endpoint.t R) (st : Status.t) (data : list Z) (len : Z) (ok : bool)
    (ep' : Endpoint.t R) : Prop :=
  ring_complete st data len (Endpoint.ring ep) = (ok, Endpoint.ring ep') ∧
  Endpoint.info ep' = Endpoint.info ep ∧ Endpoint.in_flight ep' = Endpoint.in_flight ep.

Lemma complete_completes ep st data len ok ep' :
  complete ep st data len = (ok, ep') → completes ep st data len ok ep'.
Proof.
  unfold complete, completes. destruct (ring_complete st data len (Endpoint.ring ep)) as [b r].
  by intros [= <- <-].
Qed.

Lemma complete_setup ep st data len ok ep' :
  complete ep st data len = (ok, ep') → Endpoint.setup ep' = Endpoint.setup ep.
Proof. unfold complete. destruct (ring_complete _ _ _ _). by intros [= <- <-]. Qed.

(** Outside the control data stage a completion is the result itself: its length, and for an IN
    transfer its data. *)
Definition unaltered (f : InFlight.t) (r : TransferResult) (data : list Z) (len : Z) : Prop :=
  InFlight.stage f ≠ Stage.ControlData →
  len = (outcome_of f r).2 ∧ (InFlight.direction f = Direction.In → data = (outcome_of f r).1.2).

(** [apply] completes the head exactly once, with the status of the result and with data for IN
    transfers only; it stops exactly when the ring refuses. *)
Lemma apply_spec ep flight warned r :
  InFlight.result flight = Some r →
  ∃ flow ep' warned' data len ok,
    apply ep flight warned = Done (flow, ep', warned') ∧
    completes ep (outcome_of flight r).1.1 data len ok ep' ∧
    (flow = FlowStop ↔ ok = false) ∧
    (flow = FlowOffline → (outcome_of flight r).1.1 = Status.Offline) ∧
    (InFlight.direction flight = Direction.Out → data = []) ∧
    (length data ≤ length (outcome_of flight r).1.2)%nat ∧
    (len ≤ (outcome_of flight r).2) ∧
    (Z.of_nat (length (outcome_of flight r).1.2) ≤ (outcome_of flight r).2 < 2 ^ 32 →
     Z.of_nat (length data) ≤ len) ∧
    unaltered flight r data len.
Proof.
  intros Hr. unfold apply, unaltered. rewrite Hr. destruct (outcome_of flight r) as [[st data] len]. cbn [fst snd].
  set (data1 := if bool_decide _ then data else []).
  assert (length data1 ≤ length data)%nat as Hl by (unfold data1; case_bool_decide; simpl; lia).
  assert (InFlight.direction flight = Direction.Out → data1 = []) as Hout.
  { intros E. unfold data1. by rewrite E. }
  assert (InFlight.direction flight = Direction.In → data1 = data) as Hin.
  { intros E. unfold data1. by rewrite E. }
  assert (∃ ep1 warned1 data2 len2,
    match InFlight.stage flight with
    | Stage.ControlData => control_data ep warned data1 len
    | Stage.ControlStatus => Done (Endpoint.set_setup None ep, warned, data1, len)
    | Stage.Normal | Stage.Isochronous => Done (ep, warned, data1, len)
    end = Done (ep1, warned1, data2, len2) ∧
    Endpoint.ring ep1 = Endpoint.ring ep ∧ Endpoint.info ep1 = Endpoint.info ep ∧
    Endpoint.in_flight ep1 = Endpoint.in_flight ep ∧
    (length data2 ≤ length data1)%nat ∧ len2 ≤ len ∧
    (Z.of_nat (length data) ≤ len < 2 ^ 32 → Z.of_nat (length data2) ≤ len2) ∧
    (InFlight.stage flight ≠ Stage.ControlData → data2 = data1 ∧ len2 = len))
    as (ep1 & warned1 & data2 & len2 & -> & Er & Ei & Ef & Hd2 & Hl2 & Hb & Hsame).
  { destruct (InFlight.stage flight).
    - destruct (control_data_returns ep warned data1 len)
        as (a & b & c & d & -> & ? & ? & ? & ? & ? & Hx).
      exists a, b, c, d. do 6 (split; [done|]). split; [intros; apply Hx; lia|done].
    - eexists _, _, _, _. split; [done|]. repeat split; lia.
    - eexists _, _, _, _. split; [done|]. repeat split; lia.
    - eexists _, _, _, _. split; [done|]. repeat split; lia. }
  cbn [mbind outcome_bind].
  destruct (complete ep1 st data2 len2) as [ok ep2] eqn:Ec. apply complete_completes in Ec.
  destruct Ec as (Ec & Ei2 & Ef2). rewrite Er in Ec.
  eexists _, ep2, warned1, data2, len2, ok. split; [done|].
  split; [split; [done|]; split; congruence|].
  split; [destruct ok, st; done|]. split; [by destruct ok, st|].
  split; [|split; [lia|split; [lia|split; [done|]]]].
  - intros E. rewrite (Hout E) in Hd2. by destruct data2; [|simpl in Hd2; lia].
  - intros [-> ->]%Hsame. auto.
Qed.

End Apply.

(** ** Requests never fail to build, and leave the flights alone *)

Section Requests.
Context {R : Type} {RG : Ring R}.

(** How a message may be answered without a URB: an error, or success where no data is moved. *)
Definition answers (t : Transfer.t) (st : Status.t) : Prop :=
  st = Status.Error ∨
  (st = Status.Success ∧
   match t with Transfer.Setup _ | Transfer.Status | Transfer.Link true => True | _ => False end).

(** [head_request] completes the head, submits for it, or stops. *)
Lemma head_request_spec speed (ep : Endpoint.t R) key transfer next ep' :
  head_request speed ep key transfer = (next, ep') →
  Endpoint.info ep' = Endpoint.info ep ∧ Endpoint.in_flight ep' = Endpoint.in_flight ep ∧
  match next with
  | NextContinue => ∃ st, answers transfer st ∧
                      ring_complete st [] 0 (Endpoint.ring ep) = (true, Endpoint.ring ep')
  | NextStop => ep' = ep ∨
                ∃ st, answers transfer st ∧
                  ring_complete st [] 0 (Endpoint.ring ep) = (false, Endpoint.ring ep')
  | NextSubmit _ _ => ep' = ep
  end.
Proof.
  assert (∀ ep1 st, answers transfer st → Endpoint.ring ep1 = Endpoint.ring ep → Endpoint.info ep1 = Endpoint.info ep →
    Endpoint.in_flight ep1 = Endpoint.in_flight ep →
    continue_if (complete ep1 st [] 0) = (next, ep') →
    Endpoint.info ep' = Endpoint.info ep ∧ Endpoint.in_flight ep' = Endpoint.in_flight ep ∧
    match next with
    | NextContinue => ∃ st, answers transfer st ∧
                        ring_complete st [] 0 (Endpoint.ring ep) = (true, Endpoint.ring ep')
    | NextStop => ep' = ep ∨
                  ∃ st, answers transfer st ∧
                    ring_complete st [] 0 (Endpoint.ring ep) = (false, Endpoint.ring ep')
    | NextSubmit _ _ => ep' = ep
    end) as Hc.
  { intros ep1 st Hst Er Ei Ef. destruct (complete ep1 st [] 0) as [ok ep2] eqn:Ec.
    apply complete_completes in Ec as (Ec & Ei2 & Ef2). rewrite Er in Ec.
    unfold continue_if. cbn. intros [= <- <-]. rewrite Ei2, Ef2. split; [done|]. split; [done|].
    destruct ok; eauto. }
  unfold head_request. intros H.
  assert (∀ t, answers t Status.Error) as Herr by by left.
  repeat (case_match; try (eapply Hc; [| | | |exact H]; first [done|apply Herr|by right]); try (by simplify_eq)).
  all: try (simplify_eq; auto).
Qed.

End Requests.

(** ** The small steps of [pump] *)

(** What an operation did that can be observed outside: a URB put in flight, the head completed with
    a URB's result (seen from the ring [r]), the head completed without one, a result arriving. *)
Inductive label (R : Type) : Type :=
| Submitted (key : EndpointKey) (f : InFlight.t)
| Applied (key : EndpointKey) (r : R) (f : InFlight.t) (st : Status.t) (data : list Z) (len : Z)
    (ok : bool)
| Answered (key : EndpointKey) (r : R) (st : Status.t) (ok : bool)
| Finished (key : EndpointKey) (token : Z) (result : TransferResult).
#[global] Arguments Submitted {R} key f.
#[global] Arguments Applied {R} key r f st data len ok.
#[global] Arguments Answered {R} key r st ok.
#[global] Arguments Finished {R} key token result.

Section Steps.
Context {R : Type} {RG : Ring R} {S : Type} {SO : SessionOps S}.

Notation engine := (Engine.t S R).

(** The message and request the engine submits next for an endpoint. *)
Inductive plan (key : EndpointKey) (speed : Speed.t) (ep : Endpoint.t R) :
    Z → SubmitRequest.t → Stage.t → Prop :=
| plan_head message t req stage :
    Endpoint.in_flight ep = [] →
    current (Endpoint.ring ep) = (message, Some t) →
    head_request speed ep key t = (NextSubmit req stage, ep) →
    plan key speed ep message req stage
| plan_ahead front rest message t req stage :
    Endpoint.in_flight ep = front :: rest →
    InFlight.message front = (current (Endpoint.ring ep)).1 →
    Forall (λ f, InFlight.result f = None) (front :: rest) →
    (length (front :: rest) < depth (EndpointInfo.kind (Endpoint.info ep)))%nat →
    peek (length (front :: rest)) (Endpoint.ring ep) = Some (message, t) →
    data_request speed ep key (length (front :: rest)) t = Some (req, stage) →
    plan key speed ep message req stage.

(** The flight of an accepted request. *)
Definition flight_of (e : engine) (message : Z) (req : SubmitRequest.t) (stage : Stage.t)
    (seqnum : Z) : InFlight.t :=
  InFlight.mk (Engine.next_token e) message stage (SubmitRequest.direction req)
    (SubmitRequest.length req) seqnum false None.

Definition launch (key : EndpointKey) (ep : Endpoint.t R) (f : InFlight.t) (c : chan) (s : S)
    (e : engine) : engine :=
  Engine.mk s (<[key := Endpoint.set_in_flight (Endpoint.in_flight ep ++ [f]) ep]> (Engine.endpoints e))
    (next_u64 (Engine.next_token e)) (Engine.uas_warned e)
    (Engine.waiters e ++ [mk_waiter key (Engine.next_token e) c]).

Inductive pstep (key : EndpointKey) : list (label R) → engine → engine → Prop :=
| p_stale e ep front rest s :
    Engine.endpoints e !! key = Some ep → active (Endpoint.ring ep) = true →
    Endpoint.in_flight ep = front :: rest →
    InFlight.message front ≠ (current (Endpoint.ring ep)).1 →
    unlink_flights (front :: rest) (Engine.session e) = Done s →
    pstep key [] e (Engine.set_session s (Engine.put key (Endpoint.set_in_flight [] ep) e))
| p_apply e ep front rest r flow ep' warned data len ok :
    Engine.endpoints e !! key = Some ep → active (Endpoint.ring ep) = true →
    Endpoint.in_flight ep = front :: rest →
    InFlight.message front = (current (Endpoint.ring ep)).1 →
    InFlight.result front = Some r →
    apply (Endpoint.set_in_flight rest ep) front (Engine.uas_warned e) = Done (flow, ep', warned) →
    completes (Endpoint.set_in_flight rest ep) (outcome_of front r).1.1 data len ok ep' →
    (InFlight.direction front = Direction.Out → data = []) →
    (length data ≤ length (outcome_of front r).1.2)%nat →
    len ≤ (outcome_of front r).2 → unaltered front r data len →
    pstep key [Applied key (Endpoint.ring ep) front (outcome_of front r).1.1 data len ok] e
      (Engine.put key ep' (Engine.set_uas_warned warned e))
| p_answer e ep message t next st ok ep' :
    Engine.endpoints e !! key = Some ep → active (Endpoint.ring ep) = true →
    Endpoint.in_flight ep = [] → current (Endpoint.ring ep) = (message, Some t) →
    head_request (session_speed (Engine.session e)) ep key t = (next, ep') → answers t st →
    completes ep st [] 0 ok ep' →
    pstep key [Answered key (Endpoint.ring ep) st ok] e (Engine.put key ep' e)
| p_submit e ep message req stage seqnum c s :
    Engine.endpoints e !! key = Some ep → active (Endpoint.ring ep) = true →
    plan key (session_speed (Engine.session e)) ep message req stage →
    session_submit req (Engine.session e) = Done (Ok (seqnum, c), s) →
    pstep key [Submitted key (flight_of e message req stage seqnum)] e
      (launch key ep (flight_of e message req stage seqnum) c s e)
| p_refused_head e ep message req stage err s ok ep' :
    Engine.endpoints e !! key = Some ep → active (Endpoint.ring ep) = true →
    Endpoint.in_flight ep = [] →
    plan key (session_speed (Engine.session e)) ep message req stage →
    session_submit req (Engine.session e) = Done (Err err, s) →
    completes ep (error_status err) [] 0 ok ep' → Endpoint.setup ep' = Endpoint.setup ep →
    pstep key [Answered key (Endpoint.ring ep) (error_status err) ok] e
      (Engine.put key ep' (Engine.set_session s e))
| p_refused_ahead e ep message req stage err s :
    Engine.endpoints e !! key = Some ep → active (Endpoint.ring ep) = true →
    Endpoint.in_flight ep ≠ [] →
    plan key (session_speed (Engine.session e)) ep message req stage →
    session_submit req (Engine.session e) = Done (Err err, s) →
    pstep key [] e (Engine.set_session s e).

Inductive psteps (key : EndpointKey) : list (label R) → engine → engine → Prop :=
| psteps_nil e : psteps key [] e e
| psteps_cons ls1 ls2 e1 e2 e3 :
    pstep key ls1 e1 e2 → psteps key ls2 e2 e3 → psteps key (ls1 ++ ls2) e1 e3.

Lemma psteps_one key ls e e' : pstep key ls e e' → psteps key ls e e'.
Proof. intros H. rewrite <- (app_nil_r ls). econstructor; [done|constructor]. Qed.

Lemma psteps_app key ls1 ls2 e1 e2 e3 :
  psteps key ls1 e1 e2 → psteps key ls2 e2 e3 → psteps key (ls1 ++ ls2) e1 e3.
Proof.
  induction 1; [done|]. intros H2. rewrite <- (assoc_L (++)). econstructor; eauto.
Qed.

(** The small steps of a pump deliver no results. *)
Lemma psteps_unfinished key ls (e e' : engine) k token r : psteps key ls e e' → Finished k token r ∉ ls.
Proof.
  induction 1 as [|ls1 ls2 e1 e2 e3 H _ IH]; [by intros ?%elem_of_nil|].
  intros [Hin|Hin]%elem_of_app; [|done].
  destruct H; try (by apply elem_of_nil in Hin); by apply list_elem_of_singleton in Hin.
Qed.

(** *** Where a run of [pump] may end *)

(** The ring refused a completion, or the session is gone. *)
Definition failing (l : label R) : Prop :=
  match l with
  | Applied _ _ _ st _ _ ok | Answered _ _ st ok => ok = false ∨ st = Status.Offline
  | Submitted _ _ | Finished _ _ _ => False
  end.

(** The session refused the URB planned behind those in flight. *)
Definition refused_ahead (key : EndpointKey) (e e' : engine) : Prop :=
  ∃ ep message req stage err s,
    Engine.endpoints e !! key = Some ep ∧ Endpoint.in_flight ep ≠ [] ∧
    plan key (session_speed (Engine.session e)) ep message req stage ∧
    session_submit req (Engine.session e) = Done (Err err, s) ∧ e' = Engine.set_session s e.

(** [pump] gave up: a failing step, or a refusal as its last one. *)
Definition halted (key : EndpointKey) (ls : list (label R)) (e e' : engine) : Prop :=
  Exists failing ls ∨ ∃ e1, psteps key ls e e1 ∧ refused_ahead key e1 e'.

(** Nothing more can be submitted behind the URBs in flight. *)
Definition filled (key : EndpointKey) (speed : Speed.t) (ep : Endpoint.t R) : Prop :=
  (depth (EndpointInfo.kind (Endpoint.info ep)) ≤ length (Endpoint.in_flight ep))%nat ∨
  Exists (λ f, InFlight.result f ≠ None) (Endpoint.in_flight ep) ∨
  peek (length (Endpoint.in_flight ep)) (Endpoint.ring ep) = None ∨
  ∃ message t, peek (length (Endpoint.in_flight ep)) (Endpoint.ring ep) = Some (message, t) ∧
    data_request speed ep key (length (Endpoint.in_flight ep)) t = None.

(** The endpoint has nothing to do before the host or the server acts: it is gone or not running, its
    head is no transfer or a silent link, or the head's URB is with the server. *)
Inductive settled (key : EndpointKey) (e : engine) : Prop :=
| settled_gone : Engine.endpoints e !! key = None → settled key e
| settled_off ep :
    Engine.endpoints e !! key = Some ep → active (Endpoint.ring ep) = false → settled key e
| settled_idle ep :
    Engine.endpoints e !! key = Some ep → Endpoint.in_flight ep = [] →
    (current (Endpoint.ring ep)).2 = None ∨
      (current (Endpoint.ring ep)).2 = Some (Transfer.Link false) → settled key e
| settled_waiting ep front rest :
    Engine.endpoints e !! key = Some ep → active (Endpoint.ring ep) = true →
    Endpoint.in_flight ep = front :: rest →
    InFlight.message front = (current (Endpoint.ring ep)).1 → InFlight.result front = None →
    filled key (session_speed (Engine.session e)) ep → settled key e.

Definition settles (key : EndpointKey) (ls : list (label R)) (e e' : engine) : Prop :=
  settled key e' ∨ halted key ls e e'.

Lemma settles_failing key ls1 ls2 e e' : Exists failing ls1 → settles key (ls1 ++ ls2) e e'.
Proof. intros H. right. left. apply Exists_app. by left. Qed.

Lemma settles_cons key ls1 ls2 e e1 e' :
  pstep key ls1 e e1 → settles key ls2 e1 e' → settles key (ls1 ++ ls2) e e'.
Proof.
  intros Hs [H|[H|(e2 & H2 & Hr)]]; [by left|right..].
  - left. apply Exists_app. by right.
  - right. exists e2. split; [by eapply psteps_cons|done].
Qed.

(** What [submit] does, step by step. *)
Lemma submit_steps pump key message req stage e ep b e' :
  Engine.endpoints e !! key = Some ep → active (Endpoint.ring ep) = true →
  plan key (session_speed (Engine.session e)) ep message req stage →
  submit pump key message req stage e = Done (b, e') →
  (b = true ∧ ∃ seqnum c s, session_submit req (Engine.session e) = Done (Ok (seqnum, c), s) ∧
     e' = launch key ep (flight_of e message req stage seqnum) c s e) ∨
  (b = false ∧ ∃ ls e1, pstep key ls e e1 ∧
     (e' = e1 ∧ halted key ls e e1 ∨ Endpoint.in_flight ep = [] ∧ pump e1 = Done e')).
Proof.
  intros He Ha Hp. unfold submit. rewrite He.
  destruct (session_submit req (Engine.session e)) as [[[[seqnum c]|err] s]| |] eqn:Es; try done;
    cbn [mbind outcome_bind].
  { intros [= <- <-]. left. eauto 6. }
  destruct (Endpoint.in_flight ep) as [|f rest] eqn:Ef.
  2: { intros [= <- <-]. right. split; [done|]. assert (Endpoint.in_flight ep ≠ []) as Hne by by rewrite Ef.
       eexists _, _. split; [by eapply p_refused_ahead|]. left. split; [done|]. right.
       exists e. split; [constructor|]. exists ep, message, req, stage, err, s. done. }
  destruct (complete ep (error_status err) [] 0) as [ok ep'] eqn:Ec.
  pose proof (complete_setup _ _ _ _ _ _ Ec) as Esetup. apply complete_completes in Ec.
  set (e1 := Engine.put key ep' (Engine.set_session s e)).
  assert (pstep key [Answered key (Endpoint.ring ep) (error_status err) ok] e e1) as Hs
    by (eapply p_refused_head; eauto).
  destruct (ok && _) eqn:Eok.
  - destruct (pump e1) as [e2| |] eqn:Epump; try done. cbn [mbind outcome_bind].
    intros [= <- <-]. right. split; [done|]. eexists _, _. split; [exact Hs|]. by right.
  - intros [= <- <-]. right. split; [done|]. eexists _, _. split; [exact Hs|]. left. split; [done|].
    left. constructor. cbn. destruct ok; [right|by left]. cbn in Eok. by apply negb_false_iff, bool_decide_eq_true in Eok.
Qed.

Lemma data_plan key speed ep front rest message t req stage :
  Endpoint.in_flight ep = front :: rest →
  InFlight.message front = (current (Endpoint.ring ep)).1 →
  ((length (front :: rest) =? 0)%nat
   || (depth (EndpointInfo.kind (Endpoint.info ep)) <=? length (front :: rest))%nat
   || existsb (λ f, negb (InFlight.unresolved f)) (front :: rest)) = false →
  peek (length (front :: rest)) (Endpoint.ring ep) = Some (message, t) →
  data_request speed ep key (length (front :: rest)) t = Some (req, stage) →
  plan key speed ep message req stage.
Proof.
  intros Ef Em Hg Hp Hd. apply orb_false_iff in Hg as [Hg Hr]. apply orb_false_iff in Hg as [_ Hg].
  apply Nat.leb_gt in Hg. eapply plan_ahead; eauto.
  apply Forall_forall. intros f Hf. destruct (InFlight.result f) eqn:E; [|done].
  assert (existsb (λ f, negb (InFlight.unresolved f)) (front :: rest) = true) as Hx; [|congruence].
  apply existsb_exists. exists f. split; [by apply list_elem_of_In|].
  unfold InFlight.unresolved. by rewrite E.
Qed.

(** Where [fill] starts and stays: an active ring whose head is the first URB's message. *)
Definition filling (key : EndpointKey) (e : engine) : Prop :=
  ∃ ep front rest, Engine.endpoints e !! key = Some ep ∧ active (Endpoint.ring ep) = true ∧
    Endpoint.in_flight ep = front :: rest ∧
    InFlight.message front = (current (Endpoint.ring ep)).1 ∧ InFlight.result front = None.

Lemma launch_filling key e ep message req stage seqnum c s :
  active (Endpoint.ring ep) = true →
  plan key (session_speed (Engine.session e)) ep message req stage →
  filling key (launch key ep (flight_of e message req stage seqnum) c s e).
Proof.
  intros Ha Hp. destruct Hp as [message t req stage Ef Ec Hh|front rest message t req stage Ef Em Hall].
  - eexists _, _, []. cbn. rewrite lookup_insert_eq. split; [done|]. cbn. rewrite Ef. cbn.
    split; [done|]. split; [done|]. by rewrite Ec.
  - eexists _, front, (rest ++ [_]). cbn. rewrite lookup_insert_eq. split; [done|]. cbn.
    rewrite Ef. apply Forall_cons in Hall as [? _]. done.
Qed.

Lemma fill_steps pump fuel key e e' :
  filling key e → fill pump fuel key e = Done e' → ∃ ls, psteps key ls e e' ∧ settles key ls e e'.
Proof.
  revert e. induction fuel as [|fuel IH]; intros e (ep & front & rest & He & Ha & Ef & Em & Er); [done|].
  assert (filled key (session_speed (Engine.session e)) ep → Done e = Done e' →
    ∃ ls, psteps key ls e e' ∧ settles key ls e e') as Hstop.
  { intros Hf [= <-]. exists []. split; [constructor|]. left. by eapply settled_waiting. }
  cbn [fill]. rewrite He. cbv zeta. unfold filled in Hstop. rewrite Ef in Hstop |- *.
  match goal with |- context [if ?g then _ else _] => destruct g eqn:Hg end.
  { apply Hstop. apply orb_true_iff in Hg as [Hg|Hg].
    - left. apply orb_true_iff in Hg as [Hg|Hg]; [done|]. by apply Nat.leb_le.
    - right. left. apply Exists_exists. apply existsb_exists in Hg as (f & Hf & Hu).
      exists f. split; [by apply list_elem_of_In|]. unfold InFlight.unresolved in Hu. by destruct (InFlight.result f). }
  destruct (peek _ _) as [[message t]|] eqn:Epk; [|apply Hstop; auto].
  destruct (data_request _ _ _ _ _) as [[req stage]|] eqn:Ed; [|apply Hstop; eauto 7].
  assert (plan key (session_speed (Engine.session e)) ep message req stage) as Hp
    by (eapply data_plan; eauto).
  destruct (submit pump key message req stage e) as [[b e1]| |] eqn:Es; try done.
  cbn [mbind outcome_bind].
  eapply submit_steps in Es as [(-> & seqnum & c & s & Hs & ->)|(-> & ls & e2 & Hs & [[-> Hh]|[E _]])];
    try done; [| |congruence].
  - intros H. apply IH in H as (ls & H & Hset); [|by apply launch_filling].
    eexists. assert (pstep key _ e _) as Hstep by (eapply p_submit; eauto).
    split; [by eapply psteps_cons|by eapply settles_cons].
  - intros [= <-]. exists ls. split; [by apply psteps_one|by right].
Qed.

Lemma put_id key ep (e : engine) : Engine.endpoints e !! key = Some ep → Engine.put key ep e = e.
Proof.
  destruct e. unfold Engine.put, Engine.set_endpoints. cbn. intros. by rewrite insert_id.
Qed.

Lemma unlink_all_inv fs (e e' : engine) :
  unlink_all fs e = Done e' →
  ∃ s, unlink_flights fs (Engine.session e) = Done s ∧ e' = Engine.set_session s e.
Proof.
  unfold unlink_all. destruct (unlink_flights _ _) as [s| |]; try done. intros [= <-]. eauto.
Qed.

(** A head that [head_request] leaves as it is, without a request, is a silent link. *)
Lemma head_request_silent speed (ep : Endpoint.t R) key t ep' :
  head_request speed ep key t = (NextStop, ep') →
  t = Transfer.Link false ∨
  ∃ st, answers t st ∧ completes ep st [] 0 false ep'.
Proof.
  assert (∀ ep1 st, answers t st → Endpoint.ring ep1 = Endpoint.ring ep → Endpoint.info ep1 = Endpoint.info ep →
    Endpoint.in_flight ep1 = Endpoint.in_flight ep →
    continue_if (complete ep1 st [] 0) = (NextStop, ep') →
    ∃ st, answers t st ∧ completes ep st [] 0 false ep') as Hc.
  { intros ep1 st Hst Er Ei Ef. destruct (complete ep1 st [] 0) as [ok ep2] eqn:Ec.
    apply complete_completes in Ec as (Ec & Ei2 & Ef2). unfold continue_if, completes. cbn.
    rewrite Er, Ei in *. destruct ok; [done|]. intros [= <-]. exists st. split; [done|]. split; [done|]. split; congruence. }
  assert (∀ t, answers t Status.Error) as Herr by by left.
  unfold head_request. intros H.
  repeat (case_match; try (right; eapply Hc; [| | | |exact H]; first [done|apply Herr|by right]); try (by simplify_eq)).
  all: try (by left). all: by simplify_eq.
Qed.

(** A run from [e] to [e'] that settles unless the session was known to be gone. *)
Definition ends (key : EndpointKey) (offline : bool) (e e' : engine) : Prop :=
  ∃ ls, psteps key ls e e' ∧ (offline = false → settles key ls e e').

Lemma ends_here key offline e : settled key e ∨ offline = true → ends key offline e e.
Proof.
  intros H. exists []. split; [constructor|]. intros ->. left. by destruct H.
Qed.

Lemma ends_failing key offline ls e e' : pstep key ls e e' → Exists failing ls → ends key offline e e'.
Proof. intros Hs Hf. exists ls. split; [by apply psteps_one|]. intros _. right. by left. Qed.

Lemma ends_cons key offline off ls e e1 e' :
  pstep key ls e e1 → (offline = false → off = true → Exists failing ls) → ends key off e1 e' →
  ends key offline e e'.
Proof.
  intros Hs Hoff (ls2 & H & Hset). eexists. split; [by eapply psteps_cons|]. intros Hf.
  destruct off; [by apply settles_failing, Hoff|]. by eapply settles_cons, Hset.
Qed.

Lemma fill_ends pump fuel key offline e e' :
  filling key e → fill pump fuel key e = Done e' → ends key offline e e'.
Proof. intros Hf (ls & ? & ?)%fill_steps; [|done]. by exists ls. Qed.

(** The URB planned for the head is submitted. *)
Lemma submit_ends pump key message req stage e ep e' :
  Engine.endpoints e !! key = Some ep → active (Endpoint.ring ep) = true →
  plan key (session_speed (Engine.session e)) ep message req stage →
  (∀ e1 e2, pump e1 = Done e2 → ends key false e1 e2) →
  ('(submitted, e) ← submit pump key message req stage e;
   if submitted : bool then fill pump FILL_FUEL key e else Done e) = Done e' →
  ends key false e e'.
Proof.
  intros He Ha Hp Hpump. destruct (submit _ key message req stage e) as [[b e1]| |] eqn:Es; try done.
  cbn [mbind outcome_bind].
  eapply submit_steps in Es as
    [(-> & seqnum & c & s & Hs & ->)|(-> & ls & e2 & Hs & [[-> Hh]|[_ H2]])]; try done.
  - intros H. eapply (ends_cons _ _ false); [by eapply p_submit|congruence|].
    eapply fill_ends; [by apply launch_filling|exact H].
  - intros [= <-]. exists ls. split; [by apply psteps_one|]. intros _. by right.
  - intros [= <-]. eapply (ends_cons _ _ false); [exact Hs|congruence|by apply Hpump].
Qed.

(** A round of [pump] with nothing in flight. *)
Lemma pump_head_ends fuel offline key e e' ep :
  (∀ off e1, pump_loop fuel off key e1 = Done e' → ends key off e1 e') →
  (∀ e1 e2, pump_loop fuel false key e1 = Done e2 → ends key false e1 e2) →
  Engine.endpoints e !! key = Some ep → active (Endpoint.ring ep) = true → Endpoint.in_flight ep = [] →
  pump_loop (Datatypes.S fuel) offline key e = Done e' → ends key offline e e'.
Proof.
  intros IH Hpump He Ha Ef. cbn [pump_loop]. rewrite He, Ha. cbn [negb].
  destruct (current (Endpoint.ring ep)) as [head transfer] eqn:Ecur. rewrite Ef.
  destruct transfer as [t|].
  2: { intros [= <-]. apply ends_here. left. eapply settled_idle; [done..|]. left. by rewrite Ecur. }
  destruct offline; [intros [= <-]; apply ends_here; by right|].
  destruct (head_request _ ep key t) as [next ep1] eqn:Eh.
  pose proof (head_request_spec _ _ _ _ _ _ Eh) as (Ei & Efl & Hn). destruct next as [| |req stage].
  - destruct Hn as (st & Hans & Hst). intros H. eapply (ends_cons _ _ false); [|congruence|by apply IH].
    apply (p_answer key e ep head t NextContinue st true ep1); auto. by split.
  - intros [= <-]. destruct (head_request_silent _ _ _ _ _ Eh) as [->|(st & Hans & Hst)].
    + assert (ep1 = ep) as -> by (by injection Eh). rewrite put_id by done. apply ends_here. left.
      eapply settled_idle; [done..|]. right. by rewrite Ecur.
    + apply (ends_failing _ _ [Answered key (Endpoint.ring ep) st false]); [by eapply p_answer|].
      constructor. by left.
  - subst ep1. rewrite put_id by done. apply (submit_ends _ key head req stage e ep); [done..| |done].
    eapply plan_head; eauto.
Qed.

(** A round of [pump] with URBs in flight. *)
Lemma pump_front_ends fuel offline key e e' ep front rest :
  (∀ off e1, pump_loop fuel off key e1 = Done e' → ends key off e1 e') →
  Engine.endpoints e !! key = Some ep → active (Endpoint.ring ep) = true →
  Endpoint.in_flight ep = front :: rest →
  pump_loop (Datatypes.S fuel) offline key e = Done e' → ends key offline e e'.
Proof.
  intros IH He Ha Ef. cbn [pump_loop]. rewrite He, Ha. cbn [negb].
  destruct (current (Endpoint.ring ep)) as [head transfer] eqn:Ecur. rewrite Ef.
  destruct (InFlight.message front =? head) eqn:Em; cbn [negb];
    [apply Z.eqb_eq in Em|apply Z.eqb_neq in Em].
  2: { destruct (unlink_all _ _) as [e1| |] eqn:Eu; try done. cbn [mbind outcome_bind].
       apply unlink_all_inv in Eu as (s & Hu & ->). intros H.
       eapply (ends_cons _ _ offline); [|congruence|by apply IH]. eapply p_stale; eauto. by rewrite Ecur. }
  destruct (InFlight.result front) as [r|] eqn:Er; unfold InFlight.unresolved; rewrite Er; cbn [negb].
  2: { destruct offline; [intros [= <-]; apply ends_here; by right|]. cbn [negb]. intros H.
       eapply fill_ends; [|exact H]. exists ep, front, rest. by rewrite Ecur. }
  destruct (apply_spec (Endpoint.set_in_flight rest ep) front (Engine.uas_warned e) r Er)
    as (flow & ep' & warned & data & len & ok & Hap & Hc & Hstopped & Hgone & Hout & Hd & Hl & _ & Hun).
  rewrite Hap. cbn [mbind outcome_bind].
  assert (pstep key [Applied key (Endpoint.ring ep) front (outcome_of front r).1.1 data len ok] e
    (Engine.put key ep' (Engine.set_uas_warned warned e))) as Hs.
  { eapply p_apply; eauto. by rewrite Ecur. }
  destruct flow; intros H.
  - eapply (ends_cons _ _ offline); [exact Hs|congruence|by apply IH].
  - injection H as <-. apply (ends_failing _ _ _ _ _ Hs). constructor. left. by apply Hstopped.
  - eapply (ends_cons _ _ true); [exact Hs| |by apply IH]. intros _ _. constructor. right. by apply Hgone.
Qed.

Lemma pump_loop_ends fuel offline key e e' : pump_loop fuel offline key e = Done e' → ends key offline e e'.
Proof.
  revert offline e e'. induction fuel as [|fuel IH]; intros offline e e'; [done|].
  destruct (Engine.endpoints e !! key) as [ep|] eqn:He.
  2: { cbn [pump_loop]. rewrite He. intros [= <-]. apply ends_here. left. by apply settled_gone. }
  destruct (active (Endpoint.ring ep)) eqn:Ha.
  2: { cbn [pump_loop]. rewrite He, Ha. intros [= <-]. apply ends_here. left. by eapply settled_off. }
  destruct (Endpoint.in_flight ep) as [|front rest] eqn:Ef.
  - eapply pump_head_ends; eauto.
  - eapply pump_front_ends; eauto.
Qed.

Lemma pump_loop_steps fuel offline key e e' :
  pump_loop fuel offline key e = Done e' →
  ∃ ls, psteps key ls e e' ∧ (offline = false → settles key ls e e').
Proof. apply pump_loop_ends. Qed.

End Steps.

(** ** [pump] returns *)

Section Termination.
Context {R : Type} {RG : Ring R} {RL : RingLaws R} {S : Type} {SO : SessionOps S}
  {SL : SessionLaws S}.

Notation engine := (Engine.t S R).

(** The session is sound and has room for [n] more requests. *)
Definition roomy (n : Z) (e : engine) : Prop :=
  good (Engine.session e) ∧ n < room (Engine.session e).

Lemma roomy_le n m e : m ≤ n → roomy n e → roomy m e.
Proof. intros ? [? ?]. split; [done|lia]. Qed.

Lemma unlink_flights_returns fs s :
  good s → 0 < room s →
  ∃ s', unlink_flights fs s = Done s' ∧ good s' ∧ room s ≤ room s'.
Proof.
  revert s. induction fs as [|f fs IH]; intros s Hg Hr; [by exists s|]. cbn [unlink_flights].
  destruct (InFlight.unresolved f).
  - destruct (unlink_returns (InFlight.seqnum f) s Hg Hr) as (s1 & -> & Hg1 & Hr1).
    cbn [mbind outcome_bind]. destruct (IH s1 Hg1 ltac:(lia)) as (s2 & -> & ? & ?).
    exists s2. split; [done|]. split; [done|lia].
  - cbn [mbind outcome_bind]. eauto.
Qed.

Lemma unlink_all_returns n fs (e : engine) :
  0 ≤ n → roomy n e →
  ∃ e', unlink_all fs e = Done e' ∧ roomy n e' ∧ Engine.endpoints e' = Engine.endpoints e.
Proof.
  intros Hn [Hg Hr]. destruct (unlink_flights_returns fs _ Hg ltac:(lia)) as (s & Hs & ? & ?).
  exists (Engine.set_session s e). unfold unlink_all. rewrite Hs. split; [done|].
  split; [split; [done|cbn; lia]|done].
Qed.

(** How far [pump] can run on: every round but a stale one completes a queued message. *)
Definition pump_measure (key : EndpointKey) (e : engine) : nat :=
  match Engine.endpoints e !! key with
  | Some ep => 2 * queued (Endpoint.ring ep) + (if Endpoint.in_flight ep then 0 else 1)
  | None => 0
  end.

Lemma depth_le kind : (depth kind ≤ 32)%nat.
Proof. destruct kind; cbn; lia. Qed.

(** With [ahead] URBs in flight, [fill] has at most [32 - ahead] more to submit. *)
Lemma fill_returns pump fuel key (e : engine) ep :
  Engine.endpoints e !! key = Some ep → Endpoint.in_flight ep ≠ [] →
  (0 < fuel)%nat → (32 < fuel + length (Endpoint.in_flight ep))%nat →
  roomy (32 - Z.of_nat (length (Endpoint.in_flight ep))) e →
  returns (fill pump fuel key e).
Proof.
  revert e ep. induction fuel as [|fuel IH]; intros e ep He Hne Hf Hf2 [Hg Hr]; [lia|].
  cbn [fill]. rewrite He. cbv zeta.
  match goal with |- context [if ?g then _ else _] => destruct g eqn:Hb end; [by eexists|].
  apply orb_false_iff in Hb as [Hb _]. apply orb_false_iff in Hb as [_ Hb]. apply Nat.leb_gt in Hb.
  pose proof (depth_le (EndpointInfo.kind (Endpoint.info ep))).
  destruct (peek _ _) as [[message t]|]; [|by eexists].
  destruct (data_request _ _ _ _ _) as [[req stage]|]; [|by eexists].
  unfold submit. rewrite He.
  destruct (submit_returns req _ Hg ltac:(lia)) as (x & s & -> & Hg' & Hr'). cbn [mbind outcome_bind].
  destruct x as [[seqnum c]|err]; cbn [mbind outcome_bind is_ok] in *.
  - eapply IH.
    + cbn. by rewrite lookup_insert_eq.
    + cbn. by destruct (Endpoint.in_flight ep).
    + lia.
    + cbn. rewrite length_app. cbn. lia.
    + split; [done|]. cbn. rewrite length_app. cbn. lia.
  - destruct (Endpoint.in_flight ep); [done|]. by eexists.
Qed.

(** Submitting for a head message: what follows a refusal works on fewer queued messages. *)
Lemma submit_head_returns pump key message req stage (e : engine) ep :
  Engine.endpoints e !! key = Some ep → Endpoint.in_flight ep = [] → roomy 32 e →
  (∀ st ep' e1, ring_complete st [] 0 (Endpoint.ring ep) = (true, Endpoint.ring ep') →
     Engine.endpoints e1 = <[key := ep']> (Engine.endpoints e) → roomy 32 e1 → returns (pump e1)) →
  returns ('(submitted, e) ← submit pump key message req stage e;
           if submitted : bool then fill pump FILL_FUEL key e else Done e).
Proof.
  intros He Ef [Hg Hr] Hpump. unfold submit. rewrite He.
  destruct (submit_returns req _ Hg ltac:(lia)) as (x & s & -> & Hg' & Hr').
  cbn [mbind outcome_bind]. destruct x as [[seqnum c]|err]; cbn [mbind outcome_bind is_ok] in *.
  - eapply fill_returns.
    + cbn. by rewrite lookup_insert_eq.
    + cbn. by rewrite Ef.
    + unfold FILL_FUEL. lia.
    + cbn. rewrite Ef. cbn. unfold FILL_FUEL. lia.
    + split; [done|]. cbn. rewrite Ef. cbn. lia.
  - rewrite Ef. destruct (complete ep (error_status err) [] 0) as [ok ep'] eqn:Ec.
    apply complete_completes in Ec as (Ec & _ & _).
    destruct (ok && _) eqn:Eok; [|by eexists]. apply andb_true_iff in Eok as [-> _].
    destruct (Hpump _ ep' (Engine.put key ep' (Engine.set_session s e)) Ec) as [e2 ->];
      [done| |by eexists]. split; [done|cbn; lia].
Qed.

(** 32 requests are the most one run of [pump] submits. *)
Lemma pump_loop_returns fuel offline key (e : engine) :
  (pump_measure key e < fuel)%nat → roomy 32 e → returns (pump_loop fuel offline key e).
Proof.
  revert offline e. induction fuel as [|fuel IH]; intros offline e Hm Hr; [lia|].
  unfold pump_measure in Hm. cbn [pump_loop].
  destruct (Engine.endpoints e !! key) as [ep|] eqn:He; [|by eexists].
  assert (∀ off ep' e1, Engine.endpoints e1 = <[key := ep']> (Engine.endpoints e) →
    roomy 32 e1 → (2 * queued (Endpoint.ring ep') + (if Endpoint.in_flight ep' then 0 else 1) < fuel)%nat →
    returns (pump_loop fuel off key e1)) as Hnext.
  { intros off ep' e1 E1 Hr1 Hm1. apply IH; [|done]. unfold pump_measure.
    by rewrite E1, lookup_insert_eq. }
  assert (∀ st data len ep', ring_complete st data len (Endpoint.ring ep) = (true, Endpoint.ring ep') →
    (2 * queued (Endpoint.ring ep') + (if Endpoint.in_flight ep' then 0 else 1) < fuel)%nat) as Hless.
  { intros st data len ep' Hc. apply complete_queued in Hc. destruct (Endpoint.in_flight ep'); lia. }
  destruct (active (Endpoint.ring ep)) eqn:Ha; [|by eexists]. cbn [negb].
  destruct (current (Endpoint.ring ep)) as [head transfer] eqn:Ecur.
  destruct (Endpoint.in_flight ep) as [|front rest] eqn:Ef.
  - destruct transfer as [t|]; [|by eexists]. destruct offline; [by eexists|].
    destruct (head_request _ ep key t) as [next ep1] eqn:Eh.
    pose proof (head_request_spec _ _ _ _ _ _ Eh) as (Ei & Efl & Hn).
    destruct next as [| |req stage]; [|by eexists|].
    + destruct Hn as (st & _ & Hst). eapply Hnext; [done|done|]. by eapply Hless.
    + subst ep1. rewrite put_id by done. apply (submit_head_returns _ key head req stage e ep He Ef Hr).
      intros st ep' e1 Hc E1 Hr1. eapply Hnext; [done|done|by eapply Hless].
  - destruct (InFlight.message front =? head); cbn [negb].
    2: { destruct (unlink_all_returns 32 (front :: rest) (Engine.put key (Endpoint.set_in_flight [] ep) e))
           as (e1 & -> & Hr1 & E1); [lia|done|]. cbn [mbind outcome_bind].
         apply (Hnext offline (Endpoint.set_in_flight [] ep)); [done|done|]. cbn. lia. }
    destruct (InFlight.result front) as [r|] eqn:Er; unfold InFlight.unresolved; rewrite Er; cbn [negb].
    + destruct (apply_spec (Endpoint.set_in_flight rest ep) front (Engine.uas_warned e) r Er)
        as (flow & ep' & warned & data & len & ok & Hap & (Hc & _) & Hflow & _).
      rewrite Hap. cbn [mbind outcome_bind].
      assert (∀ off, flow ≠ FlowStop → returns (pump_loop fuel off
        key (Engine.put key ep' (Engine.set_uas_warned warned e)))) as Hgo.
      { intros off Hne. assert (ok = true) as -> by (destruct ok; naive_solver).
        eapply Hnext; [done|done|]. by eapply Hless. }
      destruct flow; [by apply Hgo|by eexists|by apply Hgo].
    + destruct offline; [by eexists|]. cbn [negb].
      eapply fill_returns; [done|by rewrite Ef|unfold FILL_FUEL; lia|unfold FILL_FUEL; rewrite Ef; cbn; lia|].
      rewrite Ef. eapply roomy_le; [|exact Hr]. cbn [length]. lia.
Qed.

Lemma pump_returns messages key (e : engine) :
  (∀ ep, Engine.endpoints e !! key = Some ep → (queued (Endpoint.ring ep) ≤ messages)%nat) →
  roomy 32 e → returns (pump messages key e).
Proof.
  intros Hq Hr. apply pump_loop_returns; [|done]. unfold pump_measure.
  destruct (Engine.endpoints e !! key) as [ep'|] eqn:E; [|lia]. specialize (Hq ep' eq_refl).
  destruct (Endpoint.in_flight ep'); lia.
Qed.

End Termination.

(** ** What an arriving result does before the ring is pumped *)

Section Arrival.
Context {R : Type} {RG : Ring R} {S : Type} {SO : SessionOps S}.

Notation engine := (Engine.t S R).

(** A paused read whose unlink won starts again together with the reads after it; any other result
    is kept until its message is the head. *)
Inductive arrives (key : EndpointKey) (token : Z) (result : TransferResult) : engine → engine → Prop :=
| arrives_unlinked e ep before f after status s :
    Engine.endpoints e !! key = Some ep → Endpoint.in_flight ep = before ++ f :: after →
    InFlight.token f = token → Forall (λ g, InFlight.token g ≠ token) before →
    InFlight.unlinking f = true → result = Err (Unlinked status) →
    unlink_flights after (Engine.session e) = Done s →
    arrives key token result e (Engine.set_session s (Engine.put key (Endpoint.set_in_flight before ep) e))
| arrives_result e ep before f after :
    Engine.endpoints e !! key = Some ep → Endpoint.in_flight ep = before ++ f :: after →
    InFlight.token f = token → Forall (λ g, InFlight.token g ≠ token) before →
    (InFlight.unlinking f = true → ∀ status, result ≠ Err (Unlinked status)) →
    arrives key token result e
      (Engine.put key (Endpoint.set_in_flight (before ++ InFlight.set_result result f :: after) ep) e).

(** No URB of the endpoint has the token: the completion is stale. *)
Definition unknown_token (key : EndpointKey) (token : Z) (e : engine) : Prop :=
  ∀ ep, Engine.endpoints e !! key = Some ep → Forall (λ g, InFlight.token g ≠ token) (Endpoint.in_flight ep).

Lemma position_split {A} (p : A → bool) l i x :
  position p l = Some i → l !! i = Some x →
  l = take i l ++ x :: drop (Datatypes.S i) l ∧ p x = true ∧ Forall (λ z, p z = false) (take i l).
Proof.
  intros Hp Hx. apply position_Some in Hp as [(y0 & Hy & Hpy) Hlt]. simplify_eq.
  split; [by rewrite take_drop_middle|]. split; [done|].
  apply Forall_lookup. intros j y Hj. apply lookup_take_Some in Hj as [Hj ?]. eauto.
Qed.

Lemma finish_cases messages key token result (e : engine) :
  (unknown_token key token e ∧ finish messages key token result e = Done e) ∨
  (∃ ep, Engine.endpoints e !! key = Some ep ∧
    ¬ Forall (λ g, InFlight.token g ≠ token) (Endpoint.in_flight ep) ∧
    ((∃ e1, arrives key token result e e1 ∧ finish messages key token result e = pump messages key e1) ∨
     ((∃ fs, fs `sublist_of` Endpoint.in_flight ep ∧ ∀ s, unlink_flights fs (Engine.session e) ≠ Done s) ∧
      ∀ e', finish messages key token result e ≠ Done e'))).
Proof.
  unfold finish, unknown_token. destruct (Engine.endpoints e !! key) as [ep|] eqn:He; [|by left].
  destruct (position _ _) as [i|] eqn:Ep.
  2: { left. split; [|done]. intros ep' [= <-]. apply position_None in Ep.
       eapply Forall_impl; [exact Ep|]. cbn. intros f Hf. by apply Z.eqb_neq. }
  right. exists ep. split; [done|].
  assert (is_Some (Endpoint.in_flight ep !! i)) as [f Hf].
  { apply position_Some in Ep as [(y & ? & ?) _]. eauto. }
  destruct (position_split _ _ _ _ Ep Hf) as (Hsplit & Ht & Hbefore). apply Z.eqb_eq in Ht.
  assert (Forall (λ g, InFlight.token g ≠ token) (take i (Endpoint.in_flight ep))) as Hb.
  { eapply Forall_impl; [exact Hbefore|]. cbn. intros g Hg. by apply Z.eqb_neq. }
  split.
  { rewrite Forall_forall. intros H. apply (H f); [|done]. by eapply list_elem_of_lookup_2. }
  rewrite (idx_lookup _ _ _ Hf). cbn [mbind outcome_bind].
  assert (tail (drop i (Endpoint.in_flight ep)) = drop (Datatypes.S i) (Endpoint.in_flight ep)) as Etail.
  { by rewrite (drop_S _ f) by done. }
  destruct (InFlight.unlinking f && _) eqn:Eu.
  - apply andb_true_iff in Eu as [Eu Er]. destruct result as [|[status| |]]; try done.
    cbv zeta. rewrite Etail. unfold unlink_all. cbn.
    destruct (unlink_flights (drop (Datatypes.S i) (Endpoint.in_flight ep)) (Engine.session e))
      as [s| |] eqn:Es.
    + left. eexists. split; [|done]. eapply arrives_unlinked; eauto.
    + right. split; [|done]. eexists. split; [apply sublist_drop|]. intros s. by rewrite Es.
    + right. split; [|done]. eexists. split; [apply sublist_drop|]. intros s. by rewrite Es.
  - left. eexists. split; [|done].
    assert (i < length (Endpoint.in_flight ep))%nat as Hi by by eapply lookup_lt_Some.
    rewrite insert_take_drop by done. eapply arrives_result; eauto.
    intros Hu status ->. by rewrite Hu in Eu.
Qed.

End Arrival.
