(* ===== verification/EngineSteps.v ===== *)
(** * EngineSteps: the engine among its neighbours (src/src/engine.rs)

    [estep] is one operation on the engine, called by the controller or by the task of a URB, or a
    change by one of its neighbours: the host moves a ring, the session reads a reply; with the small
    steps that explain it, which are its labels.  That every call of the code has such an explanation is
    [EngineRuns.cstep_explained]; what is claimed of the code is claimed of its runs there.  All operations but the pump's and [finish] only take flights away,
    and unlink those that are unresolved ([shrinks]). *)

From stdpp Require Import base tactics option list gmap fin_maps relations sorting.
From S2P Require Import Prelude Protocol Hci HideUas Session Engine EngineFacts.

(** ** The neighbours *)

(** [env]: what other tasks do to the session; [asked]: the URBs it has been told to unlink. *)
Class SessionTrace (S : Type) {SO : SessionOps S} := {
  env : S → S → Prop;
  asked : S → list Z;
  submit_asked req s x s' : session_submit req s = Done (x, s') → asked s ⊆ asked s';
  unlink_asked n s s' : session_unlink n s = Done s' → n ∈ asked s' ∧ asked s ⊆ asked s';
  env_asked s s' : env s s' → asked s ⊆ asked s';
}.

(** Any session, with the unlink requests written down. *)
Module Logged.
Section Logged.
Context {S : Type} {SO : SessionOps S}.

#[global] Instance ops : SessionOps (S * list Z) := {
  session_submit req s := '(x, s') ← session_submit req s.1; Done (x, (s', s.2));
  session_unlink n s := s' ← session_unlink n s.1; Done (s', s.2 ++ [n]);
  session_speed s := session_speed s.1;
}.

#[global] Program Instance trace : SessionTrace (S * list Z) := {
  env s s' := s'.2 = s.2;
  asked s := s.2;
}.
Next Obligation.
  intros req [s l] x [s' l']. cbn. destruct (session_submit req s) as [[y s1]| |]; cbn; try done.
  by intros [= <- <- <-].
Qed.
Next Obligation.
  intros n [s l] [s' l']. cbn. destruct (session_unlink n s) as [s1| |]; cbn; try done.
  intros [= <- <-]. set_solver.
Qed.
Next Obligation. intros [s l] [s' l']. cbn. by intros ->. Qed.

#[global] Instance laws {SL : SessionLaws S} : SessionLaws (S * list Z).
Proof.
  refine {| good (s : S * list Z) := good s.1; room (s : S * list Z) := room s.1 |}.
  - intros req [s l] Hg Hr. destruct (submit_returns req s Hg Hr) as (x & s' & E & ? & ?).
    exists x, (s', l). cbn in *. by rewrite E.
  - intros n [s l] Hg Hr. destruct (unlink_returns n s Hg Hr) as (s' & E & ? & ?).
    exists (s', l ++ [n]). cbn in *. by rewrite E.
  - intros req [s l] x [s' l']. cbn. destruct (session_submit req s) as [[y s1]| |] eqn:E; try done.
    cbn. intros [= _ <- _]. by eapply submit_speed.
  - intros n [s l] [s' l']. cbn. destruct (session_unlink n s) as [s1| |] eqn:E; try done.
    cbn. intros [= <- _]. by eapply unlink_speed.
Defined.

End Logged.
End Logged.

(** ** The operations as steps *)

Section Steps.
Context {R : Type} {RG : Ring R} {S : Type} {SO : SessionOps S} {ST : SessionTrace S}.

Notation engine := (Engine.t S R).

Inductive estep : list (label R) → engine → engine → Prop :=
| e_add key info ring e e' : add_endpoint key info ring e = Done e' → estep [] e e'
| e_update key info e : estep [] e (update_endpoint key info e)
| e_remove key e e' : remove_endpoint key e = Done e' → estep [] e e'
| e_remove_device device e e' : remove_device device e = Done e' → estep [] e e'
| e_reset key e e' : reset_endpoint key e = Done e' → estep [] e e'
| e_pause key e e' : pause_endpoint key e = Done e' → estep [] e e'
| e_sync key e e' : sync_endpoint key e = Done e' → estep [] e e'
| e_doorbell messages key ls e e' :
    doorbell messages key e = Done e' → psteps key ls e e' → estep ls e e'
| e_finish messages key token c result ls e e1 e' :
    mk_waiter key token c ∈ Engine.waiters e →
    finish messages key token result e = Done e' →
    arrives key token result e e1 → psteps key ls e1 e' →
    estep (Finished key token result :: ls) e e'
| e_finish_stale messages key token c result e :
    mk_waiter key token c ∈ Engine.waiters e →
    finish messages key token result e = Done e → unknown_token key token e →
    estep [Finished key token result] e e
| e_reset_device await x e e' : reset_device await e = Done (x, e') → estep [] e e'
| e_host key ep r e :
    Engine.endpoints e !! key = Some ep → estep [] e (Engine.put key (Endpoint.set_ring r ep) e)
| e_session s e : env (Engine.session e) s → estep [] e (Engine.set_session s e).

Inductive reaches (s0 : S) : list (label R) → engine → Prop :=
| reaches_new : reaches s0 [] (new s0)
| reaches_step ls1 ls2 e1 e2 : reaches s0 ls1 e1 → estep ls2 e1 e2 → reaches s0 (ls1 ++ ls2) e2.

(** ** Operations that only take flights away *)

Definition flights (key : EndpointKey) (e : engine) : list InFlight.t :=
  match Engine.endpoints e !! key with Some ep => Endpoint.in_flight ep | None => [] end.

Definition tokens (key : EndpointKey) (e : engine) : list Z := InFlight.token <$> flights key e.

(** The same flight, perhaps unlinked meanwhile. *)
Definition similar (f g : InFlight.t) : Prop := g = f ∨ g = InFlight.set_unlinking f.

(** The same URB, whatever happened to it. *)
Definition kin (f g : InFlight.t) : Prop :=
  InFlight.token g = InFlight.token f ∧ InFlight.message g = InFlight.message f ∧
  InFlight.stage g = InFlight.stage f ∧ InFlight.direction g = InFlight.direction f ∧
  InFlight.length g = InFlight.length f ∧ InFlight.seqnum g = InFlight.seqnum f.

Lemma similar_kin f g : similar f g → kin f g.
Proof. by intros [->| ->]. Qed.

Lemma kin_refl f : kin f f.
Proof. by repeat split. Qed.

Lemma kin_trans f g h : kin f g → kin g h → kin f h.
Proof. unfold kin. intuition congruence. Qed.

(** From [fs] to [gs], flights are only taken away, and the unresolved ones are unlinked. *)
Record thinned (asked' : list Z) (fs gs : list InFlight.t) : Prop := {
  thinned_tokens : (InFlight.token <$> gs) `sublist_of` (InFlight.token <$> fs);
  thinned_from g : g ∈ gs → ∃ f, f ∈ fs ∧ similar f g;
  thinned_to f : f ∈ fs → InFlight.result f = None →
    (∃ g, g ∈ gs ∧ similar f g) ∨ InFlight.seqnum f ∈ asked';
}.

Record shrinks (e e' : engine) : Prop := {
  shrinks_waiters : Engine.waiters e' = Engine.waiters e;
  shrinks_token : Engine.next_token e' = Engine.next_token e;
  shrinks_asked : asked (Engine.session e) ⊆ asked (Engine.session e');
  shrinks_flights key : thinned (asked (Engine.session e')) (flights key e) (flights key e');
}.

#[local] Instance similar_refl : Reflexive similar.
Proof. by left. Qed.

Lemma similar_trans : Transitive similar.
Proof. intros f g h [->| ->] [->| ->]; unfold similar; auto. Qed.

Lemma similar_fields f g : similar f g →
  InFlight.token g = InFlight.token f ∧ InFlight.seqnum g = InFlight.seqnum f ∧
  InFlight.result g = InFlight.result f.
Proof. by intros [->| ->]. Qed.

Lemma thinned_refl l fs : thinned l fs fs.
Proof. split; [done|..]; naive_solver. Qed.

Lemma thinned_trans l l' fs gs hs :
  l ⊆ l' → thinned l fs gs → thinned l' gs hs → thinned l' fs hs.
Proof.
  intros Hl [Ht1 Hf1 Hto1] [Ht2 Hf2 Hto2]. split.
  - by etrans.
  - intros h (g & (f & Hf & Hfg)%Hf1 & Hgh)%Hf2. exists f. split; [done|]. by eapply similar_trans.
  - intros f Hf Hr. destruct (Hto1 f Hf Hr) as [(g & Hg & Hfg)|Ha]; [|by right; apply Hl].
    apply similar_fields in Hfg as Hx. destruct Hx as (_ & Es & Er).
    destruct (Hto2 g Hg ltac:(by rewrite Er)) as [(h & Hh & Hgh)|Ha].
    + left. exists h. split; [done|]. by eapply similar_trans.
    + right. by rewrite <- Es.
Qed.

Lemma shrinks_refl e : shrinks e e.
Proof. split; [done..|]. intros. apply thinned_refl. Qed.

Lemma shrinks_trans e1 e2 e3 : shrinks e1 e2 → shrinks e2 e3 → shrinks e1 e3.
Proof.
  intros [Hw1 Ht1 Ha1 Hf1] [Hw2 Ht2 Ha2 Hf2]. split; [congruence..| |].
  - by etrans.
  - intros key. by eapply thinned_trans.
Qed.

(** *** Unlinking *)

Lemma unlink_flights_asked fs s s' :
  unlink_flights fs s = Done s' →
  asked s ⊆ asked s' ∧ ∀ f, f ∈ fs → InFlight.result f = None → InFlight.seqnum f ∈ asked s'.
Proof.
  revert s. induction fs as [|f fs IH]; intros s; cbn [unlink_flights].
  { intros [= <-]. split; [done|]. intros f Hf. by apply elem_of_nil in Hf. }
  destruct (InFlight.unresolved f) eqn:Eu.
  - destruct (session_unlink (InFlight.seqnum f) s) as [s1| |] eqn:Es; try done.
    apply unlink_asked in Es as [Hin Hsub]. intros [Hs1 Hall]%IH. split; [by etrans|].
    intros g [->|Hg]%elem_of_cons Hr; auto.
  - intros [Hs1 Hall]%IH. split; [done|]. intros g [->|Hg]%elem_of_cons Hr; [|auto].
    unfold InFlight.unresolved in Eu. by rewrite Hr in Eu.
Qed.

(** Keeping [kept] and unlinking [dropped] thins the flights. *)
Lemma thinned_unlink kept dropped s s' :
  unlink_flights dropped s = Done s' → thinned (asked s') (kept ++ dropped) kept.
Proof.
  intros [_ Hall]%unlink_flights_asked. split.
  - rewrite fmap_app. by apply sublist_inserts_r.
  - intros g Hg. exists g. split; [set_solver|done].
  - intros f [Hf|Hf]%elem_of_app Hr; [left; by exists f|right; auto].
Qed.

Lemma flights_insert key key' ep m (e : engine) :
  Engine.endpoints e = <[key := ep]> m →
  flights key' e = if decide (key' = key) then Endpoint.in_flight ep else
                     match m !! key' with Some ep => Endpoint.in_flight ep | None => [] end.
Proof.
  intros E. unfold flights. rewrite E. case_decide as Hk; [subst; by rewrite lookup_insert_eq|].
  by rewrite lookup_insert_ne.
Qed.

(** Changing one endpoint, with its flights thinned. *)
Lemma shrinks_put key ep e s :
  asked (Engine.session e) ⊆ asked s → thinned (asked s) (flights key e) (Endpoint.in_flight ep) →
  shrinks e (Engine.set_session s (Engine.put key ep e)).
Proof.
  intros Ha Ht. split; [done..|]. intros key'.
  rewrite (flights_insert key key' ep (Engine.endpoints e) (Engine.set_session s (Engine.put key ep e))) by done.
  case_decide; [by subst|]. apply thinned_refl.
Qed.

(** Removing one endpoint. *)
Lemma shrinks_delete key e s :
  unlink_flights (flights key e) (Engine.session e) = Done s →
  shrinks e (Engine.set_session s (Engine.set_endpoints (delete key (Engine.endpoints e)) e)).
Proof.
  intros Hu. pose proof (unlink_flights_asked _ _ _ Hu) as [Ha _]. split; [done..|]. intros key'.
  unfold flights at 2. cbn. destruct (decide (key' = key)) as [->|Hk].
  - rewrite lookup_delete_eq. by eapply (thinned_unlink []).
  - rewrite lookup_delete_ne by done. apply thinned_refl.
Qed.

(** *** Every such operation *)

Lemma set_session_put s key ep (e : engine) :
  Engine.set_session s (Engine.put key ep e) = Engine.put key ep (Engine.set_session s e).
Proof. done. Qed.

Lemma flights_lookup key ep e : Engine.endpoints e !! key = Some ep → flights key e = Endpoint.in_flight ep.
Proof. unfold flights. by intros ->. Qed.

(** An endpoint changed without touching flights or session. *)
Lemma shrinks_same key ep ep' e :
  Engine.endpoints e !! key = Some ep → Endpoint.in_flight ep' = Endpoint.in_flight ep →
  shrinks e (Engine.put key ep' e).
Proof.
  intros He Ef. pose proof (shrinks_put key ep' e (Engine.session e)) as H. destruct e. apply H; [done|].
  rewrite (flights_lookup _ _ _ He), Ef. apply thinned_refl.
Qed.

(** Dropping the last flights of an endpoint and unlinking them. *)
Lemma shrinks_unlink key ep ep' kept dropped e e' :
  Engine.endpoints e !! key = Some ep → Endpoint.in_flight ep = kept ++ dropped →
  Endpoint.in_flight ep' = kept → unlink_all dropped (Engine.put key ep' e) = Done e' →
  shrinks e e'.
Proof.
  intros He Ef Ek (s & Hu & ->)%unlink_all_inv. apply shrinks_put.
  - by apply unlink_flights_asked in Hu as [? _].
  - rewrite (flights_lookup _ _ _ He), Ef, Ek. by eapply thinned_unlink.
Qed.

Lemma shrinks_session e s : asked (Engine.session e) ⊆ asked s → shrinks e (Engine.set_session s e).
Proof.
  intros Ha. split; [done..|]. intros key. apply thinned_refl.
Qed.

Lemma add_endpoint_shrinks key info ring e e' : add_endpoint key info ring e = Done e' → shrinks e e'.
Proof.
  unfold add_endpoint. destruct (Engine.endpoints e !! key) as [old|] eqn:He.
  - intros H. eapply (shrinks_unlink key _ _ [] _ e e' He); [|  |exact H]; [|done]. done.
  - intros [= <-]. pose proof (shrinks_put key (Endpoint.mk ring info [] None None) e (Engine.session e)) as H.
    destruct e. apply H; [done|]. unfold flights. rewrite He. apply thinned_refl.
Qed.

Lemma update_endpoint_shrinks key info e : shrinks e (update_endpoint key info e).
Proof.
  unfold update_endpoint. destruct (Engine.endpoints e !! key) as [ep|] eqn:He; [|apply shrinks_refl].
  by eapply shrinks_same.
Qed.

Lemma remove_endpoint_shrinks key e e' : remove_endpoint key e = Done e' → shrinks e e'.
Proof.
  unfold remove_endpoint. destruct (Engine.endpoints e !! key) as [ep|] eqn:He.
  - intros (s & Hu & ->)%unlink_all_inv. apply shrinks_delete. by rewrite (flights_lookup _ _ _ He).
  - intros [= <-]. rewrite delete_id by done. destruct e. apply shrinks_refl.
Qed.

Lemma unlink_flights_app fs gs (s s' : S) :
  unlink_flights (fs ++ gs) s = Done s' ↔
  ∃ s1, unlink_flights fs s = Done s1 ∧ unlink_flights gs s1 = Done s'.
Proof.
  revert s. induction fs as [|f fs IH]; intros s; cbn [app unlink_flights]; [naive_solver|].
  destruct (if InFlight.unresolved f then _ else _) as [s1| |]; cbn [mbind outcome_bind];
    [apply IH|naive_solver..].
Qed.

Lemma unlink_removed_inv eps (e e' : engine) :
  unlink_removed eps e = Done e' →
  ∃ s, unlink_flights (concat (Endpoint.in_flight <$> eps)) (Engine.session e) = Done s ∧
    e' = Engine.set_session s e.
Proof.
  revert e. induction eps as [|ep eps IH]; intros e; cbn [unlink_removed fmap list_fmap concat].
  { intros [= <-]. exists (Engine.session e). split; [done|]. by destruct e. }
  destruct (unlink_all _ e) as [e1| |] eqn:E; try done. cbn [mbind outcome_bind].
  apply unlink_all_inv in E as (s1 & Hs1 & ->). intros (s & Hs & ->)%IH.
  exists s. split; [|done]. apply unlink_flights_app. eauto.
Qed.

(** What the two folds over the device's keys leave and return. *)
Lemma foldl_delete_lookup {A} (m : gmap EndpointKey A) keys k :
  foldl (λ m k, delete k m) m keys !! k = if decide (k ∈ keys) then None else m !! k.
Proof.
  revert m. induction keys as [|k' keys IH]; intros m; cbn [foldl].
  { by rewrite decide_False by apply not_elem_of_nil. }
  rewrite IH. destruct (decide (k = k')) as [->|Hk].
  - rewrite (decide_True (P := k' ∈ k' :: keys)) by (by left).
    rewrite lookup_delete_eq. by case_decide.
  - rewrite lookup_delete_ne by done. apply decide_ext. rewrite elem_of_cons. naive_solver.
Qed.

Lemma device_keys device (e : engine) k :
  k ∈ base.filter (λ k : EndpointKey, k.1 = device) ((map_to_list (Engine.endpoints e)).*1) ↔
  k.1 = device ∧ is_Some (Engine.endpoints e !! k).
Proof.
  rewrite list_elem_of_filter, list_elem_of_fmap. split.
  - intros [Hk ([k' ep] & -> & Hin)]. split; [done|]. apply elem_of_map_to_list in Hin. by eexists.
  - intros [Hk [ep Hep]]. split; [done|]. exists (k, ep). split; [done|]. by apply elem_of_map_to_list.
Qed.

Lemma remove_device_endpoints device (e e' : engine) key :
  remove_device device e = Done e' →
  Engine.endpoints e' !! key = if decide (key.1 = device) then None else Engine.endpoints e !! key.
Proof.
  unfold remove_device. intros (s & _ & ->)%unlink_removed_inv. cbn.
  rewrite foldl_delete_lookup. destruct (decide (key.1 = device)) as [Hk|Hk].
  - case_decide as Hin; [done|]. apply eq_None_not_Some. intros Hi. apply Hin. by apply device_keys.
  - rewrite decide_False; [done|]. intros [? _]%device_keys. done.
Qed.

Lemma remove_device_shrinks device e e' : remove_device device e = Done e' → shrinks e e'.
Proof.
  unfold remove_device. set (keys := base.filter _ _).
  intros (s & Hu & ->)%unlink_removed_inv. cbn in Hu.
  apply unlink_flights_asked in Hu as [Ha Hall]. split; [done..|]. intros key.
  unfold flights at 2. cbn. rewrite foldl_delete_lookup.
  case_decide as Hk; [|apply thinned_refl].
  split; [apply sublist_nil_l|intros g Hg; by apply elem_of_nil in Hg|].
  intros f Hf Hr. right. apply Hall; [|done]. apply device_keys in Hk as Hk2.
  destruct Hk2 as [_ [ep Hep]]. rewrite (flights_lookup _ _ _ Hep) in Hf.
  apply list_elem_of_In, in_concat. exists (Endpoint.in_flight ep).
  split; [|by apply list_elem_of_In]. apply list_elem_of_In, list_elem_of_fmap. exists ep.
  split; [done|]. apply list_elem_of_omap. eauto.
Qed.

Lemma reset_endpoint_shrinks key e e' : reset_endpoint key e = Done e' → shrinks e e'.
Proof.
  unfold reset_endpoint. destruct (Engine.endpoints e !! key) as [ep|] eqn:He.
  - intros H. eapply (shrinks_unlink key _ _ [] _ e e' He); [|  |exact H]; [|done]. done.
  - intros [= <-]. apply shrinks_refl.
Qed.

Lemma sync_endpoint_shrinks key e e' : sync_endpoint key e = Done e' → shrinks e e'.
Proof.
  unfold sync_endpoint. destruct (Engine.endpoints e !! key) as [ep|] eqn:He.
  2: { intros [= <-]. apply shrinks_refl. }
  destruct (Endpoint.in_flight ep) as [|f fs] eqn:Ef.
  { intros [= <-]. apply shrinks_refl. }
  case_match; [|intros [= <-]; apply shrinks_refl].
  intros Hu. eapply (shrinks_unlink key _ _ [] _ e e' He); [exact Ef| |exact Hu]. done.
Qed.

Lemma pause_flights_spec fs s gs s' :
  pause_flights fs s = Done (gs, s') →
  Forall2 similar fs gs ∧ asked s ⊆ asked s' ∧
  ∀ f, f ∈ fs → InFlight.result f = None → InFlight.unlinking f = false →
    InFlight.seqnum f ∈ asked s'.
Proof.
  revert s gs. induction fs as [|f fs IH]; intros s gs; cbn [pause_flights].
  { intros [= <- <-]. split; [done|]. split; [done|]. intros f Hf. by apply elem_of_nil in Hf. }
  assert (∀ f1 s1, similar f f1 → asked s ⊆ asked s1 →
    (InFlight.result f = None → InFlight.unlinking f = false → InFlight.seqnum f ∈ asked s1) →
    ('(fs', s2) ← pause_flights fs s1; Done (f1 :: fs', s2)) = Done (gs, s') →
    Forall2 similar (f :: fs) gs ∧ asked s ⊆ asked s' ∧
    ∀ g, g ∈ f :: fs → InFlight.result g = None → InFlight.unlinking g = false →
      InFlight.seqnum g ∈ asked s') as Hgo.
  { intros f1 s1 Hs Ha Hf. destruct (pause_flights fs s1) as [[fs' s2]| |] eqn:E; try done.
    cbn [mbind outcome_bind]. intros [= <- <-]. apply IH in E as (Hall & Ha2 & Hin).
    split; [by constructor|]. split; [by etrans|]. intros g [->|Hg]%elem_of_cons Hr Hu; auto. }
  destruct (InFlight.unresolved f && negb (InFlight.unlinking f)) eqn:Eu.
  - destruct (session_unlink (InFlight.seqnum f) s) as [s1| |] eqn:Es; try done.
    cbn [mbind outcome_bind]. apply unlink_asked in Es as [Hin Hsub].
    apply Hgo; [by right|done|done].
  - cbn [mbind outcome_bind]. apply Hgo; [by left|done|]. intros Hr Hu.
    unfold InFlight.unresolved in Eu. by rewrite Hr, Hu in Eu.
Qed.

Lemma Forall2_similar_thinned l fs gs : Forall2 similar fs gs → thinned l fs gs.
Proof.
  intros H. split.
  - assert (InFlight.token <$> gs = InFlight.token <$> fs) as ->; [|done].
    induction H as [|f g fs gs Hs _ IH]; [done|]. cbn. rewrite IH.
    by apply similar_fields in Hs as [-> _].
  - intros g [i Hg]%list_elem_of_lookup. destruct (Forall2_lookup_r _ _ _ _ _ H Hg) as (f & Hf & Hs).
    exists f. split; [by eapply list_elem_of_lookup_2|done].
  - intros f [i Hf]%list_elem_of_lookup _. left.
    destruct (Forall2_lookup_l _ _ _ _ _ H Hf) as (g & Hg & Hs).
    exists g. split; [by eapply list_elem_of_lookup_2|done].
Qed.

Lemma pause_endpoint_shrinks key e e' : pause_endpoint key e = Done e' → shrinks e e'.
Proof.
  unfold pause_endpoint. case_match; [intros [= <-]; apply shrinks_refl|].
  destruct (Engine.endpoints e !! key) as [ep|] eqn:He; [|intros [= <-]; apply shrinks_refl].
  destruct (pause_flights _ _) as [[gs s]| |] eqn:E; try done. cbn [mbind outcome_bind].
  intros [= <-]. apply pause_flights_spec in E as (Hall & Ha & _). apply shrinks_put; [done|].
  rewrite (flights_lookup _ _ _ He). by apply Forall2_similar_thinned.
Qed.

Lemma reset_device_shrinks await e x e' : reset_device await e = Done (x, e') → shrinks e e'.
Proof.
  unfold reset_device. destruct (session_submit reset_request (Engine.session e)) as [[y s]| |] eqn:Es;
    try done.
  cbn [mbind outcome_bind]. intros H. assert (e' = Engine.set_session s e) as ->.
  { repeat case_match; congruence. }
  apply shrinks_session. by eapply submit_asked.
Qed.

(** What one operation is: it only takes flights away, or pumps, or takes in a result and pumps, or
    takes in a stale result. *)
Lemma estep_cases ls e e' :
  estep ls e e' →
  (ls = [] ∧ shrinks e e') ∨ (∃ key, psteps key ls e e') ∨
  (∃ key token result ls1 e1, ls = Finished key token result :: ls1 ∧
     arrives key token result e e1 ∧ psteps key ls1 e1 e') ∨
  (∃ key token result, ls = [Finished key token result] ∧ e' = e).
Proof.
  destruct 1;
    try (left; split; [done|]; eauto using add_endpoint_shrinks, update_endpoint_shrinks,
      remove_endpoint_shrinks, remove_device_shrinks, reset_endpoint_shrinks, pause_endpoint_shrinks,
      sync_endpoint_shrinks, reset_device_shrinks, shrinks_session, env_asked; fail).
  - eauto.
  - do 2 right. left. eauto 10.
  - do 3 right. eauto.
  - left. split; [done|]. by eapply shrinks_same.
Qed.

End Steps.

(** ** What an operation of the engine does to the session *)

Section Acts.
Context {R : Type} {RG : Ring R} {S : Type} {SO : SessionOps S} {ST : SessionTrace S}.

Notation engine := (Engine.t S R).

Inductive act : S → S → Prop :=
| act_submit req x s s' : session_submit req s = Done (x, s') → act s s'
| act_unlink n s s' : session_unlink n s = Done s' → act s s'
| act_env s s' : env s s' → act s s'.

Definition acts (e e' : engine) : Prop := rtc act (Engine.session e) (Engine.session e').

#[local] Instance acts_preorder : PreOrder acts.
Proof. split; [intros e; apply rtc_refl|]. intros e1 e2 e3 H1 H2. unfold acts in *. by etrans. Qed.

(** Operations that only unlink. *)
Definition unlinks : S → S → Prop := rtc (λ s s', ∃ n, session_unlink n s = Done s').

#[local] Instance unlinks_preorder : PreOrder unlinks.
Proof. split; [intros s; apply rtc_refl|]. intros s1 s2 s3 H1 H2. unfold unlinks in *. by etrans. Qed.

Lemma unlinks_once n s s' : session_unlink n s = Done s' → unlinks s s'.
Proof. intros H. apply rtc_once. eauto. Qed.

Lemma unlinks_acts s s' : unlinks s s' → rtc act s s'.
Proof.
  induction 1 as [s|s1 s2 s3 [n H] _ IH]; [apply rtc_refl|].
  eapply rtc_l; [by eapply act_unlink|done].
Qed.

Lemma unlink_flights_unlinks fs s s' : unlink_flights fs s = Done s' → unlinks s s'.
Proof.
  revert s. induction fs as [|f fs IH]; intros s; cbn [unlink_flights]; [by intros [= ->]|].
  destruct (InFlight.unresolved f); cbn [mbind outcome_bind]; [|apply IH].
  destruct (session_unlink _ s) as [s1| |] eqn:E; try done. cbn [mbind outcome_bind].
  intros H. etrans; [by eapply unlinks_once|by apply IH].
Qed.

Lemma unlink_all_unlinks fs (e e' : engine) :
  unlink_all fs e = Done e' → unlinks (Engine.session e) (Engine.session e').
Proof. intros (s & Hs & ->)%unlink_all_inv. by apply unlink_flights_unlinks in Hs. Qed.

Lemma unlink_removed_unlinks eps (e e' : engine) :
  unlink_removed eps e = Done e' → unlinks (Engine.session e) (Engine.session e').
Proof.
  revert e. induction eps as [|ep eps IH]; intros e; cbn [unlink_removed]; [by intros [= ->]|].
  destruct (unlink_all _ e) as [e1| |] eqn:E; try done. cbn [mbind outcome_bind]. intros H.
  etrans; [exact (unlink_all_unlinks _ _ _ E)|by apply IH].
Qed.

Lemma pause_flights_unlinks fs s gs s' : pause_flights fs s = Done (gs, s') → unlinks s s'.
Proof.
  revert s gs. induction fs as [|f fs IH]; intros s gs; cbn [pause_flights]; [by intros [= _ ->]|].
  assert (∀ f1 s1, unlinks s s1 →
    ('(in_flight, s) ← pause_flights fs s1; Done (f1 :: in_flight, s)) = Done (gs, s') → unlinks s s')
    as Hgo.
  { intros f1 s1 H1. destruct (pause_flights fs s1) as [[gs1 s2]| |] eqn:E; try done.
    cbn [mbind outcome_bind]. intros [= <- <-]. etrans; [exact H1|exact (IH _ _ E)]. }
  destruct (_ && _); [|by apply Hgo].
  destruct (session_unlink _ s) as [s1| |] eqn:E; try done. cbn [mbind outcome_bind].
  apply Hgo. by eapply unlinks_once.
Qed.

(** An operation plans at most one request, on an endpoint the engine has. *)
Lemma pstep_session key ls (e e' : engine) : pstep key ls e e' →
  unlinks (Engine.session e) (Engine.session e') ∨
  ∃ ep message req stage x, Engine.endpoints e !! key = Some ep ∧
    plan key (session_speed (Engine.session e)) ep message req stage ∧
    session_submit req (Engine.session e) = Done (x, Engine.session e').
Proof.
  destruct 1; cbn; try (by left); try (right; by eexists _, _, _, _, _).
  left. by eapply unlink_flights_unlinks.
Qed.

Lemma pstep_acts key ls (e e' : engine) : pstep key ls e e' → acts e e'.
Proof.
  intros [H|(ep & message & req & stage & x & _ & _ & H)]%pstep_session; [by apply unlinks_acts|].
  apply rtc_once. by eapply act_submit.
Qed.

Lemma psteps_acts key ls (e e' : engine) : psteps key ls e e' → acts e e'.
Proof.
  induction 1 as [|ls1 ls2 e1 e2 e3 H _ IH]; [apply rtc_refl|].
  transitivity e2; [exact (pstep_acts _ _ _ _ H)|done].
Qed.

Lemma add_endpoint_unlinks key info ring (e e' : engine) :
  add_endpoint key info ring e = Done e' → unlinks (Engine.session e) (Engine.session e').
Proof.
  unfold add_endpoint. intros H.
  destruct (_ !! key); [by apply unlink_all_unlinks in H|by injection H as <-].
Qed.

Lemma update_endpoint_unlinks key info (e : engine) :
  unlinks (Engine.session e) (Engine.session (update_endpoint key info e)).
Proof. unfold update_endpoint. by destruct (_ !! key). Qed.

Lemma remove_endpoint_unlinks key (e e' : engine) :
  remove_endpoint key e = Done e' → unlinks (Engine.session e) (Engine.session e').
Proof.
  unfold remove_endpoint. intros H.
  destruct (_ !! key); [by apply unlink_all_unlinks in H|by injection H as <-].
Qed.

Lemma remove_device_unlinks device (e e' : engine) :
  remove_device device e = Done e' → unlinks (Engine.session e) (Engine.session e').
Proof. by intros H%unlink_removed_unlinks. Qed.

Lemma reset_endpoint_unlinks key (e e' : engine) :
  reset_endpoint key e = Done e' → unlinks (Engine.session e) (Engine.session e').
Proof.
  unfold reset_endpoint. intros H.
  destruct (_ !! key); [by apply unlink_all_unlinks in H|by injection H as <-].
Qed.

Lemma pause_endpoint_unlinks key (e e' : engine) :
  pause_endpoint key e = Done e' → unlinks (Engine.session e) (Engine.session e').
Proof.
  unfold pause_endpoint. intros H. case_match; [by injection H as <-|].
  destruct (_ !! key); [|by injection H as <-].
  destruct (pause_flights _ _) as [[gs s]| |] eqn:E; try done. injection H as <-.
  by apply pause_flights_unlinks in E.
Qed.

Lemma sync_endpoint_unlinks key (e e' : engine) :
  sync_endpoint key e = Done e' → unlinks (Engine.session e) (Engine.session e').
Proof.
  unfold sync_endpoint. intros H. destruct (_ !! key) as [ep|]; [|by injection H as <-].
  destruct (Endpoint.in_flight ep); [by injection H as <-|].
  case_match; [by apply unlink_all_unlinks in H|by injection H as <-].
Qed.

Lemma reset_device_submits await x (e e' : engine) : reset_device await e = Done (x, e') →
  ∃ y, session_submit reset_request (Engine.session e) = Done (y, Engine.session e').
Proof.
  unfold reset_device. destruct (session_submit _ _) as [[y s]| |]; try done. cbn [mbind outcome_bind].
  intros H. assert (e' = Engine.set_session s e) as -> by (repeat case_match; congruence). by exists y.
Qed.

(** What an operation does to the session: it only unlinks, pumps one endpoint, perhaps with a result that
    arrived, resets the device, or it is not the engine that acts. *)
Inductive change (e e' : engine) : Prop :=
| change_unlinks : unlinks (Engine.session e) (Engine.session e') → change e e'
| change_pump key ls e1 :
    e1 = e ∨ (∃ token result, arrives key token result e e1) → psteps key ls e1 e' → change e e'
| change_reset x :
    session_submit reset_request (Engine.session e) = Done (x, Engine.session e') → change e e'
| change_env : env (Engine.session e) (Engine.session e') → change e e'.

Lemma estep_change ls (e e' : engine) : estep ls e e' → change e e'.
Proof.
  destruct 1 as [key info ring e e' H|key info e|key e e' H|device e e' H|key e e' H|key e e' H|key e e' H
    |messages key ls e e' _ H|messages key token c result ls e e1 e' _ _ Ha H|messages key token c result e
    |await x e e' H|key ep r e Hep|s e Henv].
  8,9: by eapply change_pump; eauto.
  9: by apply reset_device_submits in H as [y H]; eapply change_reset.
  10: by apply change_env.
  all: apply change_unlinks; try done.
  - by eapply add_endpoint_unlinks.
  - apply update_endpoint_unlinks.
  - by eapply remove_endpoint_unlinks.
  - by eapply remove_device_unlinks.
  - by eapply reset_endpoint_unlinks.
  - by eapply pause_endpoint_unlinks.
  - by eapply sync_endpoint_unlinks.
Qed.

Lemma estep_acts ls (e e' : engine) : estep ls e e' → acts e e'.
Proof.
  intros [H|key ls' e1 H1 H|x H|H]%estep_change.
  - by apply unlinks_acts.
  - transitivity e1; [|by eapply psteps_acts]. destruct H1 as [->|(token & result & Ha)]; [done|].
    destruct Ha as [e ep before f after status s _ _ _ _ _ _ Hu|]; [|apply rtc_refl].
    apply unlink_flights_unlinks in Hu. by apply unlinks_acts.
  - apply rtc_once. by eapply act_submit.
  - by apply rtc_once, act_env.
Qed.

End Acts.
