(* ===== verification/EngineLive.v ===== *)
(** * EngineLive: the engine's neighbours, concretely (src/src/engine.rs, src/src/client.rs)

    [Live] discharges what [EngineFacts.SessionLaws] asks of a session with the model of client.rs.
    [QueueRing] is a ring that is a queue of messages in memory; it shows that [RingLaws] can be kept
    and lets the engine run on concrete inputs. *)

From stdpp Require Import base tactics option list gmap fin_maps.
From S2P Require Import Prelude Wire Protocol Hci Session SessionFacts Engine EngineFacts.

Module Live.
Section Live.
Context {B : BytesCrate}.

(** A session, with the device it was started for. *)
Definition session : Type := ExportedDevice.t * Shared.t.

#[global] Instance ops : SessionOps session := {
  session_submit req s := '(x, sh) ← Session.submit req s.2; Done (x, (s.1, sh));
  session_unlink target s := sh ← unlink target s.2; Done (s.1, sh);
  session_speed s := ExportedDevice.speed s.1;
}.

Definition good (s : session) : Prop := ∃ iss, ok s.2 iss.

(** Requests that may still be sent before the search for a sequence number could fail. *)
Definition room (s : session) : Z := 2 ^ 31 - Z.of_nat (pending s.2).

Lemma submit_returns req s :
  good s → 0 < room s →
  ∃ x s', session_submit req s = Done (x, s') ∧ good s' ∧
    room s - (if is_ok x then 1 else 0) ≤ room s'.
Proof.
  destruct s as [d sh]. intros [iss I] Hr. unfold room in *. cbn [snd] in *.
  destruct (ops_return _ _ I ltac:(lia)) as [_ Hs]. destruct (Hs req) as [[x sh'] E].
  exists x, (d, sh'). cbn. rewrite E. split; [done|].
  split; [eexists; by eapply ok_submit|]. unfold pending.
  pose proof (submit_cases _ _ _ _ E) as C. destruct x as [[seqnum c]|[| |]]; cbn [is_ok].
  - destruct C as (_ & _ & _ & Hn & ->). cbn. rewrite map_size_insert_None; [lia|].
    apply next_seqnum_loop_Done in Hn as (_ & Hn & _). apply eq_None_not_Some. unfold in_use in Hn. tauto.
  - done.
  - destruct C as (_ & _ & ->). cbn. lia.
  - destruct C as [-> _]. lia.
Qed.

Lemma unlink_returns target s :
  good s → 0 < room s →
  ∃ s', session_unlink target s = Done s' ∧ good s' ∧ room s ≤ room s'.
Proof.
  destruct s as [d sh]. intros [iss I] Hr. unfold room in *. cbn [snd] in *.
  destruct (ops_return _ _ I ltac:(lia)) as [Hs _]. destruct (Hs target) as [sh' E].
  exists (d, sh'). cbn. rewrite E. split; [done|]. split; [eexists; by eapply ok_unlink|].
  unfold pending. apply unlink_cases in E as [[_ ->]|(_ & n & _ & ->)]; cbn; lia.
Qed.

#[global] Instance laws : SessionLaws session.
Proof.
  refine {| EngineFacts.good := good; EngineFacts.room := room;
            EngineFacts.submit_returns := submit_returns;
            EngineFacts.unlink_returns := unlink_returns |}.
  - intros req [d sh] x s'. cbn. destruct (Session.submit req sh) as [[y sh']| |]; cbn; try done.
    by intros [= _ <-].
  - intros n [d sh] s'. cbn. destruct (unlink n sh) as [sh'| |]; cbn; try done. by intros [= <-].
Defined.

End Live.
End Live.

(** ** A ring in memory *)

Module QueueRing.

(** [on]: whether the host lets the ring run; the messages with their OUT buffers; what was
    completed, oldest first. *)
Record t : Type := mk {
  on : bool;
  messages : list (Z * Transfer.t * list Z);
  completed : list (Z * Status.t * list Z * Z);
}.

#[global] Instance ring : Ring t := {
  active r := on r;
  current r := match messages r with (m, t, _) :: _ => (m, Some t) | [] => (0, None) end;
  peek n r := fst <$> messages r !! n;
  read n len r := match messages r !! n with Some (_, _, b) => take len b | None => [] end;
  ring_complete st data len r :=
    match on r, messages r with
    | true, (m, _, _) :: ms => (true, mk true ms (completed r ++ [(m, st, data, len)]))
    | _, _ => (false, r)
    end;
}.

#[global] Instance laws : RingLaws t.
Proof.
  refine {| queued r := length (messages r) |}.
  intros st data len [[|] [|[[m t] b] ms] c] r'; cbn; try done. intros [= <-]. cbn. lia.
Defined.

End QueueRing.
