(* ===== verification/EngineSpec.v ===== *)
(** * EngineSpec: what the engine promises (src/src/engine.rs)

    The invariant [traced] links what the engine holds to what it has done, and is kept by every
    step.  The theorems say what single operations return and leave behind; those on whole runs of the
    code are in [EngineRuns]. *)

From stdpp Require Import base tactics option list gmap fin_maps relations sorting.
From S2P Require Import Prelude Wire Protocol Hci HideUas Session SessionFacts System Engine EngineFacts EngineSteps EngineLive.

Section Trace.
Context {R : Type} {RG : Ring R} {S : Type} {SO : SessionOps S} {ST : SessionTrace S}.

Notation engine := (Engine.t S R).

(** The tokens of the URBs whose results completed the endpoint's messages, in order. *)
Definition applied (key : EndpointKey) (ls : list (label R)) : list Z :=
  omap (λ l, match l with
             | Applied k _ f _ _ _ _ => if decide (k = key) then Some (InFlight.token f) else None
             | _ => None
             end) ls.

(** Tokens in the order they were handed out: applied, in flight, and the next one. *)
Definition history (key : EndpointKey) (ls : list (label R)) (e : engine) : list Z :=
  applied key ls ++ tokens key e ++ [Z.of_nat (length (Engine.waiters e))].

(** A completion with the result of [f]: the ring was active with [f]'s message at its head, the
    result is one that arrived for [f], and only IN transfers carry data. *)
Definition applied_ok (ls : list (label R)) (key : EndpointKey) (r : R) (f : InFlight.t)
    (st : Status.t) (data : list Z) (len : Z) : Prop :=
  active r = true ∧ InFlight.message f = (current r).1 ∧
  ∃ res, InFlight.result f = Some res ∧ Finished key (InFlight.token f) res ∈ ls ∧
    st = (outcome_of f res).1.1 ∧ (InFlight.direction f = Direction.Out → data = []) ∧
    (length data ≤ length (outcome_of f res).1.2)%nat ∧ len ≤ (outcome_of f res).2 ∧
    unaltered f res data len.

(** A completion without a URB: the ring was active and had a transfer at its head, which is answered so
    by its kind, or because its URB was refused. *)
Definition answered_ok (r : R) (st : Status.t) : Prop :=
  active r = true ∧ ∃ t, (current r).2 = Some t ∧ (answers t st ∨ ∃ err, st = error_status err).

Definition finished (key : EndpointKey) (token : Z) (ls : list (label R)) : Prop :=
  ∃ res, Finished key token res ∈ ls.

Record traced (ls : list (label R)) (e : engine) : Prop := {
  tr_token : Engine.next_token e = wrap 64 (Z.of_nat (length (Engine.waiters e)));
  tr_history key : Z.of_nat (length (Engine.waiters e)) ≤ 2 ^ 64 →
    StronglySorted Z.lt (history key ls e);
  tr_depth key : (length (flights key e) ≤ 32)%nat;
  tr_finished key f r : f ∈ flights key e → InFlight.result f = Some r →
    Finished key (InFlight.token f) r ∈ ls;
  tr_waiter key f : f ∈ flights key e →
    ∃ c, mk_waiter key (InFlight.token f) c ∈ Engine.waiters e;
  tr_kept key f : Submitted key f ∈ ls →
    (∃ g, g ∈ flights key e ∧ InFlight.token g = InFlight.token f ∧
          InFlight.seqnum g = InFlight.seqnum f) ∨
    finished key (InFlight.token f) ls ∨
    InFlight.seqnum f ∈ asked (Engine.session e);
  tr_applied key r f st data len ok : Applied key r f st data len ok ∈ ls →
    applied_ok ls key r f st data len;
  tr_answered key r st ok : Answered key r st ok ∈ ls → answered_ok r st;
}.

Lemma traced_new s : traced [] (new s).
Proof.
  split; cbn; try done.
  - intros key _. unfold history, tokens, flights. cbn. rewrite lookup_empty. repeat constructor.
  - intros key. unfold flights. cbn. rewrite lookup_empty. cbn. lia.
  - intros key f r. unfold flights. cbn. rewrite lookup_empty. by intros ?%elem_of_nil.
  - intros key f. unfold flights. cbn. rewrite lookup_empty. by intros ?%elem_of_nil.
  - by intros key f ?%elem_of_nil.
  - by intros key r f st data len ok ?%elem_of_nil.
  - by intros key r st ok ?%elem_of_nil.
Qed.

Lemma sublist_StronglySorted (l k : list Z) :
  l `sublist_of` k → StronglySorted Z.lt k → StronglySorted Z.lt l.
Proof.
  induction 1 as [|x l k Hs IH|x l k Hs IH]; intros H; [done|..];
    apply StronglySorted_cons in H as [Hx Hk]; [|auto].
  apply StronglySorted_cons. split; [|auto]. rewrite Forall_forall in *. intros y Hy. apply Hx.
  by eapply elem_of_sublist.
Qed.

Lemma applied_ok_mono ls ls' key r f st data len :
  ls ⊆ ls' → applied_ok ls key r f st data len → applied_ok ls' key r f st data len.
Proof. intros Hl (? & ? & res & ? & ? & ?). split; [done|]. split; [done|]. exists res. auto. Qed.

Lemma finished_mono ls ls' key token : ls ⊆ ls' → finished key token ls → finished key token ls'.
Proof. intros Hl [res ?]. exists res. auto. Qed.

Lemma traced_shrinks ls e e' : shrinks e e' → traced ls e → traced ls e'.
Proof.
  intros [Hw Ht Ha Hf] [Htok Hh Hd Hfin Hwait Hkept Happ Hans]. split; [congruence|..|done|done].
  - intros key. rewrite Hw. intros Hle. eapply sublist_StronglySorted; [|by apply (Hh key)].
    unfold history, tokens. rewrite Hw. apply sublist_app; [done|]. apply sublist_app; [|done].
    apply (Hf key).
  - intros key. etrans; [|apply (Hd key)]. pose proof (thinned_tokens _ _ _ (Hf key)) as Hs.
    apply sublist_length in Hs. by rewrite !length_fmap in Hs.
  - intros key g r (f & Hin & Hs)%(thinned_from _ _ _ (Hf key)) Hr.
    apply similar_fields in Hs as (-> & _ & Er). apply (Hfin key f r Hin). congruence.
  - intros key g (f & Hin & Hs)%(thinned_from _ _ _ (Hf key)).
    apply similar_fields in Hs as (-> & _ & _). rewrite Hw. auto.
  - intros key f [(g & Hg & Et & Es)|[?|?]]%Hkept; [|auto|auto].
    destruct (InFlight.result g) as [r|] eqn:Er.
    + right. left. exists r. rewrite <- Et. eauto.
    + destruct (thinned_to _ _ _ (Hf key) g Hg Er) as [(h & Hh' & Hs)|Hasked].
      * left. exists h. apply similar_fields in Hs as (? & ? & _). split; [done|]. split; congruence.
      * right. right. by rewrite <- Es.
Qed.

(** Labels that change neither what is in flight nor what was applied. *)
Definition quiet (l : label R) : Prop :=
  match l with
  | Answered _ r st _ => answered_ok r st
  | Finished _ _ _ => True
  | Submitted _ _ | Applied _ _ _ _ _ _ _ => False
  end.

Lemma traced_quiet ls l e : quiet l → traced ls e → traced (ls ++ [l]) e.
Proof.
  intros Hq [Htok Hh Hd Hfin Hwait Hkept Happ Hans].
  assert (ls ⊆ ls ++ [l]) as Hsub by set_solver. split; try done.
  - intros key Hle. unfold history, applied. rewrite omap_app.
    replace (omap _ [l]) with (@nil Z) by (by destruct l). rewrite app_nil_r. by apply Hh.
  - eauto.
  - intros key f [Hin|Hin]%elem_of_app; [|apply list_elem_of_singleton in Hin; by subst l].
    destruct (Hkept key f Hin) as [?|[?|?]]; eauto using finished_mono.
  - intros key r f st data len ok [Hin|Hin]%elem_of_app;
      [|apply list_elem_of_singleton in Hin; by subst l].
    eapply applied_ok_mono; [done|]. eauto.
  - intros key r st ok [Hin|Hin]%elem_of_app; [eauto|]. apply list_elem_of_singleton in Hin. by subst l.
Qed.

Lemma flights_put key key' ep (e : engine) :
  flights key' (Engine.put key ep e) = if decide (key' = key) then Endpoint.in_flight ep else flights key' e.
Proof. by rewrite (flights_insert key key' ep (Engine.endpoints e)). Qed.

Lemma flights_launch key key' ep f c s (e : engine) :
  Engine.endpoints e !! key = Some ep →
  flights key' (launch key ep f c s e) =
    if decide (key' = key) then flights key e ++ [f] else flights key' e.
Proof.
  intros He. rewrite (flights_insert key key' (Endpoint.set_in_flight (Endpoint.in_flight ep ++ [f]) ep)
    (Engine.endpoints e)) by done. case_decide; [|done]. cbn. by rewrite (flights_lookup _ _ _ He).
Qed.

(** A request is only ever sent below the endpoint's depth. *)
Lemma plan_below key speed ep message req stage :
  plan key speed ep message req stage →
  (length (Endpoint.in_flight ep) < depth (EndpointInfo.kind (Endpoint.info ep)))%nat.
Proof.
  intros [? ? ? ? Ef _ _|? ? ? ? ? ? Ef _ _ Hd _ _]; rewrite Ef; [|done].
  destruct (EndpointInfo.kind _); cbn; lia.
Qed.

Lemma history_cons_end (a b : list Z) n :
  StronglySorted Z.lt (a ++ b ++ [n]) → StronglySorted Z.lt (a ++ (b ++ [n]) ++ [n + 1]).
Proof.
  rewrite (assoc_L (++) a b), (assoc_L (++) a (b ++ [n])), (assoc_L (++) a b [n]).
  generalize (a ++ b). intros l H. rewrite !StronglySorted_app in *.
  destruct H as (Hl & H1 & H2). split; [|split; [done|repeat constructor]].
  intros x y Hx ->%list_elem_of_singleton. apply elem_of_app in Hx as [Hx| ->%list_elem_of_singleton]; [|lia].
  specialize (Hl x n Hx ltac:(by apply list_elem_of_singleton)). lia.
Qed.

Lemma traced_submit ls key ep message req stage seqnum c s e :
  Engine.endpoints e !! key = Some ep →
  plan key (session_speed (Engine.session e)) ep message req stage →
  session_submit req (Engine.session e) = Done (Ok (seqnum, c), s) →
  traced ls e →
  traced (ls ++ [Submitted key (flight_of e message req stage seqnum)])
    (launch key ep (flight_of e message req stage seqnum) c s e).
Proof.
  intros He Hp Hsub [Htok Hh Hd Hfin Hwait Hkept Happ Hans].
  set (f := flight_of e message req stage seqnum). apply submit_asked in Hsub.
  assert (∀ l, ls ⊆ ls ++ [l]) as Hls by set_solver.
  assert (length (Engine.waiters (launch key ep f c s e)) = Datatypes.S (length (Engine.waiters e))) as Hw
    by (cbn; rewrite length_app; cbn; lia).
  split.
  - rewrite Hw. cbn. rewrite Htok. unfold next_u64, wrap. rewrite Z.add_mod_idemp_l by lia. f_equal. lia.
  - intros key' Hle. rewrite Hw in *. specialize (Hh key' ltac:(lia)).
    unfold history, applied in *. rewrite omap_app, app_nil_r, Hw.
    unfold tokens in *. rewrite (flights_launch _ _ _ _ _ _ _ He).
    rewrite Nat2Z.inj_succ, <- Z.add_1_r. case_decide as Hk.
    + subst key'. rewrite fmap_app. cbn [fmap list_fmap]. change (InFlight.token f) with (Engine.next_token e).
      rewrite Htok, wrap_id by (split; lia). by apply history_cons_end.
    + rewrite (assoc_L (++)) in *. apply StronglySorted_app in Hh as (Hx & H1 & _).
      apply StronglySorted_app. split; [|split; [done|repeat constructor]].
      intros x y Hin ->%list_elem_of_singleton.
      specialize (Hx x _ Hin ltac:(by apply list_elem_of_singleton)). lia.
  - intros key'. rewrite (flights_launch _ _ _ _ _ _ _ He). case_decide; [|done].
    rewrite length_app. cbn. apply plan_below in Hp. rewrite (flights_lookup _ _ _ He).
    pose proof (depth_le (EndpointInfo.kind (Endpoint.info ep))). lia.
  - intros key' g r. rewrite (flights_launch _ _ _ _ _ _ _ He). case_decide as Hk; [subst key'|intros; apply (Hls _); eauto].
    intros [Hg|Hg]%elem_of_app Hr; [apply (Hls _); eauto|]. apply list_elem_of_singleton in Hg. by subst g.
  - intros key' g. rewrite (flights_launch _ _ _ _ _ _ _ He). cbn. intros Hg.
    assert (g ∈ flights key' e ∨ (key' = key ∧ g = f)) as [Hg'|[-> ->]].
    { case_decide as Hk; [subst key'|auto]. apply elem_of_app in Hg as [?|?%list_elem_of_singleton]; auto. }
    + destruct (Hwait key' g Hg') as [c' ?]. exists c'. set_solver.
    + exists c. set_solver.
  - intros key' g [Hin|Hin]%elem_of_app.
    + destruct (Hkept key' g Hin) as [(h & Hg & ?)|[?|?]]; [|eauto using finished_mono|auto].
      left. exists h. rewrite (flights_launch _ _ _ _ _ _ _ He).
      split; [|done]. case_decide; [subst; set_solver|done].
    + apply list_elem_of_singleton in Hin. injection Hin as -> ->. left. exists f.
      rewrite (flights_launch _ _ _ _ _ _ _ He), decide_True by done. split; [set_solver|done].
  - intros key' r g st data len ok [Hin|Hin]%elem_of_app; [|by apply list_elem_of_singleton in Hin].
    eapply applied_ok_mono; [apply Hls|]. eauto.
  - intros key' r st ok [Hin|Hin]%elem_of_app; [eauto|by apply list_elem_of_singleton in Hin].
Qed.

Lemma traced_apply ls key ep front rest r st data len ok ep' warned e :
  Engine.endpoints e !! key = Some ep → active (Endpoint.ring ep) = true →
  Endpoint.in_flight ep = front :: rest →
  InFlight.message front = (current (Endpoint.ring ep)).1 →
  InFlight.result front = Some r →
  Endpoint.in_flight ep' = rest →
  st = (outcome_of front r).1.1 →
  (InFlight.direction front = Direction.Out → data = []) →
  (length data ≤ length (outcome_of front r).1.2)%nat → len ≤ (outcome_of front r).2 →
  unaltered front r data len → traced ls e →
  traced (ls ++ [Applied key (Endpoint.ring ep) front st data len ok])
    (Engine.put key ep' (Engine.set_uas_warned warned e)).
Proof.
  intros He Ha Ef Em Er Ef' Hst Hout Hdata Hlen Hun [Htok Hh Hd Hfin Hwait Hkept Happ Hans].
  set (l := Applied _ _ _ _ _ _ _). assert (ls ⊆ ls ++ [l]) as Hls by set_solver.
  assert (flights key e = front :: rest) as Efl by (by rewrite (flights_lookup _ _ _ He)).
  assert (Finished key (InFlight.token front) r ∈ ls) as Hfront.
  { apply Hfin; [|done]. rewrite Efl. by left. }
  set (e' := Engine.put key ep' (Engine.set_uas_warned warned e)).
  assert (∀ key', flights key' e' = if decide (key' = key) then rest else flights key' e) as Efl'.
  { intros key'. unfold e'. rewrite flights_put, Ef'. done. }
  assert (∀ key' g, g ∈ flights key' e' → g ∈ flights key' e) as Hsub.
  { intros key' g. rewrite Efl'. case_decide; [|done]. subst. rewrite Efl. by right. }
  split; [done|..].
  - intros key' Hle. specialize (Hh key' Hle).
    enough (history key' (ls ++ [l]) e' = history key' ls e) as -> by done.
    unfold history, applied, tokens. rewrite omap_app, Efl'. cbn. case_decide as Hk.
    + subst key'. rewrite Efl, decide_True by done. cbn. by rewrite <- (assoc_L (++)).
    + rewrite decide_False by done. by rewrite app_nil_r.
  - intros key'. etrans; [|apply (Hd key')]. rewrite Efl'. case_decide; [|done]. subst. rewrite Efl. cbn. lia.
  - intros key' g r' Hg Hr. apply Hls. eauto.
  - eauto.
  - intros key' g [Hin|Hin]%elem_of_app; [|by apply list_elem_of_singleton in Hin].
    destruct (Hkept key' g Hin) as [(h & Hg & Et & Es)|[?|?]]; [|eauto using finished_mono|auto].
    destruct (decide (key' = key)) as [->|Hk].
    2: { left. exists h. by rewrite Efl', decide_False. }
    rewrite Efl in Hg. apply elem_of_cons in Hg as [->|Hg].
    + right. left. exists r. rewrite <- Et. by apply Hls.
    + left. exists h. by rewrite Efl', decide_True.
  - intros key' r' g st' data' len' ok' [Hin|Hin]%elem_of_app.
    + eapply applied_ok_mono; [done|]. eauto.
    + apply list_elem_of_singleton in Hin. injection Hin as -> -> -> -> -> -> ->.
      split; [done|]. split; [done|]. exists r. split; [done|]. split; [by apply Hls|]. done.
  - intros key' r' st' ok' [Hin|Hin]%elem_of_app; [eauto|by apply list_elem_of_singleton in Hin].
Qed.

Lemma traced_pstep ls key ls2 e e' : pstep key ls2 e e' → traced ls e → traced (ls ++ ls2) e'.
Proof.
  destruct 1 as [e ep front rest s He Ha Ef _ Hu
    |e ep front rest r flow ep' warned data len ok He Ha Ef Em Er _ (_ & _ & Ef') Hout Hd Hl Hun
    |e ep message t next st ok ep' He Ha Ef Ec _ Hans (_ & _ & Ef')
    |e ep message req stage seqnum c s He Ha Hp Hs
    |e ep message req stage err s ok ep' He Ha Ef Hp Hs (_ & _ & Ef') _
    |e ep message req stage err s He Ha _ _ Hs]; intros H.
  - rewrite app_nil_r. eapply traced_shrinks; [|done].
    eapply (shrinks_unlink key ep (Endpoint.set_in_flight [] ep) [] (front :: rest) e _ He);
      [exact Ef|done|]. unfold unlink_all. cbn -[unlink_flights]. by rewrite Hu.
  - by eapply traced_apply.
  - eapply traced_quiet; [|eapply traced_shrinks; [|done]; by eapply shrinks_same].
    split; [done|]. exists t. rewrite Ec. auto.
  - by eapply traced_submit.
  - eapply traced_quiet.
    { split; [done|]. destruct Hp as [? t ? ? _ Ec _|? ? ? ? ? ? Ef2 _ _ _ _ _]; [|congruence].
      exists t. rewrite Ec. eauto. } eapply traced_shrinks; [|done].
    eapply shrinks_trans; [eapply (shrinks_session e s), submit_asked, Hs|]. by eapply shrinks_same.
  - rewrite app_nil_r. eapply traced_shrinks; [|done]. by eapply shrinks_session, submit_asked.
Qed.

Lemma traced_psteps ls key ls2 e e' : psteps key ls2 e e' → traced ls e → traced (ls ++ ls2) e'.
Proof.
  intros H. revert ls. induction H as [|ls1 ls2 e1 e2 e3 H1 H2 IH]; intros ls Ht.
  - by rewrite app_nil_r.
  - rewrite (assoc_L (++)). by eapply IH, traced_pstep.
Qed.

(** An unlinked read and the flights behind it go; the read itself has finished. *)
Lemma traced_arrives_unlinked ls key token result e ep before f after s :
  Engine.endpoints e !! key = Some ep → Endpoint.in_flight ep = before ++ f :: after →
  InFlight.token f = token → unlink_flights after (Engine.session e) = Done s →
  traced ls e →
  traced (ls ++ [Finished key token result])
    (Engine.set_session s (Engine.put key (Endpoint.set_in_flight before ep) e)).
Proof.
  intros He Ef Et Hu H.
  set (l := Finished key token result).
  apply traced_quiet with (l := l) in H; [|done].
  destruct H as [Htok Hh Hd Hfin Hwait Hkept Happ Hans].
  pose proof (unlink_flights_asked _ _ _ Hu) as [Ha Hall].
  set (e' := Engine.set_session _ _).
  assert (∀ key', flights key' e' = if decide (key' = key) then before else flights key' e) as Efl'
    by (intros; apply flights_put).
  assert (flights key e = before ++ f :: after) as Efl by (by rewrite (flights_lookup _ _ _ He)).
  assert (∀ key' g, g ∈ flights key' e' → g ∈ flights key' e) as Hsub.
  { intros key' g. rewrite Efl'. case_decide; [|done]. subst. rewrite Efl. set_solver. }
  split; [done|..|done|done].
  - intros key' Hle. eapply sublist_StronglySorted; [|by apply (Hh key')].
    unfold history, tokens. apply sublist_app; [done|]. apply sublist_app; [|done]. rewrite Efl'.
    case_decide; [|done]. subst key'. rewrite Efl, fmap_app. by apply sublist_inserts_r.
  - intros key'. etrans; [|apply (Hd key')]. rewrite Efl'. case_decide; [|done]. subst key'.
    rewrite Efl, length_app. lia.
  - eauto.
  - eauto.
  - intros key' g [(h & Hg & Eht & Es)|[?|?]]%Hkept; [|auto|right; right; by apply Ha].
    destruct (decide (key' = key)) as [->|Hk].
    2: { left. exists h. by rewrite Efl', decide_False. }
    rewrite Efl in Hg. apply elem_of_app in Hg as [Hg|[->|Hg]%elem_of_cons].
    + left. exists h. by rewrite Efl', decide_True.
    + right. left. exists result. rewrite <- Eht, Et. set_solver.
    + destruct (InFlight.result h) as [r|] eqn:Er.
      * right. left. exists r. rewrite <- Eht. apply Hfin; [|done]. rewrite Efl. set_solver.
      * right. right. rewrite <- Es. auto.
Qed.

(** Any other result is stored. *)
Lemma traced_arrives_result ls key token result e ep before f after :
  Engine.endpoints e !! key = Some ep → Endpoint.in_flight ep = before ++ f :: after →
  InFlight.token f = token → traced ls e →
  traced (ls ++ [Finished key token result])
    (Engine.put key
       (Endpoint.set_in_flight (before ++ InFlight.set_result result f :: after) ep) e).
Proof.
  intros He Ef Et H.
  set (l := Finished key token result). set (f' := InFlight.set_result result f).
  apply traced_quiet with (l := l) in H; [|done].
  destruct H as [Htok Hh Hd Hfin Hwait Hkept Happ Hans].
  set (e' := Engine.put _ _ _).
  assert (∀ key', flights key' e' = if decide (key' = key) then before ++ f' :: after else flights key' e)
    as Efl' by (intros; apply flights_put).
  assert (flights key e = before ++ f :: after) as Efl by (by rewrite (flights_lookup _ _ _ He)).
  assert (∀ key', tokens key' e' = tokens key' e) as Etok.
  { intros key'. unfold tokens. rewrite Efl'. case_decide; [|done]. subst key'.
    by rewrite Efl, !fmap_app. }
  assert (∀ key' g, g ∈ flights key' e' → g ∈ flights key' e ∨ (key' = key ∧ g = f')) as Hsub.
  { intros key' g. rewrite Efl'. case_decide; [|auto]. subst key'. rewrite Efl. set_solver. }
  split; [done|..|done|done].
  - intros key' Hle. unfold history. rewrite Etok. by apply Hh.
  - intros key'. specialize (Hd key'). unfold tokens in Etok. specialize (Etok key').
    apply (f_equal length) in Etok. rewrite !length_fmap in Etok. lia.
  - intros key' g r [Hg|[-> ->]]%Hsub; [eauto|]. cbn. rewrite Et. intros [= <-]. set_solver.
  - intros key' g [Hg|[-> ->]]%Hsub; [eauto|]. cbn. apply Hwait. rewrite Efl. set_solver.
  - intros key' g [(h & Hg & Eht & Es)|[?|?]]%Hkept; [|auto|auto]. left.
    destruct (decide (key' = key)) as [->|Hk].
    2: { exists h. by rewrite Efl', decide_False. }
    rewrite Efl', decide_True by done. rewrite Efl in Hg.
    apply elem_of_app in Hg as [Hg|[->|Hg]%elem_of_cons]; [exists h|exists f'|exists h];
      (split; [set_solver|done]).
Qed.

Lemma traced_arrives ls key token result e e' :
  arrives key token result e e' → traced ls e → traced (ls ++ [Finished key token result]) e'.
Proof.
  intros Ha Ht. destruct Ha; [by eapply traced_arrives_unlinked|by eapply traced_arrives_result].
Qed.

Lemma traced_estep ls ls2 e e' : estep ls2 e e' → traced ls e → traced (ls ++ ls2) e'.
Proof.
  intros [[-> H]|[[key H]|[(key & token & result & ls1 & e1 & -> & Ha & H)|
    (key & token & result & -> & ->)]]]%estep_cases Ht.
  - rewrite app_nil_r. by eapply traced_shrinks.
  - by eapply traced_psteps.
  - rewrite cons_middle, (assoc_L (++)). eapply traced_psteps; [done|]. by eapply traced_arrives.
  - by apply traced_quiet.
Qed.

Lemma reaches_traced s ls e : reaches s ls e → traced ls e.
Proof. induction 1; [apply traced_new|]. by eapply traced_estep. Qed.

End Trace.

(** ** Operations, one by one *)

Section Operations.
Context {R : Type} {RG : Ring R} {S : Type} {SO : SessionOps S} {SL : SessionLaws S}.

Notation engine := (Engine.t S R).

(** C17: [pump] returns whatever the rings hold, as long as the session has room for its requests: with
    [messages] a bound on what the host has queued, it neither panics nor runs on, and what it did
    is a sequence of the small steps [pstep]. *)
Theorem pump_runs {RL : RingLaws R} messages key (e : engine) :
  (∀ ep, Engine.endpoints e !! key = Some ep → (queued (Endpoint.ring ep) ≤ messages)%nat) →
  roomy 32 e →
  ∃ e' ls, pump messages key e = Done e' ∧ psteps key ls e e'.
Proof.
  intros Hq Hr. destruct (pump_returns messages key e Hq Hr) as [e' E].
  apply pump_loop_steps in E as Hs. destruct Hs as (ls & Hs & _). eauto.
Qed.

Lemma arrives_roomy n key token result (e e' : engine) :
  0 ≤ n → arrives key token result e e' → roomy n e → roomy n e'.
Proof.
  intros Hn. destruct 1 as [e ep before f after status s _ _ _ _ _ _ Hu|]; [|done].
  intros [Hg Hr]. destruct (unlink_flights_returns after _ Hg ltac:(lia)) as (s' & Hs & ? & ?).
  rewrite Hu in Hs. injection Hs as <-. split; [done|]. cbn. lia.
Qed.

Lemma finish_settles {RL : RingLaws R} messages key token result (e : engine) :
  (∀ ep, Engine.endpoints e !! key = Some ep → (queued (Endpoint.ring ep) ≤ messages)%nat) →
  roomy 32 e →
  (unknown_token key token e ∧ finish messages key token result e = Done e) ∨
  (¬ unknown_token key token e ∧ ∃ e1 e' ls, arrives key token result e e1 ∧
     finish messages key token result e = Done e' ∧ psteps key ls e1 e' ∧ settles key ls e1 e').
Proof.
  intros Hq Hr. destruct (finish_cases messages key token result e)
    as [?|(ep & He & Hk & [(e1 & Ha & ->)|[(fs & _ & Hs) _]])]; [by left|right|exfalso].
  - split; [intros Hu; by apply Hk, Hu|].
    destruct (pump_returns messages key e1) as [e' E].
    { intros ep1 He1. destruct Ha as [e ep' ? ? ? ? ? He'|e ep' ? ? ? He'];
        cbn in He1; rewrite lookup_insert_eq in He1; injection He1 as <-; by apply (Hq ep'). }
    { by eapply arrives_roomy. }
    apply pump_loop_steps in E as Hs. destruct Hs as (ls & Hs & Hset). exists e1, e', ls. auto.
  - destruct Hr as [Hg Hr]. destruct (unlink_flights_returns fs _ Hg ltac:(lia)) as (s & E & _).
    by apply (Hs s).
Qed.

(** [finish] returns, and does one of three things: a result whose URB is no longer in flight changes
    nothing; a paused read that was unlinked takes itself and the reads behind it out of flight; any
    other result is stored with its URB.  In the last two cases the ring is then pumped. *)
Theorem finish_runs {RL : RingLaws R} messages key token result (e : engine) :
  (∀ ep, Engine.endpoints e !! key = Some ep → (queued (Endpoint.ring ep) ≤ messages)%nat) →
  roomy 32 e →
  (unknown_token key token e ∧ finish messages key token result e = Done e) ∨
  (¬ unknown_token key token e ∧ ∃ e1 e' ls, arrives key token result e e1 ∧
     finish messages key token result e = Done e' ∧ psteps key ls e1 e').
Proof.
  intros Hq Hr. destruct (finish_settles messages key token result e Hq Hr)
    as [?|(Hu & e1 & e' & ls & Ha & E & Hs & _)]; [by left|right]. eauto 8.
Qed.

Lemma pause_flights_returns fs s :
  good s → 0 < room s →
  ∃ s', pause_flights fs s =
    Done ((λ f, if InFlight.unresolved f then InFlight.set_unlinking f else f) <$> fs, s').
Proof.
  revert s. induction fs as [|f fs IH]; intros s Hg Hr; [by exists s|]. cbn [pause_flights].
  destruct (InFlight.unresolved f) eqn:Eu; cbn [andb].
  - destruct (InFlight.unlinking f) eqn:El; cbn [negb].
    + cbn [mbind outcome_bind]. destruct (IH s Hg Hr) as [s' ->]. exists s'. cbn. rewrite Eu.
      destruct f; cbn in *. by subst.
    + destruct (unlink_returns (InFlight.seqnum f) s Hg Hr) as (s1 & -> & Hg1 & Hr1).
      cbn [mbind outcome_bind]. destruct (IH s1 Hg1 ltac:(lia)) as [s' ->]. exists s'. cbn. by rewrite Eu.
  - cbn [mbind outcome_bind]. destruct (IH s Hg Hr) as [s' ->]. exists s'. cbn. by rewrite Eu.
Qed.

(** A paused endpoint's flights need no further unlinks. *)
Lemma pause_flights_again fs s :
  Forall (λ f, InFlight.unresolved f = true → InFlight.unlinking f = true) fs →
  pause_flights fs s = Done (fs, s).
Proof.
  induction 1 as [|f fs Hf _ IH]; [done|]. cbn [pause_flights].
  destruct (InFlight.unresolved f); [rewrite Hf by done|]; cbn; by rewrite IH.
Qed.

Context {ST : SessionTrace S}.

(** Pausing touches neither control nor OUT endpoints.  On an IN data endpoint it unlinks every URB
    still on the server, once: the URBs stay in flight, marked, their order and results unchanged;
    pausing again does nothing, and no other endpoint changes. *)
Theorem pause_endpoint_spec key (e : engine) :
  roomy 0 e →
  ∃ e', pause_endpoint key e = Done e' ∧
    ((Z.land key.2 0x80 = 0 ∨ Z.land key.2 0x7f = 0) → e' = e) ∧
    (Z.land key.2 0x80 ≠ 0 → Z.land key.2 0x7f ≠ 0 →
     flights key e' =
       (λ f, if InFlight.unresolved f then InFlight.set_unlinking f else f) <$> flights key e ∧
     (∀ f, f ∈ flights key e → InFlight.result f = None → InFlight.unlinking f = false →
        InFlight.seqnum f ∈ asked (Engine.session e'))) ∧
    (∀ key', key' ≠ key → Engine.endpoints e' !! key' = Engine.endpoints e !! key') ∧
    pause_endpoint key e' = Done e'.
Proof.
  intros [Hg Hr]. unfold pause_endpoint.
  destruct (Z.land key.2 0x80 =? 0) eqn:E1; cbn [orb]; bool_props.
  { exists e. by repeat split. }
  destruct (Z.land key.2 0x7f =? 0) eqn:E2; cbn [orb]; bool_props.
  { exists e. by repeat split. }
  destruct (Engine.endpoints e !! key) as [ep|] eqn:He.
  2: { exists e. unfold flights. rewrite He. repeat split; try done; try (by intros [|]).
       by intros f ?%elem_of_nil. }
  destruct (pause_flights_returns (Endpoint.in_flight ep) _ Hg Hr) as [s Es]. rewrite Es.
  cbn [mbind outcome_bind]. eexists. split; [done|]. split; [by intros [|]|].
  pose proof (pause_flights_spec _ _ _ _ Es) as (_ & _ & Hall).
  split; [intros _ _; split|split].
  - unfold flights. cbn. by rewrite He, lookup_insert_eq.
  - intros f Hf. rewrite (flights_lookup _ _ _ He) in Hf. by apply Hall.
  - intros key' Hk. cbn. by rewrite lookup_insert_ne.
  - cbn. rewrite lookup_insert_eq. cbn. rewrite pause_flights_again.
    + cbn. unfold Engine.put, Engine.set_session, Engine.set_endpoints. cbn. by rewrite insert_insert_eq.
    + apply Forall_fmap, Forall_forall. intros f _. cbn. by destruct (InFlight.unresolved f) eqn:Eu; [|rewrite Eu].
Qed.

(** Removing a device returns, takes away exactly its endpoints, and leaves none of their URBs on the
    server unasked: each one without a result is unlinked. *)
Theorem remove_device_spec device (e : engine) :
  roomy 0 e →
  ∃ e', remove_device device e = Done e' ∧
    (∀ key, Engine.endpoints e' !! key =
       if decide (key.1 = device) then None else Engine.endpoints e !! key) ∧
    ∀ key f, key.1 = device → f ∈ flights key e → InFlight.result f = None →
      InFlight.seqnum f ∈ asked (Engine.session e').
Proof.
  intros [Hg Hr]. assert (∃ e', remove_device device e = Done e') as [e' E].
  { unfold remove_device. set (e1 := Engine.set_endpoints _ _).
    assert (roomy 0 e1) as H1 by done. revert H1. generalize e1. clear.
    generalize (omap (λ k : EndpointKey, Engine.endpoints e !! k) 
      (base.filter (λ k : EndpointKey, k.1 = device) ((map_to_list (Engine.endpoints e)).*1))).
    intros eps. induction eps as [|ep eps IH]; intros e1 H1; cbn [unlink_removed]; [eauto|].
    destruct (unlink_all_returns 0 (Endpoint.in_flight ep) e1 ltac:(lia) H1) as (e2 & -> & H2 & _).
    cbn [mbind outcome_bind]. eauto. }
  exists e'. split; [done|]. pose proof (remove_device_shrinks _ _ _ E) as Hs.
  assert (∀ key, Engine.endpoints e' !! key =
       if decide (key.1 = device) then None else Engine.endpoints e !! key) as Hm.
  { intros key. by apply remove_device_endpoints. }
  split; [done|]. intros key f Hk Hf Hres.
  destruct (thinned_to _ _ _ (shrinks_flights _ _ Hs key) f Hf Hres) as [(g & Hin & _)|]; [|done].
  unfold flights in Hin. rewrite Hm, decide_True in Hin by done. by apply elem_of_nil in Hin.
Qed.

End Operations.

(** ** Nothing is left lying *)

Section Liveness.
Context {R : Type} {RG : Ring R} {RL : RingLaws R} {S : Type} {SO : SessionOps S}
  {SL : SessionLaws S} {ST : SessionTrace S}.

Notation engine := (Engine.t S R).

(** Every URB in flight without a result has a task that will call [finish] for it. *)
Definition awaited (key : EndpointKey) (e : engine) : Prop :=
  ∀ f, f ∈ flights key e → InFlight.result f = None →
    ∃ c, mk_waiter key (InFlight.token f) c ∈ Engine.waiters e.

Lemma traced_awaited ls key (e : engine) : traced ls e → awaited key e.
Proof. intros H f Hf _. by eapply tr_waiter. Qed.

(** C15: The engine never leaves work lying: a doorbell, and every result that arrives for a URB in
    flight, is handled to the end, and after it either the endpoint is settled (it is gone or stopped,
    its head is not a transfer, or the head's URB is at the server with a task waiting for its reply
    and as many URBs behind it as the endpoint takes), or the ring refused a completion, or the session
    is closed, or it refused the URB planned next. *)
Theorem engine_settles messages key s ls (e : engine) :
  reaches s ls e →
  (∀ ep, Engine.endpoints e !! key = Some ep → (queued (Endpoint.ring ep) ≤ messages)%nat) →
  roomy 32 e →
  (∃ e' ls', doorbell messages key e = Done e' ∧ psteps key ls' e e' ∧
     awaited key e' ∧ (settled key e' ∨ halted key ls' e e')) ∧
  ∀ token result, ¬ unknown_token key token e →
    ∃ e1 e' ls', arrives key token result e e1 ∧ finish messages key token result e = Done e' ∧
      psteps key ls' e1 e' ∧ awaited key e' ∧ (settled key e' ∨ halted key ls' e1 e').
Proof.
  intros Ht%reaches_traced Hq Hr. split.
  - destruct (pump_returns messages key e Hq Hr) as [e' E].
    apply pump_loop_steps in E as Hs. destruct Hs as (ls' & Hs & Hset).
    exists e', ls'. split; [done|]. split; [done|]. split; [|by apply Hset].
    eapply traced_awaited. by eapply traced_psteps.
  - intros token result Hu. destruct (finish_settles messages key token result e Hq Hr)
      as [[? _]|(_ & e1 & e' & ls' & Ha & E & Hs & Hset)]; [done|].
    exists e1, e', ls'. do 3 (split; [done|]). split; [|done].
    eapply traced_awaited. eapply traced_psteps; [done|]. by eapply traced_arrives.
Qed.

End Liveness.

(** ** Hidden UAS settings, read twice *)

Section Hidden.
Context {R : Type} {RG : Ring R}.

Lemma hide_spec_header config n :
  (4 ≤ n)%nat → (n ≤ Z.to_nat (at_ config 0))%nat → (n ≤ length config)%nat →
  hide_spec (take n config) = (take n config, None).
Proof.
  intros H4 Hn Hl. destruct (hide_spec (take n config)) as [out [r|]] eqn:E.
  2: by rewrite (hide_spec_unchanged _ _ E).
  exfalso. apply hide_spec_changed in E as (ds & Hg & Hle & Eb & Hds & Hx & _).
  rewrite at_take in * by lia.
  rewrite drop_ge in Eb by (rewrite length_take; lia).
  destruct ds as [|d ds].
  - apply existsb_exists in Hx as (x & Hin & _). by destruct Hin.
  - apply Forall_cons in Hds as [[Hd _] _]. destruct d; simpl in *; [lia|done].
Qed.

Lemma is_get_config_done (s : option Setup.t) :
  from_option is_get_config false ((λ s, Setup.mk (Setup.bytes s) true) <$> s) =
  from_option is_get_config false s.
Proof. by destruct s. Qed.

(** The two bytes of the total length. *)
Lemma total_bytes config :
  bytes_ok config → (4 ≤ length config)%nat →
  le_bytes 2 (le_to_Z [at_ config 2; at_ config 3]) = take 2 (drop 2 config).
Proof.
  intros Hb Hl. do 4 (destruct config as [|? config]; [simpl in Hl; lia|]).
  do 4 (apply Forall_cons in Hb as [? Hb]). cbn [at_ nth drop take].
  apply (le_bytes_to_Z [z1; z2]). apply Forall_cons. split; [done|]. apply Forall_cons. by split.
Qed.

(** After a read that hid something, the endpoint remembers the two total lengths. *)
Lemma full_read_header (ep ep1 : Endpoint.t R) warned warned1 config data len n :
  bytes_ok config →
  from_option is_get_config false (Endpoint.setup ep) = true →
  control_data ep warned config (Z.of_nat (length config)) = Done (ep1, warned1, data, len) →
  data ≠ config → (4 ≤ n)%nat → (n ≤ Z.to_nat (at_ config 0))%nat → (n ≤ length config)%nat →
  ∃ old new, Endpoint.hidden_config ep1 = Some (old, new) ∧
    le_bytes 2 old = take 2 (drop 2 config) ∧ take n data = splice (take n config) 2 (le_bytes 2 new).
Proof.
  intros Hb Hs Hc Hne H4 Hn Hl. unfold control_data in Hc. cbn [Endpoint.setup Endpoint.set_setup] in Hc.
  rewrite is_get_config_done, Hs, hide_uas_spec in Hc. cbn [mbind outcome_bind] in Hc.
  destruct (hide_spec config) as [out [totals|]] eqn:E; cbn [mbind outcome_bind] in Hc.
  - injection Hc as <- <- <- <-. cbn.
    apply hide_spec_changed in E as (ds & Hg & Hle & _ & _ & _ & Eo & ->).
    set (o := take (Z.to_nat (at_ config 0)) config ++ _) in Eo.
    assert (n ≤ length o)%nat as Ho by (unfold o; rewrite length_app, length_take; lia).
    eexists _, _. split; [done|]. split; [apply total_bytes; [done|lia]|].
    rewrite Eo, length_with_total by lia. unfold with_total.
    rewrite take_splice by (rewrite ?length_le_bytes; lia). f_equal. unfold o.
    rewrite take_app_le, take_take by (rewrite length_take; lia). f_equal. lia.
  - apply hide_spec_unchanged in E as ->.
    destruct (Endpoint.hidden_config _) as [[old new]|] eqn:Eh; [|cbn [mbind outcome_bind] in Hc; by simplify_eq].
    destruct (4 <=? length config)%nat; [|cbn [mbind outcome_bind] in Hc; by simplify_eq].
    rewrite slice_done in Hc by lia. cbn [mbind outcome_bind] in Hc.
    case_bool_decide as Hold; [|cbn [mbind outcome_bind] in Hc; by simplify_eq].
    unfold copy_at in Hc. rewrite length_le_bytes, decide_True in Hc by lia.
    cbn [mbind outcome_bind] in Hc. injection Hc as <- <- <- <-. exists old, new.
    split; [done|]. split; [done|]. apply take_splice; rewrite ?length_le_bytes; lia.
Qed.

Lemma short_read_header (ep : Endpoint.t R) warned config n old new :
  from_option is_get_config false (Endpoint.setup ep) = true →
  Endpoint.hidden_config ep = Some (old, new) → le_bytes 2 old = take 2 (drop 2 config) →
  (4 ≤ n)%nat → (n ≤ Z.to_nat (at_ config 0))%nat → (n ≤ length config)%nat → Z.of_nat n < 2 ^ 32 →
  ∃ ep3 warned3, control_data ep warned (take n config) (Z.of_nat n) =
    Done (ep3, warned3, splice (take n config) 2 (le_bytes 2 new), Z.of_nat n).
Proof.
  intros Hs Hh Eold H4 Hn Hl H32. unfold control_data. cbn [Endpoint.setup Endpoint.set_setup].
  rewrite is_get_config_done, Hs, hide_uas_spec, hide_spec_header by done.
  cbn [mbind outcome_bind Endpoint.hidden_config Endpoint.set_setup]. rewrite Hh.
  assert (length (take n config) = n) as Hlen by (rewrite length_take; lia).
  rewrite (proj2 (Nat.leb_le 4 _)) by lia. rewrite slice_done by lia. cbn [mbind outcome_bind].
  rewrite bool_decide_eq_true_2.
  2: { rewrite Eold, skipn_firstn_comm, take_take. f_equal. lia. }
  unfold copy_at. rewrite length_le_bytes, decide_True by lia. cbn [mbind outcome_bind].
  eexists _, _. rewrite length_splice by (rewrite length_le_bytes; lia). rewrite Hlen.
  rewrite wrap_id by (split; lia). by rewrite Z.min_id.
Qed.

(** C34: A configuration descriptor reads the same in part as in full: once a full read has hidden UAS
    settings, any later read of just the header (at least its first four bytes) delivers the first bytes
    of what the full read delivered, the new total length included. *)
Theorem short_read_matches (ep ep1 ep2 : Endpoint.t R) warned warned1 warned2 config data len n :
  bytes_ok config →
  from_option is_get_config false (Endpoint.setup ep) = true →
  control_data ep warned config (Z.of_nat (length config)) = Done (ep1, warned1, data, len) →
  data ≠ config →
  Endpoint.hidden_config ep2 = Endpoint.hidden_config ep1 →
  from_option is_get_config false (Endpoint.setup ep2) = true →
  (4 ≤ n)%nat → (n ≤ Z.to_nat (at_ config 0))%nat → (n ≤ length config)%nat → Z.of_nat n < 2 ^ 32 →
  ∃ ep3 warned3, control_data ep2 warned2 (take n config) (Z.of_nat n) =
    Done (ep3, warned3, take n data, Z.of_nat n).
Proof.
  intros Hb Hs Hc Hne Hh Hs2 H4 Hn Hl H32.
  destruct (full_read_header ep ep1 warned warned1 config data len n) as (old & new & Eh & Eold & ->);
    [done..|]. apply (short_read_header ep2 warned2 config n old new); [done|congruence|done..].
Qed.

End Hidden.

(** ** A run: two bulk reads in flight, one completes, the other is paused, the device goes *)

Import Reference.

Module EngineRun.

Definition dev : ExportedDevice.t :=
  ExportedDevice.mk [] [] 1 2 Speed.High 0x1209 1 0 0 0 0 1 1 1 [].

Notation session := (Live.session * list Z)%type.

Definition s0 : session := ((dev, start dev), []).

Definition key : EndpointKey := (1, 0x81).

Definition ring0 : QueueRing.t :=
  QueueRing.mk true [(100, Transfer.Normal 7, []); (101, Transfer.Normal 7, [])] [].

Definition info : EndpointInfo.t := EndpointInfo.mk EndpointKind.Bulk 512 0.

Definition get {A} (d : A) (m : outcome A) : A := match m with Done a => a | _ => d end.

Definition e0 : Engine.t session QueueRing.t := new s0.
Definition e1 := get e0 (add_endpoint key info ring0 e0).

Definition f0 : InFlight.t := InFlight.mk 0 100 Stage.Normal Direction.In 7 1 false None.
Definition f1 : InFlight.t := InFlight.mk 1 101 Stage.Normal Direction.In 7 2 false None.

Definition req : SubmitRequest.t := SubmitRequest.new 0x81 Direction.In 7.

Definition ep_of (e : Engine.t session QueueRing.t) : Endpoint.t QueueRing.t :=
  default (Endpoint.mk ring0 info [] None None) (Engine.endpoints e !! key).

(** The first URB only. *)
Definition e1a := launch key (ep_of e1) f0 0%nat (get (Err (Unlinked 0), s0) (session_submit req s0)).2 e1.
Definition e2 := get e1 (doorbell 2 key e1).

Definition ret : RetSubmit.t := RetSubmit.mk 1 0 3 0 0 [9; 8; 7] [].

(** The first result has arrived, its message is still the head. *)
Definition e2a :=
  Engine.put key (Endpoint.set_in_flight [InFlight.set_result (Ok ret) f0; f1] (ep_of e2)) e2.
Definition e3 := get e2 (finish 2 key 0 (Ok ret) e2).
Definition e4 := get e3 (pause_endpoint key e3).
Definition e5 := get e4 (remove_device 1 e4).

Lemma submit_step (e e' : Engine.t session QueueRing.t) ep message req stage seqnum c s f :
  Engine.endpoints e !! key = Some ep → active (Endpoint.ring ep) = true →
  plan key (session_speed (Engine.session e)) ep message req stage →
  session_submit req (Engine.session e) = Done (Ok (seqnum, c), s) →
  flight_of e message req stage seqnum = f → launch key ep f c s e = e' →
  pstep key [Submitted key f] e e'.
Proof. intros ? ? ? ? <- <-. by eapply p_submit. Qed.

(** The session after [n] of the requests. *)
Definition after (s : session) : session := (get (Err (Unlinked 0), s0) (session_submit req s)).2.

Lemma doorbell_steps : psteps key [Submitted key f0; Submitted key f1] e1 e2.
Proof.
  apply (psteps_cons key [Submitted key f0] [Submitted key f1] e1 e1a e2); [|apply psteps_one].
  - apply (submit_step e1 e1a (ep_of e1) 100 req Stage.Normal 1 0%nat (after s0));
      [vm_compute; reflexivity..| |vm_compute; reflexivity|vm_compute; reflexivity|vm_compute; reflexivity].
    apply (plan_head key _ _ 100 (Transfer.Normal 7)); vm_compute; reflexivity.
  - apply (submit_step e1a e2 (ep_of e1a) 101 req Stage.Normal 2 1%nat (after (after s0)));
      [vm_compute; reflexivity..| |vm_compute; reflexivity|vm_compute; reflexivity|vm_compute; reflexivity].
    apply (plan_ahead key _ _ f0 [] 101 (Transfer.Normal 7)); try (vm_compute; reflexivity);
      [by repeat constructor|vm_compute; lia].
Qed.

Definition applied0 : label QueueRing.t :=
  Applied key ring0 (InFlight.set_result (Ok ret) f0) Status.Success [9; 8; 7] 3 true.

Lemma finish_steps : psteps key [applied0] e2a e3.
Proof.
  apply psteps_one.
  assert (e3 = Engine.put key (Endpoint.set_in_flight [f1]
    (Endpoint.set_ring (QueueRing.mk true [(101, Transfer.Normal 7, [])] [(100, Status.Success, [9; 8; 7], 3)])
       (ep_of e2a))) (Engine.set_uas_warned false e2a)) as -> by (vm_compute; reflexivity).
  eapply (p_apply key e2a (ep_of e2a) (InFlight.set_result (Ok ret) f0) [f1] (Ok ret) FlowContinue);
    try (vm_compute; reflexivity).
  - by repeat split.
  - done.
  - cbn. lia.
  - by split.
Qed.

Definition labels : list (label QueueRing.t) :=
  [Submitted key f0; Submitted key f1; Finished key 0 (Ok ret); applied0].

Lemma reaches_e4 : reaches s0 labels e4.
Proof.
  change labels with (((((([] ++ []) ++ [Submitted key f0; Submitted key f1]) ++
    [Finished key 0 (Ok ret); applied0]) ++ []))).
  eapply reaches_step; [eapply reaches_step; [eapply reaches_step; [eapply reaches_step;
    [apply reaches_new|]|]|]|].
  - apply (e_add key info ring0 e0 e1). vm_compute. reflexivity.
  - apply (e_doorbell 2 key [Submitted key f0; Submitted key f1] e1 e2); [vm_compute; reflexivity|apply doorbell_steps].
  - apply (e_finish 2 key 0 0%nat (Ok ret) [applied0] e2 e2a e3); [| | |apply finish_steps].
    + vm_compute. left.
    + vm_compute. reflexivity.
    + apply (arrives_result key 0 (Ok ret) e2 (ep_of e2) [] f0 [f1]); try (vm_compute; reflexivity);
        [constructor|done].
  - apply (e_pause key e3 e4). vm_compute. reflexivity.
Qed.

(** The session's invariant, after both requests. *)
Lemma ok_e2 : ok (Engine.session e2).1.2 [(0%nat, 1, req); (1%nat, 2, req)].
Proof.
  pose proof (ok_submit (B := bytes_crate) req (start dev) (Ok (1, 0%nat)) (after s0).1.2 [] (ok_start dev)
    ltac:(vm_compute; reflexivity)) as H.
  apply (ok_submit (B := bytes_crate) req _ (Ok (2, 1%nat)) (Engine.session e2).1.2) in H; [exact H|].
  vm_compute. reflexivity.
Qed.

Lemma ok_e4 : ok (Engine.session e4).1.2 [(0%nat, 1, req); (1%nat, 2, req)].
Proof.
  apply (ok_unlink (B := bytes_crate) 2 (Engine.session e2).1.2); [apply ok_e2|].
  vm_compute. reflexivity.
Qed.

End EngineRun.

Lemma pump_runs_witness :
  ∃ e' ls, pump 2 EngineRun.key EngineRun.e1 = Done e' ∧ psteps EngineRun.key ls EngineRun.e1 e'.
Proof.
  apply (pump_runs 2 EngineRun.key EngineRun.e1).
  - intros ep [= <-]. vm_compute. lia.
  - split; [exists []; apply ok_start|vm_compute; reflexivity].
Defined.

Lemma finish_runs_witness :
  ∃ e1 e' ls, arrives EngineRun.key 0 (Ok EngineRun.ret) EngineRun.e2 e1 ∧
    finish 2 EngineRun.key 0 (Ok EngineRun.ret) EngineRun.e2 = Done e' ∧
    psteps EngineRun.key ls e1 e'.
Proof.
  destruct (finish_runs 2 EngineRun.key 0 (Ok EngineRun.ret) EngineRun.e2) as [[Hu _]|[_ H]].
  - intros ep. vm_compute. intros [= <-]. vm_compute. lia.
  - split; [|vm_compute; reflexivity].
    exists [(0%nat, 1, EngineRun.req); (1%nat, 2, EngineRun.req)].
    apply EngineRun.ok_e2.
  - exfalso. specialize (Hu (EngineRun.ep_of EngineRun.e2)).
    apply (Forall_inv (Hu ltac:(vm_compute; reflexivity))). vm_compute. reflexivity.
  - exact H.
Defined.

Lemma engine_settles_witness :
  (∃ e', doorbell 2 EngineRun.key EngineRun.e4 = Done e' ∧ awaited EngineRun.key e') ∧
  ∃ e', finish 2 EngineRun.key 1 (Ok EngineRun.ret) EngineRun.e4 = Done e' ∧
    awaited EngineRun.key e'.
Proof.
  destruct (engine_settles 2 EngineRun.key _ _ _ EngineRun.reaches_e4) as [Hd Hf].
  - intros ep. vm_compute. intros [= <-]. vm_compute. lia.
  - split; [|vm_compute; reflexivity]. eexists. apply EngineRun.ok_e4.
  - destruct Hd as (e' & ls & E & _ & Ha & _). split; [exists e'; exact (conj E Ha)|].
    destruct (Hf 1 (Ok EngineRun.ret)) as (e1 & e2 & ls' & _ & E2 & _ & Ha2 & _).
    + intros Hu. specialize (Hu (EngineRun.ep_of EngineRun.e4) ltac:(vm_compute; reflexivity)).
      assert (Endpoint.in_flight (EngineRun.ep_of EngineRun.e4)
        = [InFlight.set_unlinking EngineRun.f1]) as Ef by (vm_compute; reflexivity).
      rewrite Ef in Hu. exact (Forall_inv Hu eq_refl).
    + exists e2. exact (conj E2 Ha2).
Defined.

Lemma pause_endpoint_spec_witness :
  ∃ e', pause_endpoint EngineRun.key EngineRun.e2 = Done e' ∧
    pause_endpoint EngineRun.key e' = Done e'.
Proof.
  destruct (pause_endpoint_spec EngineRun.key EngineRun.e2) as (e' & H1 & _ & _ & _ & H2).
  - split; [|vm_compute; reflexivity]. eexists. apply EngineRun.ok_e2.
  - exists e'. exact (conj H1 H2).
Defined.

Lemma remove_device_spec_witness :
  ∃ e', remove_device 1 EngineRun.e2 = Done e' ∧
    1 ∈ asked (Engine.session e') ∧ 2 ∈ asked (Engine.session e').
Proof.
  destruct (remove_device_spec 1 EngineRun.e2) as (e' & H1 & _ & H2).
  - split; [|vm_compute; reflexivity]. eexists. apply EngineRun.ok_e2.
  - exists e'. split; [exact H1|]. split.
    + apply (H2 EngineRun.key EngineRun.f0); [reflexivity| |reflexivity]. vm_compute. left.
    + apply (H2 EngineRun.key EngineRun.f1); [reflexivity| |reflexivity]. vm_compute. right. left.
Defined.

(** GET_DESCRIPTOR(CONFIGURATION), first in full and then for the header alone. *)
Definition get_config : Setup.t := Setup.mk [0x80; 6; 0; 2; 0; 0; 0xff; 0] false.

Definition ep0 : Endpoint.t QueueRing.t :=
  Endpoint.mk EngineRun.ring0 EndpointInfo.CONTROL [] (Some get_config) None.

Definition ep_read : Endpoint.t QueueRing.t :=
  Endpoint.mk EngineRun.ring0 EndpointInfo.CONTROL [] (Some get_config) (Some (35, 18)).

Lemma short_read_matches_witness :
  ∃ ep3 warned3, control_data ep_read true (take 9 uas_disk) 9 =
    Done (ep3, warned3, take 9 bot_disk, 9).
Proof.
  apply (short_read_matches ep0 (Endpoint.set_setup (Some (Setup.mk (Setup.bytes get_config) true)) ep_read)
    ep_read false true true uas_disk bot_disk 18 9).
  - apply (bool_decide_unpack _). vm_compute. exact I.
  - vm_compute. reflexivity.
  - vm_compute. reflexivity.
  - vm_compute. discriminate.
  - reflexivity.
  - vm_compute. reflexivity.
  - lia.
  - vm_compute. lia.
  - vm_compute. lia.
  - lia.
Defined.
