(* ===== verification/EngineRuns.v ===== *)
(** * EngineRuns: what a run of the engine's code does to its rings and its session (src/src/engine.rs)

    [cstep] is one call of an operation of the engine as the code defines it, or a move of one of its
    neighbours; nothing else is said of it.  What a run did is read off the rings, which write down every
    completion ([Recorded]), off the session, which writes down every request it accepted ([Accepting]),
    and off the results that were handed to [finish].  Every such run is explained by the small steps of
    [EngineSteps] ([runs_accounts]), from which the theorems follow. *)

From stdpp Require Import base tactics option list gmap fin_maps relations sorting.
From S2P Require Import Prelude Wire Protocol Hci Session SessionFacts System Engine EngineFacts EngineSteps EngineLive EngineSpec.

(** ** Rings that write down their completions *)

(** One completion: the ring as it was, what it was completed with, and whether it accepted. *)
Module Entry.

Record t (R : Type) : Type := mk {
  before : R;
  status : Status.t;
  data : list Z;
  len : Z;
  accepted : bool;
}.
#[global] Arguments mk {R} before status data len accepted.
#[global] Arguments before {R} t.
#[global] Arguments status {R} t.
#[global] Arguments data {R} t.
#[global] Arguments len {R} t.
#[global] Arguments accepted {R} t.

End Entry.

Module Recorded.

Record t (R : Type) : Type := mk { inner : R; log : list (Entry.t R) }.
#[global] Arguments mk {R} inner log.
#[global] Arguments inner {R} t.
#[global] Arguments log {R} t.

Section Recorded.
Context {R : Type} {RG : Ring R}.

#[global] Instance ring : Ring (t R) := {
  active r := active (inner r);
  current r := current (inner r);
  peek n r := peek n (inner r);
  read n len r := read n len (inner r);
  ring_complete st data len r :=
    let '(ok, r') := ring_complete st data len (inner r) in
    (ok, mk r' (log r ++ [Entry.mk (inner r) st data len ok]));
}.

#[global] Instance laws {RL : RingLaws R} : RingLaws (t R).
Proof.
  refine {| queued r := queued (inner r) |}.
  intros st data len [r l] [r' l']. cbn. destruct (ring_complete st data len r) as [ok r1] eqn:E.
  intros [= -> -> _]. by eapply complete_queued.
Defined.

Lemma complete_inv st data len (r r' : t R) ok :
  ring_complete st data len r = (ok, r') →
  ring_complete st data len (inner r) = (ok, inner r') ∧
  log r' = log r ++ [Entry.mk (inner r) st data len ok].
Proof.
  cbn. destruct (ring_complete st data len (inner r)) as [b r1]. by intros [= <- <-].
Qed.

End Recorded.
End Recorded.

(** ** Runs of the code *)

Section Code.
Context {R : Type} {RG : Ring R} {S : Type} {SO : SessionOps S} {ST : SessionTrace S}.

Notation engine := (Engine.t S (Recorded.t R)).

(** What came from outside: a result for the task [w], and a reset of the device, each with the engine it
    found. *)
Inductive event : Type :=
| Arrived (w : waiter) (res : TransferResult) (e : engine)
| DeviceReset (e : engine).

(** One call of the engine, or a move of a neighbour: the host changes what a ring reads, another task
    uses the session. *)
Inductive cstep : list event → engine → engine → Prop :=
| c_add key info r e e' : add_endpoint key info (Recorded.mk r []) e = Done e' → cstep [] e e'
| c_update key info e : cstep [] e (update_endpoint key info e)
| c_remove key e e' : remove_endpoint key e = Done e' → cstep [] e e'
| c_remove_device device e e' : remove_device device e = Done e' → cstep [] e e'
| c_reset key e e' : reset_endpoint key e = Done e' → cstep [] e e'
| c_pause key e e' : pause_endpoint key e = Done e' → cstep [] e e'
| c_sync key e e' : sync_endpoint key e = Done e' → cstep [] e e'
| c_doorbell messages key e e' : doorbell messages key e = Done e' → cstep [] e e'
| c_finish messages w res e e' :
    w ∈ Engine.waiters e → finish messages (w_key w) (w_token w) res e = Done e' →
    cstep [Arrived w res e] e e'
| c_reset_device await x e e' : reset_device await e = Done (x, e') → cstep [DeviceReset e] e e'
| c_host key ep r e :
    Engine.endpoints e !! key = Some ep →
    cstep [] e (Engine.put key
      (Endpoint.set_ring (Recorded.mk r (Recorded.log (Endpoint.ring ep))) ep) e)
| c_session s e : env (Engine.session e) s → cstep [] e (Engine.set_session s e).

Inductive runs (s0 : S) : list event → engine → Prop :=
| runs_new : runs s0 [] (new s0)
| runs_step es1 es2 e1 e2 : runs s0 es1 e1 → cstep es2 e1 e2 → runs s0 (es1 ++ es2) e2.

(** ** What is said of one completion *)

(** The completion [x] of an endpoint's ring delivers the result [res] of the URB [f]: the message [f] was
    built from is at the head, the result came for the task of [f] while [f] was in flight, the status is
    the result's, and outside the control data stage (where UAS settings are hidden) the length and the
    data are, too; OUT transfers write nothing back, IN transfers no more than was asked for. *)
Definition delivered (es : list event) (key : EndpointKey) (x : Entry.t R) (f : InFlight.t)
    (res : TransferResult) : Prop :=
  InFlight.message f = (current (Entry.before x)).1 ∧
  (∃ w e0, Arrived w res e0 ∈ es ∧ w ∈ Engine.waiters e0 ∧ w_key w = key ∧
     w_token w = InFlight.token f ∧ f ∈ flights key e0) ∧
  Entry.status x = (outcome_of f res).1.1 ∧
  (InFlight.direction f = Direction.Out → Entry.data x = []) ∧
  unaltered f res (Entry.data x) (Entry.len x) ∧
  (0 ≤ InFlight.length f →
     Entry.len x ≤ InFlight.length f ∧ Z.of_nat (length (Entry.data x)) ≤ InFlight.length f).

(** Or it answers a message for which there is no result, without data: with success only where none is
    moved, and otherwise with an error, its own or the one its URB was refused with. *)
Definition unaided (x : Entry.t R) : Prop :=
  Entry.data x = [] ∧ Entry.len x = 0 ∧
  ∃ t, (current (Entry.before x)).2 = Some t ∧
    (answers t (Entry.status x) ∨ ∃ err, Entry.status x = error_status err).

(** [o]: the URB whose result it delivers, if it delivers one. *)
Definition accounted (es : list event) (key : EndpointKey) (x : Entry.t R) (o : option InFlight.t) : Prop :=
  match o with
  | Some f => ∃ res, delivered es key x f res
  | None => unaided x
  end.

End Code.
#[global] Arguments event R S : clear implicits.

(** ** Runs, explained by small steps *)

Section Explained.
Context {R : Type} {RG : Ring R} {S : Type} {SO : SessionOps S} {ST : SessionTrace S}.

Notation engine := (Engine.t S (Recorded.t R)).
Notation log_at ep := (Recorded.log (Endpoint.ring ep)).

(** The completions the labels tell of, each with the URB whose result it delivers. *)
Definition told (key : EndpointKey) (l : label (Recorded.t R)) : option (Entry.t R * option InFlight.t) :=
  match l with
  | Applied k r f st data len ok =>
    if decide (k = key) then Some (Entry.mk (Recorded.inner r) st data len ok, Some f) else None
  | Answered k r st ok =>
    if decide (k = key) then Some (Entry.mk (Recorded.inner r) st [] 0 ok, None) else None
  | Submitted _ _ | Finished _ _ _ => None
  end.

(** Every ring of [e'] has the log it had in [e], or is new. *)
Definition logs_kept (e e' : engine) : Prop :=
  ∀ key ep', Engine.endpoints e' !! key = Some ep' →
    log_at ep' = [] ∨ ∃ ep, Engine.endpoints e !! key = Some ep ∧ log_at ep' = log_at ep.

Lemma logs_kept_refl e e' : Engine.endpoints e' = Engine.endpoints e → logs_kept e e'.
Proof. intros E key ep'. rewrite E. eauto. Qed.

Lemma logs_kept_put key ep' e e' :
  Engine.endpoints e' = <[key := ep']> (Engine.endpoints e) →
  log_at ep' = [] ∨ (∃ ep, Engine.endpoints e !! key = Some ep ∧ log_at ep' = log_at ep) →
  logs_kept e e'.
Proof.
  intros E H k ep1. rewrite E. destruct (decide (k = key)) as [->|Hk].
  - rewrite lookup_insert_eq. by intros [= <-].
  - rewrite lookup_insert_ne by done. eauto.
Qed.

Lemma unlink_all_endpoints fs (e e' : engine) :
  unlink_all fs e = Done e' → Engine.endpoints e' = Engine.endpoints e.
Proof. by intros (s & _ & ->)%unlink_all_inv. Qed.

(** What a call that does not pump makes of the session. *)
Definition aside (es : list (event R S)) (e e' : engine) : Prop :=
  unlinks (Engine.session e) (Engine.session e') ∨ env (Engine.session e) (Engine.session e') ∨
  DeviceReset e ∈ es ∧
    ∃ x, session_submit reset_request (Engine.session e) = Done (x, Engine.session e').

Lemma aside_same es e e' : Engine.session e' = Engine.session e → aside es e e'.
Proof. intros E. left. by rewrite E. Qed.

(** How the labels explain a call. *)
Inductive explains : list (event R S) → list (label (Recorded.t R)) → engine → engine → Prop :=
| ex_shrinks es e e' :
    (∀ w res e0, Arrived w res e0 ∉ es) → shrinks e e' → logs_kept e e' → aside es e e' →
    explains es [] e e'
| ex_pump key ls e e' : psteps key ls e e' → explains [] ls e e'
| ex_arrival w res ls e e1 e' :
    w ∈ Engine.waiters e → arrives (w_key w) (w_token w) res e e1 → psteps (w_key w) ls e1 e' →
    explains [Arrived w res e] (Finished (w_key w) (w_token w) res :: ls) e e'
| ex_stale w res e :
    w ∈ Engine.waiters e →
    explains [Arrived w res e] [Finished (w_key w) (w_token w) res] e e.

Lemma finish_explained messages w res (e e' : engine) :
  w ∈ Engine.waiters e → finish messages (w_key w) (w_token w) res e = Done e' →
  ∃ ls, estep ls e e' ∧ explains [Arrived w res e] ls e e'.
Proof.
  intros Hw H. assert (mk_waiter (w_key w) (w_token w) (w_chan w) ∈ Engine.waiters e) as Hw' by by destruct w.
  destruct (finish_cases messages (w_key w) (w_token w) res e)
    as [[Hu E]|(ep & He & _ & [(e1 & Ha & E)|[_ Hno]])].
  - rewrite E in H. injection H as <-. eexists. split; [by eapply e_finish_stale|by constructor].
  - pose proof H as H1. rewrite E in H1. apply pump_loop_steps in H1 as (ls & Hs & _).
    eexists. split; [by eapply e_finish|by econstructor].
  - by destruct (Hno e').
Qed.

Lemma add_endpoint_logs key info r (e e' : engine) :
  add_endpoint key info (Recorded.mk r []) e = Done e' → logs_kept e e'.
Proof.
  unfold add_endpoint. set (ep := Endpoint.mk _ _ _ _ _). intros H.
  apply (logs_kept_put key ep); [|by left].
  destruct (_ !! key); [by apply unlink_all_endpoints in H|by injection H as <-].
Qed.

Lemma remove_endpoint_logs key (e e' : engine) : remove_endpoint key e = Done e' → logs_kept e e'.
Proof.
  unfold remove_endpoint. intros H. assert (Engine.endpoints e' = delete key (Engine.endpoints e)) as E
    by (destruct (_ !! key); [by apply unlink_all_endpoints in H|by injection H as <-]).
  intros k ep. rewrite E. intros [_ Hk]%lookup_delete_Some. eauto.
Qed.

Lemma remove_device_logs device (e e' : engine) : remove_device device e = Done e' → logs_kept e e'.
Proof.
  intros H key ep. rewrite (remove_device_endpoints _ _ _ _ H). case_decide; [done|]. eauto.
Qed.

Lemma reset_endpoint_logs key (e e' : engine) : reset_endpoint key e = Done e' → logs_kept e e'.
Proof.
  unfold reset_endpoint. destruct (_ !! key) as [ep|] eqn:He; [|intros [= <-]; by apply logs_kept_refl].
  intros E%unlink_all_endpoints. by eapply logs_kept_put; [exact E|eauto].
Qed.

Lemma pause_endpoint_logs key (e e' : engine) : pause_endpoint key e = Done e' → logs_kept e e'.
Proof.
  unfold pause_endpoint. case_match; [intros [= <-]; by apply logs_kept_refl|].
  destruct (_ !! key) as [ep|] eqn:He; [|intros [= <-]; by apply logs_kept_refl].
  destruct (pause_flights _ _) as [[gs s]| |]; try done. cbn [mbind outcome_bind]. intros [= <-].
  by eapply logs_kept_put; [done|eauto].
Qed.

Lemma sync_endpoint_logs key (e e' : engine) : sync_endpoint key e = Done e' → logs_kept e e'.
Proof.
  unfold sync_endpoint. destruct (_ !! key) as [ep|] eqn:He; [|intros [= <-]; by apply logs_kept_refl].
  destruct (Endpoint.in_flight ep); [intros [= <-]; by apply logs_kept_refl|].
  case_match; [|intros [= <-]; by apply logs_kept_refl].
  intros E%unlink_all_endpoints. by eapply logs_kept_put; [exact E|eauto].
Qed.

Lemma update_endpoint_logs key info (e : engine) : logs_kept e (update_endpoint key info e).
Proof.
  unfold update_endpoint. destruct (_ !! key) as [ep|] eqn:He; [|by apply logs_kept_refl].
  by eapply logs_kept_put; [done|eauto].
Qed.

Lemma reset_device_endpoints await x (e e' : engine) :
  reset_device await e = Done (x, e') → Engine.endpoints e' = Engine.endpoints e.
Proof.
  unfold reset_device. destruct (session_submit _ _) as [[y s]| |]; try done. cbn [mbind outcome_bind].
  intros H. assert (e' = Engine.set_session s e) as -> by (repeat case_match; congruence). done.
Qed.

Create HintDb logs.
#[local] Hint Resolve add_endpoint_logs remove_endpoint_logs remove_device_logs reset_endpoint_logs
  pause_endpoint_logs sync_endpoint_logs update_endpoint_logs : logs.
#[local] Hint Resolve add_endpoint_shrinks update_endpoint_shrinks remove_endpoint_shrinks
  remove_device_shrinks reset_endpoint_shrinks pause_endpoint_shrinks sync_endpoint_shrinks
  reset_device_shrinks : logs.
#[local] Hint Resolve add_endpoint_unlinks update_endpoint_unlinks remove_endpoint_unlinks
  remove_device_unlinks reset_endpoint_unlinks pause_endpoint_unlinks sync_endpoint_unlinks : logs.
#[local] Hint Constructors estep : logs.

Lemma cstep_explained es (e e' : engine) : cstep es e e' → ∃ ls, estep ls e e' ∧ explains es ls e e'.
Proof.
  assert (∀ w res e0, Arrived (R := R) (S := S) w res e0 ∉ []) as Hnil by by intros ? ? ? ?%elem_of_nil.
  destruct 1 as [key info r e e' H|key info e|key e e' H|device e e' H|key e e' H|key e e' H|key e e' H
    |messages key e e' H|messages w res e e' Hw H|await x e e' H|key ep r e He|s e H].
  8: { pose proof H as H1. apply pump_loop_steps in H1 as (ls & Hs & _).
       exists ls. split; [by eapply e_doorbell|by eapply ex_pump]. }
  8: by eapply finish_explained.
  1-7: exists []; split; [|apply ex_shrinks; [| | |left]]; eauto with logs.
  - exists []. split; [by eapply e_reset_device|]. apply ex_shrinks; [|by eapply reset_device_shrinks| |].
    + by intros w res e0 ?%list_elem_of_singleton.
    + by apply logs_kept_refl, (reset_device_endpoints await x).
    + right. right. apply reset_device_submits in H as [y H]. split; [by left|by exists y].
  - exists []. split; [by apply e_host|]. apply ex_shrinks; [done|by eapply shrinks_same| |by apply aside_same].
    by eapply logs_kept_put; [done|eauto].
  - exists []. split; [by apply e_session|]. apply ex_shrinks; [done| |by apply logs_kept_refl|right; by left].
    apply shrinks_session. by apply env_asked.
Qed.

(** The results the labels tell of came for a task of the engine. *)
Lemma explains_finished es ls (e e' : engine) key token res :
  explains es ls e e' → Finished key token res ∈ ls →
  ∃ w, Arrived w res e ∈ es ∧ w ∈ Engine.waiters e ∧ w_key w = key ∧ w_token w = token.
Proof.
  intros H Hin. destruct H as [es e e' _ _ _ _|k ls e e' Hp|w r ls e e1 e' Hw _ Hp|w r e Hw].
  - by apply elem_of_nil in Hin.
  - by apply (psteps_unfinished _ _ _ _ _ _ _ Hp) in Hin.
  - apply elem_of_cons in Hin as [Hin|Hin]; [|by apply (psteps_unfinished _ _ _ _ _ _ _ Hp) in Hin].
    injection Hin as -> -> ->. exists w. set_solver.
  - apply list_elem_of_singleton in Hin. injection Hin as -> -> ->. exists w. set_solver.
Qed.

(** *** The logs along small steps *)

Lemma lookup_put_log (key k : EndpointKey) (ep ep' : Endpoint.t (Recorded.t R))
  (m : gmap EndpointKey (Endpoint.t (Recorded.t R))) (l : list (Entry.t R)) :
  m !! key = Some ep → log_at ep' = log_at ep ++ l →
  (λ ep, log_at ep) <$> (<[key := ep']> m !! k) =
  (λ ep, log_at ep ++ if decide (key = k) then l else []) <$> m !! k.
Proof.
  intros Hm El. case_decide as Hk.
  - subst k. rewrite lookup_insert_eq, Hm. cbn. by rewrite El.
  - rewrite lookup_insert_ne by done. destruct (m !! k); [|done]. cbn. by rewrite app_nil_r.
Qed.

Lemma completes_log (ep ep' : Endpoint.t (Recorded.t R)) st data len ok :
  completes ep st data len ok ep' →
  log_at ep' = log_at ep ++ [Entry.mk (Recorded.inner (Endpoint.ring ep)) st data len ok].
Proof. intros [H _]. by apply Recorded.complete_inv in H as [_ H]. Qed.

Lemma pstep_log key ls (e e' : engine) k : pstep key ls e e' →
  (λ ep, log_at ep) <$> Engine.endpoints e' !! k =
  (λ ep, log_at ep ++ (omap (told k) ls).*1) <$> Engine.endpoints e !! k.
Proof.
  assert (∀ m : gmap EndpointKey (Endpoint.t (Recorded.t R)),
    (λ ep, log_at ep) <$> m !! k = (λ ep, log_at ep ++ []) <$> m !! k) as Hsame.
  { intros m. destruct (m !! k); [|done]. cbn. by rewrite app_nil_r. }
  intros H. destruct H as [e ep front rest s He _ _ _ _
    |e ep front rest r flow ep' warned data len ok He _ _ _ _ _ Hc _ _ _ _
    |e ep message t next st ok ep' He _ _ _ _ _ Hc
    |e ep message req stage seqnum c s He _ _ _
    |e ep message req stage err s ok ep' He _ _ _ _ Hc _
    |e ep message req stage err s]; cbn; try (rewrite (lookup_put_log key k ep _ _ []) by (done || by rewrite app_nil_r));
    try (by case_decide; cbn); try apply Hsame.
  all: apply completes_log in Hc; rewrite (lookup_put_log key k ep _ _ _ He Hc); by case_decide.
Qed.

Lemma psteps_log key ls (e e' : engine) k : psteps key ls e e' →
  (λ ep, log_at ep) <$> Engine.endpoints e' !! k =
  (λ ep, log_at ep ++ (omap (told k) ls).*1) <$> Engine.endpoints e !! k.
Proof.
  induction 1 as [e|ls1 ls2 e1 e2 e3 H _ IH]; cbn.
  { destruct (Engine.endpoints e !! k); [|done]. cbn. by rewrite app_nil_r. }
  rewrite IH. pose proof (pstep_log _ _ _ _ k H) as H1.
  destruct (Engine.endpoints e1 !! k) as [ep1|], (Engine.endpoints e2 !! k) as [ep2|]; try done.
  cbn in *. injection H1 as ->. by rewrite omap_app, fmap_app, (assoc_L (++)).
Qed.

Lemma arrives_log key token res (e e' : engine) k : arrives key token res e e' →
  (λ ep, log_at ep) <$> Engine.endpoints e' !! k = (λ ep, log_at ep) <$> Engine.endpoints e !! k.
Proof.
  destruct 1 as [e ep before f after status s He|e ep before f after He]; cbn;
    rewrite (lookup_put_log key k ep _ _ []) by (done || by rewrite app_nil_r);
    destruct (Engine.endpoints e !! k); try done; cbn; case_decide; by rewrite app_nil_r.
Qed.

(** *** The flights along small steps *)

(** A result a flight has, it had before. *)
Definition no_news (e e' : engine) : Prop :=
  ∀ k g res, g ∈ flights k e' → InFlight.result g = Some res →
    ∃ f, f ∈ flights k e ∧ InFlight.result f = Some res ∧ kin f g.

Lemma shrinks_no_news e e' : shrinks e e' → no_news e e'.
Proof.
  intros H k g res Hg Hr. apply (thinned_from _ _ _ (shrinks_flights _ _ H k)) in Hg as (f & Hf & Hs).
  exists f. split; [done|]. split; [|by apply similar_kin].
  apply similar_fields in Hs as (_ & _ & E). congruence.
Qed.

Lemma put_no_news key ep ep' (e e' : engine) :
  Engine.endpoints e !! key = Some ep → Engine.endpoints e' = <[key := ep']> (Engine.endpoints e) →
  (∀ g res, g ∈ Endpoint.in_flight ep' → InFlight.result g = Some res → g ∈ Endpoint.in_flight ep) →
  no_news e e'.
Proof.
  intros He E H k g res Hg Hr. exists g. split; [|split; [done|apply kin_refl]].
  rewrite (flights_insert key k ep' (Engine.endpoints e)) in Hg by done. case_decide; [|done]. subst k.
  rewrite (flights_lookup _ _ _ He). by eapply H.
Qed.

Lemma pstep_no_news key ls (e e' : engine) : pstep key ls e e' →
  no_news e e' ∧ ∀ k r f st data len ok, Applied k r f st data len ok ∈ ls → f ∈ flights k e.
Proof.
  assert (∀ k (r : Recorded.t R) st ok k' r' f st' data len ok',
    Applied k' r' f st' data len ok' ∉ [Answered k r st ok]) as Hans
    by by intros ? ? ? ? ? ? ? ? ? ? ? ?%list_elem_of_singleton.
  intros H. destruct H as [e ep front rest s He _ _ _ _
    |e ep front rest r flow ep' warned data len ok He _ Ef _ _ _ (_ & _ & Ef') _ _ _ _
    |e ep message t next st ok ep' He _ _ _ _ _ (_ & _ & Ef')
    |e ep message req stage seqnum c s He _ _ _
    |e ep message req stage err s ok ep' He _ _ _ _ (_ & _ & Ef') _
    |e ep message req stage err s]; split;
    try (by intros ? ? ? ? ? ? ? ?%elem_of_nil); try (by intros ? ? ? ? ? ? ? ?%Hans).
  - eapply (put_no_news key ep); [done..|]. by intros g res ?%elem_of_nil.
  - eapply (put_no_news key ep); [done..|]. intros g res. rewrite Ef', Ef. cbn. by right.
  - intros k r' f st' data' len' ok' Hin%list_elem_of_singleton. injection Hin as -> _ -> _ _ _ _.
    rewrite (flights_lookup _ _ _ He), Ef. by left.
  - eapply (put_no_news key ep); [done..|]. intros g res. by rewrite Ef'.
  - eapply (put_no_news key ep); [done..|]. cbn. intros g res [?|Hg%list_elem_of_singleton]%elem_of_app; [done|].
    by subst g.
  - by intros ? ? ? ? ? ? ? ?%list_elem_of_singleton.
  - eapply (put_no_news key ep); [done..|]. intros g res. by rewrite Ef'.
  - intros k g res Hg Hr. exists g. split; [done|]. split; [done|apply kin_refl].
Qed.

(** *** The invariant *)

(** The result [res] came for the URB [f] while it was in flight. *)
Definition arrived (es : list (event R S)) (key : EndpointKey) (f : InFlight.t) (res : TransferResult) : Prop :=
  ∃ w e0 f0, Arrived w res e0 ∈ es ∧ w ∈ Engine.waiters e0 ∧ w_key w = key ∧
    w_token w = InFlight.token f ∧ f0 ∈ flights key e0 ∧ kin f0 f.

Lemma arrived_kin es key f g res : kin f g → arrived es key f res → arrived es key g res.
Proof.
  intros Hk (w & e0 & f0 & ? & ? & ? & Et & ? & Hf). exists w, e0, f0. split_and!; try done.
  - by rewrite Et, (proj1 Hk).
  - by eapply kin_trans.
Qed.

Lemma arrived_mono es es' key f res : es ⊆ es' → arrived es key f res → arrived es' key f res.
Proof. intros Hs (w & e0 & f0 & ? & H). exists w, e0, f0. auto. Qed.

Record accounts (es : list (event R S)) (ls : list (label (Recorded.t R))) (e : engine) : Prop := {
  ac_traced : traced ls e;
  ac_finished key token res : Finished key token res ∈ ls →
    ∃ w e0, Arrived w res e0 ∈ es ∧ w ∈ Engine.waiters e0 ∧ w_key w = key ∧ w_token w = token;
  ac_flight key f res : f ∈ flights key e → InFlight.result f = Some res → arrived es key f res;
  ac_applied key r f st data len ok res :
    Applied key r f st data len ok ∈ ls → InFlight.result f = Some res → arrived es key f res;
  ac_log key ep : Engine.endpoints e !! key = Some ep →
    log_at ep `suffix_of` (omap (told key) ls).*1;
}.

Lemma accounts_new s : accounts [] [] (new s).
Proof.
  split; try (by intros; match goal with H : _ ∈ [] |- _ => apply elem_of_nil in H end).
  - apply traced_new.
  - intros key f res. unfold flights. cbn. rewrite lookup_empty. by intros ?%elem_of_nil.
  - intros key ep. cbn. by rewrite lookup_empty.
Qed.

Lemma accounts_quiet es es2 ls ls2 e e' :
  accounts es ls e → traced (ls ++ ls2) e' → no_news e e' →
  (∀ key token res, Finished key token res ∈ ls2 →
     ∃ w e0, Arrived w res e0 ∈ es2 ∧ w ∈ Engine.waiters e0 ∧ w_key w = key ∧ w_token w = token) →
  (∀ key r f st data len ok, Applied key r f st data len ok ∈ ls2 → f ∈ flights key e) →
  (∀ key ep', Engine.endpoints e' !! key = Some ep' →
     log_at ep' = [] ∨ ∃ ep, Engine.endpoints e !! key = Some ep ∧
       log_at ep' = log_at ep ++ (omap (told key) ls2).*1) →
  accounts (es ++ es2) (ls ++ ls2) e'.
Proof.
  intros [_ Hfin Hfl Happ Hlog] Ht Hnn Hf2 Ha2 Hl2.
  assert (es ⊆ es ++ es2 ∧ es2 ⊆ es ++ es2) as [H1 H2] by set_solver. split; [done|..].
  - intros key token res [Hin|Hin]%elem_of_app; [apply Hfin in Hin|apply Hf2 in Hin];
      destruct Hin as (w & e0 & ? & ?); exists w, e0; auto.
  - intros key g res Hg Hr. destruct (Hnn _ _ _ Hg Hr) as (f & Hf & Er & Hk).
    eapply arrived_kin; [done|]. apply (arrived_mono es); [done|by apply Hfl].
  - intros key r f st data len ok res [Hin|Hin]%elem_of_app Hr; apply (arrived_mono es); [done| |done|];
      [by eapply Happ|]. apply Hfl; [by eapply Ha2|done].
  - intros key ep' He. rewrite omap_app, fmap_app.
    destruct (Hl2 _ _ He) as [->|(ep & Hep & ->)]; [apply suffix_nil|].
    apply suffix_app. by apply Hlog.
Qed.

Lemma accounts_pstep es ls key ls2 e e' :
  pstep key ls2 e e' → accounts es ls e → accounts es (ls ++ ls2) e'.
Proof.
  intros Hs H. pose proof (pstep_no_news _ _ _ _ Hs) as [Hn Ha].
  rewrite <- (app_nil_r es). eapply accounts_quiet; [done| |done| |done|].
  - eapply traced_pstep; [done|apply H].
  - intros k token res Hin. exfalso. clear Hn Ha. destruct Hs; try (by apply elem_of_nil in Hin);
      by apply list_elem_of_singleton in Hin.
  - intros k ep' He. right. pose proof (pstep_log _ _ _ _ k Hs) as Hl. rewrite He in Hl.
    destruct (Engine.endpoints e !! k) as [ep|]; [|done]. exists ep. by injection Hl.
Qed.

Lemma accounts_psteps es ls key ls2 e e' :
  psteps key ls2 e e' → accounts es ls e → accounts es (ls ++ ls2) e'.
Proof.
  intros H. revert ls. induction H as [|ls1 ls2 e1 e2 e3 H _ IH]; intros ls Hl; [by rewrite app_nil_r|].
  rewrite (assoc_L (++)). by eapply IH, accounts_pstep.
Qed.

Lemma accounts_arrives es ls w res e e' :
  w ∈ Engine.waiters e → arrives (w_key w) (w_token w) res e e' → accounts es ls e →
  accounts (es ++ [Arrived w res e]) (ls ++ [Finished (w_key w) (w_token w) res]) e'.
Proof.
  intros Hw Ha H.
  assert (traced (ls ++ [Finished (w_key w) (w_token w) res]) e') as Ht
    by (eapply traced_arrives; [done|apply H]).
  assert (∀ k ep', Engine.endpoints e' !! k = Some ep' →
    ∃ ep, Engine.endpoints e !! k = Some ep ∧ log_at ep' = log_at ep) as Hlog.
  { intros k ep' He. pose proof (arrives_log _ _ _ _ _ k Ha) as Hl. rewrite He in Hl.
    destruct (Engine.endpoints e !! k) as [ep|]; [|done]. exists ep. by injection Hl. }
  pose proof H as [_ Hfin Hfl Happ Hl].
  assert (∀ l : event R S, es ⊆ es ++ [l]) as Hsub by set_solver.
  split; [done|..].
  - intros key token r [Hin|Hin]%elem_of_app.
    + destruct (Hfin _ _ _ Hin) as (w1 & e0 & ? & ?). exists w1, e0. set_solver.
    + apply list_elem_of_singleton in Hin. injection Hin as -> -> ->. exists w, e. set_solver.
  - intros key g r Hg Hr. assert (g ∈ flights key e ∨ (key = w_key w ∧ r = res ∧
      ∃ f, f ∈ flights (w_key w) e ∧ InFlight.token f = w_token w ∧ kin f g)) as [Hin|(-> & -> & f & Hf & Et & Hk)].
    { destruct Ha as [e ep before f after status s He Ef _ _ _ _ _|e ep before f after He Ef Et _ _];
        (unfold flights at 1 in Hg; cbn in Hg; destruct (decide (key = w_key w)) as [->|Hk];
         [rewrite lookup_insert_eq in Hg; cbn in Hg; rewrite (flights_lookup _ _ _ He), Ef
         |rewrite lookup_insert_ne in Hg by done; by left]).
      - left. set_solver.
      - apply elem_of_app in Hg as [Hg|[->|Hg]%elem_of_cons]; [left; set_solver| |left; set_solver].
        right. cbn in Hr. injection Hr as ->. split; [done|]. split; [done|].
        exists f. split; [apply elem_of_app; right; by left|]. split; [exact Et|by repeat split]. }
    + apply (arrived_mono es); [apply Hsub|by apply Hfl].
    + exists w, e, f. split_and!; try done; [set_solver|]. by rewrite (proj1 Hk).
  - intros key r f st data len ok res' [Hin|Hin]%elem_of_app Hr;
      [|by apply list_elem_of_singleton in Hin].
    apply (arrived_mono es); [apply Hsub|by eapply Happ].
  - intros key ep' He. destruct (Hlog _ _ He) as (ep & Hep & ->). rewrite omap_app, app_nil_r.
    by apply Hl.
Qed.

Lemma accounts_explains es es2 ls ls2 e e' :
  explains es2 ls2 e e' → estep ls2 e e' → accounts es ls e → accounts (es ++ es2) (ls ++ ls2) e'.
Proof.
  intros Hx Hs H. assert (traced (ls ++ ls2) e') as Ht by (eapply traced_estep; [done|apply H]).
  destruct Hx as [es2 e e' _ Hsh Hl _|key ls2 e e' Hp|w res ls2 e e1 e' Hw Ha Hp|w res e Hw].
  - eapply accounts_quiet; [exact H|exact Ht|by apply shrinks_no_news| |by intros ? ? ? ? ? ? ? ?%elem_of_nil|].
    + by intros ? ? ? ?%elem_of_nil.
    + intros key ep' He. destruct (Hl _ _ He) as [?|(ep & ? & ?)]; [by left|right].
      exists ep. by rewrite app_nil_r.
  - rewrite app_nil_r. by eapply accounts_psteps.
  - rewrite (cons_middle (Finished _ _ _)), (assoc_L (++)). eapply accounts_psteps; [exact Hp|].
    by apply accounts_arrives.
  - eapply accounts_quiet; [exact H|exact Ht|by apply shrinks_no_news, shrinks_refl| | |].
    + intros key token r Hin%list_elem_of_singleton. injection Hin as -> -> ->. exists w, e. set_solver.
    + by intros ? ? ? ? ? ? ? ?%list_elem_of_singleton.
    + intros key ep' He. right. exists ep'. by rewrite app_nil_r.
Qed.

Lemma runs_accounts s0 es e : runs s0 es e → ∃ ls, reaches s0 ls e ∧ accounts es ls e.
Proof.
  induction 1 as [|es1 es2 e1 e2 _ (ls & Hr & Ha) Hs]; [exists []; split; [constructor|apply accounts_new]|].
  destruct (cstep_explained _ _ _ Hs) as (ls2 & Hs2 & Hx). exists (ls ++ ls2).
  split; [by eapply reaches_step|by eapply accounts_explains].
Qed.

End Explained.

(** ** What a run completes *)

Section Completions.
Context {R : Type} {RG : Ring R} {S : Type} {SO : SessionOps S} {ST : SessionTrace S}.

Notation engine := (Engine.t S (Recorded.t R)).
Notation log_of ep := (Recorded.log (Endpoint.ring ep)).
Notation token_of o := (InFlight.token <$> o).

Lemma kin_outcome f g res : kin f g → outcome_of g res = outcome_of f res.
Proof. intros (_ & _ & Es & _ & El & _). unfold outcome_of. by rewrite Es, El. Qed.

Lemma outcome_of_bounds f r :
  0 ≤ InFlight.length f →
  (outcome_of f r).2 ≤ InFlight.length f ∧
  ((length (outcome_of f r).1.2) ≤ Z.to_nat (InFlight.length f))%nat.
Proof.
  intros Hl. unfold outcome_of. destruct r as [ret|err]; [|cbn; lia].
  match goal with |- context [let '(_, _) := ?m in _] => destruct m as [st actual] end.
  cbn. rewrite length_take. lia.
Qed.

(** A completion the labels tell of is one of those described above. *)
Lemma applied_delivered es ls (e : engine) key r f st data len ok :
  accounts es ls e → Applied key r f st data len ok ∈ ls →
  active r = true ∧ ∃ f0 res, InFlight.result f = Some res ∧ kin f0 f ∧
    delivered es key (Entry.mk (Recorded.inner r) st data len ok) f0 res.
Proof.
  intros H Hin.
  destruct (tr_applied _ _ (ac_traced _ _ _ H) _ _ _ _ _ _ _ Hin)
    as (Ha & Hm & res & Hr & _ & Hst & Ho & Hd & Hlen & Hun).
  destruct (ac_applied _ _ _ H _ _ _ _ _ _ _ _ Hin Hr) as (w & e0 & f0 & Hw & Hwe & Hk & Et & Hf & Hkin).
  split; [done|]. exists f0, res. split; [done|]. split; [done|].
  pose proof (kin_outcome _ _ res Hkin) as Eo. pose proof Hkin as (Et' & Em & Es & Ed & El & _).
  rewrite Em, Ed, Eo in *. unfold unaltered in *. rewrite Es, Ed, Eo in Hun.
  split; [done|]. split; [exists w, e0; rewrite Et; auto|]. do 3 (split; [done|]). cbn.
  intros H0. destruct (outcome_of_bounds f0 res H0). lia.
Qed.

Lemma told_accounted es ls (e : engine) key x o :
  accounts es ls e → (x, o) ∈ omap (told key) ls →
  active (Entry.before x) = true ∧ ∃ o', accounted es key x o' ∧ token_of o' = token_of o.
Proof.
  intros H (l & Hl & Hx)%list_elem_of_omap.
  destruct l as [k f|k r f st data len ok|k r st ok|k token res]; try done; cbn in Hx;
    (case_decide as Hk; [subst k|done]); injection Hx as <- <-.
  - destruct (applied_delivered _ _ _ _ _ _ _ _ _ _ H Hl) as (Ha & f0 & res & _ & Hk & Hd).
    split; [done|]. exists (Some f0). split; [by exists res|]. cbn. by rewrite (proj1 Hk).
  - destruct (tr_answered _ _ (ac_traced _ _ _ H) _ _ _ _ Hl) as (Ha & t & Et & Hst).
    split; [done|]. exists None. split; [|done]. do 2 (split; [done|]). by exists t.
Qed.

Lemma all_accounted es ls (e : engine) key (ps : list (Entry.t R * option InFlight.t)) :
  accounts es ls e → (∀ p, p ∈ ps → p ∈ omap (told key) ls) →
  ∃ fs, Forall2 (accounted es key) ps.*1 fs ∧
    omap (λ o, token_of o) fs = omap (λ p, token_of p.2) ps.
Proof.
  intros H Hin. induction ps as [|[x o] ps IH]; [by exists []|].
  destruct IH as (fs & Hfs & Efs); [intros p Hp; apply Hin; by right|].
  destruct (told_accounted es ls e key x o H) as (_ & o' & Ho & Eo); [apply Hin; by left|].
  exists (o' :: fs). split; [by constructor|]. cbn. by rewrite Eo, Efs.
Qed.

Lemma applied_told key (ls : list (label (Recorded.t R))) :
  applied key ls = omap (λ p, token_of p.2) (omap (told key) ls).
Proof.
  unfold applied. induction ls as [|l ls IH]; [done|]. cbn. rewrite IH.
  destruct l as [k f|k r f st data len ok|k r st ok|k token res]; try done; cbn; by case_decide.
Qed.

Lemma suffix_fmap_inv {A B} (f : A → B) l k :
  l `suffix_of` f <$> k → ∃ k1 k2, k = k1 ++ k2 ∧ l = f <$> k2.
Proof.
  intros [l1 E]. exists (take (length l1) k), (drop (length l1) k).
  split; [by rewrite take_drop|]. rewrite fmap_drop, E, drop_app_length. done.
Qed.


(** C13: In every run of the engine's code results are delivered in the order the URBs were submitted, each at
    most once: the completions of a ring can be given the URBs whose results they deliver, so that the tokens
    of these, and then of the URBs in flight, strictly increase (for the first 2^64 URBs, which is when
    tokens are taken again). *)
Theorem replies_applied_in_order s0 es (e : engine) key ep :
  runs s0 es e → Engine.endpoints e !! key = Some ep →
  ∃ fs, Forall2 (accounted es key) (log_of ep) fs ∧
    (Z.of_nat (length (Engine.waiters e)) ≤ 2 ^ 64 →
     StronglySorted Z.lt (omap (λ o, token_of o) fs ++ tokens key e)).
Proof.
  intros (ls & _ & H)%runs_accounts He.
  destruct (suffix_fmap_inv _ _ _ (ac_log _ _ _ H _ _ He)) as (p1 & p2 & Ep & ->).
  destruct (all_accounted es ls e key p2 H) as (fs & Hfs & Efs); [intros p Hp; rewrite Ep; set_solver|].
  exists fs. split; [done|]. intros Hle.
  pose proof (tr_history _ _ (ac_traced _ _ _ H) key Hle) as Hs. unfold history in Hs.
  rewrite (assoc_L (++)) in Hs. apply StronglySorted_app_1_l in Hs.
  eapply sublist_StronglySorted; [|exact Hs]. apply sublist_app; [|done].
  rewrite Efs, applied_told, Ep, omap_app. by apply sublist_inserts_l.
Qed.

End Completions.

(** ** What becomes of the requests *)

(** Any session, with the requests it accepted written down: their channels, numbers and contents. *)
Module Accepting.
Section Accepting.
Context {S : Type} {SO : SessionOps S}.

#[global] Instance ops : SessionOps (S * list issue) := {
  session_submit req s :=
    '(x, s') ← session_submit req s.1;
    Done (x, (s', match x with Ok (seqnum, c) => s.2 ++ [(c, seqnum, req)] | Err _ => s.2 end));
  session_unlink n s := s' ← session_unlink n s.1; Done (s', s.2);
  session_speed s := session_speed s.1;
}.

Lemma submit_inv req s x s' : session_submit req s = Done (x, s') →
  ∃ s1, session_submit req s.1 = Done (x, s1) ∧
    s' = (s1, match x with Ok (seqnum, c) => s.2 ++ [(c, seqnum, req)] | Err _ => s.2 end).
Proof.
  cbn. destruct (session_submit req s.1) as [[y s1]| |]; cbn; try done. intros [= -> <-]. by exists s1.
Qed.

Lemma unlink_inv n s s' : session_unlink n s = Done s' →
  ∃ s1, session_unlink n s.1 = Done s1 ∧ s' = (s1, s.2).
Proof. cbn. destruct (session_unlink n s.1) as [s1| |]; cbn; try done. intros [= <-]. by exists s1. Qed.

(** Other tasks' requests are not the engine's. *)
#[global] Program Instance trace {ST : SessionTrace S} : SessionTrace (S * list issue) := {
  env s s' := env s.1 s'.1 ∧ s'.2 = s.2;
  asked s := asked s.1;
}.
Next Obligation. intros ST req s x s' (s1 & H & ->)%submit_inv. by eapply submit_asked. Qed.
Next Obligation. intros ST n s s' (s1 & H & ->)%unlink_inv. by eapply unlink_asked. Qed.
Next Obligation. intros ST s s' [H _]. by eapply env_asked. Qed.

End Accepting.
End Accepting.

Section Requests.
Context {R : Type} {RG : Ring R} {S : Type} {SO : SessionOps S} {ST : SessionTrace S}.

Notation session := (S * list issue)%type.
Notation engine := (Engine.t session (Recorded.t R)).

(** The request was the reset of the device. *)
Definition resets (es : list (event R session)) (c : chan) (n : Z) : Prop :=
  ∃ e0 s, DeviceReset e0 ∈ es ∧ session_submit reset_request (Engine.session e0) = Done (Ok (n, c), s).

(** Every accepted request is a reset's, or put a URB in flight for which a task was spawned. *)
Definition booked (es : list (event R session)) (ls : list (label (Recorded.t R))) (e : engine) : Prop :=
  ∀ c n req, (c, n, req) ∈ (Engine.session e).2 →
    resets es c n ∨
    ∃ key f, Submitted key f ∈ ls ∧ InFlight.seqnum f = n ∧
      mk_waiter key (InFlight.token f) c ∈ Engine.waiters e.

Lemma unlinks_accepted (s s' : session) : unlinks s s' → s'.2 = s.2.
Proof. induction 1 as [s|s1 s2 s3 [n (s' & _ & ->)%Accepting.unlink_inv] _ IH]; [done|]. by rewrite IH. Qed.

Lemma booked_same es es2 ls ls2 (e e' : engine) :
  (Engine.session e').2 = (Engine.session e).2 → Engine.waiters e' = Engine.waiters e →
  booked es ls e → booked (es ++ es2) (ls ++ ls2) e'.
Proof.
  intros Es Ew H c n req. rewrite Es, Ew. intros [(e0 & s & ? & ?)|(key & f & ? & ?)]%H.
  - left. exists e0, s. set_solver.
  - right. exists key, f. set_solver.
Qed.

Lemma booked_pstep es ls key ls2 (e e' : engine) :
  pstep key ls2 e e' → booked es ls e → booked es (ls ++ ls2) e'.
Proof.
  intros Hs H. rewrite <- (app_nil_r es).
  destruct Hs as [e ep front rest s _ _ _ _ Hu| | |e ep message req stage seqnum c s _ _ _ Hs
    |e ep message req stage err s ok ep' _ _ _ _ Hs _ _|e ep message req stage err s _ _ _ _ Hs].
  2,3: by apply (booked_same es [] ls _ e).
  - apply (booked_same es [] ls _ e); [|done..]. cbn. by eapply unlinks_accepted, unlink_flights_unlinks.
  - apply Accepting.submit_inv in Hs as (s1 & _ & ->). intros c' n' req'. cbn.
    intros [Hin|Hin%list_elem_of_singleton]%elem_of_app.
    + destruct (H _ _ _ Hin) as [(e0 & s & ? & ?)|(key' & f & ? & ?)]; [left; exists e0, s; set_solver|].
      right. exists key', f. set_solver.
    + injection Hin as -> -> ->. right. eexists key, _. split; [apply elem_of_app; right; by left|].
      split; [done|]. cbn. set_solver.
  - apply Accepting.submit_inv in Hs as (s1 & _ & ->). by apply (booked_same es [] ls _ e).
  - apply Accepting.submit_inv in Hs as (s1 & _ & ->). by apply (booked_same es [] ls _ e).
Qed.

Lemma booked_psteps es ls key ls2 (e e' : engine) :
  psteps key ls2 e e' → booked es ls e → booked es (ls ++ ls2) e'.
Proof.
  intros H. revert ls. induction H as [|ls1 ls2 e1 e2 e3 H _ IH]; intros ls Hl; [by rewrite app_nil_r|].
  rewrite (assoc_L (++)). by eapply IH, booked_pstep.
Qed.

Lemma booked_explains es es2 ls ls2 (e e' : engine) :
  explains es2 ls2 e e' → booked es ls e → booked (es ++ es2) (ls ++ ls2) e'.
Proof.
  intros Hx H. destruct Hx as [es2 e e' _ Hsh _ Ha|key ls2 e e' Hp|w res ls2 e e1 e' Hw Ha Hp|w res e Hw].
  - destruct Ha as [Hu|[[_ E]|[Hr (x & Hs)]]].
    + apply booked_same with e; [by apply unlinks_accepted|by apply Hsh|done].
    + apply booked_same with e; [done|by apply Hsh|done].
    + pose proof Hs as Hs'. apply Accepting.submit_inv in Hs as (s1 & _ & Es).
      destruct x as [[m d]|err]; [|apply booked_same with e; [by rewrite Es|by apply Hsh|done]].
      intros c n req. rewrite Es. cbn. intros [Hin|Hin%list_elem_of_singleton]%elem_of_app.
      * rewrite (shrinks_waiters _ _ Hsh).
        destruct (H _ _ _ Hin) as [(e0 & s & ? & ?)|(key & f & ? & ?)]; [left; exists e0, s; set_solver|].
        right. exists key, f. set_solver.
      * injection Hin as -> -> ->. left. exists e, (Engine.session e'). set_solver.
  - rewrite app_nil_r. by eapply booked_psteps.
  - rewrite (cons_middle (Finished _ _ _)), (assoc_L (++)). eapply booked_psteps; [exact Hp|].
    destruct Ha as [e ep before f after status s _ _ _ _ _ _ Hu|];
      [apply booked_same with e; [|done..]|by apply booked_same with e].
    cbn. by eapply unlinks_accepted, unlink_flights_unlinks.
  - by apply booked_same with e.
Qed.

Lemma runs_booked s0 es (e : engine) :
  s0.2 = [] → runs s0 es e → ∃ ls, accounts es ls e ∧ booked es ls e.
Proof.
  intros H0. induction 1 as [|es1 es2 e1 e2 _ (ls & Ha & Hb) Hs].
  - exists []. split; [apply accounts_new|]. intros c n req. cbn. rewrite H0. by intros ?%elem_of_nil.
  - destruct (cstep_explained _ _ _ Hs) as (ls2 & Hs2 & Hx). exists (ls ++ ls2).
    split; [by eapply accounts_explains|by eapply booked_explains].
Qed.

(** C14: No request is forgotten, in any run of the engine's code: each one the session ever accepted is the
    reset of the device, or a task waits on its channel for the URB, and then the URB is still in flight
    without a result, or the task's result has come, or the session has been asked to unlink the request.
    And no endpoint ever has more than 32 URBs in flight. *)
Theorem no_urb_forgotten s0 es (e : engine) :
  s0.2 = [] → runs s0 es e →
  (∀ c n req, (c, n, req) ∈ (Engine.session e).2 →
     resets es c n ∨
     ∃ key token, mk_waiter key token c ∈ Engine.waiters e ∧
       ((∃ f, f ∈ flights key e ∧ InFlight.token f = token ∧ InFlight.seqnum f = n ∧
           InFlight.result f = None) ∨
        (∃ w res e0, Arrived w res e0 ∈ es ∧ w_key w = key ∧ w_token w = token) ∨
        n ∈ asked (Engine.session e))) ∧
  ∀ key, (in_flight_count key e ≤ 32)%nat.
Proof.
  intros H0 Hr. destruct (runs_booked _ _ _ H0 Hr) as (ls & H & Hb).
  pose proof (ac_traced _ _ _ H) as Ht. split.
  2: { intros key. pose proof (tr_depth _ _ Ht key) as Hd. unfold flights in Hd. unfold in_flight_count.
       destruct (Engine.endpoints e !! key); [done|lia]. }
  intros c n req [?|(key & f & Hin & <- & Hw)]%Hb; [by left|right].
  exists key, (InFlight.token f). split; [done|].
  assert (∀ res, Finished key (InFlight.token f) res ∈ ls →
    ∃ w res e0, Arrived w res e0 ∈ es ∧ w_key w = key ∧ w_token w = InFlight.token f) as Hfin.
  { intros res (w & e0 & ? & _ & ? & ?)%(ac_finished _ _ _ H). by exists w, res, e0. }
  destruct (tr_kept _ _ Ht key f Hin) as [(g & Hg & Et & Es)|[[res Hres]|?]]; [|right; left|by right; right].
  - destruct (InFlight.result g) as [res|] eqn:Er; [right; left|left; by exists g].
    apply (Hfin res). rewrite <- Et. by apply (tr_finished _ _ Ht).
  - by apply (Hfin res).
Qed.

End Requests.

(** ** A run: two bulk reads in flight, one completes, the other is paused *)

Import Reference.

Module CodeRun.

Notation session := (EngineRun.session * list issue)%type.
Notation engine_state := (Engine.t session (Recorded.t QueueRing.t)).

Definition key : EndpointKey := EngineRun.key.
Definition s0 : session := (EngineRun.s0, []).

Definition get (d : engine_state) (m : outcome engine_state) : engine_state :=
  match m with Done a => a | _ => d end.

Definition task : waiter := mk_waiter key 0 0%nat.

Definition e0 : engine_state := new s0.
Definition e1 : engine_state := get e0 (add_endpoint key EngineRun.info (Recorded.mk EngineRun.ring0 []) e0).
Definition e2 : engine_state := get e1 (doorbell 2 key e1).
Definition e3 : engine_state := get e2 (finish 2 key 0 (Ok EngineRun.ret) e2).
Definition e4 : engine_state := get e3 (pause_endpoint key e3).

Definition events : list (event QueueRing.t session) := [Arrived task (Ok EngineRun.ret) e2].

Definition entry : Entry.t QueueRing.t := Entry.mk EngineRun.ring0 Status.Success [9; 8; 7] 3 true.

Definition ep4 : Endpoint.t (Recorded.t QueueRing.t) :=
  default (Endpoint.mk (Recorded.mk EngineRun.ring0 []) EngineRun.info [] None None)
    (Engine.endpoints e4 !! key).

Lemma runs_e4 : runs s0 events e4.
Proof.
  change events with (((([] ++ []) ++ []) ++ events) ++ []).
  eapply runs_step; [eapply runs_step; [eapply runs_step; [eapply runs_step; [apply runs_new|]|]|]|].
  - apply (c_add key EngineRun.info EngineRun.ring0 e0 e1). vm_compute. reflexivity.
  - apply (c_doorbell 2 key e1 e2). vm_compute. reflexivity.
  - apply (c_finish 2 task (Ok EngineRun.ret) e2 e3); vm_compute; [left|reflexivity].
  - apply (c_pause key e3 e4). vm_compute. reflexivity.
Qed.

Lemma endpoint_e4 : Engine.endpoints e4 !! key = Some ep4.
Proof. vm_compute. reflexivity. Qed.

Lemma log_e4 : Recorded.log (Endpoint.ring ep4) = [entry].
Proof. vm_compute. reflexivity. Qed.

End CodeRun.


Lemma replies_applied_in_order_witness :
  ∃ fs, Forall2 (accounted CodeRun.events CodeRun.key) [CodeRun.entry] fs ∧
    StronglySorted Z.lt (omap (λ o, InFlight.token <$> o) fs ++ [1]).
Proof.
  destruct (replies_applied_in_order CodeRun.s0 CodeRun.events CodeRun.e4 CodeRun.key CodeRun.ep4
    CodeRun.runs_e4 CodeRun.endpoint_e4) as (fs & Hfs & Hs).
  rewrite CodeRun.log_e4 in Hfs. exists fs. split; [exact Hfs|].
  assert (tokens CodeRun.key CodeRun.e4 = [1]) as E by (vm_compute; reflexivity).
  rewrite E in Hs. apply Hs. vm_compute. discriminate.
Defined.

Lemma no_urb_forgotten_witness :
  ∃ key token, mk_waiter key token 1%nat ∈ Engine.waiters CodeRun.e4 ∧
    ((∃ f, f ∈ flights key CodeRun.e4 ∧ InFlight.token f = token ∧ InFlight.seqnum f = 2 ∧
        InFlight.result f = None) ∨
     (∃ w res e0, Arrived w res e0 ∈ CodeRun.events ∧ w_key w = key ∧ w_token w = token) ∨
     2 ∈ asked (Engine.session CodeRun.e4)).
Proof.
  destruct (no_urb_forgotten CodeRun.s0 CodeRun.events CodeRun.e4 eq_refl CodeRun.runs_e4) as [H _].
  destruct (H 1%nat 2 EngineRun.req) as [(e0 & s & Hin & _)|Hx].
  - assert ((Engine.session CodeRun.e4).2 = [(0%nat, 1, EngineRun.req); (1%nat, 2, EngineRun.req)]) as E
      by (vm_compute; reflexivity).
    rewrite E. right. left.
  - exfalso. apply list_elem_of_singleton in Hin. discriminate Hin.
  - exact Hx.
Defined.
