(* ===== verification/Host.v ===== *)
(** * Host: the driver of the virtual host controller (src/src/host.rs)

    Apple's IOUSBHost framework is class parameters: [EndpointMachine], the state machine of one
    endpoint with its ring memory; [Framework], what the handlers call; [HostInterface], the interface
    object and its root port; and [Sdk], constants.  [IoRing] is the driver's implementation of the
    engine's [Ring] trait.  [Controller] is the code's [Shared]: the state the command and doorbell
    handlers work on, with the engine behind [EngineOps].  [Driver] is the code's [Controller]: that
    state, created, connected to the root port, updated with frames, and destroyed. *)

From stdpp Require Import base tactics option list gmap fin_maps.
From S2P Require Import Prelude Protocol Hci Session Engine.

(** The values of IOUSBHostCIMessageStatus and IOUSBHostCIDeviceSpeed the driver uses. *)
Module CiStatus.

Inductive t : Type :=
| Success | Offline | Timeout | EndpointStopped | ProtocolError | TransactionError | OverrunError
| StallError | Error | NoResources.

#[global] Instance eq_dec : EqDecision t.
Proof. solve_decision. Defined.

End CiStatus.

Definition ci_status (status : Status.t) : CiStatus.t :=
  match status with
  | Status.Success => CiStatus.Success
  | Status.Offline => CiStatus.Offline
  | Status.Timeout => CiStatus.Timeout
  | Status.EndpointStopped => CiStatus.EndpointStopped
  | Status.ProtocolError => CiStatus.ProtocolError
  | Status.TransactionError => CiStatus.TransactionError
  | Status.OverrunError => CiStatus.OverrunError
  | Status.StallError => CiStatus.StallError
  | Status.Error => CiStatus.Error
  end.

Module CiSpeed.

Inductive t : Type := Low | Full | High | Super | SuperPlus.

#[global] Instance eq_dec : EqDecision t.
Proof. solve_decision. Defined.

End CiSpeed.

Definition ci_speed (speed : Speed.t) : CiSpeed.t :=
  match speed with
  | Speed.Low => CiSpeed.Low
  | Speed.Full | Speed.Unknown => CiSpeed.Full
  | Speed.High | Speed.Wireless => CiSpeed.High
  | Speed.Super => CiSpeed.Super
  | Speed.SuperPlus => CiSpeed.SuperPlus
  end.

(** ** The ring of an endpoint state machine *)

(** [load] and [bytes_at] read memory the host has mapped, [write_bytes] is [copy_nonoverlapping]. *)
Class EndpointMachine (E : Type) := {
  is_active : E → bool;
  current_transfer_message : E → Z;
  load : Z → E → RawMessage.t;
  bytes_at : Z → nat → E → list Z;
  write_bytes : Z → list Z → E → E;
  enqueue_completion : Z → CiStatus.t → Z → E → bool * E;
}.

Module IoRing.
Section IoRing.
Context {E : Type} {EM : EndpointMachine E}.

(** [size_of::<IOUSBHostCIMessage>()] *)
Definition MESSAGE_SIZE : Z := 16.

(** The loop of [message_at], which runs at most [fuel] times. *)
Fixpoint walk (fuel : nat) (ptr : Z) (remaining : nat) (e : E) : option Z :=
  match fuel with
  | O => None
  | S fuel =>
    let msg := load ptr e in
    if negb (RawMessage.is_valid msg) then None
    else if RawMessage.message_type msg =? message_type.LINK then
      if RawMessage.data1 msg =? 0 then None else walk fuel (RawMessage.data1 msg) remaining e
    else
      match remaining with
      | O => Some ptr
      | S remaining => walk fuel (ptr + MESSAGE_SIZE) remaining e
      end
  end.

Definition message_at (ahead : nat) (e : E) : option Z :=
  walk ((ahead + 1) * 4) (current_transfer_message e) ahead e.

Definition current (e : E) : Z * option Transfer.t :=
  let ptr := current_transfer_message e in (ptr, Transfer.decode (load ptr e)).

Definition peek (ahead : nat) (e : E) : option (Z * Transfer.t) :=
  ptr ← message_at ahead e;
  transfer ← Transfer.decode (load ptr e);
  Some (ptr, transfer).

Definition read (ahead : nat) (length : nat) (e : E) : list Z :=
  match message_at ahead e with
  | None => []
  | Some ptr =>
    let msg := load ptr e in
    let length := Nat.min length (Z.to_nat (RawMessage.transfer_length msg)) in
    if (length =? 0)%nat then [] else bytes_at (RawMessage.buffer msg) length e
  end.

Definition complete (status : Status.t) (data : list Z) (len : Z) (e : E) : bool * E :=
  let ptr := current_transfer_message e in
  let msg := load ptr e in
  let n := Nat.min (length data) (Z.to_nat (RawMessage.transfer_length msg)) in
  let e := if (0 <? n)%nat then write_bytes (RawMessage.buffer msg) (take n data) e else e in
  enqueue_completion ptr (ci_status status) (Z.min len (RawMessage.transfer_length msg)) e.

#[global] Instance ring : Ring E := {
  Engine.active := is_active;
  Engine.current := current;
  Engine.peek := peek;
  Engine.read := read;
  Engine.ring_complete := complete;
}.

End IoRing.
End IoRing.

(** ** The framework *)

(** A reference to a framework object. *)
Notation handle := Z (only parsing).

Inductive machine : Type :=
| ControllerMachine
| PortMachine (h : handle)
| DeviceMachine (h : handle)
| EndpointMachineOf (h : handle).

(** Every call may fail ([false], [None]) and may change the framework's state. *)
Class Framework (M : Type) := {
  inspect_command : machine → RawMessage.t → M → bool * M;
  respond : machine → RawMessage.t → CiStatus.t → M → bool * M;
  respond_frame : RawMessage.t → CiStatus.t → Z → Z → M → bool * M;
  respond_address : handle → RawMessage.t → CiStatus.t → Z → M → bool * M;
  controller_active : M → bool;
  enqueue_updated_frame : Z → Z → M → bool * M;
  port_for_command : RawMessage.t → M → option handle;
  update_link_state : handle → CiSpeed.t → M → bool * M;
  init_device : RawMessage.t → M → option handle * M;
  init_endpoint : RawMessage.t → M → option handle * M;
  endpoint_key : handle → M → EndpointKey;
  process_doorbell : handle → Z → M → bool * M;
  mach_absolute_time : M → Z * M;
  memory : Z → nat → M → list Z;
}.

(** What the driver uses of the engine; an [IoRing] is named by its endpoint's state machine. *)
Class EngineOps (G : Type) := {
  engine_reset_device : G → outcome (result TransferError () * G);
  engine_add_endpoint : EndpointKey → EndpointInfo.t → handle → G → outcome G;
  engine_update_endpoint : EndpointKey → EndpointInfo.t → G → outcome G;
  engine_remove_endpoint : EndpointKey → G → outcome G;
  engine_remove_device : Z → G → outcome G;
  engine_reset_endpoint : EndpointKey → G → outcome G;
  engine_pause_endpoint : EndpointKey → G → outcome G;
  engine_sync_endpoint : EndpointKey → G → outcome G;
  engine_doorbell : EndpointKey → G → outcome G;
}.

(** ** The frame clock *)

Module FrameClock.

Record t : Type := mk { epoch : Z; numer : Z; denom : Z; last : option Z }.

(** Division in [u128], which panics when the divisor is 0. *)
Definition div_u128 (a b : Z) : outcome Z := if b =? 0 then Panic else Done (a / b).

(** The subtraction and the sum are [u64]; the products fit [u128]. *)
Definition frame_at (ticks : Z) (c : t) : outcome Z :=
  q ← div_u128 (wrap 64 (ticks - epoch c) * numer c) (denom c * 1000000);
  Done (wrap 64 q).

Definition start_of (frame : Z) (c : t) : outcome Z :=
  q ← div_u128 (frame * denom c * 1000000) (numer c);
  Done (wrap 64 (epoch c + wrap 64 q)).

Definition not_later (frame : Z) (last : option Z) : bool :=
  match last with Some l => frame <=? l | None => false end.

Section Clock.
Context {M : Type} {FW : Framework M}.

(** [while last.is_some_and(|l| frame <= l) { sleep; ... }]: [fuel] readings of the clock. *)
Fixpoint wait (fuel : nat) (frame : Z) (c : t) (m : M) : outcome (Z * M) :=
  if not_later frame (last c) then
    match fuel with
    | O => OutOfFuel
    | S fuel =>
      let '(ticks, m) := mach_absolute_time m in
      frame ← frame_at ticks c;
      wait fuel frame c m
    end
  else Done (frame, m).

(** The frame, the time it began, and the clock that remembers it. *)
Definition next (fuel : nat) (c : t) (m : M) : outcome (Z * Z * t * M) :=
  let '(ticks, m) := mach_absolute_time m in
  frame ← frame_at ticks c;
  '(frame, m) ← wait fuel frame c m;
  let c := mk (epoch c) (numer c) (denom c) (Some frame) in
  time ← start_of frame c;
  Done (frame, time, c, m).

End Clock.

End FrameClock.

(** ** The controller *)

(** The texts of a failed command, by what they are formatted from. *)
Inductive command_error : Type :=
| Rejected
| FrameworkError
| OutOfAddresses
| UnknownDevice (address : Z)
| UnknownEndpoint (key : EndpointKey).

Module Controller.

(** [Shared], and the framework's state. *)
Record t (G M : Type) : Type := mk {
  engine : G;
  speed : CiSpeed.t;
  clock : FrameClock.t;
  devices : gmap Z handle;
  endpoints : gmap EndpointKey handle;
  addresses : AddressPool.t;
  powered : bool;
  enumerated : bool;
  framework : M;
}.
#[global] Arguments mk {G M} engine speed clock devices endpoints addresses powered enumerated framework.
#[global] Arguments engine {G M} t.
#[global] Arguments speed {G M} t.
#[global] Arguments clock {G M} t.
#[global] Arguments devices {G M} t.
#[global] Arguments endpoints {G M} t.
#[global] Arguments addresses {G M} t.
#[global] Arguments powered {G M} t.
#[global] Arguments enumerated {G M} t.
#[global] Arguments framework {G M} t.

Section Setters.
Context {G M : Type}.

Definition set_engine (g : G) (h : t G M) : t G M :=
  mk g (speed h) (clock h) (devices h) (endpoints h) (addresses h) (powered h) (enumerated h) (framework h).
Definition set_clock (c : FrameClock.t) (h : t G M) : t G M :=
  mk (engine h) (speed h) c (devices h) (endpoints h) (addresses h) (powered h) (enumerated h) (framework h).
Definition set_devices (d : gmap Z handle) (h : t G M) : t G M :=
  mk (engine h) (speed h) (clock h) d (endpoints h) (addresses h) (powered h) (enumerated h) (framework h).
Definition set_endpoints (e : gmap EndpointKey handle) (h : t G M) : t G M :=
  mk (engine h) (speed h) (clock h) (devices h) e (addresses h) (powered h) (enumerated h) (framework h).
Definition set_addresses (a : AddressPool.t) (h : t G M) : t G M :=
  mk (engine h) (speed h) (clock h) (devices h) (endpoints h) a (powered h) (enumerated h) (framework h).
Definition set_powered (b : bool) (h : t G M) : t G M :=
  mk (engine h) (speed h) (clock h) (devices h) (endpoints h) (addresses h) b (enumerated h) (framework h).
Definition set_enumerated (b : bool) (h : t G M) : t G M :=
  mk (engine h) (speed h) (clock h) (devices h) (endpoints h) (addresses h) (powered h) b (framework h).
Definition set_framework (m : M) (h : t G M) : t G M :=
  mk (engine h) (speed h) (clock h) (devices h) (endpoints h) (addresses h) (powered h) (enumerated h) m.

End Setters.

Section Handlers.
Context {M : Type} {FW : Framework M} {G : Type} {EO : EngineOps G}.

Notation controller := (t G M).
Notation CommandResult := (result command_error ()).

(** [new], before the interface exists. *)
Definition start (engine : G) (speed : Speed.t) (clock : FrameClock.t) (m : M) : controller :=
  mk engine (ci_speed speed) clock ∅ ∅ AddressPool.default false false m.

(** A framework call. *)
Definition call {A} (f : M → A * M) (h : controller) : A * controller :=
  let '(x, m) := f (framework h) in (x, set_framework m h).

(** An engine call. *)
Definition engine_call (f : G → outcome G) (h : controller) : outcome controller :=
  g ← f (engine h); Done (set_engine g h).

(** [respond(..).map_err(describe)?] *)
Definition ns (ok : bool) : CommandResult := if ok then Ok tt else Err FrameworkError.

Definition answer (inspect : controller → bool * controller)
    (respond : CiStatus.t → controller → bool * controller)
    (act : controller → outcome (CommandResult * controller)) (h : controller) :
    outcome (CommandResult * controller) :=
  let '(inspected, h) := inspect h in
  if negb inspected then
    let '(_, h) := respond CiStatus.Error h in Done (Err Rejected, h)
  else
    '(result, h) ← act h;
    let status := if is_ok result then CiStatus.Success else CiStatus.Error in
    let '(responded, h) := respond status h in
    Done (if responded then result else Err FrameworkError, h).

Definition nothing (h : controller) : outcome (CommandResult * controller) := Done (Ok tt, h).

(** How often the frame clock is read while it waits for a new frame. *)
Context (clock_fuel : nat).

(** [self.clock.next()] *)
Definition clock_next (h : controller) : outcome (Z * Z * controller) :=
  '(frame, time, c, m) ← FrameClock.next clock_fuel (clock h) (framework h);
  Done (frame, time, set_framework m (set_clock c h)).

(** One turn of the loop of [spawn_frame_updates]. *)
Definition frame_update (h : controller) : outcome controller :=
  if negb (controller_active (framework h)) then Done h
  else
    '(frame, time, h) ← clock_next h;
    Done (call (enqueue_updated_frame frame time) h).2.

(** Reads of the kernel's memory go through [memory]. *)
Definition endpoint_descriptor (msg : RawMessage.t) (m : M) : outcome EndpointInfo.t :=
  if RawMessage.data1 msg =? 0 then Done EndpointInfo.CONTROL
  else
    let head := memory (RawMessage.data1 msg) 4 m in
    let len := if at_ head 1 =? 2
               then Z.to_nat (Z.min (Z.max (le_to_Z [at_ head 2; at_ head 3]) 4) 512) else 7%nat in
    info ← EndpointInfo.parse (memory (RawMessage.data1 msg) len m);
    Done (default EndpointInfo.CONTROL info).

(** The arms of [command]. *)
Definition controller_command (msg : RawMessage.t) (h : controller) :
    outcome (CommandResult * controller) :=
  answer (call (inspect_command ControllerMachine msg))
    (λ s, call (respond ControllerMachine msg s)) nothing h.

Definition frame_number_command (msg : RawMessage.t) (h : controller) :
    outcome (CommandResult * controller) :=
  '(frame, now, h) ← clock_next h;
  answer (call (inspect_command ControllerMachine msg))
    (λ s, call (respond_frame msg s frame now)) nothing h.

Definition reset_port (port : handle) (h : controller) : outcome (CommandResult * controller) :=
  h ← (if enumerated h then '(_, g) ← engine_reset_device (engine h); Done (set_engine g h) else Done h);
  let '(ok, h) := call (update_link_state port (speed h)) h in
  Done (ns ok, h).

Definition port_command (kind : Z) (msg : RawMessage.t) (h : controller) :
    outcome (CommandResult * controller) :=
  match port_for_command msg (framework h) with
  | None => Done (Err FrameworkError, h)
  | Some port =>
    '(result, h) ← answer (call (inspect_command (PortMachine port) msg))
                     (λ s, call (respond (PortMachine port) msg s))
                     (if kind =? message_type.PORT_RESET then reset_port port else nothing) h;
    Done (result, if is_ok result && (kind =? message_type.PORT_POWER_ON) then set_powered true h else h)
  end.

Definition device_create (msg : RawMessage.t) (h : controller) : outcome (CommandResult * controller) :=
  let '(sm, h) := call (init_device msg) h in
  match sm with
  | None => Done (Err FrameworkError, h)
  | Some sm =>
    match AddressPool.allocate (addresses h) with
    | None =>
      let '(_, h) := call (respond (DeviceMachine sm) msg CiStatus.NoResources) h in
      Done (Err OutOfAddresses, h)
    | Some (address, pool) =>
      let h := set_addresses pool h in
      let '(ok, h) := call (respond_address sm msg CiStatus.Success address) h in
      if negb ok then
        Done (Err FrameworkError, set_addresses (AddressPool.release (addresses h) address) h)
      else
        Done (Ok tt, set_devices (<[address := sm]> (devices h)) (set_enumerated true h))
    end
  end.

Definition device_destroy (address : Z) (h : controller) : outcome controller :=
  h ← engine_call (engine_remove_device address) h;
  let h := set_endpoints (filter (λ e, e.1.1 ≠ address) (endpoints h)) h in
  let h := set_devices (delete address (devices h)) h in
  Done (set_addresses (AddressPool.release (addresses h) address) h).

Fixpoint pause_keys (keys : list EndpointKey) (h : controller) : outcome controller :=
  match keys with
  | [] => Done h
  | key :: keys => h ← engine_call (engine_pause_endpoint key) h; pause_keys keys h
  end.

(** The keys are visited in the map's order, which Rust leaves unspecified. *)
Definition device_pause (address : Z) (h : controller) : outcome controller :=
  pause_keys (base.filter (λ k, k.1 = address) ((map_to_list (endpoints h)).*1)) h.

(** [match kind { ... } Ok(())] *)
Definition act_ok (f : controller → outcome controller) (h : controller) :
    outcome (CommandResult * controller) := h ← f h; Done (Ok tt, h).

Definition device_command (kind : Z) (msg : RawMessage.t) (h : controller) :
    outcome (CommandResult * controller) :=
  let address := RawMessage.device_address msg in
  match devices h !! address with
  | None => Done (Err (UnknownDevice address), h)
  | Some sm =>
    answer (call (inspect_command (DeviceMachine sm) msg)) (λ s, call (respond (DeviceMachine sm) msg s))
      (act_ok (if kind =? message_type.DEVICE_DESTROY then device_destroy address
               else if kind =? message_type.DEVICE_PAUSE then device_pause address
               else Done)) h
  end.

Definition endpoint_create (msg : RawMessage.t) (h : controller) : outcome (CommandResult * controller) :=
  let '(sm, h) := call (init_endpoint msg) h in
  match sm with
  | None => Done (Err FrameworkError, h)
  | Some sm =>
    let '(ok, h) := call (respond (EndpointMachineOf sm) msg CiStatus.Success) h in
    if negb ok then Done (Err FrameworkError, h)
    else
      let key := endpoint_key sm (framework h) in
      let key := (wrap 8 key.1, wrap 8 key.2) in
      info ← endpoint_descriptor msg (framework h);
      let h := set_endpoints (<[key := sm]> (endpoints h)) h in
      h ← engine_call (engine_add_endpoint key info sm) h;
      Done (Ok tt, h)
  end.

Definition endpoint_act (kind : Z) (key : EndpointKey) (msg : RawMessage.t) (h : controller) :
    outcome controller :=
  if kind =? message_type.ENDPOINT_DESTROY then
    h ← engine_call (engine_remove_endpoint key) h;
    Done (set_endpoints (delete key (endpoints h)) h)
  else if kind =? message_type.ENDPOINT_PAUSE then engine_call (engine_pause_endpoint key) h
  else if kind =? message_type.ENDPOINT_UPDATE then
    info ← endpoint_descriptor msg (framework h);
    engine_call (engine_update_endpoint key info) h
  else if kind =? message_type.ENDPOINT_RESET then engine_call (engine_reset_endpoint key) h
  else Done h.

Definition endpoint_command (kind : Z) (msg : RawMessage.t) (h : controller) :
    outcome (CommandResult * controller) :=
  let key := (RawMessage.device_address msg, RawMessage.endpoint_address msg) in
  match endpoints h !! key with
  | None => Done (Err (UnknownEndpoint key), h)
  | Some sm =>
    '(result, h) ← answer (call (inspect_command (EndpointMachineOf sm) msg))
                     (λ s, call (respond (EndpointMachineOf sm) msg s))
                     (act_ok (endpoint_act kind key msg)) h;
    if is_ok result && (kind =? message_type.ENDPOINT_SET_NEXT_TRANSFER) then
      h ← engine_call (engine_sync_endpoint key) h; Done (result, h)
    else Done (result, h)
  end.

Definition between (a b kind : Z) : bool := (a <=? kind) && (kind <=? b).

Definition command (msg : RawMessage.t) (h : controller) : outcome (CommandResult * controller) :=
  let kind := RawMessage.message_type msg in
  if between message_type.CONTROLLER_POWER_ON message_type.CONTROLLER_PAUSE kind then
    controller_command msg h
  else if kind =? message_type.CONTROLLER_FRAME_NUMBER then frame_number_command msg h
  else if between message_type.PORT_POWER_ON message_type.PORT_STATUS kind then port_command kind msg h
  else if kind =? message_type.DEVICE_CREATE then device_create msg h
  else if between message_type.DEVICE_DESTROY message_type.DEVICE_UPDATE kind then
    device_command kind msg h
  else if kind =? message_type.ENDPOINT_CREATE then endpoint_create msg h
  else if between message_type.ENDPOINT_DESTROY message_type.ENDPOINT_SET_NEXT_TRANSFER kind then
    endpoint_command kind msg h
  else nothing h.

Definition doorbell (d : Z) (h : controller) : outcome controller :=
  let '(device, endpoint, _) := decode_doorbell d in
  let key := (device, endpoint) in
  match endpoints h !! key with
  | None => Done h
  | Some sm =>
    let '(ok, h) := call (process_doorbell sm d) h in
    if negb ok then Done h else engine_call (engine_doorbell key) h
  end.

(** The doorbell handler's loop. *)
Fixpoint doorbells (ds : list Z) (h : controller) : outcome controller :=
  match ds with
  | [] => Done h
  | d :: ds => h ← doorbell d h; doorbells ds h
  end.

End Handlers.

End Controller.

(** ** The capabilities the controller is created with *)

(** Constants of Apple's SDK. *)
Class Sdk := {
  CONTROLLER_CAPABILITIES : Z;
  PORT_CAPABILITIES : Z;
  TYPE_PHASE : Z;
  SDK_NO_RESPONSE : Z;
  SDK_VALID : Z;
  PORT_COUNT_PHASE : Z;
  COMMAND_TIMEOUT_THRESHOLD_PHASE : Z;
  CONNECTION_LATENCY_PHASE : Z;
  PORT_NUMBER_PHASE : Z;
  MAX_POWER_PHASE : Z;
}.

Definition COMMAND_TIMEOUT_THRESHOLD : Z := 1.
Definition CONNECTION_LATENCY : Z := 2.
Definition MAX_POWER_MA : Z := 900.
Definition ROOT_PORT : Z := 1.

Section Capabilities.
Context {SDK : Sdk}.

(** [<<] on [u32] *)
Definition shl_u32 (x phase : Z) : Z := wrap 32 (Z.shiftl x phase).

Definition controller_capabilities : RawMessage.t :=
  RawMessage.mk
    (Z.lor (Z.lor (Z.lor (shl_u32 CONTROLLER_CAPABILITIES TYPE_PHASE) SDK_NO_RESPONSE) SDK_VALID)
       (shl_u32 1 PORT_COUNT_PHASE))
    (Z.lor (shl_u32 COMMAND_TIMEOUT_THRESHOLD COMMAND_TIMEOUT_THRESHOLD_PHASE)
       (shl_u32 CONNECTION_LATENCY CONNECTION_LATENCY_PHASE))
    0.

Definition port_capabilities : RawMessage.t :=
  RawMessage.mk
    (Z.lor (Z.lor (Z.lor (shl_u32 PORT_CAPABILITIES TYPE_PHASE) SDK_NO_RESPONSE) SDK_VALID)
       (shl_u32 ROOT_PORT PORT_NUMBER_PHASE))
    (shl_u32 (MAX_POWER_MA / 8) MAX_POWER_PHASE)
    0.

(** A message in memory: [repr(C)], on little-endian machines. *)
Definition message_bytes (msg : RawMessage.t) : list Z :=
  le_bytes 4 (RawMessage.control msg) ++ le_bytes 4 (RawMessage.data0 msg) ++ le_bytes 8 (RawMessage.data1 msg).

Definition capabilities : list Z :=
  concat (message_bytes <$> [controller_capabilities; port_capabilities]).

End Capabilities.

(** ** Creating, connecting and destroying the controller *)

(** The rest of the framework: the time base, the interface object and its root port. *)
Class HostInterface (M : Type) := {
  mach_timebase_info : M → Z * Z;
  init_interface : list Z → M → bool * M;
  root_port_machine : Z → M → option handle;
  set_port_connected : handle → bool → M → M;
  destroy_interface : M → M;
}.

Module Driver.

(** [Controller] of host.rs: the shared state, and whether the frame update task runs. *)
Record t (G M : Type) : Type := mk { shared : Controller.t G M; frames : bool }.
#[global] Arguments mk {G M} shared frames.
#[global] Arguments shared {G M} t.
#[global] Arguments frames {G M} t.

Section Driver.
Context {SDK : Sdk} {M : Type} {FW : Framework M} {IF : HostInterface M} {G : Type} {EO : EngineOps G}.

Definition set_shared (h : Controller.t G M) (d : t G M) : t G M := mk h (frames d).

(** [FrameClock::new] *)
Definition new_clock (m : M) : FrameClock.t * M :=
  let '(numer, denom) := mach_timebase_info m in
  let '(epoch, m) := mach_absolute_time m in
  (FrameClock.mk epoch numer denom None, m).

(** [new]; [engine] is the engine on the session, [speed] its device's.  [None]: no interface. *)
Definition new (engine : G) (speed : Speed.t) (m : M) : option (t G M) :=
  let '(clock, m) := new_clock m in
  let h := Controller.start engine speed clock m in
  let '(created, h) := Controller.call (init_interface capabilities) h in
  if created : bool then Some (mk h true) else None.

(** The command block, whose error is logged; the doorbell block is [Controller.doorbells]. *)
Definition on_command (clock_fuel : nat) (msg : RawMessage.t) (d : t G M) : outcome (t G M) :=
  '(_, h) ← Controller.command clock_fuel msg (shared d); Done (set_shared h d).

(** One turn of the frame update task, which ends with the driver. *)
Definition on_tick (clock_fuel : nat) (d : t G M) : outcome (t G M) :=
  if frames d then h ← Controller.frame_update clock_fuel (shared d); Done (set_shared h d) else Done d.

(** [wait_powered]: [wait_for] looks at the value now and then after every change, without a timeout;
    [changes] is what happens from one look to the next.  [false]: it still waits. *)
Fixpoint wait_powered (changes : list (t G M → t G M)) (d : t G M) : bool * t G M :=
  if Controller.powered (shared d) then (true, d)
  else match changes with
       | [] => (false, d)
       | change :: changes => wait_powered changes (change d)
       end.

(** [with_port(|port| port.setConnected(connected))]: an error is logged. *)
Definition set_connected (connected : bool) (d : t G M) : t G M :=
  let h := shared d in
  match root_port_machine ROOT_PORT (Controller.framework h) with
  | Some port =>
    set_shared (Controller.set_framework (set_port_connected port connected (Controller.framework h)) h) d
  | None => d
  end.

(** [Drop] *)
Definition drop (d : t G M) : t G M :=
  let h := shared d in
  mk (Controller.set_framework (destroy_interface (Controller.framework h)) h) false.

End Driver.
End Driver.
