(* ===== verification/HostFacts.v ===== *)
(** * HostFacts: the driver's ring and clock (src/src/host.rs)

    [IoRing] against the messages the host has laid out in memory, the memory it writes, the
    capability messages, and the frame clock's arithmetic. *)

From stdpp Require Import base tactics option list gmap fin_maps sorting.
From S2P Require Import Prelude Protocol Hci HciFacts Engine Host.

(** ** The walk along a ring *)

Module RingFacts.
Import IoRing.
Section RingFacts.
Context {E : Type} {EM : EndpointMachine E}.

(** From [ptr] on the ring holds the transfer messages at [ptrs], with at most three links before
    each, and then nothing the host has made valid. *)
Inductive chain (e : E) : Z → nat → list Z → Prop :=
| chain_end ptr links :
    RawMessage.is_valid (load ptr e) = false → chain e ptr links []
| chain_link ptr links ptrs :
    RawMessage.is_valid (load ptr e) = true →
    RawMessage.message_type (load ptr e) = message_type.LINK →
    RawMessage.data1 (load ptr e) ≠ 0 →
    chain e (RawMessage.data1 (load ptr e)) links ptrs → chain e ptr (S links) ptrs
| chain_message ptr links ptrs :
    RawMessage.is_valid (load ptr e) = true →
    RawMessage.message_type (load ptr e) ≠ message_type.LINK →
    chain e (ptr + MESSAGE_SIZE) 3 ptrs → chain e ptr links (ptr :: ptrs).

(** With [links] the links still allowed before the next message, this many turns are enough. *)
Lemma walk_chain e ptr links ptrs ahead fuel :
  chain e ptr links ptrs → (links ≤ 3)%nat → (links + ahead * 4 + 1 ≤ fuel)%nat →
  walk fuel ptr ahead e = ptrs !! ahead.
Proof.
  intros H. revert ahead fuel.
  induction H as [ptr links Hv|ptr links ptrs Hv Ht H0 _ IH|ptr links ptrs Hv Ht _ IH];
    intros ahead [|fuel] Hl Hf; try lia; cbn [walk]; rewrite Hv; cbn [negb].
  - done.
  - rewrite Ht, Z.eqb_refl. rewrite (proj2 (Z.eqb_neq _ _)) by done. apply IH; lia.
  - rewrite (proj2 (Z.eqb_neq _ _)) by done. destruct ahead as [|ahead]; [done|].
    cbn [lookup list_lookup]. apply IH; lia.
Qed.

(** The walk ends on valid messages that are no links, whatever the memory holds. *)
Lemma walk_sound fuel ptr ahead e p :
  walk fuel ptr ahead e = Some p →
  RawMessage.is_valid (load p e) = true ∧ RawMessage.message_type (load p e) ≠ message_type.LINK.
Proof.
  revert ptr ahead. induction fuel as [|fuel IH]; intros ptr ahead; cbn [walk]; [done|].
  destruct (RawMessage.is_valid (load ptr e)) eqn:Hv; cbn [negb]; [|done].
  destruct (_ =? message_type.LINK) eqn:Ht; bool_props.
  - destruct (_ =? 0); [done|]. apply IH.
  - destruct ahead; [|apply IH]. by intros [= <-].
Qed.

(** C22: Reading ahead finds exactly the host's messages: on any ring laid out in arrays joined by links (at
    most three in a row), the message [ahead] places behind the head is the [ahead]-th of the host's
    valid messages, and there is none exactly when the host has made no more valid. *)
Theorem message_at_finds e ptrs ahead :
  chain e (current_transfer_message e) 3 ptrs → message_at ahead e = ptrs !! ahead.
Proof. intros H. unfold message_at. eapply walk_chain; [done|done|lia]. Qed.

(** What the engine sees ahead is a valid message of the ring and never a link. *)
Lemma peek_sound ahead e p t :
  peek ahead e = Some (p, t) →
  Transfer.decode (load p e) = Some t ∧ ∀ b, t ≠ Transfer.Link b.
Proof.
  unfold peek, message_at. intros (ptr & Hw & (t' & Ht & [= -> ->])%bind_Some)%bind_Some.
  split; [done|]. intros b ->. apply walk_sound in Hw as [Hv Hl].
  unfold Transfer.decode in Ht. rewrite Hv in Ht. cbn [negb] in Ht. injection Ht as Ht.
  apply Z.eqb_neq in Hl. rewrite Hl in Ht. by repeat case_match.
Qed.

End RingFacts.
End RingFacts.

(** ** The memory a completion writes *)

(** Writing [d] at [ptr] changes those bytes and no others. *)
Class MemoryLaws (E : Type) {EM : EndpointMachine E} := {
  write_inside ptr d e : bytes_at ptr (length d) (write_bytes ptr d e) = d;
  write_outside ptr d a n e : a + Z.of_nat n ≤ ptr ∨ ptr + Z.of_nat (length d) ≤ a →
    bytes_at a n (write_bytes ptr d e) = bytes_at a n e;
}.

Section Memory.
Context {E : Type} {EM : EndpointMachine E} {ML : MemoryLaws E}.

(** C23: Completing a message writes inside the buffer the host gave with it and nowhere else, as much of the
    data as fits, and reports no more bytes than the buffer holds. *)
Theorem complete_in_buffer (status : Status.t) data len (e : E) :
  let msg := load (current_transfer_message e) e in
  let size := RawMessage.transfer_length msg in
  ∃ e1 reported,
    IoRing.complete status data len e =
      enqueue_completion (current_transfer_message e) (ci_status status) reported e1 ∧
    reported ≤ size ∧ reported ≤ len ∧
    (∀ a n, a + Z.of_nat n ≤ RawMessage.buffer msg ∨ RawMessage.buffer msg + size ≤ a →
       bytes_at a n e1 = bytes_at a n e) ∧
    (data ≠ [] → size ≠ 0 →
       let n := Nat.min (length data) (Z.to_nat size) in
       bytes_at (RawMessage.buffer msg) n e1 = take n data).
Proof.
  intros msg size. unfold IoRing.complete. fold msg. fold size.
  assert (0 ≤ size) as H0 by (apply Z.land_nonneg; right; done).
  set (n := Nat.min (length data) (Z.to_nat size)).
  assert (length (take n data) = n) as Hn by (rewrite length_take; lia).
  eexists _, _. split; [done|]. split; [lia|]. split; [lia|].
  destruct (0 <? n)%nat eqn:E0; [apply Nat.ltb_lt in E0|apply Nat.ltb_ge in E0].
  - split.
    + intros a k Hk. apply write_outside. rewrite Hn. unfold n. lia.
    + intros _ _. cbv zeta. pose proof (write_inside (RawMessage.buffer msg) (take n data) e) as H.
      by rewrite Hn in H.
  - split; [done|]. intros Hd Hs. exfalso. clearbody size. destruct data; [done|].
    cbn [length] in n. unfold n in E0. lia.
Qed.

End Memory.

(** ** The capability messages *)

(** What the tests of host.rs check of the SDK's constants, and that the fields of the capability
    messages lie above the flags. *)
Class SdkLaws {SDK : Sdk} := {
  controller_type : is_u 6 CONTROLLER_CAPABILITIES;
  port_type : is_u 6 PORT_CAPABILITIES;
  type_phase : TYPE_PHASE = 0;
  no_response_bit : SDK_NO_RESPONSE = CONTROL_NO_RESPONSE;
  valid_bit : SDK_VALID = CONTROL_VALID;
  port_count_phase : 16 ≤ PORT_COUNT_PHASE < 32;
  port_number_phase : 16 ≤ PORT_NUMBER_PHASE < 32;
}.

Section Capabilities.
Context {SDK : Sdk} {SL : SdkLaws}.

Lemma land_shl_low p mask : 16 ≤ p < 32 → 0 ≤ mask < 2 ^ 16 → Z.land (shl_u32 1 p) mask = 0.
Proof.
  intros Hp Hm. unfold shl_u32. rewrite Z.shiftl_1_l, wrap_id.
  2: { split; [apply Z.pow_nonneg; lia|apply Z.pow_lt_mono_r; lia]. }
  apply Z.bits_inj_0. intros i. rewrite Z.land_spec. apply andb_false_iff.
  destruct (Z.lt_ge_cases i 16) as [Hi|Hi].
  - left. apply Z.pow2_bits_false. lia.
  - right. destruct (Z.eq_dec mask 0) as [->|]; [apply Z.bits_0|].
    apply Z.bits_above_log2; [lia|]. assert (Z.log2 mask < 16) by (apply Z.log2_lt_pow2; lia). lia.
Qed.

Lemma capability_flags type p data :
  is_u 6 type → 16 ≤ p < 32 →
  let msg := RawMessage.mk
    (Z.lor (Z.lor (Z.lor (shl_u32 type TYPE_PHASE) SDK_NO_RESPONSE) SDK_VALID) (shl_u32 1 p)) data 0 in
  RawMessage.is_valid msg = true ∧ RawMessage.needs_response msg = false ∧ RawMessage.message_type msg = type.
Proof.
  intros [Ht1 Ht2] Hp. rewrite type_phase, no_response_bit, valid_bit.
  assert (shl_u32 type 0 = type) as -> by (unfold shl_u32; rewrite Z.shiftl_0_r; apply wrap_id; split; lia).
  unfold RawMessage.is_valid, RawMessage.needs_response, RawMessage.message_type. cbn [RawMessage.control].
  rewrite !Z.land_lor_distr_l, !(land_shl_low p) by (done || (vm_compute; split; congruence)).
  assert (∀ k, 6 ≤ k → Z.land type (Z.shiftl 1 k) = 0) as Hhigh.
  { intros k Hk. rewrite Z.shiftl_1_l. apply Z.bits_inj_0. intros i. rewrite Z.land_spec.
    apply andb_false_iff. destruct (Z.eq_dec k i) as [->|]; [left|right; apply Z.pow2_bits_false; lia].
    destruct (Z.eq_dec type 0) as [->|]; [apply Z.bits_0|]. apply Z.bits_above_log2; [done|].
    assert (Z.log2 type < 6) by (apply Z.log2_lt_pow2; lia). lia. }
  unfold CONTROL_VALID, CONTROL_NO_RESPONSE. rewrite !Hhigh by lia.
  split; [done|]. split; [done|]. change CONTROL_TYPE_MASK with (Z.ones 6).
  rewrite Z.land_ones, Z.mod_small by lia. cbn. by rewrite !Z.lor_0_r.
Qed.

(** The kernel gets two messages, each valid, of its type and asking for no answer. *)
Lemma capabilities_wf :
  length capabilities = 32%nat ∧
  Forall (λ m, RawMessage.is_valid m = true ∧ RawMessage.needs_response m = false)
    [controller_capabilities; port_capabilities] ∧
  RawMessage.message_type controller_capabilities = CONTROLLER_CAPABILITIES ∧
  RawMessage.message_type port_capabilities = PORT_CAPABILITIES.
Proof.
  pose proof (capability_flags CONTROLLER_CAPABILITIES PORT_COUNT_PHASE
    (RawMessage.data0 controller_capabilities) controller_type port_count_phase) as (C1 & C2 & C3).
  pose proof (capability_flags PORT_CAPABILITIES PORT_NUMBER_PHASE
    (RawMessage.data0 port_capabilities) port_type port_number_phase) as (P1 & P2 & P3).
  split; [done|]. split; [repeat (constructor; [done|]); constructor|done].
Qed.

End Capabilities.

(** ** The frame clock *)

Module ClockFacts.
Import FrameClock.

(** The kernel's time base: a tick is no longer than a frame. *)
Record sane (c : t) : Prop := {
  sane_epoch : 0 ≤ epoch c;
  sane_numer : 0 < numer c;
  sane_tick : numer c ≤ denom c * 1000000;
}.

Lemma frame_at_done c ticks :
  sane c → epoch c ≤ ticks < 2 ^ 64 →
  frame_at ticks c = Done ((ticks - epoch c) * numer c / (denom c * 1000000)).
Proof.
  intros [H0 Hn Ht] Hk. unfold frame_at, div_u128.
  rewrite (proj2 (Z.eqb_neq _ _)) by lia. cbn [mbind outcome_bind].
  rewrite (wrap_id 64 (ticks - epoch c)) by (split; lia). rewrite wrap_id; [done|]. split.
  - apply Z.div_pos; nia.
  - apply Z.div_lt_upper_bound; [lia|]. nia.
Qed.

Lemma frame_arith n d t :
  0 < n ≤ d → 0 ≤ t →
  0 ≤ t * n / d ∧ 0 ≤ t * n / d * d / n ≤ t ∧ (t - t * n / d * d / n) * n < d + n.
Proof.
  intros Hn Ht. pose proof (Z.div_mod (t * n) d ltac:(lia)) as H1.
  pose proof (Z.mod_pos_bound (t * n) d ltac:(lia)) as H2.
  assert (0 ≤ t * n / d) as Hf by (apply Z.div_pos; nia).
  revert H1 Hf. generalize (t * n / d). intros f H1 Hf.
  pose proof (Z.div_mod (f * d) n ltac:(lia)) as H3.
  pose proof (Z.mod_pos_bound (f * d) n ltac:(lia)) as H4.
  assert (0 ≤ f * d / n) as Hs by (apply Z.div_pos; nia).
  revert H3 Hs. generalize (f * d / n). intros s H3 Hs. split; [done|]. split; nia.
Qed.

(** C35: The time reported with a frame is the time the frame began: not before the clock started, not after
    the reading, and less than a frame (and a tick) before it; the computation neither overflows nor
    divides by zero. *)
Theorem frame_began c ticks :
  sane c → epoch c ≤ ticks < 2 ^ 64 →
  ∃ frame time, frame_at ticks c = Done frame ∧ start_of frame c = Done time ∧
    0 ≤ frame ∧ epoch c ≤ time ≤ ticks ∧
    (ticks - time) * numer c < denom c * 1000000 + numer c.
Proof.
  intros Hs Hk. rewrite frame_at_done by done. destruct Hs as [H0 Hn Ht].
  destruct (frame_arith (numer c) (denom c * 1000000) (ticks - epoch c)) as (Hf & Hs & Hb); [lia..|].
  revert Hf Hs Hb.
  generalize ((ticks - epoch c) * numer c / (denom c * 1000000)). intros f.
  rewrite Z.mul_assoc. intros Hf Hs Hb. exists f. revert Hf Hs Hb. unfold start_of, div_u128.
  rewrite (proj2 (Z.eqb_neq (numer c) 0)) by lia.
  cbn [mbind outcome_bind]. generalize (f * denom c * 1000000 / numer c). intros s Hf Hs Hb.
  exists (epoch c + s). split; [done|].
  rewrite (wrap_id 64 s) by (split; lia). rewrite wrap_id by (split; lia).
  split; [done|]. split; [lia|]. split; [lia|].
  by replace (ticks - (epoch c + s)) with (ticks - epoch c - s) by lia.
Qed.

Section Next.
Context {M : Type} {FW : Framework M}.

Lemma wait_later fuel frame c (m : M) frame' m' :
  wait fuel frame c m = Done (frame', m') → not_later frame' (last c) = false.
Proof.
  revert frame m. induction fuel as [|fuel IH]; intros frame m; cbn [wait];
    (destruct (not_later frame (last c)) eqn:E; [|by intros [= <- <-]]); [done|].
  destruct (mach_absolute_time m) as [ticks m1].
  destruct (frame_at ticks c) as [f| |]; cbn [mbind outcome_bind]; try done. apply IH.
Qed.

(** [next] never repeats a frame, and remembers the one it returned. *)
Lemma next_later fuel c (m : M) frame time c' m' :
  next fuel c m = Done (frame, time, c', m') →
  last c' = Some frame ∧ ∀ l, last c = Some l → l < frame.
Proof.
  unfold next. destruct (mach_absolute_time m) as [ticks m1].
  destruct (frame_at ticks c) as [f| |]; cbn [mbind outcome_bind]; try done.
  destruct (wait fuel f c m1) as [[f' m2]| |] eqn:Ew; cbn [mbind outcome_bind]; try done.
  apply wait_later in Ew. destruct (start_of f' _) as [s| |]; cbn [mbind outcome_bind]; try done.
  intros [= <- <- <- <-]. split; [done|]. intros l El. unfold not_later in Ew. rewrite El in Ew.
  by bool_props.
Qed.

(** The clock read [n] times. *)
Fixpoint after (n : nat) (m : M) : M :=
  match n with O => m | S n => after n (mach_absolute_time m).2 end.

Definition reading (n : nat) (m : M) : Z := (mach_absolute_time (after n m)).1.

(** It returns once a reading within the bound falls into a later frame. *)
Lemma wait_returns fuel frame c (m : M) :
  sane c → (∀ i, epoch c ≤ reading i m < 2 ^ 64) →
  (not_later frame (last c) = false ∨
   ∃ i, (i < fuel)%nat ∧
     not_later ((reading i m - epoch c) * numer c / (denom c * 1000000)) (last c) = false) →
  ∃ frame' m', wait fuel frame c m = Done (frame', m').
Proof.
  intros Hs. revert frame m. induction fuel as [|fuel IH]; intros frame m Hr H; cbn [wait];
    (destruct (not_later frame (last c)) eqn:E; [|eauto]).
  - destruct H as [|(i & Hi & _)]; [done|lia].
  - destruct H as [|(i & Hi & Hlate)]; [done|].
    pose proof (Hr 0%nat) as H0. unfold reading in H0. cbn [after] in H0.
    destruct (mach_absolute_time m) as [ticks m1] eqn:Em. cbn [fst] in H0.
    rewrite frame_at_done by done. cbn [mbind outcome_bind]. apply IH.
    + intros j. specialize (Hr (S j)). unfold reading in *. cbn [after] in Hr. by rewrite Em in Hr.
    + destruct i as [|i].
      * left. unfold reading in Hlate. cbn [after] in Hlate. by rewrite Em in Hlate.
      * right. exists i. split; [lia|]. unfold reading in *. cbn [after] in Hlate. by rewrite Em in Hlate.
Qed.

End Next.

End ClockFacts.

(** ** An endpoint in memory *)

(** Messages and bytes are functions of the address. *)
Module Sim.

Record endpoint : Type := mk {
  running : bool;
  head : Z;
  ring : Z → RawMessage.t;
  heap : Z → Z;
}.

Definition range (p : Z) (n : nat) : list Z := (λ i, p + Z.of_nat i) <$> seq 0 n.

(** Completing moves the head to the next message. *)
#[global] Instance endpoint_machine : EndpointMachine endpoint := {
  is_active := running;
  current_transfer_message := head;
  load p e := ring e p;
  bytes_at p n e := heap e <$> range p n;
  write_bytes p d e :=
    mk (running e) (head e) (ring e)
      (λ a, if (p <=? a) && (a <? p + Z.of_nat (length d)) then at_ d (Z.to_nat (a - p)) else heap e a);
  enqueue_completion p st len e := (running e, mk (running e) (head e + 16) (ring e) (heap e));
}.

#[global] Instance memory_laws : MemoryLaws endpoint.
Proof.
  split; cbn.
  - intros p d e. unfold range. rewrite <- list_fmap_compose. apply list_eq. intros i.
    rewrite list_lookup_fmap. destruct (decide (i < length d)%nat) as [Hi|Hi].
    + rewrite lookup_seq_lt by done. cbn. rewrite (proj2 (Z.leb_le _ _)), (proj2 (Z.ltb_lt _ _)) by lia.
      cbn. rewrite at_lookup by done. do 2 f_equal. lia.
    + rewrite lookup_seq_ge by lia. cbn. by rewrite lookup_ge_None_2 by lia.
  - intros p d a n e Hd. unfold range. rewrite <- !list_fmap_compose. apply list_fmap_ext.
    intros i x [-> Hi]%lookup_seq. cbn.
    destruct (p <=? a + Z.of_nat i) eqn:E1, (a + Z.of_nat i <? p + Z.of_nat (length d)) eqn:E2;
      cbn; try done. bool_props. lia.
Defined.

(** Two messages, a link, a third message. *)
Definition normal (len buffer : Z) : RawMessage.t := RawMessage.mk 0x8039 len buffer.
Definition link (target : Z) : RawMessage.t := RawMessage.mk 0x803c 0 target.

Definition ring3 : endpoint :=
  mk true 0x1000
    (λ p, if p =? 0x1000 then normal 4 0x5000 else if p =? 0x1010 then normal 8 0x6000
          else if p =? 0x1020 then link 0x2000 else if p =? 0x2000 then normal 2 0x7000
          else RawMessage.mk 0 0 0)
    (λ a, a mod 256).

End Sim.

Lemma message_at_finds_witness : IoRing.message_at 2 Sim.ring3 = Some 0x2000.
Proof.
  apply (RingFacts.message_at_finds Sim.ring3 [0x1000; 0x1010; 0x2000] 2).
  apply RingFacts.chain_message; [reflexivity|discriminate|].
  apply RingFacts.chain_message; [reflexivity|discriminate|].
  apply RingFacts.chain_link; [reflexivity|reflexivity|discriminate|].
  apply RingFacts.chain_message; [reflexivity|discriminate|].
  apply RingFacts.chain_end. reflexivity.
Defined.

Lemma frame_began_witness :
  ∃ frame time, FrameClock.frame_at 5000000 (FrameClock.mk 700 125 3 None) = Done frame ∧
    FrameClock.start_of frame (FrameClock.mk 700 125 3 None) = Done time ∧ 700 ≤ time ≤ 5000000.
Proof.
  destruct (ClockFacts.frame_began (FrameClock.mk 700 125 3 None) 5000000)
    as (frame & time & H1 & H2 & _ & H3 & _).
  - split; vm_compute; congruence.
  - vm_compute. split; congruence.
  - exists frame, time. exact (conj H1 (conj H2 H3)).
Defined.

Lemma complete_in_buffer_witness :
  ∃ e1 reported, IoRing.complete Status.Success [1; 2; 3; 4; 5; 6] 6 Sim.ring3 =
      enqueue_completion 0x1000 CiStatus.Success reported e1 ∧
    reported ≤ 4 ∧ bytes_at 0x5000 4 e1 = [1; 2; 3; 4] ∧
    bytes_at 0x5004 2 e1 = bytes_at 0x5004 2 Sim.ring3.
Proof.
  destruct (complete_in_buffer Status.Success [1; 2; 3; 4; 5; 6] 6 Sim.ring3)
    as (e1 & reported & H1 & H2 & _ & H4 & H5).
  exists e1, reported. split; [exact H1|]. split; [exact H2|]. split.
  - apply H5; discriminate.
  - apply H4. right. vm_compute. discriminate.
Defined.
