(* ===== verification/RequestTypes.v ===== *)
(** * RequestTypes: every request the engine sends is well typed (src/src/engine.rs, src/src/host.rs)

    [TransferLaws] is what the engine relies on for the data it reads off a ring; [IoRing] keeps it
    whenever mapped memory reads back as many bytes as were asked for.  From it every request of
    every run is one the session accepts and the server can read. *)

From stdpp Require Import base tactics option list gmap fin_maps.
From S2P Require Import Prelude Wire Protocol ProtocolFacts Server Hci HciFacts Session SessionFacts System SessionSpec Engine EngineFacts EngineSteps EngineLive EngineSpec EngineRuns Host HostFacts.

(** ** What a ring hands out *)

(** How many bytes the buffer of a transfer message holds. *)
Definition room_of (t : Transfer.t) : nat :=
  match t with
  | Transfer.Normal len | Transfer.Isochronous len _ => Z.to_nat len
  | _ => 0
  end.

Definition transfer_ok (t : Transfer.t) : Prop :=
  match t with
  | Transfer.Setup bytes => length bytes = 8%nat ∧ bytes_ok bytes
  | Transfer.Normal len => is_u 28 len
  | Transfer.Isochronous len frame => is_u 28 len ∧ from_option (is_u 8) True frame
  | _ => True
  end.

Class TransferLaws (R : Type) {RG : Ring R} := {
  head_reads r m t : current r = (m, Some t) →
    transfer_ok t ∧ ∀ n, (n ≤ room_of t)%nat → length (read 0 n r) = n;
  ahead_reads k r m t : peek k r = Some (m, t) →
    transfer_ok t ∧ ∀ n, (n ≤ room_of t)%nat → length (read k n r) = n;
}.

Lemma land_mask28 v : is_u 28 (Z.land v TRANSFER_LENGTH_MASK).
Proof.
  change TRANSFER_LENGTH_MASK with (Z.ones 28). rewrite Z.land_ones by done.
  pose proof (Z.mod_pos_bound v (2 ^ 28) ltac:(lia)). split; lia.
Qed.

Lemma decode_ok msg t : Transfer.decode msg = Some t → transfer_ok t.
Proof.
  unfold Transfer.decode. destruct (negb _); [done|]. intros [= <-].
  repeat case_match; try exact I; try apply land_mask28.
  - exact (conj (length_le_bytes 8 _) (le_bytes_ok 8 _)).
  - split; [apply land_mask28|]. by apply wrap_is_u.
  - split; [apply land_mask28|done].
Qed.

Lemma room_decode msg t :
  Transfer.decode msg = Some t → (room_of t ≤ Z.to_nat (RawMessage.transfer_length msg))%nat ∧
  (room_of t ≠ 0%nat → RawMessage.is_valid msg = true ∧ RawMessage.message_type msg ≠ message_type.LINK).
Proof.
  unfold Transfer.decode. destruct (RawMessage.is_valid msg); [|done]. cbn [negb]. intros [= <-].
  repeat case_match; cbn; bool_props; split; try lia; intros; split; try done; try lia;
    intros E; rewrite E in *; discriminate.
Qed.

(** Mapped memory has as many bytes as are read. *)
Class ReadLaws (E : Type) {EM : EndpointMachine E} := {
  length_bytes_at p n e : length (bytes_at p n e) = n;
}.

Section IoRingReads.
Context {E : Type} {EM : EndpointMachine E} {RL : ReadLaws E}.

Lemma read_at k n e ptr t :
  IoRing.message_at k e = Some ptr → Transfer.decode (load ptr e) = Some t →
  (n ≤ room_of t)%nat → length (IoRing.read k n e) = n.
Proof.
  intros Hp Ht Hn. apply room_decode in Ht as [Hr _]. unfold IoRing.read. rewrite Hp. cbv zeta.
  rewrite Nat.min_l by lia. destruct (n =? 0)%nat eqn:E0; [|apply length_bytes_at].
  by apply Nat.eqb_eq in E0.
Qed.

#[global] Instance io_ring_reads : TransferLaws E.
Proof.
  split; cbn.
  - intros e m t [= _ Ht]. split; [by eapply decode_ok|]. intros n Hn.
    destruct n as [|n]; [unfold IoRing.read; by destruct (IoRing.message_at 0 e)|].
    eapply (read_at 0 _ e (current_transfer_message e)); [|done|done].
    apply room_decode in Ht as [_ Hv]. destruct Hv as [Hv Hl]; [lia|].
    unfold IoRing.message_at. cbn [Nat.add Nat.mul IoRing.walk]. rewrite Hv. cbn [negb].
    by rewrite (proj2 (Z.eqb_neq _ _)).
  - intros k e m t. unfold IoRing.peek. intros (ptr & Hp & (t' & Ht & [= -> ->])%bind_Some)%bind_Some.
    split; [by eapply decode_ok|]. intros n Hn. by eapply read_at.
Qed.

End IoRingReads.

(** A ring that writes down its completions hands out what the ring does. *)
#[global] Instance recorded_reads {R : Type} {RG : Ring R} {TL : TransferLaws R} : TransferLaws (Recorded.t R).
Proof.
  split; cbn; [intros r m t H; by apply (head_reads (Recorded.inner r) m)|].
  intros k r m t H. by apply (ahead_reads k (Recorded.inner r) m).
Defined.

(** ** Setup packets are kept whole *)

Definition setup_ok (s : option Setup.t) : Prop :=
  match s with
  | Some s => length (Setup.bytes s) = 8%nat ∧ bytes_ok (Setup.bytes s)
  | None => True
  end.

Section Setups.
Context {R : Type} {RG : Ring R} {TL : TransferLaws R}.

Lemma control_data_setup (ep : Endpoint.t R) warned data len ep' warned' data' len' :
  control_data ep warned data len = Done (ep', warned', data', len') →
  setup_ok (Endpoint.setup ep) → setup_ok (Endpoint.setup ep').
Proof.
  intros H Hs. enough (Endpoint.setup ep' = (λ s, Setup.mk (Setup.bytes s) true) <$> Endpoint.setup ep)
    as -> by (by destruct (Endpoint.setup ep)).
  revert H. unfold control_data. destruct (from_option _ _ _); [|by intros [= <- _ _ _]].
  destruct (hide_uas data) as [[data1 [totals|]]| |]; cbn [mbind outcome_bind]; try done;
    [by intros [= <- _ _ _]|].
  repeat (case_match; cbn [mbind outcome_bind]; try done; try (by intros [= <- _ _ _])).
  destruct (slice data1 2 4) as [here| |]; cbn [mbind outcome_bind]; try done.
  case_bool_decide; cbn [mbind outcome_bind]; [|by intros [= <- _ _ _]].
  destruct (copy_at _ _ _); cbn [mbind outcome_bind]; try done. by intros [= <- _ _ _].
Qed.

Lemma apply_setup (ep : Endpoint.t R) f warned flow ep' warned' :
  apply ep f warned = Done (flow, ep', warned') →
  setup_ok (Endpoint.setup ep) → setup_ok (Endpoint.setup ep').
Proof.
  unfold apply. destruct (InFlight.result f) as [r|]; [|done].
  destruct (outcome_of f r) as [[st data] len]. intros H Hs.
  destruct (InFlight.stage f); cbn [mbind outcome_bind] in H.
  1: destruct (control_data ep warned _ len) as [[[[ep1 w1] d1] l1]| |] eqn:Ec;
       cbn [mbind outcome_bind] in H; try done; apply control_data_setup in Ec; [|done].
  all: match type of H with context [complete ?a ?b ?c ?d] =>
         destruct (complete a b c d) as [ok ep2] eqn:E end;
       apply complete_setup in E; injection H as _ <- _; rewrite E; done.
Qed.

Lemma head_request_setup speed (ep : Endpoint.t R) key m t next ep' :
  current (Endpoint.ring ep) = (m, Some t) → head_request speed ep key t = (next, ep') →
  setup_ok (Endpoint.setup ep) → setup_ok (Endpoint.setup ep').
Proof.
  intros Hc H Hs. apply head_reads in Hc as [Ht _].
  assert (∀ ep1 st, setup_ok (Endpoint.setup ep1) → continue_if (complete ep1 st [] 0) = (next, ep') →
    setup_ok (Endpoint.setup ep')) as Hcont.
  { intros ep1 st H1. destruct (complete ep1 st [] 0) as [ok ep2] eqn:E. apply complete_setup in E.
    intros [= _ <-]. by rewrite E. }
  revert H. unfold head_request.
  repeat (case_match; try (apply Hcont; first [done|exact Ht]); try (by intros [= _ <-])).
  all: match goal with E : Endpoint.setup _ = _ |- _ => rewrite <- E in Hs end;
    first [by intros [= _ <-]|by apply Hcont].
Qed.

End Setups.

(** ** In every run *)

(** Decides the tests of a known direction. *)
Ltac directions :=
  change (bool_decide (Direction.Out = Direction.Out)) with true in *;
  change (bool_decide (Direction.In = Direction.Out)) with false in *; cbn iota in *.

Section Runs.
Context {R : Type} {RG : Ring R} {TL : TransferLaws R} {S : Type} {SO : SessionOps S}
  {ST : SessionTrace S}.

Notation engine := (Engine.t S R).

Definition setups_ok (e : engine) : Prop :=
  map_Forall (λ _ ep, setup_ok (Endpoint.setup ep)) (Engine.endpoints e).

Lemma setups_put key ep s (e : engine) :
  setup_ok (Endpoint.setup ep) → setups_ok e →
  setups_ok (Engine.set_session s (Engine.put key ep e)).
Proof. intros. by apply map_Forall_insert_2. Qed.

Lemma setups_unlink_all fs (e e' : engine) : unlink_all fs e = Done e' → setups_ok e → setups_ok e'.
Proof. by intros (s & _ & ->)%unlink_all_inv. Qed.

Lemma setups_pstep key ls (e e' : engine) : pstep key ls e e' → setups_ok e → setups_ok e'.
Proof.
  intros H He. destruct H as [e ep front rest s Hep _ _ _ _
    |e ep front rest r flow ep' warned data len ok Hep _ _ _ _ Hap _ _ _ _
    |e ep message t next st ok ep' Hep _ _ Hc Hh _ _
    |e ep message req stage seqnum c s Hep _ _ _
    |e ep message req stage err s ok ep' Hep _ _ _ _ _ Esetup
    |e ep message req stage err s]; pose proof He as Hall; unfold setups_ok in He |- *; try exact He;
    apply (map_Forall_lookup_1 _ _ _ _ He) in Hep as Hs; apply map_Forall_insert_2; try done.
  - by eapply apply_setup.
  - by eapply head_request_setup.
  - by rewrite Esetup.
Qed.

Lemma setups_psteps key ls (e e' : engine) : psteps key ls e e' → setups_ok e → setups_ok e'.
Proof. induction 1; eauto using setups_pstep. Qed.

Lemma setups_arrives key token result (e e' : engine) :
  arrives key token result e e' → setups_ok e → setups_ok e'.
Proof.
  intros H He. destruct H as [e ep before f after status s Hep|e ep before f after Hep];
    apply (map_Forall_lookup_1 _ _ _ _ He) in Hep as Hs; by apply map_Forall_insert_2.
Qed.

Lemma setups_estep ls (e e' : engine) : estep ls e e' → setups_ok e → setups_ok e'.
Proof.
  intros H He.
  assert (∀ key ep, Engine.endpoints e !! key = Some ep → setup_ok (Endpoint.setup ep)) as Hl by exact He.
  destruct H as [key info ring e e' H
    |key info e|key e e' H|device e e' H|key e e' H|key e e' H|key e e' H
    |messages key ls e e' _ H|messages key token c result ls e e1 e' _ _ Ha H|messages key token c result e
    |await x e e' H|key ep r e Hep|s e _].
  - unfold add_endpoint in H. destruct (Engine.endpoints e !! key).
    + eapply setups_unlink_all; [done|]. by apply map_Forall_insert_2.
    + injection H as <-. by apply map_Forall_insert_2.
  - unfold update_endpoint. destruct (Engine.endpoints e !! key) as [ep|] eqn:E; [|done].
    apply map_Forall_insert_2; [by apply (Hl key ep)|done].
  - unfold remove_endpoint in H. destruct (Engine.endpoints e !! key).
    + eapply setups_unlink_all; [done|]. by apply map_Forall_delete.
    + injection H as <-. by apply map_Forall_delete.
  - intros key ep. rewrite (remove_device_endpoints _ _ _ _ H). case_decide; [done|]. apply Hl.
  - unfold reset_endpoint in H. destruct (Engine.endpoints e !! key); [|by injection H as <-].
    eapply setups_unlink_all; [done|]. by apply map_Forall_insert_2.
  - unfold pause_endpoint in H. case_match; [by injection H as <-|].
    destruct (Engine.endpoints e !! key) as [ep|] eqn:E; [|by injection H as <-].
    destruct (pause_flights _ _) as [[gs s]| |]; try done. cbn [mbind outcome_bind] in H.
    injection H as <-. apply setups_put; [by apply (Hl key ep)|done].
  - unfold sync_endpoint in H. destruct (Engine.endpoints e !! key) as [ep|] eqn:E; [|by injection H as <-].
    destruct (Endpoint.in_flight ep); [by injection H as <-|]. case_match; [|by injection H as <-].
    eapply setups_unlink_all; [done|]. apply map_Forall_insert_2; [by apply (Hl key ep)|done].
  - by eapply setups_psteps.
  - eapply setups_psteps; [done|]. by eapply setups_arrives.
  - done.
  - unfold reset_device in H. destruct (session_submit _ _) as [[y s]| |]; try done.
    cbn [mbind outcome_bind] in H.
    assert (e' = Engine.set_session s e) as -> by (repeat case_match; congruence). done.
  - apply map_Forall_insert_2; [by apply (Hl key ep)|done].
  - done.
Qed.

Lemma reaches_setups s ls (e : engine) : reaches s ls e → setups_ok e.
Proof. induction 1 as [|? ? ? ? _ IH H]; [apply map_Forall_empty|]. by eapply setups_estep. Qed.

(** A request whose data fits its direction and length and whose fields are within their widths; only
    the length may be above what the server takes. *)
Record request_typed (req : SubmitRequest.t) : Prop := {
  rt_data : request_data_ok req;
  rt_length : is_u 28 (SubmitRequest.length req);
  rt_wf : SubmitRequest.length req ≤ 16 * 1024 * 1024 → request_wf req;
}.

Lemma control_request_typed (ep : Endpoint.t R) s len :
  setup_ok (Some s) → is_u 28 len → length (read 0 (Z.to_nat len) (Endpoint.ring ep)) = Z.to_nat len →
  request_typed (control_request ep (Setup.bytes s) len).
Proof.
  intros [Hl Hb] Hlen Hr. unfold control_request.
  destruct (negb (Z.land (at_ (Setup.bytes s) 0) 0x80 =? 0)) eqn:E; cbv zeta.
  - split; [done|done|]. destruct Hlen as [H0 ?]. intros Hmax. split; cbn; try done; try (by intros []); lia.
  - rewrite bool_decide_eq_true_2 by done. destruct Hlen as [H0 ?]. split; cbn.
    + unfold request_data_ok. cbn. rewrite Hr, ?bool_decide_eq_true_2 by done. lia.
    + done.
    + intros Hmax. split; cbn; try done; try (by intros []); lia.
Qed.

Lemma urb_interval_u32 info speed :
  is_u 8 (EndpointInfo.b_interval info) → 0 ≤ EndpointInfo.urb_interval info speed ≤ 2 ^ 15.
Proof.
  unfold EndpointInfo.urb_interval. rewrite !Z.shiftl_1_l.
  intros [H0 H1]. set (b := EndpointInfo.b_interval info) in *.
  assert (0 ≤ 2 ^ (Z.min (Z.max b 1) 16 - 1) ≤ 2 ^ 15) as ?.
  { split; [apply Z.pow_nonneg; lia|]. apply Z.pow_le_mono_r; lia. }
  destruct (EndpointInfo.kind info), speed; lia.
Qed.

Lemma data_request_typed speed (ep : Endpoint.t R) key k t req stage :
  data_request speed ep key k t = Some (req, stage) →
  transfer_ok t → (∀ n, (n ≤ room_of t)%nat → length (read k n (Endpoint.ring ep)) = n) →
  is_u 8 (EndpointInfo.b_interval (Endpoint.info ep)) → request_typed req.
Proof.
  intros H Ht Hr Hi. pose proof (urb_interval_u32 (Endpoint.info ep) speed Hi) as Hint.
  assert (∀ len data, is_u 28 len → Z.to_nat len = room_of t →
    data = read k (Z.to_nat len) (Endpoint.ring ep) → Z.of_nat (length data) = len) as Hdata.
  { intros len data [? _] Hroom ->. rewrite Hr by lia. lia. }
  destruct t as [|len| |len frame| |]; try done; unfold data_request in H; cbv zeta in H.
  - destruct Ht as [Ht0 Ht1]. pose proof (conj Ht0 Ht1) as Ht.
    destruct (Direction.of_endpoint key.2); directions; injection H as <- <-;
      (split; [|done|intros Hmax; split; cbn; try done; unfold is_u; lia]);
      unfold request_data_ok; cbn; directions; [by apply Hdata|done].
  - destruct Ht as [Ht Hf]. pose proof Ht as [Ht0 Ht1].
    assert (Forall Iso.wf [IsoPacketDescriptor.mk 0 len 0 0]) as Hiso.
    { constructor; [|constructor]. unfold Iso.wf. cbn. unfold is_u, is_i. lia. }
    assert (∀ fr, frame = Some fr → is_u 32 fr) as Hfr.
    { intros fr ->. cbn in Hf. unfold is_u in *. lia. }
    destruct (Direction.of_endpoint key.2), frame as [fr|]; directions; injection H as <- <-;
      (split; [|done|intros Hmax; split; cbn; try done; eauto; try split; lia]);
      unfold request_data_ok; cbn; directions; try done; by apply Hdata.
Qed.

Lemma plan_typed key speed (ep : Endpoint.t R) message req stage :
  setup_ok (Endpoint.setup ep) → is_u 8 (EndpointInfo.b_interval (Endpoint.info ep)) →
  plan key speed ep message req stage → request_typed req.
Proof.
  intros Hs Hi [m t req' stage' _ Hc Hh|front rest m t req' stage' _ _ _ _ Hp Hd].
  2: { apply ahead_reads in Hp as [Ht Hr]. by eapply data_request_typed. }
  apply head_reads in Hc as [Ht Hr]. revert Hh. unfold head_request.
  assert (∀ r, continue_if r ≠ (NextSubmit req' stage', ep)) as Hno.
  { intros [[|] ?]; by cbn. }
  destruct (Z.land key.2 0x7f =? 0); destruct t as [bytes|len| |len frame|b|kind];
    try (intros H; exfalso; by apply (Hno _ H)); try (by destruct b; [intros H; exfalso; apply (Hno _ H)|]).
  - destruct (Endpoint.setup ep) as [s|] eqn:Es; [|intros H; exfalso; by apply (Hno _ H)].
    destruct (negb (Setup.data_done s)); [|intros H; exfalso; by apply (Hno _ H)].
    intros [= <- _]. cbn in Ht. pose proof Hs as [Hl Hb].
    assert (0 ≤ le_to_Z [at_ (Setup.bytes s) 6; at_ (Setup.bytes s) 7]) as Hw.
    { apply le_to_Z_bound. do 2 (constructor; [by apply at_u8|]). constructor. }
    cbn [le_to_Z] in Hw.
    destruct Ht as [Ht0 Ht1]. apply control_request_typed; [done|unfold is_u; lia|].
    apply Hr. cbn. lia.
  - destruct (Endpoint.setup ep) as [s|] eqn:Es; [|intros H; exfalso; by apply (Hno _ H)].
    destruct (negb (Setup.data_done s)); [|intros H; exfalso; by apply (Hno _ H)].
    intros [= <- _]. apply control_request_typed; [done|done|]. by apply Hr.
  - intros [= <- _]. by eapply (data_request_typed speed ep key 0 (Transfer.Normal len)).
  - intros [= <- _]. by eapply (data_request_typed speed ep key 0 (Transfer.Isochronous len frame)).
Qed.

End Runs.

(** ** What the session makes of them *)

Section Accepted.
Context {B : BytesCrate} {R : Type} {RG : Ring R} {TL : TransferLaws R} {S : Type}
  {SO : SessionOps S} {ST : SessionTrace S}.

(** C16: Every URB the engine asks for is well typed, in every run and on every ring: its data fits its
    direction and length, its setup packet has eight bytes and is only set on the control endpoint, its
    fields and isochronous packet fit the wire.  So the client session never refuses one as invalid, and
    the server can read it if it is at most 16 MiB long. *)
Theorem requests_typed s ls (e : Engine.t S R) key ep message req stage :
  reaches s ls e → Engine.endpoints e !! key = Some ep →
  is_u 8 (EndpointInfo.b_interval (Endpoint.info ep)) →
  plan key (session_speed (Engine.session e)) ep message req stage →
  request_typed req ∧
  ∀ sh x sh', Session.submit req sh = Done (x, sh') → ∀ why, x ≠ Err (InvalidRequest why).
Proof.
  intros Hr He Hi Hp. pose proof (reaches_setups _ _ _ Hr) as Hs.
  apply (map_Forall_lookup_1 _ _ _ _ Hs) in He as Hse.
  assert (request_typed req) as Ht by by eapply plan_typed. split; [done|].
  intros sh x sh' Hsub why ->. apply submit_cases in Hsub as [_ Hno]. by apply Hno, rt_data.
Qed.

End Accepted.

(** ** An OUT transfer of the bytes in memory *)

#[global] Instance sim_reads : ReadLaws Sim.endpoint.
Proof. split. intros p n e. cbn. unfold Sim.range. by rewrite !length_fmap, length_seq. Defined.

Import Reference.

Module TypedRun.

Definition key : EndpointKey := (1, 0x02).

Definition info : EndpointInfo.t := EndpointInfo.mk EndpointKind.Bulk 512 0.

Definition ep : Endpoint.t Sim.endpoint := Endpoint.mk Sim.ring3 info [] None None.

Definition e0 : Engine.t EngineRun.session Sim.endpoint := new EngineRun.s0.

Definition e1 : Engine.t EngineRun.session Sim.endpoint := Engine.put key ep e0.

Definition req : SubmitRequest.t :=
  SubmitRequest.mk 0x02 Direction.Out 0 4 (replicate 8 0) [0; 1; 2; 3] 0 0 [].

Lemma reaches_e1 : reaches EngineRun.s0 [] e1.
Proof.
  apply (reaches_step EngineRun.s0 [] [] e0 e1); [apply reaches_new|].
  apply (e_add key info Sim.ring3 e0 e1). vm_compute. reflexivity.
Qed.

End TypedRun.

Lemma requests_typed_witness : request_typed TypedRun.req.
Proof.
  apply (requests_typed (B := bytes_crate) EngineRun.s0 [] TypedRun.e1 TypedRun.key TypedRun.ep 0x1000
    TypedRun.req Stage.Normal TypedRun.reaches_e1).
  - vm_compute. reflexivity.
  - apply (bool_decide_unpack _). vm_compute. exact I.
  - apply (plan_head TypedRun.key _ _ 0x1000 (Transfer.Normal 4)); vm_compute; reflexivity.
Defined.
