(* ===== verification/EndToEnd.v ===== *)
(** * EndToEnd: the engine on the client session (src/src/engine.rs, src/src/client.rs)

    The engine and the session it runs on, together: the session is a state of [System], changed by
    the engine's calls and by its own tasks, and the successful replies [finish] is called with were sent
    on the channel its task waits for ([truthful]).  The theorem follows one reply from the wire to the
    host's message, in every run of the engine's code ([EngineRuns.runs]); [reply_traced] is its core, for
    whatever carries the session ([Carries]), on the small steps that explain the run. *)

From stdpp Require Import base tactics option list gmap fin_maps relations sorting.
From S2P Require Import Prelude Wire Protocol ProtocolFacts Server Hci Session SessionFacts System SessionSpec Engine EngineFacts EngineSteps EngineLive EngineSpec EngineRuns.

(** ** The session among its tasks, as the engine's session *)

Section Wire.
Context {B : BytesCrate} {BL : BytesLaws B}.
Context {I : Type} {AR : AsyncRead I} {AL : AsyncReadLaws I}.

Notation wire := (ExportedDevice.t * sys (R := I))%type.

#[global] Instance wire_ops : SessionOps wire := {
  session_submit req s :=
    '(x, sh) ← Session.submit req (shared s.2);
    Done (x, (s.1, mk_sys sh
                     (match x with Ok (seqnum, c) => issued s.2 ++ [(c, seqnum, req)] | Err _ => issued s.2 end)
                     (reader s.2) (at_phase s.2) (writer s.2) (written s.2)));
  session_unlink n s := sh ← Session.unlink n (shared s.2); Done (s.1, set_shared sh s.2);
  session_speed s := ExportedDevice.speed s.1;
}.

(** The session's tasks run between the engine's calls. *)
#[global] Program Instance wire_trace : SessionTrace (wire * list Z) | 0 := {
  env s s' := s'.2 = s.2 ∧ s'.1.1 = s.1.1 ∧ rtc step s.1.2 s'.1.2;
  asked s := s.2;
}.
Next Obligation. intros req s x s' H. by eapply (submit_asked (SessionTrace := Logged.trace)). Qed.
Next Obligation. intros n s s' H. by apply (unlink_asked (SessionTrace := Logged.trace)). Qed.
Next Obligation. by intros s s' (-> & _). Qed.

Lemma act_steps (s s' : wire * list Z) : act s s' → rtc step s.1.2 s'.1.2 ∧ s'.1.1 = s.1.1.
Proof.
  destruct 1 as [req x [[d s] l] s' H|n [[d s] l] s' H|s s' (_ & ? & ?)]; [| |done]; cbn in H.
  - destruct (Session.submit req (shared s)) as [[y sh]| |] eqn:E; try done. injection H as <- <-.
    split; [|done]. apply rtc_once. by eapply step_submit.
  - destruct (Session.unlink n (shared s)) as [sh| |] eqn:E; try done. injection H as <-.
    split; [|done]. apply rtc_once. by eapply step_unlink.
Qed.

Lemma acts_steps (s s' : wire * list Z) : rtc act s s' → rtc step s.1.2 s'.1.2 ∧ s'.1.1 = s.1.1.
Proof.
  induction 1 as [|s1 s2 s3 [H E]%act_steps _ [IH E']]; [done|].
  split; [by etrans|congruence].
Qed.

(** ** Requests and replies are never taken back *)

Definition grows (s s' : sys (R := I)) : Prop :=
  issued s ⊆ issued s' ∧ Shared.replies (shared s) ⊆ Shared.replies (shared s').

#[global] Instance grows_preorder : PreOrder grows.
Proof. split; [done|]. intros s1 s2 s3 [? ?] [? ?]. split; by etrans. Qed.

Lemma close_replies reason sh iss :
  ok sh iss → Shared.replies sh ⊆ Shared.replies (Shared.close reason sh).
Proof.
  intros H. pose proof (close_spec reason sh (ok_closed_tx _ _ H)) as Hc. cbv zeta in Hc.
  destruct (State.closed _); [by rewrite Hc|]. destruct Hc as (_ & _ & _ & _ & _ & _ & _ & _ & _ & ->).
  set_solver.
Qed.

Lemma step_grows s s' : ok (shared s) (issued s) → step s s' → grows s s'.
Proof.
  intros H. destruct 1 as [s req x sh' Hs|s t sh' Hu|s|s e r Hp Hr|s seqnum st len start n ec r d l Hp Hr Hl
    |s seqnum st len start n ec r e Hp Hr Hl|s ret r Hp Hr|s h d l ret r Hp Hr|s h d l e r Hp Hr|s Hc
    |s n ready batch rest Hw Hb|s n ready batch rest e part Hw Hb Hpf|s Hc]; split; cbn; try done;
    try (by eapply close_replies).
  - destruct x as [[seqnum c]|]; set_solver.
  - apply submit_cases in Hs. destruct x as [[seqnum c]|[| |]]; [|done|..].
    + destruct Hs as (_ & _ & _ & _ & ->). done.
    + by destruct Hs as (_ & _ & ->).
    + by destruct Hs as [-> _].
  - by apply unlink_cases in Hu as [[_ ->]|(_ & m & _ & ->)].
  - pose proof (on_unlink_cases ret _ _ H) as Hu. destruct (State.unlinks _ !! _); [|by rewrite Hu].
    destruct Hu as (p & _ & ->). cbn. set_solver.
  - rewrite deliver_cases. destruct (State.submits _ !! _); cbn; [set_solver|done].
Qed.

Lemma steps_grow s s' : ok (shared s) (issued s) → rtc step s s' → grows s s'.
Proof.
  intros H Hs. revert H. induction Hs as [|s1 s2 s3 H12 _ IH]; intros H; [done|].
  etrans; [by apply step_grows|]. apply IH. by eapply step_ok.
Qed.

End Wire.

(** ** Where a URB comes from *)

(** What the engine calls its session carries the client session and its tasks. *)
Class Carries (I S : Type) {SO : SessionOps S} := {
  carried : S → sys (R := I);
  carried_submit req s seqnum c s' :
    session_submit req s = Done (Ok (seqnum, c), s') → (c, seqnum, req) ∈ issued (carried s');
}.

#[global] Program Instance wire_carries {B : BytesCrate} {I : Type} :
  Carries I (ExportedDevice.t * sys (R := I)) := { carried s := s.2 }.
Next Obligation.
  intros B I req [d s] seqnum c s' H. cbn in H.
  destruct (Session.submit req (shared s)) as [[x sh]| |]; try done. injection H as -> <-. cbn. set_solver.
Qed.

Section Linked.
Context {B : BytesCrate} {BL : BytesLaws B}.
Context {I : Type} {AR : AsyncRead I} {AL : AsyncReadLaws I} {R : Type} {RG : Ring R}.
Context {S : Type} {SO : SessionOps S} {ST : SessionTrace (S * list Z)} {CS : Carries I S}.

Notation engine := (Engine.t (S * list Z) R).

(** What the engine's calls and the tasks of the session keep. *)
Context (kept : S → Prop).
Context (kept_act : ∀ s s' : S * list Z, act s s' → kept s.1 →
  kept s'.1 ∧ grows (carried s.1) (carried s'.1)).
Context (kept_ok : ∀ s, kept s → ok (shared (carried s)) (issued (carried s)) ∧
  faithful (shared (carried s)) (issued (carried s)) (at_phase (carried s))).

Definition sys_of (e : engine) : sys (R := I) := carried (Engine.session e).1.

(** The URB was built from its message, accepted under its number, and a task waits on its channel. *)
Definition origin (key : EndpointKey) (f : InFlight.t) (e : engine) : Prop :=
  ∃ c req speed ep,
    mk_waiter key (InFlight.token f) c ∈ Engine.waiters e ∧
    (c, InFlight.seqnum f, req) ∈ issued (sys_of e) ∧
    InFlight.direction f = SubmitRequest.direction req ∧ InFlight.length f = SubmitRequest.length req ∧
    plan key speed ep (InFlight.message f) req (InFlight.stage f).

(** A successful result that is handed to [finish] was sent on the channel its task waits for. *)
Definition honest (ls : list (label R)) (e : engine) : Prop :=
  ∀ key token ret, Finished key token (Ok ret) ∈ ls →
    ∃ c, mk_waiter key token c ∈ Engine.waiters e ∧ (c, Ok ret) ∈ Shared.replies (shared (sys_of e)).

Record linked (ls : list (label R)) (e : engine) : Prop := {
  lk_sys : kept (Engine.session e).1;
  lk_next : Engine.next_token e = wrap 64 (Z.of_nat (length (Engine.waiters e)));
  lk_tokens i w : Engine.waiters e !! i = Some w → w_token w = wrap 64 (Z.of_nat i);
  lk_flights key f : f ∈ flights key e → origin key f e;
  lk_finished : honest ls e;
  lk_applied key r f st data len ok : Applied key r f st data len ok ∈ ls → origin key f e;
}.

(** Channels and tasks only accumulate. *)
Definition onward (e e' : engine) : Prop :=
  Engine.waiters e ⊆ Engine.waiters e' ∧ grows (sys_of e) (sys_of e').

Lemma origin_onward key f g e e' : onward e e' → kin f g → origin key f e → origin key g e'.
Proof.
  intros [Hw [Hi _]] (Et & Em & Es & Ed & El & En) (c & req & speed & ep & Hc & Hin & Hd & Hl & Hp).
  exists c, req, speed, ep. rewrite Et, Em, Es, Ed, El, En. auto 6.
Qed.

Lemma honest_onward ls e e' : onward e e' → honest ls e → honest ls e'.
Proof. intros [Hw [_ Hr]] H key token ret Hin. destruct (H _ _ _ Hin) as (c & ? & ?). exists c. auto. Qed.

Lemma linked_acts ls e e' :
  linked ls e → acts e e' → kept (Engine.session e').1 ∧ grows (sys_of e) (sys_of e').
Proof.
  intros H Ha. unfold acts in Ha. pose proof (lk_sys _ _ H) as Hk. unfold sys_of.
  induction Ha as [s|s1 s2 s3 H12 _ IH]; [done|]. destruct (kept_act _ _ H12 Hk) as [H2 G2].
  destruct (IH H2) as [H3 G3]. split; [done|by etrans].
Qed.

(** What operations do that submit nothing. *)
Lemma linked_kept ls ls2 e e' :
  linked ls e → acts e e' → Engine.waiters e' = Engine.waiters e →
  Engine.next_token e' = Engine.next_token e →
  (∀ key g, g ∈ flights key e' → ∃ f, f ∈ flights key e ∧ kin f g) →
  honest ls2 e →
  (∀ key r f st data len ok, Applied key r f st data len ok ∈ ls2 → f ∈ flights key e) →
  linked (ls ++ ls2) e'.
Proof.
  intros H Ha Ew En Hf Hh Happ. destruct (linked_acts _ _ _ H Ha) as [Hr Hg].
  assert (onward e e') as Ho by (split; [by rewrite Ew|done]).
  destruct H as [_ Hn Ht Hfl Hfin Hap]. split; [done|congruence|by rewrite Ew|..].
  - intros key g (f & Hin & Hk)%Hf. eapply origin_onward; eauto.
  - intros key token ret [Hin|Hin]%elem_of_app;
      [exact (honest_onward _ e e' Ho Hfin _ _ _ Hin)|exact (honest_onward _ e e' Ho Hh _ _ _ Hin)].
  - intros key r f st data len ok [Hin|Hin]%elem_of_app; (eapply origin_onward; [done|by repeat split|]);
      [by eapply Hap|]. apply Hfl. by eapply Happ.
Qed.

Lemma kept_flights key ep (e e' : engine) :
  Engine.endpoints e' = <[key := ep]> (Engine.endpoints e) →
  (∀ g, g ∈ Endpoint.in_flight ep → ∃ f, f ∈ flights key e ∧ kin f g) →
  ∀ key' g, g ∈ flights key' e' → ∃ f, f ∈ flights key' e ∧ kin f g.
Proof.
  intros Ee H key' g. unfold flights at 1. rewrite Ee. destruct (decide (key' = key)) as [->|Hk].
  - rewrite lookup_insert_eq. apply H.
  - rewrite lookup_insert_ne by done. intros Hg. exists g. by repeat split.
Qed.

Lemma linked_submit ls key ep message req stage seqnum c s e :
  Engine.endpoints e !! key = Some ep →
  plan key (session_speed (Engine.session e)) ep message req stage →
  session_submit req (Engine.session e) = Done (Ok (seqnum, c), s) →
  linked ls e →
  linked (ls ++ [Submitted key (flight_of e message req stage seqnum)])
    (launch key ep (flight_of e message req stage seqnum) c s e).
Proof.
  intros He Hp Hs H. set (f := flight_of e message req stage seqnum). set (e' := launch key ep f c s e).
  assert (acts e e') as Ha by (apply rtc_once; by eapply act_submit).
  destruct (linked_acts _ _ _ H Ha) as [Hr Hg].
  assert (Engine.waiters e' = Engine.waiters e ++ [mk_waiter key (Engine.next_token e) c]) as Ew by done.
  assert (onward e e') as Ho by (split; [rewrite Ew; set_solver|done]).
  destruct H as [_ Hn Ht Hfl Hfin Hap]. split; [done|..].
  - rewrite Ew, length_app, Nat.add_1_r. cbn. rewrite Hn. unfold next_u64, wrap.
    rewrite Z.add_mod_idemp_l by lia. f_equal. lia.
  - intros i w. rewrite Ew. intros [Hi|[Hi Hw]]%lookup_app_Some; [by apply Ht|].
    destruct (i - length (Engine.waiters e))%nat eqn:E; [|done]. injection Hw as <-. cbn.
    rewrite Hn. do 2 f_equal. lia.
  - intros key' g Hg'. unfold e' in Hg'. rewrite (flights_launch _ _ _ _ _ _ _ He) in Hg'.
    assert (g ∈ flights key' e ∨ (key' = key ∧ g = f)) as [Hin|[-> ->]].
    { case_decide as Hk; [subst key'|auto]. apply elem_of_app in Hg' as [?|?%list_elem_of_singleton]; auto. }
    + eapply origin_onward; [done| |by apply Hfl]. by repeat split.
    + exists c, req, (session_speed (Engine.session e)), ep. rewrite Ew. split; [set_solver|].
      split; [|done]. unfold e', sys_of. cbn. destruct (Engine.session e) as [s1 l]. cbn in Hs.
      destruct (session_submit req s1) as [[x s2]| |] eqn:E; try done. injection Hs as -> <-. cbn.
      by eapply carried_submit.
  - intros key' token ret [Hin|Hin]%elem_of_app; [exact (honest_onward _ e e' Ho Hfin _ _ _ Hin)|].
    by apply list_elem_of_singleton in Hin.
  - intros key' r g st data len ok [Hin|Hin]%elem_of_app; [|by apply list_elem_of_singleton in Hin].
    eapply origin_onward; [done|by repeat split|by eapply Hap].
Qed.

Lemma linked_pstep ls key ls2 e e' :
  pstep key ls2 e e' → linked ls e → linked (ls ++ ls2) e'.
Proof.
  intros Hs H. pose proof (pstep_acts _ _ _ _ Hs) as Ha.
  assert (∀ g, kin g g) as Hkin by (by repeat split).
  destruct Hs as [e ep front rest s He _ Ef _ Hu
    |e ep front rest r flow ep' warned data len ok He _ Ef _ _ _ (_ & _ & Ef') _ _ _ _
    |e ep message t next st ok ep' He _ Ef _ _ _ (_ & _ & Ef')
    |e ep message req stage seqnum c s He _ Hp Hs
    |e ep message req stage err s ok ep' He _ Ef _ Hs (_ & _ & Ef') _
    |e ep message req stage err s He _ _ _ Hs].
  4: by eapply linked_submit.
  all: assert (flights key e = Endpoint.in_flight ep) as Efl by by apply flights_lookup.
  - eapply linked_kept; [exact H|exact Ha|done|done| |by intros ? ? ? ?%elem_of_nil|by intros ? ? ? ? ? ? ? ?%elem_of_nil].
    apply (kept_flights key (Endpoint.set_in_flight [] ep)); [done|]. by intros g ?%elem_of_nil.
  - eapply linked_kept; [exact H|exact Ha|done|done| | |].
    + apply (kept_flights key ep'); [done|]. rewrite Ef', Efl, Ef. cbn. intros g Hg.
      exists g. split; [by right|done].
    + by intros key' token ret Hin%list_elem_of_singleton.
    + intros key' r' f st' data' len' ok' Hin%list_elem_of_singleton. injection Hin as -> _ -> _ _ _ _.
      rewrite Efl, Ef. by left.
  - eapply linked_kept; [exact H|exact Ha|done|done| | |].
    + apply (kept_flights key ep'); [done|]. rewrite Ef', Efl. eauto.
    + by intros key' token ret Hin%list_elem_of_singleton.
    + by intros key' r' f st' data' len' ok' Hin%list_elem_of_singleton.
  - eapply linked_kept; [exact H|exact Ha|done|done| | |].
    + apply (kept_flights key ep'); [done|]. rewrite Ef', Efl. eauto.
    + by intros key' token ret Hin%list_elem_of_singleton.
    + by intros key' r' f st' data' len' ok' Hin%list_elem_of_singleton.
  - eapply linked_kept; [exact H|exact Ha|done|done|eauto|by intros ? ? ? ?%elem_of_nil|by intros ? ? ? ? ? ? ? ?%elem_of_nil].
Qed.

Lemma linked_psteps ls key ls2 e e' :
  psteps key ls2 e e' → linked ls e → linked (ls ++ ls2) e'.
Proof.
  intros H. revert ls. induction H as [|ls1 ls2 e1 e2 e3 H1 _ IH]; intros ls Hl; [by rewrite app_nil_r|].
  rewrite (assoc_L (++)). by eapply IH, linked_pstep.
Qed.

Lemma linked_arrives ls key token result e e' :
  arrives key token result e e' → honest [Finished key token result] e →
  linked ls e → linked (ls ++ [Finished key token result]) e'.
Proof.
  intros Ha Hh H.
  assert (∀ k (r : R) f st data len ok, Applied k r f st data len ok ∈ [Finished key token result] →
    f ∈ flights k e) as Hno by by intros ? ? ? ? ? ? ? Hin%list_elem_of_singleton.
  destruct Ha as [e ep before f after status s He Ef _ _ _ _ Hu|e ep before f after He Ef _ _ _];
    assert (flights key e = before ++ f :: after) as Efl by (by rewrite (flights_lookup _ _ _ He)).
  - apply unlink_flights_unlinks, unlinks_acts in Hu. eapply linked_kept; [exact H|exact Hu|done|done| |done|done].
    eapply kept_flights; [done|]. cbn. rewrite Efl. intros g Hg. exists g. split; [set_solver|by repeat split].
  - eapply linked_kept; [exact H|apply rtc_refl|done|done| |done|done].
    eapply kept_flights; [done|]. cbn. rewrite Efl.
    intros g [Hg|[->|Hg]%elem_of_cons]%elem_of_app.
    + exists g. split; [set_solver|by repeat split].
    + exists f. split; [set_solver|by repeat split].
    + exists g. split; [set_solver|by repeat split].
Qed.

Lemma linked_estep ls ls2 e e' :
  estep ls2 e e' → honest ls2 e → linked ls e → linked (ls ++ ls2) e'.
Proof.
  intros Hs Hh H. pose proof (estep_acts _ _ _ Hs) as Ha.
  apply estep_cases in Hs as [[-> [Hw Ht _ Hf]]|[[key Hs]|[(key & token & result & ls1 & e1 & -> & Harr & Hs)|
    (key & token & result & -> & ->)]]].
  - eapply linked_kept; [exact H|exact Ha|done|done| |done|by intros ? ? ? ? ? ? ? ?%elem_of_nil].
    intros key g (f & Hin & Hsim)%(thinned_from _ _ _ (Hf key)). exists f. split; [done|]. by apply similar_kin.
  - by eapply linked_psteps.
  - rewrite cons_middle, (assoc_L (++)). eapply linked_psteps; [done|]. eapply linked_arrives; [done| |done].
    intros k t ret Hin. apply (Hh k t ret). set_solver.
  - eapply linked_kept; [exact H|apply rtc_refl|done|done| |done|by intros ? ? ? ? ? ? ? Hin%list_elem_of_singleton].
    intros key' g Hg. exists g. by repeat split.
Qed.

(** ** Runs of the engine on the session *)

Inductive delivers (s0 : S * list Z) : list (label R) → engine → Prop :=
| delivers_new : delivers s0 [] (new s0)
| delivers_step ls1 ls2 e1 e2 :
    delivers s0 ls1 e1 → estep ls2 e1 e2 → honest ls2 e1 → delivers s0 (ls1 ++ ls2) e2.

Lemma delivers_reaches s0 ls e : delivers s0 ls e → reaches s0 ls e.
Proof. induction 1; [constructor|]. by eapply reaches_step. Qed.

Lemma delivers_linked s0 ls e : delivers s0 ls e → kept s0.1 → linked ls e.
Proof.
  intros H Hk. induction H as [|ls1 ls2 e1 e2 _ IH Hs Hh]; [|by eapply linked_estep].
  split; cbn; try done.
  - intros key f. unfold flights. cbn. rewrite lookup_empty. by intros ?%elem_of_nil.
  - by intros key token ret ?%elem_of_nil.
  - by intros key r f st data len ok ?%elem_of_nil.
Qed.

(** A token names one task. *)
Lemma waiter_unique ls e key key' token c c' :
  linked ls e → Z.of_nat (length (Engine.waiters e)) ≤ 2 ^ 64 →
  mk_waiter key token c ∈ Engine.waiters e → mk_waiter key' token c' ∈ Engine.waiters e → c = c'.
Proof.
  intros H Hle [i Hi]%list_elem_of_lookup [j Hj]%list_elem_of_lookup.
  pose proof (lk_tokens _ _ H _ _ Hi) as Ei. pose proof (lk_tokens _ _ H _ _ Hj) as Ej.
  cbn in Ei, Ej. apply lookup_lt_Some in Hi as Li. apply lookup_lt_Some in Hj as Lj.
  rewrite wrap_id in Ei, Ej by (split; lia). assert (i = j) as -> by lia. congruence.
Qed.

(** What a normal IN transfer makes of a reply within the bounds of its request. *)
Lemma fitting_unaltered f req ret data len :
  reply_fits req ret → InFlight.length f = SubmitRequest.length req →
  InFlight.stage f = Stage.Normal → InFlight.direction f = Direction.In →
  SubmitRequest.direction req = Direction.In → unaltered f (Ok ret) data len →
  data = RetSubmit.data ret ∧ len = RetSubmit.actual_length ret ∧
  (outcome_of f (Ok ret)).1.1 = Status.from_urb_status (RetSubmit.status ret).
Proof.
  intros [Hact Hlen] El Es Ef Ein Hun. rewrite Ein, bool_decide_eq_true_2 in Hlen by done.
  destruct Hun as [-> Hdata]; [congruence|]. rewrite Hdata by done.
  unfold outcome_of. rewrite Es, El, Z.min_l by lia. cbn. split; [|done]. by rewrite take_ge by lia.
Qed.

(** One reply, from the channel it was sent on to the host's memory. *)
Lemma reply_traced s0 ls e key r f st data len ok ret :
  delivers s0 ls e → kept s0.1 → Z.of_nat (length (Engine.waiters e)) ≤ 2 ^ 64 →
  Applied key r f st data len ok ∈ ls → InFlight.result f = Some (Ok ret) →
  active r = true ∧ InFlight.message f = (current r).1 ∧
  ∃ c req speed ep, plan key speed ep (InFlight.message f) req (InFlight.stage f) ∧
    (c, RetSubmit.seqnum ret, req) ∈ issued (sys_of e) ∧
    (c, Ok ret) ∈ Shared.replies (shared (sys_of e)) ∧
    (no_wrap (shared (sys_of e)) → reply_fits req ret ∧
     (InFlight.stage f = Stage.Normal → SubmitRequest.direction req = Direction.In →
        data = RetSubmit.data ret ∧ len = RetSubmit.actual_length ret ∧
        st = Status.from_urb_status (RetSubmit.status ret))).
Proof.
  intros Hd Hk Hle Hin Hres. pose proof (delivers_linked _ _ _ Hd Hk) as Hl.
  apply delivers_reaches, reaches_traced in Hd.
  destruct (tr_applied _ _ Hd _ _ _ _ _ _ _ Hin) as (Ha & Hm & res & Hr & Hf & Hst & _ & _ & _ & Hun).
  rewrite Hres in Hr. injection Hr as <-. split; [done|]. split; [done|].
  destruct (lk_applied _ _ Hl _ _ _ _ _ _ _ Hin) as (c & req & speed & ep & Hw & Hi & Edir & Elen & Hp).
  destruct (lk_finished _ _ Hl _ _ _ Hf) as (c' & Hw' & Hrep).
  assert (c = c') as <- by (eapply waiter_unique; eauto).
  pose proof (kept_ok _ (lk_sys _ _ Hl)) as (Hok & Hfaith).
  destruct (f_replies _ _ _ Hfaith _ _ Hrep) as (req' & Hi' & Hfit).
  assert ((c, RetSubmit.seqnum ret, req') = (c, InFlight.seqnum f, req)) as [= Eseq Ereq].
  { by apply (NoDup_fmap_eq (λ i : issue, i.1.1) (issued (sys_of e))); [apply (ok_issued _ _ Hok)|..]. }
  subst req'. exists c, req, speed, ep. split; [done|]. rewrite Eseq. split; [done|]. split; [done|].
  intros Hnw. specialize (Hfit Hnw). split; [done|]. intros Es Ein. subst st.
  apply (fitting_unaltered f req); first [done|congruence].
Qed.

End Linked.

(** *** Runs of its code *)

Section Code.
Context {B : BytesCrate} {BL : BytesLaws B}.
Context {I : Type} {AR : AsyncRead I} {AL : AsyncReadLaws I} {R : Type} {RG : Ring R}.
Context {S : Type} {SO : SessionOps S} {ST : SessionTrace (S * list Z)} {CS : Carries I S}.

Notation engine := (Engine.t (S * list Z) (Recorded.t R)).

(** A successful result for a task was sent on the channel the task waits for. *)
Definition truthful (es : list (event R (S * list Z))) : Prop :=
  ∀ w ret e0, Arrived w (Ok ret) e0 ∈ es → (w_chan w, Ok ret) ∈ Shared.replies (shared (sys_of e0)).

Lemma explains_honest es ls (e e' : engine) : explains es ls e e' → truthful es → honest ls e.
Proof.
  intros Hx Ht key token ret Hin. destruct (explains_finished _ _ _ _ _ _ _ Hx Hin) as (w & Ha & Hw & <- & <-).
  exists (w_chan w). split; [by destruct w|by eapply Ht].
Qed.

Lemma truthful_app es1 es2 : truthful (es1 ++ es2) → truthful es1 ∧ truthful es2.
Proof. intros H. split; intros w ret e0 Hin; apply (H w ret e0); set_solver. Qed.

Lemma runs_delivers s0 es (e : engine) :
  runs s0 es e → truthful es → ∃ ls, delivers s0 ls e ∧ accounts es ls e.
Proof.
  induction 1 as [|es1 es2 e1 e2 _ IH Hs]; [exists []; split; [constructor|apply accounts_new]|].
  intros [H1 H2]%truthful_app. destruct (IH H1) as (ls & Hd & Ha).
  destruct (cstep_explained _ _ _ Hs) as (ls2 & Hs2 & Hx). exists (ls ++ ls2).
  split; [|by eapply accounts_explains]. eapply delivers_step; [done..|]. by eapply explains_honest.
Qed.

Lemma runs_kept (kept : S → Prop) s0 es (e : engine) :
  (∀ s s' : S * list Z, act s s' → kept s.1 → kept s'.1 ∧ grows (carried s.1) (carried s'.1)) →
  (∀ s, kept s → ok (shared (carried s)) (issued (carried s)) ∧
     faithful (shared (carried s)) (issued (carried s)) (at_phase (carried s))) →
  kept s0.1 → runs s0 es e → truthful es → kept (Engine.session e).1.
Proof.
  intros Hact Hok H0 Hr Ht. destruct (runs_delivers _ _ _ Hr Ht) as (ls & Hd & _).
  exact (lk_sys kept _ _ (delivers_linked kept Hact Hok s0 ls e Hd H0)).
Qed.

(** A completion on a ring, traced back to the reply it delivers. *)
Lemma reply_logged (kept : S → Prop) s0 es (e : engine) key ep x :
  (∀ s s' : S * list Z, act s s' → kept s.1 → kept s'.1 ∧ grows (carried s.1) (carried s'.1)) →
  (∀ s, kept s → ok (shared (carried s)) (issued (carried s)) ∧
     faithful (shared (carried s)) (issued (carried s)) (at_phase (carried s))) →
  kept s0.1 → runs s0 es e → truthful es → Z.of_nat (length (Engine.waiters e)) ≤ 2 ^ 64 →
  Engine.endpoints e !! key = Some ep → x ∈ Recorded.log (Endpoint.ring ep) →
  active (Entry.before x) = true ∧
  (unaided x ∨ ∃ f res, delivered es key x f res ∧ ∀ ret, res = Ok ret →
   ∃ c req speed (ep0 : Endpoint.t (Recorded.t R)), plan key speed ep0 (InFlight.message f) req (InFlight.stage f) ∧
     (c, RetSubmit.seqnum ret, req) ∈ issued (sys_of e) ∧
     (c, Ok ret) ∈ Shared.replies (shared (sys_of e)) ∧
     (no_wrap (shared (sys_of e)) → reply_fits req ret ∧
      (InFlight.stage f = Stage.Normal → SubmitRequest.direction req = Direction.In →
         Entry.data x = RetSubmit.data ret ∧ Entry.len x = RetSubmit.actual_length ret ∧
         Entry.status x = Status.from_urb_status (RetSubmit.status ret)))).
Proof.
  intros Hact Hok H0 Hr Ht Hle He Hx. destruct (runs_delivers _ _ _ Hr Ht) as (ls & Hd & H).
  destruct (ac_log _ _ _ H _ _ He) as [l E].
  assert (x ∈ (omap (told key) ls).*1) as ([x' o] & -> & (la & Hla & Hxa)%list_elem_of_omap)%list_elem_of_fmap
    by (rewrite E; apply elem_of_app; by right).
  destruct la as [k f|k r f st data len b|k r st b|k token res]; try done; cbn in Hxa;
    (case_decide as Hk; [subst k|done]); injection Hxa as <- <-.
  - destruct (applied_delivered _ _ _ _ _ _ _ _ _ _ H Hla) as (Ha & f0 & res & Eres & Hk & Hdel).
    split; [done|]. right. exists f0, res. split; [done|]. intros ret ->.
    destruct (reply_traced kept Hact Hok s0 ls e key r f st data len b ret Hd H0 Hle Hla Eres)
      as (_ & _ & c & req & speed & ep0 & Hp & Hi & Hrep & Hfit).
    destruct Hk as (_ & Em & Es & _). rewrite <- Em, <- Es. by exists c, req, speed, ep0.
  - destruct (tr_answered _ _ (ac_traced _ _ _ H) _ _ _ _ Hla) as (Ha & t & Et & Hst).
    split; [done|]. left. do 2 (split; [done|]). by exists t.
Qed.

End Code.

Section WireSpec.
Context {B : BytesCrate} {BL : BytesLaws B}.
Context {I : Type} {AR : AsyncRead I} {AL : AsyncReadLaws I} {R : Type} {RG : Ring R}.

(** C3: One reply, from the wire to the host's memory, in every run of the code of the engine on the client
    session (of up to 2^64 URBs, in which a task hands over as a success only what the session sent on the
    task's channel): whatever is completed on a ring, the ring was active; and if a server's reply is what it
    delivers, the message at the head is the one the URB was built from, the reply answers the request the
    engine built from that very message (same number, on the channel of that request, no longer than it
    asked for), and a normal IN transfer delivers exactly the bytes and the status the server sent. *)
Theorem reply_reaches_message device r0 es (e : Engine.t ((ExportedDevice.t * sys (R := I)) * list Z) (Recorded.t R))
    key ep x :
  runs ((device, started device r0), []) es e → truthful es →
  Z.of_nat (length (Engine.waiters e)) ≤ 2 ^ 64 →
  Engine.endpoints e !! key = Some ep → x ∈ Recorded.log (Endpoint.ring ep) →
  active (Entry.before x) = true ∧
  (unaided x ∨ ∃ f res, delivered es key x f res ∧ ∀ ret, res = Ok ret →
   ∃ c req speed (ep0 : Endpoint.t (Recorded.t R)), plan key speed ep0 (InFlight.message f) req (InFlight.stage f) ∧
     (c, RetSubmit.seqnum ret, req) ∈ issued (sys_of e) ∧
     (c, Ok ret) ∈ Shared.replies (shared (sys_of e)) ∧
     (no_wrap (shared (sys_of e)) → reply_fits req ret ∧
      (InFlight.stage f = Stage.Normal → SubmitRequest.direction req = Direction.In →
         Entry.data x = RetSubmit.data ret ∧ Entry.len x = RetSubmit.actual_length ret ∧
         Entry.status x = Status.from_urb_status (RetSubmit.status ret)))).
Proof.
  apply (reply_logged (λ s, reachable device r0 s.2)); [..|apply rtc_refl].
  - intros s s' [Hs _]%act_steps Hr. split; [unfold reachable in *; by etrans|].
    apply steps_grow; [by eapply reachable_ok|exact Hs].
  - intros s Hr. by apply reachable_all in Hr as (? & ? & _).
Qed.

End WireSpec.

(** ** A run: a bulk read, from the doorbell to the completion of its message *)

Import Reference.

Module WireRun.

Notation session := ((ExportedDevice.t * sys (R := pipe)) * list Z)%type.
Notation engine_state := (Engine.t session (Recorded.t QueueRing.t)).

Definition s0 : session := ((Run.device, started Run.device Run.stream), []).

Definition key : EndpointKey := (1, 0x81).
Definition info : EndpointInfo.t := EndpointInfo.mk EndpointKind.Bulk 512 0.
Definition ring0 : QueueRing.t := QueueRing.mk true [(100, Transfer.Normal 6, [])] [].
Definition req : SubmitRequest.t := SubmitRequest.new 0x81 Direction.In 6.
Definition task : waiter := mk_waiter key 0 0%nat.

Definition get (d : engine_state) (m : outcome engine_state) : engine_state :=
  match m with Done a => a | _ => d end.

Definition e0 : engine_state := new s0.
Definition e1 : engine_state := get e0 (add_endpoint key info (Recorded.mk ring0 []) e0).
Definition e2 : engine_state := get e1 (doorbell 1 key e1).

(** The reader task takes the header and then the payload of the reply. *)
Definition waiting : sys (R := pipe) :=
  set_reader (shared (sys_of e2)) Run.r1 (AwaitPayload (Reply.Submit 1 0 3 0 0 0) Direction.In 6) (sys_of e2).
Definition answered : sys (R := pipe) := set_reader (deliver 1 Run.ret (shared waiting)) Run.r2 Idle waiting.

Definition e3 : engine_state := Engine.set_session ((Run.device, answered), []) e2.
Definition e4 : engine_state := get e3 (finish 1 key 0 (Ok Run.ret) e3).

Definition events : list (event QueueRing.t session) := [Arrived task (Ok Run.ret) e3].

Definition entry : Entry.t QueueRing.t := Entry.mk ring0 Status.Success [9; 8; 7] 3 true.

Definition ep4 : Endpoint.t (Recorded.t QueueRing.t) :=
  default (Endpoint.mk (Recorded.mk ring0 []) info [] None None) (Engine.endpoints e4 !! key).

Lemma read_steps : rtc step (sys_of e2) answered.
Proof.
  apply (rtc_l _ _ waiting).
  - apply (step_header (sys_of e2) 1 0 3 0 0 0 Run.r1 Direction.In 6); vm_compute; reflexivity.
  - apply rtc_once. apply (step_payload waiting (Reply.Submit 1 0 3 0 0 0) Direction.In 6 Run.ret Run.r2);
      vm_compute; reflexivity.
Qed.

Lemma wire_runs : runs s0 events e4.
Proof.
  change events with (((([] ++ []) ++ []) ++ []) ++ events).
  eapply runs_step; [eapply runs_step; [eapply runs_step; [eapply runs_step; [apply runs_new|]|]|]|].
  - apply (c_add key info ring0 e0 e1). vm_compute. reflexivity.
  - apply (c_doorbell 1 key e1 e2). vm_compute. reflexivity.
  - apply (c_session ((Run.device, answered), []) e2).
    split; [vm_compute; reflexivity|]. split; [vm_compute; reflexivity|]. apply read_steps.
  - apply (c_finish 1 task (Ok Run.ret) e3 e4); vm_compute; [left|reflexivity].
Qed.

Lemma events_truthful : truthful events.
Proof.
  intros w ret e Hin%list_elem_of_singleton. injection Hin as -> -> ->. vm_compute. left.
Qed.

Lemma wire_endpoint : Engine.endpoints e4 !! key = Some ep4.
Proof. vm_compute. reflexivity. Qed.

Lemma wire_log : Recorded.log (Endpoint.ring ep4) = [entry].
Proof. vm_compute. reflexivity. Qed.

(** A success with data answers no message by itself. *)
Lemma entry_aided : ¬ unaided entry.
Proof. by intros [H _]. Qed.

End WireRun.

Lemma reply_reaches_message_witness : ∃ f res,
  delivered WireRun.events WireRun.key WireRun.entry f res ∧ ∀ ret, res = Ok ret → ∃ c req,
    (c, RetSubmit.seqnum ret, req) ∈ issued (sys_of WireRun.e4) ∧
    (c, Ok ret) ∈ Shared.replies (shared (sys_of WireRun.e4)).
Proof.
  destruct (reply_reaches_message Run.device Run.stream WireRun.events WireRun.e4 WireRun.key WireRun.ep4
    WireRun.entry WireRun.wire_runs WireRun.events_truthful) as [_ [Hu|(f & res & Hd & H)]].
  - vm_compute. discriminate.
  - exact WireRun.wire_endpoint.
  - rewrite WireRun.wire_log. left.
  - destruct (WireRun.entry_aided Hu).
  - exists f, res. split; [exact Hd|]. intros ret Er.
    destruct (H ret Er) as (c & req & speed & ep0 & _ & Hi & Hr & _). exists c, req. exact (conj Hi Hr).
Defined.
