(* ===== verification/DeviceToHost.v ===== *)
(** * DeviceToHost: from the server's device to the host's memory

    The code of the engine on a session that is connected to the server ([Peers]): what a device at the far
    end completes a URB with is what the host finds in the message the URB was built from. *)

From stdpp Require Import base tactics option list gmap fin_maps fin_sets relations sorting.
From S2P Require Import Prelude Wire Protocol ProtocolFacts Server Serving ServingFacts ServingSpec Session SessionFacts System SessionSpec Peers PeersFacts PeersView PeersRun PeersScript PeersSpec Hci Engine EngineFacts EngineSteps EngineLive EngineSpec EngineRuns EndToEnd.

(** ** The connected session as the engine's session *)

Section Net.
Context {B : BytesCrate} {BL : BytesLaws B}.
Context {I : Type} {AR : AsyncRead I} {AL : AsyncReadLaws I} {F : Feed I} {D : Device}.

Notation line := (ExportDev.t * net I)%type.

#[global] Instance net_ops : SessionOps line := {
  session_submit req s :=
    let c := client s.2 in
    '(x, sh) ← Session.submit req (shared c);
    Done (x, (s.1, mk_net (mk_sys sh
                     (match x with Ok (seqnum, ch) => issued c ++ [(ch, seqnum, req)] | Err _ => issued c end)
                     (reader c) (at_phase c) (writer c) (written c)) (server s.2)));
  session_unlink n s :=
    sh ← Session.unlink n (shared (client s.2)); Done (s.1, mk_net (set_shared sh (client s.2)) (server s.2));
  session_speed s := ExportedDevice.speed (device_of_export s.1 false);
}.

(** Between the engine's calls the tasks of both ends run, and the connection may break. *)
#[global] Program Instance net_trace : SessionTrace (line * list Z) | 0 := {
  env s s' := s'.2 = s.2 ∧ s'.1.1 = s.1.1 ∧ rtc (net_step s.1.1) s.1.2 s'.1.2;
  asked s := s.2;
}.
Next Obligation. intros req s x s' H. by eapply (submit_asked (SessionTrace := Logged.trace)). Qed.
Next Obligation. intros n s s' H. by apply (unlink_asked (SessionTrace := Logged.trace)). Qed.
Next Obligation. by intros s s' (-> & _). Qed.

#[global] Program Instance net_carries : Carries I line := { carried s := client s.2 }.
Next Obligation.
  intros req [d n] seqnum c s' H. cbn in H.
  destruct (Session.submit req (shared (client n))) as [[x sh]| |]; try done. injection H as -> <-.
  cbn. set_solver.
Qed.

(** A step of the session that writes nothing. *)
Lemma client_silent export (n : net I) c : step (client n) c → written c = written (client n) →
  net_step export n (mk_net c (server n)).
Proof.
  intros Hs Hw. rewrite <- (app_nil_r (written (client n))) in Hw.
  pose proof (net_client export n c [] Hs Hw) as H. rewrite feed_nil in H.
  by destruct (server n).
Qed.

Lemma act_net (s s' : line * list Z) : act s s' → rtc (net_step s.1.1) s.1.2 s'.1.2 ∧ s'.1.1 = s.1.1.
Proof.
  destruct 1 as [req x [[d n] l] s' H|m [[d n] l] s' H|s s' (_ & ? & ?)]; [| |done]; cbn in H.
  - destruct (Session.submit req (shared (client n))) as [[y sh]| |] eqn:E; try done. injection H as <- <-.
    split; [|done]. apply rtc_once, client_silent; [by eapply step_submit|done].
  - destruct (Session.unlink m (shared (client n))) as [sh| |] eqn:E; try done. injection H as <-.
    split; [|done]. apply rtc_once, client_silent; [by eapply step_unlink|done].
Qed.

(** What holds of the session in every run, fair or not. *)
Definition sound (n : net I) : Prop :=
  ok (shared (client n)) (issued (client n)) ∧
  faithful (shared (client n)) (issued (client n)) (at_phase (client n)).

Lemma net_step_sound export n n' : net_step export n n' → sound n → sound n' ∧ grows (client n) (client n').
Proof.
  intros Hs [H1 H2]. destruct Hs as [n c bs Hs Hw|n v bs Hs Hw|n e Hp|n Hst]; [| | |done].
  - split; [split; [by eapply step_ok|exact (step_faithful _ _ H1 H2 Hs)]|by apply step_grows].
  - done.
  - split; [split|].
    + by apply ok_close.
    + apply (faithful_close _ _ _ (at_phase (client n))); [done..|]. by right.
    + split; [done|]. by eapply close_replies.
Qed.

Lemma net_steps_sound export n n' : rtc (net_step export) n n' → sound n →
  sound n' ∧ grows (client n) (client n').
Proof.
  intros H. induction H as [n|n1 n2 n3 H12 _ IH]; intros Hs; [done|].
  destruct (net_step_sound _ _ _ H12 Hs) as [H2 G2]. destruct (IH H2) as [H3 G3].
  split; [done|by etrans].
Qed.

Lemma imported_sound export : sound (imported export).
Proof.
  split; [apply ok_start|]. constructor; cbn; try done.
  - intros c ret []%elem_of_nil.
  - intros _ k. unfold known, in_use. cbn. rewrite !lookup_empty.
    intros [[->|[[? [=]]|[? [=]]]]|[]%elem_of_nil]. done.
Qed.

Lemma reachable_sound export n : net_reachable export n → sound n.
Proof. intros H. by eapply net_steps_sound; [|apply imported_sound]. Qed.

End Net.

(** ** The theorem *)

Section Spec.
Context {B : BytesCrate} {BL : BytesLaws B}.
Context {I : Type} {AR : AsyncRead I} {AL : AsyncReadLaws I} {F : Feed I} {D : Device}.
Context {R : Type} {RG : Ring R}.

Notation line := (ExportDev.t * net I)%type.
Notation net_of e := ((Engine.session e).1.2).

(** What the engine's calls and the tasks of both ends keep. *)
Definition of_export (export : ExportDev.t) (s : line) : Prop := s.1 = export ∧ net_reachable export s.2.

Lemma of_export_act export (s s' : line * list Z) : act s s' → of_export export s.1 →
  of_export export s'.1 ∧ grows (carried s.1) (carried s'.1).
Proof.
  intros [Hs Ee]%act_net [E Hr]. rewrite E in *. split.
  - split; [done|]. unfold net_reachable in *. by etrans.
  - by apply (net_steps_sound _ _ _ Hs (reachable_sound _ _ Hr)).
Qed.

Lemma of_export_sound export s : of_export export s → sound s.2.
Proof. intros [_ Hr]. by eapply reachable_sound. Qed.

Lemma of_export_imported export : of_export export (export, imported export).
Proof. split; [done|apply rtc_refl]. Qed.

(** The reply to an IN request. *)
Lemma reply_of_in export i comp : SubmitRequest.direction i.2 = Direction.In →
  let ret := reply_of (requested (ExportDev.devid export) i) comp in
  RetSubmit.data ret = Completion.data comp ∧
  RetSubmit.actual_length ret = Z.of_nat (length (Completion.data comp)) ∧
  RetSubmit.status ret = Completion.status comp.
Proof.
  intros Ein. assert (Urb.is_in (requested (ExportDev.devid export) i) = true) as Hin.
  { rewrite (proj1 (requested_stage export i)), Ein. by rewrite bool_decide_eq_true_2. }
  unfold reply_of, actual_of. by rewrite Hin.
Qed.

(** C4: From the device to the host's memory, in every fair run of the code of the engine, of the session and
    of the server together (of up to 2^64 URBs, in which a task hands over as a success only what the session
    sent on the task's channel): whatever is completed on a ring, the ring was active; and if a server's reply is
    what it delivers, the message at the head is the one its URB was built from, the device completed the
    very request the engine built from it, the server logged that completion, and a normal IN transfer puts
    exactly the bytes the device returned, and its status, into the message. *)
Theorem device_reaches_message export es (e : Engine.t (line * list Z) (Recorded.t R)) key ep x :
  is_u 16 (ExportDev.devnum export) → conforming →
  runs ((export, imported (R := I) export), []) es e → truthful es →
  Z.of_nat (length (Engine.waiters e)) ≤ 2 ^ 64 → fair export (client (net_of e)) →
  Engine.endpoints e !! key = Some ep → x ∈ Recorded.log (Endpoint.ring ep) →
  active (Entry.before x) = true ∧
  (unaided x ∨ ∃ f res, delivered es key x f res ∧ ∀ ret, res = Ok ret →
   ∃ i speed (ep0 : Endpoint.t (Recorded.t R)) comp, i ∈ issued (client (net_of e)) ∧
     plan key speed ep0 (InFlight.message f) i.2 (InFlight.stage f) ∧
     may_end (requested (ExportDev.devid export) i) (Outcome.Complete comp) ∧
     Event.Completed i.1.2 ∈ Conn.events (server (net_of e)) ∧
     ret = reply_of (requested (ExportDev.devid export) i) comp ∧
     (InFlight.stage f = Stage.Normal → SubmitRequest.direction i.2 = Direction.In →
        Entry.data x = Completion.data comp ∧
        Entry.len x = Z.of_nat (length (Completion.data comp)) ∧
        Entry.status x = Status.from_urb_status (Completion.status comp))).
Proof.
  intros Hdn HD Hruns Htrue Hle W He Hx.
  pose proof (of_export_imported export) as H0.
  destruct (reply_logged (of_export export) ((export, imported export), []) es e key ep x (of_export_act export) (of_export_sound export)
    H0 Hruns Htrue Hle He Hx) as (Ha & Hcases).
  split; [done|]. destruct Hcases as [?|(f & res & Hdel & Hret)]; [by left|right].
  exists f, res. split; [done|]. intros ret Eret.
  destruct (Hret ret Eret) as (c & req & speed & ep0 & Hp & Hi & Hrep & Hfit).
  destruct (runs_kept (of_export export) ((export, imported export), []) es e (of_export_act export) (of_export_sound export) H0 Hruns Htrue) as [_ Hr].
  destruct (reachable_tied export Hdn HD _ Hr W) as (log & told & k & j & T).
  destruct (reply_true export Hdn _ _ _ _ _ T W c ret Hrep) as (i & comp & Hi' & Ec & -> & Hend & Hev).
  assert (i = (c, RetSubmit.seqnum (reply_of (requested (ExportDev.devid export) i) comp), req)) as Ei.
  { by apply (NoDup_fmap_eq (λ i : issue, i.1.1) (issued (client (net_of e))));
      [apply (ok_issued _ _ (t_ok _ _ _ _ _ _ T))|..]. }
  assert (i.2 = req) as Er by by rewrite Ei.
  exists i, speed, ep0, comp. rewrite Er. split_and!; try done.
  intros Es Ein. destruct (Hfit (proj1 W)) as [_ Hs]. destruct (Hs Es Ein) as (-> & -> & ->).
  rewrite <- Er in Ein. by destruct (reply_of_in export i comp Ein) as (-> & -> & ->).
Qed.

End Spec.

(** ** A run: a bulk read, from the doorbell over the server's device to the completed message *)

Import Reference Echo Peering WireRun.

Module NetRun.

Notation session := ((ExportDev.t * net pipe) * list Z)%type.
Notation engine_state := (Engine.t session (Recorded.t QueueRing.t)).

Definition s0 : session := ((Samples.export, start_net), []).

Definition get (d : engine_state) (m : outcome engine_state) : engine_state :=
  match m with Done a => a | _ => d end.

Definition e0 : engine_state := new s0.
Definition e1 : engine_state := get e0 (add_endpoint key info (Recorded.mk ring0 []) e0).
Definition e2 : engine_state := get e1 (doorbell 1 key e1).

Definition turns : list Script.act :=
  [Script.ClientWrite; Script.ServerRead; Script.ServerRead; Script.ServerTake 0x81;
   Script.ServerFinish 0x81; Script.ServerWrite; Script.ClientRead; Script.ClientRead].

Definition net2 : net pipe := (Engine.session e2).1.2.
Definition net3 : net pipe := default net2 (Script.run Samples.export choose turns net2).

Definition e3 : engine_state := Engine.set_session ((Samples.export, net3), []) e2.
Definition e4 : engine_state := get e3 (finish 1 key 0 (Ok Run.ret) e3).

Definition events : list (event QueueRing.t session) := [Arrived task (Ok Run.ret) e3].

Definition ep4 : Endpoint.t (Recorded.t QueueRing.t) :=
  default (Endpoint.mk (Recorded.mk ring0 []) info [] None None) (Engine.endpoints e4 !! key).

Lemma net_steps : rtc (net_step Samples.export) net2 net3.
Proof.
  apply (Script.run_steps Samples.export choose choose_ok turns). unfold net3.
  destruct (Script.run _ _ _ _) as [n|] eqn:E; [done|]. exfalso. revert E. vm_compute. congruence.
Qed.

Lemma runs_net : runs s0 events e4.
Proof.
  change events with (((([] ++ []) ++ []) ++ []) ++ events).
  eapply runs_step; [eapply runs_step; [eapply runs_step; [eapply runs_step; [apply runs_new|]|]|]|].
  - apply (c_add key info ring0 e0 e1). vm_compute. reflexivity.
  - apply (c_doorbell 1 key e1 e2). vm_compute. reflexivity.
  - apply (c_session ((Samples.export, net3), []) e2).
    split; [vm_compute; reflexivity|]. split; [vm_compute; reflexivity|]. apply net_steps.
  - apply (c_finish 1 task (Ok Run.ret) e3 e4); vm_compute; [left|reflexivity].
Qed.

Lemma net_truthful : truthful events.
Proof.
  intros w ret e Hin%list_elem_of_singleton. injection Hin as -> -> ->. vm_compute. left.
Qed.

Lemma net_endpoint : Engine.endpoints e4 !! key = Some ep4.
Proof. vm_compute. reflexivity. Qed.

Lemma net_log : Recorded.log (Endpoint.ring ep4) = [entry].
Proof. vm_compute. reflexivity. Qed.

Lemma net_fair : fair Samples.export (client (Engine.session e4).1.2).
Proof.
  split; [vm_compute; reflexivity|].
  assert (issued (client (Engine.session e4).1.2) = [(0%nat, 1, req)]) as -> by (vm_compute; reflexivity).
  repeat constructor; try (by apply (bool_decide_unpack _)); cbn; lia.
Qed.

End NetRun.

Lemma device_reaches_message_witness : ∃ f res,
  delivered NetRun.events key entry f res ∧ ∀ ret, res = Ok ret → ∃ i comp,
  i ∈ issued (client (Engine.session NetRun.e4).1.2) ∧
  Event.Completed i.1.2 ∈ Conn.events (server (Engine.session NetRun.e4).1.2) ∧
  may_end (requested (ExportDev.devid Samples.export) i) (Outcome.Complete comp) ∧
  ret = reply_of (requested (ExportDev.devid Samples.export) i) comp.
Proof.
  destruct (device_reaches_message Samples.export NetRun.events NetRun.e4 key NetRun.ep4 entry
    devnum_ok device_conforms NetRun.runs_net NetRun.net_truthful) as [_ [Hu|(f & res & Hd & H)]].
  - vm_compute. discriminate.
  - exact NetRun.net_fair.
  - exact NetRun.net_endpoint.
  - rewrite NetRun.net_log. left.
  - destruct (entry_aided Hu).
  - exists f, res. split; [exact Hd|]. intros ret Er.
    destruct (H ret Er) as (i & speed & ep0 & comp & Hi & _ & Hend & Hev & Hre & _). exists i, comp.
    exact (conj Hi (conj Hev (conj Hend Hre))).
Defined.
