(* ===== verification/Fairness.v ===== *)
(** * Fairness: the engine only sends what the server takes (src/src/engine.rs)

    The theorems on a connected session and server assume requests that are well formed and that Linux would
    queue ([Peers.request_fit]).  Here the engine is shown to issue no others: what remains to assume is that
    the host describes the endpoints as the device does, keeps to the server's transfer limit and queues
    isochronous messages on isochronous endpoints.  Every run of the code is one of [calm]
    ([Progress.tended_calm]). *)

From stdpp Require Import base tactics option list gmap fin_maps fin_sets relations sorting.
From S2P Require Import Prelude Wire Protocol ProtocolFacts Server Serving ServingFacts ServingSpec Session SessionFacts System SessionSpec Peers PeersFacts PeersView PeersRun PeersScript PeersSpec Hci Engine EngineFacts EngineSteps EngineLive EngineSpec Host HostFacts RequestTypes EndToEnd DeviceToHost.

(** ** What the host and the device have to do for it *)

(** [bmAttributes & 3] *)
Definition kind_code (k : EndpointKind.t) : Z :=
  match k with
  | EndpointKind.Control => 0
  | EndpointKind.Isochronous => 1
  | EndpointKind.Bulk => 2
  | EndpointKind.Interrupt => 3
  end.

Section Described.
Context {D : Device}.

(** Device endpoints have a number; endpoint 0 is not listed. *)
Definition numbered : Prop := Forall (λ e, Z.land e.1 0x0f ≠ 0) endpoints.

(** The endpoint address is one, and the host describes the endpoint with the type the device gives it. *)
Record describes (key : EndpointKey) (info : EndpointInfo.t) : Prop := {
  de_address : is_u 8 key.2;
  de_reserved : Z.land key.2 0x70 = 0;
  de_interval : is_u 8 (EndpointInfo.b_interval info);
  de_kind : Forall (λ e, e.1 = key.2 → Z.land e.2 3 = kind_code (EndpointInfo.kind info)) endpoints;
}.

(** A message of the host within the server's limit, of bytes, isochronous where the endpoint is. *)
Record modest (dev : Z) (i : issue) : Prop := {
  mo_length : SubmitRequest.length i.2 ≤ 16 * 1024 * 1024;
  mo_data : bytes_ok (SubmitRequest.data i.2);
  mo_iso : Forall (λ e, e.1 = urb_address (requested dev i) → Z.land e.2 3 = 1 →
             SubmitRequest.iso_packets i.2 ≠ []) endpoints;
}.

End Described.

(** ** One request *)

Lemma address_sound a : is_u 8 a → Z.land a 0x70 = 0 →
  Z.lor (wrap 8 (a mod 16)) (match Direction.of_endpoint a with Direction.In => 0x80 | Direction.Out => 0 end) = a.
Proof.
  intros [H0 H1].
  assert (Forall (λ a, Z.land a 0x70 = 0 → Z.lor (wrap 8 (a mod 16))
    (match Direction.of_endpoint a with Direction.In => 0x80 | Direction.Out => 0 end) = a) (seqZ 0 256)) as H
    by (apply (bool_decide_unpack _); vm_compute; exact I).
  apply (proj1 (Forall_seqZ _ 0 256) H). lia.
Qed.

Lemma urb_interval_pos info speed :
  kind_code (EndpointInfo.kind info) = 1 ∨ kind_code (EndpointInfo.kind info) = 3 →
  1 ≤ EndpointInfo.urb_interval info speed.
Proof.
  intros Hk. unfold EndpointInfo.urb_interval. rewrite !Z.shiftl_1_l.
  set (b := EndpointInfo.b_interval info).
  assert (2 ^ 0 ≤ 2 ^ (Z.min (Z.max b 1) 16 - 1)) by (apply Z.pow_le_mono_r; lia).
  destruct (EndpointInfo.kind info), speed; cbn in Hk; lia.
Qed.

Section Fit.
Context {R : Type} {RG : Ring R} {TL : TransferLaws R} {D : Device}.

(** Where a planned request comes from. *)
Lemma plan_cases key speed (ep : Endpoint.t R) message req stage : plan key speed ep message req stage →
  (∃ s len, Endpoint.setup ep = Some s ∧ req = control_request ep (Setup.bytes s) len) ∨
  (∃ k t, data_request speed ep key k t = Some (req, stage)).
Proof.
  intros [m t req' stage' _ _ Hh|front rest m t req' stage' _ _ _ _ _ Hd]; [|right; eauto].
  revert Hh. unfold head_request.
  assert (∀ r, continue_if r ≠ (NextSubmit req' stage', ep)) as Hno by (intros [[|] ?]; by cbn).
  destruct (Z.land key.2 0x7f =? 0); destruct t as [bytes|len| |len frame|b|kind]; cbv zeta;
    try (intros H; exfalso; by apply (Hno _ H)); try (by destruct b; [intros H; exfalso; apply (Hno _ H)|]).
  1,2: destruct (Endpoint.setup ep) as [s|] eqn:Es; [|intros H; exfalso; by apply (Hno _ H)].
  1,2: destruct (negb (Setup.data_done s)); [|intros H; exfalso; by apply (Hno _ H)].
  1,2: intros [= <- _]; left; by eauto.
  all: match goal with |- context [data_request ?a ?b ?c ?d ?t] => destruct (data_request a b c d t) as [[r st]|] eqn:E end;
    [|done]; intros [= -> ->]; right; by eexists _, _.
Qed.

Context (export : ExportDev.t) (Hnum : numbered).

(** A request on a device endpoint goes to the address the host named. *)
Lemma requested_address dev i a : is_u 8 a → Z.land a 0x70 = 0 →
  SubmitRequest.ep i.2 = a → SubmitRequest.direction i.2 = Direction.of_endpoint a →
  urb_address (requested dev i) = a.
Proof.
  intros Ha Hr He Hd. rewrite <- (address_sound a Ha Hr). destruct i as [[c n] req]. cbn in He, Hd.
  unfold urb_address, Urb.is_in. cbn. rewrite He, Hd. by destruct (Direction.of_endpoint a).
Qed.

(** Endpoint 0 is not the device's, so nothing is asked of its URBs. *)
Lemma control_admitted i : SubmitRequest.ep i.2 = 0 →
  refused endpoints (requested (ExportDev.devid export) i) = None.
Proof.
  intros He. unfold refused. destruct (find_first _ _) as [[a attributes]|] eqn:E; [|done].
  apply find_first_in in E as [Hin Ea%Z.eqb_eq]. exfalso. unfold numbered in Hnum. rewrite Forall_forall in Hnum.
  apply (Hnum _ Hin). cbn [fst] in *. rewrite Ea. destruct i as [[c n] req]. cbn in He.
  unfold urb_address, Urb.is_in. cbn. rewrite He. by destruct (SubmitRequest.direction req).
Qed.

Lemma data_admitted speed (ep : Endpoint.t R) key k t stage i :
  describes key (Endpoint.info ep) → modest (ExportDev.devid export) i →
  data_request speed ep key k t = Some (i.2, stage) →
  refused endpoints (requested (ExportDev.devid export) i) = None ∧ SubmitRequest.setup i.2 = replicate 8 0.
Proof.
  intros [Ha Hr _ Hk] [_ _ Hiso] H.
  assert (SubmitRequest.ep i.2 = key.2 ∧ SubmitRequest.direction i.2 = Direction.of_endpoint key.2 ∧
    SubmitRequest.setup i.2 = replicate 8 0 ∧
    (1 ≤ SubmitRequest.interval i.2 ∨
     SubmitRequest.interval i.2 = EndpointInfo.urb_interval (Endpoint.info ep) speed)) as (E1 & E2 & E3 & E4).
  { destruct i as [ch req]. cbn [snd] in *. destruct t as [|len| |len frame| |]; try done; unfold data_request in H; cbv zeta in H.
    - destruct (Direction.of_endpoint key.2); directions; injection H as <- _; cbn; auto.
    - destruct (Direction.of_endpoint key.2), frame; directions; injection H as <- _; cbn;
        repeat split; left; lia. }
  split; [|done]. pose proof (requested_address (ExportDev.devid export) i key.2 Ha Hr E1 E2) as Eu.
  unfold refused. destruct (find_first _ _) as [[a attributes]|] eqn:E; [|done].
  apply find_first_in in E as [Hin Ea%Z.eqb_eq]. cbn [fst] in Ea. rewrite Eu in Ea. subst a.
  rewrite Forall_forall in Hk, Hiso. specialize (Hk _ Hin eq_refl). specialize (Hiso _ Hin). cbn [fst snd] in *.
  pose proof (urb_interval_pos (Endpoint.info ep) speed) as Hp. rewrite <- Hk in Hp.
  rewrite Eu in Hiso. specialize (Hiso eq_refl).
  destruct i as [[c n] req]. cbn in *. rewrite length_fmap.
  destruct (Z.land attributes 3 =? 1) eqn:K1, (Z.land attributes 3 =? 3) eqn:K3; cbn; bool_props; try lia.
  - destruct (SubmitRequest.interval req =? 0) eqn:Ei; [bool_props; lia|].
    destruct (SubmitRequest.iso_packets req); [by destruct Hiso|done].
  - destruct (SubmitRequest.interval req =? 0) eqn:Ei; [bool_props; lia|done].
  - done.
Qed.

(** What the engine plans on a described endpoint, the server takes. *)
Lemma planned_fit key speed (ep : Endpoint.t R) message stage i :
  setup_ok (Endpoint.setup ep) → describes key (Endpoint.info ep) → modest (ExportDev.devid export) i →
  plan key speed ep message i.2 stage → request_fit export i.
Proof.
  intros Hs Hd Hm Hp. destruct (plan_typed key speed ep message i.2 stage Hs (de_interval _ _ Hd) Hp) as [_ _ Hwf].
  specialize (Hwf (mo_length _ _ Hm)).
  apply plan_cases in Hp as [(s & len & Es & Er)|(k & t & Hr)].
  - rewrite Es in Hs. destruct Hs as [_ Hb].
    assert (SubmitRequest.ep i.2 = 0 ∧ SubmitRequest.setup i.2 = Setup.bytes s) as [E1 E2].
    { rewrite Er. unfold control_request. cbv zeta. by case_bool_decide. }
    split; [done|apply Hm|by rewrite E2|by apply control_admitted].
  - destruct (data_admitted speed ep key k t stage i Hd Hm Hr) as [Ha E].
    split; [done|apply Hm| |done]. rewrite E. by apply (bool_decide_unpack _).
Qed.

Lemma reset_fit i : i.2 = reset_request → request_fit export i.
Proof.
  intros E. split; rewrite ?E.
  - split; cbn; try done; try lia; by apply (bool_decide_unpack _).
  - constructor.
  - by apply (bool_decide_unpack _).
  - apply control_admitted. by rewrite E.
Qed.

End Fit.

(** ** Runs in which only the engine submits *)

Section Alone.
Context {B : BytesCrate} {BL : BytesLaws B}.
Context {I : Type} {AR : AsyncRead I} {AL : AsyncReadLaws I} {F : Feed I} {D : Device}.
Context {R : Type} {RG : Ring R} {TL : TransferLaws R}.

Notation line := (ExportDev.t * net I)%type.
Notation engine := (Engine.t (line * list Z) R).
Notation net_of e := ((Engine.session e).1.2).

(** Between the engine's calls the tasks of both ends run, but no clone of the session submits. *)
Program Definition alone : SessionTrace (line * list Z) := {|
  env s s' := s'.2 = s.2 ∧ s'.1.1 = s.1.1 ∧ rtc (net_step s.1.1) s.1.2 s'.1.2 ∧
    issued (client s'.1.2) = issued (client s.1.2);
  asked s := s.2;
|}.
Next Obligation. intros req s x s' H. by eapply (submit_asked (SessionTrace := Logged.trace)). Qed.
Next Obligation. intros n s s' H. by apply (unlink_asked (SessionTrace := Logged.trace)). Qed.
Next Obligation. by intros s s' (-> & _). Qed.

Definition described (e : engine) : Prop :=
  map_Forall (λ key ep, describes key (Endpoint.info ep)) (Engine.endpoints e).

Inductive calm (s0 : line * list Z) : list (label R) → engine → Prop :=
| calm_new : calm s0 [] (new s0)
| calm_step ls1 ls2 e1 e2 :
    calm s0 ls1 e1 → estep (ST := alone) ls2 e1 e2 → honest ls2 e1 → described e2 →
    calm s0 (ls1 ++ ls2) e2.

Lemma alone_estep ls (e e' : engine) : estep (ST := alone) ls e e' → estep ls e e'.
Proof.
  destruct 1; [by eapply e_add|by eapply e_update|by eapply e_remove|by eapply e_remove_device|by eapply e_reset
    |by eapply e_pause|by eapply e_sync|by eapply e_doorbell|by eapply e_finish|by eapply e_finish_stale
    |by eapply e_reset_device|by eapply e_host|].
  apply e_session. naive_solver.
Qed.

Lemma calm_delivers s0 ls e : calm s0 ls e → delivers s0 ls e.
Proof. induction 1; [constructor|]. eapply delivers_step; [done|by apply alone_estep|done]. Qed.

Lemma described_one key ep e : Engine.endpoints e = {[key := ep]} → describes key (Endpoint.info ep) → described e.
Proof. intros Ee Hd k ep'. rewrite Ee. by intros [<- <-]%lookup_singleton_Some. Qed.

(** *** The session's list of accepted requests *)

Lemma unlinks_issued (s s' : line * list Z) : unlinks s s' → issued (client s'.1.2) = issued (client s.1.2).
Proof.
  induction 1 as [s|s1 s2 s3 [n H] _ IH]; [done|]. rewrite IH. destruct s1 as [[d1 n1] l]. cbn in H.
  destruct (Session.unlink n (shared (client n1))) as [sh| |]; try done. by injection H as <-.
Qed.

Lemma submit_issued req x (s s' : line * list Z) i : session_submit req s = Done (x, s') →
  i ∈ issued (client s'.1.2) → i ∈ issued (client s.1.2) ∨ i.2 = req.
Proof.
  destruct s as [[d n] l]. intros H Hi. cbn in H.
  destruct (Session.submit req (shared (client n))) as [[y sh]| |]; try done. injection H as <- <-.
  cbn in Hi. destruct y as [[seqnum c]|]; [|by left].
  apply elem_of_app in Hi as [?|Hi1%list_elem_of_singleton]; [by left|right; by rewrite Hi1].
Qed.

(** *** Every one of them was planned *)

Definition engines_own (i : issue) : Prop :=
  i.2 = reset_request ∨ ∃ key speed (ep : Endpoint.t R) message stage,
    setup_ok (Endpoint.setup ep) ∧ describes key (Endpoint.info ep) ∧ plan key speed ep message i.2 stage.

Definition owned (e : engine) : Prop := ∀ i, i ∈ issued (client (net_of e)) → engines_own i.

Lemma described_pstep key ls (e e' : engine) : pstep key ls e e' → described e → described e'.
Proof.
  intros H He. unfold described in *.
  assert (∀ ep ep', Engine.endpoints e !! key = Some ep → Endpoint.info ep' = Endpoint.info ep →
    map_Forall (λ key ep, describes key (Endpoint.info ep)) (<[key := ep']> (Engine.endpoints e))) as Hput.
  { intros ep ep' Hep Ei. apply map_Forall_insert_2; [|done]. rewrite Ei. by apply (He key ep). }
  destruct H as [e ep front rest s Hep _ _ _ _
    |e ep front rest r flow ep' warned data len ok Hep _ _ _ _ _ (_ & Ei & _) _ _ _ _
    |e ep message t next st ok ep' Hep _ _ _ _ _ (_ & Ei & _)
    |e ep message req stage seqnum c s Hep _ _ _
    |e ep message req stage err s ok ep' Hep _ _ _ _ (_ & Ei & _) _
    |e ep message req stage err s]; cbn; try exact He; by eapply Hput.
Qed.

Lemma owned_pstep key ls (e e' : engine) : pstep key ls e e' →
  described e → setups_ok e → owned e → owned e'.
Proof.
  intros [H|(ep & message & req & stage & x & Hep & Hp & H)]%pstep_session Hd Hs Ho i Hi.
  - rewrite (unlinks_issued _ _ H) in Hi. by apply Ho.
  - destruct (submit_issued _ _ _ _ _ H Hi) as [Hi'|E]; [by apply Ho|].
    right. rewrite E. exists key, (session_speed (Engine.session e)), ep, message, stage.
    split; [by apply (Hs key ep)|]. split; [by apply (Hd key ep)|done].
Qed.

Lemma owned_psteps key ls (e e' : engine) : psteps key ls e e' →
  described e → setups_ok e → owned e → owned e'.
Proof. induction 1; eauto using described_pstep, setups_pstep, owned_pstep. Qed.

Lemma described_psteps key ls (e e' : engine) : psteps key ls e e' → described e → described e'.
Proof. induction 1; eauto using described_pstep. Qed.

Lemma described_arrives key token result (e e' : engine) :
  arrives key token result e e' → described e → described e'.
Proof.
  intros H He. destruct H as [e ep before f after status s Hep|e ep before f after Hep];
    apply (map_Forall_lookup_1 _ _ _ _ He) in Hep as Hd; by apply map_Forall_insert_2.
Qed.

Lemma owned_estep ls (e e' : engine) : estep (ST := alone) ls e e' →
  described e → setups_ok e → owned e → owned e'.
Proof.
  intros [H|key ls' e1 H1 H|x H|(_ & _ & _ & H)]%estep_change Hd Hs Ho.
  - intros i Hi. rewrite (unlinks_issued _ _ H) in Hi. by apply Ho.
  - eapply owned_psteps; [done|..].
    + destruct H1 as [->|(token & result & Ha)]; [done|by eapply described_arrives].
    + destruct H1 as [->|(token & result & Ha)]; [done|by eapply setups_arrives].
    + destruct H1 as [->|(token & result & Ha)]; [done|].
      destruct Ha as [e ep before f after status s _ _ _ _ _ _ Hu|]; [|done].
      apply unlink_flights_unlinks, unlinks_issued in Hu. intros i Hi. cbn in Hi. rewrite Hu in Hi. by apply Ho.
  - intros i Hi. destruct (submit_issued _ _ _ _ _ H Hi); [by apply Ho|by left].
  - intros i Hi. rewrite H in Hi. by apply Ho.
Qed.

Lemma calm_owned s0 ls e : calm s0 ls e → issued (client s0.1.2) = [] → owned e ∧ described e.
Proof.
  intros H H0. induction H as [|ls1 ls2 e1 e2 Hc [Ho Hd] Hs _ Hd2].
  - split; [intros i; cbn; rewrite H0; by intros ?%elem_of_nil|apply map_Forall_empty].
  - split; [|done]. apply calm_delivers, delivers_reaches, reaches_setups in Hc. by eapply owned_estep.
Qed.

Lemma calm_fit export s0 ls e : numbered → calm s0 ls e → issued (client s0.1.2) = [] →
  Forall (modest (ExportDev.devid export)) (issued (client (net_of e))) →
  Forall (request_fit export) (issued (client (net_of e))).
Proof.
  intros Hn Hc H0 Hm. destruct (calm_owned _ _ _ Hc H0) as [Ho _].
  apply Forall_forall. intros i Hi. rewrite Forall_forall in Hm.
  destruct (Ho i Hi) as [E|(key & speed & ep & message & stage & Hs & Hd & Hp)]; [by apply reset_fit|].
  eapply planned_fit; eauto.
Qed.

End Alone.

(** ** The theorem *)

Section Spec.
Context {B : BytesCrate} {BL : BytesLaws B}.
Context {I : Type} {AR : AsyncRead I} {AL : AsyncReadLaws I} {F : Feed I} {D : Device}.
Context {R : Type} {RG : Ring R} {TL : TransferLaws R}.

Notation net_of e := ((Engine.session e).1.2).


End Spec.

(** ** A run: a bulk read on the driver's ring, which the server answers *)

Import Reference Echo Peering.

Module FairRun.

Notation session := ((ExportDev.t * net pipe) * list Z)%type.
Notation engine_state := (Engine.t session Sim.endpoint).

Definition key : EndpointKey := (1, 0x81).
Definition info : EndpointInfo.t := EndpointInfo.mk EndpointKind.Bulk 512 0.

(** One message, for four bytes. *)
Definition ring : Sim.endpoint :=
  Sim.mk true 0x1000 (λ p, if p =? 0x1000 then Sim.normal 4 0x5000 else RawMessage.mk 0 0 0) (λ a, a mod 256).

Definition s0 : session := ((Samples.export, start_net), []).

Definition get (d : engine_state) (m : outcome engine_state) : engine_state :=
  match m with Done a => a | _ => d end.

Definition e0 : engine_state := new s0.
Definition e1 : engine_state := get e0 (add_endpoint key info ring e0).
Definition e2 : engine_state := get e1 (doorbell 1 key e1).

Definition turns : list Script.act :=
  [Script.ClientWrite; Script.ServerRead; Script.ServerRead; Script.ServerTake 0x81;
   Script.ServerFinish 0x81; Script.ServerWrite; Script.ClientRead; Script.ClientRead].

Definition net3 : net pipe :=
  default (Engine.session e2).1.2 (Script.run Samples.export choose turns (Engine.session e2).1.2).
Definition e3 : engine_state := Engine.set_session ((Samples.export, net3), []) e2.

Definition req : SubmitRequest.t := SubmitRequest.new 0x81 Direction.In 4.
Definition f0 : InFlight.t := flight_of e1 0x1000 req Stage.Normal 1.

Definition ep1 : Endpoint.t Sim.endpoint := Endpoint.mk ring info [] None None.

Lemma fair_submit_step : psteps key [Submitted key f0] e1 e2.
Proof.
  apply psteps_one.
  pose (s1 := match session_submit req (Engine.session e1) with Done (_, s) => s | _ => s0 end).
  assert (e2 = launch key ep1 f0 0%nat s1 e1) as -> by (vm_compute; reflexivity).
  apply p_submit; [vm_compute; reflexivity..| |vm_compute; reflexivity].
  apply (plan_head key _ _ 0x1000 (Transfer.Normal 4)); vm_compute; reflexivity.
Qed.

Lemma session_steps : rtc (net_step Samples.export) (Engine.session e2).1.2 net3.
Proof.
  apply (Script.run_steps Samples.export choose choose_ok turns). unfold net3.
  destruct (Script.run _ _ _ _) as [n|] eqn:E; [done|]. exfalso. revert E. vm_compute. congruence.
Qed.

Lemma info_described : describes key info.
Proof. split; apply (bool_decide_unpack _); vm_compute; exact Logic.I. Qed.

Lemma calm_e3 : calm s0 [Submitted key f0] e3.
Proof.
  change [Submitted key f0] with ((([] ++ []) ++ [Submitted (R := Sim.endpoint) key f0]) ++ []).
  eapply calm_step; [eapply calm_step; [eapply calm_step; [apply calm_new|..]|..]|..].
  - apply (e_add (ST := alone) key info ring e0 e1). vm_compute. reflexivity.
  - by intros k t r ?%elem_of_nil.
  - by apply (described_one key ep1), info_described.
  - apply (e_doorbell (ST := alone) 1 key [Submitted key f0] e1 e2); [vm_compute; reflexivity|apply fair_submit_step].
  - by intros k t r Hin%list_elem_of_singleton.
  - apply (described_one key (Endpoint.set_in_flight [f0] ep1)); [vm_compute; reflexivity|apply info_described].
  - apply (e_session (ST := alone) ((Samples.export, net3), []) e2).
    split; [vm_compute; reflexivity|]. split; [vm_compute; reflexivity|].
    split; [apply session_steps|vm_compute; reflexivity].
  - by intros k t r ?%elem_of_nil.
  - apply (described_one key (Endpoint.set_in_flight [f0] ep1)); [vm_compute; reflexivity|apply info_described].
Qed.

Lemma issued_e3 : issued (client (Engine.session e3).1.2) = [(0%nat, 1, req)].
Proof. vm_compute. reflexivity. Qed.

End FairRun.

