(* ===== verification/Progress.v ===== *)
(** * Progress: a transfer at the server can be completed (src/src/engine.rs, src/src/client.rs)

    The liveness of the connected session and server ([PeersLive]) carried through the engine: while neither
    side is broken and the device completes what it is given, the transfer at the head of an endpoint comes to
    its end in the host's memory with what the device made of it, by steps of the tasks and of the engine's
    code alone.  [replied]: an open session answers with replies, or as unlinked. *)

From stdpp Require Import base tactics option list gmap fin_maps fin_sets relations sorting.
From S2P Require Import Prelude Wire Protocol ProtocolFacts Server Serving ServingFacts ServingSpec Session SessionFacts System SessionSpec Peers PeersFacts PeersView PeersRun PeersScript PeersSpec PeersLive Hci Engine EngineFacts EngineSteps EngineLive EngineSpec EngineRuns Host HostFacts RequestTypes EndToEnd DeviceToHost Fairness.

(** ** What a pump does first with a head that has its result *)

Section Head.
Context {R : Type} {RG : Ring R} {S : Type} {SO : SessionOps S}.

Notation engine := (Engine.t S R).

(** The message at the head of the active ring has a result. *)
Record resolved_head (key : EndpointKey) (ep : Endpoint.t R) (f : InFlight.t) (e : engine) : Prop := {
  rh_endpoint : Engine.endpoints e !! key = Some ep;
  rh_active : active (Endpoint.ring ep) = true;
  rh_flights : ∃ rest, Endpoint.in_flight ep = f :: rest;
  rh_message : InFlight.message f = (current (Endpoint.ring ep)).1;
  rh_result : InFlight.result f ≠ None;
}.

(** Nothing new is planned while the head has a result. *)
Lemma plan_unresolved key speed (ep : Endpoint.t R) message req stage f rest :
  plan key speed ep message req stage → Endpoint.in_flight ep = f :: rest → InFlight.result f = None.
Proof.
  intros [? ? ? ? E _ _|front rest' ? ? ? ? E _ Hn _ _ _] Ef; rewrite E in Ef; [done|].
  injection Ef as -> ->. by apply Forall_cons in Hn as [? _].
Qed.

(** The completion of the ring [r] that a result calls for, and whether the ring takes it. *)
Definition completion (key : EndpointKey) (r : R) (f : InFlight.t) (l : label R) : Prop :=
  ∃ res st data len, InFlight.result f = Some res ∧
    l = Applied key r f st data len (ring_complete st data len r).1 ∧
    st = (outcome_of f res).1.1 ∧ (InFlight.direction f = Direction.Out → data = []) ∧
    unaltered f res data len.

Lemma head_step key ep f ls (e e' : engine) : resolved_head key ep f e → pstep key ls e e' →
  ∃ l, ls = [l] ∧ completion key (Endpoint.ring ep) f l.
Proof.
  intros [He Ha [rest Ef] Hm Hr] H.
  destruct H as [e ep1 front rest1 s Hep _ Ef1 Hne _|e ep1 front rest1 r flow ep' warned data len ok Hep _ Ef1 _ Er _ [Hc _] Hout _ _ Hun
    |e ep1 message t next st ok ep' Hep _ Ef1 _ _ _ _|e ep1 message req stage seqnum c s Hep _ Hp _
    |e ep1 message req stage err s ok ep' Hep _ Ef1 _ _ _ _|e ep1 message req stage err s Hep _ _ Hp _];
    rewrite He in Hep; injection Hep as <-; try (rewrite Ef in Ef1; simplify_eq); try done.
  - eexists. split; [done|]. cbn in Hc. exists r. eexists _, data, len. by rewrite Hc.
  - by rewrite (plan_unresolved _ _ _ _ _ _ _ _ Hp Ef) in Hr.
  - by rewrite (plan_unresolved _ _ _ _ _ _ _ _ Hp Ef) in Hr.
Qed.

Lemma head_applied key ep f ls (e e' : engine) : resolved_head key ep f e →
  psteps key ls e e' → settles key ls e e' →
  ∃ l ls', ls = l :: ls' ∧ completion key (Endpoint.ring ep) f l.
Proof.
  intros Hh Hs Hset. destruct Hs as [e|ls1 ls2 e1 e2 e3 H1 _].
  2: { destruct (head_step _ _ _ _ _ _ Hh H1) as (l & -> & Hl). by exists l, ls2. }
  exfalso. pose proof Hh as [He Ha [rest Ef] Hm Hr].
  destruct Hset as [[Hn|ep1 Hep Hoff|ep1 Hep Ef1 _|ep1 front rest1 Hep _ Ef1 _ Hn _]|[Hf|(e1 & Hs & Hf)]].
  - congruence.
  - congruence.
  - congruence.
  - rewrite He in Hep. injection Hep as <-. congruence.
  - by apply Exists_nil in Hf.
  - assert (e1 = e) as ->.
    { inversion Hs as [|ls1 ls2 ? e2 ? H1 _ E]; [done|]. subst.
      by destruct (head_step _ _ _ _ _ _ Hh H1) as (l & -> & _). }
    destruct Hf as (ep1 & message & req & stage & err & s & Hep & _ & Hp & _).
    rewrite He in Hep. injection Hep as <-.
    by rewrite (plan_unresolved _ _ _ _ _ _ _ _ Hp Ef) in Hr.
Qed.

(** A reply for the head is stored with it. *)
Lemma head_arrives key ret (e e1 : engine) ep f rest :
  Engine.endpoints e !! key = Some ep → Endpoint.in_flight ep = f :: rest →
  arrives key (InFlight.token f) (Ok ret) e e1 →
  Engine.endpoints e1 !! key = Some (Endpoint.set_in_flight (InFlight.set_result (Ok ret) f :: rest) ep).
Proof.
  intros He Ef H. remember (Ok ret : TransferResult) as res eqn:Eres.
  destruct H as [e ep1 before g after status s _ _ _ _ _ Er _|e ep1 before g after Hep Eg Et Hb _]; [congruence|].
  rewrite He in Hep. injection Hep as <-. rewrite Ef in Eg.
  assert (before = []) as ->.
  { destruct before as [|b before]; [done|]. injection Eg as <- _. by apply Forall_cons in Hb as [[] _]. }
  injection Eg as <- <-. cbn. by rewrite lookup_insert_eq.
Qed.

End Head.

(** ** The connected session as a session the engine can rely on *)

Section Laws.
Context {B : BytesCrate} {BL : BytesLaws B}.
Context {I : Type} {AR : AsyncRead I} {AL : AsyncReadLaws I} {F : Feed I} {D : Device}.

#[global] Instance net_laws : SessionLaws (ExportDev.t * net I).
Proof.
  refine {|
    good (s : ExportDev.t * net I) := ∃ iss, ok (shared (client s.2)) iss;
    room (s : ExportDev.t * net I) := 2 ^ 31 - Z.of_nat (pending (shared (client s.2))) |}.
  - intros req [d n] Hg Hr.
    destruct (Live.submit_returns req (device_of_export d false, shared (client n)) Hg Hr) as (x & [d' sh] & E & Hg' & Hr').
    cbn in E |- *. destruct (Session.submit req (shared (client n))) as [[y sh']| |]; try done.
    injection E as <- _ <-. eexists _, _. split; [done|]. by split.
  - intros m [d n] Hg Hr.
    destruct (Live.unlink_returns m (device_of_export d false, shared (client n)) Hg Hr) as ([d' sh] & E & Hg' & Hr').
    cbn in E |- *. destruct (unlink m (shared (client n))) as [sh'| |]; try done.
    injection E as _ <-. eexists. split; [done|]. by split.
  - intros req [d n] x s'. cbn. destruct (Session.submit req (shared (client n))) as [[y sh']| |]; try done.
    by intros [= _ <-].
  - intros m [d n] s'. cbn. destruct (unlink m (shared (client n))) as [sh'| |]; try done. by intros [= <-].
Defined.

End Laws.

(** ** Replies of an open session *)

Section Open.
Context {B : BytesCrate} {BL : BytesLaws B}.
Context {I : Type} {AR : AsyncRead I} {AL : AsyncReadLaws I} {F : Feed I} {D : Device}.

(** As long as the session is open, a request is only answered with a reply or as unlinked. *)
Definition replied (sh : Shared.t) : Prop :=
  State.closed (Shared.state sh) = None → ∀ c r, (c, r) ∈ Shared.replies sh →
    (∃ ret, r = Ok ret) ∨ ∃ status, r = Err (Unlinked status).

Lemma close_replied reason sh iss : ok sh iss → replied sh → replied (Shared.close reason sh).
Proof.
  intros H Hr. pose proof (close_spec reason sh (ok_closed_tx _ _ H)) as Hc. cbv zeta in Hc.
  destruct (State.closed (Shared.state sh)) as [r|] eqn:E; [by rewrite Hc|].
  destruct Hc as (Hc & _). intros Ho. congruence.
Qed.

Lemma step_replied (s s' : sys (R := I)) :
  ok (shared s) (issued s) → step s s' → replied (shared s) → replied (shared s').
Proof.
  intros H Hs Hr. destruct Hs as [s req x sh' Hs|s t sh' Hu|s|s e r Hp Hx|s seqnum st len start n ec r d l Hp Hx Hl
    |s seqnum st len start n ec r e Hp Hx Hl|s ret r Hp Hx|s h d l ret r Hp Hx|s h d l e r Hp Hx|s Hc
    |s n ready batch rest Hw Hb|s n ready batch rest e part Hw Hb Hpf|s Hc]; cbn; try done;
    try (by eapply close_replied).
  - apply submit_cases in Hs. destruct x as [[seqnum c]|[| |]]; [|done|..].
    + by destruct Hs as (_ & _ & _ & _ & ->).
    + by destruct Hs as (_ & _ & ->).
    + by destruct Hs as [-> _].
  - by apply unlink_cases in Hu as [[_ ->]|(_ & m & _ & ->)].
  - pose proof (on_unlink_cases ret _ _ H) as Hu. destruct (State.unlinks _ !! _); [|by rewrite Hu].
    destruct Hu as (p & _ & ->). intros Ho c x. cbn in *.
    intros [Hin|Hin%list_elem_of_singleton]%elem_of_app; [by apply (Hr Ho c x)|].
    right. injection Hin as _ ->. by eexists.
  - revert Hr. rewrite deliver_cases. unfold replied. destruct (State.submits _ !! _); cbn; [|done].
    intros Hr Ho c x [Hin|Hin%list_elem_of_singleton]%elem_of_app; [by apply (Hr Ho c x)|].
    left. injection Hin as _ ->. by eexists.
Qed.

Lemma reachable_replied export (n : net I) : net_reachable export n → replied (shared (client n)).
Proof.
  intros H. assert (sound n ∧ replied (shared (client n))) as [_ ?]; [|done].
  unfold net_reachable in H. apply (rtc_ind_r (λ n, sound n ∧ replied (shared (client n)))
    (imported export)) in H; [done|..]; clear n H.
  - split; [apply imported_sound|]. intros _ c r. by intros ?%elem_of_nil.
  - intros n n' _ Hs [Hn Hr]. split; [by eapply net_step_sound|].
    destruct Hs as [n c bs Hs Hw|n v bs Hs Hw|n e Hp|n Hst]; cbn; try done.
    + eapply step_replied; [apply Hn|done|done].
    + eapply close_replied; [apply Hn|done].
Qed.

End Open.

(** ** The theorem *)

Section Spec.
Context {B : BytesCrate} {BL : BytesLaws B}.
Context {I : Type} {AR : AsyncRead I} {AL : AsyncReadLaws I} {F : Feed I} {D : Device}.
Context {R : Type} {RG : Ring R} {TL : TransferLaws R} {RL : RingLaws R}.

Notation line := (ExportDev.t * net I)%type.
Notation engine := (Engine.t (line * list Z) (Recorded.t R)).
Notation net_of e := ((Engine.session e).1.2).

(** No task has ended: the session is open, its tasks and those of the server run. *)
Record connected (n : net I) : Prop := {
  co_open : State.closed (Shared.state (shared (client n))) = None;
  co_phase : at_phase (client n) ≠ Stopped;
  co_writer : is_Some (writer (client n));
  co_stage : Conn.at_stage (server n) ≠ Ended;
  co_sender : is_Some (Conn.writer (server n));
  co_tx : Forall is_Some (Conn.tx (server n));
}.

(** A run of the engine's code in which nobody else submits, results are replies of the session, and the
    host describes its endpoints as the device does. *)
Inductive tended (s0 : line * list Z) : list (event R (line * list Z)) → engine → Prop :=
| tended_new : tended s0 [] (new s0)
| tended_step es1 es2 e1 e2 :
    tended s0 es1 e1 → cstep (ST := alone) es2 e1 e2 → truthful es2 → described e2 →
    tended s0 (es1 ++ es2) e2.

Lemma tended_calm s0 es e : tended s0 es e → ∃ ls, calm s0 ls e ∧ accounts (ST := alone) es ls e.
Proof.
  induction 1 as [|es1 es2 e1 e2 _ (ls & Hc & Ha) Hs Ht Hd].
  - exists []. split; [constructor|apply accounts_new].
  - destruct (cstep_explained _ _ _ Hs) as (ls2 & Hs2 & Hx). exists (ls ++ ls2).
    split; [|by eapply accounts_explains]. eapply calm_step; [done..| |done].
    by eapply (explains_honest (ST := alone)).
Qed.

(** Where a flight's result comes from, and that the run is one of the export's. *)
Lemma calm_origin export ls (e : engine) key f : calm ((export, imported export), []) ls e →
  f ∈ flights key e → of_export export (Engine.session e).1 ∧ origin key f e.
Proof.
  intros Hc%calm_delivers Hf.
  pose proof (delivers_linked (of_export export) (of_export_act export) (of_export_sound export)
    ((export, imported export), []) ls e Hc (of_export_imported export)) as Hl.
  split; [apply (lk_sys _ _ _ Hl)|by apply (lk_flights _ _ _ Hl)].
Qed.

(** Nobody has ever asked the server to unlink the request. *)
Definition never_unlinked (seqnum : Z) (n : net I) : Prop :=
  ∀ c, CmdUnlink.unlink_seqnum c = seqnum → CmdUnlink.encode c [] ∉ Shared.frames (shared (client n)).

(** A request that was never unlinked has its reply in the state in which every request is answered, and
    that is what the device made of it. *)
Lemma answered export (n : net I) :
  is_u 16 (ExportDev.devnum export) → conforming → (∀ u, ∃ c, resolves u (Outcome.Complete c)) →
  lively export n →
  ∃ n', lively export n' ∧ PeersLive.onward export n n' ∧ pending (shared (client n')) = 0%nat ∧
    ∀ i, i ∈ issued (client n) → never_unlinked i.1.2 n →
      ∃ comp, may_end (requested (ExportDev.devid export) i) (Outcome.Complete comp) ∧
        (i.1.1, Ok (reply_of (requested (ExportDev.devid export) i) comp)) ∈ Shared.replies (shared (client n')) ∧
        reply_fits i.2 (reply_of (requested (ExportDev.devid export) i) comp).
Proof.
  intros Hd HD Hdev L. destruct (settles_answered export Hd HD Hdev _ L) as (n' & L' & O & Hs & _ & _ & Hr).
  exists n'. split; [done|]. split; [done|]. split; [unfold pending; by rewrite Hs, map_size_empty|].
  intros i Hin Hno. assert (i.1.1 ∈ (Shared.replies (shared (client n'))).*1) as Hc.
  { rewrite Hr. unfold chans_of. by apply (list_elem_of_fmap_2 (λ i : issue, i.1.1)). }
  apply list_elem_of_fmap in Hc as ([c r] & E & Hc). cbn in E. subst c.
  destruct (lively_tied export Hd HD n' L') as (log & told & k & j & T).
  assert (∀ i', i' ∈ issued (client n') → i'.1.1 = i.1.1 → i' = i) as Hone.
  { intros i' Hi' Ec. apply (NoDup_fmap_eq (λ i : issue, i.1.1) (issued (client n'))); [|done| |done].
    - apply (ok_issued _ _ (t_ok _ _ _ _ _ _ T)).
    - by rewrite (on_issued _ _ _ O). }
  destruct (reachable_replied export n' (l_run _ _ L') (l_open _ _ L') _ _ Hc) as [[ret ->]|[st ->]].
  - destruct (reply_true export Hd _ _ _ _ _ T (l_fair _ _ L') _ ret Hc) as (i' & comp & Hi' & Ec & -> & Hend & _).
    rewrite (Hone _ Hi' Ec) in *. exists comp. split; [done|]. split; [done|].
    destruct (f_replies _ _ _ (t_faithful _ _ _ _ _ _ T) _ _ Hc) as (req & Hi & Hfit).
    assert (i.2 = req) as -> by by rewrite <- (Hone _ Hi eq_refl). apply Hfit, (l_fair _ _ L').
  - exfalso. destruct (v_cancelled _ _ _ _ _ (t_view _ _ _ _ _ _ T) _ _ Hc) as (_ & i' & u & Hi' & Ec & Hm).
    rewrite (Hone _ Hi' Ec) in Hm.
    pose proof (tied_coherent _ Hd _ _ _ _ _ T (l_fair _ _ L')) as C.
    assert ((u, i.1.2) ∈ omap unlink_pair log) as (cmd & Hcmd & Epair)%list_elem_of_omap.
    { apply (c_unlinks _ _ _ _ C u i.1.2 true). by eapply elem_of_sublist, sublist_take. }
    destruct cmd as [|cmd]; [done|]. injection Epair as _ Et. apply (Hno cmd Et).
    assert (Shared.frames (shared (client n')) = Shared.frames (shared (client n))) as <- by apply O.
    rewrite (lo_frames _ _ (t_log _ _ _ _ _ _ T)). by apply (list_elem_of_fmap_2 encode_command log (CUnlink cmd)).
Qed.

(** The engine takes a reply for the transfer at the head, and completes its message with it. *)
Lemma reply_taken (e : engine) key ep f rest ret :
  Engine.endpoints e !! key = Some ep → active (Endpoint.ring ep) = true →
  Endpoint.in_flight ep = f :: rest → InFlight.message f = (current (Endpoint.ring ep)).1 →
  roomy 32 e → described e →
  ∃ messages e' ep' x more, finish messages key (InFlight.token f) (Ok ret) e = Done e' ∧ described e' ∧
    Engine.endpoints e' !! key = Some ep' ∧
    Recorded.log (Endpoint.ring ep') = Recorded.log (Endpoint.ring ep) ++ x :: more ∧
    Entry.before x = Recorded.inner (Endpoint.ring ep) ∧
    Entry.accepted x = (ring_complete (Entry.status x) (Entry.data x) (Entry.len x)
                          (Recorded.inner (Endpoint.ring ep))).1 ∧
    Entry.status x = (outcome_of f (Ok ret)).1.1 ∧
    (InFlight.direction f = Direction.Out → Entry.data x = []) ∧
    unaltered f (Ok ret) (Entry.data x) (Entry.len x).
Proof.
  intros He Ha Ef Hm Hroom Hdesc. set (messages := queued (Endpoint.ring ep)).
  destruct (finish_settles messages key (InFlight.token f) (Ok ret) e)
    as [[Hno _]|(_ & e1 & e' & ls & Harr & Hfin & Hs & Hset)]; [|done|..].
  { intros ep1 Hep1. rewrite He in Hep1. by injection Hep1 as <-. }
  { exfalso. specialize (Hno ep He). rewrite Ef in Hno. by apply Forall_cons in Hno as [[] _]. }
  pose proof (head_arrives _ _ e e1 ep f rest He Ef Harr) as He1.
  assert (resolved_head key (Endpoint.set_in_flight (InFlight.set_result (Ok ret) f :: rest) ep)
    (InFlight.set_result (Ok ret) f) e1) as Hh by (split; [done|done|by eexists|done|done]).
  destruct (head_applied _ _ _ _ _ _ Hh Hs Hset) as (l & ls' & -> & res & st & data & len & [= <-] & -> & -> & Hout & Hun).
  pose proof (psteps_log _ _ _ _ key Hs) as Hlog. rewrite He1 in Hlog.
  destruct (Engine.endpoints e' !! key) as [ep'|] eqn:He'; [|done]. injection Hlog as Hlog.
  cbn in Hlog. rewrite decide_True in Hlog by done.
  exists messages, e', ep'. eexists _, _. split; [done|]. split.
  { eapply (described_psteps key); [done|]. by eapply described_arrives. }
  split; [done|]. split; [exact Hlog|]. split; [done|]. split; [|done]. cbn.
  by destruct (ring_complete _ _ _ (Recorded.inner (Endpoint.ring ep))).
Qed.


End Spec.

(** ** A run: a bulk read that has just been submitted *)

Import Reference Echo Peering.

(** A ring of bulk reads: their addresses and lengths. *)
Module ReadQueue.

Record t : Type := mk { on : bool; messages : list (Z * Z) }.

Definition transfer (m : Z * Z) : Transfer.t := Transfer.Normal (wrap 28 m.2).

#[export] Instance ring : Ring t := {
  active := on;
  current r := match messages r with m :: _ => (m.1, Some (transfer m)) | [] => (0, None) end;
  peek n r := (λ m, (m.1, transfer m)) <$> messages r !! n;
  read _ len _ := replicate len 0;
  ring_complete _ _ _ r :=
    match on r, messages r with
    | true, _ :: ms => (true, mk true ms)
    | _, _ => (false, r)
    end;
}.

#[export] Instance laws : RingLaws t.
Proof.
  refine {| queued r := length (messages r) |}.
  intros st data len [[|] [|m ms]] r'; cbn; try done. intros [= <-]. cbn. lia.
Defined.

#[export] Instance reads : TransferLaws t.
Proof.
  assert (∀ m, transfer_ok (transfer m)) as Hok by (intros m; by apply wrap_is_u).
  split; cbn.
  - intros r m t H. split; [|intros; by rewrite length_replicate].
    destruct (messages r) as [|m' ms]; [done|]. by injection H as _ <-.
  - intros k r m t (m' & _ & [= _ ->])%fmap_Some. split; [done|]. intros. by rewrite length_replicate.
Defined.

End ReadQueue.

Import ReadQueue.

Module ProgressRun.

Notation session := ((ExportDev.t * net pipe) * list Z)%type.
Notation engine_state := (Engine.t session (Recorded.t ReadQueue.t)).

Definition key : EndpointKey := (1, 0x81).
Definition queue : ReadQueue.t := ReadQueue.mk true [(0x1000, 4)].
Definition s0 : session := ((Samples.export, start_net), []).

Definition get (d : engine_state) (m : outcome engine_state) : engine_state :=
  match m with Done a => a | _ => d end.

Definition e0 : engine_state := new s0.
Definition e1 : engine_state := get e0 (add_endpoint key FairRun.info (Recorded.mk queue []) e0).
Definition e2 : engine_state := get e1 (doorbell 1 key e1).

Definition f0 : InFlight.t := flight_of e1 0x1000 FairRun.req Stage.Normal 1.
Definition ep1 : Endpoint.t (Recorded.t ReadQueue.t) :=
  Endpoint.mk (Recorded.mk queue []) FairRun.info [] None None.
Definition ep2 : Endpoint.t (Recorded.t ReadQueue.t) := Endpoint.set_in_flight [f0] ep1.

Lemma tended_e2 : tended s0 [] e2.
Proof.
  change ([] : list (event ReadQueue.t session)) with (([] ++ []) ++ [] : list (event ReadQueue.t session)).
  eapply tended_step; [eapply tended_step; [apply tended_new|..]|..].
  - apply (c_add (ST := alone) key FairRun.info queue e0 e1). vm_compute. reflexivity.
  - by intros w r e ?%elem_of_nil.
  - by apply (described_one key ep1), FairRun.info_described.
  - apply (c_doorbell (ST := alone) 1 key e1 e2). vm_compute. reflexivity.
  - by intros w r e ?%elem_of_nil.
  - apply (described_one key ep2); [vm_compute; reflexivity|apply FairRun.info_described].
Qed.

Lemma connected_e2 : connected (Engine.session e2).1.2.
Proof.
  constructor; try (vm_compute; congruence); try (vm_compute; by eexists).
  assert (bool_decide (Forall is_Some (Conn.tx (server (Engine.session e2).1.2)))) as H by (vm_compute; done).
  exact (bool_decide_unpack _ H).
Qed.

(** The only frame is the request's. *)
Lemma not_unlinked : never_unlinked 1 (Engine.session e2).1.2.
Proof.
  assert (∃ frame, Shared.frames (shared (client (Engine.session e2).1.2)) = [frame] ∧ at_ frame 3 = 1)
    as (frame & Ef & E3) by (eexists; split; vm_compute; reflexivity).
  intros c _. rewrite Ef. intros Hin%list_elem_of_singleton. subst frame.
  vm_compute in E3. discriminate E3.
Qed.

End ProgressRun.

