(* ===== verification/HostSpec.v ===== *)
(** * HostSpec: what the driver promises (src/src/host.rs)

    [EngineLaws] is what the driver relies on of the engine; [Engine.t] keeps it.  [FrameworkLog]
    tells which answers and frames the framework has been given; any framework keeps it once its
    calls are written down.  The theorems hold for every sequence of commands, doorbells and frame
    updates. *)

From stdpp Require Import base tactics option list gmap fin_maps relations sorting.
From S2P Require Import Prelude Wire Protocol Hci HciFacts Session Engine EngineFacts EngineSteps EngineLive Host HostFacts.

Class EngineLaws (G : Type) {EO : EngineOps G} := {
  has : EndpointKey → G → Prop;
  reset_device_has g x g' : engine_reset_device g = Done (x, g') → ∀ k, has k g' ↔ has k g;
  add_has key info h g g' : engine_add_endpoint key info h g = Done g' →
    ∀ k, has k g' ↔ k = key ∨ has k g;
  update_has key info g g' : engine_update_endpoint key info g = Done g' → ∀ k, has k g' ↔ has k g;
  remove_has key g g' : engine_remove_endpoint key g = Done g' → ∀ k, has k g' ↔ k ≠ key ∧ has k g;
  remove_device_has d g g' : engine_remove_device d g = Done g' → ∀ k, has k g' ↔ k.1 ≠ d ∧ has k g;
  reset_has key g g' : engine_reset_endpoint key g = Done g' → ∀ k, has k g' ↔ has k g;
  pause_has key g g' : engine_pause_endpoint key g = Done g' → ∀ k, has k g' ↔ has k g;
  sync_has key g g' : engine_sync_endpoint key g = Done g' → ∀ k, has k g' ↔ has k g;
  doorbell_has key g g' : engine_doorbell key g = Done g' → ∀ k, has k g' ↔ has k g;
}.

Class FrameworkLog (M : Type) {FW : Framework M} := {
  responses : M → list (RawMessage.t * CiStatus.t);
  frames : M → list Z;
  respond_log mac msg s m : responses (respond mac msg s m).2 = responses m ++ [(msg, s)] ∧
    frames (respond mac msg s m).2 = frames m;
  respond_frame_log msg s f t m : responses (respond_frame msg s f t m).2 = responses m ++ [(msg, s)] ∧
    frames (respond_frame msg s f t m).2 = frames m ++ [f];
  respond_address_log sm msg s a m :
    responses (respond_address sm msg s a m).2 = responses m ++ [(msg, s)] ∧
    frames (respond_address sm msg s a m).2 = frames m;
  updated_frame_log f t m : responses (enqueue_updated_frame f t m).2 = responses m ∧
    frames (enqueue_updated_frame f t m).2 = frames m ++ [f];
  inspect_log mac msg m : responses (inspect_command mac msg m).2 = responses m ∧
    frames (inspect_command mac msg m).2 = frames m;
  link_log p s m : responses (update_link_state p s m).2 = responses m ∧
    frames (update_link_state p s m).2 = frames m;
  init_device_log msg m : responses (init_device msg m).2 = responses m ∧
    frames (init_device msg m).2 = frames m;
  init_endpoint_log msg m : responses (init_endpoint msg m).2 = responses m ∧
    frames (init_endpoint msg m).2 = frames m;
  process_doorbell_log sm d m : responses (process_doorbell sm d m).2 = responses m ∧
    frames (process_doorbell sm d m).2 = frames m;
  time_log m : responses (mach_absolute_time m).2 = responses m ∧
    frames (mach_absolute_time m).2 = frames m;
}.

(** Any framework, with what it was given written down. *)
Module LoggedFramework.
Section Logged.
Context {M : Type} {FW : Framework M}.

Definition state : Type := M * list (RawMessage.t * CiStatus.t) * list Z.

Definition quiet {A} (f : M → A * M) (m : state) : A * state :=
  let '(x, m1) := f m.1.1 in (x, (m1, m.1.2, m.2)).

#[global] Instance ops : Framework state := {
  inspect_command mac msg := quiet (inspect_command mac msg);
  respond mac msg s m := let '(x, m1) := respond mac msg s m.1.1 in (x, (m1, m.1.2 ++ [(msg, s)], m.2));
  respond_frame msg s f t m :=
    let '(x, m1) := respond_frame msg s f t m.1.1 in (x, (m1, m.1.2 ++ [(msg, s)], m.2 ++ [f]));
  respond_address sm msg s a m :=
    let '(x, m1) := respond_address sm msg s a m.1.1 in (x, (m1, m.1.2 ++ [(msg, s)], m.2));
  controller_active m := controller_active m.1.1;
  enqueue_updated_frame f t m :=
    let '(x, m1) := enqueue_updated_frame f t m.1.1 in (x, (m1, m.1.2, m.2 ++ [f]));
  port_for_command msg m := port_for_command msg m.1.1;
  update_link_state p s := quiet (update_link_state p s);
  init_device msg := quiet (init_device msg);
  init_endpoint msg := quiet (init_endpoint msg);
  endpoint_key sm m := endpoint_key sm m.1.1;
  process_doorbell sm d := quiet (process_doorbell sm d);
  mach_absolute_time := quiet mach_absolute_time;
  memory p n m := memory p n m.1.1;
}.

Lemma quiet_log {A} (f : M → A * M) (m : state) : (quiet f m).2.1.2 = m.1.2 ∧ (quiet f m).2.2 = m.2.
Proof. unfold quiet. by destruct (f m.1.1). Qed.

#[global] Instance log : FrameworkLog state.
Proof.
  refine {| responses (m : state) := m.1.2; frames (m : state) := m.2 |};
    intros; try apply quiet_log; cbn.
  - by destruct (respond _ _ _ _).
  - by destruct (respond_frame _ _ _ _ _).
  - by destruct (respond_address _ _ _ _ _).
  - by destruct (enqueue_updated_frame _ _ _).
Defined.

End Logged.
End LoggedFramework.

(** ** The engine as the driver sees it *)

Module EngineForHost.
Section EngineForHost.
Context {S : Type} {SO : SessionOps S} {E : Type} {EM : EndpointMachine E}.

(** [io_ring] is the state machine a handle refers to; [messages] bounds what a ring holds; [await] is
    how waiting for the reply to a reset ends. *)
Context (io_ring : handle → E) (messages : nat) (await : chan → option TransferResult).

Definition ops : EngineOps (Engine.t S E) := {|
  engine_reset_device := reset_device await;
  engine_add_endpoint key info h := add_endpoint key info (io_ring h);
  engine_update_endpoint key info g := Done (update_endpoint key info g);
  engine_remove_endpoint := remove_endpoint;
  engine_remove_device := remove_device;
  engine_reset_endpoint := reset_endpoint;
  engine_pause_endpoint := pause_endpoint;
  engine_sync_endpoint := sync_endpoint;
  engine_doorbell := doorbell messages;
|}.

Definition present (key : EndpointKey) (e : Engine.t S E) : Prop :=
  is_Some (Engine.endpoints e !! key).

Lemma insert_same {A} (m : gmap EndpointKey A) key x y k :
  m !! key = Some x → is_Some (<[key := y]> m !! k) ↔ is_Some (m !! k).
Proof.
  intros Hx. destruct (decide (k = key)) as [->|Hk].
  - rewrite lookup_insert_eq, Hx. split; by eexists.
  - by rewrite lookup_insert_ne.
Qed.

Lemma psteps_present key ls (e e' : Engine.t S E) :
  psteps key ls e e' → ∀ k, present k e' ↔ present k e.
Proof.
  induction 1 as [|ls1 ls2 e1 e2 e3 H _ IH]; intros k; [done|]. rewrite IH. clear IH.
  by destruct H; [eapply insert_same..|].
Qed.

Lemma unlink_all_present fs (e e' : Engine.t S E) :
  unlink_all fs e = Done e' → Engine.endpoints e' = Engine.endpoints e.
Proof. by intros (s & _ & ->)%unlink_all_inv. Qed.

Lemma pump_present key (e e' : Engine.t S E) :
  pump messages key e = Done e' → ∀ k, present k e' ↔ present k e.
Proof. intros (ls & H & _)%pump_loop_steps. by eapply psteps_present. Qed.

#[local] Existing Instance ops.

Definition laws : EngineLaws (Engine.t S E).
Proof.
  refine {| has := present |}; cbn -[present].
  - intros g x g'. unfold reset_device. destruct (session_submit _ _) as [[y s]| |]; try done.
    cbn [mbind outcome_bind]. intros H k. by repeat case_match; simplify_eq.
  - intros key info h g g'. unfold add_endpoint, present. intros H k.
    destruct (Engine.endpoints g !! key) as [old|] eqn:E1.
    + apply unlink_all_present in H as ->. cbn. rewrite (insert_same _ _ old) by done.
      split; [by right|intros [->|]; [by eexists|done]].
    + injection H as <-. cbn. destruct (decide (k = key)) as [->|Hk].
      * rewrite lookup_insert_eq. split; [by left|by eexists].
      * rewrite lookup_insert_ne by done. naive_solver.
  - intros key info g g' [= <-] k. unfold update_endpoint.
    destruct (Engine.endpoints g !! key) eqn:E1; [|done]. by eapply insert_same.
  - intros key g g'. unfold remove_endpoint, present. intros H k.
    assert (Engine.endpoints g' = delete key (Engine.endpoints g)) as ->.
    { destruct (Engine.endpoints g !! key); [by apply unlink_all_present in H|by injection H as <-]. }
    destruct (decide (k = key)) as [->|Hk].
    + rewrite lookup_delete_eq. split; [by intros []|naive_solver].
    + rewrite lookup_delete_ne by done. naive_solver.
  - intros d g g'. intros H k. unfold present. rewrite (remove_device_endpoints d g g' k H).
    case_decide; split; [by intros []|naive_solver..].
  - intros key g g'. unfold reset_endpoint, present. intros H k.
    destruct (Engine.endpoints g !! key) as [ep|] eqn:E1; [|by injection H as <-].
    apply unlink_all_present in H as ->. by eapply insert_same.
  - intros key g g'. unfold pause_endpoint, present. intros H k.
    case_match; [by injection H as <-|].
    destruct (Engine.endpoints g !! key) as [ep|] eqn:E1; [|by injection H as <-].
    destruct (pause_flights _ _) as [[fs s]| |]; try done. injection H as <-. by eapply insert_same.
  - intros key g g'. unfold sync_endpoint, present. intros H k.
    destruct (Engine.endpoints g !! key) as [ep|] eqn:E1; [|by injection H as <-].
    destruct (Endpoint.in_flight ep); [by injection H as <-|].
    case_match; [|by injection H as <-].
    apply unlink_all_present in H as ->. by eapply insert_same.
  - intros key g g'. apply pump_present.
Defined.

End EngineForHost.
End EngineForHost.

(** ** The driver *)

Section Driver.
Context {M : Type} {FW : Framework M} {FL : FrameworkLog M}.
Context {G : Type} {EO : EngineOps G} {EL : EngineLaws G}.
Context (clock_fuel : nat).

Notation controller := (Controller.t G M).
Import Controller PoolFacts.

(** *** Devices, endpoints and addresses agree *)

Record registry (h : controller) : Prop := {
  reg_pool : wf (addresses h);
  reg_address a : taken (addresses h) a ↔ is_Some (devices h !! a);
  reg_engine key : has key (engine h) ↔ is_Some (endpoints h !! key);
  reg_enumerated : devices h ≠ ∅ → enumerated h = true;
}.

Lemma registry_call {A} (f : M → A * M) h : registry h → registry (call f h).2.
Proof. unfold call. destruct (f (framework h)). by intros []. Qed.

Lemma call_fst {A} (f : M → A * M) (h : controller) : (call f h).1 = (f (framework h)).1.
Proof. unfold call. by destruct (f (framework h)). Qed.

Lemma registry_engine_call f h h' :
  (∀ g g', f g = Done g' → ∀ k, has k g' ↔ has k g) →
  engine_call f h = Done h' → registry h → registry h'.
Proof.
  unfold engine_call. intros Hf. destruct (f (engine h)) as [g| |] eqn:E; try done.
  intros [= <-] []. split; try done. intros key. cbn. by rewrite (Hf _ _ E).
Qed.

(** [answer] keeps what its three parts keep. *)
Lemma answer_keeps (P : controller → Prop) inspect (respond : CiStatus.t → controller → bool * controller)
    act h x h' :
  (∀ h, P h → P (inspect h).2) → (∀ s h, P h → P (respond s h).2) →
  (∀ h x h', act h = Done (x, h') → P h → P h') →
  answer inspect respond act h = Done (x, h') → P h → P h'.
Proof.
  intros Hi Hr Ha. unfold answer. intros H HP. specialize (Hi h HP).
  destruct (inspect h) as [inspected h1]. cbn [snd] in Hi.
  destruct inspected; cbn [negb] in H.
  - destruct (act h1) as [[r h2]| |] eqn:Eact; try done. cbn [mbind outcome_bind] in H.
    pose proof (Ha _ _ _ Eact Hi) as H2.
    specialize (Hr (if is_ok r then CiStatus.Success else CiStatus.Error) h2 H2).
    destruct (respond _ h2) as [b h3]. by injection H as _ <-.
  - specialize (Hr CiStatus.Error h1 Hi). destruct (respond _ h1) as [b h3]. by injection H as _ <-.
Qed.

Lemma clock_next_registry h f t h' : clock_next clock_fuel h = Done (f, t, h') → registry h → registry h'.
Proof.
  unfold clock_next. destruct (FrameClock.next _ _ _) as [[[[f1 t1] c] m]| |]; try done.
  intros [= _ _ <-]. by intros [].
Qed.

Lemma nothing_keeps (P : controller → Prop) h x h' : nothing h = Done (x, h') → P h → P h'.
Proof. by intros [= _ <-]. Qed.

Lemma reset_port_registry port h x h' : reset_port port h = Done (x, h') → registry h → registry h'.
Proof.
  unfold reset_port. intros H Hr.
  assert (∃ h1, registry h1 ∧ ('(ok, h) ← Done (call (update_link_state port (speed h1)) h1);
    Done (ns ok, h)) = Done (x, h')) as (h1 & H1 & H2).
  { destruct (enumerated h).
    - destruct (engine_reset_device (engine h)) as [[r g]| |] eqn:E; try done.
      exists (set_engine g h). split; [|exact H].
      destruct Hr. split; try done. intros key. cbn. by rewrite (reset_device_has _ _ _ E).
    - by exists h. }
  cbn [mbind outcome_bind] in H2. pose proof (registry_call (update_link_state port (speed h1)) h1 H1) as H3.
  destruct (call _ h1) as [b h2]. by injection H2 as _ <-.
Qed.

Lemma pause_keys_registry keys h h' : pause_keys keys h = Done h' → registry h → registry h'.
Proof.
  revert h. induction keys as [|key keys IH]; intros h; cbn [pause_keys]; [by intros [= <-]|].
  destruct (engine_call _ h) as [h1| |] eqn:E; try done. cbn [mbind outcome_bind]. intros H Hr.
  eapply IH; [exact H|]. eapply registry_engine_call; [|exact E|done]. apply pause_has.
Qed.

Lemma device_destroy_registry address h h' :
  is_u 8 address → device_destroy address h = Done h' → registry h → registry h'.
Proof.
  intros Ha. unfold device_destroy, engine_call.
  destruct (engine_remove_device address (engine h)) as [g| |] eqn:E; try done.
  cbn [mbind outcome_bind]. intros [= <-] [Hp Hadr He Hen].
  destruct (release_props (addresses h) address Hp Ha) as [Hp' Ht].
  split; cbn; [done|..].
  - intros a. rewrite Ht, Hadr. destruct (decide (a = address)) as [->|Hne].
    + rewrite lookup_delete_eq. split; [naive_solver|by intros []].
    + rewrite lookup_delete_ne by done. naive_solver.
  - intros key. rewrite (remove_device_has _ _ _ E), He. split.
    + intros [? [sm Hsm]]. exists sm. by apply map_lookup_filter_Some.
    + intros [sm [Hsm ?]%map_lookup_filter_Some]. split; [done|by exists sm].
  - intros Hne. apply Hen. intros E0. apply Hne. by rewrite E0, delete_empty.
Qed.

(** *** Each arm of [command] *)

Lemma device_create_registry msg h x h' : device_create msg h = Done (x, h') → registry h → registry h'.
Proof.
  unfold device_create. intros H Hr. pose proof (registry_call (init_device msg) h Hr) as H1.
  destruct (call (init_device msg) h) as [[sm|] h1]; cbn [snd] in H1; [|by injection H as _ <-].
  pose proof (allocate_props (addresses h1) (reg_pool _ H1)) as Hal.
  destruct (AddressPool.allocate (addresses h1)) as [[address pool]|].
  2: { pose proof (registry_call (respond (DeviceMachine sm) msg CiStatus.NoResources) h1 H1) as H2.
       destruct (call _ h1). by injection H as _ <-. }
  destruct Hal as (Ha & Hn & _ & Hp & _ & Ht).
  unfold call in H. cbn [framework set_addresses] in H.
  destruct (respond_address sm msg CiStatus.Success address (framework h1)) as [ok m].
  destruct H1 as [Hp1 Hadr He Hen]. destruct ok; cbn [negb] in H; injection H as _ <-; split; cbn; try done.
  - intros a. rewrite Ht, Hadr. destruct (decide (a = address)) as [->|Hne].
    + rewrite lookup_insert_eq. split; [by eexists|by left].
    + rewrite lookup_insert_ne by done. naive_solver.
  - by apply release_props; [|split; lia].
  - intros a. destruct (release_props pool address Hp ltac:(split; lia)) as [_ Hrel].
    rewrite Hrel, Ht, Hadr. split; [naive_solver|]. intros Hs. split; [by right|].
    intros ->. by apply Hn, Hadr.
Qed.

Lemma device_command_registry kind msg h x h' :
  device_command kind msg h = Done (x, h') → registry h → registry h'.
Proof.
  unfold device_command. destruct (devices h !! _) as [sm|]; [|by intros [= _ <-]].
  apply answer_keeps; [intros; by apply registry_call..|]. intros h1 r h2. unfold act_ok.
  assert (is_u 8 (RawMessage.device_address msg)) as Ha by (apply wrap_is_u; lia).
  destruct (kind =? message_type.DEVICE_DESTROY); [|destruct (kind =? message_type.DEVICE_PAUSE)].
  - destruct (device_destroy _ h1) as [h3| |] eqn:E; try done. intros [= _ <-].
    by eapply device_destroy_registry.
  - unfold device_pause. destruct (pause_keys _ h1) as [h3| |] eqn:E; try done. intros [= _ <-].
    by eapply pause_keys_registry.
  - by intros [= _ <-].
Qed.

Lemma endpoint_create_registry msg h x h' :
  endpoint_create msg h = Done (x, h') → registry h → registry h'.
Proof.
  unfold endpoint_create. intros H Hr. pose proof (registry_call (init_endpoint msg) h Hr) as H1.
  destruct (call (init_endpoint msg) h) as [[sm|] h1]; cbn [snd] in H1; [|by injection H as _ <-].
  pose proof (registry_call (respond (EndpointMachineOf sm) msg CiStatus.Success) h1 H1) as H2.
  destruct (call _ h1) as [ok h2]; cbn [snd] in H2. destruct ok; cbn [negb] in H; [|by injection H as _ <-].
  destruct (endpoint_descriptor msg (framework h2)) as [info| |]; try done.
  cbn [mbind outcome_bind] in H. unfold engine_call in H. cbn [engine set_endpoints] in H.
  set (key := (wrap 8 _, wrap 8 _)) in H.
  destruct (engine_add_endpoint key info sm (engine h2)) as [g| |] eqn:E; try done.
  cbn [mbind outcome_bind] in H. injection H as _ <-. destruct H2 as [Hp Hadr He Hen].
  split; cbn; try done. intros k. rewrite (add_has _ _ _ _ _ E), He.
  destruct (decide (k = key)) as [->|Hne].
  - rewrite lookup_insert_eq. split; [by eexists|by left].
  - rewrite lookup_insert_ne by done. naive_solver.
Qed.

Lemma endpoint_act_registry kind key msg h h' :
  endpoint_act kind key msg h = Done h' → registry h → registry h'.
Proof.
  unfold endpoint_act. destruct (kind =? _).
  { unfold engine_call. destruct (engine_remove_endpoint key (engine h)) as [g| |] eqn:E; try done.
    cbn [mbind outcome_bind]. intros [= <-] [Hp Hadr He Hen]. split; cbn; try done.
    intros k. rewrite (remove_has _ _ _ E), He. destruct (decide (k = key)) as [->|Hne].
    - rewrite lookup_delete_eq. split; [naive_solver|by intros []].
    - rewrite lookup_delete_ne by done. naive_solver. }
  destruct (kind =? _); [apply registry_engine_call, pause_has|].
  destruct (kind =? _).
  { destruct (endpoint_descriptor msg (framework h)) as [info| |]; try done. cbn [mbind outcome_bind].
    apply registry_engine_call, update_has. }
  destruct (kind =? _); [apply registry_engine_call, reset_has|by intros [= <-]].
Qed.

Lemma endpoint_command_registry kind msg h x h' :
  endpoint_command kind msg h = Done (x, h') → registry h → registry h'.
Proof.
  unfold endpoint_command. destruct (endpoints h !! _) as [sm|]; [|by intros [= _ <-]].
  destruct (answer _ _ _ h) as [[r h1]| |] eqn:Ea; try done. cbn [mbind outcome_bind]. intros H Hr.
  assert (registry h1) as H1.
  { revert Ea Hr. apply answer_keeps; [intros; by apply registry_call..|]. intros h2 r2 h3. unfold act_ok.
    destruct (endpoint_act _ _ _ h2) as [h4| |] eqn:E; try done. intros [= _ <-].
    by eapply endpoint_act_registry. }
  destruct (is_ok r && _); [|by injection H as _ <-].
  destruct (engine_call _ h1) as [h2| |] eqn:E; try done. injection H as _ <-.
  eapply registry_engine_call; [|exact E|done]. apply sync_has.
Qed.

Lemma command_registry msg h x h' :
  command clock_fuel msg h = Done (x, h') → registry h → registry h'.
Proof.
  unfold command. repeat (case_match; [|]).
  - apply answer_keeps; [intros; by apply registry_call..|]. intros *. apply nothing_keeps.
  - unfold frame_number_command. destruct (clock_next _ h) as [[[f t] h1]| |] eqn:E; try done.
    cbn [mbind outcome_bind]. intros Ha Hr. apply clock_next_registry in E; [|done]. revert Ha E.
    apply answer_keeps; [intros; by apply registry_call..|]. intros *. apply nothing_keeps.
  - unfold port_command. destruct (port_for_command _ _) as [port|]; [|by intros [= _ <-]].
    destruct (answer _ _ _ h) as [[r h1]| |] eqn:Ea; try done. cbn [mbind outcome_bind]. intros [= _ <-] Hr.
    assert (registry h1) as Hr1.
    { revert Ea Hr. apply answer_keeps; [intros; by apply registry_call..|]. intros h2 r2 h3.
      case_match; [apply reset_port_registry|apply nothing_keeps]. }
    destruct (is_ok r && _); [|done]. destruct Hr1. by split.
  - apply device_create_registry.
  - apply device_command_registry.
  - apply endpoint_create_registry.
  - apply endpoint_command_registry.
  - apply nothing_keeps.
Qed.

(** *** What the framework is told *)

(** From [h] to [h'] the framework is given the answers [rs] and the frames [fs]. *)
Record told (h h' : controller) (rs : list (RawMessage.t * CiStatus.t)) (fs : list Z) : Prop := {
  told_responses : responses (framework h') = responses (framework h) ++ rs;
  told_frames : frames (framework h') = frames (framework h) ++ fs;
  told_clock : clock h' = clock h;
}.

(** Nothing is told. *)
Notation silent h h' := (told h h' [] []).

Lemma silent_same h h' : framework h' = framework h → clock h' = clock h → silent h h'.
Proof. intros E1 E2. split; rewrite ?E1, ?app_nil_r; done. Qed.

Lemma told_trans h1 h2 h3 rs fs rs' fs' :
  told h1 h2 rs fs → told h2 h3 rs' fs' → told h1 h3 (rs ++ rs') (fs ++ fs').
Proof.
  intros [Hr Hf Hc] [Hr' Hf' Hc']. split; [by rewrite Hr', Hr, (assoc_L (++))|
    by rewrite Hf', Hf, (assoc_L (++))|congruence].
Qed.

Lemma silent_l h1 h2 h3 rs fs : silent h1 h2 → told h2 h3 rs fs → told h1 h3 rs fs.
Proof. apply told_trans. Qed.

Lemma silent_r h1 h2 h3 rs fs : told h1 h2 rs fs → silent h2 h3 → told h1 h3 rs fs.
Proof. intros H1 H2. pose proof (told_trans _ _ _ _ _ _ _ H1 H2) as H. by rewrite !app_nil_r in H. Qed.

Lemma call_told {A} (f : M → A * M) (h : controller) rs fs :
  responses (f (framework h)).2 = responses (framework h) ++ rs →
  frames (f (framework h)).2 = frames (framework h) ++ fs → told h (call f h).2 rs fs.
Proof. unfold call. destruct (f (framework h)) as [x m]. intros Hr Hf. by split. Qed.

Lemma call_silent {A} (f : M → A * M) (h : controller) :
  (∀ m, responses (f m).2 = responses m ∧ frames (f m).2 = frames m) → silent h (call f h).2.
Proof. intros Hf. destruct (Hf (framework h)). apply call_told; by rewrite app_nil_r. Qed.

Lemma engine_call_silent f (h h' : controller) : engine_call f h = Done h' → silent h h'.
Proof. unfold engine_call. destruct (f (engine h)); try done. intros [= <-]. by apply silent_same. Qed.

Lemma respond_told mac msg s (h : controller) : told h (call (respond mac msg s) h).2 [(msg, s)] [].
Proof. destruct (respond_log mac msg s (framework h)). apply call_told; by rewrite ?app_nil_r. Qed.

(** [answer] sends exactly one answer; the status is success exactly when [act] ran and succeeded. *)
Lemma answer_told mac msg respond' fs act (h : controller) x h' :
  (∀ s h, told h (respond' s h).2 [(msg, s)] fs) →
  (∀ h x h', act h = Done (x, h') → silent h h') →
  answer (call (inspect_command mac msg)) respond' act h = Done (x, h') →
  ∃ s, told h h' [(msg, s)] fs ∧ (x = Ok tt → s = CiStatus.Success) ∧
    (s = CiStatus.Success → x = Ok tt ∨ x = Err FrameworkError).
Proof.
  intros Hr Ha. unfold answer. pose proof (call_silent (inspect_command mac msg) h (inspect_log mac msg)) as Hi.
  destruct (call (inspect_command mac msg) h) as [inspected h1]. cbn [snd] in Hi.
  destruct inspected; cbn [negb].
  - destruct (act h1) as [[r h2]| |] eqn:Eact; try done. cbn [mbind outcome_bind].
    apply Ha in Eact. set (s := if is_ok r then _ else _). specialize (Hr s h2).
    destruct (respond' s h2) as [ok h3]. intros [= <- <-]. exists s.
    split; [eapply silent_l; [done|]; by eapply silent_l|]. unfold s.
    split; destruct ok, r as [[]|e]; cbn; naive_solver.
  - specialize (Hr CiStatus.Error h1). destruct (respond' CiStatus.Error h1) as [ok h3].
    intros [= <- <-]. exists CiStatus.Error. split; [by eapply silent_l|]. naive_solver.
Qed.

Lemma nothing_silent (h : controller) x h' : nothing h = Done (x, h') → silent h h'.
Proof. intros [= _ <-]. by apply silent_same. Qed.

Lemma reset_port_silent port (h : controller) x h' : reset_port port h = Done (x, h') → silent h h'.
Proof.
  unfold reset_port. intros H.
  assert (∃ h1, silent h h1 ∧ ('(ok, h) ← Done (call (update_link_state port (speed h1)) h1);
    Done (ns ok, h)) = Done (x, h')) as (h1 & H1 & H2).
  { destruct (enumerated h).
    - destruct (engine_reset_device (engine h)) as [[r g]| |] eqn:E; try done.
      exists (set_engine g h). split; [by apply silent_same|exact H].
    - exists h. split; [by apply silent_same|exact H]. }
  cbn [mbind outcome_bind] in H2.
  pose proof (call_silent _ h1 (link_log port (speed h1))) as H3.
  destruct (call _ h1) as [b h2]. injection H2 as _ <-. by eapply silent_l.
Qed.

Lemma pause_keys_silent keys (h h' : controller) : pause_keys keys h = Done h' → silent h h'.
Proof.
  revert h. induction keys as [|key keys IH]; intros h; cbn [pause_keys];
    [intros [= <-]; by apply silent_same|].
  destruct (engine_call _ h) as [h1| |] eqn:E; try done. cbn [mbind outcome_bind]. intros H%IH.
  eapply silent_l; [|done]. by eapply engine_call_silent.
Qed.

Lemma act_ok_silent f (h : controller) x h' :
  (∀ h h', f h = Done h' → silent h h') → act_ok f h = Done (x, h') → silent h h'.
Proof. unfold act_ok. intros Hf. destruct (f h) eqn:E; try done. intros [= _ <-]. auto. Qed.

Lemma device_destroy_silent address (h h' : controller) : device_destroy address h = Done h' → silent h h'.
Proof.
  unfold device_destroy. destruct (engine_call _ h) as [h1| |] eqn:E; try done.
  apply engine_call_silent in E. intros [= <-]. eapply silent_r; [done|]. by apply silent_same.
Qed.

Lemma endpoint_act_silent kind key msg (h h' : controller) :
  endpoint_act kind key msg h = Done h' → silent h h'.
Proof.
  unfold endpoint_act. destruct (kind =? _).
  { destruct (engine_call _ h) as [h1| |] eqn:E; try done. apply engine_call_silent in E.
    intros [= <-]. eapply silent_r; [done|]. by apply silent_same. }
  destruct (kind =? _); [apply engine_call_silent|]. destruct (kind =? _).
  { destruct (endpoint_descriptor _ _); try done. apply engine_call_silent. }
  destruct (kind =? _); [apply engine_call_silent|]. intros [= <-]. by apply silent_same.
Qed.

(** *** Every command but these is answered *)

(** Why a command gets no answer: it is not supported, it names a device or endpoint that does not
    exist, or the framework has no state machine for it. *)
Inductive unanswered (msg : RawMessage.t) (h : controller) : result command_error () → Prop :=
| unanswered_kind :
    ¬ (message_type.CONTROLLER_POWER_ON ≤ RawMessage.message_type msg ≤
       message_type.CONTROLLER_FRAME_NUMBER) →
    ¬ (message_type.PORT_POWER_ON ≤ RawMessage.message_type msg ≤ message_type.PORT_STATUS) →
    ¬ (message_type.DEVICE_CREATE ≤ RawMessage.message_type msg ≤ message_type.DEVICE_UPDATE) →
    ¬ (message_type.ENDPOINT_CREATE ≤ RawMessage.message_type msg ≤
       message_type.ENDPOINT_SET_NEXT_TRANSFER) →
    unanswered msg h (Ok tt)
| unanswered_device :
    devices h !! RawMessage.device_address msg = None →
    unanswered msg h (Err (UnknownDevice (RawMessage.device_address msg)))
| unanswered_endpoint :
    endpoints h !! (RawMessage.device_address msg, RawMessage.endpoint_address msg) = None →
    unanswered msg h
      (Err (UnknownEndpoint (RawMessage.device_address msg, RawMessage.endpoint_address msg)))
| unanswered_machine :
    port_for_command msg (framework h) = None ∨ (init_device msg (framework h)).1 = None ∨
    (init_endpoint msg (framework h)).1 = None →
    unanswered msg h (Err FrameworkError).

Definition answered (msg : RawMessage.t) (h h' : controller) (x : result command_error ())
    (fs : list Z) : Prop :=
  (∃ s, told h h' [(msg, s)] fs ∧ (x = Ok tt → s = CiStatus.Success)) ∨
  (silent h h' ∧ fs = [] ∧ unanswered msg h x).

Lemma device_create_told msg h x h' : device_create msg h = Done (x, h') → answered msg h h' x [].
Proof.
  unfold device_create. intros H. pose proof (call_silent _ h (init_device_log msg)) as H1.
  pose proof (call_fst (init_device msg) h) as Esm.
  destruct (call (init_device msg) h) as [[sm|] h1]; cbn [fst snd] in *.
  2: { injection H as <- <-. right. split; [done|]. split; [done|]. apply unanswered_machine. auto. }
  destruct (AddressPool.allocate (addresses h1)) as [[address pool]|].
  2: { pose proof (respond_told (DeviceMachine sm) msg CiStatus.NoResources h1) as H2.
       destruct (call _ h1). injection H as <- <-. left. exists CiStatus.NoResources.
       split; [by eapply silent_l|done]. }
  set (h2 := set_addresses pool h1) in H.
  assert (told h2 (call (respond_address sm msg CiStatus.Success address) h2).2 [(msg, CiStatus.Success)] [])
    as H2.
  { destruct (respond_address_log sm msg CiStatus.Success address (framework h2)).
    apply call_told; by rewrite ?app_nil_r. }
  destruct (call _ h2) as [ok h3]. cbn [snd] in H2. left. exists CiStatus.Success.
  assert (told h h3 [(msg, CiStatus.Success)] []) as H3.
  { eapply silent_l; [done|]. eapply silent_l; [|done]. by apply silent_same. }
  destruct ok; cbn [negb] in H; injection H as <- <-;
    (split; [|done]); (eapply silent_r; [done|]); by apply silent_same.
Qed.

Lemma endpoint_create_told msg h x h' : endpoint_create msg h = Done (x, h') → answered msg h h' x [].
Proof.
  unfold endpoint_create. intros H. pose proof (call_silent _ h (init_endpoint_log msg)) as H1.
  pose proof (call_fst (init_endpoint msg) h) as Esm.
  destruct (call (init_endpoint msg) h) as [[sm|] h1]; cbn [fst snd] in *.
  2: { injection H as <- <-. right. split; [done|]. split; [done|]. apply unanswered_machine. auto. }
  pose proof (respond_told (EndpointMachineOf sm) msg CiStatus.Success h1) as H2.
  destruct (call _ h1) as [ok h2]. cbn [snd] in H2. left. exists CiStatus.Success.
  split; [|done]. eapply silent_l; [done|].
  destruct ok; cbn [negb] in H; [|by injection H as _ <-].
  destruct (endpoint_descriptor msg (framework h2)) as [info| |]; try done.
  cbn [mbind outcome_bind] in H. destruct (engine_call _ _) as [h3| |] eqn:E; try done.
  apply engine_call_silent in E. injection H as _ <-. eapply silent_r; [done|].
  eapply silent_l; [|done]. by apply silent_same.
Qed.

Lemma device_command_told kind msg h x h' :
  device_command kind msg h = Done (x, h') → answered msg h h' x [].
Proof.
  unfold device_command. destruct (devices h !! _) as [sm|] eqn:Ed.
  2: { intros [= <- <-]. right. split; [by apply silent_same|]. split; [done|]. by apply unanswered_device. }
  intros H. eapply answer_told in H; [|apply respond_told|].
  - destruct H as (s & Ht & Hs & _). left. eauto.
  - intros h1 r h2. apply act_ok_silent. intros h3 h4.
    destruct (kind =? message_type.DEVICE_DESTROY); [apply device_destroy_silent|].
    destruct (kind =? message_type.DEVICE_PAUSE); [apply pause_keys_silent|].
    intros [= <-]. by apply silent_same.
Qed.

Lemma endpoint_command_told kind msg h x h' :
  endpoint_command kind msg h = Done (x, h') → answered msg h h' x [].
Proof.
  unfold endpoint_command. destruct (endpoints h !! _) as [sm|] eqn:Ed.
  2: { intros [= <- <-]. right. split; [by apply silent_same|]. split; [done|]. by apply unanswered_endpoint. }
  destruct (answer _ _ _ h) as [[r h1]| |] eqn:Ea; try done. cbn [mbind outcome_bind]. intros H.
  eapply answer_told in Ea; [|apply respond_told|].
  2: { intros h2 r2 h3. apply act_ok_silent. intros h4 h5. apply endpoint_act_silent. }
  destruct Ea as (s & Ht & Hs & _). left. exists s.
  destruct (is_ok r && _); [|by injection H as <- <-].
  destruct (engine_call _ h1) as [h2| |] eqn:E; try done. injection H as <- <-.
  apply engine_call_silent in E. split; [by eapply silent_r|done].
Qed.

Lemma port_command_told kind msg h x h' :
  port_command kind msg h = Done (x, h') → answered msg h h' x [].
Proof.
  unfold port_command. destruct (port_for_command msg (framework h)) as [port|] eqn:Ep.
  2: { intros [= <- <-]. right. split; [by apply silent_same|]. split; [done|]. apply unanswered_machine. auto. }
  destruct (answer _ _ _ h) as [[r h1]| |] eqn:Ea; try done. cbn [mbind outcome_bind]. intros [= <- <-].
  eapply answer_told in Ea; [|apply respond_told|].
  2: { intros h2 r2 h3. destruct (kind =? _); [apply reset_port_silent|apply nothing_silent]. }
  destruct Ea as (s & Ht & Hs & _). left. exists s. split; [|done]. eapply silent_r; [done|].
  destruct (is_ok r && _); by apply silent_same.
Qed.

(** Reading the clock tells the framework nothing. *)
Lemma wait_quiet fuel frame c (m : M) f m' :
  FrameClock.wait fuel frame c m = Done (f, m') → responses m' = responses m ∧ frames m' = frames m.
Proof.
  revert frame m. induction fuel as [|fuel IH]; intros frame m; cbn [FrameClock.wait];
    (destruct (FrameClock.not_later _ _); [|by intros [= <- <-]]); [done|].
  destruct (time_log m) as [E1 E2]. destruct (mach_absolute_time m) as [ticks m1]. cbn [snd] in *.
  destruct (FrameClock.frame_at ticks c) as [f1| |]; cbn [mbind outcome_bind]; try done.
  intros [-> ->]%IH. done.
Qed.

Lemma clock_next_told (h : controller) frame time (h' : controller) :
  clock_next clock_fuel h = Done (frame, time, h') →
  responses (framework h') = responses (framework h) ∧ frames (framework h') = frames (framework h) ∧
  FrameClock.last (clock h') = Some frame ∧
  ∀ l, FrameClock.last (clock h) = Some l → l < frame.
Proof.
  unfold clock_next. destruct (FrameClock.next _ _ _) as [[[[f t] c] m]| |] eqn:En; try done.
  cbn [mbind outcome_bind]. intros [= <- <- <-]. cbn.
  pose proof (ClockFacts.next_later _ _ _ _ _ _ _ En) as [Hl Hlt].
  unfold FrameClock.next in En. destruct (time_log (framework h)) as [E1 E2].
  destruct (mach_absolute_time (framework h)) as [ticks m1]. cbn [snd] in *.
  destruct (FrameClock.frame_at ticks (clock h)) as [f1| |]; cbn [mbind outcome_bind] in En; try done.
  destruct (FrameClock.wait _ _ _ m1) as [[f2 m2]| |] eqn:Ew; cbn [mbind outcome_bind] in En; try done.
  destruct (FrameClock.start_of f2 _); cbn [mbind outcome_bind] in En; try done.
  injection En as <- <- <- <-. apply wait_quiet in Ew as [-> ->]. auto.
Qed.

Lemma frame_number_told msg (h : controller) x (h' : controller) :
  frame_number_command clock_fuel msg h = Done (x, h') →
  ∃ (h1 : controller) frame s, told h1 h' [(msg, s)] [frame] ∧ (x = Ok tt → s = CiStatus.Success) ∧
    responses (framework h1) = responses (framework h) ∧ frames (framework h1) = frames (framework h) ∧
    FrameClock.last (clock h1) = Some frame ∧ ∀ l, FrameClock.last (clock h) = Some l → l < frame.
Proof.
  unfold frame_number_command. destruct (clock_next clock_fuel h) as [[[f t] h1]| |] eqn:E; try done.
  cbn [mbind outcome_bind]. intros Ha. apply clock_next_told in E.
  eapply (answer_told _ _ _ [f]) in Ha; [| |apply nothing_silent].
  - destruct Ha as (s & Ht & Hs & _). exists h1, f, s. auto.
  - intros s h2. destruct (respond_frame_log msg s f t (framework h2)). by apply call_told.
Qed.

Lemma command_cases msg h x h' :
  command clock_fuel msg h = Done (x, h') →
  (RawMessage.message_type msg ≠ message_type.CONTROLLER_FRAME_NUMBER ∧ answered msg h h' x []) ∨
  (RawMessage.message_type msg = message_type.CONTROLLER_FRAME_NUMBER ∧
   frame_number_command clock_fuel msg h = Done (x, h')).
Proof.
  unfold command. set (kind := RawMessage.message_type msg).
  assert (∀ a b, between a b kind = true ↔ a ≤ kind ≤ b) as Hb.
  { intros a b. unfold between. rewrite andb_true_iff, !Z.leb_le. done. }
  destruct (kind =? message_type.CONTROLLER_FRAME_NUMBER) eqn:Ek; bool_props.
  { intros H. right. split; [done|]. destruct (between _ _ kind) eqn:E1; [|done].
    apply Hb in E1. rewrite Ek in E1. unfold message_type.CONTROLLER_POWER_ON,
      message_type.CONTROLLER_PAUSE, message_type.CONTROLLER_FRAME_NUMBER in E1. lia. }
  intros H. left. split; [done|].
  destruct (between message_type.CONTROLLER_POWER_ON _ kind) eqn:E1.
  { eapply answer_told in H; [|apply respond_told|apply nothing_silent].
    destruct H as (s & ? & ? & _). left. eauto. }
  destruct (between message_type.PORT_POWER_ON _ kind) eqn:E2; [by eapply port_command_told|].
  destruct (kind =? message_type.DEVICE_CREATE) eqn:E3; [by apply device_create_told|].
  destruct (between message_type.DEVICE_DESTROY _ kind) eqn:E4; [by eapply device_command_told|].
  destruct (kind =? message_type.ENDPOINT_CREATE) eqn:E5; [by apply endpoint_create_told|].
  destruct (between message_type.ENDPOINT_DESTROY _ kind) eqn:E6; [by eapply endpoint_command_told|].
  injection H as <- <-. right. split; [by apply silent_same|]. split; [done|].
  apply not_true_iff_false in E1, E2, E4, E6. rewrite Hb in E1, E2, E4, E6. bool_props.
  unfold message_type.CONTROLLER_POWER_ON, message_type.CONTROLLER_PAUSE,
    message_type.CONTROLLER_FRAME_NUMBER, message_type.PORT_POWER_ON, message_type.PORT_STATUS,
    message_type.DEVICE_CREATE, message_type.DEVICE_DESTROY, message_type.DEVICE_UPDATE,
    message_type.ENDPOINT_CREATE, message_type.ENDPOINT_DESTROY,
    message_type.ENDPOINT_SET_NEXT_TRANSFER in *.
  apply unanswered_kind; fold kind; unfold message_type.CONTROLLER_POWER_ON,
    message_type.CONTROLLER_FRAME_NUMBER, message_type.PORT_POWER_ON, message_type.PORT_STATUS,
    message_type.DEVICE_CREATE, message_type.DEVICE_UPDATE, message_type.ENDPOINT_CREATE,
    message_type.ENDPOINT_SET_NEXT_TRANSFER; lia.
Qed.

(** C19: A command that is carried out gets exactly one answer, a success whenever the handler succeeds; the
    only commands left without an answer are unsupported ones, those for a device or endpoint that does
    not exist, and those the framework has no state machine for. *)
Theorem command_answered msg (h : controller) x h' :
  command clock_fuel msg h = Done (x, h') →
  (∃ s, responses (framework h') = responses (framework h) ++ [(msg, s)] ∧
     (x = Ok tt → s = CiStatus.Success)) ∨
  (responses (framework h') = responses (framework h) ∧ unanswered msg h x).
Proof.
  intros [[_ [(s & [Hr _ _] & Hs)|([Hr _ _] & _ & Hu)]]|[_ H]]%command_cases.
  - left. eauto.
  - right. by rewrite Hr, app_nil_r.
  - apply frame_number_told in H as (h1 & f & s & [Hr _ _] & Hs & E1 & _). left. exists s.
    by rewrite Hr, E1.
Qed.

(** *** Every run *)

Inductive hstep : controller → controller → Prop :=
| h_command msg x h h' : command clock_fuel msg h = Done (x, h') → hstep h h'
| h_doorbells ds h h' : doorbells ds h = Done h' → hstep h h'
| h_frame_update h h' : frame_update clock_fuel h = Done h' → hstep h h'
| h_engine g h : (∀ key, has key g ↔ has key (engine h)) → hstep h (set_engine g h)
| h_framework m h : responses m = responses (framework h) → frames m = frames (framework h) →
    hstep h (set_framework m h).

Definition runs (g : G) (speed : Speed.t) (clock : FrameClock.t) (m : M) (h : controller) : Prop :=
  rtc hstep (start g speed clock m) h.

Lemma doorbells_keeps ds h h' :
  doorbells ds h = Done h' → (registry h → registry h') ∧ silent h h'.
Proof.
  revert h. induction ds as [|d ds IH]; intros h; cbn [doorbells].
  { intros [= <-]. split; [done|by apply silent_same]. }
  destruct (doorbell d h) as [h1| |] eqn:E; try done. cbn [mbind outcome_bind]. intros [Hr Ht]%IH.
  assert ((registry h → registry h1) ∧ silent h h1) as [Hr1 Ht1].
  2: { split; [auto|]. by eapply silent_l. }
  unfold doorbell in E. destruct (decode_doorbell d) as [[dev ep] st].
  destruct (endpoints h !! (dev, ep)) as [sm|].
  2: { injection E as <-. split; [done|by apply silent_same]. }
  pose proof (registry_call (process_doorbell sm d) h) as H1.
  pose proof (call_silent _ h (process_doorbell_log sm d)) as H2.
  destruct (call _ h) as [ok h2]. cbn [snd] in *. destruct ok; cbn [negb] in E; [|by injection E as <-].
  split; [|eapply silent_l; [done|]; by eapply engine_call_silent].
  intros Hh. eapply registry_engine_call; [|exact E|auto]. apply doorbell_has.
Qed.

Lemma hstep_registry h h' : hstep h h' → registry h → registry h'.
Proof.
  destruct 1 as [msg x h h' H|ds h h' H|h h' H|g h H|m h _ _]; [by eapply command_registry|
    by apply doorbells_keeps in H as [? _]| | |].
  - unfold frame_update in H. destruct (controller_active _); cbn [negb] in H; [|by injection H as <-].
    destruct (clock_next _ h) as [[[f t] h1]| |] eqn:E; try done. injection H as <-.
    intros Hr. eapply registry_call, clock_next_registry; eauto.
  - intros [Hp Ha He Hen]. split; try done. intros key. cbn. by rewrite H.
  - by intros [].
Qed.

(** C18: Whatever the host sends, in whatever order, the driver's books stay in step: an address is taken
    exactly while its device exists, addresses are in 1..127, and the engine holds an endpoint exactly
    while the driver does. *)
Theorem registry_kept g sp c m h :
  runs g sp c m h → (∀ key, ¬ has key g) →
  (∀ a, is_Some (devices h !! a) ↔ taken (addresses h) a) ∧
  (∀ a, is_Some (devices h !! a) → 1 ≤ a < 128) ∧
  (∀ key, has key (engine h) ↔ is_Some (endpoints h !! key)) ∧
  (devices h ≠ ∅ → enumerated h = true).
Proof.
  intros Hruns Hg. assert (registry h) as [Hp Ha He Hen].
  { assert (registry (start g sp c m)) as H0.
    { split; cbn; [apply wf_default| | |done].
      - intros a. unfold taken. cbn. rewrite Z.bits_0, lookup_empty. split; [done|by intros []].
      - intros key. rewrite lookup_empty. split; [by intros ?%Hg|by intros []]. }
    unfold runs in Hruns. revert H0. induction Hruns as [|h1 h2 h3 Hs _ IH]; [done|]. intros H1.
    by eapply IH, hstep_registry. }
  split; [intros a; symmetry; apply Ha|]. split; [|done]. intros a Hd%Ha. by apply Hp.
Qed.

(** The frames given to the framework so far, all at or before the clock's last. *)
Definition frames_ok (h : controller) : Prop :=
  StronglySorted Z.lt (frames (framework h)) ∧
  ∀ f, f ∈ frames (framework h) → ∃ l, FrameClock.last (clock h) = Some l ∧ f ≤ l.

Lemma frames_ok_told h h' rs : told h h' rs [] → frames_ok h → frames_ok h'.
Proof. intros [_ Hf Hc] [Hs Hl]. rewrite app_nil_r in Hf. split; by rewrite Hf, ?Hc. Qed.

Lemma frames_ok_new (h h' : controller) frame :
  frames (framework h') = frames (framework h) ++ [frame] →
  FrameClock.last (clock h') = Some frame →
  (∀ l, FrameClock.last (clock h) = Some l → l < frame) → frames_ok h → frames_ok h'.
Proof.
  intros Hf Hl Hlt [Hs Hb]. split; rewrite Hf.
  - apply StronglySorted_app. split; [|split; [done|repeat constructor]].
    intros f f' (l & El & Hle)%Hb ->%list_elem_of_singleton. specialize (Hlt l El). lia.
  - rewrite Hl. intros f [(l & El & Hle)%Hb| ->%list_elem_of_singleton]%elem_of_app; exists frame;
      (split; [done|]); [specialize (Hlt l El); lia|lia].
Qed.

Lemma hstep_frames h h' : hstep h h' → frames_ok h → frames_ok h'.
Proof.
  destruct 1 as [msg x h h' H|ds h h' H|h h' H|g h H|m h _ Hm].
  - apply command_cases in H as [[_ [(s & Ht & _)|(Ht & _)]]|[_ H]]; [by eapply frames_ok_told..|].
    apply frame_number_told in H as (h1 & f & s & [_ Hf Hc] & _ & _ & Ef & Hl & Hlt).
    apply (frames_ok_new h h' f); [by rewrite Hf, Ef|by rewrite Hc|done].
  - apply doorbells_keeps in H as [_ H]. by eapply frames_ok_told.
  - unfold frame_update in H. destruct (controller_active _); cbn [negb] in H; [|by injection H as <-].
    destruct (clock_next _ h) as [[[f t] h1]| |] eqn:E; try done. injection H as <-.
    apply clock_next_told in E as (_ & Ef & Hl & Hlt).
    assert (told h1 (call (enqueue_updated_frame f t) h1).2 [] [f]) as [_ Hf Hc].
    { destruct (updated_frame_log f t (framework h1)). apply call_told; by rewrite ?app_nil_r. }
    apply (frames_ok_new h _ f); [by rewrite Hf, Ef|by rewrite Hc|done].
  - eapply frames_ok_told. by apply (silent_same h).
  - intros [Hs Hl]. split; cbn; by rewrite Hm.
Qed.

(** C20: The frame numbers given to the kernel strictly increase, whichever way they are reported: as answers
    to its own question or as updates of the driver's.  No frame is ever reported twice. *)
Theorem frames_increase g sp c m h :
  runs g sp c m h → frames m = [] → StronglySorted Z.lt (frames (framework h)).
Proof.
  intros Hruns Hm. enough (frames_ok h) as [? _] by done.
  assert (frames_ok (start g sp c m)) as H0.
  { split; cbn; rewrite Hm; [constructor|]. by intros f ?%elem_of_nil. }
  unfold runs in Hruns. revert H0. induction Hruns as [|h1 h2 h3 Hs _ IH]; [done|]. intros H1.
  by eapply IH, hstep_frames.
Qed.

(** Creating a device: it gets the lowest address in 1..127 that no device has; when all are in use, or
    the framework refuses, nothing changes hands and every address stays as it was. *)
Theorem device_create_spec msg (h : controller) x h' :
  registry h → device_create msg h = Done (x, h') →
  (x = Ok tt ∧ ∃ a sm, devices h !! a = None ∧ devices h' = <[a := sm]> (devices h) ∧
     1 ≤ a < 128 ∧ (∀ b, 1 ≤ b < a → is_Some (devices h !! b)) ∧ enumerated h' = true ∧
     taken (addresses h') a) ∨
  (x ≠ Ok tt ∧ devices h' = devices h ∧ (∀ b, taken (addresses h') b ↔ taken (addresses h) b) ∧
     (x = Err OutOfAddresses → ∀ b, 1 ≤ b < 128 → is_Some (devices h !! b))).
Proof.
  intros [Hp Ha _ _]. unfold device_create, call.
  destruct (init_device msg (framework h)) as [[sm|] m1].
  2: { intros [= <- <-]. right. by repeat split. }
  cbn [addresses set_framework]. pose proof (allocate_props (addresses h) Hp) as Hal.
  destruct (AddressPool.allocate (addresses h)) as [[a pool]|].
  - destruct Hal as (Hr & Hn & Hlow & Hp' & _ & Ht). cbn.
    destruct (respond_address sm msg CiStatus.Success a m1) as [ok m2].
    destruct ok; cbn; intros [= <- <-].
    + left. split; [done|]. exists a, sm. split; [by apply eq_None_not_Some; rewrite <- Ha|].
      split; [done|]. split; [done|]. split; [intros b Hb; by apply Ha, Hlow|]. split; [done|].
      cbn. apply Ht. by left.
    + right. split; [done|]. split; [done|]. split; [|done]. cbn. intros b.
      destruct (release_props pool a Hp' ltac:(split; lia)) as [_ ->]. rewrite Ht.
      split; [naive_solver|]. intros Hb. split; [by right|]. by intros ->.
  - cbn. destruct (respond (DeviceMachine sm) msg CiStatus.NoResources m1) as [ok m2].
    intros [= <- <-]. right. split; [done|]. split; [done|]. split; [done|].
    intros _ b Hb. by apply Ha, Hal.
Qed.

End Driver.

(** ** A run: a device and an endpoint appear, two frames are reported, the device goes *)

Import Reference.

Module HostRun.

(** A framework that accepts everything; its state is the time in nanoseconds. *)
#[global] Instance framework : Framework Z := {
  inspect_command _ _ m := (true, m);
  respond _ _ _ m := (true, m);
  respond_frame _ _ _ _ m := (true, m);
  respond_address _ _ _ _ m := (true, m);
  controller_active _ := true;
  enqueue_updated_frame _ _ m := (true, m);
  port_for_command _ _ := Some 1;
  update_link_state _ _ m := (true, m);
  init_device _ m := (Some 7, m);
  init_endpoint _ m := (Some 9, m);
  endpoint_key _ _ := (1, 0x81);
  process_doorbell _ _ m := (true, m);
  mach_absolute_time m := (m, m + 400000);
  memory _ n _ := replicate n 0;
}.

Notation world := (LoggedFramework.state (M := Z)).
Notation engine_state := (Engine.t Live.session Sim.endpoint).

#[global] Instance engine_ops : EngineOps engine_state :=
  EngineForHost.ops (λ _, Sim.ring3) 3 (λ _, None).
#[global] Instance engine_laws : EngineLaws engine_state :=
  EngineForHost.laws (λ _, Sim.ring3) 3 (λ _, None).

Definition dev : ExportedDevice.t :=
  ExportedDevice.mk [] [] 1 2 Speed.High 0x1209 1 0 0 0 0 1 1 1 [].

Definition g0 : engine_state := new (dev, Session.start dev).
Definition clock0 : FrameClock.t := FrameClock.mk 0 1 1 None.
Definition m0 : world := (0, [], []).

Definition h0 : Controller.t engine_state world := Controller.start g0 Speed.High clock0 m0.

Definition create_device : RawMessage.t := RawMessage.mk 0x8020 0 0.
Definition create_endpoint : RawMessage.t := RawMessage.mk 0x8028 0 0.
Definition frame_number : RawMessage.t := RawMessage.mk 0x8014 0 0.
Definition destroy_device : RawMessage.t := RawMessage.mk 0x8021 1 0.

Definition get (m : outcome (result command_error () * Controller.t engine_state world)) :
    Controller.t engine_state world := match m with Done (_, h) => h | _ => h0 end.

Definition h1 := get (Controller.command 10 create_device h0).
Definition h2 := get (Controller.command 10 create_endpoint h1).
Definition h3 := get (Controller.command 10 frame_number h2).
Definition h4 := match Controller.frame_update 10 h3 with Done h => h | _ => h0 end.
Definition h5 := get (Controller.command 10 destroy_device h4).

Lemma runs_h4 : runs 10 g0 Speed.High clock0 m0 h4.
Proof.
  apply (rtc_l _ h0 h1). { apply (h_command 10 create_device (Ok tt)). vm_compute. reflexivity. }
  apply (rtc_l _ h1 h2). { apply (h_command 10 create_endpoint (Ok tt)). vm_compute. reflexivity. }
  apply (rtc_l _ h2 h3). { apply (h_command 10 frame_number (Ok tt)). vm_compute. reflexivity. }
  apply (rtc_l _ h3 h4). { apply (h_frame_update 10). vm_compute. reflexivity. }
  apply rtc_refl.
Qed.

End HostRun.

Lemma no_endpoints : ∀ key, ¬ EngineForHost.present key HostRun.g0.
Proof. intros key [ep H]. revert H. unfold HostRun.g0, new. cbn. by rewrite lookup_empty. Qed.

Lemma registry_kept_witness :
  (∀ a, is_Some (Controller.devices HostRun.h4 !! a) ↔
        PoolFacts.taken (Controller.addresses HostRun.h4) a) ∧
  (∀ key, EngineForHost.present key (Controller.engine HostRun.h4) ↔
          is_Some (Controller.endpoints HostRun.h4 !! key)).
Proof.
  destruct (registry_kept (EL := HostRun.engine_laws) 10 HostRun.g0 Speed.High HostRun.clock0 HostRun.m0 HostRun.h4
    HostRun.runs_h4 no_endpoints) as (H1 & _ & H2 & _).
  exact (conj H1 H2).
Defined.

Lemma frames_increase_witness : StronglySorted Z.lt (frames (Controller.framework HostRun.h4)).
Proof.
  apply (frames_increase (EL := HostRun.engine_laws) 10 HostRun.g0 Speed.High HostRun.clock0 HostRun.m0
    HostRun.h4 HostRun.runs_h4). reflexivity.
Defined.

Lemma command_answered_witness :
  (∃ s, responses (Controller.framework HostRun.h5) =
          responses (Controller.framework HostRun.h4) ++ [(HostRun.destroy_device, s)] ∧
        (@Ok command_error () tt = Ok tt → s = CiStatus.Success)) ∨
  (responses (Controller.framework HostRun.h5) = responses (Controller.framework HostRun.h4) ∧
   unanswered HostRun.destroy_device HostRun.h4 (Ok tt)).
Proof.
  apply (command_answered 10 HostRun.destroy_device HostRun.h4 (Ok tt) HostRun.h5).
  vm_compute. reflexivity.
Defined.

Lemma device_create_spec_witness :
  ∃ a sm, Controller.devices HostRun.h0 !! a = None ∧
    Controller.devices HostRun.h1 = <[a := sm]> (Controller.devices HostRun.h0) ∧ 1 ≤ a < 128.
Proof.
  destruct (device_create_spec (EL := HostRun.engine_laws) HostRun.create_device HostRun.h0 (Ok tt) HostRun.h1)
    as [(_ & a & sm & H1 & H2 & H3 & _)|(H & _)].
  - split.
    + exact PoolFacts.wf_default.
    + intros a. cbn. rewrite lookup_empty. unfold PoolFacts.taken. cbn. rewrite Z.bits_0.
      split; [discriminate|intros [? [=]]].
    + intros key. cbn. rewrite lookup_empty. split; [by intros ?%no_endpoints|intros [? [=]]].
    + intros H. exfalso. by apply H.
  - vm_compute. reflexivity.
  - exists a, sm. exact (conj H1 (conj H2 H3)).
  - exfalso. by apply H.
Defined.
