(* ===== verification/Cli.v ===== *)
(** * Cli: the command line and importing the selected device (src/src/cli.rs, src/src/main.rs)

    clap's [ArgMatches] is a record of the values it hands out; [accepted] is what the declarations of
    [command()] make clap guarantee.  [import] is main.rs's; connecting is a parameter. *)

From stdpp Require Import base tactics option list gmap.
From S2P Require Import Prelude Wire Protocol ProtocolFacts Server Codec Session SessionSpec.

Module Selector.

Inductive t : Type :=
| BusId (busid : list Z)
| DevNum (devnum : Z)
| Ids (vendor product : Z).

#[global] Instance eq_dec : EqDecision t.
Proof. solve_decision. Defined.

Definition matches (s : t) (device : ExportedDevice.t) : bool :=
  match s with
  | BusId busid => bool_decide (ExportedDevice.busid device = busid)
  | DevNum devnum => ExportedDevice.devnum device =? devnum
  | Ids vendor product =>
    (ExportedDevice.id_vendor device =? vendor) && (ExportedDevice.id_product device =? product)
  end.

Definition find (s : t) (devices : list ExportedDevice.t) : option ExportedDevice.t :=
  find_first (matches s) devices.

End Selector.

Module Action.

Inductive t : Type :=
| List
| Attach (selector : Selector.t) (wait_for_enter : bool).

End Action.

Module Args.

Record t : Type := mk { address : list Z; action : Action.t }.

End Args.

(** ** What clap hands out *)

Module Matches.

(** The values of the [attach] subcommand. *)
Record attach : Type := mk_attach {
  busid : option (list Z);
  device : option Z;
  vendor_id : option Z;
  product_id : option Z;
  wait_for_enter : bool;
}.

Inductive subcommand : Type := SubList | SubAttach (m : attach).

Record t : Type := mk {
  remote : option (list Z);
  tcp_port : option Z;
  sub : option subcommand;
}.

(** [required], [default_value], [value_parser], the [selector] group (one of three, not two) and the
    two [requires]. *)
Definition attach_accepted (m : attach) : Prop :=
  (match busid m, device m, vendor_id m with
   | Some _, None, None | None, Some _, None | None, None, Some _ => True
   | _, _, _ => False
   end) ∧
  (is_Some (vendor_id m) ↔ is_Some (product_id m)).

Definition accepted (m : t) : Prop :=
  is_Some (remote m) ∧ (∃ p, tcp_port m = Some p ∧ is_u 16 p) ∧
  match sub m with
  | Some (SubAttach a) => attach_accepted a
  | Some SubList => True
  | None => False
  end.

End Matches.

(** ** Parsing *)

(** [{port}]: an unsigned number in decimal; five digits are enough for [u16]. *)
Fixpoint digits (fuel : nat) (n : Z) : list Z :=
  match fuel with
  | O => []
  | S fuel => (if n / 10 =? 0 then [] else digits fuel (n / 10)) ++ [0x30 + n mod 10]
  end.

Definition decimal (port : Z) : list Z := digits 5 port.

Definition COLON : Z := 0x3a.

Definition contains (c : Z) (s : list Z) : bool := existsb (Z.eqb c) s.

Definition starts_with (c : Z) (s : list Z) : bool :=
  match s with x :: _ => x =? c | [] => false end.

Definition format_address (host : list Z) (port : Z) : list Z :=
  if contains COLON host && negb (starts_with 0x5b host)
  then [0x5b] ++ host ++ [0x5d] ++ [COLON] ++ decimal port
  else host ++ [COLON] ++ decimal port.

(** [get_one(..).expect(..)] *)
Definition expect {A} (x : option A) : outcome A := match x with Some a => Done a | None => Panic end.

Definition parse (m : Matches.t) : outcome Args.t :=
  host ← expect (Matches.remote m);
  port ← expect (Matches.tcp_port m);
  let address := format_address host port in
  action ←
    match Matches.sub m with
    | Some (Matches.SubAttach m) =>
      selector ←
        match Matches.busid m, Matches.device m with
        | Some busid, _ => Done (Selector.BusId busid)
        | None, Some devnum => Done (Selector.DevNum devnum)
        | None, None =>
          vendor ← expect (Matches.vendor_id m);
          product ← expect (Matches.product_id m);
          Done (Selector.Ids vendor product)
        end;
      Done (Action.Attach selector (Matches.wait_for_enter m))
    | _ => Done Action.List
    end;
  Done (Args.mk address action).

(** ** Importing the selected device *)

Inductive main_error : Type :=
| ConnectFailed (e : io_error)
| ClientFailed (e : ProtocolError)
| NoMatch (s : Selector.t).

Section Importing.
Context {B : BytesCrate} {R : Type} {AR : AsyncRead R} {AW : AsyncWrite R}.

(** [connect n] is the [n]-th connection to the server. *)
Definition import (connect : nat → result io_error R) (selector : Selector.t) :
    outcome (result main_error (ExportedDevice.t * Shared.t)) :=
  match connect 0%nat with
  | Err e => Done (Err (ConnectFailed e))
  | Ok stream =>
    '(devices, _) ← list_devices stream;
    match devices with
    | Err e => Done (Err (ClientFailed e))
    | Ok devices =>
      match Selector.find selector devices with
      | None => Done (Err (NoMatch selector))
      | Some device =>
        match connect 1%nat with
        | Err e => Done (Err (ConnectFailed e))
        | Ok stream =>
          '(session, _) ← Session.import (ExportedDevice.busid device) stream;
          match session with
          | Err e => Done (Err (ClientFailed e))
          | Ok session => Done (Ok session)
          end
        end
      end
    end
  end.

End Importing.

(** ** What parsing gives *)

(** Reading decimal digits, as [str::parse] does. *)
Definition undecimal (s : list Z) : Z := foldl (λ n d, 10 * n + (d - 0x30)) 0 s.

(** The text after the last colon and the text before it, Rust's [rsplit_once(':')]. *)
Fixpoint rsplit_colon (s : list Z) : option (list Z * list Z) :=
  match s with
  | [] => None
  | c :: s =>
    match rsplit_colon s with
    | Some (a, b) => Some (c :: a, b)
    | None => if c =? COLON then Some ([], s) else None
    end
  end.

Lemma digits_spec fuel n :
  0 ≤ n < 10 ^ Z.of_nat fuel → (0 < fuel)%nat →
  undecimal (digits fuel n) = n ∧ Forall (λ d, 0x30 ≤ d ≤ 0x39) (digits fuel n) ∧ digits fuel n ≠ [].
Proof.
  revert n. induction fuel as [|fuel IH]; intros n Hn Hf; [lia|]. cbn [digits].
  pose proof (Z.mod_pos_bound n 10 ltac:(lia)) as Hm.
  pose proof (Z.div_mod n 10 ltac:(lia)) as Hd.
  assert (Forall (λ d, 0x30 ≤ d ≤ 0x39) [0x30 + n mod 10]) as Hlast by (constructor; [lia|constructor]).
  destruct (n / 10 =? 0) eqn:E; bool_props.
  - cbn [app]. split; [|by split]. unfold undecimal. cbn. lia.
  - rewrite Nat2Z.inj_succ, Z.pow_succ_r in Hn by lia.
    assert (0 ≤ n / 10) by (apply Z.div_pos; lia).
    destruct fuel as [|fuel]; [cbn in Hn; lia|].
    destruct (IH (n / 10)) as (IH1 & IH2 & _); [|lia|].
    { split; [done|]. apply Z.div_lt_upper_bound; lia. }
    split; [|split; [by apply Forall_app|by destruct (digits (S fuel) (n / 10))]].
    unfold undecimal in *. rewrite foldl_app, IH1. cbn. lia.
Qed.

Lemma rsplit_colon_app a b : contains COLON b = false → rsplit_colon (a ++ [COLON] ++ b) = Some (a, b).
Proof.
  intros Hb. assert (rsplit_colon b = None) as Hn.
  { induction b as [|c b IH]; [done|]. cbn -[Z.eqb COLON] in Hb. apply orb_false_iff in Hb as [Hc Hb].
    cbn -[Z.eqb COLON]. rewrite IH by done. by rewrite Z.eqb_sym, Hc. }
  induction a as [|c a IH]; cbn -[COLON]; [by rewrite Hn|]. cbn -[COLON] in IH. by rewrite IH.
Qed.

Lemma parse_spec m host port :
  Matches.accepted m → Matches.remote m = Some host → Matches.tcp_port m = Some port →
  ∃ args p, parse m = Done args ∧
    rsplit_colon (Args.address args) =
      Some (if contains COLON host && negb (starts_with 0x5b host) then [0x5b] ++ host ++ [0x5d] else host, p) ∧
    undecimal p = port ∧
    match Matches.sub m, Args.action args with
    | Some Matches.SubList, Action.List => True
    | Some (Matches.SubAttach a), Action.Attach s w =>
      w = Matches.wait_for_enter a ∧
      match s with
      | Selector.BusId b => Matches.busid a = Some b ∧ Matches.device a = None ∧ Matches.vendor_id a = None
      | Selector.DevNum d => Matches.device a = Some d ∧ Matches.busid a = None ∧ Matches.vendor_id a = None
      | Selector.Ids v p => Matches.vendor_id a = Some v ∧ Matches.product_id a = Some p ∧
                            Matches.busid a = None ∧ Matches.device a = None
      end
    | _, _ => False
    end.
Proof.
  intros (_ & (p & Ep & Hp) & Hs) Eh Eport. rewrite Eport in Ep. injection Ep as <-.
  unfold parse. rewrite Eh, Eport. cbn [expect mbind outcome_bind].
  destruct (digits_spec 5 port) as (Hd & Hf & _); [unfold is_u in Hp; lia|lia|].
  assert (contains COLON (decimal port) = false) as Hc.
  { apply not_true_iff_false. intros (c & Hin & Hc%Z.eqb_eq)%existsb_exists. subst c.
    rewrite Forall_forall in Hf. specialize (Hf COLON ltac:(by apply list_elem_of_In)).
    unfold COLON in Hf. lia. }
  assert (rsplit_colon (format_address host port) =
    Some (if contains COLON host && negb (starts_with 0x5b host) then [0x5b] ++ host ++ [0x5d] else host,
          decimal port)) as Ha.
  { unfold format_address. destruct (_ && _); [|by apply rsplit_colon_app].
    rewrite <- (rsplit_colon_app ([0x5b] ++ host ++ [0x5d]) (decimal port)) by done.
    by rewrite <- !(assoc_L (++)). }
  destruct (Matches.sub m) as [[|a]|]; [| |done].
  - eexists _, (decimal port). split; [done|]. by repeat split.
  - destruct Hs as [Hone Hreq].
    destruct (Matches.busid a) as [b|] eqn:Eb, (Matches.device a) as [d|] eqn:Ed,
      (Matches.vendor_id a) as [v|] eqn:Ev; try done; cbn [expect mbind outcome_bind].
    + eexists _, (decimal port). split; [done|]. by repeat split.
    + eexists _, (decimal port). split; [done|]. by repeat split.
    + destruct (proj1 Hreq ltac:(by eexists)) as [pr Epr]. rewrite Epr. cbn [expect mbind outcome_bind].
      eexists _, (decimal port). split; [done|]. by repeat split.
Qed.

(** For whatever clap accepts, parsing returns: none of its [expect]s can fail.  The address is the host
    and the port, joined so that the part behind the last colon reads back as the port, with IPv6 hosts
    in brackets; the action is the subcommand, with the one selector that was given. *)
Theorem parse_accepted m host port :
  Matches.accepted m → Matches.remote m = Some host → Matches.tcp_port m = Some port →
  ∃ args p, parse m = Done args ∧
    rsplit_colon (Args.address args) =
      Some (if contains COLON host && negb (starts_with 0x5b host) then [0x5b] ++ host ++ [0x5d] else host, p) ∧
    undecimal p = port ∧
    match Matches.sub m, Args.action args with
    | Some Matches.SubList, Action.List => True
    | Some (Matches.SubAttach a), Action.Attach s w =>
      w = Matches.wait_for_enter a ∧
      match s with
      | Selector.BusId b => Matches.busid a = Some b ∧ Matches.device a = None ∧ Matches.vendor_id a = None
      | Selector.DevNum d => Matches.device a = Some d ∧ Matches.busid a = None ∧ Matches.vendor_id a = None
      | Selector.Ids v p => Matches.vendor_id a = Some v ∧ Matches.product_id a = Some p ∧
                            Matches.busid a = None ∧ Matches.device a = None
      end
    | _, _ => False
    end.
Proof. apply parse_spec. Qed.

Lemma parse_accepted_witness :
  ∃ args p, parse (Matches.mk (Some [0x3a; 0x3a; 0x31]) (Some 3240) (Some Matches.SubList)) = Done args ∧
    rsplit_colon (Args.address args) = Some ([0x5b; 0x3a; 0x3a; 0x31; 0x5d], p) ∧ undecimal p = 3240.
Proof.
  destruct (parse_accepted (Matches.mk (Some [0x3a; 0x3a; 0x31]) (Some 3240) (Some Matches.SubList))
    [0x3a; 0x3a; 0x31] 3240) as (args & p & H1 & H2 & H3 & _).
  - split; [by eexists|]. split; [|done]. exists 3240. split; [done|]. apply (bool_decide_unpack _). exact I.
  - reflexivity.
  - reflexivity.
  - exists args, p. exact (conj H1 (conj H2 H3)).
Defined.

(** ** What importing gives *)

Lemma find_first_fmap {A B} (f : A → B) (p : B → bool) (l : list A) :
  find_first p (f <$> l) = f <$> find_first (λ x, p (f x)) l.
Proof. induction l as [|x l IH]; [done|]. cbn. by destruct (p (f x)). Qed.

Lemma find_first_In {A} (p : A → bool) (l : list A) x : find_first p l = Some x → x ∈ l ∧ p x = true.
Proof. intros (l1 & l2 & -> & ? & _)%find_first_Some. split; [set_solver|done]. Qed.

(** The export the selector picks: the first that matches. *)
Definition selected (selector : Selector.t) (exports : list ExportDev.t) : option ExportDev.t :=
  find_first (λ e, Selector.matches selector (device_of_export e true)) exports.

Section Imported.
Context {B : BytesCrate} {BL : BytesLaws B}.
Context {R : Type} {AR : AsyncRead R} {AL : AsyncReadLaws R} {AW : AsyncWrite R}
  {WL : AsyncWriteLaws R}.

(** C36: Importing from a server that answers both connections: it ends with a session for the first export
    the selector matches, imported by its bus id, or says that none matches; besides that, only the
    client's own I/O can fail.  (Bus ids of 32 bytes do not fit the request.) *)
Theorem import_selected selector exports (connect : nat → result io_error R) r0 r1 :
  Forall export_wf exports → Forall (λ e, length (ExportDev.busid e) < BUSID_SIZE)%nat exports →
  Z.of_nat (length exports) ≤ MAX_EXPORTED_DEVICES →
  connect 0%nat = Ok r0 → devlist_reply exports = Done (incoming r0) →
  connect 1%nat = Ok r1 →
  (∀ e, selected selector exports = Some e → import_reply (Some e) = Done (incoming r1)) →
  ∃ x, import connect selector = Done x ∧
    ((∃ e, x = Err (ClientFailed (Io e))) ∨
     x = match selected selector exports with
         | Some e => Ok (device_of_export e false, start (device_of_export e false))
         | None => Err (NoMatch selector)
         end).
Proof.
  intros Hwf Hlen Hmax E0 Hin0 E1 Hin1. unfold import. rewrite E0.
  destruct (list_devices_decodes exports [] r0 Hwf Hmax) as (out & Eout & H).
  rewrite Hin0 in Eout. injection Eout as <-.
  destruct H as (x & r' & -> & Hx); [by rewrite app_nil_r|]. cbn [mbind outcome_bind].
  destruct Hx as [[e ->]|(-> & _)]; [eexists; split; [done|]; left; eauto|].
  unfold Selector.find. rewrite find_first_fmap. fold (selected selector exports).
  destruct (selected selector exports) as [e|] eqn:Es; cbn [fmap option_fmap option_map].
  2: { eexists. split; [done|]. by right. }
  rewrite E1. pose proof (find_first_In _ _ _ Es) as [He _].
  rewrite Forall_forall in Hwf, Hlen. specialize (Hwf e He). specialize (Hlen e He).
  destruct (import_session (Some e) (ExportDev.busid e) [] r1) as (out & Eout & H).
  { by intros ? [= <-]. }
  rewrite (Hin1 e eq_refl) in Eout. injection Eout as <-.
  change (ExportedDevice.busid (device_of_export e true)) with (ExportDev.busid e).
  destruct H as (x & r2 & -> & Hx); [by rewrite app_nil_r|]. cbn [mbind outcome_bind].
  rewrite encode_busid_ok in Hx by (done || by destruct (ewf_busid _ Hwf) as (_ & ? & _)).
  destruct Hx as [[err ->]|(_ & _ & ->)]; [eexists; split; [done|]; left; eauto|].
  rewrite bool_decide_eq_true_2 by done. eexists. split; [done|]. by right.
Qed.

End Imported.

Import Reference.

Lemma import_selected_witness :
  ∃ x, import (R := duplex)
    (λ n, Ok (match (if n then devlist_reply [Samples.export] else import_reply (Some Samples.export)) with
              | Done out => (out, []) | _ => ([], []) end)) (Selector.DevNum 2) = Done x.
Proof.
  destruct (import_selected (R := duplex) (Selector.DevNum 2) [Samples.export]
    (λ n, Ok (match (if n then devlist_reply [Samples.export] else import_reply (Some Samples.export)) with
              | Done out => (out, []) | _ => ([], []) end))
    (match devlist_reply [Samples.export] with Done out => (out, []) | _ => ([], []) end)
    (match import_reply (Some Samples.export) with Done out => (out, []) | _ => ([], []) end))
    as (x & H & _).
  - constructor; [apply Samples.export_ok|constructor].
  - constructor; [vm_compute; lia|constructor].
  - vm_compute. discriminate.
  - reflexivity.
  - vm_compute. reflexivity.
  - reflexivity.
  - intros e [= <-]. vm_compute. reflexivity.
  - by exists x.
Defined.
