(* ===== verification/Attach.v ===== *)
(** * Attach: the main program (src/src/main.rs)

    [list] is the text it prints; [attach] runs the driver on the imported session until the user or
    the server ends it.  The session lives inside the driver's engine, so the session calls of
    [attach] act on the state the handlers see.  It waits without a timeout for the root port's power, for
    Enter and for an ending: each wait is a list of looks at its condition, and [Waiting] is the outcome if
    none of them found it.  What happens from one look to the next is a parameter ([world]): the theorem
    holds for every such behaviour that keeps the session well formed. *)

From stdpp Require Import base tactics option list gmap fin_maps strings.
From S2P Require Import Prelude Wire Protocol ProtocolFacts Server Codec Session SessionFacts System SessionSpec Hci Engine EngineFacts EngineLive Host HostFacts HostSpec Cli.

(** ** Printing the device list *)

(** Texts are lists of characters by their codes. *)
Notation text := (list Z) (only parsing).

Definition str (s : string) : text :=
  (λ c, Z.of_nat (Ascii.nat_of_ascii c)) <$> String.list_ascii_of_string s.

Definition hex_digit (d : Z) : Z := if d <? 10 then 0x30 + d else 0x61 + (d - 10).

(** [{:0n x}] of a number below [16 ^ n] *)
Fixpoint hex (n : nat) (v : Z) : text :=
  match n with
  | O => []
  | S n => hex n (v / 16) ++ [hex_digit (v mod 16)]
  end.

(** [{}] of a [u32], which has at most ten digits. *)
Definition dec (v : Z) : text := digits 10 v.

(** [{:?}] *)
Definition debug_speed (s : Speed.t) : text :=
  str (match s with
       | Speed.Unknown => "Unknown" | Speed.Low => "Low" | Speed.Full => "Full" | Speed.High => "High"
       | Speed.Wireless => "Wireless" | Speed.Super => "Super" | Speed.SuperPlus => "SuperPlus"
       end).

Definition device_line (d : ExportedDevice.t) : text :=
  ExportedDevice.busid d ++ str ": " ++ hex 4 (ExportedDevice.id_vendor d) ++ str ":"
  ++ hex 4 (ExportedDevice.id_product d) ++ str " (bus " ++ dec (ExportedDevice.busnum d)
  ++ str " dev " ++ dec (ExportedDevice.devnum d) ++ str ", " ++ debug_speed (ExportedDevice.speed d)
  ++ str " speed) " ++ ExportedDevice.path d.

Definition interface_line (i : nat) (iface : Interface.t) : text :=
  str "    " ++ dec (Z.of_nat i) ++ str ": class " ++ hex 2 (Interface.class iface)
  ++ str " subclass " ++ hex 2 (Interface.subclass iface)
  ++ str " protocol " ++ hex 2 (Interface.protocol iface).

Definition device_lines (d : ExportedDevice.t) : list text :=
  device_line d :: imap interface_line (ExportedDevice.interfaces d).

Section Listing.
Context {B : BytesCrate} {R : Type} {AR : AsyncRead R} {AW : AsyncWrite R}.

(** [println!] line by line. *)
Definition list (connect : result io_error R) : outcome (result main_error (list text)) :=
  match connect with
  | Err e => Done (Err (ConnectFailed e))
  | Ok stream =>
    '(devices, _) ← list_devices stream;
    match devices with
    | Err e => Done (Err (ClientFailed e))
    | Ok devices => Done (Ok (mjoin (device_lines <$> devices)))
    end
  end.

End Listing.

(** ** Attaching a device *)

Inductive attach_error : Type :=
| ImportFailed (e : main_error)
| ControllerFailed
| TerminalFailed
| SignalFailed
| ConnectionLost (r : reason).

(** How the wait for the end of [attach] ends: Ctrl-C, SIGTERM, no signal handler, the session is closed. *)
Inductive ending : Type := CtrlC | Terminated | NoSignal | Lost (r : reason).

Definition outcome_of_ending (e : ending) : result attach_error () :=
  match e with
  | CtrlC | Terminated => Ok tt
  | NoSignal => Err SignalFailed
  | Lost r => Err (ConnectionLost r)
  end.

Section Attaching.
Context {B : BytesCrate} {R : Type} {AR : AsyncRead R} {AW : AsyncWrite R}.
Context {SDK : Sdk} {E : Type} {EM : EndpointMachine E} {M : Type} {FW : Framework M} {IF : HostInterface M}.

Notation engine := (Engine.t Live.session E).
Notation driver := (Driver.t engine M).

(** The session inside the driver. *)
Definition session_of (d : driver) : Shared.t := (Engine.session (Controller.engine (Driver.shared d))).2.

Definition with_session (sh : Shared.t) (d : driver) : driver :=
  let h := Driver.shared d in
  let g := Controller.engine h in
  Driver.set_shared (Controller.set_engine (Engine.set_session ((Engine.session g).1, sh) g) h) d.

(** One look of the [select!] at its three branches: what happened since the last one, whether Ctrl-C
    was pressed or SIGTERM came, and the branch [select!] happens to look at first. *)
Record turn : Type := mk_turn {
  moves : driver → driver;
  interrupted : bool;
  terminated : bool;
  first : nat;
}.

(** What the rest of the program and the world do while [attach] waits: from one look at the root port's
    power to the next; until Enter is pressed ([Some true]), the terminal fails ([Some false]) or still
    nothing has come ([None]); whether signal handlers can be installed; from one look of the [select!]
    to the next; and in each 10 ms of the last second. *)
Record world : Type := mk_world {
  powering : Datatypes.list (driver → driver);
  pressing : driver → option bool * driver;
  signals : bool;
  turns : Datatypes.list turn;
  draining : Datatypes.list (driver → driver);
}.

(** [select!] takes the first branch that is ready, from a branch picked at random on. *)
Definition select (t : turn) (d : driver) : option ending :=
  head (omap id (rotate (first t)
    [if interrupted t then Some CtrlC else None;
     if terminated t then Some Terminated else None;
     Lost <$> Session.closed (session_of d)])).

(** The block of [select!]; [None]: it still waits. *)
Fixpoint await_ending (turns : Datatypes.list turn) (d : driver) : option ending * driver :=
  match turns with
  | [] => (None, d)
  | t :: turns =>
    let d := moves t d in
    match select t d with
    | Some e => (Some e, d)
    | None => await_ending turns d
    end
  end.

(** [while session.pending() > 0 && !session.is_closed() { sleep }], until the timeout. *)
Fixpoint drain (ticks : Datatypes.list (driver → driver)) (d : driver) : driver :=
  match ticks with
  | [] => d
  | tick :: ticks =>
    if (0 <? pending (session_of d))%nat && negb (is_closed (session_of d)) then drain ticks (tick d)
    else d
  end.

(** How far [attach] has come: to its end, with the driver if there was one, or to a wait that goes on. *)
Inductive moment : Type := ForPower | ForEnter | ForEnding.

Inductive progress : Type :=
| Ended (outcome : result attach_error ()) (d : option driver)
| Waiting (for_what : moment) (d : driver).

(** From the log line [detaching] on. *)
Definition detach (w : world) (d : driver) : outcome driver :=
  let d := Driver.set_connected false d in
  sh ← Session.unlink_all (session_of d);
  let d := drain (draining w) (with_session sh d) in
  let d := Driver.drop d in
  Done (with_session (Session.close (session_of d)) d).

(** From [set_connected(true)] on. *)
Definition serve_until_end (w : world) (d : driver) : outcome progress :=
  let d := Driver.set_connected true d in
  let '(e, d) := if signals w then await_ending (turns w) d else (Some NoSignal, d) in
  match e with
  | None => Done (Waiting ForEnding d)
  | Some e => d ← detach w d; Done (Ended (outcome_of_ending e) (Some d))
  end.

(** When the terminal fails, the driver is dropped; the session is not closed. *)
Definition attach (connect : nat → result io_error R) (selector : Selector.t) (wait_for_enter : bool)
    (m : M) (w : world) : outcome progress :=
  session ← import connect selector;
  match session with
  | Err e => Done (Ended (Err (ImportFailed e)) None)
  | Ok (device, sh) =>
    match Driver.new (Engine.new (device, sh)) (ExportedDevice.speed device) m with
    | None => Done (Ended (Err ControllerFailed) None)
    | Some d =>
      let '(powered, d) := Driver.wait_powered (powering w) d in
      if negb powered then Done (Waiting ForPower d)
      else
        let '(pressed, d) := if wait_for_enter then pressing w d else (Some true, d) in
        match pressed with
        | None => Done (Waiting ForEnter d)
        | Some false => Done (Ended (Err TerminalFailed) (Some (Driver.drop d)))
        | Some true => serve_until_end w d
        end
    end
  end.

(** [main]: the printed lines and, unless it still waits, whether it exits with success; [runtime] tells
    whether the tokio runtime started.  A connection is made to the address the arguments give. *)
Definition main (matches : Matches.t) (runtime : bool) (connect : text → nat → result io_error R) (m : M)
    (w : world) : outcome (Datatypes.list text * option bool) :=
  args ← parse matches;
  if negb runtime then Done ([], Some false)
  else
    match Args.action args with
    | Action.List =>
      result ← list (connect (Args.address args) 0%nat);
      Done (match result with Ok lines => (lines, Some true) | Err _ => ([], Some false) end)
    | Action.Attach selector wait_for_enter =>
      progress ← attach (connect (Args.address args)) selector wait_for_enter m w;
      Done ([], match progress with Ended result _ => Some (is_ok result) | Waiting _ _ => None end)
    end.

End Attaching.

(** ** What attaching does *)

(** What the interface is told about the device. *)
Inductive notice : Type := Plugged (b : bool) | Destroyed.

Class InterfaceLog (M : Type) {FW : Framework M} {IF : HostInterface M} := {
  noticed : M → Datatypes.list notice;
  connect_noticed port b m : noticed (set_port_connected port b m) = noticed m ++ [Plugged b];
  destroy_noticed m : noticed (destroy_interface m) = noticed m ++ [Destroyed];
  init_noticed c m : noticed (init_interface c m).2 = noticed m;
  time_noticed m : noticed (mach_absolute_time m).2 = noticed m;
}.

Section Imported.
Context {B : BytesCrate} {BL : BytesLaws B}.
Context {R : Type} {AR : AsyncRead R} {AL : AsyncReadLaws R} {AW : AsyncWrite R}
  {WL : AsyncWriteLaws R}.

(** Importing ends for every server, with a fresh session if it succeeds. *)
Lemma import_returns (connect : nat → result io_error R) selector :
  ∃ x, import connect selector = Done x ∧ ∀ device sh, x = Ok (device, sh) → sh = start device.
Proof.
  unfold import. destruct (connect 0%nat) as [stream|e]; [|by eexists].
  destruct (list_devices_returns stream) as (x & r' & ->). cbn [mbind outcome_bind].
  destruct x as [devices|e]; [|by eexists]. destruct (Selector.find selector devices) as [device|]; [|by eexists].
  destruct (connect 1%nat) as [stream1|e]; [|by eexists].
  destruct (import_post (ExportedDevice.busid device) stream1) as (y & r1 & -> & Hy).
  cbn [mbind outcome_bind]. destruct y as [[d sh]|e]; [|by eexists].
  eexists. split; [done|]. intros device' sh' [= <- <-]. tauto.
Qed.

(** Against a server that answers, every exported device is printed, in order, with its interfaces. *)
Lemma list_prints exports (r : R) :
  Forall export_wf exports → Z.of_nat (length exports) ≤ MAX_EXPORTED_DEVICES →
  devlist_reply exports = Done (incoming r) →
  ∃ x, list (Ok r) = Done x ∧
    ((∃ e, x = Err (ClientFailed (Io e))) ∨
     x = Ok (mjoin ((λ e, device_lines (device_of_export e true)) <$> exports))).
Proof.
  intros Hwf Hmax Hin. unfold list.
  destruct (list_devices_decodes exports [] r Hwf Hmax) as (out & Eout & H).
  rewrite Hin in Eout. injection Eout as <-.
  destruct H as (x & r' & -> & Hx); [by rewrite app_nil_r|]. cbn [mbind outcome_bind].
  destruct Hx as [[e ->]|(-> & _)]; eexists; (split; [done|]); [left; eauto|right].
  by rewrite <- list_fmap_compose.
Qed.

End Imported.

Section Attached.
Context {B : BytesCrate} {BL : BytesLaws B}.
Context {R : Type} {AR : AsyncRead R} {AL : AsyncReadLaws R} {AW : AsyncWrite R}
  {WL : AsyncWriteLaws R}.
Context {SDK : Sdk} {E : Type} {EM : EndpointMachine E} {M : Type} {FW : Framework M}
  {IF : HostInterface M} {IL : InterfaceLog M}.

Notation driver := (Driver.t (Engine.t Live.session E) M).

Definition log_of (d : driver) : Datatypes.list notice :=
  noticed (Controller.framework (Driver.shared d)).

(** The session is well formed and has room for more requests. *)
Definition sound (d : driver) : Prop :=
  (∃ iss, ok (session_of d) iss) ∧ Z.of_nat (pending (session_of d)) < 2 ^ 31.

(** The rest of the world keeps the session sound, and closed if it is, and leaves the port and the
    interface alone. *)
Definition calm (d d' : driver) : Prop :=
  sound d → sound d' ∧ log_of d' = log_of d ∧
    ∀ r, Session.closed (session_of d) = Some r → Session.closed (session_of d') = Some r.

Record calm_world (w : world) : Prop := {
  calm_powering : Forall (λ change, ∀ d, calm d (change d)) (powering w);
  calm_pressing d : calm d (pressing w d).2;
  calm_turns : Forall (λ t, ∀ d, calm d (moves t d)) (turns w);
  calm_draining : Forall (λ tick, ∀ d, calm d (tick d)) (draining w);
}.

#[local] Instance calm_refl : Reflexive calm.
Proof. by intros d Hd. Qed.

#[local] Instance calm_trans : Transitive calm.
Proof.
  intros d1 d2 d3 H12 H23 H1. destruct (H12 H1) as (H2 & E2 & C2). destruct (H23 H2) as (H3 & E3 & C3).
  split; [done|]. split; [congruence|auto].
Qed.

Lemma sound_with_session sh d iss :
  ok sh iss → Z.of_nat (pending sh) < 2 ^ 31 → sound (with_session sh d).
Proof. intros I Hp. split; [by exists iss|done]. Qed.

Lemma session_unlink_all sh iss :
  ok sh iss → Z.of_nat (pending sh) < 2 ^ 31 →
  ∃ sh', Session.unlink_all sh = Done sh' ∧ ok sh' iss ∧ Z.of_nat (pending sh') < 2 ^ 31 ∧
    Session.closed sh' = Session.closed sh.
Proof.
  unfold Session.unlink_all. generalize ((map_to_list (State.submits (Shared.state sh))).*1).
  intros targets. revert sh. induction targets as [|t targets IH]; intros sh I Hp; [by exists sh|].
  cbn [unlink_each]. destruct (ops_return sh iss I Hp) as [Hu _]. destruct (Hu t) as [sh1 E1].
  rewrite E1. cbn [mbind outcome_bind].
  assert (Z.of_nat (pending sh1) < 2 ^ 31 ∧ Session.closed sh1 = Session.closed sh) as [Hp1 <-]
    by by apply unlink_cases in E1 as [[_ ->]|(_ & n & _ & ->)].
  apply IH; [by eapply ok_unlink|done].
Qed.

Lemma drain_calm ticks d :
  Forall (λ tick, ∀ d, calm d (tick d)) ticks → calm d (drain ticks d).
Proof.
  intros H. revert d. induction H as [|tick ticks Ht _ IH]; intros d; [done|]. cbn [drain].
  destruct (_ && _); [|done]. by transitivity (tick d).
Qed.

Lemma wait_powered_calm changes (d : driver) :
  Forall (λ change, ∀ d, calm d (change d)) changes →
  calm d (Driver.wait_powered changes d).2 ∧
  Controller.powered (Driver.shared (Driver.wait_powered changes d).2) = (Driver.wait_powered changes d).1.
Proof.
  intros H. revert d. induction H as [|change changes Hc _ IH]; intros d; cbn [Driver.wait_powered];
    destruct (Controller.powered (Driver.shared d)) eqn:Ep; try done.
  destruct (IH (change d)) as [H1 H2]. split; [by transitivity (change d)|done].
Qed.

(** What a look of the [select!] finds. *)
Lemma select_spec (t : turn (E := E) (M := M)) (d : driver) :
  match select t d with
  | Some CtrlC => interrupted t = true
  | Some Terminated => terminated t = true
  | Some NoSignal => False
  | Some (Lost r) => Session.closed (session_of d) = Some r
  | None => interrupted t = false ∧ terminated t = false ∧ Session.closed (session_of d) = None
  end.
Proof.
  unfold select. set (branches := [_; _; _]).
  set (ready := omap id (rotate (first t) branches)).
  assert (∀ e, e ∈ ready ↔ Some e ∈ branches) as Hr.
  { intros e. unfold ready. rewrite list_elem_of_omap.
    split; [intros (x & Hin & Ex); cbn in Ex; subst x; by apply elem_of_rotate in Hin|].
    intros H. exists (Some e). by rewrite elem_of_rotate. }
  destruct ready as [|e ready'] eqn:Er; cbn [head].
  - assert (∀ e, Some e ∉ branches) as Hno by (intros e He; apply Hr in He; by apply elem_of_nil in He).
    unfold branches in Hno. split_and!.
    + destruct (interrupted t); [|done]. destruct (Hno CtrlC). by left.
    + destruct (terminated t); [|done]. destruct (Hno Terminated). right. by left.
    + destruct (Session.closed _) as [r|]; [|done]. destruct (Hno (Lost r)). do 2 right. by left.
  - assert (Some e ∈ branches) as He by (apply Hr; by left). unfold branches in He.
    destruct (interrupted t) eqn:E1, (terminated t) eqn:E2, (Session.closed (session_of d)) as [r|] eqn:E3;
      cbn in He; repeat (apply elem_of_cons in He as [He|He]); try (by apply elem_of_nil in He);
      try done; by injection He as ->.
Qed.

Lemma await_ending_spec (ts : Datatypes.list (turn (E := E) (M := M))) (d : driver) :
  Forall (λ t, ∀ d, calm d (moves t d)) ts → sound d →
  calm d (await_ending ts d).2 ∧
  match (await_ending ts d).1 with
  | Some CtrlC => Exists (λ t, interrupted t = true) ts
  | Some Terminated => Exists (λ t, terminated t = true) ts
  | Some NoSignal => False
  | Some (Lost r) => Session.closed (session_of (await_ending ts d).2) = Some r
  | None => Forall (λ t, interrupted t = false ∧ terminated t = false) ts ∧
      (ts ≠ [] → Session.closed (session_of (await_ending ts d).2) = None)
  end.
Proof.
  intros H. revert d. induction H as [|t ts Ht _ IH]; intros d Hd; [by split|]. cbn [await_ending].
  pose proof (select_spec t (moves t d)) as Hs. destruct (Ht d Hd) as [Hd1 _].
  destruct (select t (moves t d)) as [e|]; cbn [fst snd].
  - split; [apply Ht|]. by destruct e; try constructor.
  - destruct (IH (moves t d) Hd1) as [H1 H2]. split; [by transitivity (moves t d)|].
    destruct Hs as (Hi & Ht' & Hc). destruct (await_ending ts (moves t d)) as [[[| | |r]|] d'] eqn:Ea; cbn [fst snd] in *;
      [by constructor|by constructor|done|done|]. destruct H2 as [H2 H3]. split; [by constructor|].
    intros _. destruct ts; [|by apply H3]. by injection Ea as <-.
Qed.

(** A session that is over: closed, with an answer for every request it ever accepted. *)
Definition over (sh : Shared.t) : Prop :=
  is_closed sh = true ∧ pending sh = 0%nat ∧
  ∃ iss, ok sh iss ∧ (Shared.replies sh).*1 ≡ₚ chans_of iss.

Lemma close_over sh iss : ok sh iss → over (Session.close sh).
Proof.
  intros I. assert (ok (Session.close sh) iss) as I' by by apply ok_close.
  assert (is_Some (State.closed (Shared.state (Session.close sh)))) as Hc.
  { pose proof (close_spec ClosedByClient sh (ok_closed_tx _ _ I)) as Hs. cbv zeta in Hs.
    unfold Session.close. destruct (State.closed (Shared.state sh)) eqn:Ec.
    - by rewrite Hs, Ec.
    - destruct Hs as [-> _]. by eexists. }
  destruct (ok_closed _ _ I' Hc) as [Es _]. split; [by apply bool_decide_eq_true_2|].
  unfold pending. rewrite Es, map_size_empty. split; [done|]. exists iss. split; [done|].
  rewrite <- (ok_channels _ _ I'). unfold pending_chans. by rewrite Es, map_to_list_empty.
Qed.

(** What the interface is told when the port is to be plugged in or out: nothing if there is no root port,
    which is only logged. *)
Definition plugs (b : bool) (m : M) : Datatypes.list notice :=
  match root_port_machine ROOT_PORT m with Some _ => [Plugged b] | None => [] end.

Lemma connected_log b d :
  log_of (Driver.set_connected b d) =
    log_of d ++ plugs b (Controller.framework (Driver.shared d)) ∧
  session_of (Driver.set_connected b d) = session_of d.
Proof.
  unfold Driver.set_connected, log_of, plugs. destruct (root_port_machine _ _); cbn.
  - by rewrite connect_noticed.
  - by rewrite app_nil_r.
Qed.

Lemma detach_spec w d :
  calm_world w → sound d →
  ∃ d' m', detach w d = Done d' ∧ over (session_of d') ∧ log_of d' = log_of d ++ plugs false m' ++ [Destroyed] ∧
    ∀ r, Session.closed (session_of d) = Some r → Session.closed (session_of d') = Some r.
Proof.
  intros W [[iss I] Hp]. unfold detach.
  destruct (connected_log false d) as [L3 S3]. set (d3 := Driver.set_connected false d) in *.
  destruct (session_unlink_all (session_of d) iss I Hp) as (sh & Eu & I' & Hp' & Ec).
  rewrite S3, Eu. cbn [mbind outcome_bind].
  destruct (drain_calm (draining w) (with_session sh d3) (calm_draining w W)
    (sound_with_session _ _ _ I' Hp')) as ([[iss' I4] _] & L4 & C4).
  set (d4 := drain (draining w) (with_session sh d3)) in *.
  exists (with_session (Session.close (session_of (Driver.drop d4))) (Driver.drop d4)),
    (Controller.framework (Driver.shared d)).
  split; [done|]. split; [by eapply close_over|]. split.
  - change (noticed (destroy_interface (Controller.framework (Driver.shared d4))) =
      log_of d ++ plugs false (Controller.framework (Driver.shared d)) ++ [Destroyed]).
    rewrite destroy_noticed. fold (log_of d4). rewrite L4.
    change (log_of (with_session sh d3)) with (log_of d3). rewrite L3. by rewrite <- (assoc_L (++)).
  - intros r Hr. assert (Session.closed (session_of d4) = Some r) as Hr4 by (apply C4; cbn; congruence).
    change (Session.closed (Session.close (session_of d4)) = Some r).
    pose proof (close_spec ClosedByClient (session_of d4) (ok_closed_tx _ _ I4)) as Hs. cbv zeta in Hs.
    unfold Session.closed in *. rewrite (ok_closed_tx _ _ I4) in Hr4. unfold Session.close.
    rewrite Hr4 in Hs. rewrite Hs. by rewrite (ok_closed_tx _ _ I4).
Qed.

(** Why [attach] ended after the device was plugged in. *)
Definition ended_by (w : world (E := E) (M := M)) (x : result attach_error ()) (d : driver) : Prop :=
  match x with
  | Ok _ => Exists (λ t, interrupted t = true ∨ terminated t = true) (turns w)
  | Err SignalFailed => signals w = false
  | Err (ConnectionLost r) => Session.closed (session_of d) = Some r
  | Err _ => False
  end.

(** Where it may wait for ever: the port is not powered; Enter has not been pressed; or signals are handled,
    none has come, and the session is open. *)
Definition waits_for (w : world (E := E) (M := M)) (enter : bool) (m : M) (p : moment) (d : driver) : Prop :=
  match p with
  | ForPower => Controller.powered (Driver.shared d) = false ∧ log_of d = noticed m
  | ForEnter => enter = true ∧ log_of d = noticed m
  | ForEnding =>
    signals w = true ∧ Forall (λ t, interrupted t = false ∧ terminated t = false) (turns w) ∧
    (turns w ≠ [] → Session.closed (session_of d) = None) ∧ ∃ m1, log_of d = noticed m ++ plugs true m1
  end.

(** How [attach] may leave things: waiting; or at its end, without a controller; or after the terminal failed,
    with the controller destroyed and nothing plugged in; or for the reason it reports, with the port plugged
    in and out, the controller destroyed after that, and the session over. *)
Definition tidy (w : world (E := E) (M := M)) (enter : bool) (m : M) (p : progress) : Prop :=
  match p with
  | Waiting for_what d => waits_for w enter m for_what d
  | Ended x None => x = Err ControllerFailed ∨ ∃ e, x = Err (ImportFailed e)
  | Ended x (Some d) =>
    (x = Err TerminalFailed ∧ enter = true ∧ log_of d = noticed m ++ [Destroyed]) ∨
    (ended_by w x d ∧ over (session_of d) ∧
     ∃ m1 m2, log_of d = noticed m ++ plugs true m1 ++ plugs false m2 ++ [Destroyed])
  end.

Lemma serve_until_end_spec w enter m d :
  calm_world w → sound d → log_of d = noticed m →
  ∃ p, serve_until_end w d = Done p ∧ tidy w enter m p.
Proof.
  intros W Hd L0. unfold serve_until_end.
  destruct (connected_log true d) as [L1 S1]. rewrite L0 in L1. set (m1 := Controller.framework _) in L1.
  set (d1 := Driver.set_connected true d) in *.
  assert (sound d1) as Hd1 by (unfold sound; rewrite S1; exact Hd).
  assert (∀ e d2, sound d2 → log_of d2 = log_of d1 →
    (∀ d', (∀ r, Session.closed (session_of d2) = Some r → Session.closed (session_of d') = Some r) →
       ended_by w (outcome_of_ending e) d') →
    ∃ p, (d3 ← detach w d2; Done (Ended (outcome_of_ending e) (Some d3))) = Done p ∧ tidy w enter m p) as Hend.
  { intros e d2 Hd2 L2 He. destruct (detach_spec w d2 W Hd2) as (d3 & m2 & -> & Ho & L3 & C3).
    cbn [mbind outcome_bind]. eexists. split; [done|]. right. split; [by apply He|]. split; [done|].
    exists m1, m2. rewrite L3, L2, L1. by rewrite <- (assoc_L (++)). }
  destruct (signals w) eqn:Esig; [|by apply (Hend NoSignal)].
  destruct (await_ending_spec (turns w) d1 (calm_turns w W) Hd1) as [Hc He].
  destruct (Hc Hd1) as (Hd2 & L2 & _). destruct (await_ending (turns w) d1) as [[e|] d2]; cbn [fst snd] in *.
  - apply Hend; [done..|]. intros d' Hcl. destruct e as [| | |r]; cbn; [| |done|by apply Hcl].
    + eapply Exists_impl; [exact He|]. auto.
    + eapply Exists_impl; [exact He|]. auto.
  - eexists. split; [done|]. split; [done|]. destruct He as [He1 He2].
    split; [done|]. split; [done|]. exists m1. congruence.
Qed.

(** A new driver: nothing is plugged in, and the session is fresh. *)
Lemma new_sound device (m : M) (d : driver) :
  Driver.new (Engine.new (device, start device)) (ExportedDevice.speed device) m = Some d →
  log_of d = noticed m ∧ sound d.
Proof.
  intros En. assert (log_of d = noticed m ∧ session_of d = start device) as [L0 S0].
  { unfold Driver.new, Driver.new_clock in En. destruct (mach_timebase_info m) as [numer denom].
    pose proof (time_noticed m) as Ht. destruct (mach_absolute_time m) as [epoch m1].
    unfold Controller.call in En. cbn -[capabilities] in En. pose proof (init_noticed capabilities m1) as Hi.
    destruct (init_interface capabilities m1) as [[|] m2]; [injection En as <-|done].
    split; [|done]. unfold log_of. cbn in *. congruence. }
  split; [done|]. unfold sound. rewrite S0. split; [exists []; apply System.ok_start|].
  unfold pending. cbn. rewrite map_size_empty. lia.
Qed.

Lemma attach_spec connect selector enter m w :
  calm_world w → ∃ p, attach connect selector enter m w = Done p ∧ tidy w enter m p.
Proof.
  intros W. unfold attach. destruct (import_returns connect selector) as (x & -> & Hx).
  cbn [mbind outcome_bind].
  destruct x as [[device sh]|e]; [|exists (Ended (Err (ImportFailed e)) None); split; [done|right; eauto]].
  specialize (Hx device sh eq_refl) as ->.
  destruct (Driver.new _ _ m) as [d0|] eqn:En; [|exists (Ended (Err ControllerFailed) None); by split; [|left]].
  destruct (new_sound device m d0 En) as [L0 Hd0].
  destruct (wait_powered_calm (powering w) d0 (calm_powering w W)) as [Hc1 Hpow].
  destruct (Hc1 Hd0) as (Hd1 & L1 & _). rewrite L0 in L1.
  destruct (Driver.wait_powered (powering w) d0) as [[|] d1]; cbn [fst snd negb] in *.
  2: { eexists. split; [done|]. by split. }
  destruct enter; [|by apply serve_until_end_spec].
  destruct (calm_pressing w W d1 Hd1) as (Hd2 & L2 & _). destruct (pressing w d1) as [b d2]. cbn [snd] in *.
  destruct b as [[|]|].
  - apply serve_until_end_spec; [done..|congruence].
  - eexists. split; [done|]. left. split; [done|]. split; [done|].
    unfold log_of in *. cbn. rewrite destroy_noticed. congruence.
  - eexists. split; [done|]. split; [done|congruence].
Qed.

(** C21: Attaching cleans up however it ends, and waits only where it should: whatever the server, the user
    and the kernel do meanwhile, it never panics.  It still waits only for the root port's power, for Enter,
    or, while the device is plugged in, for a signal or the end of the session, none of which has come.  If
    it ends, either there never was a controller; or the terminal failed, and the controller is destroyed
    without the device ever being plugged in (the session is not closed then); or it ended for the reason it
    reports, the port was plugged in and out again (each time if there was a root port to be found, in this
    order, before the controller is destroyed), and the session is closed, every request it accepted answered
    exactly once ([tidy]). *)
Theorem attach_ends connect selector enter m w :
  calm_world w → ∃ p, attach connect selector enter m w = Done p ∧ tidy w enter m p.
Proof. apply attach_spec. Qed.

(** The program does not panic on any command line clap accepts. *)
Lemma main_returns matches runtime (connect : text → nat → result io_error R) m w :
  Matches.accepted matches → calm_world w → returns (main matches runtime connect m w).
Proof.
  intros Ha W. pose proof Ha as ([host Eh] & (port & Ep & _) & _).
  destruct (parse_spec matches host port Ha Eh Ep) as (args & p & Ea & _). unfold main. rewrite Ea.
  cbn [mbind outcome_bind]. destruct (negb runtime); [by eexists|].
  destruct (Args.action args) as [|selector enter].
  - unfold list. destruct (connect _ _) as [stream|e]; [|by eexists].
    destruct (list_devices_returns stream) as (x & r' & ->). cbn [mbind outcome_bind].
    destruct x; by eexists.
  - destruct (attach_spec (connect (Args.address args)) selector enter m w W) as (q & -> & _).
    by eexists.
Qed.

End Attached.

(** ** A run: the test server's device is attached until Ctrl-C *)

Import Reference.

Module AttachRun.

(** A framework that accepts everything; its state is what the interface was told. *)
Notation state := (Datatypes.list notice).

#[global] Instance framework : Framework state := {
  inspect_command _ _ m := (true, m);
  respond _ _ _ m := (true, m);
  respond_frame _ _ _ _ m := (true, m);
  respond_address _ _ _ _ m := (true, m);
  controller_active _ := true;
  enqueue_updated_frame _ _ m := (true, m);
  port_for_command _ _ := Some 1;
  update_link_state _ _ m := (true, m);
  init_device _ m := (Some 7, m);
  init_endpoint _ m := (Some 9, m);
  endpoint_key _ _ := (1, 0x81);
  process_doorbell _ _ m := (true, m);
  mach_absolute_time m := (1000, m);
  memory _ n _ := replicate n 0;
}.

#[global] Instance interface : HostInterface state := {
  mach_timebase_info _ := (125, 3);
  init_interface _ m := (true, m);
  root_port_machine _ _ := Some 1;
  set_port_connected _ b m := m ++ [Plugged b];
  destroy_interface m := m ++ [Destroyed];
}.

#[global] Instance log : InterfaceLog state.
Proof. by refine {| noticed (m : state) := m |}. Defined.

#[global] Instance sdk : Sdk := {|
  CONTROLLER_CAPABILITIES := 0; PORT_CAPABILITIES := 1; TYPE_PHASE := 0; SDK_NO_RESPONSE := 2 ^ 14;
  SDK_VALID := 2 ^ 15; PORT_COUNT_PHASE := 16; COMMAND_TIMEOUT_THRESHOLD_PHASE := 0;
  CONNECTION_LATENCY_PHASE := 4; PORT_NUMBER_PHASE := 16; MAX_POWER_PHASE := 0 |}.

#[global] Instance sdk_laws : SdkLaws.
Proof. by split. Defined.

Notation driver := (Driver.t (Engine.t Live.session Sim.endpoint) state).

(** While the device is attached, a request is submitted. *)
Definition busy (d : driver) : driver :=
  match Session.submit (SubmitRequest.new 0x81 Direction.In 6) (session_of d) with
  | Done (_, sh) => with_session sh d
  | _ => d
  end.

(** The kernel powers the root port. *)
Definition power (d : driver) : driver := Driver.set_shared (Controller.set_powered true (Driver.shared d)) d.

Definition w : world (E := Sim.endpoint) (M := state) :=
  mk_world [power] (λ d, (Some true, d)) true
    [mk_turn (λ d, if (pending (session_of d) =? 0)%nat then busy d else d) false false 0; mk_turn id true false 2] [].

Definition connect (n : nat) : result io_error duplex :=
  Ok (match (if n then devlist_reply [Samples.export] else import_reply (Some Samples.export)) with
      | Done out => (out, []) | _ => ([], []) end).

Lemma calm_w : calm_world w.
Proof.
  split; [apply Forall_singleton; by intros d|done| |by apply Forall_nil].
  apply Forall_cons. split; [|apply Forall_singleton; by intros d]. cbn [moves]. intros d [[iss I] Hp].
  destruct (pending (session_of d) =? 0)%nat eqn:E0; [apply Nat.eqb_eq in E0|by split; [by split; [exists iss|]|]].
  unfold busy. destruct (ops_return _ _ I Hp) as [_ Hs].
  destruct (Hs (SubmitRequest.new 0x81 Direction.In 6)) as [[x sh] E]. rewrite E.
  assert (Session.closed sh = Session.closed (session_of d)) as Ec.
  { apply submit_cases in E. destruct x as [[n c]|[| |]]; [| |by destruct E as (_ & _ & ->)|by destruct E as [-> _]].
    - by destruct E as (_ & _ & _ & _ & ->).
    - done. }
  split; [|split; [done|cbn; congruence]]. eapply sound_with_session; [by eapply ok_submit|].
  apply submit_cases in E. destruct x as [[n c]|[| |]]; [| |by destruct E as (_ & _ & ->)|by destruct E as [-> _]].
  - destruct E as (_ & _ & _ & _ & ->). unfold pending in *. cbn.
    rewrite map_size_insert. case_match; cbn; lia.
  - done.
Qed.

Definition d0 : driver :=
  Driver.mk (Controller.start (Engine.new (HostRun.dev, start HostRun.dev)) Speed.High HostRun.clock0 []) false.

Definition final : driver :=
  match attach connect (Selector.DevNum 2) true [] w with Done (Ended _ (Some d)) => d | _ => d0 end.

End AttachRun.

Lemma attach_ends_witness :
  attach AttachRun.connect (Selector.DevNum 2) true [] AttachRun.w = Done (Ended (Ok tt) (Some AttachRun.final)) ∧
  over (session_of AttachRun.final) ∧
  log_of AttachRun.final = [Plugged true; Plugged false; Destroyed].
Proof.
  assert (attach AttachRun.connect (Selector.DevNum 2) true [] AttachRun.w
    = Done (Ended (Ok tt) (Some AttachRun.final))) as E by (vm_compute; reflexivity).
  destruct (attach_ends AttachRun.connect (Selector.DevNum 2) true [] AttachRun.w AttachRun.calm_w)
    as (p & E2 & H).
  rewrite E in E2. injection E2 as <-. split; [exact E|].
  destruct H as [[H _]|(_ & Ho & m1 & m2 & Hl)]; [discriminate|]. exact (conj Ho Hl).
Defined.
