(* ===== verification/Devices.v ===== *)
(** * Devices: the simulated loopback device (src/tests/support/device.rs)

    What the repository's server exports in its tests and in examples/mock_server.rs: a device with a
    bulk FIFO, an interrupt counter, isochronous endpoints and vendor requests.  [control] and [act] are
    its handlers; [step] interleaves the URBs that are in progress, since a bulk read waits until
    something was written.  The file also holds [Export::new] of the server. *)

From stdpp Require Import base tactics option list gmap fin_maps relations.
From S2P Require Import Prelude Wire Protocol ProtocolFacts Server Serving Hci Cli.

(** ** The setup packet of a URB *)

Definition EPIPE : Z := 32.

Definition request_type (u : Urb.t) : Z := at_ (Urb.setup u) 0.
Definition request (u : Urb.t) : Z := at_ (Urb.setup u) 1.
Definition value (u : Urb.t) : Z := le_to_Z [at_ (Urb.setup u) 2; at_ (Urb.setup u) 3].
Definition index (u : Urb.t) : Z := le_to_Z [at_ (Urb.setup u) 4; at_ (Urb.setup u) 5].
Definition w_length (u : Urb.t) : Z := le_to_Z [at_ (Urb.setup u) 6; at_ (Urb.setup u) 7].

(** [Completion::status] *)
Definition completion_status (status : Z) : Completion.t :=
  let c := completion_ok [] in
  Completion.mk status (Completion.data c) (Completion.actual_length c) (Completion.iso c)
    (Completion.start_frame c).

(** ** [Export::new] *)

Definition DASH : Z := 0x2d.
Definition DOT : Z := 0x2e.

(** [busid.split(['-', '.'])]: the first part, and the rest if there was a separator. *)
Fixpoint split_once (s : list Z) : list Z * option (list Z) :=
  match s with
  | [] => ([], None)
  | c :: s =>
    if (c =? DASH) || (c =? DOT) then ([], Some s)
    else let '(part, rest) := split_once s in (c :: part, rest)
  end.

Definition is_digit (c : Z) : bool := (0x30 <=? c) && (c <=? 0x39).

(** [parse::<u32>().ok()]: decimal digits, after at most one plus sign, without overflow. *)
Definition parse_u32 (s : list Z) : option Z :=
  let s := match s with 0x2b :: s => s | _ => s end in
  if (length s =? 0)%nat || negb (forallb is_digit s) then None
  else let n := undecimal s in if n <? 2 ^ 32 then Some n else None.

(** "/sys/devices/platform/vhci_hcd.0/usb" *)
Definition SYS_PATH : list Z :=
  [0x2f; 0x73; 0x79; 0x73; 0x2f; 0x64; 0x65; 0x76; 0x69; 0x63; 0x65; 0x73; 0x2f; 0x70; 0x6c; 0x61;
   0x74; 0x66; 0x6f; 0x72; 0x6d; 0x2f; 0x76; 0x68; 0x63; 0x69; 0x5f; 0x68; 0x63; 0x64; 0x2e; 0x30;
   0x2f; 0x75; 0x73; 0x62].

Definition export_new (busid : list Z) : ExportDev.t :=
  let '(first, rest) := split_once busid in
  let second := fst ∘ split_once <$> rest in
  let busnum := default 1 (parse_u32 first) in
  let devnum := default 2 (p ← second; parse_u32 p) in
  ExportDev.mk (SYS_PATH ++ digits 10 busnum ++ [0x2f] ++ busid) busid busnum devnum 3 0x1209 0x0001
    0x0100 [0; 0; 0] 1 1 [[0xff; 0; 0]].

(** ** The device *)

Module Loopback.

Definition VID : Z := 0x1209.
Definition PID : Z := 0x7357.

(** "usbip-macos tests", "Loopback", "LB0001", in UTF-16 *)
Definition MANUFACTURER : list Z :=
  [0x75; 0x73; 0x62; 0x69; 0x70; 0x2d; 0x6d; 0x61; 0x63; 0x6f; 0x73; 0x20; 0x74; 0x65; 0x73; 0x74; 0x73].
Definition PRODUCT : list Z := [0x4c; 0x6f; 0x6f; 0x70; 0x62; 0x61; 0x63; 0x6b].
Definition SERIAL : list Z := [0x4c; 0x42; 0x30; 0x30; 0x30; 0x31].

Definition REQ_WRITE : Z := 0x01.
Definition REQ_READ : Z := 0x02.
Definition REQ_STALL : Z := 0x03.
Definition REQ_HALT : Z := 0x04.
Definition REQ_PATTERN : Z := 0x05.
Definition REQ_SHORT : Z := 0x06.
Definition REQ_DISCONNECT : Z := 0x07.

Definition EP_BULK_OUT : Z := 0x01.
Definition EP_BULK_IN : Z := 0x81.
Definition EP_INT_IN : Z := 0x82.
Definition EP_ISO_IN : Z := 0x83.
Definition EP_ISO_OUT : Z := 0x03.

Definition pattern (len : nat) (seed : Z) : list Z :=
  (λ i, wrap 8 (wrap 8 (wrap 8 (Z.of_nat i) * 31) + seed)) <$> seq 0 len.

Definition device_descriptor : list Z :=
  [18; 1; 0x00; 0x02; 0x00; 0x00; 0x00; 64] ++ le_bytes 2 VID ++ le_bytes 2 PID
  ++ [0x00; 0x01; 1; 2; 3; 1].

Definition endpoint (address attributes max_packet interval : Z) : list Z :=
  [7; 5; address; attributes] ++ le_bytes 2 max_packet ++ [interval].

Definition configuration_body : list Z :=
  [9; 4; 0; 0; 3; 0xff; 0; 0; 0]
  ++ endpoint EP_BULK_OUT 2 512 0 ++ endpoint EP_BULK_IN 2 512 0 ++ endpoint EP_INT_IN 3 64 4
  ++ [9; 4; 1; 0; 0; 0xff; 0; 0; 0] ++ [9; 4; 1; 1; 2; 0xff; 0; 0; 0]
  ++ endpoint EP_ISO_IN 1 64 4 ++ endpoint EP_ISO_OUT 1 64 4.

Definition configuration_descriptor : list Z :=
  let total := wrap 16 (9 + Z.of_nat (length configuration_body)) in
  [9; 2] ++ le_bytes 2 total ++ [2; 1; 0; 0x80; 50] ++ configuration_body.

Definition string_descriptor (units : list Z) : list Z :=
  [wrap 8 (Z.of_nat (2 + length units * 2)); 3] ++ concat (le_bytes 2 <$> units).

Module State.

Record t : Type := mk {
  fifo : list Z;
  control : list Z;
  halted : list Z;
  configuration : Z;
  alternate : list Z;
  interrupt_counter : Z;
  iso_out : list Z;
}.

Definition default : t := mk [] [] [] 0 [0; 0] 0 [].

Definition set_fifo (x : list Z) (s : t) : t :=
  mk x (control s) (halted s) (configuration s) (alternate s) (interrupt_counter s) (iso_out s).
Definition set_control (x : list Z) (s : t) : t :=
  mk (fifo s) x (halted s) (configuration s) (alternate s) (interrupt_counter s) (iso_out s).
Definition set_halted (x : list Z) (s : t) : t :=
  mk (fifo s) (control s) x (configuration s) (alternate s) (interrupt_counter s) (iso_out s).
Definition set_configuration (x : Z) (s : t) : t :=
  mk (fifo s) (control s) (halted s) x (alternate s) (interrupt_counter s) (iso_out s).
Definition set_alternate (x : list Z) (s : t) : t :=
  mk (fifo s) (control s) (halted s) (configuration s) x (interrupt_counter s) (iso_out s).
Definition set_interrupt_counter (x : Z) (s : t) : t :=
  mk (fifo s) (control s) (halted s) (configuration s) (alternate s) x (iso_out s).
Definition set_iso_out (x : list Z) (s : t) : t :=
  mk (fifo s) (control s) (halted s) (configuration s) (alternate s) (interrupt_counter s) x.

End State.

(** [LoopbackDevice::export] *)
Definition export (busid : list Z) : ExportDev.t :=
  let e := export_new busid in
  ExportDev.mk (ExportDev.path e) (ExportDev.busid e) (ExportDev.busnum e) (ExportDev.devnum e)
    (ExportDev.speed e) VID PID (ExportDev.bcd_device e) (ExportDev.class e)
    (ExportDev.configuration_value e) (ExportDev.num_configurations e) [[0xff; 0; 0]; [0xff; 0; 0]].

(** [truncate(w_length)] *)
Definition reply (u : Urb.t) (data : list Z) : Outcome.t :=
  Outcome.Complete (completion_ok (take (Z.to_nat (w_length u)) data)).

Definition stall : Outcome.t := Outcome.Complete (completion_status (- EPIPE)).

Definition ack : Outcome.t := Outcome.Complete (completion_written 0).

(** GET_DESCRIPTOR *)
Definition descriptor (u : Urb.t) : Outcome.t :=
  let kind := value u / 256 in
  let index := value u mod 256 in
  if (kind =? 1) && (index =? 0) then reply u device_descriptor
  else if (kind =? 2) && (index =? 0) then reply u configuration_descriptor
  else if (kind =? 3) && (index =? 0) then reply u [4; 3; 0x09; 0x04]
  else if (kind =? 3) && (index =? 1) then reply u (string_descriptor MANUFACTURER)
  else if (kind =? 3) && (index =? 2) then reply u (string_descriptor PRODUCT)
  else if (kind =? 3) && (index =? 3) then reply u (string_descriptor SERIAL)
  else if (kind =? 6) && (index =? 0) then reply u [10; 6; 0x00; 0x02; 0; 0; 0; 64; 1; 0]
  else stall.

(** [LoopbackDevice::control], with the state locked: the first arm that matches. *)
Definition control (u : Urb.t) (s : State.t) : Outcome.t * State.t :=
  let matches t r := (request_type u =? t) && (request u =? r) in
  if matches 0x80 6 then (descriptor u, s)
  else if matches 0x00 9 then (ack, State.set_configuration (wrap 8 (value u)) s)
  else if matches 0x80 8 then (reply u [State.configuration s], s)
  else if (0x80 <=? request_type u) && (request_type u <=? 0x82) && (request u =? 0)
    then (reply u [0; 0], s)
  else if matches 0x01 11 then
    if 1 <? index u then (stall, s)
    else (ack, State.set_alternate (<[Z.to_nat (index u) := wrap 8 (value u)]> (State.alternate s)) s)
  else if matches 0x81 10 then
    match State.alternate s !! Z.to_nat (index u) with
    | Some alt => (reply u [alt], s)
    | None => (stall, s)
    end
  else if matches 0x02 1 then
    (ack, State.set_halted (base.filter (λ h, h ≠ wrap 8 (index u)) (State.halted s)) s)
  else if matches 0x02 3 || matches 0x00 1 || matches 0x00 3 || matches 0x00 5 then (ack, s)
  else if matches 0x40 REQ_WRITE then
    (Outcome.Complete (completion_written (wrap 32 (Z.of_nat (length (Urb.data u))))),
     State.set_control (Urb.data u) s)
  else if matches 0xc0 REQ_READ then (reply u (State.control s), s)
  else if matches 0xc0 REQ_STALL || matches 0x40 REQ_STALL then (stall, s)
  else if matches 0x40 REQ_HALT then (ack, State.set_halted (State.halted s ++ [wrap 8 (value u)]) s)
  else if matches 0xc0 REQ_PATTERN then (reply u (pattern (Z.to_nat (w_length u)) (wrap 8 (value u))), s)
  else if matches 0xc0 REQ_SHORT then (reply u (pattern (Z.to_nat (value u)) 0), s)
  else if request u =? REQ_DISCONNECT then (Outcome.Disconnect, s)
  else (stall, s).

(** An isochronous descriptor whose packet was filled, with its status; or emptied, keeping it. *)
Definition filled (d : IsoDesc.t) : IsoDesc.t := IsoDesc.mk (IsoDesc.offset d) (IsoDesc.length d) (IsoDesc.length d) 0.
Definition emptied (d : IsoDesc.t) : IsoDesc.t :=
  IsoDesc.mk (IsoDesc.offset d) (IsoDesc.length d) (IsoDesc.length d) (IsoDesc.status d).

Definition with_iso (iso : list IsoDesc.t) (c : Completion.t) : Completion.t :=
  Completion.mk (Completion.status c) (Completion.data c) (Completion.actual_length c) iso
    (Completion.start_frame c).

(** [submit_urb] past the check of [halted], on the locked state; [None] while a bulk read waits. *)
Definition act (u : Urb.t) (s : State.t) : option (Outcome.t * State.t) :=
  let ep := urb_address u in
  if ep =? EP_BULK_OUT then
    Some (Outcome.Complete (completion_written (wrap 32 (Z.of_nat (length (Urb.data u))))),
          State.set_fifo (State.fifo s ++ Urb.data u) s)
  else if ep =? EP_BULK_IN then
    if (length (State.fifo s) =? 0)%nat then None
    else
      let n := (length (State.fifo s) `min` Z.to_nat (Urb.length u))%nat in
      Some (Outcome.Complete (completion_ok (take n (State.fifo s))),
            State.set_fifo (drop n (State.fifo s)) s)
  else if ep =? EP_INT_IN then
    let counter := wrap 64 (State.interrupt_counter s + 1) in
    Some (Outcome.Complete (completion_ok (take (Z.to_nat (Urb.length u)) (le_bytes 8 counter))),
          State.set_interrupt_counter counter s)
  else if ep =? EP_ISO_IN then
    let data := concat ((λ d, pattern (Z.to_nat (IsoDesc.length d)) (wrap 8 (IsoDesc.offset d))) <$> Urb.iso u) in
    Some (Outcome.Complete (with_iso (filled <$> Urb.iso u) (completion_ok data)), s)
  else if ep =? EP_ISO_OUT then
    Some (Outcome.Complete (with_iso (emptied <$> Urb.iso u) (completion_written (Urb.length u))),
          State.set_iso_out (State.iso_out s ++ Urb.data u) s)
  else Some (Outcome.Complete (completion_status (- EPIPE)), s).

Definition ENDPOINTS : list (Z * Z) :=
  [(EP_BULK_OUT, 2); (EP_BULK_IN, 2); (EP_INT_IN, 3); (EP_ISO_IN, 1); (EP_ISO_OUT, 1)].

(** ** URBs in progress *)

(** The state, and the URBs that have passed the check of [halted] and wait for their turn. *)
Record world : Type := mk_world { state : State.t; waiting : list Urb.t }.

Inductive label : Type :=
| Answer (u : Urb.t) (o : Outcome.t)
| Reset
| Silent.

Inductive step : world → label → world → Prop :=
| step_control w u o s :
    Urb.ep u = 0 → control u (state w) = (o, s) → step w (Answer u o) (mk_world s (waiting w))
| step_halted w u :
    Urb.ep u ≠ 0 → urb_address u ∈ State.halted (state w) → step w (Answer u stall) w
| step_admit w u :
    Urb.ep u ≠ 0 → urb_address u ∉ State.halted (state w) →
    step w Silent (mk_world (state w) (waiting w ++ [u]))
| step_act w u us us' o s :
    waiting w = us ++ u :: us' → act u (state w) = Some (o, s) →
    step w (Answer u o) (mk_world s (us ++ us'))
(** The future of an unlinked URB is dropped. *)
| step_drop w u us us' :
    waiting w = us ++ u :: us' → step w Silent (mk_world (state w) (us ++ us'))
| step_reset w : step w Reset (mk_world State.default (waiting w)).

Inductive run : list label → world → Prop :=
| run_start : run [] (mk_world State.default [])
| run_step ls w l w' : run ls w → step w l w' → run (ls ++ [l]) w'.

End Loopback.
