(* ===== verification/DevicesSpec.v ===== *)
(** * DevicesSpec: what the loopback device promises

    The bulk FIFO hands back exactly the bytes that were written, in order; whatever is submitted within
    the protocol is completed within the bounds of the request; the state keeps its types. *)

From stdpp Require Import base tactics option list gmap fin_maps relations.
From S2P Require Import Prelude Wire Protocol ProtocolFacts Codec Server Serving Peers Hci Cli Devices.

Import Loopback.

(** ** URBs within the protocol *)

(** The bytes the packets of a transfer ask for. *)
Definition total_of (iso : list IsoDesc.t) : Z := foldr (λ d n, IsoDesc.length d + n) 0 iso.

(** A URB as a host submits it: fields of their widths, data as long as announced, and buffers that hold
    what the setup packet or the isochronous packets ask for. *)
Record asked_well (u : Urb.t) : Prop := {
  aw_length : is_u 32 (Urb.length u);
  aw_data : bytes_ok (Urb.data u);
  aw_out : Urb.is_in u = false → Z.of_nat (length (Urb.data u)) = Urb.length u;
  aw_setup : bytes_ok (Urb.setup u);
  aw_control : Urb.ep u = 0 → Urb.is_in u = true → w_length u ≤ Urb.length u;
  aw_packets : Z.of_nat (length (Urb.iso u)) ≤ 1024;
  aw_iso : Forall (λ d, Iso.wf (Iso.to_client d)) (Urb.iso u);
  aw_room : total_of (Urb.iso u) ≤ Urb.length u;
}.

Record state_ok (s : State.t) : Prop := {
  so_fifo : bytes_ok (State.fifo s);
  so_control : bytes_ok (State.control s);
  so_halted : bytes_ok (State.halted s);
  so_configuration : is_u 8 (State.configuration s);
  so_alternate : bytes_ok (State.alternate s);
  so_interfaces : length (State.alternate s) = 2%nat;
  so_counter : is_u 64 (State.interrupt_counter s);
  so_iso_out : bytes_ok (State.iso_out s);
}.

(** What the device made of a URB keeps to it; only the request for it makes the device go away. *)
Definition answers_well (u : Urb.t) (o : Outcome.t) : Prop :=
  match o with
  | Outcome.Complete c => completion_fits u c
  | Outcome.Raw _ => False
  | Outcome.Disconnect => Urb.ep u = 0 ∧ request u = REQ_DISCONNECT
  end.

Lemma default_ok : state_ok State.default.
Proof. constructor; try done; try (by apply (bool_decide_unpack _)). Qed.

(** ** Completions within bounds *)

Lemma pattern_ok n seed : bytes_ok (pattern n seed).
Proof. apply Forall_forall. intros b (i & -> & _)%list_elem_of_fmap. apply wrap_is_u. lia. Qed.

Lemma length_pattern n seed : length (pattern n seed) = n.
Proof. unfold pattern. by rewrite length_fmap, length_seq. Qed.

(** A completion that carries data: no more than the request has room for. *)
Lemma ok_fits u data : 0 ≤ Urb.length u → bytes_ok data →
  (Urb.is_in u = true → Z.of_nat (length data) ≤ Urb.length u) → completion_fits u (completion_ok data).
Proof.
  intros H0 Hd Hl. constructor; cbn; try done; try (by apply (bool_decide_unpack _)).
  unfold actual_of. cbn. destruct (Urb.is_in u); [specialize (Hl eq_refl)|]; lia.
Qed.

Lemma written_fits u n : 0 ≤ Urb.length u → 0 ≤ n → (Urb.is_in u = false → n ≤ Urb.length u) →
  completion_fits u (completion_written n).
Proof.
  intros H0 Hn Hl. constructor; cbn; try done; try (by apply (bool_decide_unpack _)).
  unfold actual_of. cbn. destruct (Urb.is_in u); [lia|specialize (Hl eq_refl); lia].
Qed.

Lemma stall_fits u : 0 ≤ Urb.length u → completion_fits u (completion_status (- EPIPE)).
Proof.
  intros H0. constructor; cbn; try done; try (by apply (bool_decide_unpack _)).
  unfold actual_of. cbn. destruct (Urb.is_in u); lia.
Qed.

Lemma with_iso_fits u c iso : completion_fits u c → Z.of_nat (length iso) ≤ 1024 →
  Forall (λ d, Iso.wf (Iso.to_client d)) iso → completion_fits u (with_iso iso c).
Proof. intros [] ? ?. by constructor. Qed.

Section Answer.
Context (u : Urb.t) (A : asked_well u).

Local Lemma length_pos : 0 ≤ Urb.length u.
Proof. apply A. Qed.

Local Lemma setup_field i : is_u 8 (at_ (Urb.setup u) i).
Proof. apply at_u8, A. Qed.

Local Lemma w_length_pos : 0 ≤ w_length u.
Proof.
  unfold w_length. pose proof (setup_field 6). pose proof (setup_field 7). unfold is_u in *. cbn. lia.
Qed.

Local Lemma reply_well data : Urb.ep u = 0 → bytes_ok data → answers_well u (reply u data).
Proof.
  intros He Hd. apply ok_fits; [apply length_pos|by apply Forall_take|].
  intros Hi. rewrite length_take. pose proof (aw_control _ A He Hi). pose proof w_length_pos. lia.
Qed.

Local Lemma stall_well : answers_well u stall.
Proof. apply stall_fits, length_pos. Qed.

Local Lemma ack_well : answers_well u ack.
Proof. apply written_fits; pose proof length_pos; lia. Qed.

(** How many bytes an OUT transfer reports as written. *)
Local Lemma wrote_well :
  completion_fits u (completion_written (wrap 32 (Z.of_nat (length (Urb.data u))))).
Proof.
  apply written_fits; [apply length_pos|apply wrap_is_u; lia|].
  intros Hi. rewrite (aw_out _ A Hi), wrap_id by apply A. lia.
Qed.

Local Lemma descriptor_well : Urb.ep u = 0 → answers_well u (descriptor u).
Proof.
  intros He. unfold descriptor.
  repeat (case_match; [by apply reply_well; [|apply (bool_decide_unpack _)]|]). apply stall_well.
Qed.

Lemma control_well s o s' : Urb.ep u = 0 → control u s = (o, s') → state_ok s →
  answers_well u o ∧ state_ok s'.
Proof.
  intros He H S. unfold control in H. cbv zeta in H.
  pose proof ack_well. pose proof stall_well. destruct (S) as [].
  repeat match type of H with (if ?b then _ else _) = _ => destruct b eqn:? end.
  all: try (destruct (State.alternate s !! _) as [alt|] eqn:Ea).
  all: injection H as <- <-; split; try done.
  all: try (apply reply_well; [done|]); try (by apply descriptor_well); try (by apply wrote_well).
  all: try done; try (by apply pattern_ok); try (by apply (bool_decide_unpack _)).
  all: try (constructor; cbn; try done).
  all: try (by apply A); try (by apply wrap_is_u).
  - apply Forall_insert; [done|by apply wrap_is_u].
  - by rewrite length_insert.
  - exact (Forall_lookup_1 _ _ _ _ so_alternate0 Ea).
  - apply Forall_forall. intros h [_ Hh]%list_elem_of_filter. by apply (Forall_forall (is_u 8) (State.halted s)).
  - apply Forall_app. split; [done|]. constructor; [by apply wrap_is_u|done].
  - by apply Z.eqb_eq.
Qed.

Local Lemma filled_iso f : (∀ d, IsoDesc.offset (f d) = IsoDesc.offset d ∧ IsoDesc.length (f d) = IsoDesc.length d ∧
    IsoDesc.actual_length (f d) = IsoDesc.length d ∧ (IsoDesc.status (f d) = 0 ∨ IsoDesc.status (f d) = IsoDesc.status d)) →
  Forall (λ d, Iso.wf (Iso.to_client d)) (f <$> Urb.iso u).
Proof.
  intros Hf. apply Forall_fmap. eapply Forall_impl; [apply A|].
  intros d (? & ? & ? & ?). destruct (Hf d) as (E1 & E2 & E3 & E4).
  unfold Iso.wf, Iso.to_client in *. cbn in *. rewrite E1, E2, E3. repeat split; try apply H || apply H0.
  all: by destruct E4 as [->| ->]; [|apply H2].
Qed.

Local Lemma length_patterns iso : Forall (λ d, Iso.wf (Iso.to_client d)) iso →
  Z.of_nat (length (concat ((λ d, pattern (Z.to_nat (IsoDesc.length d)) (wrap 8 (IsoDesc.offset d))) <$> iso)))
  = total_of iso.
Proof.
  induction 1 as [|d iso (_ & [] & _) _ IH]; [done|]. cbn in *.
  rewrite length_app, length_pattern. unfold total_of in *. lia.
Qed.

Lemma act_well s o s' : act u s = Some (o, s') → state_ok s → answers_well u o ∧ state_ok s'.
Proof.
  intros H S. unfold act in H. cbv zeta in H. pose proof length_pos.
  pose proof (filled_iso filled) as Hf. pose proof (filled_iso emptied) as He'.
  destruct (S) as [].
  repeat match type of H with (if ?b then _ else _) = _ => destruct b eqn:? end; try done.
  all: injection H as <- <-; split; try done.
  - by apply wrote_well.
  - constructor; cbn; try done. apply Forall_app. split; [done|apply A].
  - apply ok_fits; [done|by apply Forall_take|]. rewrite length_take. lia.
  - constructor; cbn; try done. by apply Forall_drop.
  - apply ok_fits; [done|exact (Forall_take _ _ _ (le_bytes_ok 8 _))|]. rewrite length_take. lia.
  - constructor; cbn; try done. apply wrap_is_u. lia.
  - apply with_iso_fits; [|rewrite length_fmap; apply A|].
    + apply ok_fits; [done| |].
      * apply Forall_concat, Forall_fmap, Forall_forall. intros d _. apply pattern_ok.
      * intros _. rewrite length_patterns; apply A.
    + apply Hf. intros d. cbn. auto.
  - apply with_iso_fits; [|rewrite length_fmap; apply A|].
    + apply written_fits; [done..|lia].
    + apply He'. intros d. cbn. auto.
  - constructor; cbn; try done. apply Forall_app. split; [done|apply A].
  - by apply stall_fits.
Qed.

End Answer.

(** ** Runs *)

Definition asked_well_in (ls : list label) : Prop := ∀ u o, Answer u o ∈ ls → asked_well u.

Lemma step_well w l w' : step w l w' → (∀ u o, l = Answer u o → asked_well u) → state_ok (state w) →
  (∀ u o, l = Answer u o → answers_well u o) ∧ state_ok (state w').
Proof.
  intros Hs Ha S.
  destruct Hs as [w u o s He E|w u He Hh|w u He Hh|w u us us' o s E Hact|w u us us' E|w].
  - destruct (control_well u (Ha _ _ eq_refl) (state w) o s He E S). split; [by intros ?? [= <- <-]|done].
  - split; [|done]. intros ?? [= <- <-]. by apply stall_well, (Ha _ _ eq_refl).
  - done.
  - destruct (act_well u (Ha _ _ eq_refl) (state w) o s Hact S). split; [by intros ?? [= <- <-]|done].
  - done.
  - split; [done|apply default_ok].
Qed.

Lemma run_well ls w : run ls w → asked_well_in ls →
  (∀ u o, Answer u o ∈ ls → answers_well u o) ∧ state_ok (state w).
Proof.
  intros Hr. induction Hr as [|ls w l w' _ IH Hs]; intros Ha.
  - split; [by intros u o ?%elem_of_nil|apply default_ok].
  - destruct IH as [IH S]; [intros u o Hin; apply (Ha u o); set_solver|].
    destruct (step_well w l w' Hs) as [Hl S']; [intros u o ->; apply (Ha u o); set_solver|done|].
    split; [|done]. intros u o [Hin|Hin%list_elem_of_singleton]%elem_of_app; [by apply IH|by apply Hl].
Qed.

(** The bytes a bulk OUT transfer that succeeded put in, and those a bulk IN transfer took out. *)
Definition fed (l : label) : list Z :=
  match l with
  | Answer u (Outcome.Complete c) =>
    if (urb_address u =? EP_BULK_OUT) && (Completion.status c =? 0) then Urb.data u else []
  | _ => []
  end.

Definition drained (l : label) : list Z :=
  match l with
  | Answer u (Outcome.Complete c) => if urb_address u =? EP_BULK_IN then Completion.data c else []
  | _ => []
  end.

(** The answers to interrupt transfers. *)
Definition polled (l : label) : nat :=
  match l with
  | Answer u (Outcome.Complete c) =>
    if (urb_address u =? EP_INT_IN) && (Completion.status c =? 0) then 1 else 0
  | _ => 0
  end.

(** What went in, what came out, and how often the counter was read, since the last reset. *)
Record account : Type := mk_account { put : list Z; got : list Z; polls : nat }.

Definition enter (a : account) (l : label) : account :=
  match l with
  | Reset => mk_account [] [] 0
  | _ => mk_account (put a ++ fed l) (got a ++ drained l) (polls a + polled l)
  end.

Definition tally (ls : list label) : account := foldl enter (mk_account [] [] 0) ls.

Lemma control_address u : Urb.ep u = 0 → urb_address u = 0 ∨ urb_address u = 0x80.
Proof. intros E. unfold urb_address. rewrite E. destruct (Urb.is_in u); [by right|by left]. Qed.

Lemma control_books u s o s' : control u s = (o, s') →
  State.fifo s' = State.fifo s ∧ State.interrupt_counter s' = State.interrupt_counter s.
Proof.
  intros H. unfold control in H. cbv zeta in H.
  repeat match type of H with
         | (if ?b then _ else _) = _ => destruct b
         | match ?x with Some _ => _ | None => _ end = _ => destruct x
         end; by injection H as <- <-.
Qed.

(** An answer enters in the books what it did to the queue and the counter. *)
Definition booked (u : Urb.t) (o : Outcome.t) (s s' : State.t) : Prop :=
  State.fifo s ++ fed (Answer u o) = drained (Answer u o) ++ State.fifo s' ∧
  State.interrupt_counter s' = wrap 64 (State.interrupt_counter s + Z.of_nat (polled (Answer u o))).

Lemma quiet_booked u o s s' : fed (Answer u o) = [] → drained (Answer u o) = [] → polled (Answer u o) = 0%nat →
  State.fifo s' = State.fifo s → State.interrupt_counter s' = State.interrupt_counter s →
  is_u 64 (State.interrupt_counter s) → booked u o s s'.
Proof.
  intros E1 E2 E3 E4 E5 H. unfold booked. rewrite E1, E2, E3, E4, E5, app_nil_r, Z.add_0_r. by rewrite wrap_id.
Qed.

Lemma control_booked u s o s' : Urb.ep u = 0 → control u s = (o, s') →
  is_u 64 (State.interrupt_counter s) → booked u o s s'.
Proof.
  intros He H Hc. destruct (control_books _ _ _ _ H).
  apply quiet_booked; try done; destruct o as [c| |]; try done; cbn;
    by destruct (control_address u He) as [->| ->].
Qed.

Lemma stall_booked u s : is_u 64 (State.interrupt_counter s) → booked u stall s s.
Proof.
  intros Hc. apply quiet_booked; try done; cbn; rewrite ?andb_false_r; try done; by case_match.
Qed.

Lemma act_booked u s o s' : act u s = Some (o, s') → is_u 64 (State.interrupt_counter s) → booked u o s s'.
Proof.
  intros H Hc. unfold act in H. cbv zeta in H.
  destruct (urb_address u =? EP_BULK_OUT) eqn:E1.
  { injection H as <- <-. apply Z.eqb_eq in E1. unfold booked. cbn. rewrite E1. cbn.
    rewrite Z.add_0_r. by rewrite wrap_id. }
  destruct (urb_address u =? EP_BULK_IN) eqn:E2.
  { case_match; [done|]. injection H as <- <-. apply Z.eqb_eq in E2. unfold booked. cbn. rewrite E2. cbn.
    by rewrite app_nil_r, take_drop, Z.add_0_r, wrap_id. }
  destruct (urb_address u =? EP_INT_IN) eqn:E3.
  { injection H as <- <-. apply Z.eqb_eq in E3. unfold booked. cbn. rewrite E3. cbn. by rewrite app_nil_r. }
  repeat match type of H with (if ?b then _ else _) = _ => destruct b end; injection H as <- <-;
    by apply quiet_booked; cbn; rewrite ?E1, ?E2, ?E3.
Qed.

Lemma step_booked w l w' : step w l w' → is_u 64 (State.interrupt_counter (state w)) →
  match l with
  | Answer u o => booked u o (state w) (state w')
  | Silent => state w' = state w
  | Reset => state w' = State.default
  end.
Proof.
  intros [] Hc; cbn; try done; [by eapply control_booked|by apply stall_booked|by eapply act_booked].
Qed.

Lemma run_booked ls w : run ls w →
  put (tally ls) = got (tally ls) ++ State.fifo (state w) ∧
  State.interrupt_counter (state w) = wrap 64 (Z.of_nat (polls (tally ls))).
Proof.
  induction 1 as [|ls w l w' _ [IH1 IH2] Hs]; [done|].
  pose proof (step_booked _ _ _ Hs ltac:(rewrite IH2; apply wrap_is_u; lia)) as H.
  unfold tally in *. rewrite foldl_app. cbn.
  destruct l as [u o| |]; cbn in *.
  - destruct H as [H1 H2]. cbn in H1, H2. rewrite IH1, <- !app_assoc, H1. split; [done|].
    rewrite H2, IH2, Nat2Z.inj_add. unfold wrap. by rewrite Zplus_mod_idemp_l.
  - by rewrite H.
  - by rewrite H, !app_nil_r, Nat.add_0_r.
Qed.

Lemma run_prefix ls1 l ls2 w : run (ls1 ++ l :: ls2) w → ∃ w1 w2, run ls1 w1 ∧ step w1 l w2.
Proof.
  revert w. induction ls2 as [|l' ls2 IH] using rev_ind; intros w H.
  - inversion H as [E|ls w1 l' w2 H1 H2 E]; [by destruct ls1|].
    apply app_inj_tail in E as [-> ->]. eauto.
  - inversion H as [E|ls w1 l'' w2 H1 H2 E]; [by destruct ls1|].
    rewrite app_comm_cons, app_assoc in E. apply app_inj_tail in E as [-> ->]. by eapply IH.
Qed.

Lemma poll_data w u c w' : step w (Answer u (Outcome.Complete c)) w' → urb_address u = EP_INT_IN →
  Completion.status c = 0 →
  Completion.data c = take (Z.to_nat (Urb.length u)) (le_bytes 8 (wrap 64 (State.interrupt_counter (state w) + 1))).
Proof.
  intros H Ea Es.
  inversion H as [? ? ? ? He Hc|? ? He Hh|?|? ? ? ? o s E Ha|?|?]; subst.
  - destruct (control_address u He) as [E|E]; rewrite E in Ea; done.
  - done.
  - unfold act in Ha. rewrite Ea in Ha. cbn in Ha. by injection Ha as <- _.
Qed.

(** ** The theorems *)

(** C37: The loopback device hands back what it was given: in every run, however its transfers interleave and
    whatever is unlinked or stalled, the bytes its bulk OUT transfers accepted since the last reset are the
    bytes its bulk IN transfers returned, in order, followed by what is still queued; and the interrupt
    transfer that is answered after n others since the reset reads n + 1. *)
Theorem loopback_echoes ls w : run ls w →
  put (tally ls) = got (tally ls) ++ State.fifo (state w) ∧
  ∀ ls1 u c ls2, ls = ls1 ++ Answer u (Outcome.Complete c) :: ls2 →
    urb_address u = EP_INT_IN → Completion.status c = 0 →
    Completion.data c = take (Z.to_nat (Urb.length u)) (le_bytes 8 (wrap 64 (Z.of_nat (polls (tally ls1)) + 1))).
Proof.
  intros H. split; [by apply run_booked|].
  intros ls1 u c ls2 -> Ea Es. destruct (run_prefix _ _ _ _ H) as (w1 & w2 & H1 & Hs).
  rewrite (poll_data _ _ _ _ Hs Ea Es), (proj2 (run_booked _ _ H1)).
  unfold wrap. by rewrite Zplus_mod_idemp_l.
Qed.

(** Whatever is submitted within the protocol, the loopback device completes it within the bounds of the
    request, so that a reply can carry it; it drops the connection only when the vendor request for that
    arrives; and its state keeps the types of the code's fields. *)
Theorem loopback_answers_well ls w : run ls w → asked_well_in ls →
  (∀ u o, Answer u o ∈ ls → answers_well u o) ∧ state_ok (state w).
Proof. apply run_well. Qed.

(** ** Enumeration: the driver reads the device's descriptors as the device means them *)

(** The endpoints of a run of descriptors, with their addresses. *)
Fixpoint endpoints_of (fuel : nat) (desc : list Z) : list (Z * option EndpointInfo.t) :=
  match fuel, desc with
  | S fuel, len :: kind :: _ =>
    let rest := endpoints_of fuel (drop (Z.to_nat len) desc) in
    if kind =? 5 then
      (at_ desc 2, match EndpointInfo.parse (take (Z.to_nat len) desc) with Done e => e | _ => None end) :: rest
    else rest
  | _, _ => []
  end.

(** The header announces the length the descriptor has, the parser of src/src/hci.rs finds in it the
    endpoints the device names to the server, each with its kind, and [hide_uas] leaves it alone. *)
Lemma descriptors_agree :
  length device_descriptor = 18%nat ∧
  le_to_Z (take 2 (drop 2 configuration_descriptor)) = Z.of_nat (length configuration_descriptor) ∧
  endpoints_of 9 configuration_descriptor =
    [(EP_BULK_OUT, Some (EndpointInfo.mk EndpointKind.Bulk 512 0));
     (EP_BULK_IN, Some (EndpointInfo.mk EndpointKind.Bulk 512 0));
     (EP_INT_IN, Some (EndpointInfo.mk EndpointKind.Interrupt 64 4));
     (EP_ISO_IN, Some (EndpointInfo.mk EndpointKind.Isochronous 64 4));
     (EP_ISO_OUT, Some (EndpointInfo.mk EndpointKind.Isochronous 64 4))] ∧
  (endpoints_of 9 configuration_descriptor).*1 = ENDPOINTS.*1 ∧
  hide_uas configuration_descriptor = Done (configuration_descriptor, None).
Proof. split_and!; vm_compute; reflexivity. Qed.

(** ** [Export::new] *)

Lemma split_once_digits p rest : Forall (λ d, 0x30 ≤ d ≤ 0x39) p → split_once (p ++ DASH :: rest) = (p, Some rest).
Proof.
  induction 1 as [|d p Hd _ IH]; [done|]. cbn [app split_once].
  unfold DASH, DOT in *. replace (d =? 45) with false by lia. replace (d =? 46) with false by lia.
  cbn [orb]. by rewrite IH.
Qed.

Lemma split_once_all p : Forall (λ d, 0x30 ≤ d ≤ 0x39) p → split_once p = (p, None).
Proof.
  induction 1 as [|d p Hd _ IH]; [done|]. cbn [app split_once].
  unfold DASH, DOT in *. replace (d =? 45) with false by lia. replace (d =? 46) with false by lia.
  cbn [orb]. by rewrite IH.
Qed.

Lemma parse_digits n : is_u 32 n → parse_u32 (digits 10 n) = Some n.
Proof.
  intros [H0 H1]. destruct (digits_spec 10 n) as (Hu & Hf & Hne); [lia|lia|].
  unfold parse_u32.
  assert ((match digits 10 n with 0x2b :: s => s | _ => digits 10 n end) = digits 10 n) as ->.
  { destruct (digits 10 n) as [|d s]; [done|]. inversion_clear Hf. repeat case_match; done || lia. }
  assert (forallb is_digit (digits 10 n) = true) as ->.
  { apply forallb_forall. intros d Hd%list_elem_of_In. rewrite Forall_forall in Hf. apply Hf in Hd.
    unfold is_digit. lia. }
  destruct (digits 10 n) eqn:E; [done|]. cbn [length Nat.eqb negb orb]. rewrite <- E, Hu in *.
  by replace (n <? 2 ^ 32) with true by lia.
Qed.

(** A bus id as Linux prints it names the bus and the device of its export. *)
Lemma export_new_numbers bus dev : is_u 32 bus → is_u 32 dev →
  let e := export_new (digits 10 bus ++ DASH :: digits 10 dev) in
  ExportDev.busnum e = bus ∧ ExportDev.devnum e = dev ∧
  ExportDev.path e = SYS_PATH ++ digits 10 bus ++ [0x2f] ++ ExportDev.busid e.
Proof.
  intros Hb Hd. pose proof Hb as [? ?]. pose proof Hd as [? ?].
  destruct (digits_spec 10 bus) as (_ & Hfb & _); [lia|lia|].
  destruct (digits_spec 10 dev) as (_ & Hfd & _); [lia|lia|].
  unfold export_new. rewrite split_once_digits by done. cbv zeta beta iota.
  change (fst ∘ split_once <$> Some (digits 10 dev)) with (Some (split_once (digits 10 dev)).1).
  rewrite split_once_all by done. cbv [fst mbind option_bind]. by rewrite (parse_digits bus), (parse_digits dev).
Qed.

(** ** A run: three bytes out, two back, a poll, and a request to read the status *)

Module LoopbackRun.

Definition out : Urb.t := Urb.mk 1 0x10002 0 1 0 3 0 0 0 (replicate 8 0) [1; 2; 3] [].
Definition inp : Urb.t := Urb.mk 2 0x10002 1 1 0 2 0 0 0 (replicate 8 0) [] [].
Definition poll : Urb.t := Urb.mk 3 0x10002 1 2 0 4 0 0 4 (replicate 8 0) [] [].
Definition status : Urb.t := Urb.mk 4 0x10002 1 0 0 2 0 0 0 [0x80; 0; 0; 0; 0; 0; 2; 0] [] [].

Definition polled_one : Completion.t := completion_ok [1; 0; 0; 0].

Definition last_state : State.t := State.mk [3] [] [] 0 [0; 0] 1 [].

Definition labels : list label :=
  [Silent; Silent; Answer out (Outcome.Complete (completion_written 3)); Silent;
   Answer inp (Outcome.Complete (completion_ok [1; 2])); Answer poll (Outcome.Complete polled_one);
   Answer status (Outcome.Complete (completion_ok [0; 0]))].

Lemma runs : run labels (mk_world last_state []).
Proof.
  pose (fed := State.set_fifo [1; 2; 3] State.default).
  pose (read := State.set_fifo [3] State.default).
  change labels with (((((((([] ++ [Silent]) ++ [Silent])
    ++ [Answer out (Outcome.Complete (completion_written 3))]) ++ [Silent])
    ++ [Answer inp (Outcome.Complete (completion_ok [1; 2]))])
    ++ [Answer poll (Outcome.Complete polled_one)])
    ++ [Answer status (Outcome.Complete (completion_ok [0; 0]))])).
  apply (run_step _ (mk_world last_state [])).
  2: { by apply (step_control (mk_world last_state [])). }
  apply (run_step _ (mk_world read [poll])).
  2: { by apply (step_act (mk_world read [poll]) poll [] []). }
  apply (run_step _ (mk_world fed [inp; poll])).
  2: { by apply (step_act (mk_world fed [inp; poll]) inp [] [poll]). }
  apply (run_step _ (mk_world fed [inp])).
  2: { apply (step_admit (mk_world fed [inp]) poll); [done|by intros ?%elem_of_nil]. }
  apply (run_step _ (mk_world State.default [inp; out])).
  2: { by apply (step_act (mk_world State.default [inp; out]) out [inp] []). }
  apply (run_step _ (mk_world State.default [inp])).
  2: { apply (step_admit (mk_world State.default [inp]) out); [done|by intros ?%elem_of_nil]. }
  apply (run_step _ (mk_world State.default [])); [apply run_start|].
  apply (step_admit (mk_world State.default []) inp); [done|by intros ?%elem_of_nil].
Qed.

Lemma asked : asked_well_in labels.
Proof.
  assert (∀ u, u ∈ [out; inp; poll; status] → asked_well u) as H.
  { apply Forall_forall. repeat constructor; cbn; try done; try lia; by apply (bool_decide_unpack _). }
  intros u o Hin. apply H. unfold labels in Hin. set_solver.
Qed.

End LoopbackRun.

Import LoopbackRun.

Lemma loopback_echoes_witness :
  put (tally labels) = [1; 2; 3] ∧ got (tally labels) = [1; 2] ∧
  put (tally labels) = got (tally labels) ++ [3] ∧
  Completion.data polled_one = take 4 (le_bytes 8 1).
Proof.
  destruct (loopback_echoes labels (mk_world last_state []) runs) as [H1 H2].
  split; [vm_compute; reflexivity|]. split; [vm_compute; reflexivity|]. split; [exact H1|].
  exact (H2 (take 5 labels) poll polled_one (drop 6 labels) eq_refl eq_refl eq_refl).
Defined.

Lemma loopback_answers_well_witness : answers_well inp (Outcome.Complete (completion_ok [1; 2])) ∧
  state_ok last_state.
Proof.
  destruct (loopback_answers_well labels (mk_world last_state []) runs asked) as [H1 H2].
  split; [|exact H2]. apply H1. unfold labels. right; right; right; right; left.
Defined.
