(* ===== verification/Probes.v ===== *)
(** * Probes: the example programs (src/examples)

    What the examples send and expect, against nusb as a class: the operations they call, on a host whose
    state is [W].  [LoopbackLaws] is what loopback_probe.rs and latency_probe.rs need of the device they are
    pointed at: a bulk loopback.  The file ends with the repository's own loopback device ([Devices]) as an
    instance. *)

From stdpp Require Import base tactics option list sets.
From S2P Require Import Prelude Wire Protocol ProtocolFacts Server Serving Peers Hci Cli Devices DevicesSpec.

(** ** Arguments *)

Notation text := (list Z) (only parsing).

(** The value of a digit up to radix 16. *)
Definition digit (c : Z) : option Z :=
  if (0x30 <=? c) && (c <=? 0x39) then Some (c - 0x30)
  else if (0x61 <=? c) && (c <=? 0x66) then Some (c - 0x61 + 10)
  else if (0x41 <=? c) && (c <=? 0x46) then Some (c - 0x41 + 10)
  else None.

(** [from_str_radix] and [parse] for unsigned numbers of [w] bits: an optional plus sign, then digits of the
    radix, at least one, and no overflow. *)
Definition from_str_radix (radix w : Z) (s : text) : option Z :=
  let s := match s with 0x2b :: s => s | _ => s end in
  if (length s =? 0)%nat then None
  else
    ds ← mapM (λ c, d ← digit c; guard (d < radix);; Some d) s;
    let n := foldl (λ n d, radix * n + d) 0 ds in
    if n <? 2 ^ w then Some n else None.

(** [s.trim_start_matches("0x")] *)
Fixpoint trim_0x (s : text) : text :=
  match s with
  | c :: (d :: s') => if (c =? 0x30) && (d =? 0x78) then trim_0x s' else s
  | _ => s
  end.

(** [unwrap] and [expect] *)
Definition unwrap {A} (o : option A) : outcome A := match o with Some a => Done a | None => Panic end.
Definition unwrap_ok {E A} (r : result E A) : outcome A := match r with Ok a => Done a | Err _ => Panic end.

(** The closure [hex] of the examples. *)
Definition hex (s : text) : outcome Z := unwrap (from_str_radix 16 16 (trim_0x s)).

(** [args.get(i).map_or(default, |s| s.parse().unwrap())] *)
Definition parsed_or (w default : Z) (arg : option text) : outcome Z :=
  match arg with None => Done default | Some s => unwrap (from_str_radix 10 w s) end.

(** ** nusb *)

Module TransferType.
Inductive t : Type := Control | Isochronous | Bulk | Interrupt.
#[global] Instance eq_dec : EqDecision t.
Proof. solve_decision. Defined.
End TransferType.

Module ControlType.
Inductive t : Type := Standard | Class_ | Vendor.
End ControlType.

Module Recipient.
Inductive t : Type := Device | Interface | Endpoint | Other.
End Recipient.

(** The fields of nusb's [ControlIn] and [ControlOut]. *)
Record control_in_request : Type := mk_control_in {
  in_type : ControlType.t; in_recipient : Recipient.t;
  in_request : Z; in_value : Z; in_index : Z; in_length : Z;
}.

Record control_out_request : Type := mk_control_out {
  out_type : ControlType.t; out_recipient : Recipient.t;
  out_request : Z; out_value : Z; out_index : Z; out_data : list Z;
}.

Class Nusb (W : Type) := {
  error : Type;
  info : Type;
  device : Type;
  alt_setting : Type;
  endpoint_descriptor : Type;
  interface : Type;
  out_endpoint : Type;
  in_endpoint : Type;
  list_devices : W → result error (list info) * W;
  vendor_id : info → Z;
  product_id : info → Z;
  open : info → W → result error device * W;
  interface_alt_settings : device → result error (list alt_setting);
  interface_number : alt_setting → Z;
  endpoints : alt_setting → list endpoint_descriptor;
  address : endpoint_descriptor → Z;
  transfer_type : endpoint_descriptor → TransferType.t;
  direction : endpoint_descriptor → Direction.t;
  detach_and_claim_interface : device → Z → W → result error interface * W;
  endpoint_out : interface → Z → W → result error out_endpoint * W;
  endpoint_in : interface → Z → W → result error in_endpoint * W;
  (** [transfer_blocking]: the status; for IN with the first [actual_len] bytes of the buffer *)
  transfer_out : out_endpoint → list Z → W → result error () * W;
  transfer_in : in_endpoint → nat → W → (result error () * list Z) * W;
  control_in : device → control_in_request → W → result error (list Z) * W;
  control_out : device → control_out_request → W → result error () * W;
  reset : device → W → result error () * W;
  (** [Instant::now()], in nanoseconds *)
  now : W → Z * W;
}.

Section Examples.
Context {W : Type} {N : Nusb W}.

(** The first device with the ids, opened. *)
Definition find_device (vid pid : Z) (w : W) : outcome (device * W) :=
  let '(infos, w) := list_devices w in
  infos ← unwrap_ok infos;
  i ← unwrap (find_first (λ d, (vendor_id d =? vid) && (product_id d =? pid)) infos);
  let '(dev, w) := open i w in
  dev ← unwrap_ok dev;
  Done (dev, w).

(** device_reset.rs *)
Definition device_reset (args : list text) (w : W) : outcome W :=
  vid ← (a ← idx args 1; hex a);
  pid ← (a ← idx args 2; hex a);
  '(dev, w) ← find_device vid pid w;
  let '(done, w) := reset dev w in
  _ ← unwrap_ok done;
  Done w.

(** vendor_request.rs *)
Definition vendor_request (args : list text) (w : W) : outcome W :=
  vid ← (a ← idx args 1; hex a);
  pid ← (a ← idx args 2; hex a);
  request ← (a ← idx args 3; wrap 8 <$> hex a);
  value ← match args !! 4%nat with None => Done 0 | Some v => hex v end;
  '(dev, w) ← find_device vid pid w;
  let '(sent, w) :=
    control_out dev (mk_control_out ControlType.Vendor Recipient.Device request value 0 []) w in
  _ ← unwrap_ok sent;
  Done w.

(** *** loopback_probe.rs *)

Definition TRANSFER_SIZE : nat := 4096.

(** How many bytes a round pushes. *)
Definition round_size (round : Z) : Z :=
  let size := 1 + wrap 64 (round * 37) mod 4096 in
  if size mod 512 =? 0 then size - 1 else size.

Definition round_payload (round : Z) : list Z :=
  (λ i, wrap 8 (wrap 64 (Z.of_nat i + round))) <$> seq 0 (Z.to_nat (round_size round)).

(** [while got.len() < size] *)
Fixpoint read_back (fuel : nat) (inp : in_endpoint) (size : nat) (got : list Z) (w : W) :
    outcome (list Z * W) :=
  if (length got <? size)%nat then
    match fuel with
    | O => OutOfFuel
    | S fuel =>
      let '((status, bytes), w) := transfer_in inp TRANSFER_SIZE w in
      _ ← unwrap_ok status;
      read_back fuel inp size (got ++ bytes) w
    end
  else Done (got, w).

(** One turn of [for round in 0..rounds]. *)
Definition probe_round (fuel : nat) (out : out_endpoint) (inp : in_endpoint) (round : Z) (w : W) : outcome W :=
  let payload := round_payload round in
  let '(status, w) := transfer_out out payload w in
  _ ← unwrap_ok status;
  '(got, w) ← read_back fuel inp (Z.to_nat (round_size round)) [] w;
  if bool_decide (got = payload) then Done w else Panic.

Fixpoint probe_rounds (fuel : nat) (out : out_endpoint) (inp : in_endpoint) (n : nat) (round : Z) (w : W) :
    outcome W :=
  match n with
  | O => Done w
  | S n => w ← probe_round fuel out inp round w; probe_rounds fuel out inp n (round + 1) w
  end.

Definition is_bulk (e : endpoint_descriptor) : bool := bool_decide (transfer_type e = TransferType.Bulk).

(** [fuel]: how many transfers a round may take. *)
Definition loopback_probe (fuel : nat) (args : list text) (w : W) : outcome (Z * W) :=
  vid ← (a ← idx args 1; unwrap (from_str_radix 16 16 a));
  pid ← (a ← idx args 2; unwrap (from_str_radix 16 16 a));
  rounds ← parsed_or 64 20 (args !! 3%nat);
  '(dev, w) ← find_device vid pid w;
  alts ← unwrap_ok (interface_alt_settings dev);
  alt ← unwrap (find_first (λ a, existsb is_bulk (endpoints a)) alts);
  let find d := unwrap (find_first (λ e, is_bulk e && bool_decide (direction e = d)) (endpoints alt)) in
  ep_in ← find Direction.In;
  ep_out ← find Direction.Out;
  let '(iface, w) := detach_and_claim_interface dev (interface_number alt) w in
  iface ← unwrap_ok iface;
  let '(out, w) := endpoint_out iface (address ep_out) w in
  out ← unwrap_ok out;
  let '(inp, w) := endpoint_in iface (address ep_in) w in
  inp ← unwrap_ok inp;
  w ← probe_rounds fuel out inp (Z.to_nat rounds) 0 w;
  Done (rounds, w).

(** *** latency_probe.rs *)

Definition GET_STATUS : control_in_request :=
  mk_control_in ControlType.Standard Recipient.Device 0x00 0 0 2.

(** [start.elapsed() / count]: dividing a [Duration] by zero panics. *)
Definition elapsed_per (start stop count : Z) : outcome Z :=
  if count =? 0 then Panic else Done (Z.max 0 (stop - start) / count).

Fixpoint time_control (dev : device) (n : nat) (w : W) : outcome W :=
  match n with
  | O => Done w
  | S n => let '(r, w) := control_in dev GET_STATUS w in _ ← unwrap_ok r; time_control dev n w
  end.

Fixpoint time_bulk (out : out_endpoint) (inp : in_endpoint) (n : nat) (i : Z) (w : W) : outcome W :=
  match n with
  | O => Done w
  | S n =>
    let '(status, w) := transfer_out out (replicate 63 (wrap 8 i)) w in
    _ ← unwrap_ok status;
    let '((status, bytes), w) := transfer_in inp 512 w in
    _ ← unwrap_ok status;
    if (length bytes =? 63)%nat then time_bulk out inp n (i + 1) w else Panic
  end.

(** The two averages it prints. *)
Definition latency_probe (args : list text) (w : W) : outcome (Z * Z * W) :=
  vid ← (a ← idx args 1; hex a);
  pid ← (a ← idx args 2; hex a);
  count ← parsed_or 32 500 (args !! 3%nat);
  '(dev, w) ← find_device vid pid w;
  let '(start, w) := now w in
  w ← time_control dev (Z.to_nat count) w;
  let '(stop, w) := now w in
  control ← elapsed_per start stop count;
  let '(iface, w) := detach_and_claim_interface dev 0 w in
  iface ← unwrap_ok iface;
  let '(out, w) := endpoint_out iface 0x01 w in
  out ← unwrap_ok out;
  let '(inp, w) := endpoint_in iface 0x81 w in
  inp ← unwrap_ok inp;
  let '(start, w) := now w in
  w ← time_bulk out inp (Z.to_nat count) 0 w;
  let '(stop, w) := now w in
  bulk ← elapsed_per start stop count;
  Done (control, bulk, w).

End Examples.

(** "127.0.0.1:3240" *)
Definition DEFAULT_ADDR : text :=
  [0x31; 0x32; 0x37; 0x2e; 0x30; 0x2e; 0x30; 0x2e; 0x31; 0x3a; 0x33; 0x32; 0x34; 0x30].

(** "1-1" *)
Definition BUSID : text := [0x31; 0x2d; 0x31].

(** mock_server.rs: the address it listens on, and what it exports. *)
Definition mock_server (args : list text) : outcome (text * list ExportDev.t) :=
  let addr := match args !! 1%nat with Some a => a | None => DEFAULT_ADDR end in
  speed ← parsed_or 32 3 (args !! 2%nat);
  let e := Loopback.export BUSID in
  Done (addr,
    [ExportDev.mk (ExportDev.path e) (ExportDev.busid e) (ExportDev.busnum e) (ExportDev.devnum e) speed
       (ExportDev.id_vendor e) (ExportDev.id_product e) (ExportDev.bcd_device e) (ExportDev.class e)
       (ExportDev.configuration_value e) (ExportDev.num_configurations e) (ExportDev.interfaces e)]).

(** ** What the probes need of the device *)

Section Laws.
Context {W : Type} {N : Nusb W}.

(** The bulk interface of the device is interface 0, with endpoints 0x01 and 0x81. *)
Definition bulk_alt (a : alt_setting) : Prop :=
  interface_number a = 0 ∧
  (∀ d, ∃ e, e ∈ endpoints a ∧ is_bulk e = true ∧ direction e = d) ∧
  ∀ e, e ∈ endpoints a → is_bulk e = true →
    address e = match direction e with Direction.Out => 0x01 | Direction.In => 0x81 end.

(** A host with one bulk loopback of these ids: what is written to its OUT endpoint in transfers that end
    with a short packet is queued, and read back from its IN endpoint in order.  [attached]: it can be
    opened; [opened]: this program has done so; [queued]: it has claimed the interface, and these bytes are
    on their way. *)
Class LoopbackLaws (vid pid : Z) := {
  attached : W → Prop;
  opened : device → W → Prop;
  queued : out_endpoint → in_endpoint → list Z → W → Prop;
  listed w : attached w → ∃ infos w', list_devices w = (Ok infos, w') ∧
    (∃ i, i ∈ infos ∧ vendor_id i = vid ∧ product_id i = pid) ∧
    ∀ i, i ∈ infos → vendor_id i = vid → product_id i = pid →
      ∃ dev w'', open i w' = (Ok dev, w'') ∧ opened dev w'';
  configured dev w : opened dev w → ∃ alts, interface_alt_settings dev = Ok alts ∧
    (∃ a, a ∈ alts ∧ bulk_alt a) ∧
    ∀ a, a ∈ alts → existsb is_bulk (endpoints a) = true → bulk_alt a;
  answers dev w : opened dev w → ∃ bs w', control_in dev GET_STATUS w = (Ok bs, w') ∧ opened dev w';
  claimed dev w : opened dev w → ∃ iface w1 out w2 inp w3,
    detach_and_claim_interface dev 0 w = (Ok iface, w1) ∧
    endpoint_out iface 0x01 w1 = (Ok out, w2) ∧ endpoint_in iface 0x81 w2 = (Ok inp, w3) ∧
    queued out inp [] w3;
  timed_opened dev w : opened dev w → opened dev (now w).2;
  timed_queued out inp q w : queued out inp q w → queued out inp q (now w).2;
  takes out inp q bs w : queued out inp q w → (length bs mod 512 ≠ 0)%nat →
    ∃ w', transfer_out out bs w = (Ok (), w') ∧ queued out inp (q ++ bs) w';
  returns_queued out inp q cap w : queued out inp q w → q ≠ [] → (0 < cap)%nat →
    ∃ bs q' w', transfer_in inp cap w = ((Ok (), bs), w') ∧ queued out inp q' w' ∧
      q = bs ++ q' ∧ bs ≠ [] ∧ (length bs ≤ cap)%nat ∧
      (** a transfer that a short packet ends comes back whole *)
      ((length q < 512)%nat → (length q ≤ cap)%nat → q' = []);
}.

End Laws.

(** ** The probes on such a device *)

Lemma round_size_ok round : 1 ≤ round_size round ≤ 4095 ∧ round_size round mod 512 ≠ 0.
Proof.
  unfold round_size. set (x := wrap 64 (round * 37) mod 4096).
  assert (0 ≤ x < 4096) by (apply Z.mod_pos_bound; lia). clearbody x.
  destruct ((1 + x) mod 512 =? 0) eqn:E; Z.div_mod_to_equations; lia.
Qed.

Lemma length_payload round : Z.of_nat (length (round_payload round)) = round_size round.
Proof. unfold round_payload. rewrite length_fmap, length_seq. pose proof (round_size_ok round). lia. Qed.

Section Passing.
Context {W : Type} {N : Nusb W} (vid pid : Z) {L : LoopbackLaws vid pid}.

Lemma device_found w : attached w → ∃ dev w', find_device vid pid w = Done (dev, w') ∧ opened dev w'.
Proof.
  intros H. destruct (listed w H) as (infos & w1 & E & (i & Hi & Hv & Hp) & Ho).
  unfold find_device. rewrite E. cbn.
  destruct (find_first _ infos) as [j|] eqn:Ef.
  - apply find_first_in in Ef as [Hj [Ev%Z.eqb_eq Ep%Z.eqb_eq]%andb_true_iff].
    destruct (Ho j Hj Ev Ep) as (dev & w2 & E2 & Hd). cbn. rewrite E2. cbn. eauto.
  - exfalso. pose proof (find_first_not_in _ _ _ Ef Hi) as Hno. cbn in Hno. lia.
Qed.

Lemma read_back_all fuel out inp q got w : queued out inp q w → (length q ≤ fuel)%nat →
  ∃ w', read_back fuel inp (length got + length q) got w = Done (got ++ q, w') ∧ queued out inp [] w'.
Proof.
  revert q got w. induction fuel as [|fuel IH]; intros q got w Hq Hf.
  - destruct q; [|cbn in Hf; lia]. cbn [length]. rewrite Nat.add_0_r, app_nil_r. cbn [read_back].
    rewrite Nat.ltb_irrefl. eauto.
  - destruct q as [|b q0].
    { cbn [length]. rewrite Nat.add_0_r, app_nil_r. cbn [read_back]. rewrite Nat.ltb_irrefl. eauto. }
    assert (b :: q0 ≠ []) as Hn by done. revert Hn Hq Hf. generalize (b :: q0). intros q Hn Hq Hf.
    cbn [read_back]. rewrite (proj2 (Nat.ltb_lt _ _)) by (destruct q; [done|cbn; lia]).
    destruct (returns_queued out inp q TRANSFER_SIZE w Hq) as (bs & q' & w' & E & Hq' & Eq & Hne & Hl & _);
      [done|unfold TRANSFER_SIZE; lia|].
    rewrite E. cbn [unwrap_ok mbind outcome_bind]. rewrite Eq, length_app, Nat.add_assoc, app_assoc.
    destruct (IH q' (got ++ bs) w' Hq') as (w2 & E2 & Hq2).
    { rewrite Eq, length_app in Hf. destruct bs; [done|]. cbn in Hf. lia. }
    rewrite length_app in E2. eauto.
Qed.

Lemma probe_round_passes fuel out inp round w : queued out inp [] w → (4095 ≤ fuel)%nat →
  ∃ w', probe_round fuel out inp round w = Done w' ∧ queued out inp [] w'.
Proof.
  intros Hq Hf. unfold probe_round.
  pose proof (round_size_ok round) as [Hr Hm]. pose proof (length_payload round) as Hl.
  destruct (takes out inp [] (round_payload round) w Hq) as (w1 & E1 & Hq1).
  { intros E. apply Hm. rewrite <- Hl. change 512 with (Z.of_nat 512). by rewrite <- Nat2Z.inj_mod, E. }
  rewrite E1. cbn in *.
  destruct (read_back_all fuel out inp (round_payload round) [] w1 Hq1) as (w2 & E2 & Hq2); [lia|].
  cbn [length Nat.add app] in E2.
  replace (Z.to_nat (round_size round)) with (length (round_payload round)) by lia.
  rewrite E2. cbn. rewrite bool_decide_eq_true_2 by done. eauto.
Qed.

Lemma probe_rounds_pass fuel out inp n round w : queued out inp [] w → (4095 ≤ fuel)%nat →
  ∃ w', probe_rounds fuel out inp n round w = Done w' ∧ queued out inp [] w'.
Proof.
  revert round w. induction n as [|n IH]; intros round w Hq Hf; [by exists w|].
  destruct (probe_round_passes fuel out inp round w Hq Hf) as (w1 & E & Hq1).
  cbn. rewrite E. by apply IH.
Qed.

Lemma alt_found dev w : opened dev w → ∃ alts alt ep_in ep_out, interface_alt_settings dev = Ok alts ∧
  find_first (λ a, existsb is_bulk (endpoints a)) alts = Some alt ∧ interface_number alt = 0 ∧
  find_first (λ e, is_bulk e && bool_decide (direction e = Direction.In)) (endpoints alt) = Some ep_in ∧
  find_first (λ e, is_bulk e && bool_decide (direction e = Direction.Out)) (endpoints alt) = Some ep_out ∧
  address ep_in = 0x81 ∧ address ep_out = 0x01.
Proof.
  intros H. destruct (configured dev w H) as (alts & E & (a & Ha & Hb) & Hall).
  destruct (find_first (λ a, existsb is_bulk (endpoints a)) alts) as [alt|] eqn:Ef.
  2: { exfalso. pose proof (find_first_not_in _ _ _ Ef Ha) as Hno. cbn in Hno.
       destruct Hb as (_ & Hex & _). destruct (Hex Direction.In) as (e & He & Hbe & _).
       assert (existsb is_bulk (endpoints a) = true); [|congruence].
       apply existsb_exists. exists e. by rewrite <- list_elem_of_In. }
  apply find_first_in in Ef as Ef'. destruct Ef' as [Hin Hbulk].
  destruct (Hall alt Hin Hbulk) as (Hn & Hex & Haddr).
  assert (∀ d, ∃ e, find_first (λ e, is_bulk e && bool_decide (direction e = d)) (endpoints alt) = Some e ∧
    address e = match d with Direction.Out => 0x01 | Direction.In => 0x81 end) as Hfind.
  { intros d.
    destruct (find_first (λ e, is_bulk e && bool_decide (direction e = d)) (endpoints alt)) as [e|] eqn:Ee.
    - exists e. split; [done|]. apply find_first_in in Ee as [He [Hbe <-%bool_decide_eq_true]%andb_true_iff].
      by apply Haddr.
    - exfalso. destruct (Hex d) as (e & He & Hbe & Hd). pose proof (find_first_not_in _ _ _ Ee He) as Hno.
      cbn in Hno. rewrite Hbe, bool_decide_eq_true_2 in Hno by done. done. }
  destruct (Hfind Direction.In) as (ep_in & E1 & A1), (Hfind Direction.Out) as (ep_out & E2 & A2).
  by exists alts, alt, ep_in, ep_out.
Qed.

Lemma time_control_done dev n w : opened dev w → ∃ w', time_control dev n w = Done w' ∧ opened dev w'.
Proof.
  revert w. induction n as [|n IH]; intros w H; [by exists w|].
  destruct (answers dev w H) as (bs & w1 & E & H1). cbn. rewrite E. cbn. by apply IH.
Qed.

Lemma time_bulk_done out inp n i w : queued out inp [] w →
  ∃ w', time_bulk out inp n i w = Done w' ∧ queued out inp [] w'.
Proof.
  revert i w. induction n as [|n IH]; intros i w H; [by exists w|].
  destruct (takes out inp [] (replicate 63 (wrap 8 i)) w H) as (w1 & E1 & H1); [done|].
  cbn [time_bulk]. rewrite E1. cbn [unwrap_ok mbind outcome_bind].
  change ([] ++ ?l) with l in H1.
  destruct (returns_queued out inp (replicate 63 (wrap 8 i)) 512 w1 H1) as (bs & q' & w2 & E2 & H2 & Eq & _ & _ & Hall);
    [done|lia|]. rewrite E2. cbn [unwrap_ok mbind outcome_bind].
  assert (q' = []) as -> by (apply Hall; rewrite length_replicate; lia).
  rewrite app_nil_r in Eq. subst bs. rewrite length_replicate. by apply IH.
Qed.

(** C38: Pointed at a bulk loopback, loopback_probe passes: every round's transfer is taken, the loop that
    reads it back ends within as many transfers as the round has bytes, at most 4095, the bytes that come
    back are the ones that were sent, and nothing is left in the device. *)
Theorem probe_passes fuel args a1 a2 rounds w :
  args !! 1%nat = Some a1 → from_str_radix 16 16 a1 = Some vid →
  args !! 2%nat = Some a2 → from_str_radix 16 16 a2 = Some pid →
  parsed_or 64 20 (args !! 3%nat) = Done rounds → attached w → (4095 ≤ fuel)%nat →
  ∃ out inp w', loopback_probe fuel args w = Done (rounds, w') ∧ queued out inp [] w'.
Proof.
  intros A1 P1 A2 P2 P3 Hw Hf. unfold loopback_probe, idx. rewrite A1, A2, P3. cbn. rewrite P1, P2. cbn.
  destruct (device_found w Hw) as (dev & w1 & E1 & H1). rewrite E1. cbn.
  destruct (alt_found dev w1 H1) as (alts & alt & ep_in & ep_out & E2 & E3 & E4 & E5 & E6 & E7 & E8).
  rewrite E2. cbn. rewrite E3. cbn. rewrite E5. cbn. rewrite E6. cbn. rewrite E4, E7, E8.
  destruct (claimed dev w1 H1) as (iface & w2 & out & w3 & inp & w4 & -> & E9 & E10 & Hq). cbn.
  rewrite E9. cbn. rewrite E10. cbn.
  destruct (probe_rounds_pass fuel out inp (Z.to_nat rounds) 0 w4 Hq Hf) as (w5 & -> & Hq5). cbn.
  by exists out, inp, w5.
Qed.

(** latency_probe measures as soon as there is something to measure: with a positive count every round
    trip succeeds and both averages are printed; asked for none, it panics dividing by zero, before it has
    claimed the interface. *)
Theorem latency_probe_ends args a1 a2 count w :
  args !! 1%nat = Some a1 → hex a1 = Done vid → args !! 2%nat = Some a2 → hex a2 = Done pid →
  parsed_or 32 500 (args !! 3%nat) = Done count → attached w →
  if count =? 0 then latency_probe args w = Panic
  else ∃ control bulk w', latency_probe args w = Done (control, bulk, w') ∧
    (0 < count → 0 ≤ control ∧ 0 ≤ bulk).
Proof.
  intros A1 P1 A2 P2 P3 Hw. unfold latency_probe, idx. rewrite A1, A2, P3. cbn. rewrite P1, P2. cbn.
  destruct (device_found w Hw) as (dev & w1 & E1 & H1). rewrite E1. cbn.
  apply timed_opened in H1. destruct (now w1) as [t1 w2]. cbn in H1.
  destruct (time_control_done dev (Z.to_nat count) w2 H1) as (w3 & -> & H3). cbn.
  apply timed_opened in H3. destruct (now w3) as [t2 w4]. cbn in H3. unfold elapsed_per.
  destruct (count =? 0); [done|]. cbn.
  destruct (claimed dev w4 H3) as (iface & w5 & out & w6 & inp & w7 & -> & E9 & E10 & Hq). cbn.
  rewrite E9. cbn. rewrite E10. cbn. apply timed_queued in Hq.
  destruct (now w7) as [t3 w8]. cbn in Hq.
  destruct (time_bulk_done out inp (Z.to_nat count) 0 w8 Hq) as (w9 & -> & Hq9). cbn.
  destruct (now w9) as [t4 w10]. eexists _, _, w10. split; [done|].
  intros. split; apply Z.div_pos; lia.
Qed.

End Passing.

(** ** The repository's loopback device as the device *)

Module Direct.

Import Loopback.

(** A host with the device on its own, no time passing but in transfers. *)
Record host : Type := mk { device_state : State.t; clock : Z }.

Definition urb (dir ep len : Z) (setup data : list Z) : Urb.t :=
  Urb.mk 1 0x10001 dir ep 0 len 0 0 0 setup data [].

(** The setup packet of a control request. *)
Definition setup (dir : Z) (t : ControlType.t) (r : Recipient.t) (request value index len : Z) : list Z :=
  let kind := match t with ControlType.Standard => 0 | ControlType.Class_ => 0x20 | ControlType.Vendor => 0x40 end in
  let recipient :=
    match r with Recipient.Device => 0 | Recipient.Interface => 1 | Recipient.Endpoint => 2 | Recipient.Other => 3 end in
  [dir + kind + recipient; request] ++ le_bytes 2 value ++ le_bytes 2 index ++ le_bytes 2 len.

(** What a transfer ends in: its data if it succeeded, an error if it failed or timed out. *)
Definition outcome_of (r : option (Outcome.t * State.t)) (h : host) : (result () () * list Z) * host :=
  match r with
  | Some (Outcome.Complete c, s) =>
    (if Completion.status c =? 0 then (Ok (), Completion.data c) else (Err (), []), mk s (clock h + 1))
  | Some (_, s) => ((Err (), []), mk s (clock h + 1))
  | None => ((Err (), []), h)
  end.

#[export] Instance nusb : Nusb host := {
  error := ();
  info := ();
  device := ();
  alt_setting := Z * list (Z * Z);
  endpoint_descriptor := Z * Z;
  interface := ();
  out_endpoint := Z;
  in_endpoint := Z;
  list_devices h := (Ok [()], h);
  vendor_id _ := VID;
  product_id _ := PID;
  open _ h := (Ok (), h);
  interface_alt_settings _ := Ok [(0, take 3 ENDPOINTS); (1, []); (1, drop 3 ENDPOINTS)];
  interface_number a := a.1;
  endpoints a := a.2;
  address e := e.1;
  transfer_type e :=
    if e.2 =? 1 then TransferType.Isochronous
    else if e.2 =? 2 then TransferType.Bulk else TransferType.Interrupt;
  direction e := if e.1 <? 0x80 then Direction.Out else Direction.In;
  detach_and_claim_interface _ _ h := (Ok (), h);
  endpoint_out _ a h := (Ok a, h);
  endpoint_in _ a h := (Ok a, h);
  transfer_out a bs h :=
    let u := urb 0 a (Z.of_nat (length bs)) (replicate 8 0) bs in
    let '((r, _), h) := outcome_of (act u (device_state h)) h in (r, h);
  transfer_in a n h :=
    let u := urb 1 (a mod 16) (Z.of_nat n) (replicate 8 0) [] in
    outcome_of (act u (device_state h)) h;
  control_in _ r h :=
    let setup := setup 0x80 (in_type r) (in_recipient r) (in_request r) (in_value r) (in_index r) (in_length r) in
    let u := urb 1 0 (in_length r) setup [] in
    let '((x, bs), h) := outcome_of (Some (Loopback.control u (device_state h))) h in
    (match x with Ok _ => Ok bs | Err e => Err e end, h);
  control_out _ r h :=
    let len := Z.of_nat (length (out_data r)) in
    let setup := setup 0 (out_type r) (out_recipient r) (out_request r) (out_value r) (out_index r) len in
    let u := urb 0 0 len setup (out_data r) in
    let '((x, _), h) := outcome_of (Some (Loopback.control u (device_state h))) h in (x, h);
  reset _ h := (Ok (), mk State.default (clock h));
  now h := (clock h, mk (device_state h) (clock h + 1));
}.

(** A bulk read of a queue that is not empty. *)
Lemma drain_act cap h : State.fifo (device_state h) ≠ [] →
  let n := (length (State.fifo (device_state h)) `min` cap)%nat in
  ∃ h', transfer_in (W := host) (EP_BULK_IN : @in_endpoint host nusb) cap h
        = ((Ok (), take n (State.fifo (device_state h))), h') ∧
    State.fifo (device_state h') = drop n (State.fifo (device_state h)).
Proof.
  intros Hq n. cbn [transfer_in nusb]. unfold act.
  change (urb_address _) with EP_BULK_IN. cbn.
  destruct (length (State.fifo (device_state h)) =? 0)%nat eqn:E.
  { apply Nat.eqb_eq, nil_length_inv in E. done. }
  cbn. rewrite Nat2Z.id. by eexists.
Qed.

#[export] Instance laws : LoopbackLaws VID PID.
Proof.
  refine {|
    attached (h : host) := State.fifo (device_state h) = [];
    opened (_ : @device host nusb) h := State.fifo (device_state h) = [];
    queued (o : @out_endpoint host nusb) (i : @in_endpoint host nusb) q h :=
      o = 0x01 ∧ i = 0x81 ∧ State.fifo (device_state h) = q |}.
  - intros h Hh. eexists _, _. split; [reflexivity|]. split.
    + exists (). split; [left|done].
    + intros i _ _ _. by exists (), h.
  - intros dev h Hh. eexists. split; [reflexivity|].
    assert (bulk_alt (W := host) (0, take 3 ENDPOINTS)) as Hb.
    { split; [done|]. split.
      - intros []; [exists (EP_BULK_OUT, 2)|exists (EP_BULK_IN, 2)]; (split; [set_solver|done]).
      - intros e He. cbn in He. repeat (apply elem_of_cons in He as [->|He]; [done|]). by apply elem_of_nil in He. }
    split; [eexists; split; [left|done]|].
    intros a Ha. repeat (apply elem_of_cons in Ha as [->|Ha]; [done|]). by apply elem_of_nil in Ha.
  - intros dev h Hh. eexists _, _. split; [vm_compute; reflexivity|]. done.
  - intros dev h Hh. by eexists _, _, _, _, _, _.
  - done.
  - done.
  - intros o i q bs h (-> & -> & <-) _. eexists. split; [vm_compute; reflexivity|]. done.
  - intros o i q cap h (-> & -> & Eq) Hq Hc.
    destruct (drain_act cap h ltac:(by rewrite Eq)) as (h' & E & Eh).
    rewrite Eq in E, Eh. exists (take (length q `min` cap) q), (drop (length q `min` cap) q), h'.
    split; [exact E|]. split; [done|]. split; [by rewrite take_drop|].
    split; [destruct q, cap; done || lia|].
    split; [rewrite length_take; lia|]. intros _ Hl. apply nil_length_inv. rewrite length_drop. lia.
Defined.

End Direct.

(** ** The mock server's device can be listed and imported *)

Lemma from_str_radix_range radix w s n : 0 ≤ radix → from_str_radix radix w s = Some n → is_u w n.
Proof.
  intros Hr H. unfold from_str_radix in H. case_match; [done|].
  destruct (mapM _ _) as [ds|] eqn:E; [|done]. cbn in H.
  assert (Forall (λ d, 0 ≤ d) ds) as Hds.
  { apply mapM_Some_1 in E. clear -E. induction E as [|c d cs ds Hd _ IH]; constructor; [|done].
    destruct (digit c) as [d0|] eqn:Ed; [|done].
    cbn in Hd. case_guard; [|done]. injection Hd as <-. unfold digit in Ed.
    repeat match type of Ed with (if ?b then _ else _) = _ => destruct b eqn:? end; simplify_eq; lia. }
  assert (∀ m, 0 ≤ m → 0 ≤ foldl (λ n d, radix * n + d) m ds) as Hf.
  { clear E H. induction Hds as [|d ds Hd _ IH]; intros m Hm; cbn; [done|]. apply IH. nia. }
  case_match; [|done]. injection H as <-. split; [by apply Hf|lia].
Qed.

Lemma mock_server_exports args addr es : mock_server args = Done (addr, es) →
  Forall (λ e, export_wf e ∧ is_u 16 (ExportDev.devnum e) ∧ ExportDev.busid e = BUSID) es.
Proof.
  unfold mock_server. intros H. destruct (parsed_or 32 3 (args !! 2%nat)) as [speed| |] eqn:E; try done.
  injection H as <- <-.
  assert (is_u 32 speed) as Hs.
  { unfold parsed_or, unwrap in E. destruct (args !! 2%nat) as [s|]; [|by injection E as <-].
    destruct (from_str_radix 10 32 s) as [n|] eqn:En; [|done]. injection E as <-.
    by apply (from_str_radix_range 10 32 s). }
  constructor; [|done]. split; [|by split; [apply (bool_decide_unpack _); vm_compute|]].
  constructor; try exact Hs; try (by apply (bool_decide_unpack _); vm_compute); try (by vm_compute; lia).
  - split; [|by apply (bool_decide_unpack _); vm_compute]. apply Utf8.ascii_valid. by repeat constructor.
  - split; [|by apply (bool_decide_unpack _); vm_compute]. apply Utf8.ascii_valid. by repeat constructor.
Qed.

(** ** The probes on the repository's loopback device *)

Module ProbeRun.

Import Direct.

Definition name : text := [0x70].
Definition vid_arg : text := [0x31; 0x32; 0x30; 0x39].
Definition pid_arg : text := [0x37; 0x33; 0x35; 0x37].
Definition plugged : host := mk Loopback.State.default 0.

End ProbeRun.

Import Direct.

Lemma probe_passes_witness : ∃ h : host,
  loopback_probe 4095 [ProbeRun.name; ProbeRun.vid_arg; ProbeRun.pid_arg] ProbeRun.plugged = Done (20, h) ∧
  Loopback.State.fifo (device_state h) = [].
Proof.
  destruct (probe_passes Loopback.VID Loopback.PID 4095 [ProbeRun.name; ProbeRun.vid_arg; ProbeRun.pid_arg]
    ProbeRun.vid_arg ProbeRun.pid_arg 20 ProbeRun.plugged eq_refl ltac:(vm_compute; reflexivity) eq_refl
    ltac:(vm_compute; reflexivity) eq_refl eq_refl ltac:(lia)) as (out & inp & h & E & _ & _ & Hq).
  exists h. split; [exact E|exact Hq].
Defined.

Lemma latency_probe_ends_witness :
  latency_probe [ProbeRun.name; ProbeRun.vid_arg; ProbeRun.pid_arg; [0x30]] ProbeRun.plugged = Panic ∧
  ∃ control bulk h,
    latency_probe [ProbeRun.name; ProbeRun.vid_arg; ProbeRun.pid_arg] ProbeRun.plugged = Done (control, bulk, h).
Proof.
  split.
  - apply (latency_probe_ends Loopback.VID Loopback.PID
      [ProbeRun.name; ProbeRun.vid_arg; ProbeRun.pid_arg; [0x30]] ProbeRun.vid_arg ProbeRun.pid_arg 0 ProbeRun.plugged);
      reflexivity.
  - destruct (latency_probe_ends Loopback.VID Loopback.PID [ProbeRun.name; ProbeRun.vid_arg; ProbeRun.pid_arg]
      ProbeRun.vid_arg ProbeRun.pid_arg 500 ProbeRun.plugged) as (control & bulk & h & E & _);
      [reflexivity..|]. exists control, bulk, h. exact E.
Defined.
